(* ===== verification/_CoqProject ===== *)
-Q . S2P
Prelude.v
GoContext.v
Utf8.v
Json.v
JsonText.v
HtmlTemplate.v
Retry.v
WorkerPool.v
Periodic.v
Entrypoint.v
Prom.v
HttpServer.v
ServerLifecycle.v
HealthServer.v
Grpc.v
KafkaNet.v
Managed.v
DbService.v
RedisService.v
Producer.v
Consumer.v
ConsumerStart.v
Orders.v
OrderJson.v
MemoryStore.v
PostgresStore.v
Publishing.v
Caching.v
Processing.v
System.v
App.v
Api.v
HttpClient.v
Dashboard.v
Pages.v
Backends.v
Main.v
