(* ===== verification/Prelude.v ===== *)
(** * gokit-services: a verification library

    gokit-services is a Go toolkit of service components (src/pkg) and an example
    that uses all of them, the orders service (src/example/orders-service).  This
    library models both, file by file, and proves what each component promises
    and that the example, which is their composition, keeps its own promise:
    one outcome per order, whatever fails and however calls interleave.

    ** How the code is modelled

    A sequential operation is a function in [io W], a computation over a world
    [W] ([W -> A * W]); code the repository does not own (drivers, the Kafka and
    Redis clients, the database, the clock, [net/http]) is an argument of the
    definitions that use it, and what is relied on of it is a typeclass named
    after its documentation ([registry], [pgx], [database], [redis_cache],
    [transport_laws], ...), each instantiated in a witness.  A concurrent
    component is a machine: a [state], a [label] for each operation that may be
    interleaved (a channel operation, a lock, a return), and an executable
    [step : label -> state -> option state]; theorems hold of every schedule.
    An [error] is a [goerr], whose wrapping is kept so that [errors.Is] and the
    text can be computed; a fallible result is a [res].  Integers are [Z] with the
    wrap-around of their width written out where the code can reach it
    (durations, the retry backoff through binary64, the order counter, sums of
    quantities).  A context is the tree of calls that made it (GoContext).

    ** The parts

    The toolkit, src/pkg:
    - Retry: internal/retry.  WorkerPool: workerpool.  Periodic: periodic.
    - Entrypoint: core/entrypoint (hooks, services, signals, shutdown); the
      interfaces of core/service are its [implements_Shutdown] and the probers
      of HealthServer.
    - Prom: internal/prom, which every component's metrics go through.
    - HttpServer: http/server's options, metrics and panic middleware;
      ServerLifecycle: [Start] and [Stop] of http/server and grpc/server, which
      share one protocol; Grpc: grpc/server's options and grpc/client.
    - HealthServer: healthserver, served through HttpServer's middleware.
    - HttpClient: http/client.
    - Managed: the interface of a held resource (opened with Retry's [Do],
      closed once), discharged by DbService (dbservice), RedisService
      (redisservice), Producer and Consumer (kafka/producer, kafka/consumer);
      KafkaNet: the dialer the last two share; ConsumerStart: the consumer's loop
      together with the worker pool its [Start] runs.
    The example, src/example/orders-service:
    - Orders: order.go, with the [Store] interface as a record of operations and
      its documented contract as the class [store], and [store_for], which leaves
      open how old the order is that a [Get] answers and at what resolution a
      cutoff is compared; OrderJson: the JSON of its types.
    - MemoryStore (store_memory.go) implements the contract, PostgresStore
      (store/postgres.go) with cutoffs in whole microseconds; Publishing
      (events.go, store/publisher.go) keeps what the store it wraps keeps, and
      Caching (store/caching.go) all but that a [Get] is current.
    - Processing: worker.go (the task the pool runs) and cleanup.go (the sweep
      the periodic service runs), clients of the contract.
    - Api: httpapi.go and grpcapi.go, two transports over one store; Dashboard:
      dashboard.go, a client of both; Pages: its four templates and what is sent.
    - Backends: serverkit (the composition the environment's flags choose, and
      the readiness gate) and what cmd/orders-service/main.go configures.
    - System: requests, WorkerPool, Processing's tasks and sweeps over a store, as
      one machine; App: System under Entrypoint's [Run]; Main: App at the
      configuration of main.
    Shared: Prelude (errors, results, [io], widths, step relations and their
    reachability, the automation), GoContext, Utf8 (Go's reading of strings as
    runes), Json and JsonText ([encoding/json]: values, printing, parsing,
    decoding into structs, broken UTF-8 replaced),
    HtmlTemplate (the part of [html/template] the pages use).

    ** What is proved

    - Schedules: exactly-once execution, FIFO, the drain guarantee and
      termination of the pool; no overlapping calls of a periodic callback;
      the order of the entrypoint's hooks and of its launches of [Start]s and
      [Stop]s, the cause it returns, and that it returns even if services hang;
      one graceful shutdown of a server, what [Stop]'s result means and that
      [Stop] returns.
    - Refinement: [Do] against an abstract retry specification; the stores, the
      decorators and every composition of them against the [Store] contract, as
      far as each keeps it (see The parts).
    - The orders: one outcome per order along any history of any store; the
      events handed to Kafka are exactly those outcomes; a cached read never
      makes up an order; confirmations and sweeps never both win; a message is
      committed only after its handler succeeded.
    - Compositions: the consumer's loop and pool run together as each runs alone,
      with a bound on the messages in flight, and how far [Start] is from
      returning; of the service as a whole, the task of every order whose
      [Enqueue] returned nil runs exactly once and no order is lost from sight.  A
      shutdown that ends in time has run all these tasks, but those that wait for
      their delay, every queued one among them, are interrupted: their orders stay
      PENDING, which is not what the repository's documents promise.
    - Pages: whatever strings the APIs answer, a page has the markup of its
      template; the table shows the orders' values; every link is served.
    - Agreement and encodings: REST and gRPC do the same and tell the same order
      or the same error, and the dashboard shows the same from both; requests,
      responses, orders and events survive encoding and decoding up to the
      replacement of broken UTF-8; the limits on an order hold for the numbers
      that were sent.
    - Errors and metrics: the middleware is transparent and its metrics
      balance; what a client sees after a panic; what a request that fails
      leaves behind; readiness; no leaked connection.

    ** Bounds and fuel

    Retry's loop takes the number of attempts as fuel and always ends on a return
    of the code; its refinement is for durations below 2^51 ns (26 days), where
    binary64 is exact enough.  [wait_pool] takes fuel for the polls left before
    its context's deadline, and [gate_opens_once] proves that one more than that
    number is enough.  The parser's fuel is the nesting [encoding/json] allows
    (10000), so running out of it is the decoder's own error.  The lexer and parser
    of templates take more fuel than there are characters and tokens, and the
    four templates are parsed by computation.  The in-memory
    store's contract is for fewer than 2^64 - 1 orders.  Machines need no fuel:
    termination is a measure that every step decreases.

    ** What is not modelled

    Log lines; the values of HTTP deadlines (kept as configuration); the contents of
    the dashboard's static files and the file server's redirects; unquoted
    attributes, comments and scripts as contexts of [html/template], which the
    templates do not print into; the generated protobuf code, apart from the
    messages' fields and the enum's names; the internals of libraries.
    In the [Store] contract an operation is one step, as the mutex and the single
    SQL statements make it; the three that are more than one step are also
    proved among other goroutines: [create_among] in MemoryStore,
    [confirm_among] in PostgresStore, and the cached [Get] in Caching.  A creation
    is for items whose SKUs are valid UTF-8, as both transports deliver them
    ([sent_items]).  Of [encoding/json]'s corners, the reuse of a slice's old
    elements when an object repeats the key of an array is left out; so is the
    text of a decoding error.  The writer of [net/http] keeps no account of a
    Content-Length and sends a HEAD request's body ([conn] in HttpServer says what
    that leaves to the connection), and a time is an instant without a Location.
    Of a consumer group the rebalance is modelled, not what other members commit. *)

From Stdlib Require Export ZArith Lia.
From stdpp Require Export base tactics option gmap strings pretty relations numbers sets list.

Declare Scope go_scope.
Delimit Scope go_scope with go.
Open Scope Z_scope.

(** ** Errors

    A Go [error] value.  [Sentinel] is a package-level error variable, compared
    by identity (its name); [Text] is an error made on the spot, which no other
    error [Is]; [Wrap] is [fmt.Errorf("pre: %w", e)] and [Wrap2] the
    two-verb form [fmt.Errorf("pre: %w; mid: %w", e1, e2)]. *)
Inductive goerr : Type :=
  | Sentinel (name msg : string)
  | Text (msg : string)
  | Wrap (pre : string) (e : goerr)
  | Wrap2 (pre : string) (e1 : goerr) (mid : string) (e2 : goerr).

#[export] Instance goerr_eq_dec : EqDecision goerr.
Proof. solve_decision. Defined.

(** The sentinels of the standard library the program tests against. *)
Definition Canceled : goerr := Sentinel "context.Canceled" "context canceled".
Definition DeadlineExceeded : goerr :=
  Sentinel "context.DeadlineExceeded" "context deadline exceeded".
Definition ErrClosedPipe : goerr := Sentinel "io.ErrClosedPipe" "io: read/write on closed pipe".
Definition ErrEOF : goerr := Sentinel "io.EOF" "EOF".
Definition ErrServerClosed : goerr := Sentinel "http.ErrServerClosed" "http: Server closed".

(** [err.Error()]. *)
Fixpoint err_msg (e : goerr) : string :=
  match e with
  | Sentinel _ m | Text m => m
  | Wrap pre e => pre +:+ ": " +:+ err_msg e
  | Wrap2 pre e1 mid e2 => pre +:+ ": " +:+ err_msg e1 +:+ "; " +:+ mid +:+ ": " +:+ err_msg e2
  end.

(** [errors.Is(err, target)] for a sentinel target, given by its name. *)
Fixpoint err_is (e : goerr) (name : string) : bool :=
  match e with
  | Sentinel n _ => bool_decide (n = name)
  | Text _ => false
  | Wrap _ e => err_is e name
  | Wrap2 _ e1 _ e2 => err_is e1 name || err_is e2 name
  end.

(** [errors.Is(err, context.Canceled)] and its siblings. *)
Definition errors_Is (e target : goerr) : bool :=
  match target with
  | Sentinel n _ => err_is e n
  | _ => bool_decide (e = target)
  end.

(** ** Results: the pair [(T, error)] every fallible Go function returns,
    read as a sum because the code does not use the value of a failed call (the
    one place that does, the dashboard's counters, takes it apart). *)
Inductive res (A : Type) : Type :=
  | Ok (a : A)
  | Err (e : goerr).
Arguments Ok {A} a.
Arguments Err {A} e.

Definition is_ok {A} (r : res A) : bool := match r with Ok _ => true | Err _ => false end.

(** [if err != nil { return fmt.Errorf("pre: %w", err) }]. *)
Definition wrap_err {A} (pre : string) (r : res A) : res A :=
  match r with Ok a => Ok a | Err e => Err (Wrap pre e) end.

(** The error of a call that returns only an [error]: [None] is [nil]. *)
Definition of_err (o : option goerr) : res unit :=
  match o with None => Ok tt | Some e => Err e end.

(** How a call that may panic ends. *)
Inductive outcome (A : Type) : Type :=
  | Ret (a : A)
  | Panics (v : goerr).
Arguments Ret {A} a.
Arguments Panics {A} v.

(** ** The world monad

    Code that calls out (a driver, a broker, the clock) is a function of the
    world [W] the calls read and change; a component is parametric in [W]. *)
Definition io (W A : Type) : Type := W → A * W.

#[export] Instance io_ret {W} : MRet (io W) := λ A a w, (a, w).
#[export] Instance io_bind {W} : MBind (io W) := λ A B f m w, let '(a, w') := m w in f a w'.
#[export] Instance io_fmap {W} : FMap (io W) := λ A B f m w, let '(a, w') := m w in (f a, w').

Definition get_world {W} : io W W := λ w, (w, w).
Definition put_world {W} (w' : W) : io W unit := λ _, (tt, w').
Definition modify {W} (f : W → W) : io W unit := λ w, (tt, f w).

(** [x, err := m; if err != nil { return ..., fmt.Errorf("pre: %w", err) }; k x]. *)
Definition try_wrap {W A B} (pre : string) (m : io W (res A)) (k : A → io W (res B)) :
    io W (res B) :=
  r ← m; match r with Ok a => k a | Err e => mret (Err (Wrap pre e)) end.

Notation "'TRY' x ← m 'WRAP' p ; k" := (try_wrap p m (λ x, k))
  (at level 10, x name, m at level 100, p at level 100, k at level 200) : go_scope.

(** ** Machines

    Concurrent code is a labelled machine: [step l s] is the state after the
    atomic action [l], or [None] when [l] is not enabled in [s].  A schedule is
    a list of labels. *)
Section machine.
Context {S L : Type} (step : L → S → option S).

Fixpoint exec (ls : list L) (s : S) : option S :=
  match ls with
  | [] => Some s
  | l :: ls => s' ← step l s; exec ls s'
  end.

(** The same machine as a step relation. *)
Inductive trans : S → S → Prop :=
  | trans_label l s s' : step l s = Some s' → trans s s'.

(** [reach s s'] : some schedule leads from [s] to [s']. *)
Definition reach (s s' : S) : Prop := ∃ ls, exec ls s = Some s'.

Lemma exec_app ls1 ls2 s :
  exec (ls1 ++ ls2) s = exec ls1 s ≫= exec ls2.
Proof.
  revert s. induction ls1 as [|l ls1 IH]; intros s; [done|].
  simpl. destruct (step l s); simpl; [apply IH|done].
Qed.

Lemma exec_snoc ls l s s' :
  exec (ls ++ [l]) s = Some s' ↔ ∃ s1, exec ls s = Some s1 ∧ step l s1 = Some s'.
Proof.
  rewrite exec_app, bind_Some. simpl.
  split; intros (s1 & H1 & H2); exists s1; split; try done.
  - apply bind_Some in H2 as (s2 & H2 & H3). by simplify_eq.
  - by rewrite H2.
Qed.

Lemma reach_rtc s s' : reach s s' ↔ rtc trans s s'.
Proof.
  split.
  - intros [ls H]. revert s H. induction ls as [|l ls IH]; intros s H; simpl in H.
    + by simplify_eq.
    + apply bind_Some in H as (s1 & H1 & H2). eapply rtc_l; [by econstructor|by apply IH].
  - induction 1 as [s|s s1 s2 [l ?? Hl] _ [ls IH]]; [by exists []|].
    exists (l :: ls). simpl. by rewrite Hl.
Qed.

Lemma reach_refl s : reach s s.
Proof. by exists []. Qed.

Lemma reach_trans s1 s2 s3 : reach s1 s2 → reach s2 s3 → reach s1 s3.
Proof. intros [ls1 H1] [ls2 H2]. exists (ls1 ++ ls2). by rewrite exec_app, H1. Qed.

Lemma reach_step l s s' : step l s = Some s' → reach s s'.
Proof. intros H. exists [l]. simpl. by rewrite H. Qed.

Lemma reach_snoc l s s1 s2 : reach s s1 → step l s1 = Some s2 → reach s s2.
Proof. intros H1 H2. eapply reach_trans; [exact H1|by eapply reach_step]. Qed.

(** An invariant of the step holds along every schedule. *)
Lemma exec_invariant (I : S → Prop) ls s s' :
  (∀ l s s', I s → step l s = Some s' → I s') →
  I s → exec ls s = Some s' → I s'.
Proof.
  intros Hstep. revert s. induction ls as [|l ls IH]; intros s Hs H; simpl in H.
  - by simplify_eq.
  - apply bind_Some in H as (s1 & H1 & H2). by eauto.
Qed.

(** The same with the schedule in view: [J tr s] relates what happened to
    where the machine is. *)
Lemma exec_trace_invariant (J : list L → S → Prop) s0 ls s :
  J [] s0 →
  (∀ tr l s s', J tr s → step l s = Some s' → J (tr ++ [l]) s') →
  exec ls s0 = Some s → J ls s.
Proof.
  intros H0 Hstep. revert s. induction ls as [|l ls IH] using rev_ind; intros s H.
  - simpl in H. by simplify_eq.
  - apply exec_snoc in H as (s1 & H1 & H2). eauto.
Qed.

(** A measure every step of a schedule lowers bounds the schedule. *)
Lemma exec_measure_bound (I : S → Prop) (P : L → Prop) (mu : S → nat) ls s s' :
  (∀ l s s', I s → P l → step l s = Some s' → I s' ∧ (mu s' < mu s)%nat) →
  I s → Forall P ls → exec ls s = Some s' → (length ls + mu s' ≤ mu s)%nat.
Proof.
  intros Hstep. revert s. induction ls as [|l ls IH]; intros s Hs HP H; simpl in H.
  - simplify_eq. simpl. lia.
  - apply Forall_cons_1 in HP as [HP1 HP2]. apply bind_Some in H as (s1 & H1 & H2).
    destruct (Hstep _ _ _ Hs HP1 H1) as [Hs1 ?]. specialize (IH _ Hs1 HP2 H2). simpl. lia.
Qed.

(** Steps that lower a measure and steps that may raise it by one: on any schedule
    there are no more of the first kind than the measure, and one for each of the
    second. *)
Definition count_steps (P : L → bool) (ls : list L) : nat := length (filter (λ l, P l = true) ls).

Lemma exec_count_bound (I : S → Prop) (P Q : L → bool) (mu : S → nat) ls s s' :
  (∀ l s s', I s → step l s = Some s' → I s' ∧ (Nat.b2n (P l) + mu s' ≤ mu s + Nat.b2n (Q l))%nat) →
  I s → exec ls s = Some s' → (count_steps P ls + mu s' ≤ mu s + count_steps Q ls)%nat.
Proof.
  intros Hstep. unfold count_steps. revert s. induction ls as [|l ls IH]; intros s Hs H; simpl in H.
  - simplify_eq. simpl. lia.
  - apply bind_Some in H as (s1 & H1 & H2). destruct (Hstep _ _ _ Hs H1) as [Hs1 Hm]. specialize (IH _ Hs1 H2).
    rewrite !filter_cons. destruct (P l), (Q l); simpl in *; lia.
Qed.
End machine.

(** A machine made of others: every step of it is some steps of a part. *)
Lemma reach_project {S1 L1 S2 L2} (step1 : L1 → S1 → option S1) (step2 : L2 → S2 → option S2) (f : S1 → S2) s s' :
  (∀ l s s', step1 l s = Some s' → reach step2 (f s) (f s')) →
  reach step1 s s' → reach step2 (f s) (f s').
Proof.
  intros Hstep [ls H]. revert s H. induction ls as [|l ls IH]; intros s H; simpl in H; [simplify_eq; apply reach_refl|].
  apply bind_Some in H as (s1 & H1 & H2). eapply reach_trans; [by eapply Hstep|by apply IH].
Qed.

(** ** Tactics

    [step_inv H] opens an equation [H] about a step written with guards and
    option binds, leaving one goal per enabled branch. *)
Ltac step_inv H :=
  repeat match type of H with
    | context [match ?x with _ => _ end] => destruct x eqn:?; simplify_eq/=
    | mbind _ _ = Some _ => apply bind_Some in H as (? & ? & H); simplify_eq/=
    | guard _;; _ = Some _ => apply bind_Some in H as (? & ? & H); simplify_eq/=
    end; simplify_option_eq.

(** Turn boolean tests in the context into propositions. *)
Ltac to_prop :=
  repeat match goal with
    | H : bool_decide _ = true |- _ => apply bool_decide_eq_true in H
    | H : bool_decide _ = false |- _ => apply bool_decide_eq_false in H
    | H : _ && _ = true |- _ => apply andb_true_iff in H as [? ?]
    | H : _ || _ = false |- _ => apply orb_false_iff in H as [? ?]
    | H : negb _ = true |- _ => apply negb_true_iff in H
    | H : negb _ = false |- _ => apply negb_false_iff in H
    | H : (_ <? _) = true |- _ => apply Z.ltb_lt in H
    | H : (_ <? _) = false |- _ => apply Z.ltb_ge in H
    | H : (_ <=? _) = true |- _ => apply Z.leb_le in H
    | H : (_ <=? _) = false |- _ => apply Z.leb_gt in H
    | H : (_ =? _) = true |- _ => apply Z.eqb_eq in H
    | H : (_ =? _) = false |- _ => apply Z.eqb_neq in H
    end.

(** ** Machine integers: Go's [int64] (and [int], [time.Duration]) *)
Definition min_int64 : Z := - 2 ^ 63.
Definition max_int64 : Z := 2 ^ 63 - 1.
Definition in_int64 (z : Z) : bool := (min_int64 <=? z) && (z <=? max_int64).
Definition wrap_int64 (z : Z) : Z := (z + 2 ^ 63) mod 2 ^ 64 - 2 ^ 63.
Definition wrap_uint64 (z : Z) : Z := z mod 2 ^ 64.

Lemma wrap_int64_range z : min_int64 ≤ wrap_int64 z ≤ max_int64.
Proof.
  unfold wrap_int64, min_int64, max_int64.
  pose proof (Z.mod_pos_bound (z + 2 ^ 63) (2 ^ 64) ltac:(lia)). lia.
Qed.

Lemma wrap_int64_id z : min_int64 ≤ z ≤ max_int64 → wrap_int64 z = z.
Proof.
  unfold wrap_int64, min_int64, max_int64. intros H. rewrite Z.mod_small; lia.
Qed.

(** Durations, in nanoseconds. *)
Definition Nanosecond : Z := 1.
Definition Microsecond : Z := 1000.
Definition Millisecond : Z := 1000000.
Definition Second : Z := 1000000000.
Definition Minute : Z := 60 * Second.
Definition Hour : Z := 60 * Minute.

(** ** Strings *)
Fixpoint strip_prefix (p s : string) : option string :=
  match p, s with
  | EmptyString, _ => Some s
  | String a p, String b s => if decide (a = b) then strip_prefix p s else None
  | _, EmptyString => None
  end.

(** ** Lists and indices *)
Lemma filter_by_index {A} (P : A → Prop) `{∀ x, Decision (P x)} (l : list A) :
  filter P l = omap (λ k, x ← l !! k; if decide (P x) then Some x else None) (seq 0 (length l)).
Proof.
  assert (∀ (f : nat → option A) (ks : list nat), omap f (S <$> ks) = omap (f ∘ S) ks) as Hs.
  { intros f ks. apply list_omap_ext, Forall2_fmap_l, Forall_Forall2_diag, Forall_true. done. }
  induction l as [|x l IH]; [done|]. cbn [length seq]. rewrite <-fmap_S_seq. rewrite filter_cons, IH. simpl.
  rewrite Hs. by destruct (decide (P x)).
Qed.

Lemma filter_all {A} (P : A → Prop) `{∀ x, Decision (P x)} (l : list A) : Forall P l → filter P l = l.
Proof. induction 1 as [|x l Hx _ IH]; [done|]. by rewrite filter_cons_True, IH. Qed.

Lemma length_omap_le {A B} (f : A → option B) l : (length (omap f l) ≤ length l)%nat.
Proof. unfold omap. induction l as [|x l IH]; simpl; [lia|]. destruct (f x); simpl; lia. Qed.

(** Of the indices of a list, those in [out] do not count. *)
Lemma filter_index_bound {A} (P : A → Prop) `{∀ x, Decision (P x)} (l : list A) (out rest : list nat) :
  seq 0 (length l) ≡ₚ out ++ rest → (∀ k x, l !! k = Some x → P x → k ∉ out) → (length (filter P l) ≤ length rest)%nat.
Proof.
  intros Hp Hn. rewrite filter_by_index, Hp, omap_app, length_app.
  destruct (omap _ out) as [|y ys] eqn:E; [apply length_omap_le|].
  assert (y ∈ omap (λ k, x ← l !! k; if decide (P x) then Some x else None) out) as Hy by (rewrite E; left).
  apply list_elem_of_omap in Hy as (k & Hk & Hx). apply bind_Some in Hx as (x & Hx & HP).
  destruct (decide (P x)); [|done]. by destruct (Hn k x).
Qed.

(** ** Maps *)
Lemma map_values_omap {K A B} `{Countable K} (f : A → option B) (m : gmap K A) :
  (map_to_list (omap f m)).*2 ≡ₚ omap f (map_to_list m).*2.
Proof.
  induction m as [|i x m Hi IH] using map_ind; [by rewrite omap_empty, !map_to_list_empty|].
  rewrite (map_to_list_insert m i x Hi). simpl. destruct (f x) as [y|] eqn:E.
  - rewrite (omap_insert_Some _ _ _ _ _ E), map_to_list_insert by (by rewrite lookup_omap, Hi).
    simpl. by rewrite IH.
  - rewrite (omap_insert_None _ _ _ _ E), delete_id by (by rewrite lookup_omap, Hi). apply IH.
Qed.

(** ** Hints *)
Create HintDb go discriminated.
#[export] Hint Resolve wrap_int64_range : go.
#[export] Hint Resolve Forall_nil_2 Forall_cons_2 : go.
#[export] Hint Rewrite @exec_app : go.
