(* ===== verification/GoContext.v ===== *)
(** * Contexts

    Go's [context.Context], which every component takes and which carries the
    stop signal.  A context is the tree of calls that made it; which of them
    were cancelled, and why, is a store [cancels] that the code and its
    environment change.  [ctx_err] is [ctx.Err()] (so [ctx.Done()] is ready
    exactly when it is [Some]) and [ctx_value] is [ctx.Value]. *)
From S2P Require Import Prelude.

Inductive context : Type :=
  | Background
  | WithCancel (parent : context) (id : positive)
  | WithTimeout (parent : context) (id : positive) (d : Z)
  | WithoutCancel (parent : context)
  | WithValue (parent : context) (key value : string).

#[export] Instance context_eq_dec : EqDecision context.
Proof. solve_decision. Defined.

(** The contexts cancelled so far, each with the reason it was given. *)
Definition cancels : Type := list (context * goerr).

Fixpoint fired (σ : cancels) (c : context) : option goerr :=
  match σ with
  | [] => None
  | (c', e) :: σ => if decide (c' = c) then Some e else fired σ c
  end.

(** [ctx.Err()]: a context reports its own cancellation or, failing that, the
    one it inherits from its parent; [WithoutCancel] inherits none. *)
Fixpoint ctx_err (σ : cancels) (c : context) : option goerr :=
  match c with
  | Background | WithoutCancel _ => None
  | WithCancel p _ | WithTimeout p _ _ =>
      match fired σ c with Some e => Some e | None => ctx_err σ p end
  | WithValue p _ _ => ctx_err σ p
  end.

Fixpoint ctx_value (c : context) (key : string) : option string :=
  match c with
  | Background => None
  | WithCancel p _ | WithTimeout p _ _ | WithoutCancel p => ctx_value p key
  | WithValue p k v => if decide (k = key) then Some v else ctx_value p key
  end.

Definition cancellable (c : context) : bool :=
  match c with WithCancel _ _ | WithTimeout _ _ _ => true | _ => false end.

(** Cancelling [c] with reason [e]: the first reason wins. *)
Definition fire (c : context) (e : goerr) (σ : cancels) : cancels :=
  if cancellable c && bool_decide (ctx_err σ c = None) then (c, e) :: σ else σ.

(** [c] and the ancestors whose cancellation reaches it. *)
Fixpoint cancel_chain (c : context) : list context :=
  match c with
  | Background | WithoutCancel _ => []
  | WithCancel p _ | WithTimeout p _ _ => c :: cancel_chain p
  | WithValue p _ _ => cancel_chain p
  end.

Lemma fired_cons c' e σ c :
  fired ((c', e) :: σ) c = if decide (c' = c) then Some e else fired σ c.
Proof. done. Qed.

(** A context is cancelled when one of its chain was. *)
Lemma ctx_err_chain σ c :
  ctx_err σ c = head (omap (fired σ) (cancel_chain c)).
Proof.
  induction c; simpl; try done;
    (destruct (fired σ _); simpl; [done|assumption]).
Qed.

Lemma ctx_err_None_chain σ c :
  ctx_err σ c = None → ∀ c', c' ∈ cancel_chain c → fired σ c' = None.
Proof.
  rewrite ctx_err_chain. induction (cancel_chain c) as [|x l IH]; simpl; [set_solver|].
  destruct (fired σ x) eqn:E; simpl; [done|]. intros H c' Hc'.
  apply elem_of_cons in Hc' as [->|Hc']; auto.
Qed.

(** Once cancelled, a context keeps the reason it was first cancelled with. *)
Lemma ctx_err_stable σ c c' e e' :
  ctx_err σ c = Some e → ctx_err (fire c' e' σ) c = Some e.
Proof.
  unfold fire. destruct (cancellable c' && _) eqn:E; [|done].
  to_prop. intros Hc.
  induction c as [|p IH i|p IH i d|p IH|p IH k v]; simpl in *; try done; [| |auto];
    case_decide; subst; try (simpl in *; congruence);
    (destruct (fired σ _); [done|auto]).
Qed.

(** Cancelling a context outside its chain leaves a context as it was. *)
Lemma ctx_err_fire_other σ c c' e :
  c' ∉ cancel_chain c → ctx_err (fire c' e σ) c = ctx_err σ c.
Proof.
  unfold fire. destruct (cancellable c' && _) eqn:E; [|done].
  intros H. rewrite !ctx_err_chain. f_equal.
  induction (cancel_chain c) as [|x l IH]; [done|].
  apply not_elem_of_cons in H as [H1 H2]. cbn -[fired]. rewrite fired_cons.
  rewrite decide_False by done. by rewrite (IH H2).
Qed.

(** Cancelling a live context gives it the reason. *)
Lemma ctx_err_fire_self σ c e :
  cancellable c = true → ctx_err σ c = None → ctx_err (fire c e σ) c = Some e.
Proof.
  intros Hc H. unfold fire. rewrite Hc, bool_decide_eq_true_2 by done. simpl.
  destruct c; try done; simpl; by rewrite decide_True.
Qed.

(** Cancellation reaches every descendant. *)
Lemma ctx_err_fire_descendant σ c c' e :
  cancellable c' = true → c' ∈ cancel_chain c → is_Some (ctx_err (fire c' e σ) c).
Proof.
  intros Hc Hin. destruct (ctx_err (fire c' e σ) c) eqn:E; [eauto|].
  pose proof (ctx_err_None_chain _ _ E _ Hin) as Hf.
  destruct (ctx_err σ c') as [e0|] eqn:E'.
  - exfalso. assert (ctx_err (fire c' e σ) c' = Some e0) as H by by apply ctx_err_stable.
    revert H E Hin. generalize (fire c' e σ). clear. intros σ H E Hin.
    rewrite ctx_err_chain in E.
    assert (∀ x, x ∈ cancel_chain c → cancel_chain x ⊆ cancel_chain c) as Hsub.
    { clear. induction c; simpl; intros x Hx; try (by apply not_elem_of_nil in Hx);
        try (apply elem_of_cons in Hx as [->|Hx]; [done|]); set_solver. }
    rewrite ctx_err_chain in H. specialize (Hsub _ Hin).
    destruct (omap (fired σ) (cancel_chain c')) as [|y ys] eqn:Ho; [done|].
    assert (y ∈ omap (fired σ) (cancel_chain c')) as Hy by (rewrite Ho; left).
    apply list_elem_of_omap in Hy as (z & Hz & Hzy).
    assert (y ∈ omap (fired σ) (cancel_chain c)) as Hy'.
    { apply list_elem_of_omap. exists z. auto. }
    destruct (omap (fired σ) (cancel_chain c)); [by apply not_elem_of_nil in Hy'|done].
  - exfalso. unfold fire in Hf. rewrite Hc, bool_decide_eq_true_2 in Hf by done.
    simpl in Hf. by rewrite decide_True in Hf.
Qed.

#[export] Hint Resolve ctx_err_stable ctx_err_fire_self : go.

(** A context detached with [WithoutCancel] and bounded with a timeout of its
    own: it keeps the values of the original and only its own end cancels it. *)
Definition detached (c : context) (id : positive) (d : Z) : context :=
  WithTimeout (WithoutCancel c) id d.

Lemma detached_value c id d key : ctx_value (detached c id d) key = ctx_value c key.
Proof. done. Qed.

Lemma detached_err σ c id d : ctx_err σ (detached c id d) = fired σ (detached c id d).
Proof. simpl. by destruct (fired σ _). Qed.

Lemma detached_fire_other σ c id d c' e :
  c' ≠ detached c id d →
  ctx_err (fire c' e σ) (detached c id d) = ctx_err σ (detached c id d).
Proof.
  intros H. apply ctx_err_fire_other. simpl.
  intros [->|Hin]%elem_of_cons; [done|by apply not_elem_of_nil in Hin].
Qed.
