(* ===== verification/Utf8.v ===== *)
(** * UTF-8

    How Go's [unicode/utf8] reads a string: [DecodeRune] gives a well-formed
    sequence of one to four bytes, and takes any byte that begins none for one
    broken character.  [runes] is that loop over a string, [sanitize] the string
    with every broken byte replaced by U+FFFD, as [encoding/json] does in both
    directions.  Lemmas: a well-formed sequence is read as one rune whatever
    follows, what was sanitized is valid, and a valid string is left alone. *)
From S2P Require Import Prelude.
From Stdlib Require Import Ascii.
#[local] Open Scope string_scope.
#[local] Open Scope Z_scope.

Definition byte_of (c : ascii) : Z := Z.of_N (N_of_ascii c).
Definition byte (n : Z) : ascii := ascii_of_N (Z.to_N n).

Definition between (lo hi : Z) (c : ascii) : bool := (lo <=? byte_of c) && (byte_of c <=? hi).

Definition rune1 (a : ascii) : bool := byte_of a <? 128.
Definition rune2 (a b : ascii) : bool := between 194 223 a && between 128 191 b.
Definition rune3 (a b c : ascii) : bool :=
  between 224 239 a &&
  between (if byte_of a =? 224 then 160 else 128) (if byte_of a =? 237 then 159 else 191) b &&
  between 128 191 c.
Definition rune4 (a b c d : ascii) : bool :=
  between 240 244 a &&
  between (if byte_of a =? 240 then 144 else 128) (if byte_of a =? 244 then 143 else 191) b &&
  between 128 191 c && between 128 191 d.

(** The runes of a string, each with its bytes; [None] is a byte that begins no
    well-formed sequence. *)
Fixpoint runes (s : string) : list (option string) :=
  match s with
  | EmptyString => []
  | String a s1 =>
      if rune1 a then Some (String a "") :: runes s1
      else
        match s1 with
        | EmptyString => None :: runes s1
        | String b s2 =>
            if rune2 a b then Some (String a (String b "")) :: runes s2
            else
              match s2 with
              | EmptyString => None :: runes s1
              | String c s3 =>
                  if rune3 a b c then Some (String a (String b (String c ""))) :: runes s3
                  else
                    match s3 with
                    | EmptyString => None :: runes s1
                    | String d s4 =>
                        if rune4 a b c d then Some (String a (String b (String c (String d "")))) :: runes s4
                        else None :: runes s1
                    end
              end
        end
  end.

(** [utf8.ValidString] *)
Definition valid_text (s : string) : bool := forallb (λ r, if r is Some _ then true else false) (runes s).

(** U+FFFD *)
Definition replacement_text : string := String (byte 239) (String (byte 191) (String (byte 189) "")).

Fixpoint concat_text (l : list string) : string :=
  match l with [] => "" | x :: l => x +:+ concat_text l end.

(** [strings.ToValidUTF8], one U+FFFD for each broken byte. *)
Definition sanitize (s : string) : string := concat_text (default replacement_text <$> runes s).

(** ** Reading well-formed sequences *)

(** The bytes of one rune. *)
Definition well_formed (r : string) : bool :=
  match r with
  | String a EmptyString => rune1 a
  | String a (String b EmptyString) => rune2 a b
  | String a (String b (String c EmptyString)) => rune3 a b c
  | String a (String b (String c (String d EmptyString))) => rune4 a b c d
  | _ => false
  end.

Lemma between_true lo hi c : between lo hi c = true ↔ lo ≤ byte_of c ≤ hi.
Proof. unfold between. rewrite andb_true_iff, !Z.leb_le. done. Qed.

(** The number of bytes of a sequence shows in the first. *)
Ltac leads := repeat match goal with
  | H : (_ && _) = true |- _ => apply andb_true_iff in H as [? ?]
  | H : between _ _ _ = true |- _ => apply between_true in H
  end.

Lemma rune2_lead a b : rune2 a b = true → rune1 a = false.
Proof. unfold rune2, rune1. intros H. leads. lia. Qed.

Lemma rune3_lead a b c : rune3 a b c = true → rune1 a = false ∧ rune2 a b = false.
Proof.
  unfold rune3, rune1, rune2. intros H. leads. split; [lia|]. apply not_true_iff_false. intros H'. leads. lia.
Qed.

Lemma rune4_lead a b c d : rune4 a b c d = true → rune1 a = false ∧ rune2 a b = false ∧ rune3 a b c = false.
Proof.
  unfold rune4, rune1, rune2, rune3. intros H. leads.
  split_and!; [lia|..]; apply not_true_iff_false; intros H'; leads; lia.
Qed.

Lemma runes_app r s : well_formed r = true → runes (r +:+ s) = Some r :: runes s.
Proof.
  destruct r as [|a [|b [|c [|d [|e r]]]]]; simpl well_formed; try done; intros H.
  - change (String a "" +:+ s) with (String a s). simpl. by rewrite H.
  - change (String a (String b "") +:+ s) with (String a (String b s)). cbn [runes].
    by rewrite (rune2_lead a b H), H.
  - change (String a (String b (String c "")) +:+ s) with (String a (String b (String c s))). cbn [runes].
    destruct (rune3_lead a b c H) as [-> ->]. by rewrite H.
  - change (String a (String b (String c (String d ""))) +:+ s) with (String a (String b (String c (String d s)))).
    cbn [runes]. destruct (rune4_lead a b c d H) as (-> & -> & ->). by rewrite H.
Qed.

(** Induction along the runes of a string. *)
Section induction.
Context (P : string → list (option string) → Prop).
Hypothesis (Hnil : P "" [])
  (Hrune : ∀ r s, well_formed r = true → P s (runes s) → P (r +:+ s) (Some r :: runes s))
  (Hbad : ∀ a s, rune1 a = false → P s (runes s) → P (String a s) (None :: runes s)).

Lemma runes_induction s : P s (runes s).
Proof.
  assert (∀ n s, (String.length s ≤ n)%nat → P s (runes s)) as H; [|by eapply H].
  clear s. induction n as [|n IH]; intros [|a s1] Hn; try (simpl in Hn; lia); [done|done|].
  assert (P s1 (runes s1)) as H1 by (apply IH; simpl in Hn; lia). simpl runes.
  destruct (rune1 a) eqn:E1; [by apply (Hrune (String a ""))|].
  destruct s1 as [|b s2]; [by apply Hbad|]. destruct (rune2 a b) eqn:E2.
  { apply (Hrune (String a (String b "")) s2); [done|]. apply IH. simpl in Hn. lia. }
  destruct s2 as [|c s3]; [by apply Hbad|]. destruct (rune3 a b c) eqn:E3.
  { apply (Hrune (String a (String b (String c ""))) s3); [done|]. apply IH. simpl in Hn. lia. }
  destruct s3 as [|d s4]; [by apply Hbad|]. destruct (rune4 a b c d) eqn:E4; [|by apply Hbad].
  apply (Hrune (String a (String b (String c (String d "")))) s4); [done|]. apply IH. simpl in Hn. lia.
Qed.
End induction.

Lemma valid_rune r s : well_formed r = true → valid_text (r +:+ s) = valid_text s.
Proof. intros H. unfold valid_text. by rewrite runes_app. Qed.

Lemma sanitize_rune r s : well_formed r = true → sanitize (r +:+ s) = r +:+ sanitize s.
Proof. intros H. unfold sanitize. by rewrite runes_app. Qed.

(** What was sanitized is valid, and a valid text is left alone. *)
Lemma sanitize_valid s : valid_text (sanitize s) = true.
Proof.
  unfold sanitize. apply (runes_induction (λ _ l, valid_text (concat_text (default replacement_text <$> l)) = true));
    [done|..]; clear s.
  - intros r s Hr IH. cbn [fmap list_fmap default concat_text]. by rewrite valid_rune.
  - intros a s _ IH. cbn [fmap list_fmap default concat_text]. by rewrite valid_rune.
Qed.

Lemma sanitize_id s : valid_text s = true → sanitize s = s.
Proof.
  unfold sanitize, valid_text.
  apply (runes_induction (λ s l, forallb _ l = true → concat_text (default replacement_text <$> l) = s)); clear s; [done|..].
  - intros r s _ IH H. cbn. by rewrite IH.
  - intros a s _ _. done.
Qed.

Lemma sanitize_idemp s : sanitize (sanitize s) = sanitize s.
Proof. apply sanitize_id, sanitize_valid. Qed.

(** A text of ASCII characters is valid. *)
Lemma valid_ascii a s : rune1 a = true → valid_text (String a s) = valid_text s.
Proof. intros H. exact (valid_rune (String a "") s H). Qed.

Lemma sanitize_nonempty s : s ≠ "" → sanitize s ≠ "".
Proof.
  unfold sanitize.
  apply (runes_induction (λ s l, s ≠ "" → concat_text (default replacement_text <$> l) ≠ "")); clear s; [done|..].
  - intros r s Hr _ _. by destruct r.
  - intros a s _ _ _. done.
Qed.

(** The digits of a number are. *)
Lemma valid_digits x s : valid_text s = true → valid_text (pretty_N_go x s) = true.
Proof.
  revert s. induction (N.lt_wf_0 x) as [x _ IH]. intros s Hs. destruct (decide (x = 0)%N) as [->|Hx].
  { by rewrite pretty_N_go_0. }
  rewrite pretty_N_go_step by lia. apply IH; [apply N.div_lt; lia|].
  rewrite valid_ascii; [done|]. unfold pretty_N_char. by repeat case_match.
Qed.

Lemma valid_pretty (z : Z) : valid_text (pretty z) = true.
Proof.
  destruct z as [|p|p]; [done|by apply (valid_digits (Npos p))|].
  change (pretty (Zneg p)) with (String "-" (pretty_N_go (Npos p) "")). rewrite valid_ascii by done. by apply valid_digits.
Qed.

Arguments sanitize : simpl never.
Arguments valid_text : simpl never.
Arguments runes : simpl never.
