(* ===== verification/Json.v ===== *)
(** * JSON values

    The part of [encoding/json] the program uses: a value, with the fields of an
    object in the order of the Go struct, and its compact text with Go's
    escaping, broken UTF-8 replaced.  Structs are translated to values field by
    field by the component that owns them; [omitempty] is written out there with
    [omit_empty]. *)
From S2P Require Import Prelude Utf8.
From Stdlib Require Import Ascii.

Inductive json : Type :=
  | JNull
  | JBool (b : bool)
  | JNum (z : Z)
  | JReal (lit : string)      (* a number with a fraction or an exponent *)
  | JStr (s : string)
  | JArr (l : list json)
  | JObj (l : list (string * json)).

Definition hex_digit (n : N) : ascii :=
  ascii_of_N (if (n <? 10)%N then 48 + n else 87 + n)%N.

(** The escape of an ASCII character inside a string literal (HTML escaping on,
    as by default). *)
Definition escape_ascii (c : ascii) : string :=
  let n := N_of_ascii c in
  if (n =? 34)%N then String (ascii_of_N 92) (String c EmptyString)
  else if (n =? 92)%N then String c (String c EmptyString)
  else if (n =? 10)%N then "\n"
  else if (n =? 13)%N then "\r"
  else if (n =? 9)%N then "\t"
  else if (n =? 8)%N then "\b"
  else if (n =? 12)%N then "\f"
  else if (n <? 32)%N || (n =? 38)%N || (n =? 60)%N || (n =? 62)%N then
    "\u00" +:+ String (hex_digit (n / 16)) (String (hex_digit (n mod 16)) EmptyString)
  else String c EmptyString.

(** U+2028 and U+2029, which JavaScript takes for the end of a line. *)
Definition line_separator : string := String (byte 226) (String (byte 128) (String (byte 168) EmptyString)).
Definition paragraph_separator : string := String (byte 226) (String (byte 128) (String (byte 169) EmptyString)).

(** A byte that is not UTF-8 is written as U+FFFD. *)
Definition escape_rune (r : option string) : string :=
  match r with
  | None => "\ufffd"
  | Some (String c EmptyString) => escape_ascii c
  | Some r =>
      if decide (r = line_separator) then "\u2028"
      else if decide (r = paragraph_separator) then "\u2029"
      else r
  end.

Definition escape (s : string) : string := concat_text (escape_rune <$> runes s).

Definition quote_char : string := String (ascii_of_N 34) EmptyString.
Definition quoted (s : string) : string := quote_char +:+ escape s +:+ quote_char.

Fixpoint join (sep : string) (l : list string) : string :=
  match l with [] => "" | [x] => x | x :: l => x +:+ sep +:+ join sep l end.

Fixpoint print (v : json) : string :=
  match v with
  | JNull => "null"
  | JBool b => if b then "true" else "false"
  | JNum z => pretty z
  | JReal lit => lit
  | JStr s => quoted s
  | JArr l => "[" +:+ join "," (map print l) +:+ "]"
  | JObj l => "{" +:+ join "," (map (λ '(k, x), quoted k +:+ ":" +:+ print x) l) +:+ "}"
  end.

(** Fields under [omitempty]: a field is kept when it is not the zero value. *)
Definition omit_empty (fields : list (string * option json)) : list (string * json) :=
  omap (λ '(k, o), pair k <$> o) fields.

Definition nonempty_str (s : string) : option json := if decide (s = "") then None else Some (JStr s).
Definition nonzero_num (z : Z) : option json := if decide (z = 0) then None else Some (JNum z).

(** What is read back of a value: its texts with broken bytes replaced. *)
Fixpoint clean (v : json) : json :=
  match v with
  | JStr s => JStr (sanitize s)
  | JArr l => JArr (map clean l)
  | JObj l => JObj (map (λ '(k, x), (sanitize k, clean x)) l)
  | _ => v
  end.

Definition clean_member (kv : string * json) : string * json := (sanitize kv.1, clean kv.2).

Lemma clean_obj l : clean (JObj l) = JObj (map clean_member l).
Proof. simpl. f_equal. apply map_ext. by intros [k v]. Qed.

(** ** Decoding into a struct

    The decoder goes through the members of an object in their order and sets
    the field whose name the key is, up to case folding; a later member
    overwrites an earlier one, an unknown key is ignored, [null] leaves the field
    as it is, and a value of another type is an error. *)
Definition lower_ascii (c : ascii) : ascii :=
  let n := N_of_ascii c in if (65 <=? n)%N && (n <=? 90)%N then ascii_of_N (n + 32) else c.
Fixpoint lower (s : string) : string :=
  match s with EmptyString => EmptyString | String c s => String (lower_ascii c) (lower s) end.

(** Case folding as far as the names of fields, which are ASCII, can tell: U+017F
    folds to s, and U+212A to k. *)
Definition is_bytes (a b : ascii) (m n : Z) : bool := (byte_of a =? m) && (byte_of b =? n).
Fixpoint fold_key (s : string) : string :=
  match s with
  | EmptyString => EmptyString
  | String a s1 =>
      match s1 with
      | EmptyString => String (lower_ascii a) (fold_key s1)
      | String b s2 =>
          if is_bytes a b 197 191 then String "s" (fold_key s2)
          else
            match s2 with
            | EmptyString => String (lower_ascii a) (fold_key s1)
            | String c s3 =>
                if is_bytes a b 226 132 && (byte_of c =? 170) then String "k" (fold_key s3)
                else String (lower_ascii a) (fold_key s1)
            end
      end
  end.
Definition same_key (a b : string) : bool := bool_decide (fold_key a = fold_key b).

Fixpoint decode_members {T} (set_member : string → json → T → option T) (l : list (string * json)) (t : T) :
    option T :=
  match l with
  | [] => Some t
  | (k, v) :: l => t' ← set_member k v t; decode_members set_member l t'
  end.

Lemma decode_members_cons {T} (f : string → json → T → option T) k v l t t' r :
  f k v t = Some t' → decode_members f l t' = r → decode_members f ((k, v) :: l) t = r.
Proof. intros H <-. simpl. by rewrite H. Qed.

(** A struct: [null] leaves it as it is. *)
Definition decode_struct {T} (set_member : string → json → T → option T) (zero : T) (v : json) : option T :=
  match v with JNull => Some zero | JObj l => decode_members set_member l zero | _ => None end.

(** What every field setter keeps, holds of whatever decodes. *)
Lemma decode_struct_keeps {T} (P : T → Prop) (f : string → json → T → option T) zero v r :
  P zero → (∀ k x t t', P t → f k x t = Some t' → P t') → decode_struct f zero v = Some r → P r.
Proof.
  intros H0 Hf. destruct v as [| | | | | |l]; simpl; try done; [by intros [= <-]|].
  revert zero H0. induction l as [|[k x] l IH]; intros t Ht H; simpl in H; [by simplify_eq|].
  apply bind_Some in H as (t' & H1 & H). by eapply IH; [eapply Hf|].
Qed.

(** What every field setter keeps on texts that are valid, holds of whatever
    decodes from a cleaned value. *)
Lemma decode_struct_keeps_clean {T} (P : T → Prop) (f : string → json → T → option T) zero v r :
  clean v = v → P zero → (∀ k x t t', clean x = x → P t → f k x t = Some t' → P t') →
  decode_struct f zero v = Some r → P r.
Proof.
  intros Hv H0 Hf. destruct v as [| | | | | |l]; simpl; try done; [by intros [= <-]|]. simpl in Hv.
  revert zero H0 Hv. induction l as [|[k x] l IH]; intros t Ht Hl H; simpl in H; [by simplify_eq|].
  injection Hl as _ Hx Hl.
  apply bind_Some in H as (t' & H1 & H). eapply (IH t'); [by eapply Hf|by rewrite Hl|done].
Qed.

Definition decode_str (v : json) (old : string) : option string :=
  match v with JStr s => Some s | JNull => Some old | _ => None end.

Definition min_int32 : Z := - 2 ^ 31.
Definition max_int32 : Z := 2 ^ 31 - 1.
Definition in_int32 (z : Z) : bool := (min_int32 <=? z) && (z <=? max_int32).

Definition decode_int32 (v : json) (old : Z) : option Z :=
  match v with JNum z => if in_int32 z then Some z else None | JNull => Some old | _ => None end.

Lemma decode_int32_typed v old z : in_int32 old = true → decode_int32 v old = Some z → in_int32 z = true.
Proof.
  intros H. unfold decode_int32. destruct v as [| |n| | | |]; try done; [by intros [= <-]|].
  destruct (in_int32 n) eqn:E; [|done]. by intros [= <-].
Qed.

(** A slice: [null] makes it nil, an array replaces it. *)
Definition decode_slice {T} (decode : json → option T) (v : json) : option (list T) :=
  match v with JNull => Some [] | JArr l => mapM decode l | _ => None end.

Lemma decode_slice_map {T} (decode : json → option T) (encode : T → json) l :
  (∀ x, x ∈ l → decode (encode x) = Some x) → decode_slice decode (JArr (encode <$> l)) = Some l.
Proof.
  intros H. unfold decode_slice. apply mapM_Some. apply Forall2_fmap_l, Forall_Forall2_diag.
  apply Forall_forall. exact H.
Qed.

Lemma decode_slice_Forall {T} (P : T → Prop) (decode : json → option T) v l :
  (∀ x y, decode x = Some y → P y) → decode_slice decode v = Some l → Forall P l.
Proof.
  intros H. unfold decode_slice. destruct v; try done; [by intros [= <-]|].
  rewrite mapM_Some. intros HF. induction HF; constructor; [by eapply H|done].
Qed.

Lemma decode_slice_Forall_clean {T} (P : T → Prop) (decode : json → option T) v l :
  clean v = v → (∀ x y, clean x = x → decode x = Some y → P y) → decode_slice decode v = Some l → Forall P l.
Proof.
  intros Hv H. unfold decode_slice. destruct v as [| | | | |l0|]; try done; [by intros [= <-]|].
  rewrite mapM_Some. injection Hv as Hv. intros HF.
  induction HF as [|x y l0 l1 Hx HF IH]; constructor; injection Hv as Hc Hv; [by eapply H|by apply IH].
Qed.

Lemma decode_str_valid v old s : clean v = v → valid_text old = true → decode_str v old = Some s → valid_text s = true.
Proof.
  intros Hv Ho. destruct v; simpl; try done; [by intros [= <-]|]. injection Hv as Hv. intros [= <-].
  rewrite <-Hv. apply sanitize_valid.
Qed.

Lemma decode_slice_inv {T} (decode : json → option T) (encode : T → json) l l' :
  (∀ x y, decode (encode x) = Some y → y = x) → decode_slice decode (JArr (encode <$> l)) = Some l' → l' = l.
Proof.
  intros H. unfold decode_slice. rewrite mapM_Some, Forall2_fmap_l. revert l'.
  induction l as [|x l IH]; intros l' HF; inversion HF; subst; [done|]. f_equal; [by apply H|by apply IH].
Qed.

Lemma decode_members_cons_inv {T} (f : string → json → T → option T) k v l t r :
  decode_members f ((k, v) :: l) t = Some r → ∃ t', f k v t = Some t' ∧ decode_members f l t' = Some r.
Proof. simpl. by intros (t' & ? & ?)%bind_Some; exists t'. Qed.
