(* ===== verification/JsonText.v ===== *)
(** * JSON texts

    The decoder's side of [encoding/json]: from bytes to the value they stand
    for, which the program uses for request bodies, responses, cached orders and
    events.  [parse_value] reads one value and leaves the rest, as [Decoder]
    does; [Unmarshal] wants nothing but white space after it.  Theorem: what
    [print] writes is read back as the value that was printed with its texts made
    valid UTF-8, [clean], which changes nothing when they are. *)
From S2P Require Import Prelude Utf8 Json.
From Stdlib Require Import Ascii.
#[local] Open Scope string_scope.
#[local] Open Scope Z_scope.

(** ** Lexical parts *)
Definition code_of (c : ascii) : Z := Z.of_N (N_of_ascii c).
Definition char_of (n : Z) : ascii := ascii_of_N (Z.to_N n).

Definition is_ws (c : ascii) : bool :=
  let n := code_of c in (n =? 32) || (n =? 9) || (n =? 10) || (n =? 13).

Fixpoint skip_ws (s : string) : string :=
  match s with String c r => if is_ws c then skip_ws r else s | EmptyString => s end.

Definition is_digit (c : ascii) : bool := (48 <=? code_of c) && (code_of c <=? 57).

(** The value of the digits ahead, on top of [acc]. *)
Fixpoint span_digits (acc : Z) (s : string) : Z * string :=
  match s with
  | String c r => if is_digit c then span_digits (acc * 10 + (code_of c - 48)) r else (acc, s)
  | EmptyString => (acc, s)
  end.

(** At least one digit. *)
Definition digits1 (s : string) : option string :=
  match s with String c _ => if is_digit c then Some (span_digits 0 s).2 else None | EmptyString => None end.

Definition skip_fraction (s : string) : option (bool * string) :=
  match s with
  | String c r => if code_of c =? 46 then r ← digits1 r; Some (true, r) else Some (false, s)
  | EmptyString => Some (false, s)
  end.

Definition skip_exponent (s : string) : option (bool * string) :=
  match s with
  | String c r =>
      if (code_of c =? 101) || (code_of c =? 69) then
        let r := match r with
                 | String sg r' => if (code_of sg =? 43) || (code_of sg =? 45) then r' else r
                 | EmptyString => r
                 end in
        r ← digits1 r; Some (true, r)
      else Some (false, s)
  | EmptyString => Some (false, s)
  end.

(** The digits of a number without its sign: no leading zero. *)
Definition parse_nat (s : string) : option (Z * string) :=
  match s with
  | String c r => if code_of c =? 48 then Some (0, r) else if is_digit c then Some (span_digits 0 s) else None
  | EmptyString => None
  end.

Definition parse_number (s : string) : option (json * string) :=
  let '(neg, body) := match s with
                      | String c r => if code_of c =? 45 then (true, r) else (false, s)
                      | EmptyString => (false, s)
                      end in
  '(z, r) ← parse_nat body;
  '(frac, r) ← skip_fraction r;
  '(ex, r) ← skip_exponent r;
  Some (if frac || ex then JReal (String.substring 0 (String.length s - String.length r) s)
        else JNum (if neg then - z else z), r).

(** ** Strings *)
Definition hex_value (c : ascii) : option Z :=
  let n := code_of c in
  if (48 <=? n) && (n <=? 57) then Some (n - 48)
  else if (97 <=? n) && (n <=? 102) then Some (n - 87)
  else if (65 <=? n) && (n <=? 70) then Some (n - 55)
  else None.

Definition hex4 (a b c d : ascii) : option Z :=
  x ← hex_value a; y ← hex_value b; z ← hex_value c; t ← hex_value d;
  Some (((x * 16 + y) * 16 + z) * 16 + t).

(** A code point in UTF-8. *)
Definition utf8 (n : Z) : string :=
  if n <? 128 then String (char_of n) ""
  else if n <? 2048 then String (char_of (192 + n / 64)) (String (char_of (128 + n mod 64)) "")
  else if n <? 65536 then
    String (char_of (224 + n / 4096)) (String (char_of (128 + n / 64 mod 64)) (String (char_of (128 + n mod 64)) ""))
  else String (char_of (240 + n / 262144)) (String (char_of (128 + n / 4096 mod 64))
    (String (char_of (128 + n / 64 mod 64)) (String (char_of (128 + n mod 64)) ""))).

Definition is_high (n : Z) : bool := (55296 <=? n) && (n <=? 56319).
Definition is_low (n : Z) : bool := (56320 <=? n) && (n <=? 57343).
Definition replacement : Z := 65533.

Definition unescape (c : ascii) : option ascii :=
  let n := code_of c in
  if (n =? 34) || (n =? 92) || (n =? 47) then Some c
  else if n =? 98 then Some (char_of 8)
  else if n =? 102 then Some (char_of 12)
  else if n =? 110 then Some (char_of 10)
  else if n =? 114 then Some (char_of 13)
  else if n =? 116 then Some (char_of 9)
  else None.

(** What follows the opening quote, up to the closing one.  A lone half of a
    surrogate pair is replaced. *)
Fixpoint parse_chars (s : string) : option (string * string) :=
  match s with
  | EmptyString => None
  | String c s1 =>
      if code_of c =? 34 then Some ("", s1)
      else if code_of c =? 92 then
        match s1 with
        | EmptyString => None
        | String e s2 =>
            if code_of e =? 117 then
              match s2 with
              | String a (String b (String x (String y s3))) =>
                  n ← hex4 a b x y;
                  let lone := '(t, r) ← parse_chars s3;
                    Some (utf8 (if is_high n || is_low n then replacement else n) +:+ t, r) in
                  if is_high n then
                    match s3 with
                    | String b1 (String u1 (String a' (String b' (String x' (String y' s4))))) =>
                        if (code_of b1 =? 92) && (code_of u1 =? 117) then
                          match hex4 a' b' x' y' with
                          | Some m =>
                              if is_low m then
                                '(t, r) ← parse_chars s4;
                                Some (utf8 (65536 + (n - 55296) * 1024 + (m - 56320)) +:+ t, r)
                              else lone
                          | None => None
                          end
                        else lone
                    | _ => lone
                    end
                  else lone
              | _ => None
              end
            else ch ← unescape e; '(t, r) ← parse_chars s2; Some (String ch t, r)
        end
      else if code_of c <? 32 then None
      else '(t, r) ← parse_chars s1; Some (String c t, r)
  end.

(** A string literal after its opening quote.  Broken UTF-8 is replaced after the
    escapes are read: an escape stands for whole runes, so it neither completes
    nor breaks the bytes beside it. *)
Definition parse_string (s : string) : option (string * string) :=
  '(t, r) ← parse_chars s; Some (sanitize t, r).

(** ** Values *)
Definition literal (p : string) (v : json) (s : string) : option (json * string) :=
  if String.prefix p s
  then Some (v, String.substring (String.length p) (String.length s - String.length p) s) else None.

Section containers.
Context (pv : string → option (json * string)).

(** One value or more, up to the closing bracket; [n] bounds their number. *)
Fixpoint elements (n : nat) (s : string) : option (list json * string) :=
  match n with
  | O => None
  | S n =>
      '(v, r) ← pv s;
      match skip_ws r with
      | String c r' =>
          if code_of c =? 44 then '(l, r'') ← elements n r'; Some (v :: l, r'')
          else if code_of c =? 93 then Some ([v], r') else None
      | EmptyString => None
      end
  end.

Definition parse_key (s : string) : option (string * string) :=
  match skip_ws s with
  | String q r =>
      if code_of q =? 34 then
        '(k, r) ← parse_string r;
        match skip_ws r with
        | String c r' => if code_of c =? 58 then Some (k, r') else None
        | EmptyString => None
        end
      else None
  | EmptyString => None
  end.

Fixpoint members (n : nat) (s : string) : option (list (string * json) * string) :=
  match n with
  | O => None
  | S n =>
      '(k, r) ← parse_key s;
      '(v, r) ← pv r;
      match skip_ws r with
      | String c r' =>
          if code_of c =? 44 then '(l, r'') ← members n r'; Some ((k, v) :: l, r'')
          else if code_of c =? 125 then Some ([(k, v)], r') else None
      | EmptyString => None
      end
  end.

Definition parse_array (s : string) : option (json * string) :=
  match skip_ws s with
  | String c r =>
      if code_of c =? 93 then Some (JArr [], r)
      else '(l, r) ← elements (String.length s) s; Some (JArr l, r)
  | EmptyString => None
  end.

Definition parse_object (s : string) : option (json * string) :=
  match skip_ws s with
  | String c r =>
      if code_of c =? 125 then Some (JObj [], r)
      else '(l, r) ← members (String.length s) s; Some (JObj l, r)
  | EmptyString => None
  end.
End containers.

(** A value after white space; [d] is how deep it may nest. *)
Fixpoint parse_value (d : nat) (s : string) : option (json * string) :=
  match skip_ws s with
  | EmptyString => None
  | String c r =>
      let n := code_of c in
      if n =? 34 then '(t, r) ← parse_string r; Some (JStr t, r)
      else if n =? 91 then match d with O => None | S d => parse_array (parse_value d) r end
      else if n =? 123 then match d with O => None | S d => parse_object (parse_value d) r end
      else if n =? 116 then literal "true" (JBool true) (String c r)
      else if n =? 102 then literal "false" (JBool false) (String c r)
      else if n =? 110 then literal "null" JNull (String c r)
      else parse_number (String c r)
  end.

Definition max_depth : nat := N.to_nat 10000.

(** [json.Unmarshal], as far as the value. *)
Definition Unmarshal (s : string) : option json :=
  '(v, r) ← parse_value max_depth s;
  if decide (skip_ws r = "") then Some v else None.

(** [Decoder.Decode]: the first value, and the offset of its end. *)
Definition Decode (s : string) : option (json * Z) :=
  '(v, r) ← parse_value max_depth s;
  Some (v, Z.of_nat (String.length s) - Z.of_nat (String.length r)).

(** What holds of all that decodes from a document holds of what decodes from bytes. *)
Lemma Unmarshal_inv {T} (decode : json → option T) s (x : T) (P : Prop) :
  (∀ v, decode v = Some x → P) → (v ← Unmarshal s; decode v) = Some x → P.
Proof. intros H. generalize (Unmarshal s). intros [v|] E; [by apply (H v)|done]. Qed.

(** ** Reading what was printed *)

#[local] Arguments skip_fraction : simpl never.
#[local] Arguments skip_exponent : simpl never.
#[local] Arguments parse_nat : simpl never.
#[local] Arguments pretty_N_go : simpl never.
#[local] Arguments parse_string : simpl never.

(** No digit and nothing a number could go on with. *)
Definition ends_number (s : string) : Prop :=
  match s with
  | EmptyString => True
  | String c _ => is_digit c = false ∧ code_of c ≠ 46 ∧ code_of c ≠ 101 ∧ code_of c ≠ 69
  end.

Lemma span_digits_end acc s : ends_number s → span_digits acc s = (acc, s).
Proof. destruct s as [|c s]; [done|]. intros [H _]. simpl. by rewrite H. Qed.

Lemma digit_char n : (n < 10)%N → is_digit (pretty_N_char n) = true ∧ code_of (pretty_N_char n) = 48 + Z.of_N n.
Proof.
  intros H. assert (n = 0 ∨ n = 1 ∨ n = 2 ∨ n = 3 ∨ n = 4 ∨ n = 5 ∨ n = 6 ∨ n = 7 ∨ n = 8 ∨ n = 9)%N as Hn by lia.
  naive_solver.
Qed.

Lemma span_digits_pretty x : ∃ k, 0 ≤ k ∧ ∀ acc t,
  span_digits acc (pretty_N_go x t) = span_digits (acc * 10 ^ k + Z.of_N x) t.
Proof.
  induction (N.lt_wf_0 x) as [x _ IH]. destruct (decide (x = 0)%N) as [->|Hx].
  { exists 0. split; [done|]. intros acc t. rewrite pretty_N_go_0. f_equal. lia. }
  destruct (IH (x / 10)%N) as (k & Hk & Hspan); [apply N.div_lt; lia|].
  exists (k + 1). split; [lia|]. intros acc t. rewrite pretty_N_go_step by lia. rewrite Hspan. cbn [span_digits].
  destruct (digit_char (x mod 10)%N) as [-> ->]; [by apply N.mod_lt|]. f_equal.
  rewrite Z.pow_add_r by lia. pose proof (N.div_mod x 10 ltac:(lia)). lia.
Qed.

Lemma pretty_first x t : (0 < x)%N →
  ∃ d r, (1 ≤ d < 10)%N ∧ pretty_N_go x t = String (pretty_N_char d) r.
Proof.
  revert t. induction (N.lt_wf_0 x) as [x _ IH]. intros t Hx. rewrite pretty_N_go_step by done.
  destruct (decide (x < 10)%N) as [Hlt|Hge].
  - exists x, t. rewrite N.div_small, N.mod_small by done. split; [lia|]. by rewrite pretty_N_go_0.
  - apply IH; [apply N.div_lt; lia|]. apply N.div_str_pos. lia.
Qed.

Lemma pretty_N_go_app x s t : pretty_N_go x s +:+ t = pretty_N_go x (s +:+ t).
Proof.
  revert s. induction (N.lt_wf_0 x) as [x _ IH]. intros s. destruct (decide (x = 0)%N) as [->|Hx].
  { by rewrite !pretty_N_go_0. }
  rewrite pretty_N_go_step, (pretty_N_go_step x (s +:+ t)) by lia. rewrite IH; [done|]. apply N.div_lt; lia.
Qed.

Lemma parse_nat_digit d r : (1 ≤ d < 10)%N →
  parse_nat (String (pretty_N_char d) r) = Some (span_digits 0 (String (pretty_N_char d) r)).
Proof.
  intros Hd. destruct (digit_char d) as [H1 H2]; [lia|]. unfold parse_nat.
  rewrite H1, H2. by assert (48 + Z.of_N d =? 48 = false) as -> by lia.
Qed.

Lemma parse_nat_pretty (p : positive) rest :
  ends_number rest → parse_nat (pretty p +:+ rest) = Some (Zpos p, rest).
Proof.
  intros He. change (pretty p) with (pretty_N_go (Npos p) ""). rewrite pretty_N_go_app. change ("" +:+ rest) with rest.
  destruct (span_digits_pretty (Npos p)) as (k & _ & Hspan).
  destruct (pretty_first (Npos p) rest) as (d & r & Hd & E); [lia|].
  pose proof (Hspan 0 rest) as H0. rewrite E in *. rewrite parse_nat_digit, H0, span_digits_end by done. done.
Qed.

Lemma no_fraction s : ends_number s → skip_fraction s = Some (false, s) ∧ skip_exponent s = Some (false, s).
Proof.
  destruct s as [|c s]; [done|]. intros (_ & H1 & H2 & H3). unfold skip_fraction, skip_exponent.
  rewrite (proj2 (Z.eqb_neq _ _) H1), (proj2 (Z.eqb_neq _ _) H2), (proj2 (Z.eqb_neq _ _) H3). done.
Qed.

Lemma parse_number_pos c body z rest :
  code_of c ≠ 45 → parse_nat (String c body) = Some (z, rest) → ends_number rest →
  parse_number (String c body) = Some (JNum z, rest).
Proof.
  intros Hc Hn He. destruct (no_fraction rest He) as [Hf Hx]. unfold parse_number.
  rewrite (proj2 (Z.eqb_neq _ _) Hc), Hn. simpl. rewrite Hf. simpl. by rewrite Hx.
Qed.

Lemma parse_number_neg body z rest :
  parse_nat body = Some (z, rest) → ends_number rest →
  parse_number (String "-" body) = Some (JNum (- z), rest).
Proof.
  intros Hn He. destruct (no_fraction rest He) as [Hf Hx]. unfold parse_number.
  change (code_of "-" =? 45) with true. cbn iota. rewrite Hn. simpl. rewrite Hf. simpl. by rewrite Hx.
Qed.

Lemma parse_number_pretty z rest :
  ends_number rest → parse_number (pretty z +:+ rest) = Some (JNum z, rest).
Proof.
  intros He. destruct z as [|p|p]; [by apply parse_number_pos| |].
  - pose proof (parse_nat_pretty p rest He) as Hp. change (pretty (Z.pos p)) with (pretty p).
    destruct (pretty_first (Npos p) rest) as (d & r & Hd & E); [lia|].
    assert (pretty p +:+ rest = String (pretty_N_char d) r) as Es
      by (by rewrite <-E; exact (pretty_N_go_app _ "" rest)).
    rewrite Es in *. apply parse_number_pos; [|done|done]. destruct (digit_char d) as [_ ->]; lia.
  - apply (parse_number_neg (pretty p +:+ rest) (Zpos p)); [by apply parse_nat_pretty|done].
Qed.

(** Each rune is escaped so that it is read back. *)
Lemma parse_escaped c s t r : rune1 c = true →
  parse_chars s = Some (t, r) → parse_chars (escape_ascii c +:+ s) = Some (String c t, r).
Proof.
  intros Hc H. destruct c as [b0 b1 b2 b3 b4 b5 b6 b7].
  destruct b7; [by destruct b0, b1, b2, b3, b4, b5, b6|]. clear Hc.
  destruct b0, b1, b2, b3, b4, b5, b6;
    match goal with |- parse_chars (escape_ascii ?c +:+ _) = _ =>
      let e := eval vm_compute in (escape_ascii c) in change (escape_ascii c) with e
    end; simpl; change ("" +:+ s) with s; rewrite H; reflexivity.
Qed.

(** A byte above ASCII stands for itself. *)
Lemma parse_raw c s t r : 128 ≤ byte_of c →
  parse_chars s = Some (t, r) → parse_chars (String c s) = Some (String c t, r).
Proof.
  intros Hc H. change (byte_of c) with (code_of c) in Hc. simpl.
  rewrite (proj2 (Z.eqb_neq (code_of c) 34)), (proj2 (Z.eqb_neq (code_of c) 92)), (proj2 (Z.ltb_ge _ _)), H by lia.
  reflexivity.
Qed.

Lemma parse_u2028 s t r : parse_chars s = Some (t, r) →
  parse_chars ("\u2028" +:+ s) = Some (line_separator +:+ t, r) ∧
  parse_chars ("\u2029" +:+ s) = Some (paragraph_separator +:+ t, r) ∧
  parse_chars ("\ufffd" +:+ s) = Some (replacement_text +:+ t, r).
Proof.
  intros H. split_and!;
    match goal with |- parse_chars (?p +:+ _) = _ =>
      let e := eval vm_compute in p in change p with e end; simpl; change ("" +:+ s) with s; rewrite H; reflexivity.
Qed.

Lemma high_bytes r : well_formed r = true → (1 < String.length r)%nat →
  Forall (λ c, 128 ≤ byte_of c) (String.list_ascii_of_string r).
Proof.
  destruct r as [|a [|b [|c [|d [|e r]]]]]; simpl; try done; try lia; unfold rune2, rune3, rune4; intros H _;
    leads; repeat constructor; repeat case_match; lia.
Qed.

Lemma parse_raws r s t q : Forall (λ c, 128 ≤ byte_of c) (String.list_ascii_of_string r) →
  parse_chars s = Some (t, q) → parse_chars (r +:+ s) = Some (r +:+ t, q).
Proof.
  induction r as [|c r IH]; [done|]. simpl String.list_ascii_of_string. intros [Hc Hr]%Forall_cons H.
  apply (parse_raw c (r +:+ s)); [done|]. by apply IH.
Qed.

Lemma parse_rune r s t q : well_formed r = true →
  parse_chars s = Some (t, q) → parse_chars (escape_rune (Some r) +:+ s) = Some (r +:+ t, q).
Proof.
  intros Hr H. destruct (parse_u2028 s t q H) as (H1 & H2 & _). destruct r as [|c [|d r]]; [done|by apply parse_escaped|].
  unfold escape_rune. case_decide as E; [by rewrite E|]. case_decide as E'; [by rewrite E'|].
  apply parse_raws; [|done]. apply high_bytes; [done|]. simpl. lia.
Qed.

Lemma append_assoc (a b c : string) : (a +:+ b) +:+ c = a +:+ b +:+ c.
Proof. induction a as [|x a IH]; [done|].
  change (String x ((a +:+ b) +:+ c) = String x (a +:+ b +:+ c)). by rewrite IH.
Qed.

Lemma parse_chars_escape s rest : parse_chars (escape s +:+ quote_char +:+ rest) = Some (sanitize s, rest).
Proof.
  unfold escape, sanitize.
  apply (runes_induction (λ _ l, parse_chars (concat_text (escape_rune <$> l) +:+ quote_char +:+ rest) =
    Some (concat_text (default replacement_text <$> l), rest))); [done|..]; clear s.
  - intros r s Hr IH. cbn [fmap list_fmap default concat_text]. rewrite append_assoc. by apply parse_rune.
  - intros a s _ IH. cbn [fmap list_fmap default concat_text]. rewrite append_assoc.
    by apply (parse_u2028 _ _ _ IH).
Qed.

Lemma parse_string_escape s rest : parse_string (escape s +:+ quote_char +:+ rest) = Some (sanitize s, rest).
Proof. unfold parse_string. rewrite parse_chars_escape. simpl. by rewrite sanitize_idemp. Qed.

Section induction.
Context (P : json → Prop).
Hypothesis (Hnull : P JNull) (Hbool : ∀ b, P (JBool b)) (Hnum : ∀ z, P (JNum z)) (Hreal : ∀ l, P (JReal l))
  (Hstr : ∀ s, P (JStr s)) (Harr : ∀ l, Forall P l → P (JArr l))
  (Hobj : ∀ l, Forall (λ kv, P kv.2) l → P (JObj l)).

Fixpoint json_induction (v : json) : P v :=
  match v with
  | JNull => Hnull
  | JBool b => Hbool b
  | JNum z => Hnum z
  | JReal l => Hreal l
  | JStr s => Hstr s
  | JArr l => Harr l ((fix go l : Forall P l :=
      match l with [] => Forall_nil_2 _ | v :: l => Forall_cons_2 _ _ _ (json_induction v) (go l) end) l)
  | JObj l => Hobj l ((fix go l : Forall (λ kv, P kv.2) l :=
      match l with
      | [] => Forall_nil_2 _
      | (k, v) :: l => Forall_cons_2 (λ kv, P kv.2) (k, v) l (json_induction v) (go l)
      end) l)
  end.
End induction.

(** No number with a fraction or an exponent. *)
Fixpoint integral (v : json) : Prop :=
  match v with
  | JReal _ => False
  | JArr l => (fix go l := match l with [] => True | v :: l => integral v ∧ go l end) l
  | JObj l => (fix go l := match l with [] => True | (_, v) :: l => integral v ∧ go l end) l
  | _ => True
  end.

Lemma integral_arr l : integral (JArr l) ↔ Forall integral l.
Proof. simpl. induction l as [|v l IH]; [by split|]. by rewrite IH, Forall_cons. Qed.

Lemma integral_obj l : integral (JObj l) ↔ Forall (λ kv, integral kv.2) l.
Proof. simpl. induction l as [|[k v] l IH]; [by split|]. by rewrite IH, Forall_cons. Qed.

(** How deep containers nest. *)
Fixpoint depth (v : json) : nat :=
  match v with
  | JArr l => S ((fix go l := match l with [] => 0%nat | v :: l => Nat.max (depth v) (go l) end) l)
  | JObj l => S ((fix go l := match l with [] => 0%nat | (_, v) :: l => Nat.max (depth v) (go l) end) l)
  | _ => 0%nat
  end.

Lemma depth_arr l d : (depth (JArr l) ≤ S d)%nat ↔ Forall (λ v, depth v ≤ d)%nat l.
Proof.
  simpl. rewrite <-Nat.succ_le_mono. induction l as [|v l IH]; [split; [done|lia]|].
  rewrite Nat.max_lub_iff, IH, Forall_cons. done.
Qed.

Lemma depth_obj l d : (depth (JObj l) ≤ S d)%nat ↔ Forall (λ kv, depth kv.2 ≤ d)%nat l.
Proof.
  simpl. rewrite <-Nat.succ_le_mono. induction l as [|[k v] l IH]; [split; [done|lia]|].
  rewrite Nat.max_lub_iff, IH, Forall_cons. done.
Qed.

(** The first byte of a printed value. *)
Definition starts (c : ascii) : Prop := is_ws c = false ∧ code_of c ≠ 93 ∧ code_of c ≠ 125.

Lemma pretty_Z_starts (z : Z) : ∃ c r, pretty z = String c r ∧ (is_digit c = true ∨ code_of c = 45).
Proof.
  destruct z as [|p|p]; [by eexists _, _; split; [|left]| |by eexists _, _; split; [|right]].
  destruct (pretty_first (Npos p) "") as (d & r & Hd & E); [lia|]. exists (pretty_N_char d), r.
  split; [exact E|]. left. apply digit_char. lia.
Qed.

Lemma number_starts c : is_digit c = true ∨ code_of c = 45 → starts c ∧
  code_of c ≠ 34 ∧ code_of c ≠ 91 ∧ code_of c ≠ 123 ∧ code_of c ≠ 116 ∧ code_of c ≠ 102 ∧ code_of c ≠ 110.
Proof.
  unfold starts, is_ws, is_digit. intros H.
  assert (45 ≤ code_of c ≤ 57) as Hc by (destruct H as [[? ?]%andb_true_iff|]; lia).
  rewrite !orb_false_iff, !Z.eqb_neq. lia.
Qed.

Lemma print_starts v : integral v → ∃ c r, print v = String c r ∧ starts c.
Proof.
  intros Hv. destruct v as [|b|z| |s|l|l]; try done; try (by eexists _, _; repeat split).
  - destruct b; by eexists _, _; repeat split.
  - destruct (pretty_Z_starts z) as (c & r & Hc & H). exists c, r. split; [done|]. by apply number_starts.
Qed.

Lemma skip_ws_starts c r : starts c → skip_ws (String c r) = String c r.
Proof. intros [H _]. simpl. by rewrite H. Qed.

Lemma literal_app p v r : literal p v (p +:+ r) = Some (v, r).
Proof.
  unfold literal. assert (String.prefix p (p +:+ r) = true) as ->.
  { induction p as [|c p IH]; [by destruct r|]. change (String c p +:+ r) with (String c (p +:+ r)). simpl.
    destruct (ascii_dec c c); [exact IH|done]. }
  f_equal. f_equal. induction p as [|c p IH].
  - change ("" +:+ r) with r. simpl. rewrite Nat.sub_0_r. induction r as [|x r IHr]; [done|]. simpl. by f_equal.
  - change (String c p +:+ r) with (String c (p +:+ r)). simpl. exact IH.
Qed.

(** [pv] reads back the value [v], whatever follows. *)
Definition reads (pv : string → option (json * string)) (v : json) : Prop :=
  ∀ rest, ends_number rest → pv (print v +:+ rest) = Some (clean v, rest).

Definition rest_of (sep : string) (l : list string) : string :=
  match l with [] => "" | _ => sep +:+ join sep l end.

Lemma join_cons sep x l : join sep (x :: l) = x +:+ rest_of sep l.
Proof. destruct l; [|done]. simpl. induction x as [|c x IH]; [done|].
  change (String c x +:+ "") with (String c (x +:+ "")). by f_equal. Qed.

Lemma elements_print pv n v l rest :
  Forall (reads pv) (v :: l) → (length l < n)%nat →
  elements pv n (join "," (map print (v :: l)) +:+ "]" +:+ rest) = Some (map clean (v :: l), rest).
Proof.
  revert v n. induction l as [|v2 l IH]; intros v n Hr Hn; apply Forall_cons in Hr as [Hv Hr];
    (destruct n as [|n]; [lia|]); rewrite map_cons, join_cons, append_assoc; cbn [elements].
  - change (rest_of "," (map print []) +:+ "]" +:+ rest) with (String "]" rest).
    rewrite Hv by done. reflexivity.
  - simpl in Hn. specialize (IH v2 n Hr ltac:(lia)).
    change (rest_of "," (map print (v2 :: l)) +:+ "]" +:+ rest)
      with (String "," (join "," (map print (v2 :: l)) +:+ "]" +:+ rest)).
    set (t := join "," (map print (v2 :: l)) +:+ "]" +:+ rest) in *. clearbody t.
    rewrite Hv by done. simpl. by rewrite IH.
Qed.

Lemma key_first k r : parse_key (quoted k +:+ ":" +:+ r) = Some (sanitize k, r).
Proof.
  unfold quoted. rewrite !append_assoc. unfold parse_key.
  change (quote_char +:+ escape k +:+ quote_char +:+ ":" +:+ r)
    with (String (ascii_of_N 34) (escape k +:+ quote_char +:+ ":" +:+ r)).
  pose proof (parse_string_escape k (":" +:+ r)) as H.
  set (t := escape k +:+ quote_char +:+ ":" +:+ r) in *. clearbody t. simpl. by rewrite H.
Qed.

Definition print_member (kv : string * json) : string := quoted kv.1 +:+ ":" +:+ print kv.2.

Lemma print_obj l : print (JObj l) = "{" +:+ join "," (map print_member l) +:+ "}".
Proof. simpl. do 3 f_equal. apply map_ext. by intros [k v]. Qed.

Lemma members_print pv n kv l rest :
  Forall (λ kv, reads pv kv.2) (kv :: l) → (length l < n)%nat →
  members pv n (join "," (map print_member (kv :: l)) +:+ "}" +:+ rest) = Some (map clean_member (kv :: l), rest).
Proof.
  revert kv n. induction l as [|kv2 l IH]; intros [k v] n Hr Hn; apply Forall_cons in Hr as [Hv Hr];
    (destruct n as [|n]; [lia|]); rewrite map_cons, join_cons, append_assoc; unfold print_member at 1; simpl in Hv;
    cbn [members fst snd]; rewrite !append_assoc, key_first; cbn [mbind option_bind].
  - change (rest_of "," (map print_member []) +:+ "}" +:+ rest) with (String "}" rest).
    rewrite Hv by done. reflexivity.
  - simpl in Hn. specialize (IH kv2 n Hr ltac:(lia)).
    change (rest_of "," (map print_member (kv2 :: l)) +:+ "}" +:+ rest)
      with (String "," (join "," (map print_member (kv2 :: l)) +:+ "}" +:+ rest)).
    set (t := join "," (map print_member (kv2 :: l)) +:+ "}" +:+ rest) in *. clearbody t.
    rewrite Hv by done. simpl. by rewrite IH.
Qed.

Lemma append_nil a : a +:+ "" = a.
Proof. induction a as [|c a IH]; [done|]. change (String c (a +:+ "") = String c a). by rewrite IH. Qed.

Lemma append_length a b : String.length (a +:+ b) = (String.length a + String.length b)%nat.
Proof. induction a as [|c a IH]; [done|]. change (S (String.length (a +:+ b)) = S (String.length a + String.length b))%nat. by rewrite IH. Qed.

Lemma join_length l : Forall (λ x, x ≠ "") l → (length l ≤ String.length (join "," l))%nat.
Proof.
  induction 1 as [|x l Hx _ IH]; [simpl; lia|]. rewrite join_cons, append_length.
  assert (1 ≤ String.length x)%nat by (destruct x; [done|simpl; lia]).
  destruct l as [|y l]; [simpl; lia|]. unfold rest_of. rewrite append_length. simpl in *. lia.
Qed.

Lemma printed_nonempty l : Forall integral l → Forall ((λ x, x ≠ "") ∘ print) l.
Proof.
  intros Hi. eapply Forall_impl; [exact Hi|]. intros x Hx.
  destruct (print_starts x Hx) as (? & ? & H & _). simpl. by rewrite H.
Qed.

Lemma array_print pv l rest :
  Forall integral l → Forall (reads pv) l →
  parse_array pv (join "," (map print l) +:+ "]" +:+ rest) = Some (clean (JArr l), rest).
Proof.
  intros Hi Hr. destruct l as [|v l]; [done|]. apply Forall_cons in Hi as Hv. destruct Hv as [Hv _].
  destruct (print_starts v Hv) as (c & r & Hc & Hs).
  assert (join "," (map print (v :: l)) +:+ "]" +:+ rest =
    String c (r +:+ rest_of "," (map print l) +:+ "]" +:+ rest)) as E.
  { rewrite map_cons, join_cons, Hc. change (String c r) with (String c "" +:+ r). by rewrite !append_assoc. }
  unfold parse_array. rewrite E at 1. rewrite skip_ws_starts by done.
  rewrite (proj2 (Z.eqb_neq _ _) (proj1 (proj2 Hs))).
  rewrite elements_print; [done|done|]. rewrite !append_length.
  assert (length (map print (v :: l)) ≤ String.length (join "," (map print (v :: l))))%nat as Hlen.
  { by apply join_length, Forall_fmap, printed_nonempty. }
  rewrite length_map in Hlen. simpl length in Hlen. change (String.length "]") with 1%nat. lia.
Qed.

Lemma object_print pv l rest :
  Forall (λ kv, reads pv kv.2) l →
  parse_object pv (join "," (map print_member l) +:+ "}" +:+ rest) = Some (clean (JObj l), rest).
Proof.
  intros Hr. rewrite clean_obj. destruct l as [|[k v] l]; [done|].
  assert (join "," (map print_member ((k, v) :: l)) +:+ "}" +:+ rest =
    String (ascii_of_N 34) (escape k +:+ quote_char +:+ ":" +:+ print v +:+
      rest_of "," (map print_member l) +:+ "}" +:+ rest)) as E.
  { rewrite map_cons, join_cons. unfold print_member at 1, quoted. cbn [fst snd]. by rewrite !append_assoc. }
  unfold parse_object. rewrite E at 1. simpl skip_ws. cbn iota. change (code_of "034" =? 125) with false. cbn iota.
  rewrite members_print; [done|done|]. rewrite !append_length.
  assert (length (map print_member ((k, v) :: l)) ≤ String.length (join "," (map print_member ((k, v) :: l))))%nat as Hlen.
  { apply join_length, Forall_fmap, Forall_true. intros [? ?]. done. }
  rewrite length_map in Hlen. simpl length in Hlen. change (String.length "}") with 1%nat. lia.
Qed.

(** What [print] writes is read back, and nothing of what follows is. *)
Lemma parse_print v : integral v → ∀ d, (depth v ≤ d)%nat → reads (parse_value d) v.
Proof.
  induction v as [|b|z|lit|s|l IH|l IH] using json_induction; intros Hi d Hd rest He; try done.
  - change (print JNull +:+ rest) with (String "n" ("ull" +:+ rest)). destruct d; apply (literal_app "null" JNull rest).
  - destruct b; destruct d; apply (literal_app "true" (JBool true) rest) || apply (literal_app "false" (JBool false) rest).
  - pose proof (parse_number_pretty z rest He) as Hp. simpl print. destruct (pretty_Z_starts z) as (c & r & Hc & Hs).
    rewrite Hc in *. change (String c r +:+ rest) with (String c (r +:+ rest)) in *.
    destruct (number_starts c Hs) as (Hst & H1 & H2 & H3 & H4 & H5 & H6).
    destruct d; cbn [parse_value]; rewrite skip_ws_starts by done; cbv zeta;
      rewrite ?(proj2 (Z.eqb_neq _ _) H1), ?(proj2 (Z.eqb_neq _ _) H2), ?(proj2 (Z.eqb_neq _ _) H3),
        ?(proj2 (Z.eqb_neq _ _) H4), ?(proj2 (Z.eqb_neq _ _) H5), ?(proj2 (Z.eqb_neq _ _) H6); exact Hp.
  - simpl print. unfold quoted. rewrite append_assoc. rewrite append_assoc.
    change (quote_char +:+ escape s +:+ quote_char +:+ rest)
      with (String (ascii_of_N 34) (escape s +:+ quote_char +:+ rest)).
    pose proof (parse_string_escape s rest) as H. set (t := escape s +:+ quote_char +:+ rest) in *. clearbody t.
    destruct d; simpl; by rewrite H.
  - destruct d as [|d]; [simpl in Hd; lia|]. apply depth_arr in Hd. apply integral_arr in Hi.
    assert (Forall (reads (parse_value d)) l) as Hr.
    { apply Forall_forall. intros x Hx. eapply Forall_forall in IH; [|done]. apply IH; by eapply Forall_forall in Hi, Hd. }
    change (print (JArr l)) with ("[" +:+ join "," (map print l) +:+ "]"). rewrite !append_assoc.
    change ("[" +:+ join "," (map print l) +:+ "]" +:+ rest) with (String "[" (join "," (map print l) +:+ "]" +:+ rest)).
    exact (array_print (parse_value d) l rest Hi Hr).
  - destruct d as [|d]; [simpl in Hd; lia|]. apply depth_obj in Hd. apply integral_obj in Hi.
    assert (Forall (λ kv, reads (parse_value d) kv.2) l) as Hr.
    { apply Forall_forall. intros x Hx. eapply Forall_forall in IH; [|done].
      apply IH; [by eapply (Forall_forall (λ kv, integral kv.2)) in Hi|by eapply (Forall_forall (λ kv, depth kv.2 ≤ d)%nat) in Hd]. }
    rewrite print_obj, !append_assoc.
    change ("{" +:+ join "," (map print_member l) +:+ "}" +:+ rest)
      with (String "{" (join "," (map print_member l) +:+ "}" +:+ rest)).
    exact (object_print (parse_value d) l rest Hr).
Qed.

Lemma depth_small v : (depth v ≤ 9)%nat → (depth v ≤ max_depth)%nat.
Proof. intros H. assert (9 <=? max_depth = true)%nat as H9 by (vm_compute; reflexivity). apply Nat.leb_le in H9. lia. Qed.

(** The value of the bytes [Marshal] writes, and of those [Encoder] writes. *)
Lemma Unmarshal_print v : integral v → (depth v ≤ max_depth)%nat → Unmarshal (print v) = Some (clean v).
Proof.
  intros Hi Hd. unfold Unmarshal. pose proof (parse_print v Hi max_depth Hd "" I) as H.
  rewrite append_nil in H. by rewrite H.
Qed.

Lemma Decode_print v rest :
  integral v → (depth v ≤ max_depth)%nat → ends_number rest →
  Decode (print v +:+ rest) = Some (clean v, Z.of_nat (String.length (print v))).
Proof.
  intros Hi Hd He. unfold Decode. rewrite (parse_print v Hi max_depth Hd rest He). simpl.
  rewrite append_length. do 2 f_equal. lia.
Qed.

Lemma Unmarshal_encoded v : integral v → (depth v ≤ max_depth)%nat →
  Unmarshal (print v +:+ String (ascii_of_N 10) "") = Some (clean v).
Proof.
  intros Hi Hd. unfold Unmarshal. rewrite (parse_print v Hi max_depth Hd); done.
Qed.

Arguments Unmarshal : simpl never.
Arguments Decode : simpl never.

(** ** What is read is valid UTF-8 *)
Lemma parse_string_valid s t r : parse_string s = Some (t, r) → sanitize t = t.
Proof. unfold parse_string. intros ([t' r'] & _ & [= <- <-])%bind_Some. apply sanitize_idemp. Qed.

(** [pv] reads only texts that are valid. *)
Definition reads_valid (pv : string → option (json * string)) : Prop := ∀ s v r, pv s = Some (v, r) → clean v = v.

Lemma elements_valid pv n s l r : reads_valid pv → elements pv n s = Some (l, r) → map clean l = l.
Proof.
  intros Hpv. revert s l r. induction n as [|n IH]; intros s l r H; [done|]. cbn [elements] in H.
  apply bind_Some in H as ([v r1] & Hv%Hpv & H). destruct (skip_ws r1) as [|c r2]; [done|].
  destruct (_ =? 44); [|destruct (_ =? 93); [|done]; simplify_eq; cbn [map]; by rewrite Hv].
  apply bind_Some in H as ([l' r3] & Hl%IH & [= <- <-]). cbn [map]. by rewrite Hv, Hl.
Qed.

Lemma parse_key_valid s k r : parse_key s = Some (k, r) → sanitize k = k.
Proof.
  unfold parse_key. destruct (skip_ws s) as [|q s1]; [done|]. destruct (_ =? 34); [|done].
  intros ([k' r1] & Hk%parse_string_valid & H)%bind_Some. destruct (skip_ws r1) as [|c r2]; [done|].
  destruct (_ =? 58); [|done]. by simplify_eq.
Qed.

Lemma members_valid pv n s l r : reads_valid pv → members pv n s = Some (l, r) → map clean_member l = l.
Proof.
  intros Hpv. revert s l r. induction n as [|n IH]; intros s l r H; [done|]. cbn [members] in H.
  apply bind_Some in H as ([k r0] & Hk%parse_key_valid & H).
  apply bind_Some in H as ([v r1] & Hv%Hpv & H). destruct (skip_ws r1) as [|c r2]; [done|].
  assert (clean_member (k, v) = (k, v)) as Hkv by (unfold clean_member; simpl; by rewrite Hk, Hv).
  destruct (_ =? 44); [|destruct (_ =? 125); [|done]; simplify_eq; cbn [map]; by rewrite Hkv].
  apply bind_Some in H as ([l' r3] & Hl%IH & [= <- <-]). cbn [map]. by rewrite Hkv, Hl.
Qed.

Lemma literal_valid p v s v' r : clean v = v → literal p v s = Some (v', r) → clean v' = v'.
Proof. unfold literal. intros Hv H. destruct (String.prefix p s); [|done]. by simplify_eq. Qed.

Lemma parse_number_valid s v r : parse_number s = Some (v, r) → clean v = v.
Proof.
  unfold parse_number. destruct (match s with EmptyString => _ | String _ _ => _ end) as [neg body].
  intros ([z r1] & _ & H)%bind_Some. apply bind_Some in H as ([f r2] & _ & H).
  apply bind_Some in H as ([e r3] & _ & H). destruct (f || e); by simplify_eq.
Qed.

Lemma parse_array_valid pv s v r : reads_valid pv → parse_array pv s = Some (v, r) → clean v = v.
Proof.
  unfold parse_array. intros Hpv. destruct (skip_ws s) as [|c r1]; [done|]. destruct (_ =? 93); [by intros [= <- <-]|].
  intros ([l r2] & Hl%elements_valid & [= <- <-])%bind_Some; [|done]. cbn [clean]. by rewrite Hl.
Qed.

Lemma parse_object_valid pv s v r : reads_valid pv → parse_object pv s = Some (v, r) → clean v = v.
Proof.
  unfold parse_object. intros Hpv. destruct (skip_ws s) as [|c r1]; [done|]. destruct (_ =? 125); [by intros [= <- <-]|].
  intros ([l r2] & Hl%members_valid & [= <- <-])%bind_Some; [|done]. by rewrite clean_obj, Hl.
Qed.

Lemma parse_value_valid d : reads_valid (parse_value d).
Proof.
  induction d as [|d IH]; intros s v r H; cbn [parse_value] in H; (destruct (skip_ws s) as [|c r1]; [done|]); cbv zeta in H;
    repeat match type of H with (if ?b then _ else _) = _ => destruct b end; try done;
    first
      [ eapply parse_array_valid; [exact IH|exact H]
      | eapply parse_object_valid; [exact IH|exact H]
      | eapply parse_number_valid; exact H
      | eapply literal_valid; [|exact H]; reflexivity
      | apply bind_Some in H as ([t r2] & Ht%parse_string_valid & [= <- <-]); cbn [clean]; by rewrite Ht ].
Qed.

Lemma Unmarshal_valid s v : Unmarshal s = Some v → clean v = v.
Proof.
  unfold Unmarshal. intros ([v' r] & Hv%parse_value_valid & H)%bind_Some. destruct (decide _); [|done]. by simplify_eq.
Qed.

Lemma Decode_valid s v n : Decode s = Some (v, n) → clean v = v.
Proof. unfold Decode. intros ([v' r] & Hv%parse_value_valid & H)%bind_Some. by simplify_eq. Qed.
