(* ===== verification/HtmlTemplate.v ===== *)
(** * html/template: the part the dashboard uses

    The dashboard renders its pages with [html/template], whose input is the text
    of a template.  Here is what the four templates use of it: [parse], from the
    text to the tree of its actions (fields, [if] with [eq] and [not], [else if],
    [range], trim markers); [check], the walk through the HTML around the
    actions by which the package finds the context of each, and refuses a
    template it cannot place; [eval], execution on the data, where every value
    printed is escaped.  Theorems: what is escaped reads back as it was; and
    whatever the data, a template that passes [check] renders the same markup:
    the data only ever changes texts and attribute values. *)
From Stdlib Require Import Ascii.
From S2P Require Import Prelude JsonText.

(** ** Escaping

    [htmlReplacementTable]: both the escaper of texts and the one of quoted
    attribute values go through it, byte by byte (it has ASCII entries only). *)
Definition replacement : string := utf8 65533.

Definition escape_char (c : ascii) : string :=
  match Ascii.nat_of_ascii c with
  | 0 => replacement
  | 34 => "&#34;"
  | 38 => "&amp;"
  | 39 => "&#39;"
  | 43 => "&#43;"
  | 60 => "&lt;"
  | 62 => "&gt;"
  | _ => String c EmptyString
  end%nat.

Fixpoint escape (s : string) : string :=
  match s with EmptyString => EmptyString | String c s => escape_char c +:+ escape s end.

(** What a browser reads: the references above stand for their character. *)
Definition references : list (string * ascii) :=
  [("&#34;", ascii_of_nat 34); ("&amp;", ascii_of_nat 38); ("&#39;", ascii_of_nat 39);
   ("&#43;", ascii_of_nat 43); ("&lt;", ascii_of_nat 60); ("&gt;", ascii_of_nat 62)].

Fixpoint read_reference (l : list (string * ascii)) (s : string) : option (ascii * string) :=
  match l with
  | [] => None
  | (p, c) :: l => match strip_prefix p s with Some r => Some (c, r) | None => read_reference l s end
  end.

Fixpoint unescape_from (fuel : nat) (s : string) : string :=
  match fuel, s with
  | S fuel, String c r =>
      match read_reference references s with
      | Some (c', r') => String c' (unescape_from fuel r')
      | None => String c (unescape_from fuel r)
      end
  | _, _ => EmptyString
  end.
Definition unescape (s : string) : string := unescape_from (String.length s) s.

(** ** Templates *)

(** What an [if] tests. *)
Inductive expr : Type :=
  | EField (f : string)
  | EEq (f lit : string)
  | ENot (f : string).

Inductive node : Type :=
  | NText (s : string)
  | NField (f : string)
  | NIf (e : expr) (yes no : list node)
  | NRange (f : string) (body : list node).

(** *** Lexing *)
Definition is_space (c : ascii) : bool :=
  bool_decide (nat_of_ascii c ∈ [9; 10; 13; 32]%nat).

Fixpoint trim_left (s : string) : string :=
  match s with String c r => if is_space c then trim_left r else s | EmptyString => EmptyString end.
Fixpoint trim_right (s : string) : string :=
  match s with
  | EmptyString => EmptyString
  | String c r =>
      match trim_right r with
      | EmptyString => if is_space c then EmptyString else String c EmptyString
      | r' => String c r'
      end
  end.

(** The text before and after the first [cc]. *)
Fixpoint until2 (c : ascii) (s : string) : option (string * string) :=
  match s with
  | String a ((String b r) as t) =>
      if decide (a = c ∧ b = c) then Some (EmptyString, r)
      else match until2 c t with Some (x, y) => Some (String a x, y) | None => None end
  | _ => None
  end.

Fixpoint words_from (s : string) (cur : string) : list string :=
  let flush := match cur with EmptyString => [] | _ => [cur] end in
  match s with
  | EmptyString => flush
  | String c r => if is_space c then flush ++ words_from r EmptyString else words_from r (cur +:+ String c EmptyString)
  end.

Inductive token : Type := TText (s : string) | TAction (ws : list string).

Definition text_token (s : string) : list token := match s with EmptyString => [] | _ => [TText s] end.

(** [{{- ] trims the text before, [ -}}] the text after. *)
Definition action_of (body : string) : bool * list string * bool :=
  let ws := words_from body EmptyString in
  let '(l, ws) := match ws with "-" :: ws => (true, ws) | _ => (false, ws) end in
  match reverse ws with "-" :: rs => (l, reverse rs, true) | _ => (l, ws, false) end.

Fixpoint lex (fuel : nat) (trim : bool) (s : string) : option (list token) :=
  let cut x := if trim then trim_left x else x in
  match fuel with
  | O => None
  | S fuel =>
      match until2 "{" s with
      | None => Some (text_token (cut s))
      | Some (before, rest) =>
          '(body, after) ← until2 "}" rest;
          let '(l, ws, r) := action_of body in
          let before := cut before in
          ts ← lex fuel r after;
          Some (text_token (if l then trim_right before else before) ++ TAction ws :: ts)
      end
  end.

(** *** Parsing *)
Definition field_of (w : string) : option string :=
  match w with String "." f => if decide (f = "") then None else Some f | _ => None end.

Definition quote : ascii := ascii_of_nat 34.
(** A quoted string without escapes: what is before its closing quote. *)
Fixpoint until_quote (s : string) : option string :=
  match s with
  | String c EmptyString => if decide (c = quote) then Some EmptyString else None
  | String c r => x ← until_quote r; Some (String c x)
  | EmptyString => None
  end.
Definition literal_of (w : string) : option string :=
  match w with String c r => if decide (c = quote) then until_quote r else None | EmptyString => None end.

Definition expr_of (ws : list string) : option expr :=
  match ws with
  | [w] => f ← field_of w; Some (EField f)
  | ["not"; w] => f ← field_of w; Some (ENot f)
  | ["eq"; w; l] => f ← field_of w; x ← literal_of l; Some (EEq f x)
  | _ => None
  end.

(** How a list of nodes ended. *)
Inductive ending : Type := AtEnd | AtElse | AtElseIf (ws : list string) | AtEOF.

Fixpoint parse_nodes (fuel : nat) (ts : list token) : option (list node * ending * list token) :=
  match fuel with
  | O => None
  | S fuel =>
      match ts with
      | [] => Some ([], AtEOF, [])
      | TText s :: ts => '(ns, q, r) ← parse_nodes fuel ts; Some (NText s :: ns, q, r)
      | TAction ["end"] :: ts => Some ([], AtEnd, ts)
      | TAction ["else"] :: ts => Some ([], AtElse, ts)
      | TAction ("else" :: "if" :: ws) :: ts => Some ([], AtElseIf ws, ts)
      | TAction ("if" :: ws) :: ts =>
          '(n, r) ← parse_if fuel ws ts;
          '(ns, q, r) ← parse_nodes fuel r; Some (n :: ns, q, r)
      | TAction ["range"; w] :: ts =>
          f ← field_of w;
          '(body, q, r) ← parse_nodes fuel ts;
          match q with
          | AtEnd => '(ns, q, r) ← parse_nodes fuel r; Some (NRange f body :: ns, q, r)
          | _ => None
          end
      | TAction [w] :: ts => f ← field_of w; '(ns, q, r) ← parse_nodes fuel ts; Some (NField f :: ns, q, r)
      | TAction _ :: _ => None
      end
  end
with parse_if (fuel : nat) (ws : list string) (ts : list token) : option (node * list token) :=
  match fuel with
  | O => None
  | S fuel =>
      e ← expr_of ws;
      '(yes, q, r) ← parse_nodes fuel ts;
      match q with
      | AtEnd => Some (NIf e yes [], r)
      | AtElse =>
          '(no, q, r) ← parse_nodes fuel r;
          match q with AtEnd => Some (NIf e yes no, r) | _ => None end
      | AtElseIf ws => '(n, r) ← parse_if fuel ws r; Some (NIf e yes [n], r)
      | AtEOF => None
      end
  end.

(** [template.New(name).Parse(text)]; the fuel is more than there are tokens. *)
Definition parse (s : string) : option (list node) :=
  ts ← lex (S (String.length s)) false s;
  match parse_nodes (S (2 * length ts)) ts with Some (ns, AtEOF, []) => Some ns | _ => None end.

(** ** Execution *)
Inductive scalar : Type := SStr (s : string) | SInt (z : Z) | SBool (b : bool).
Definition fields : Type := list (string * scalar).

(** The dot: a struct of scalars and slices of structs. *)
Inductive value : Type := VScalar (x : scalar) | VRows (rows : list fields).
Definition data : Type := list (string * value).

Definition row_data (r : fields) : data := (λ '(k, x), (k, VScalar x)) <$> r.

Fixpoint get (f : string) (d : data) : option value :=
  match d with [] => None | (k, v) :: d => if String.eqb k f then Some v else get f d end.

Definition show (x : scalar) : string :=
  match x with SStr s => s | SInt z => pretty z | SBool b => if b then "true" else "false" end.

(** The truth of a value: not the zero one, not an empty slice. *)
Definition truth (v : value) : bool :=
  match v with
  | VScalar (SStr s) => negb (String.eqb s EmptyString)
  | VScalar (SInt z) => negb (z =? 0)
  | VScalar (SBool b) => b
  | VRows rows => match rows with [] => false | _ :: _ => true end
  end.

Definition test (e : expr) (d : data) : option bool :=
  match e with
  | EField f => v ← get f d; Some (truth v)
  | ENot f => v ← get f d; Some (negb (truth v))
  | EEq f lit => v ← get f d; match v with VScalar (SStr s) => Some (String.eqb s lit) | _ => None end
  end.

(** What is written: a piece of the template, or a value, before escaping. *)
Inductive piece : Type := PText (s : string) | PData (s : string).

Fixpoint eval (n : node) (d : data) {struct n} : option (list piece) :=
  let fix evals ns d :=
    match ns with
    | [] => Some []
    | n :: ns => ps ← eval n d; qs ← evals ns d; Some (ps ++ qs)
    end in
  match n with
  | NText s => Some [PText s]
  | NField f => v ← get f d; match v with VScalar x => Some [PData (show x)] | VRows _ => None end
  | NIf e yes no => b ← test e d; if b : bool then evals yes d else evals no d
  | NRange f body =>
      v ← get f d;
      match v with
      | VRows rows =>
          (fix each rows := match rows with
             | [] => Some []
             | r :: rows => ps ← evals body (row_data r); qs ← each rows; Some (ps ++ qs)
             end) rows
      | VScalar _ => None
      end
  end.

Fixpoint evals (ns : list node) (d : data) : option (list piece) :=
  match ns with
  | [] => Some []
  | n :: ns => ps ← eval n d; qs ← evals ns d; Some (ps ++ qs)
  end.

Definition each (body : list node) : list fields → option (list piece) :=
  fix each rows :=
    match rows with
    | [] => Some []
    | r :: rows => ps ← evals body (row_data r); qs ← each rows; Some (ps ++ qs)
    end.

Lemma eval_if e yes no d : eval (NIf e yes no) d = (b ← test e d; if b : bool then evals yes d else evals no d).
Proof. reflexivity. Qed.
Lemma eval_range f body d :
  eval (NRange f body) d = (v ← get f d; match v with VRows rows => each body rows | VScalar _ => None end).
Proof. reflexivity. Qed.

(** What reaches the response. *)
Definition write_piece (p : piece) : string := match p with PText s => s | PData s => escape s end.
Fixpoint written (ps : list piece) : string :=
  match ps with [] => EmptyString | p :: ps => write_piece p +:+ written ps end.

(** [Execute]. *)
Definition execute (ns : list node) (d : data) : option string := written <$> evals ns d.

(** ** The HTML around the actions

    Where the parser of a browser is: in text, in a tag (with the name read since
    the last space), or in the quoted value of an attribute.  Attribute values
    without quotes, comments and the contents of scripts are not told apart;
    the templates have none around an action. *)
Inductive hstate : Type := HText | HTag (name : string) | HAttr (name : string).

#[export] Instance hstate_eq_dec : EqDecision hstate.
Proof. solve_decision. Defined.

Definition hstep (st : hstate) (c : ascii) : hstate :=
  match st with
  | HText => if decide (c = "<"%char) then HTag EmptyString else HText
  | HTag nm =>
      if decide (c = ">"%char) then HText
      else if decide (c = quote) then HAttr nm
      else if is_space c || bool_decide (c = "/"%char) then HTag EmptyString
      else if decide (c = "="%char) then HTag nm
      else HTag (nm +:+ String c EmptyString)
  | HAttr nm => if decide (c = quote) then HTag EmptyString else HAttr nm
  end.

(** A character of the markup itself: not of a text, not of an attribute's value. *)
Definition is_markup (st : hstate) (c : ascii) : bool :=
  match st with
  | HText => bool_decide (c = "<"%char)
  | HTag _ => true
  | HAttr _ => bool_decide (c = quote)
  end.

Fixpoint scan (st : hstate) (s : string) : hstate :=
  match s with EmptyString => st | String c s => scan (hstep st c) s end.

Fixpoint markup (st : hstate) (s : string) : string :=
  match s with
  | EmptyString => EmptyString
  | String c s => (if is_markup st c then String c EmptyString else EmptyString) +:+ markup (hstep st c) s
  end.

(** Attributes whose value is plain text for the escaper. *)
Definition plain_attributes : list string := ["class"; "title"; "value"].

Definition printable_at (st : hstate) : bool :=
  match st with
  | HText => true
  | HTag _ => false
  | HAttr nm => bool_decide (nm ∈ plain_attributes)
  end.

(** The escaper: where each action stands; the branches of an [if] must end in one
    place, and a [range]'s body where it began. *)
Fixpoint check (n : node) (st : hstate) {struct n} : option hstate :=
  let fix checks ns st :=
    match ns with [] => Some st | n :: ns => st ← check n st; checks ns st end in
  match n with
  | NText s => Some (scan st s)
  | NField _ => if printable_at st then Some st else None
  | NIf _ yes no => a ← checks yes st; b ← checks no st; if decide (a = b) then Some a else None
  | NRange _ body => a ← checks body st; if decide (a = st) then Some st else None
  end.

Fixpoint checks (ns : list node) (st : hstate) : option hstate :=
  match ns with [] => Some st | n :: ns => st ← check n st; checks ns st end.

(** A template the package executes: it ends in text. *)
Definition well_placed (ns : list node) : bool := bool_decide (checks ns HText = Some HText).

(** ** What is escaped reads back *)
Definition no_nul (s : string) : Prop := Forall (λ c, nat_of_ascii c ≠ 0%nat) (String.list_ascii_of_string s).

Lemma unescape_char c r fuel :
  nat_of_ascii c ≠ 0%nat → unescape_from (S fuel) (escape_char c +:+ r) = String c (unescape_from fuel r).
Proof.
  destruct c as [b1 b2 b3 b4 b5 b6 b7 b8]. intros Hc.
  destruct b1, b2, b3, b4, b5, b6, b7, b8; try (by destruct Hc); reflexivity.
Qed.

Lemma unescape_escape_from s fuel :
  no_nul s → (String.length s ≤ fuel)%nat → unescape_from fuel (escape s) = s.
Proof.
  revert fuel. induction s as [|c s IH]; intros fuel Hs Hf; [by destruct fuel|].
  destruct fuel as [|fuel]; [simpl in Hf; lia|]. apply Forall_cons_1 in Hs as [Hc Hs].
  cbn [escape]. rewrite unescape_char by done. f_equal. apply IH; [done|]. simpl in Hf. lia.
Qed.

Lemma escape_char_length c : (1 ≤ String.length (escape_char c))%nat.
Proof.
  destruct c as [b1 b2 b3 b4 b5 b6 b7 b8].
  destruct b1, b2, b3, b4, b5, b6, b7, b8; cbv; lia.
Qed.

Lemma escape_length s : (String.length s ≤ String.length (escape s))%nat.
Proof.
  induction s as [|c s IH]; [done|]. cbn [escape String.length]. rewrite append_length.
  pose proof (escape_char_length c). lia.
Qed.

Lemma unescape_escape s : no_nul s → unescape (escape s) = s.
Proof. intros Hs. apply unescape_escape_from; [done|apply escape_length]. Qed.

(** A run of characters none of which moves the parser. *)
Definition inert (s : string) : Prop :=
  Forall (λ c, c ≠ "<"%char ∧ c ≠ ">"%char ∧ c ≠ quote ∧ c ≠ "'"%char) (String.list_ascii_of_string s).

Lemma inert_app s t : inert s → inert t → inert (s +:+ t).
Proof.
  unfold inert. intros Hs Ht. induction s as [|c s IH]; [done|].
  apply Forall_cons_1 in Hs as [Hc Hs]. by apply Forall_cons; auto.
Qed.

Lemma escape_inert s : inert (escape s).
Proof.
  induction s as [|c s IH]; [by apply Forall_nil|]. apply inert_app; [|done].
  destruct c as [b1 b2 b3 b4 b5 b6 b7 b8].
  destruct b1, b2, b3, b4, b5, b6, b7, b8; repeat constructor; discriminate.
Qed.

(** ** Whatever the data, one markup *)
Lemma scan_app st s t : scan st (s +:+ t) = scan (scan st s) t.
Proof. revert st. induction s as [|c s IH]; intros st; [done|]. change (String c s +:+ t) with (String c (s +:+ t)). simpl. apply IH. Qed.

Lemma markup_app st s t : markup st (s +:+ t) = markup st s +:+ markup (scan st s) t.
Proof.
  revert st. induction s as [|c s IH]; intros st; [done|].
  change (String c s +:+ t) with (String c (s +:+ t)). cbn [markup scan]. rewrite IH. by rewrite append_assoc.
Qed.

Lemma inert_scan st s : printable_at st = true → inert s → scan st s = st ∧ markup st s = "".
Proof.
  intros Hst. induction s as [|c s IH]; intros Hs; [done|].
  apply Forall_cons_1 in Hs as [(H1 & _ & H3 & _) Hs]. cbn [scan markup].
  assert (hstep st c = st ∧ is_markup st c = false) as [-> ->]; [|by apply IH].
  destruct st as [|nm|nm]; [|done|]; simpl; rewrite ?decide_False by done; by rewrite bool_decide_eq_false_2.
Qed.

Definition blank_piece (p : piece) : piece := match p with PText s => PText s | PData _ => PData "" end.
(** What was written, less the data. *)
Definition skeleton (ps : list piece) : list piece := blank_piece <$> ps.

(** Where a list of pieces leads, and that its markup is its skeleton's. *)
Definition placed (st st' : hstate) (ps : list piece) : Prop :=
  scan st (written ps) = st' ∧ scan st (written (skeleton ps)) = st' ∧
  markup st (written ps) = markup st (written (skeleton ps)).

Lemma written_app ps qs : written (ps ++ qs) = written ps +:+ written qs.
Proof. induction ps as [|p ps IH]; [done|]. simpl. by rewrite IH, append_assoc. Qed.

Lemma placed_nil st : placed st st [].
Proof. done. Qed.

Lemma placed_app st st1 st2 ps qs : placed st st1 ps → placed st1 st2 qs → placed st st2 (ps ++ qs).
Proof.
  intros (H1 & H2 & H3) (H4 & H5 & H6). unfold placed, skeleton in *.
  rewrite fmap_app, !written_app, !scan_app, !markup_app. by rewrite H1, H2, H3, H4, H5, H6.
Qed.

(** Induction on nodes and the lists of nodes in them. *)
Section node_ind.
Context (P : node → Prop) (Q : list node → Prop).
Context (Htext : ∀ s, P (NText s)) (Hfield : ∀ f, P (NField f))
  (Hif : ∀ e yes no, Q yes → Q no → P (NIf e yes no)) (Hrange : ∀ f body, Q body → P (NRange f body))
  (Hnil : Q []) (Hcons : ∀ n ns, P n → Q ns → Q (n :: ns)).

Fixpoint node_rect_nested (n : node) : P n :=
  let fix nodes ns : Q ns := match ns with [] => Hnil | n :: ns => Hcons _ _ (node_rect_nested n) (nodes ns) end in
  match n with
  | NText s => Htext s
  | NField f => Hfield f
  | NIf e yes no => Hif e yes no (nodes yes) (nodes no)
  | NRange f body => Hrange f body (nodes body)
  end.

Lemma nodes_ind ns : Q ns.
Proof. induction ns as [|n ns IH]; [done|]. apply Hcons; [apply node_rect_nested|done]. Qed.
End node_ind.

Lemma checks_if e yes no st :
  check (NIf e yes no) st = (a ← checks yes st; b ← checks no st; if decide (a = b) then Some a else None).
Proof. reflexivity. Qed.
Lemma checks_range f body st :
  check (NRange f body) st = (a ← checks body st; if decide (a = st) then Some st else None).
Proof. reflexivity. Qed.

Lemma each_placed body st rows ps :
  (∀ d ps, evals body d = Some ps → placed st st ps) → each body rows = Some ps → placed st st ps.
Proof.
  intros Hb. revert ps. induction rows as [|r rows IH]; intros ps He; simpl in He; [simplify_eq; apply placed_nil|].
  apply bind_Some in He as (p & Hp & He). apply bind_Some in He as (q & Hq & He). simplify_eq.
  eapply placed_app; eauto.
Qed.

Lemma evals_placed ns st st' d ps :
  checks ns st = Some st' → evals ns d = Some ps → placed st st' ps.
Proof.
  revert ns st st' d ps.
  apply (nodes_ind (λ n, ∀ st st' d ps, check n st = Some st' → eval n d = Some ps → placed st st' ps)
           (λ ns, ∀ st st' d ps, checks ns st = Some st' → evals ns d = Some ps → placed st st' ps)).
  - intros s st st' d ps ? ?. simplify_eq/=. unfold placed. simpl.
    rewrite !scan_app, !markup_app. done.
  - intros f st st' d ps Hc He. simpl in Hc, He. destruct (printable_at st) eqn:Hst; [|done].
    destruct (get f d) as [[x|]|]; simplify_eq/=. unfold placed. simpl.
    destruct (inert_scan st' _ Hst (escape_inert (show x))) as [H1 H2].
    by rewrite !scan_app, !markup_app, H1, H2.
  - intros e yes no IHy IHn st st' d ps Hc He. rewrite checks_if in Hc. rewrite eval_if in He.
    apply bind_Some in Hc as (a & Ha & Hc). apply bind_Some in Hc as (b & Hb & Hc).
    destruct (decide (a = b)) as [<-|]; [|done]. simplify_eq.
    apply bind_Some in He as ([] & _ & He); eauto.
  - intros f body IH st st' d ps Hc He. rewrite checks_range in Hc. rewrite eval_range in He.
    apply bind_Some in Hc as (a & Ha & Hc). destruct (decide (a = st)) as [->|]; [|done]. simplify_eq.
    apply bind_Some in He as ([x|rows] & _ & He); [done|]. eapply each_placed; [|done]. eauto.
  - intros st st' d ps ? ?. simplify_eq/=. apply placed_nil.
  - intros n ns IHn IHs st st' d ps Hc He. simpl in Hc, He.
    apply bind_Some in Hc as (st1 & H1 & Hc). apply bind_Some in He as (p & Hp & He).
    apply bind_Some in He as (q & Hq & He). simplify_eq. eapply placed_app; eauto.
Qed.

(** ** Templates and the types of their data

    A template that only uses the fields its data has, at their types, executes. *)
Inductive skind : Type := KStr | KInt | KBool.
Inductive kind : Type := KScalar (k : skind) | KRows (row : list (string * skind)).
Definition schema : Type := list (string * kind).

#[export] Instance skind_eq_dec : EqDecision skind.
Proof. solve_decision. Defined.
#[export] Instance kind_eq_dec : EqDecision kind.
Proof. solve_decision. Defined.

Definition kind_of (x : scalar) : skind := match x with SStr _ => KStr | SInt _ => KInt | SBool _ => KBool end.

Definition row_kind (r : fields) : list (string * skind) := (λ '(k, x), (k, kind_of x)) <$> r.

Definition value_has (v : value) (k : kind) : Prop :=
  match v, k with
  | VScalar x, KScalar s => kind_of x = s
  | VRows rows, KRows row => Forall (λ r, row_kind r = row) rows
  | _, _ => False
  end.

Definition data_has (d : data) (sch : schema) : Prop := Forall2 (λ p q, p.1 = q.1 ∧ value_has p.2 q.2) d sch.

Fixpoint field_kind (f : string) (sch : schema) : option kind :=
  match sch with [] => None | (k, x) :: sch => if String.eqb k f then Some x else field_kind f sch end.

Definition test_typed (e : expr) (sch : schema) : bool :=
  match e with
  | EField f | ENot f => bool_decide (is_Some (field_kind f sch))
  | EEq f _ => bool_decide (field_kind f sch = Some (KScalar KStr))
  end.

Definition row_schema (row : list (string * skind)) : schema := (λ '(k, s), (k, KScalar s)) <$> row.

Fixpoint typed (n : node) (sch : schema) {struct n} : bool :=
  let fix all ns sch := match ns with [] => true | n :: ns => typed n sch && all ns sch end in
  match n with
  | NText _ => true
  | NField f => match field_kind f sch with Some (KScalar _) => true | _ => false end
  | NIf e yes no => test_typed e sch && all yes sch && all no sch
  | NRange f body => match field_kind f sch with Some (KRows row) => all body (row_schema row) | _ => false end
  end.

Fixpoint all_typed (ns : list node) (sch : schema) : bool :=
  match ns with [] => true | n :: ns => typed n sch && all_typed ns sch end.

Lemma get_typed f d sch k : data_has d sch → field_kind f sch = Some k → ∃ v, get f d = Some v ∧ value_has v k.
Proof.
  induction 1 as [|[k1 v] [k2 x] d sch [Hk Hv] _ IH]; simpl in *; [done|]. subst.
  destruct (String.eqb _ _); [|done]. intros [= <-]. eauto.
Qed.

Lemma row_data_has r row : row_kind r = row → data_has (row_data r) (row_schema row).
Proof.
  intros <-. unfold data_has, row_data, row_schema, row_kind.
  induction r as [|[k x] r IH]; simpl; [constructor|]. constructor; [done|exact IH].
Qed.

Lemma test_ok e d sch : data_has d sch → test_typed e sch = true → is_Some (test e d).
Proof.
  intros Hd Ht. destruct e as [f|f lit|f]; simpl in *; apply bool_decide_eq_true in Ht.
  - destruct Ht as [k Hk]. destruct (get_typed f d sch k Hd Hk) as (v & -> & _). by eexists.
  - destruct (get_typed f d sch _ Hd Ht) as (v & -> & Hv). destruct v as [[]|]; simpl in *; done || by eexists.
  - destruct Ht as [k Hk]. destruct (get_typed f d sch k Hd Hk) as (v & -> & _). by eexists.
Qed.

Lemma each_typed body row rows :
  (∀ d, data_has d (row_schema row) → is_Some (evals body d)) →
  Forall (λ r, row_kind r = row) rows → is_Some (each body rows).
Proof.
  intros Hb. induction 1 as [|r rows Hr _ [qs Hq]]; simpl in *; [by eexists|].
  destruct (Hb (row_data r)) as [ps ->]; [by apply row_data_has|]. simpl. fold (each body rows). rewrite Hq. by eexists.
Qed.

Lemma evals_typed ns sch d : all_typed ns sch = true → data_has d sch → is_Some (evals ns d).
Proof.
  revert ns sch d.
  apply (nodes_ind (λ n, ∀ sch d, typed n sch = true → data_has d sch → is_Some (eval n d))
           (λ ns, ∀ sch d, all_typed ns sch = true → data_has d sch → is_Some (evals ns d))).
  - by eexists.
  - intros f sch d Ht Hd. simpl in *. destruct (field_kind f sch) as [[k|]|] eqn:E; [|done..].
    destruct (get_typed f d sch _ Hd E) as (v & -> & Hv). destruct v; [by eexists|done].
  - intros e yes no IHy IHn sch d Ht Hd. rewrite eval_if.
    change (test_typed e sch && all_typed yes sch && all_typed no sch = true) in Ht. to_prop.
    destruct (test_ok e d sch) as [b ->]; [done..|]. destruct b; simpl; eauto.
  - intros f body IH sch d Ht Hd. rewrite eval_range. simpl in Ht.
    destruct (field_kind f sch) as [[k|row]|] eqn:E; [done| |done].
    destruct (get_typed f d sch _ Hd E) as (v & -> & Hv). destruct v as [|rows]; [done|]. simpl.
    eapply each_typed; [|exact Hv]. intros d' Hd'. by eapply IH.
  - by eexists.
  - intros n ns IHn IHs sch d Ht Hd. change (typed n sch && all_typed ns sch = true) in Ht. to_prop. simpl.
    destruct (IHn sch d) as [ps ->]; [done..|]. destruct (IHs sch d) as [qs ->]; [done..|]. by eexists.
Qed.

(** ** Data that take the same branches *)
Fixpoint alike (n : node) (d1 d2 : data) {struct n} : Prop :=
  let fix all ns d1 d2 := match ns with [] => True | n :: ns => alike n d1 d2 ∧ all ns d1 d2 end in
  match n with
  | NText _ | NField _ => True
  | NIf e yes no =>
      test e d1 = test e d2 ∧ (test e d1 = Some true → all yes d1 d2) ∧ (test e d1 = Some false → all no d1 d2)
  | NRange f body =>
      ∀ rows1 rows2, get f d1 = Some (VRows rows1) → get f d2 = Some (VRows rows2) →
        Forall2 (λ r1 r2, all body (row_data r1) (row_data r2)) rows1 rows2
  end.

Fixpoint all_alike (ns : list node) (d1 d2 : data) : Prop :=
  match ns with [] => True | n :: ns => alike n d1 d2 ∧ all_alike ns d1 d2 end.

Lemma alike_if e yes no d1 d2 :
  alike (NIf e yes no) d1 d2 ↔
    test e d1 = test e d2 ∧ (test e d1 = Some true → all_alike yes d1 d2) ∧ (test e d1 = Some false → all_alike no d1 d2).
Proof. reflexivity. Qed.
Lemma alike_range f body d1 d2 :
  alike (NRange f body) d1 d2 ↔
    ∀ rows1 rows2, get f d1 = Some (VRows rows1) → get f d2 = Some (VRows rows2) →
      Forall2 (λ r1 r2, all_alike body (row_data r1) (row_data r2)) rows1 rows2.
Proof. reflexivity. Qed.

Definition same_skeleton (a b : option (list piece)) : Prop :=
  ∀ ps qs, a = Some ps → b = Some qs → skeleton ps = skeleton qs.

Lemma skeleton_app ps qs ps' qs' :
  skeleton ps = skeleton ps' → skeleton qs = skeleton qs' → skeleton (ps ++ qs) = skeleton (ps' ++ qs').
Proof. unfold skeleton. rewrite !fmap_app. congruence. Qed.

Lemma same_skeleton_cons a b a' b' :
  same_skeleton a a' → same_skeleton b b' →
  same_skeleton (ps ← a; qs ← b; Some (ps ++ qs)) (ps ← a'; qs ← b'; Some (ps ++ qs)).
Proof.
  intros Ha Hb ps qs H1 H2. destruct a as [a|], b as [b|], a' as [a'|], b' as [b'|]; simplify_eq/=.
  apply skeleton_app; [by apply Ha|by apply Hb].
Qed.

Lemma each_alike body rows1 rows2 :
  (∀ d1 d2, all_alike body d1 d2 → same_skeleton (evals body d1) (evals body d2)) →
  Forall2 (λ r1 r2, all_alike body (row_data r1) (row_data r2)) rows1 rows2 →
  same_skeleton (each body rows1) (each body rows2).
Proof.
  intros Hb. induction 1 as [|r1 r2 rows1 rows2 Hr _ IH]; [by intros ps qs [= <-] [= <-]|].
  apply same_skeleton_cons; [by apply Hb|exact IH].
Qed.

Lemma evals_alike ns d1 d2 : all_alike ns d1 d2 → same_skeleton (evals ns d1) (evals ns d2).
Proof.
  revert ns d1 d2.
  apply (nodes_ind (λ n, ∀ d1 d2, alike n d1 d2 → same_skeleton (eval n d1) (eval n d2))
           (λ ns, ∀ d1 d2, all_alike ns d1 d2 → same_skeleton (evals ns d1) (evals ns d2))).
  - by intros s d1 d2 _ ps qs [= <-] [= <-].
  - intros f d1 d2 _ ps qs H1 H2. simpl in *.
    destruct (get f d1) as [[]|], (get f d2) as [[]|]; by simplify_eq/=.
  - intros e yes no IHy IHn d1 d2 (He & Hy & Hn)%alike_if. rewrite !eval_if, <-He.
    destruct (test e d1) as [[]|]; simpl; [by apply IHy, Hy|by apply IHn, Hn|done].
  - intros f body IH d1 d2 Ha. rewrite alike_range in Ha. rewrite !eval_range.
    destruct (get f d1) as [[|rows1]|]; [done| |done]. destruct (get f d2) as [[|rows2]|]; [intros ps qs ? ?; done| |intros ps qs ? ?; done].
    simpl. apply each_alike; [exact IH|by apply Ha].
  - by intros d1 d2 _ ps qs [= <-] [= <-].
  - intros n ns IHn IHs d1 d2 [Hn Hs]. apply same_skeleton_cons; [by apply IHn|by apply IHs].
Qed.

(** Such data give the template one markup. *)
Lemma alike_same_markup ns d1 d2 ps1 ps2 :
  well_placed ns = true → all_alike ns d1 d2 → evals ns d1 = Some ps1 → evals ns d2 = Some ps2 →
  scan HText (written ps1) = HText ∧ markup HText (written ps1) = markup HText (written ps2).
Proof.
  intros Hw Ha H1 H2. apply bool_decide_eq_true in Hw.
  destruct (evals_placed _ _ _ _ _ Hw H1) as (? & _ & ->). destruct (evals_placed _ _ _ _ _ Hw H2) as (_ & _ & ->).
  by rewrite (evals_alike _ _ _ Ha _ _ H1 H2).
Qed.

(** ** What a browser shows

    The contents of the cells of the tables of a page: the texts between [<td ...>]
    and [</td>], the tags inside left out. *)
Record browser : Type := mkBrowser {
  b_at : hstate;
  b_tag : string;               (* the tag being read, less its attributes' values *)
  b_cell : option string;       (* the text of the open cell *)
  b_cells : list string;        (* the last first *)
}.

Definition end_tag (b : browser) : browser :=
  match head (words_from (b_tag b) EmptyString), b_cell b with
  | Some "td", _ => mkBrowser HText EmptyString (Some EmptyString) (b_cells b)
  | Some "/td", Some t => mkBrowser HText EmptyString None (t :: b_cells b)
  | _, cell => mkBrowser HText EmptyString cell (b_cells b)
  end.

Definition browse_char (b : browser) (c : ascii) : browser :=
  match b_at b with
  | HText =>
      if decide (c = "<"%char) then mkBrowser (HTag EmptyString) EmptyString (b_cell b) (b_cells b)
      else mkBrowser HText (b_tag b) ((λ t, t +:+ String c EmptyString) <$> b_cell b) (b_cells b)
  | HTag _ =>
      if decide (c = ">"%char) then end_tag b
      else mkBrowser (hstep (b_at b) c) (b_tag b +:+ String c EmptyString) (b_cell b) (b_cells b)
  | HAttr _ => mkBrowser (hstep (b_at b) c) (b_tag b) (b_cell b) (b_cells b)
  end.

Fixpoint browse (b : browser) (s : string) : browser :=
  match s with EmptyString => b | String c s => browse (browse_char b c) s end.

Definition blank_browser (cells : list string) : browser := mkBrowser HText EmptyString None cells.

Definition table_cells (page : string) : list string := unescape <$> reverse (b_cells (browse (blank_browser []) page)).

Lemma browse_app b s t : browse b (s +:+ t) = browse (browse b s) t.
Proof.
  revert b. induction s as [|c s IH]; intros b; [done|].
  change (String c s +:+ t) with (String c (s +:+ t)). simpl. apply IH.
Qed.

(** A value printed in a cell, and one printed in an attribute. *)
Lemma browse_in_cell tag t cells s :
  inert s → browse (mkBrowser HText tag (Some t) cells) s = mkBrowser HText tag (Some (t +:+ s)) cells.
Proof.
  revert t. induction s as [|c s IH]; intros t Hs; [by rewrite append_nil|].
  apply Forall_cons_1 in Hs as [(H1 & _) Hs]. cbn [browse]. unfold browse_char. cbn [b_at].
  rewrite decide_False by done. cbn [b_tag b_cell b_cells fmap option_fmap option_map].
  rewrite IH by done. by rewrite append_assoc.
Qed.

Lemma browse_in_attribute nm tag cell cells s :
  inert s → browse (mkBrowser (HAttr nm) tag cell cells) s = mkBrowser (HAttr nm) tag cell cells.
Proof.
  induction s as [|c s IH]; intros Hs; [done|]. apply Forall_cons_1 in Hs as [(_ & _ & H3 & _) Hs].
  cbn [browse]. unfold browse_char. cbn [b_at hstep]. rewrite decide_False by done. by apply IH.
Qed.
