(* ===== verification/Retry.v ===== *)
(** * internal/retry: connect with exponential backoff

    [Do] runs a connect function until it succeeds, the context ends or the
    attempts run out.  The backoff is the code's: a [time.Duration] (int64
    nanoseconds) goes through binary64, is multiplied by 1.5 and truncated
    back.  [retry_run] is the abstract specification, in exact integer
    arithmetic, of which attempts and waits may happen and what is returned. *)
From Stdlib Require Import SpecFloat.
From S2P Require Import Prelude.

(** ** The code *)

Record Config : Type := mkConfig {
  MaxAttempts : Z;
  BackoffMin : Z;
  BackoffMax : Z;
}.

Definition DefaultConfig : Config := {|
  MaxAttempts := 10;
  BackoffMin := 500 * Millisecond;
  BackoffMax := 30 * Second;
|}.

(** [backoffMultiplier = 1.5], the binary64 number [3 * 2^51 * 2^-52]. *)
Definition backoffMultiplier : spec_float := S754_finite false 6755399441055744 (-52).

(** [float64(z)] for an int64 [z]: round to nearest, ties to even. *)
Definition float64 (z : Z) : spec_float := binary_normalize 53 1024 z 0 false.

(** The integer part of a finite binary64 number, towards zero. *)
Definition float_trunc (f : spec_float) : option Z :=
  match f with
  | S754_zero _ => Some 0
  | S754_finite s m e =>
      let a := if e <? 0 then Zpos m / 2 ^ (- e) else Zpos m * 2 ^ e in
      Some (if s then - a else a)
  | _ => None
  end.

Section retry.
(** What [time.Duration(f)] gives for an [f] outside int64: Go leaves it to
    the implementation. *)
Variable conv_out_of_range : spec_float → Z.

(** [time.Duration(f)]. *)
Definition float_to_int64 (f : spec_float) : Z :=
  match float_trunc f with
  | Some z => if in_int64 z then z else conv_out_of_range f
  | None => conv_out_of_range f
  end.

(** [min(time.Duration(float64(backoff)*backoffMultiplier), cfg.BackoffMax)] *)
Definition next_backoff (cfg : Config) (backoff : Z) : Z :=
  Z.min (float_to_int64 (SFmul 53 1024 (float64 backoff) backoffMultiplier)) (BackoffMax cfg).

Context {W T : Type}.
(** [connect(ctx)], and the [select] between [ctx.Done()] and
    [time.After(backoff)]: [Some e] when the context case is taken, with
    [e = ctx.Err()]. *)
Variable connect : io W (res T).
Variable select_wait : Z → io W (option goerr).

Definition canceled_after (attempt : Z) : string :=
  "retry: context canceled after " +:+ pretty attempt +:+ " attempts".
Definition failed_after (n : Z) : string :=
  "retry: failed after " +:+ pretty n +:+ " attempts".

(** The loop of [Do]; [fuel] is at least the number of attempts left, so the
    loop always ends on one of the code's returns. *)
Fixpoint loop (cfg : Config) (maxAttempts : Z) (fuel : nat)
    (attempt backoff : Z) (lastErr : option goerr) : io W (res T) :=
  let exhausted := Err (Wrap (failed_after maxAttempts) (default (Text "%!w(<nil>)") lastErr)) in
  match fuel with
  | O => mret exhausted
  | S fuel =>
      if attempt <=? maxAttempts then
        result ← connect;
        match result with
        | Ok v => mret (Ok v)
        | Err e =>
            if attempt =? maxAttempts then
              mret (Err (Wrap (failed_after maxAttempts) e))
            else
              c ← select_wait backoff;
              match c with
              | Some ce => mret (Err (Wrap (canceled_after attempt) ce))
              | None =>
                  loop cfg maxAttempts fuel (attempt + 1) (next_backoff cfg backoff) (Some e)
              end
        end
      else mret exhausted
  end.

Definition effective_attempts (cfg : Config) : Z :=
  if MaxAttempts cfg <=? 0 then 1 else MaxAttempts cfg.

Definition Do (cfg : Config) : io W (res T) :=
  let maxAttempts := effective_attempts cfg in
  loop cfg maxAttempts (Z.to_nat maxAttempts) 1 (BackoffMin cfg) None.
End retry.

(** ** What an execution shows: its attempts and waits, in order *)

Inductive event (T : Type) : Type :=
  | Attempt (r : res T)
  | Waited (d : Z) (cancelled : option goerr).
Arguments Attempt {T} r.
Arguments Waited {T} d cancelled.

Section logging.
Context {W T : Type} (connect : io W (res T)) (select_wait : Z → io W (option goerr)).

Definition log_connect : io (W * list (event T)) (res T) := λ '(w, log),
  let '(r, w') := connect w in (r, (w', log ++ [Attempt r])).
Definition log_wait (d : Z) : io (W * list (event T)) (option goerr) := λ '(w, log),
  let '(c, w') := select_wait d w in (c, (w', log ++ [Waited d c])).

(** [Do] with its attempts and waits recorded. *)
Definition traced (oor : spec_float → Z) (cfg : Config) (w : W) : res T * list (event T) :=
  let '(r, (_, log)) := Do oor log_connect log_wait cfg (w, []) in (r, log).
End logging.

(** ** The specification *)

(** One backoff step in exact arithmetic: half as much again, capped. *)
Definition backoff_step (cfg : Config) (b : Z) : Z := Z.min (b * 3 / 2) (BackoffMax cfg).

(** [retry_run step N n b log r]: from attempt [n] of [N] with the next wait [b],
    the attempts and waits [log] may happen and give [r]. *)
Inductive retry_run {T} (step : Z → Z) (N : Z) : Z → Z → list (event T) → res T → Prop :=
  | run_success n b v :
      n ≤ N → retry_run step N n b [Attempt (Ok v)] (Ok v)
  | run_exhausted b e :
      retry_run step N N b [Attempt (Err e)] (Err (Wrap (failed_after N) e))
  | run_cancelled n b e ce :
      n < N →
      retry_run step N n b [Attempt (Err e); Waited b (Some ce)] (Err (Wrap (canceled_after n) ce))
  | run_again n b e log r :
      n < N → retry_run step N (n + 1) (step b) log r →
      retry_run step N n b (Attempt (Err e) :: Waited b None :: log) r.

Definition attempts {T} (log : list (event T)) : list (res T) :=
  omap (λ ev, match ev with Attempt r => Some r | _ => None end) log.
Definition waits {T} (log : list (event T)) : list Z :=
  omap (λ ev, match ev with Waited d _ => Some d | _ => None end) log.

(** ** Binary64 arithmetic on the durations of interest is exact *)

Lemma iter_shr_exact (n m : positive) :
  SpecFloat.iter_pos shr_1 n (Build_shr_record (Zpos m * 2 ^ Zpos n) false false)
  = Build_shr_record (Zpos m) false false.
Proof.
  revert m. induction n as [n IH|n IH|]; intros m.
  - replace (Zpos m * 2 ^ Zpos n~1) with (Zpos (m * 2 ^ n * 2 ^ n)~0).
    2:{ rewrite Pos2Z.inj_xO, !Pos2Z.inj_mul, Pos2Z.inj_pow, (Pos2Z.inj_xI n).
        rewrite Z.pow_add_r, Z.pow_mul_r, Z.pow_1_r by lia.
        change (2 ^ 2) with (2 * 2). rewrite Z.pow_mul_l. lia. }
    simpl. rewrite !Pos2Z.inj_mul, Pos2Z.inj_pow.
    change (Z.pos m * 2 ^ Z.pos n) with (Z.pos m * 2 ^ Z.pos n).
    rewrite <-(Pos2Z.inj_pow 2 n), <-Pos2Z.inj_mul, Pos2Z.inj_pow, IH.
    rewrite Pos2Z.inj_mul, Pos2Z.inj_pow. apply IH.
  - replace (Zpos m * 2 ^ Zpos n~0) with (Zpos (m * 2 ^ n) * 2 ^ Zpos n).
    2:{ rewrite Pos2Z.inj_mul, Pos2Z.inj_pow, (Pos2Z.inj_xO n).
        rewrite Z.pow_mul_r by lia.
        change (2 ^ 2) with (2 * 2). rewrite Z.pow_mul_l. lia. }
    simpl. rewrite IH, Pos2Z.inj_mul, Pos2Z.inj_pow. apply IH.
  - rewrite Z.mul_comm. done.
Qed.

Lemma digits2_pos_bounds (m : positive) :
  2 ^ (Zpos (digits2_pos m) - 1) ≤ Zpos m < 2 ^ Zpos (digits2_pos m).
Proof.
  induction m as [m IH|m IH|]; [..|done];
    change (digits2_pos _) with (Pos.succ (digits2_pos m)); rewrite Pos2Z.inj_succ;
    set (d := Z.pos (digits2_pos m)) in *; assert (1 ≤ d) by lia;
    replace (Z.succ d - 1) with (Z.succ (d - 1)) by lia;
    rewrite !Z.pow_succ_r by lia; lia.
Qed.

Lemma digits2_unique (m : positive) (d : Z) :
  2 ^ (d - 1) ≤ Zpos m < 2 ^ d → Zpos (digits2_pos m) = d.
Proof.
  intros [H1 H2]. pose proof (digits2_pos_bounds m) as [H3 H4].
  assert (d - 1 < Zpos (digits2_pos m)) by (apply (Z.pow_lt_mono_r_iff 2); lia).
  assert (Zpos (digits2_pos m) - 1 < d).
  { destruct (Z.le_gt_cases 0 d); [|rewrite Z.pow_neg_r in H2; lia].
    apply (Z.pow_lt_mono_r_iff 2); lia. }
  lia.
Qed.

Lemma iter_xO (m n : positive) : Zpos (Pos.iter xO m n) = Zpos m * 2 ^ Zpos n.
Proof.
  induction n as [|n IH] using Pos.peano_ind; [simpl; lia|].
  rewrite Pos.iter_succ, Pos2Z.inj_xO, IH, Pos2Z.inj_succ, Z.pow_succ_r by lia. lia.
Qed.

(** Bits a 53-bit mantissa has to lose. *)
Definition excess (m : positive) : Z := Z.max 0 (Zpos (digits2_pos m) - 53).

Lemma shr_fexp_exact (M m : positive) e :
  -1074 ≤ Zpos (digits2_pos M) + e - 53 →
  Zpos M = Zpos m * 2 ^ excess M →
  shr_fexp 53 1024 (Zpos M) e loc_Exact = (Build_shr_record (Zpos m) false false, e + excess M).
Proof.
  intros He HM. unfold shr_fexp, fexp, emin. simpl Zdigits2.
  unfold excess in *. set (d := Z.pos (digits2_pos M)) in *.
  replace (Z.max (d + e - 53) (3 - 1024 - 53) - e) with (d - 53) by lia.
  destruct (Z.max_spec 0 (d - 53)) as [[? Hm]|[? Hm]]; rewrite Hm in *.
  - destruct (d - 53) as [|p|p] eqn:E; [lia| |lia]. simpl.
    replace (Z.pos M) with (Z.pos m * 2 ^ Z.pos p) by lia. by rewrite iter_shr_exact.
  - rewrite Z.pow_0_r, Z.mul_1_r, Z.add_0_r in *. simplify_eq.
    destruct (d - 53) eqn:E; [done|lia|done].
Qed.

Lemma excess_quotient (M m : positive) :
  Zpos M = Zpos m * 2 ^ excess M → Zpos (digits2_pos m) = Zpos (digits2_pos M) - excess M.
Proof.
  intros HM. apply digits2_unique. pose proof (digits2_pos_bounds M) as Hb.
  unfold excess in *. set (d := Z.pos (digits2_pos M)) in *. set (x := Z.max 0 (d - 53)) in *.
  assert (0 ≤ x) by lia. assert (x < d) by lia.
  replace (d - 1) with ((d - x - 1) + x) in Hb by lia.
  replace d with ((d - x) + x) in Hb at 2 by lia.
  rewrite !Z.pow_add_r in Hb by lia. rewrite HM in Hb.
  assert (0 < 2 ^ x) by lia. nia.
Qed.

(** Rounding a number that fits in 53 bits changes nothing. *)
Lemma binary_round_aux_exact sx (M m : positive) e :
  -1074 ≤ Zpos (digits2_pos M) + e - 53 →
  Zpos M = Zpos m * 2 ^ excess M → e + excess M ≤ 971 →
  binary_round_aux 53 1024 sx (Zpos M) e loc_Exact = S754_finite sx m (e + excess M).
Proof.
  intros He HM Hmax. unfold binary_round_aux.
  rewrite (shr_fexp_exact M m) by done. simpl.
  pose proof (excess_quotient M m HM) as Hd.
  assert (excess m = 0) as Hm by (unfold excess in *; lia).
  rewrite (shr_fexp_exact m m); [|unfold excess in *; lia|rewrite Hm; lia].
  simpl. rewrite Hm, Z.add_0_r, (proj2 (Z.leb_le _ _)) by lia. done.
Qed.

Lemma float64_exact (b : positive) :
  Zpos b < 2 ^ 53 →
  ∃ m, float64 (Zpos b) = S754_finite false m (Zpos (digits2_pos b) - 53)
     ∧ Zpos m = Zpos b * 2 ^ (53 - Zpos (digits2_pos b))
     ∧ Zpos (digits2_pos m) = 53.
Proof.
  intros Hb. unfold float64, binary_normalize, binary_round, fexp, emin.
  pose proof (digits2_pos_bounds b) as Hd.
  set (d := Z.pos (digits2_pos b)) in *.
  assert (d ≤ 53).
  { assert (d - 1 < 53); [|lia]. apply (Z.pow_lt_mono_r_iff 2); lia. }
  replace (Z.max (d + 0 - 53) (3 - 1024 - 53)) with (d - 53) by lia.
  unfold shl_align. rewrite Z.sub_0_r.
  assert (∃ m, (match d - 53 with Z.neg p => (Pos.iter xO b p, d - 53) | _ => (b, 0) end)
               = (m, d - 53) ∧ Zpos m = Zpos b * 2 ^ (53 - d)) as (m & -> & Hm).
  { destruct (d - 53) as [|p|p] eqn:E; [|lia|].
    - exists b. replace (53 - d) with 0 by lia. split; [done|lia].
    - exists (Pos.iter xO b p). rewrite iter_xO. by replace (53 - d) with (Z.pos p) by lia. }
  exists m. assert (Zpos (digits2_pos m) = 53) as Hdm.
  { apply digits2_unique. rewrite Hm. replace 53 with (d + (53 - d)) at 4 by lia.
    replace (53 - 1) with ((d - 1) + (53 - d)) by lia.
    rewrite !Z.pow_add_r by lia. split; [apply Z.mul_le_mono_nonneg_r; lia|].
    apply Z.mul_lt_mono_pos_r; lia. }
  assert (excess m = 0) as Hx by (unfold excess; lia).
  split; [|done]. rewrite (binary_round_aux_exact _ m m); rewrite ?Hx; [f_equal; lia|lia..].
Qed.

(** [backoff * 1.5], truncated, is [3 * backoff / 2] for every backoff below
    2^51 ns (26 days). *)
Lemma grow_exact oor b :
  0 ≤ b < 2 ^ 51 →
  float_to_int64 oor (SFmul 53 1024 (float64 b) backoffMultiplier) = b * 3 / 2.
Proof.
  intros [H0 Hb]. destruct b as [|b|b]; [done| |lia].
  destruct (float64_exact b) as (m & -> & Hm & Hdm); [lia|].
  pose proof (digits2_pos_bounds b) as Hd. set (d := Z.pos (digits2_pos b)) in *.
  assert (d ≤ 51).
  { assert (d - 1 < 51); [|lia]. apply (Z.pow_lt_mono_r_iff 2); lia. }
  simpl SFmul. set (M := (m * 6755399441055744)%positive).
  assert (Zpos M = Zpos b * 3 * 2 ^ (104 - d)) as HM.
  { unfold M. rewrite Pos2Z.inj_mul, Hm. replace (104 - d) with ((53 - d) + 51) by lia.
    rewrite Z.pow_add_r by lia. lia. }
  assert (52 ≤ excess M ≤ 53) as Hx.
  { pose proof (digits2_pos_bounds m) as Hmb. rewrite Hdm in Hmb.
    assert (2 ^ 104 ≤ Zpos M < 2 ^ 106) as [Hl Hu] by (unfold M; lia).
    pose proof (digits2_pos_bounds M) as HMb. unfold excess.
    set (D := Z.pos (digits2_pos M)) in *.
    assert (104 < D) by (apply (Z.pow_lt_mono_r_iff 2); lia).
    assert (D - 1 < 106) by (apply (Z.pow_lt_mono_r_iff 2); lia). lia. }
  set (x := excess M) in *.
  assert (∃ q, Zpos q = Zpos b * 3 * 2 ^ (104 - d - x)) as [q Hq].
  { exists (Z.to_pos (Zpos b * 3 * 2 ^ (104 - d - x))). rewrite Z2Pos.id; lia. }
  rewrite (binary_round_aux_exact _ M q).
  - unfold float_to_int64. simpl float_trunc. fold x.
    rewrite (proj2 (Z.ltb_lt _ _)) by lia.
    replace (- (d - 53 + -52 + x)) with ((104 - d - x) + 1) by lia.
    rewrite Hq, Z.pow_add_r, Z.pow_1_r by lia.
    rewrite Z.mul_comm, (Z.mul_comm (2 ^ _) 2), <-Z.div_div by lia.
    rewrite (Z.mul_comm (2 ^ _)).
    rewrite (Z.div_div _ 2 (2 ^ _)), (Z.mul_comm 2), <-Z.div_div by lia.
    rewrite Z.div_mul by lia.
    assert (in_int64 (Z.pos b * 3 / 2) = true) as ->; [|done].
    unfold in_int64, min_int64, max_int64.
    pose proof (Z.div_lt_upper_bound (Z.pos b * 3) 2 (2 ^ 52 * 3) ltac:(lia) ltac:(lia)).
    pose proof (Z.div_pos (Z.pos b * 3) 2 ltac:(lia) ltac:(lia)).
    apply andb_true_intro. split; apply Z.leb_le; lia.
  - unfold x in Hx. unfold excess in Hx. lia.
  - fold x. rewrite HM, Hq. replace (104 - d) with ((104 - d - x) + x) at 1 by lia.
    rewrite Z.pow_add_r by lia. lia.
  - fold x. lia.
Qed.

(** ** Properties of the specification *)

Lemma attempts_retry {T} (r : res T) d c log :
  attempts (Attempt r :: Waited d c :: log) = r :: attempts log.
Proof. done. Qed.
Lemma waits_retry {T} (r : res T) d c log :
  waits (Attempt r :: Waited d c :: log) = d :: waits log.
Proof. done. Qed.
#[local] Hint Rewrite @attempts_retry @waits_retry : retry.

Lemma retry_run_ext {T} (f g : Z → Z) N n b (log : list (event T)) r (P : Z → Prop) :
  (∀ b, P b → f b = g b ∧ P (f b)) → P b →
  retry_run f N n b log r → retry_run g N n b log r.
Proof.
  intros Hfg Hb H. induction H as [| | |n b e log r Hn H IH]; try (constructor; done).
  destruct (Hfg _ Hb) as [Heq HP]. constructor; [done|]. rewrite <-Heq. auto.
Qed.

Lemma retry_run_counts {T} f N n b (log : list (event T)) r :
  retry_run f N n b log r →
  1 ≤ Z.of_nat (length (attempts log)) ≤ N - n + 1 ∧
  Z.of_nat (length (waits log)) < N - n + 1.
Proof. induction 1; autorewrite with retry; simpl length in *; lia. Qed.

Fixpoint backoffs (f : Z → Z) (b : Z) (k : nat) : list Z :=
  match k with O => [] | S k => b :: backoffs f (f b) k end.

Lemma retry_run_waits {T} f N n b (log : list (event T)) r :
  retry_run f N n b log r → waits log = backoffs f b (length (waits log)).
Proof. induction 1; try done. autorewrite with retry. simpl. by f_equal. Qed.

Lemma retry_run_result {T} f N n b (log : list (event T)) r :
  retry_run f N n b log r →
  match r with
  | Ok v => last (attempts log) = Some (Ok v)
  | Err e => Forall (λ a, is_ok a = false) (attempts log) ∧
      (∃ e', last (attempts log) = Some (Err e') ∧ e = Wrap (failed_after N) e' ∧
             Z.of_nat (length (attempts log)) = N - n + 1) ∨
      (∃ k ce d, e = Wrap (canceled_after k) ce ∧ last log = Some (Waited d (Some ce)))
  end.
Proof.
  induction 1 as [n b v Hn|b e|n b e ce Hn|n b e log r Hn H IH]; [done| | |]; autorewrite with retry.
  - left. split; [by repeat constructor|]. exists e. split_and!; [done|done|cbn; lia].
  - right. by exists n, ce, b.
  - assert (Hne : attempts log ≠ []) by (inversion H; done).
    assert (last (Err e :: attempts log) = last (attempts log)) as Hl
      by by destruct (attempts log).
    destruct r as [v|e0]; [by rewrite Hl|].
    destruct IH as [[Hf (e' & H1 & H2 & H3)]|(k & ce & d & H1 & H2)].
    + left. split; [by constructor|]. exists e'. rewrite Hl. simpl length. split_and!; [done|done|lia].
    + right. exists k, ce, d. split; [done|]. by destruct log.
Qed.

(** ** The code refines the specification *)

Section refinement.
Context (oor : spec_float → Z) {W T : Type}.
Context (connect : io W (res T)) (select_wait : Z → io W (option goerr)).

Lemma loop_run cfg N fuel n b last w log0 :
  n ≤ N → N - n < Z.of_nat fuel →
  ∃ r w' log,
    loop oor (log_connect connect) (log_wait select_wait) cfg N fuel n b last (w, log0)
      = (r, (w', log0 ++ log)) ∧
    retry_run (next_backoff oor cfg) N n b log r.
Proof.
  revert n b last w log0. induction fuel as [|fuel IH]; intros n b last w log0 Hn Hf; [lia|].
  simpl. rewrite (proj2 (Z.leb_le n N)) by done.
  unfold mbind, io_bind, log_connect at 1, log_wait at 1.
  destruct (connect w) as [[v|e] w1] eqn:Hc.
  - exists (Ok v), w1, [Attempt (Ok v)]. split; [done|by constructor].
  - destruct (n =? N) eqn:E; to_prop.
    + subst. exists (Err (Wrap (failed_after N) e)), w1, [Attempt (Err e)].
      split; [done|constructor].
    + destruct (select_wait b w1) as [[ce|] w2].
      * eexists _, w2, [Attempt (Err e); Waited b (Some ce)]. rewrite <-app_assoc.
        split; [done|constructor; lia].
      * destruct (IH (n + 1) (next_backoff oor cfg b) (Some e) w2
          ((log0 ++ [Attempt (Err e)]) ++ [Waited b None])) as (r & w' & log & Hl & Hr); [lia..|].
        exists r, w', (Attempt (Err e) :: Waited b None :: log).
        unfold mbind, io_bind in Hl. rewrite <-!app_assoc in Hl. simpl in Hl. rewrite <-app_assoc.
        split; [exact Hl|constructor; [lia|done]].
Qed.

Lemma effective_attempts_pos cfg : 1 ≤ effective_attempts cfg.
Proof. unfold effective_attempts. destruct (_ <=? _) eqn:E; to_prop; lia. Qed.

Lemma traced_run cfg w :
  let '(r, log) := traced connect select_wait oor cfg w in
  retry_run (next_backoff oor cfg) (effective_attempts cfg) 1 (BackoffMin cfg) log r.
Proof.
  unfold traced, Do. pose proof (effective_attempts_pos cfg).
  destruct (loop_run cfg (effective_attempts cfg) (Z.to_nat (effective_attempts cfg)) 1
    (BackoffMin cfg) None w []) as (r & w' & log & -> & Hr); [lia..|done].
Qed.
End refinement.

(** The backoff the program computes is the exact one, as long as the configured
    durations are below 2^51 ns. *)
Definition small_durations (cfg : Config) : Prop :=
  0 ≤ BackoffMin cfg < 2 ^ 51 ∧ 0 ≤ BackoffMax cfg < 2 ^ 51.

Lemma next_backoff_exact oor cfg b :
  0 ≤ b < 2 ^ 51 → next_backoff oor cfg b = backoff_step cfg b.
Proof. intros H. unfold next_backoff, backoff_step. by rewrite grow_exact. Qed.

Lemma small_run {T} oor cfg N n b (log : list (event T)) r :
  small_durations cfg → 0 ≤ b < 2 ^ 51 →
  retry_run (next_backoff oor cfg) N n b log r → retry_run (backoff_step cfg) N n b log r.
Proof.
  intros [_ Hmax] Hb. apply retry_run_ext with (P := λ b, 0 ≤ b < 2 ^ 51); [|done].
  clear b Hb. intros b Hb. rewrite next_backoff_exact by done. split; [done|].
  unfold backoff_step. pose proof (Z.div_pos (b * 3) 2 ltac:(lia) ltac:(lia)). lia.
Qed.

(** C17: with durations below 2^51 ns, every execution of [Do] is one the
    specification allows: attempts and waits alternate, the waits follow the
    capped 1.5 backoff in exact arithmetic although the code goes through
    binary64, and the result is the one the specification gives. *)
Theorem Do_refines_spec {W T} (oor : spec_float → Z) (connect : io W (res T))
    (select_wait : Z → io W (option goerr)) cfg w :
  small_durations cfg →
  let '(r, log) := traced connect select_wait oor cfg w in
  retry_run (backoff_step cfg) (effective_attempts cfg) 1 (BackoffMin cfg) log r.
Proof.
  intros Hc. pose proof (traced_run oor connect select_wait cfg w) as H.
  destruct (traced _ _ _ _ _) as [r log]. apply small_run in H; [done..|apply Hc].
Qed.

(** For any configuration, [Do] connects at least once and at most
    [max 1 MaxAttempts] times and waits fewer times than that; the waits are
    the iterated backoff and all but the first are at most [BackoffMax]; it
    returns the value of the last attempt, or wraps the last attempt's error
    after exactly the allowed number of failures, or the context's error when
    a wait is cut short. *)
Theorem Do_outcome {W T} (oor : spec_float → Z) (connect : io W (res T))
    (select_wait : Z → io W (option goerr)) cfg w :
  let N := effective_attempts cfg in
  let '(r, log) := traced connect select_wait oor cfg w in
  1 ≤ Z.of_nat (length (attempts log)) ≤ N ∧
  Z.of_nat (length (waits log)) < N ∧
  waits log = backoffs (next_backoff oor cfg) (BackoffMin cfg) (length (waits log)) ∧
  Forall (λ d, d ≤ BackoffMax cfg) (tail (waits log)) ∧
  match r with
  | Ok v => last (attempts log) = Some (Ok v)
  | Err e =>
      (Forall (λ a, is_ok a = false) (attempts log) ∧
       ∃ e', last (attempts log) = Some (Err e') ∧ e = Wrap (failed_after N) e' ∧
             Z.of_nat (length (attempts log)) = N) ∨
      (∃ k ce d, e = Wrap (canceled_after k) ce ∧ last log = Some (Waited d (Some ce)))
  end.
Proof.
  intros N. pose proof (traced_run oor connect select_wait cfg w) as H.
  destruct (traced _ _ _ _ _) as [r log]. fold N in H.
  pose proof (retry_run_counts _ _ _ _ _ _ H). pose proof (retry_run_waits _ _ _ _ _ _ H) as Hw.
  pose proof (retry_run_result _ _ _ _ _ _ H) as Hr.
  split_and!; [lia..|done| |].
  - rewrite Hw. destruct (length (waits log)) as [|k]; [constructor|]. simpl. clear.
    generalize (BackoffMin cfg) as b.
    induction k as [|k IH]; intros b; simpl; constructor; [unfold next_backoff; lia|apply IH].
  - destruct r; [done|]. by replace (N - 1 + 1) with N in Hr by lia.
Qed.

(** *** A world that plays back a script, to run [Do] on *)
Definition script_connect {T} : io (list (event T)) (res T) := λ evs,
  match evs with Attempt r :: evs => (r, evs) | _ => (Err (Text "end of script"), evs) end.
Definition script_wait {T} (d : Z) : io (list (event T)) (option goerr) := λ evs,
  match evs with Waited _ c :: evs => (c, evs) | _ => (None, evs) end.

Lemma script_loop {T} oor cfg N fuel n b last log0 (log : list (event T)) r :
  n ≤ N → N - n < Z.of_nat fuel →
  retry_run (next_backoff oor cfg) N n b log r →
  loop oor (log_connect script_connect) (log_wait script_wait) cfg N fuel n b last (log, log0)
    = (r, ([], log0 ++ log)).
Proof.
  intros Hn Hf H. revert fuel last log0 Hn Hf.
  induction H as [n b v Hn'|b e|n b e ce Hn'|n b e log r Hn' H IH];
    intros [|fuel] last log0 Hn Hf; try lia;
    simpl; rewrite (proj2 (Z.leb_le _ _)) by done; unfold mbind, io_bind; simpl;
    rewrite ?Z.eqb_refl, ?(proj2 (Z.eqb_neq n N)) by lia; simpl; try done.
  - by rewrite <-app_assoc.
  - rewrite IH by lia. by rewrite <-!app_assoc.
Qed.

(** The specification allows nothing the code cannot do: every run of it is
    the execution of [Do] in a world that answers accordingly. *)
Theorem Do_realises_spec {T} (oor : spec_float → Z) cfg (log : list (event T)) r :
  small_durations cfg →
  retry_run (backoff_step cfg) (effective_attempts cfg) 1 (BackoffMin cfg) log r →
  traced script_connect script_wait oor cfg log = (r, log).
Proof.
  intros Hc H. unfold traced, Do. pose proof (effective_attempts_pos cfg).
  rewrite (script_loop oor cfg _ _ _ _ _ _ log r); [done|lia..|].
  apply retry_run_ext with (f := backoff_step cfg) (P := λ b, 0 ≤ b < 2 ^ 51); [|apply Hc|done].
  clear H. intros b Hb. rewrite next_backoff_exact by done. split; [done|]. destruct Hc as [_ Hm].
  unfold backoff_step. pose proof (Z.div_pos (b * 3) 2 ltac:(lia) ltac:(lia)). lia.
Qed.

(** ** Reasoning about what [connect] does to the world

    What every failed attempt and every wait keeps holds when [Do] gives up, and
    what a successful attempt establishes holds when it succeeds. *)
Section hoare.
Context {W T : Type} (connect : io W (res T)) (select_wait : Z → io W (option goerr)).
Context (I : W → Prop) (Q : T → W → Prop).
Hypothesis connect_spec : ∀ w, I w →
  match connect w with (Ok v, w') => Q v w' | (Err _, w') => I w' end.
Hypothesis wait_spec : ∀ d w, I w → I (select_wait d w).2.

Lemma loop_hoare oor cfg N fuel n b last w :
  I w →
  match loop oor connect select_wait cfg N fuel n b last w with
  | (Ok v, w') => Q v w'
  | (Err _, w') => I w'
  end.
Proof.
  revert n b last w. induction fuel as [|fuel IH]; intros n b last w Hw; [done|].
  simpl. destruct (n <=? N); [|done]. unfold mbind, io_bind.
  pose proof (connect_spec w Hw) as Hc. destruct (connect w) as [[v|e] w1]; [done|].
  destruct (n =? N); [done|]. pose proof (wait_spec b w1 Hc) as Hs.
  destruct (select_wait b w1) as [[ce|] w2]; [done|]. by apply IH.
Qed.

Lemma Do_hoare oor cfg w :
  I w →
  match Do oor connect select_wait cfg w with (Ok v, w') => Q v w' | (Err _, w') => I w' end.
Proof. apply loop_hoare. Qed.
End hoare.

(** *** Concrete runs *)

Definition three_tries : Config := mkConfig 3 (10 * Millisecond) (12 * Millisecond).
Definition no_oor (_ : spec_float) : Z := min_int64.
Definition flaky_log : list (event nat) :=
  [Attempt (Err (Text "refused")); Waited (10 * Millisecond) None;
   Attempt (Err (Text "refused")); Waited (12 * Millisecond) None; Attempt (Ok 7%nat)].

Lemma three_tries_small : small_durations three_tries.
Proof. unfold small_durations, three_tries, Millisecond. cbn. lia. Qed.

Lemma Do_refines_spec_witness :
  small_durations three_tries ∧
  retry_run (backoff_step three_tries) 3 1 (10 * Millisecond)
    (snd (traced script_connect script_wait no_oor three_tries flaky_log))
    (fst (traced script_connect script_wait no_oor three_tries flaky_log)) ∧
  traced script_connect script_wait no_oor three_tries flaky_log = (Ok 7%nat, flaky_log).
Proof.
  pose proof three_tries_small as Hc.
  split; [done|]. split; [|vm_compute; done].
  exact (Do_refines_spec no_oor script_connect script_wait three_tries flaky_log Hc).
Defined.

Lemma Do_realises_spec_witness :
  traced script_connect script_wait no_oor three_tries flaky_log = (Ok 7%nat, flaky_log).
Proof.
  apply Do_realises_spec; [exact three_tries_small|].
  repeat (constructor; [done|]). by constructor.
Defined.

(** The cap is applied only after the first wait: with [BackoffMin] above
    [BackoffMax] the first wait exceeds the cap. *)
Example first_wait_not_capped :
  let cfg := mkConfig 2 (5 * Second) (1 * Second) in
  waits (snd (traced script_connect script_wait no_oor cfg
    [Attempt (Err (Text "refused")); Waited 0 None; Attempt (Ok 1%nat)])) = [5 * Second].
Proof. vm_compute. done. Qed.

(** A sub-two-nanosecond backoff never grows: truncation undoes the factor. *)
Example one_nanosecond_is_stuck : next_backoff no_oor DefaultConfig 1 = 1.
Proof. vm_compute. done. Qed.
