(* ===== verification/WorkerPool.v ===== *)
(** * workerpool: a bounded goroutine pool with backpressure

    [Pool] is the configuration [New] builds; [step] is the machine of its
    goroutines: [Start]'s own, the workers it launches, and the callers of
    [Submit] and [Stop].  Every channel operation, close, and wait is one label.
    A task is named by the [Submit] call that offers it.  The queue and
    concurrency bounds, first-in first-out hand-out, exactly-once execution,
    the drain guarantee and termination after close are proved for every
    schedule. *)
From S2P Require Import Prelude GoContext.

(** ** Configuration *)

Record Pool : Type := mkPool {
  size : Z;
  tasks_cap : Z;             (* capacity of the [tasks] channel *)
  drainOnStop : bool;
}.

(** [make(chan Task, n)] panics on a negative size: [None]. *)
Definition make_chan (n : Z) : option Z := if n <? 0 then None else Some n.

Definition Option : Type := Pool → option Pool.

Definition WithQueueSize (n : Z) : Option := λ p,
  c ← make_chan n; Some (mkPool (size p) c (drainOnStop p)).
Definition WithDrainOnStop : Option := λ p, Some (mkPool (size p) (tasks_cap p) true).

Definition New (n : Z) (opts : list Option) : option Pool :=
  c ← make_chan (wrap_int64 (n * 2));
  foldl (λ p opt, p ≫= opt) (Some (mkPool n c false)) opts.

(** ** The goroutines *)

(** A worker: waiting to receive, running the task of a submitter, or past the
    end of its [range] loop. *)
Inductive worker : Type := Idle | Running (t : nat) | Exited.

(** Where [Start] is: launching the workers, blocked on [<-ctx.Done()], past
    [close(p.tasks)], or returned. *)
Inductive phase : Type := NotStarted | Spawning (left : Z) | Waiting | Closing | Returned.

(** A [Submit] call: in its [select], unwinding from a send on the closed
    channel, or returned. *)
Inductive submit : Type := Selecting | Recovering | SubmitReturned (err : option goerr).

(** A [Stop] call. *)
Inductive stop : Type := StopWaiting | StopReturned (err : option goerr).

#[export] Instance worker_eq_dec : EqDecision worker.
Proof. solve_decision. Defined.
#[export] Instance submit_eq_dec : EqDecision submit.
Proof. solve_decision. Defined.

Record state : Type := mkState {
  queue : list nat;                       (* the buffered tasks, oldest first *)
  closed : bool;
  workers : list worker;
  at_ : phase;
  submits : gmap nat (context * submit);
  stops : gmap nat (context * stop);
  σ : cancels;
  (* history *)
  accepted : list nat;                    (* tasks [Submit] returned nil for *)
  started : list nat;                     (* tasks handed to a worker *)
  finished : list nat;
}.

Definition init : state := mkState [] false [] NotStarted ∅ ∅ [] [] [] [].

Definition running (ws : list worker) : list nat :=
  omap (λ w, match w with Running t => Some t | _ => None end) ws.

(** [p.wg.Wait()] returns when every launched worker is done. *)
Definition wg_done (ws : list worker) : bool := forallb (λ w, bool_decide (w = Exited)) ws.

Definition set_queue q s := mkState q (closed s) (workers s) (at_ s) (submits s) (stops s) (σ s)
  (accepted s) (started s) (finished s).
Definition set_workers ws s := mkState (queue s) (closed s) ws (at_ s) (submits s) (stops s) (σ s)
  (accepted s) (started s) (finished s).
Definition set_phase ph s := mkState (queue s) (closed s) (workers s) ph (submits s) (stops s) (σ s)
  (accepted s) (started s) (finished s).
Definition set_submit i c r s := mkState (queue s) (closed s) (workers s) (at_ s)
  (<[i := (c, r)]> (submits s)) (stops s) (σ s) (accepted s) (started s) (finished s).
Definition set_stop j c r s := mkState (queue s) (closed s) (workers s) (at_ s) (submits s)
  (<[j := (c, r)]> (stops s)) (σ s) (accepted s) (started s) (finished s).
Definition close_tasks s := mkState (queue s) true (workers s) (at_ s) (submits s) (stops s) (σ s)
  (accepted s) (started s) (finished s).
Definition set_cancels c s := mkState (queue s) (closed s) (workers s) (at_ s) (submits s) (stops s) c
  (accepted s) (started s) (finished s).
Definition accept i s := mkState (queue s) (closed s) (workers s) (at_ s) (submits s) (stops s) (σ s)
  (accepted s ++ [i]) (started s) (finished s).
Definition begin i s := mkState (queue s) (closed s) (workers s) (at_ s) (submits s) (stops s) (σ s)
  (accepted s) (started s ++ [i]) (finished s).
Definition finish i s := mkState (queue s) (closed s) (workers s) (at_ s) (submits s) (stops s) (σ s)
  (accepted s) (started s) (finished s ++ [i]).

Inductive label : Type :=
  | LStart                               (* Start is called *)
  | LSpawn                               (* one p.wg.Go *)
  | LClose                               (* <-ctx.Done(); close(p.tasks) *)
  | LReturn                              (* Start returns *)
  | LReceive (w : nat)                   (* a worker receives a buffered task *)
  | LHandoff (w i : nat)                 (* unbuffered channel: rendezvous *)
  | LTaskDone (w : nat)                  (* task(ctx) returns *)
  | LExit (w : nat)                      (* range ends: closed and empty *)
  | LSubmit (i : nat) (c : context)      (* Submit is called *)
  | LSend (i : nat)                      (* its select sends *)
  | LSendClosed (i : nat)                (* its select panics on the closed channel *)
  | LRecover (i : nat)                   (* the deferred recover *)
  | LSubmitDone (i : nat)                (* its select sees ctx.Done *)
  | LStop (j : nat) (c : context)        (* Stop is called *)
  | LStopDone (j : nat)                  (* its select sees done *)
  | LStopCtx (j : nat)                   (* its select sees ctx.Done *)
  | LCancel (c : context) (e : goerr).   (* the environment ends a context *)

Definition submit_error (e : goerr) : goerr := Wrap "submit" e.
Definition pool_stopped : goerr := Text "pool stopped".
Definition stop_error (e : goerr) : goerr := Wrap "pool stop" e.

Section pool.
Context (p : Pool) (ctx : context).

(** [Start(ctx)] *)
Definition start_step (l : label) (s : state) : option state :=
  match l, at_ s with
  | LStart, NotStarted => Some (set_phase (if 0 <? size p then Spawning (size p) else Waiting) s)
  | LSpawn, Spawning n =>
      Some (set_phase (if 1 <? n then Spawning (n - 1) else Waiting)
              (set_workers (workers s ++ [Idle]) s))
  | LClose, Waiting =>
      if bool_decide (ctx_err (σ s) ctx = None) then None
      else Some (set_phase Closing (close_tasks s))
  | LReturn, Closing =>
      if drainOnStop p && negb (wg_done (workers s)) then None
      else Some (set_phase Returned s)
  | _, _ => None
  end.

(** [for task := range p.tasks { task(ctx) }] *)
Definition worker_step (l : label) (s : state) : option state :=
  match l with
  | LReceive w =>
      match workers s !! w, queue s with
      | Some Idle, t :: q => Some (begin t (set_queue q (set_workers (<[w := Running t]> (workers s)) s)))
      | _, _ => None
      end
  | LHandoff w i =>
      match workers s !! w, submits s !! i with
      | Some Idle, Some (c, Selecting) =>
          if negb (closed s) && (tasks_cap p =? 0) && bool_decide (queue s = []) then
            Some (begin i (accept i (set_submit i c (SubmitReturned None)
                    (set_workers (<[w := Running i]> (workers s)) s))))
          else None
      | _, _ => None
      end
  | LTaskDone w =>
      match workers s !! w with
      | Some (Running t) => Some (finish t (set_workers (<[w := Idle]> (workers s)) s))
      | _ => None
      end
  | LExit w =>
      match workers s !! w with
      | Some Idle =>
          if closed s && bool_decide (queue s = []) then
            Some (set_workers (<[w := Exited]> (workers s)) s)
          else None
      | _ => None
      end
  | _ => None
  end.

(** [Submit(ctx, task)] *)
Definition submit_step (l : label) (s : state) : option state :=
  match l with
  | LSubmit i c =>
      match submits s !! i with None => Some (set_submit i c Selecting s) | Some _ => None end
  | LSend i =>
      match submits s !! i with
      | Some (c, Selecting) =>
          if negb (closed s) && (Z.of_nat (length (queue s)) <? tasks_cap p) then
            Some (accept i (set_queue (queue s ++ [i]) (set_submit i c (SubmitReturned None) s)))
          else None
      | _ => None
      end
  | LSendClosed i =>
      match submits s !! i with
      | Some (c, Selecting) => if closed s then Some (set_submit i c Recovering s) else None
      | _ => None
      end
  | LRecover i =>
      match submits s !! i with
      | Some (c, Recovering) =>
          Some (set_submit i c (SubmitReturned (Some
            match ctx_err (σ s) c with Some e => submit_error e | None => pool_stopped end)) s)
      | _ => None
      end
  | LSubmitDone i =>
      match submits s !! i with
      | Some (c, Selecting) =>
          e ← ctx_err (σ s) c; Some (set_submit i c (SubmitReturned (Some (submit_error e))) s)
      | _ => None
      end
  | _ => None
  end.

(** [Stop(ctx)] *)
Definition stop_step (l : label) (s : state) : option state :=
  match l with
  | LStop j c =>
      match stops s !! j with
      | None => Some (set_stop j c (if drainOnStop p then StopWaiting else StopReturned None) s)
      | Some _ => None
      end
  | LStopDone j =>
      match stops s !! j with
      | Some (c, StopWaiting) =>
          if wg_done (workers s) then Some (set_stop j c (StopReturned None) s) else None
      | _ => None
      end
  | LStopCtx j =>
      match stops s !! j with
      | Some (c, StopWaiting) =>
          e ← ctx_err (σ s) c; Some (set_stop j c (StopReturned (Some (stop_error e))) s)
      | _ => None
      end
  | _ => None
  end.

Definition step (l : label) (s : state) : option state :=
  match l with
  | LStart | LSpawn | LClose | LReturn => start_step l s
  | LReceive _ | LHandoff _ _ | LTaskDone _ | LExit _ => worker_step l s
  | LSubmit _ _ | LSend _ | LSendClosed _ | LRecover _ | LSubmitDone _ => submit_step l s
  | LStop _ _ | LStopDone _ | LStopCtx _ => stop_step l s
  | LCancel c e => Some (set_cancels (fire c e (σ s)) s)
  end.

End pool.

(** ** Invariant *)

Lemma running_split ws w x :
  ws !! w = Some x → running ws ≡ₚ running [x] ++ running (take w ws ++ drop (S w) ws).
Proof.
  intros H. rewrite <-(take_drop_middle ws w x H) at 1. unfold running.
  rewrite !omap_app, (app_assoc _ _ (omap _ (drop _ _))). simpl.
  destruct x; simpl; rewrite ?app_nil_r; try done. by rewrite <-Permutation_middle.
Qed.

Lemma running_insert ws w x y :
  ws !! w = Some x →
  running (<[w := y]> ws) ≡ₚ running [y] ++ running (take w ws ++ drop (S w) ws).
Proof.
  intros H. apply lookup_lt_Some in H as Hlt.
  rewrite (running_split (<[w:=y]> ws) w y) by by apply list_lookup_insert_eq.
  by rewrite take_insert_ge, drop_insert_lt by lia.
Qed.

Lemma wg_done_spec ws : wg_done ws = true ↔ Forall (.= Exited) ws.
Proof.
  unfold wg_done. rewrite forallb_forall, Forall_forall. setoid_rewrite <-list_elem_of_In.
  by setoid_rewrite bool_decide_eq_true.
Qed.

Lemma running_wg_done ws : wg_done ws = true → running ws = [].
Proof. rewrite wg_done_spec. induction 1 as [|w ws -> _ IH]; [done|exact IH]. Qed.

Section invariant.
Context (p : Pool) (ctx : context).
Hypothesis cap_nonneg : 0 ≤ tasks_cap p.

(** What the phase of [Start] says of the workers and the channel. *)
Definition phase_ok (s : state) : Prop :=
  match at_ s with
  | NotStarted => workers s = [] ∧ closed s = false
  | Spawning n => 0 < n ∧ Z.of_nat (length (workers s)) + n = size p ∧ closed s = false
  | Waiting => Z.of_nat (length (workers s)) = Z.max 0 (size p) ∧ closed s = false
  | Closing => Z.of_nat (length (workers s)) = Z.max 0 (size p) ∧ closed s = true
  | Returned => Z.of_nat (length (workers s)) = Z.max 0 (size p) ∧ closed s = true ∧
      (drainOnStop p = true → wg_done (workers s) = true)
  end.

Record Inv (s : state) : Prop := mkInv {
  inv_bound : Z.of_nat (length (queue s)) ≤ tasks_cap p;
  inv_fifo : started s ++ queue s = accepted s;
  inv_once : started s ≡ₚ running (workers s) ++ finished s;
  inv_nodup : NoDup (accepted s);
  inv_accepted i : i ∈ accepted s ↔ ∃ c, submits s !! i = Some (c, SubmitReturned None);
  inv_exited : Exited ∈ workers s → closed s = true ∧ queue s = [];
  inv_phase : phase_ok s;
}.

Lemma workerPool_Inv_init : Inv init.
Proof.
  constructor; simpl; try done; [constructor| |set_solver].
  intros i. split; [set_solver|]. by intros [c ?].
Qed.

(** Changing a submitter that had not returned nil, to one that has not. *)
Lemma accepted_insert s i c c' r r' :
  (∀ j, j ∈ accepted s ↔ ∃ c, submits s !! j = Some (c, SubmitReturned None)) →
  (submits s !! i = None ∨ submits s !! i = Some (c', r')) →
  r ≠ SubmitReturned None → r' ≠ SubmitReturned None →
  ∀ j, j ∈ accepted s ↔ ∃ c0, <[i := (c, r)]> (submits s) !! j = Some (c0, SubmitReturned None).
Proof.
  intros H Hi Hr Hr' j. rewrite H. destruct (decide (i = j)) as [->|Hne].
  - rewrite lookup_insert_eq. split; intros [c0 Hc0]; naive_solver.
  - by rewrite lookup_insert_ne.
Qed.

(** Accepting a submitter's task adds exactly that task. *)
Lemma accepted_accept s i c :
  (∀ j, j ∈ accepted s ↔ ∃ c, submits s !! j = Some (c, SubmitReturned None)) →
  ∀ j, j ∈ accepted s ++ [i] ↔
    ∃ c0, <[i := (c, SubmitReturned None)]> (submits s) !! j = Some (c0, SubmitReturned None).
Proof.
  intros H j. rewrite elem_of_app, H, list_elem_of_singleton.
  destruct (decide (i = j)) as [->|Hne].
  - rewrite lookup_insert_eq. naive_solver.
  - rewrite lookup_insert_ne by done. naive_solver.
Qed.

Lemma not_accepted s i c r :
  (∀ j, j ∈ accepted s ↔ ∃ c, submits s !! j = Some (c, SubmitReturned None)) →
  submits s !! i = Some (c, r) → r ≠ SubmitReturned None → NoDup (accepted s) →
  NoDup (accepted s ++ [i]).
Proof.
  intros H Hi Hr Hnd. apply NoDup_app. split_and!; [done| |apply NoDup_singleton].
  intros j Hj ->%list_elem_of_singleton. apply H in Hj as [c' Hj]. naive_solver.
Qed.

(** A worker that was not past its loop changes to one that is not. *)
Lemma exited_insert (ws : list worker) w x y :
  ws !! w = Some x → y ≠ Exited → Exited ∈ <[w := y]> ws → Exited ∈ ws.
Proof.
  intros Hw Hy [k Hk]%list_elem_of_lookup. apply list_elem_of_lookup. exists k.
  destruct (decide (w = k)) as [->|Hne].
  - apply lookup_lt_Some in Hw. rewrite list_lookup_insert_eq in Hk by done. naive_solver.
  - by rewrite list_lookup_insert_ne in Hk.
Qed.

Lemma wg_done_lookup ws w x : wg_done ws = true → ws !! w = Some x → x = Exited.
Proof. rewrite wg_done_spec, Forall_lookup. eauto. Qed.

(** A worker changes state: the phase conditions survive, since none of them
    can hold of a pool with every worker gone. *)
Lemma phase_ok_worker s ws w x y q acc st fin subs :
  phase_ok s → ws = workers s → ws !! w = Some x → x ≠ Exited →
  phase_ok (mkState q (closed s) (<[w := y]> ws) (at_ s) subs (stops s) (σ s) acc st fin).
Proof.
  intros H -> Hw Hx. unfold phase_ok in *. simpl. rewrite length_insert.
  destruct (at_ s); try done.
  - destruct H as [H _]. by rewrite H in Hw.
  - destruct H as (H1 & H2 & H3). split_and!; [done..|]. intros Hd.
    by eapply wg_done_lookup in Hw; [|by apply H3].
Qed.

Lemma workerPool_start_step_inv l s s' : Inv s → start_step p ctx l s = Some s' → Inv s'.
Proof.
  intros [Hb Hf Ho Hn Ha He Hp] H. unfold start_step in H. unfold phase_ok in Hp.
  destruct l, (at_ s) eqn:Eat; try done; simplify_eq/=.
  - destruct (0 <? size p) eqn:E; to_prop; constructor; try done; unfold phase_ok; simpl;
      destruct Hp as [-> ->]; simpl; split_and!; lia || done.
  - constructor; simpl; try done.
    + rewrite Ho. unfold running. rewrite omap_app. simpl. by rewrite app_nil_r.
    + intros [Hw|Hw%list_elem_of_singleton]%elem_of_app; [auto|done].
    + unfold phase_ok. simpl. rewrite length_app. simpl.
      destruct (1 <? left) eqn:E; to_prop; destruct Hp as (? & ? & ?); split_and!; lia || done.
  - case_match; simplify_eq. constructor; simpl; try done; [naive_solver|].
    unfold phase_ok. simpl. naive_solver.
  - destruct (drainOnStop p && _) eqn:E; simplify_eq. constructor; try done.
    unfold phase_ok. simpl. destruct Hp as [? ?]. split_and!; [done..|].
    intros Hd. rewrite Hd in E. simpl in E. by to_prop.
Qed.

Lemma worker_step_inv l s s' : Inv s → worker_step p l s = Some s' → Inv s'.
Proof.
  intros [Hb Hf Ho Hn Ha He Hp] H. unfold worker_step in H. destruct l; try done.
  - destruct (workers s !! w) as [[]|] eqn:Ew; try done.
    destruct (queue s) as [|t q] eqn:Eq; simplify_eq/=.
    constructor; simpl; try done.
    + lia.
    + by rewrite <-Hf, <-app_assoc.
    + rewrite (running_insert _ _ Idle) by done. rewrite (running_split _ _ _ Ew) in Ho.
      rewrite Ho. simpl. by rewrite <-Permutation_cons_append.
    + intros Hx. apply (exited_insert _ _ Idle) in Hx; [|done..]. by apply He in Hx as [_ ?].
    + by apply (phase_ok_worker s (workers s) w Idle).
  - destruct (workers s !! w) as [[]|] eqn:Ew; try done.
    destruct (submits s !! i) as [[c []]|] eqn:Es; try done.
    destruct (_ && _) eqn:E; simplify_eq. to_prop. simplify_eq/=.
    constructor; simpl; try done.
    + rewrite <-Hf, H0, !app_nil_r. done.
    + rewrite (running_insert _ _ Idle) by done. rewrite (running_split _ _ _ Ew) in Ho.
      rewrite Ho. simpl. by rewrite <-Permutation_cons_append.
    + by eapply not_accepted.
    + by apply accepted_accept.
    + intros Hx. apply (exited_insert _ _ Idle) in Hx; [|done..]. apply He in Hx. naive_solver.
    + by apply (phase_ok_worker s (workers s) w Idle).
  - destruct (workers s !! w) as [[]|] eqn:Ew; simplify_eq/=.
    constructor; simpl; try done.
    + rewrite (running_insert _ _ (Running t)) by done. rewrite (running_split _ _ _ Ew) in Ho.
      rewrite Ho. simpl. by rewrite app_assoc, <-Permutation_cons_append.
    + intros Hx. apply (exited_insert _ _ (Running t)) in Hx; [by auto|done..].
    + by apply (phase_ok_worker s (workers s) w (Running t)).
  - destruct (workers s !! w) as [[]|] eqn:Ew; try done.
    destruct (_ && _) eqn:E; simplify_eq. to_prop. constructor; simpl; try done.
    + rewrite (running_insert _ _ Idle) by done. by rewrite (running_split _ _ _ Ew) in Ho.
    + by apply (phase_ok_worker s (workers s) w Idle).
Qed.

Lemma submit_step_inv l s s' : Inv s → submit_step p l s = Some s' → Inv s'.
Proof.
  intros [Hb Hf Ho Hn Ha He Hp] H. unfold submit_step in H. destruct l; try done;
    destruct (submits s !! i) as [[c' []]|] eqn:Es; try done.
  - simplify_eq. constructor; try done. by apply (accepted_insert s i c c _ Selecting); auto.
  - destruct (_ && _) eqn:E; simplify_eq. to_prop. constructor; simpl; try done.
    + rewrite length_app. simpl. lia.
    + by rewrite <-Hf, app_assoc.
    + by eapply not_accepted.
    + by apply accepted_accept.
    + intros [? _]%He. congruence.
  - case_match; simplify_eq. constructor; simpl; try done; [|naive_solver].
    by apply (accepted_insert s i c' c' _ Selecting); auto.
  - simplify_eq. constructor; try done. by apply (accepted_insert s i c' c' _ Recovering); auto.
  - apply bind_Some in H as (e & _ & H). simplify_eq. constructor; try done.
    by apply (accepted_insert s i c' c' _ Selecting); auto.
Qed.

Lemma workerPool_step_inv l s s' : Inv s → step p ctx l s = Some s' → Inv s'.
Proof.
  intros HI H. destruct l; unfold step in H;
    eauto using workerPool_start_step_inv, worker_step_inv, submit_step_inv.
  1-3: unfold stop_step in H; destruct HI; repeat (case_match; try done);
    try apply bind_Some in H as (? & _ & H); simplify_eq; by constructor.
  simplify_eq. by destruct HI.
Qed.

Lemma workerPool_reach_inv s : reach (step p ctx) init s → Inv s.
Proof.
  intros [ls H]. by eapply (exec_invariant _ Inv) in H; eauto using workerPool_step_inv, workerPool_Inv_init.
Qed.

End invariant.

(** ** Consequences *)

Lemma make_chan_nonneg n c : make_chan n = Some c → 0 ≤ c.
Proof. unfold make_chan. destruct (n <? 0) eqn:E; intros; simplify_eq. by to_prop. Qed.

Section consequences.
Context (p : Pool) (ctx : context).
Hypothesis cap_nonneg : 0 ≤ tasks_cap p.

Lemma running_length ws : (length (running ws) ≤ length ws)%nat.
Proof. induction ws as [|[]]; simpl; lia. Qed.

(** Once every launched worker has left its loop, nothing is left to run. *)
Lemma wg_done_all_finished s :
  0 < size p → Inv p s → wg_done (workers s) = true →
  match at_ s with Waiting | Closing | Returned => True | _ => False end →
  closed s = true ∧ queue s = [] ∧ running (workers s) = [] ∧ finished s ≡ₚ accepted s.
Proof.
  intros Hs HI Hw Hat.
  assert (Exited ∈ workers s) as [Hc Hq]%(inv_exited _ _ HI).
  { assert (∃ w, w ∈ workers s) as [w Hin].
    { destruct (workers s) as [|w ws] eqn:E; [|exists w; left].
      destruct HI as [_ _ _ _ _ _ Hp]. unfold phase_ok in Hp. rewrite E in Hp.
      destruct (at_ s); simpl in *; naive_solver lia. }
    assert (w = Exited) as <-; [|done].
    apply wg_done_spec in Hw. rewrite Forall_forall in Hw. by rewrite (Hw w). }
  split_and!; [done..|by apply running_wg_done|].
  destruct HI as [_ Hf Ho _ _ _ _]. rewrite running_wg_done in Ho by done.
  rewrite <-Hf, Hq, app_nil_r. by rewrite Ho.
Qed.

(** No worker yet, no task begun. *)
Lemma no_worker_no_task s : reach (step p ctx) init s → workers s = [] → started s = [].
Proof.
  intros [ls H]. eapply (exec_invariant _ (λ s, workers s = [] → started s = [])); [| |exact H]; [|done]. clear s H.
  intros l s s' IH H Hw. destruct l; unfold step, start_step, worker_step, submit_step, stop_step in H;
    repeat (case_match; try done); try apply bind_Some in H as (? & ? & H); simplify_eq/=; auto;
    try (by apply app_eq_nil in Hw as [_ ?]);
    match goal with E : workers s !! _ = Some _, Hn : <[_ := _]> (workers s) = [] |- _ =>
      apply (f_equal length) in Hn; rewrite length_insert in Hn; apply nil_length_inv in Hn; by rewrite Hn, lookup_nil in E end.
Qed.

(** Once the launched workers are done: everything ran, or none was launched yet. *)
Lemma wg_done_drained s :
  Inv p s → (workers s = [] → started s = []) → wg_done (workers s) = true →
  (queue s = [] ∧ running (workers s) = [] ∧ finished s ≡ₚ accepted s) ∨
  (workers s = [] ∧ started s = [] ∧ finished s = [] ∧
   (at_ s = NotStarted ∨ at_ s = Spawning (size p) ∨ size p ≤ 0)).
Proof.
  intros HI Hst Hw. pose proof HI as [_ Hf Ho _ _ He Hp]. destruct (workers s) as [|x ws] eqn:Ew.
  - right. specialize (Hst eq_refl). rewrite Hst in Ho. apply Permutation_nil_l in Ho. simpl in Ho.
    do 3 (split; [done|]). unfold phase_ok in Hp. rewrite Ew in Hp. simpl in Hp.
    destruct (at_ s) as [|n| | |]; [by left|right; left; f_equal; lia|right; right; lia..].
  - left. assert (x = Exited) as -> by by apply (wg_done_lookup _ 0 _ Hw).
    destruct He as [_ Hq]; [left|]. rewrite running_wg_done in * by done. split; [done|]. split; [done|].
    rewrite <-Hf, Hq, app_nil_r. by rewrite Ho.
Qed.

(** Nothing is accepted through a closed channel. *)
Lemma closed_step l s s' :
  closed s = true → step p ctx l s = Some s' →
  closed s' = true ∧ accepted s' = accepted s ∧
  (∀ i c, submits s' !! i = Some (c, SubmitReturned None) →
          submits s !! i = Some (c, SubmitReturned None)).
Proof.
  intros Hc H. destruct l; unfold step, start_step, worker_step, submit_step, stop_step in H;
    repeat (case_match; try done); try apply bind_Some in H as (? & ? & H); simplify_eq/=;
    to_prop; try congruence; split_and!; try done; intros i' c'' Hi;
    rewrite lookup_insert_Some in Hi; naive_solver.
Qed.

(** What any step keeps: the end of [ctx], the tasks begun, a returned [Start];
    and the channel is only closed once [ctx] has ended. *)
Lemma pool_monotone l q q' :
  step p ctx l q = Some q' →
  (ctx_err (σ q) ctx ≠ None → ctx_err (σ q') ctx ≠ None) ∧
  (∀ k, k ∈ started q → k ∈ started q') ∧
  (closed q' = true → closed q = true ∨ ctx_err (σ q) ctx ≠ None) ∧
  (at_ q = Returned → at_ q' = Returned).
Proof.
  intros H. destruct l; simpl in H; repeat (case_match; try done);
    try (apply bind_Some in H as (? & ? & H)); simplify_eq/=; to_prop; split_and!; try done; auto;
    try (intros k Hk; apply elem_of_app; by left).
  all: intros Hc; destruct (ctx_err (σ q) ctx) eqn:E; [|done];
    by rewrite (ctx_err_stable _ _ _ _ _ E).
Qed.

(** *** Draining after close *)

Definition worker_label (l : label) : Prop :=
  match l with LReceive _ | LTaskDone _ | LExit _ => True | _ => False end.

Definition weight (w : worker) : nat := match w with Idle => 1 | Running _ => 2 | Exited => 0 end.
Definition mu (s : state) : nat := 3 * length (queue s) + sum_list_with weight (workers s).

Lemma weight_insert ws w x y :
  ws !! w = Some x →
  (sum_list_with weight (<[w := y]> ws) + weight x = sum_list_with weight ws + weight y)%nat.
Proof.
  intros H. apply lookup_lt_Some in H as Hlt. rewrite insert_take_drop by done.
  rewrite <-(take_drop_middle ws w x H) at 3. rewrite !sum_list_with_app. simpl. lia.
Qed.

Lemma worker_step_mu l s s' :
  worker_label l → step p ctx l s = Some s' → (mu s' < mu s)%nat.
Proof.
  intros Hl H. unfold mu. destruct l; try done; unfold step, worker_step in H;
    repeat (case_match; try done); simplify_eq/=;
    match goal with E : workers _ !! _ = Some ?x |- context [<[_ := ?y]> _] =>
      pose proof (weight_insert _ _ _ y E) end; simpl in *; lia.
Qed.

(** In a closed pool some worker can move until all have left. *)
Lemma closed_worker_enabled s :
  closed s = true → wg_done (workers s) = false →
  ∃ l s', worker_label l ∧ step p ctx l s = Some s'.
Proof.
  intros Hc Hw.
  assert (∃ w x, workers s !! w = Some x ∧ x ≠ Exited) as (w & x & Hx & Hne).
  { assert (¬ Forall (.= Exited) (workers s)) as H by (rewrite <-wg_done_spec; congruence).
    apply not_Forall_Exists, Exists_exists in H as (x & Hin & Hx); [|intros ?; apply _].
    apply list_elem_of_lookup in Hin as [w Hin]. eauto. }
  destruct x as [|t|]; [|by eexists (LTaskDone w), _; simpl; rewrite Hx|done].
  destruct (queue s) as [|t q] eqn:Eq.
  - eexists (LExit w), _. simpl. by rewrite Hx, Hc, bool_decide_eq_true_2.
  - eexists (LReceive w), _. simpl. by rewrite Hx, Eq.
Qed.

Lemma closed_drains s :
  closed s = true →
  ∃ ls s', Forall worker_label ls ∧ exec (step p ctx) ls s = Some s' ∧ wg_done (workers s') = true.
Proof.
  remember (mu s) as n eqn:Hn. revert s Hn.
  induction (lt_wf n) as [n _ IH]. intros s -> Hc.
  destruct (wg_done (workers s)) eqn:Ew; [by exists [], s|].
  destruct (closed_worker_enabled s Hc Ew) as (l & s1 & Hl & H1).
  destruct (closed_step _ _ _ Hc H1) as [Hc1 _].
  destruct (IH _ (worker_step_mu _ _ _ Hl H1) s1 eq_refl Hc1) as (ls & s' & Hls & H & Hd).
  exists (l :: ls), s'. split_and!; [by constructor| |done]. simpl. by rewrite H1.
Qed.

Lemma closed_exec ls s s' :
  closed s = true → exec (step p ctx) ls s = Some s' →
  closed s' = true ∧ accepted s' = accepted s ∧
  (∀ i c, submits s' !! i = Some (c, SubmitReturned None) →
          submits s !! i = Some (c, SubmitReturned None)).
Proof.
  intros Hc. revert s Hc. induction ls as [|l ls IH]; intros s Hc H; simpl in H; [by simplify_eq|].
  apply bind_Some in H as (s1 & H1 & H2). apply closed_step in H1 as (Hc1 & <- & Hsub); [|done].
  destruct (IH s1 Hc1 H2) as (? & ? & ?). eauto.
Qed.

End consequences.

(** ** Properties *)

(** The options of the package. *)
Definition package_option (o : Option) : Prop := o = WithDrainOnStop ∨ ∃ n, o = WithQueueSize n.

(** Whatever the options, a pool that [New] builds has a channel of
    non-negative capacity, twice [size] by default. *)
Lemma New_cap n opts p :
  Forall package_option opts → New n opts = Some p → size p = n ∧ 0 ≤ tasks_cap p.
Proof.
  unfold New. intros Ho H. apply bind_Some in H as (c & Hc%make_chan_nonneg & H).
  assert (∀ q, Some (mkPool n c false) = Some q → size q = n ∧ 0 ≤ tasks_cap q) as H0
    by (intros; simplify_eq; done).
  revert H0 H. generalize (Some (mkPool n c false)). clear Hc.
  induction Ho as [|o opts Ho _ IH]; intros q H0 H; simpl in H; [by apply H0|].
  apply IH in H; [done|]. intros q' Hq'. apply bind_Some in Hq' as (q0 & -> & Hq').
  destruct (H0 q0 eq_refl) as [<- ?]. destruct Ho as [->|[m ->]].
  - unfold WithDrainOnStop in Hq'. by simplify_eq/=.
  - apply bind_Some in Hq' as (c' & ?%make_chan_nonneg & ?). by simplify_eq/=.
Qed.

(** C3: in every reachable state, the tasks for which [Submit] returned nil, and
    no others, are in the queue, running or finished, each exactly once: no
    accepted task is lost, duplicated, or run when [Submit] reported an error. *)
Theorem pool_exactly_once p ctx s :
  0 ≤ tasks_cap p → reach (step p ctx) init s →
  NoDup (queue s ++ running (workers s) ++ finished s) ∧
  ∀ i, i ∈ queue s ++ running (workers s) ++ finished s ↔
       ∃ c, submits s !! i = Some (c, SubmitReturned None).
Proof.
  intros Hp Hr. destruct (workerPool_reach_inv p ctx Hp s Hr) as [_ Hf Ho Hn Ha _ _].
  assert (accepted s ≡ₚ queue s ++ running (workers s) ++ finished s) as Hperm.
  { rewrite <-Hf, (Permutation_app_comm (queue s)). by rewrite Ho. }
  split; [by rewrite <-Hperm|]. intros i. by rewrite <-Hperm, Ha.
Qed.

(** C30: tasks are handed to workers in the order they were accepted; the queue
    never exceeds the channel's capacity and no more than [size] tasks run at
    the same time. *)
Theorem pool_fifo_and_bounded p ctx s :
  0 ≤ tasks_cap p → reach (step p ctx) init s →
  started s ++ queue s = accepted s ∧
  Z.of_nat (length (queue s)) ≤ tasks_cap p ∧
  Z.of_nat (length (running (workers s))) ≤ Z.max 0 (size p).
Proof.
  intros Hp Hr. destruct (workerPool_reach_inv p ctx Hp s Hr) as [Hb Hf _ _ _ _ Hph].
  split_and!; [done..|]. pose proof (running_length (workers s)).
  unfold phase_ok in Hph. destruct (at_ s); [destruct Hph as [-> _]; simpl|..]; lia.
Qed.

(** C21: draining.  With [WithDrainOnStop], when [Start] has returned, and whenever
    a [Stop] sees the workers done, every task ever accepted has finished and
    the queue is empty; unless no worker was launched so far, because [Start] was
    not called, has not begun its loop of [wg.Go], or has none to launch (a size
    of 0 or less): then no task was ever run. *)
Theorem pool_drain p ctx s :
  0 ≤ tasks_cap p → drainOnStop p = true → reach (step p ctx) init s →
  at_ s = Returned ∨ (∃ j s', step p ctx (LStopDone j) s = Some s') →
  (queue s = [] ∧ running (workers s) = [] ∧ finished s ≡ₚ accepted s) ∨
  (workers s = [] ∧ started s = [] ∧ finished s = [] ∧
   (at_ s = NotStarted ∨ at_ s = Spawning (size p) ∨ size p ≤ 0)).
Proof.
  intros Hp Hd Hr Hcase. pose proof (workerPool_reach_inv p ctx Hp s Hr) as HI.
  apply (wg_done_drained p s HI); [by apply (no_worker_no_task p ctx)|]. destruct Hcase as [Hat|(j & s' & H)].
  - destruct HI as [_ _ _ _ _ _ Hph]. unfold phase_ok in Hph. rewrite Hat in Hph. by apply Hph.
  - simpl in H. repeat (case_match; try done).
Qed.

(** The second case is reached: a [Stop] that comes before the workers are
    launched returns nil at once, with an accepted task in the queue. *)
Theorem early_stop_leaves_queue :
  let p := mkPool 1 1 true in
  ∃ s, exec (step p (WithCancel Background 1)) [LSubmit 0 Background; LSend 0; LStop 0 Background; LStopDone 0] init = Some s ∧
    stops s !! 0%nat = Some (Background, StopReturned None) ∧ queue s = [0%nat] ∧ finished s = [].
Proof. eexists. split_and!; vm_compute; reflexivity. Qed.

(** After [Start] closed the channel no [Submit] returns nil any more, in
    whatever order the goroutines run; a caller still in its [select] is not
    stuck, since the send on the closed channel is recovered and turned into an
    error. *)
Theorem pool_closed_rejects p ctx s ls s' :
  closed s = true → exec (step p ctx) ls s = Some s' →
  accepted s' = accepted s ∧
  (∀ i c, submits s' !! i = Some (c, SubmitReturned None) →
          submits s !! i = Some (c, SubmitReturned None)) ∧
  (∀ i c, submits s' !! i = Some (c, Selecting) →
     ∃ s1 s2 e, step p ctx (LSendClosed i) s' = Some s1 ∧ step p ctx (LRecover i) s1 = Some s2 ∧
       submits s2 !! i = Some (c, SubmitReturned (Some e))).
Proof.
  intros Hc H. destruct (closed_exec p ctx ls s s' Hc H) as (Hc' & Ha & Hsub).
  split_and!; [done..|]. intros i c Hi.
  simpl. rewrite Hi, Hc'. eexists _, _, _. split; [done|]. simpl.
  rewrite lookup_insert_eq. split; [done|]. simpl. by rewrite lookup_insert_eq.
Qed.

(** C31: once the channel is closed the workers terminate: a schedule of worker
    steps has at most [mu s] of them, and some such schedule takes the pool to
    where every worker has left and, if there was one, every accepted task has
    finished.  This holds without [WithDrainOnStop] as well. *)
Theorem pool_terminates p ctx s :
  0 ≤ tasks_cap p → reach (step p ctx) init s → closed s = true →
  (∀ ls s', Forall worker_label ls → exec (step p ctx) ls s = Some s' → (length ls ≤ mu s)%nat) ∧
  ∃ ls s', Forall worker_label ls ∧ exec (step p ctx) ls s = Some s' ∧
    wg_done (workers s') = true ∧
    (0 < size p → queue s' = [] ∧ finished s' ≡ₚ accepted s).
Proof.
  intros Hp Hr Hc. split.
  - intros ls s' Hls H.
    pose proof (exec_measure_bound (step p ctx) (λ _, True) worker_label mu ls s s') as Hm.
    pose proof (Hm (λ l s s' _ Hl Hst, conj I (worker_step_mu p ctx l s s' Hl Hst)) I Hls H). lia.
  - destruct (closed_drains p ctx s Hc) as (ls & s' & Hls & H & Hw). exists ls, s'.
    split_and!; [done..|]. intros Hs.
    assert (reach (step p ctx) init s') as Hr'.
    { destruct Hr as [ls0 H0]. exists (ls0 ++ ls). by rewrite exec_app, H0. }
    pose proof (workerPool_reach_inv p ctx Hp s' Hr') as HI.
    destruct (closed_exec p ctx ls s s' Hc H) as (Hc' & <- & _).
    destruct (wg_done_all_finished p s' Hs HI Hw) as (_ & Hq & _ & Hf); [|done].
    destruct HI as [_ _ _ _ _ _ Hph]. unfold phase_ok in Hph. rewrite Hc' in Hph.
    destruct (at_ s'); naive_solver.
Qed.

(** ** Concrete schedules *)

(** One worker, a queue of one, draining: two tasks are accepted, the context
    ends, and the pool runs both before [Start] returns. *)
Definition demo_pool (drain : bool) : Pool := mkPool 1 1 drain.
Definition demo_ctx : context := WithCancel Background 1.
Definition demo_accept : list label :=
  [LStart; LSpawn; LSubmit 0 Background; LSend 0; LReceive 0; LSubmit 1 Background; LSend 1;
   LCancel demo_ctx Canceled; LClose].
Definition demo_rest : list label := [LTaskDone 0; LReceive 0; LTaskDone 0; LExit 0].
Definition after (p : Pool) (ls : list label) : state :=
  default init (exec (step p demo_ctx) ls init).

Example New_demo : New 1 [WithQueueSize 1; WithDrainOnStop] = Some (demo_pool true).
Proof. reflexivity. Qed.

Lemma after_reach p ls :
  exec (step p demo_ctx) ls init = Some (after p ls) → reach (step p demo_ctx) init (after p ls).
Proof. by exists ls. Qed.

Lemma pool_exactly_once_witness :
  NoDup [1%nat; 0%nat] ∧ 0%nat ∈ [1%nat; 0%nat].
Proof.
  assert (reach (step (demo_pool true) demo_ctx) init (after (demo_pool true) demo_accept)) as Hr
    by (apply after_reach; vm_compute; done).
  destruct (pool_exactly_once (demo_pool true) demo_ctx _ ltac:(done) Hr) as [Hn Hi].
  split; [exact Hn|]. apply Hi. exists Background. vm_compute. done.
Defined.

Lemma pool_fifo_and_bounded_witness :
  started (after (demo_pool true) demo_accept) ++ [1%nat] = [0%nat; 1%nat].
Proof.
  assert (reach (step (demo_pool true) demo_ctx) init (after (demo_pool true) demo_accept)) as Hr
    by (apply after_reach; vm_compute; done).
  exact (proj1 (pool_fifo_and_bounded (demo_pool true) demo_ctx _ ltac:(done) Hr)).
Defined.

Lemma pool_drain_witness :
  finished (after (demo_pool true) (demo_accept ++ demo_rest ++ [LReturn])) ≡ₚ [0%nat; 1%nat].
Proof.
  assert (reach (step (demo_pool true) demo_ctx) init
    (after (demo_pool true) (demo_accept ++ demo_rest ++ [LReturn]))) as Hr
    by (apply after_reach; vm_compute; done).
  destruct (pool_drain (demo_pool true) demo_ctx _ ltac:(done) eq_refl Hr ltac:(by left)) as [(_ & _ & H)|[H _]];
    [exact H|]. vm_compute in H. discriminate H.
Defined.

Lemma pool_closed_rejects_witness :
  accepted (default init (exec (step (demo_pool true) demo_ctx) [LSubmit 2 Background; LSendClosed 2]
    (after (demo_pool true) demo_accept))) = [0%nat; 1%nat].
Proof.
  exact (proj1 (pool_closed_rejects (demo_pool true) demo_ctx (after (demo_pool true) demo_accept)
    [LSubmit 2 Background; LSendClosed 2] _ eq_refl ltac:(vm_compute; reflexivity))).
Defined.

Lemma pool_terminates_witness :
  (length demo_rest ≤ mu (after (demo_pool true) demo_accept))%nat.
Proof.
  assert (reach (step (demo_pool true) demo_ctx) init (after (demo_pool true) demo_accept)) as Hr
    by (apply after_reach; vm_compute; done).
  refine (proj1 (pool_terminates (demo_pool true) demo_ctx _ ltac:(done) Hr eq_refl) demo_rest
    (after (demo_pool true) (demo_accept ++ demo_rest)) _ _);
    [by repeat constructor|vm_compute; reflexivity].
Defined.

(** Without [WithDrainOnStop], [Start] can return with a task still in the
    queue, and that task is nevertheless run afterwards: closing the channel
    does not discard what it buffers. *)
Theorem buffered_tasks_outlive_start :
  ∃ s s', exec (step (demo_pool false) demo_ctx) (demo_accept ++ [LReturn]) init = Some s ∧
    at_ s = Returned ∧ queue s = [1%nat] ∧
    exec (step (demo_pool false) demo_ctx) demo_rest s = Some s' ∧
    finished s' = [0%nat; 1%nat].
Proof. eexists _, _. split_and!; vm_compute; reflexivity. Qed.
