(* ===== verification/Periodic.v ===== *)
(** * periodic: a callback on a fixed interval

    [Service] is what [New] builds.  [step] is the machine of [Start]: the
    optional immediate call, the ticker (a channel of capacity one that drops
    ticks nobody reads), the select loop of either mode and the goroutines it
    launches, each of which runs [fn], then clears [busy], then leaves the wait
    group.  For every schedule: no two calls of [fn] overlap in the default
    mode, a tick is skipped exactly when a call is in flight, and [Start]
    returns, with nil, only after every call has ended. *)
From S2P Require Import Prelude GoContext.

Record Service : Type := mkService {
  interval : Z;
  overlapping : bool;
  immediateStart : bool;
}.

Definition Option : Type := Service → Service.
Definition WithOverlapping : Option := λ s, mkService (interval s) true (immediateStart s).
Definition WithImmediateStart : Option := λ s, mkService (interval s) (overlapping s) true.

Definition New (d : Z) (opts : list Option) : Service :=
  foldl (λ s opt, opt s) (mkService d false false) opts.

(** A launched goroutine: running [fn]; past [fn], with its deferred
    [busy.Store(false)] done, and about to leave the wait group; gone. *)
Inductive job : Type := InFn | AfterFn | Gone.
#[export] Instance job_eq_dec : EqDecision job.
Proof. solve_decision. Defined.

(** Where [Start] is: before the call, in the immediate [fn], in its loop, waiting for
    the jobs in the deferred [wg.Wait], returned nil, or panicked in [NewTicker]. *)
Inductive phase : Type := NotStarted | Immediate | Loop | Draining | Returned | Panicked.
#[export] Instance phase_eq_dec : EqDecision phase.
Proof. solve_decision. Defined.

Record state : Type := mkState {
  at_ : phase;
  tick : bool;              (* ticker.C holds a tick *)
  busy : bool;
  jobs : list job;
  σ : cancels;
  (* history *)
  runs : nat;               (* calls of fn so far *)
  skips : nat;              (* ticks skipped *)
  seen : nat;               (* ticks read *)
}.

Definition init : state := mkState NotStarted false false [] [] 0 0 0.

Inductive label : Type :=
  | LStart                             (* Start is called *)
  | LImmediateDone                     (* the immediate fn returns *)
  | LTicker                            (* the ticker fires *)
  | LTick                              (* the select reads ticker.C *)
  | LDone                              (* the select sees ctx.Done *)
  | LFnDone (k : nat)                  (* job k: fn returns; busy is cleared *)
  | LJobDone (k : nat)                 (* job k leaves the wait group *)
  | LReturn                            (* wg.Wait is over *)
  | LCancel (c : context) (e : goerr).

Section service.
Context (svc : Service) (ctx : context).

(** [ticker := time.NewTicker(s.interval)], which panics on a non-positive
    interval, and entering the loop. *)
Definition new_ticker (s : state) : state :=
  mkState (if interval svc <=? 0 then Panicked else Loop) (tick s) (busy s) (jobs s) (σ s)
    (runs s) (skips s) (seen s).

(** The goroutine of [wg.Go]. *)
Definition launch (s : state) : state :=
  mkState (at_ s) false (busy s) (jobs s ++ [InFn]) (σ s) (S (runs s)) (skips s) (S (seen s)).

(** [case <-ticker.C] of [runNonOverlapping]: the compare-and-swap on [busy]. *)
Definition tick_non_overlapping (s : state) : state :=
  if busy s then mkState (at_ s) false true (jobs s) (σ s) (runs s) (S (skips s)) (S (seen s))
  else launch (mkState (at_ s) (tick s) true (jobs s) (σ s) (runs s) (skips s) (seen s)).

(** [case <-ticker.C] of [runOverlapping]. *)
Definition tick_overlapping (s : state) : state := launch s.

Definition all_gone (s : state) : bool := forallb (λ j, bool_decide (j = Gone)) (jobs s).

Definition step (l : label) (s : state) : option state :=
  match l with
  | LStart =>
      if bool_decide (at_ s = NotStarted) then
        Some (if immediateStart svc
              then mkState Immediate (tick s) (busy s) (jobs s) (σ s) (S (runs s)) (skips s) (seen s)
              else new_ticker s)
      else None
  | LImmediateDone =>
      if bool_decide (at_ s = Immediate) then Some (new_ticker s) else None
  | LTicker =>
      if bool_decide (at_ s = Loop) then
        Some (mkState (at_ s) true (busy s) (jobs s) (σ s) (runs s) (skips s) (seen s))
      else None
  | LTick =>
      if bool_decide (at_ s = Loop) && tick s then
        Some (if overlapping svc then tick_overlapping s else tick_non_overlapping s)
      else None
  | LDone =>
      if bool_decide (at_ s = Loop) && negb (bool_decide (ctx_err (σ s) ctx = None)) then
        Some (mkState Draining (tick s) (busy s) (jobs s) (σ s) (runs s) (skips s) (seen s))
      else None
  | LFnDone k =>
      match jobs s !! k with
      | Some InFn =>
          Some (mkState (at_ s) (tick s) (if overlapping svc then busy s else false)
                  (<[k := AfterFn]> (jobs s)) (σ s) (runs s) (skips s) (seen s))
      | _ => None
      end
  | LJobDone k =>
      match jobs s !! k with
      | Some AfterFn =>
          Some (mkState (at_ s) (tick s) (busy s) (<[k := Gone]> (jobs s)) (σ s)
                  (runs s) (skips s) (seen s))
      | _ => None
      end
  | LReturn =>
      if bool_decide (at_ s = Draining) && all_gone s then
        Some (mkState Returned (tick s) (busy s) (jobs s) (σ s) (runs s) (skips s) (seen s))
      else None
  | LCancel c e =>
      Some (mkState (at_ s) (tick s) (busy s) (jobs s) (fire c e (σ s)) (runs s) (skips s) (seen s))
  end.

End service.

(** ** Invariant *)

(** Calls of [fn] in progress: the jobs in [fn], and the immediate call. *)
Definition in_fn (js : list job) : nat := length (filter (.= InFn) js).
Definition in_flight (s : state) : nat :=
  in_fn (jobs s) + (if decide (at_ s = Immediate) then 1 else 0).

Lemma in_fn_app js1 js2 : in_fn (js1 ++ js2) = (in_fn js1 + in_fn js2)%nat.
Proof. unfold in_fn. by rewrite filter_app, length_app. Qed.

Lemma in_fn_insert js k x y :
  js !! k = Some x → (in_fn (<[k := y]> js) + in_fn [x] = in_fn js + in_fn [y])%nat.
Proof.
  intros H. apply lookup_lt_Some in H as Hlt. rewrite insert_take_drop by done.
  rewrite <-(take_drop_middle js k x H) at 3.
  rewrite (cons_middle y), (cons_middle x), !in_fn_app. lia.
Qed.

Lemma all_gone_in_fn s : all_gone s = true → in_fn (jobs s) = 0%nat.
Proof.
  unfold all_gone. rewrite forallb_forall. setoid_rewrite <-list_elem_of_In.
  setoid_rewrite bool_decide_eq_true. intros H. unfold in_fn.
  induction (jobs s) as [|j js IH]; [done|]. rewrite (H j) by left. apply IH.
  intros x Hx. apply H. by right.
Qed.

Section invariant.
Context (svc : Service) (ctx : context).

Definition immediate_runs : nat := if immediateStart svc then 1 else 0.

(** Ticks read were each run or skipped, and the immediate call adds one run. *)
Definition counted (s : state) : Prop := (runs s + skips s = seen s + immediate_runs)%nat.

Definition fresh (s : state) : Prop :=
  jobs s = [] ∧ busy s = false ∧ skips s = 0%nat ∧ seen s = 0%nat.

Definition phase_ok (s : state) : Prop :=
  match at_ s with
  | NotStarted => fresh s ∧ runs s = 0%nat
  | Immediate => fresh s ∧ runs s = 1%nat ∧ immediateStart svc = true
  | Panicked => fresh s ∧ interval svc ≤ 0
  | Loop => counted s ∧ 0 < interval svc
  | Draining => counted s ∧ is_Some (ctx_err (σ s) ctx)
  | Returned => counted s ∧ is_Some (ctx_err (σ s) ctx) ∧ all_gone s = true
  end.

Record Inv (s : state) : Prop := mkInv {
  inv_busy : overlapping svc = false → in_fn (jobs s) = (if busy s then 1 else 0)%nat;
  inv_skips : overlapping svc = true → skips s = 0%nat;
  inv_phase : phase_ok s;
}.

Lemma periodic_Inv_init : Inv init.
Proof. by constructor. Qed.

Lemma new_ticker_inv s :
  fresh s → runs s = immediate_runs → Inv (new_ticker svc s).
Proof.
  intros (Hj & Hb & Hk & Hn) Hr. constructor; simpl; rewrite ?Hj, ?Hb, ?Hk; [done..|].
  unfold phase_ok, fresh, counted. simpl. destruct (interval svc <=? 0) eqn:E; to_prop; [done|].
  split; lia.
Qed.

Lemma launch_inv ph b js sg r k n :
  Inv (mkState ph true b js sg r k n) → ph = Loop →
  (overlapping svc = false → b = false) →
  Inv (launch (mkState ph true (if overlapping svc then b else true) js sg r k n)).
Proof.
  intros [Hb Hk Hp] -> Hbb. constructor; simpl in *.
  - intros Ho. rewrite in_fn_app, Hb, Ho, Hbb by done. done.
  - done.
  - unfold phase_ok, counted in *. simpl in *. lia.
Qed.

Lemma tick_inv s s' : Inv s → step svc ctx LTick s = Some s' → Inv s'.
Proof.
  intros HI H. simpl in H. destruct (_ && _) eqn:E; simplify_eq. to_prop.
  destruct s as [ph t b js sg r k n]. simpl in *. subst.
  pose proof (launch_inv Loop b js sg r k n HI eq_refl) as Hl.
  unfold tick_overlapping, tick_non_overlapping. simpl.
  destruct (overlapping svc) eqn:Eo; [by apply Hl|].
  destruct b; [|by apply Hl].
  destruct HI as [Hb Hk Hp]. constructor; simpl in *; [done|congruence|].
  unfold phase_ok, counted in *. simpl in *. lia.
Qed.

Lemma all_gone_lookup s k x : all_gone s = true → jobs s !! k = Some x → x = Gone.
Proof.
  unfold all_gone. rewrite forallb_forall. setoid_rewrite <-list_elem_of_In.
  setoid_rewrite bool_decide_eq_true. intros Hg H. apply Hg. by apply list_elem_of_lookup_2 in H.
Qed.

(** Moving one job on keeps the phase conditions: no job moves where none is left. *)
Lemma phase_ok_job s k x y b :
  phase_ok s → jobs s !! k = Some x → x ≠ Gone →
  phase_ok (mkState (at_ s) (tick s) b (<[k := y]> (jobs s)) (σ s) (runs s) (skips s) (seen s)).
Proof.
  intros Hp Hk Hx. unfold phase_ok, fresh, counted in *. simpl.
  destruct (at_ s); try done.
  1, 2, 4: by destruct Hp as [(Hj & _) _]; rewrite Hj in Hk.
  destruct Hp as (_ & _ & Hg). by eapply all_gone_lookup in Hg.
Qed.

Lemma periodic_step_inv l s s' : Inv s → step svc ctx l s = Some s' → Inv s'.
Proof.
  intros HI H. pose proof HI as [Hb Hk Hp]. unfold phase_ok in Hp.
  destruct l; [| | |by eapply tick_inv|..]; simpl in H.
  - case_bool_decide as Hat; simplify_eq. rewrite Hat in Hp. destruct Hp as [Hf Hr].
    unfold immediate_runs in *. destruct (immediateStart svc) eqn:Ei.
    + constructor; simpl; [done..|]. unfold phase_ok, fresh in *. simpl. rewrite Hr. naive_solver.
    + apply new_ticker_inv; [done|]. unfold immediate_runs. by rewrite Ei.
  - case_bool_decide as Hat; simplify_eq. rewrite Hat in Hp. destruct Hp as (Hf & Hr & Hi).
    apply new_ticker_inv; [done|]. unfold immediate_runs. by rewrite Hi.
  - case_bool_decide as Hat; simplify_eq. rewrite Hat in Hp. constructor; simpl; [done..|].
    unfold phase_ok, counted in *. simpl. by rewrite Hat.
  - destruct (_ && _) eqn:E; simplify_eq. to_prop. rewrite H in Hp. constructor; simpl; [done..|].
    unfold phase_ok, counted in *. simpl. split; [apply Hp|]. by apply not_eq_None_Some.
  - destruct (jobs s !! k) as [[]|] eqn:Ej; simplify_eq. constructor; simpl; [|done|].
    + intros Ho. rewrite Ho. pose proof (in_fn_insert (jobs s) k InFn AfterFn Ej) as Hi.
      unfold in_fn at 2 4 in Hi. simpl in Hi. rewrite (Hb Ho) in Hi. destruct (busy s); lia.
    + by apply (phase_ok_job s k InFn).
  - destruct (jobs s !! k) as [[]|] eqn:Ej; simplify_eq. constructor; simpl; [|done|].
    + intros Ho. pose proof (in_fn_insert (jobs s) k AfterFn Gone Ej) as Hi.
      unfold in_fn at 2 4 in Hi. simpl in Hi. rewrite (Hb Ho) in Hi. lia.
    + by apply (phase_ok_job s k AfterFn).
  - destruct (_ && _) eqn:E; simplify_eq. to_prop. rewrite H in Hp. constructor; simpl; [done..|].
    unfold phase_ok, counted, all_gone in *. simpl. naive_solver.
  - simplify_eq. constructor; simpl; [done..|]. unfold phase_ok, fresh, counted, all_gone in *. simpl.
    destruct (at_ s); try done; destruct Hp as [? Hp];
      repeat match goal with H : is_Some _ ∧ _ |- _ => destruct H end;
      repeat match goal with H : is_Some (ctx_err _ _) |- _ =>
        destruct H as [e0 H]; apply (ctx_err_stable _ _ c _ e) in H end; eauto.
Qed.

Lemma periodic_reach_inv s : reach (step svc ctx) init s → Inv s.
Proof. intros [ls H]. eapply (exec_invariant _ Inv) in H; eauto using periodic_step_inv, periodic_Inv_init. Qed.

End invariant.

(** ** Properties *)

Lemma in_flight_spec svc ctx s :
  Inv svc ctx s → in_flight s = match at_ s with Immediate => 1%nat | _ => in_fn (jobs s) end.
Proof.
  intros [_ _ Hp]. unfold in_flight, phase_ok in *.
  destruct (at_ s); rewrite ?decide_False by done; try lia. destruct Hp as [(-> & _) _]. done.
Qed.

(** C22: unless [WithOverlapping] is set, at most one call of [fn] is in progress
    at any time, the immediate call included. *)
Theorem at_most_one_call svc ctx s :
  overlapping svc = false → reach (step svc ctx) init s → (in_flight s ≤ 1)%nat.
Proof.
  intros Ho Hr. pose proof (periodic_reach_inv svc ctx s Hr) as HI.
  rewrite (in_flight_spec _ _ _ HI). pose proof (inv_busy _ _ _ HI Ho).
  destruct (at_ s), (busy s); lia.
Qed.

(** What a tick does.  In the default mode it launches [fn] exactly when no
    call is in progress and is otherwise skipped; with [WithOverlapping] it
    always launches.  Every tick read so far was run or skipped, and the only
    other run is the immediate one. *)
Theorem tick_runs_or_skips svc ctx s s' :
  reach (step svc ctx) init s → step svc ctx LTick s = Some s' →
  (if overlapping svc || (in_flight s =? 0)%nat
   then runs s' = S (runs s) ∧ skips s' = skips s ∧ in_flight s' = S (in_flight s)
   else runs s' = runs s ∧ skips s' = S (skips s) ∧ in_flight s' = in_flight s) ∧
  (runs s' + skips s' = seen s' + immediate_runs svc)%nat.
Proof.
  intros Hr H. pose proof (periodic_reach_inv svc ctx s Hr) as HI.
  pose proof (periodic_step_inv svc ctx _ _ _ HI H) as HI'.
  rewrite (in_flight_spec _ _ _ HI), (in_flight_spec _ _ _ HI').
  pose proof (inv_busy _ _ _ HI) as Hb. pose proof (inv_phase _ _ _ HI') as Hp. clear HI HI' Hr.
  destruct s as [ph t b js sg r k n]. simpl in H, Hb.
  destruct (_ && _) eqn:E; simplify_eq. to_prop. simplify_eq/=.
  unfold tick_overlapping, tick_non_overlapping, phase_ok, counted in *. simpl in *.
  destruct (overlapping svc) eqn:Eo; simpl in *.
  - rewrite in_fn_app. split; [split_and!; try done; rewrite Nat.add_1_r; done|apply Hp].
  - specialize (Hb eq_refl). destruct b; rewrite Hb; simpl in *; (split; [|apply Hp]); [done|].
    rewrite in_fn_app, Hb. done.
Qed.

Lemma returned_exec svc ctx ls s s' :
  at_ s = Returned → all_gone s = true → exec (step svc ctx) ls s = Some s' →
  at_ s' = Returned ∧ all_gone s' = true ∧ runs s' = runs s.
Proof.
  revert s. induction ls as [|l ls IH]; intros s Hat Hg H; simpl in H; [by simplify_eq|].
  apply bind_Some in H as (s1 & H1 & H2).
  assert (at_ s1 = Returned ∧ all_gone s1 = true ∧ runs s1 = runs s) as (Hat1 & Hg1 & <-); [|eauto].
  destruct l; simpl in H1; rewrite ?Hat in H1; simpl in H1; simplify_eq/=; try done;
    destruct (jobs s !! k) as [j|] eqn:Ej; try done;
    by rewrite (all_gone_lookup s k j) in H1.
Qed.

(** [Start] returns only after its context ended and every call of [fn] it
    made has ended, and it makes no call afterwards. *)
Theorem start_returns_after_calls svc ctx s ls s' :
  reach (step svc ctx) init s → at_ s = Returned → exec (step svc ctx) ls s = Some s' →
  is_Some (ctx_err (σ s) ctx) ∧ in_flight s = 0%nat ∧ runs s' = runs s ∧ in_flight s' = 0%nat.
Proof.
  intros Hr Hat H. pose proof (periodic_reach_inv svc ctx s Hr) as HI.
  pose proof (inv_phase _ _ _ HI) as Hp. unfold phase_ok in Hp. rewrite Hat in Hp.
  destruct Hp as (_ & He & Hg). destruct (returned_exec svc ctx ls s s' Hat Hg H) as (Hat' & Hg' & Hruns).
  unfold in_flight. rewrite Hat, Hat', !all_gone_in_fn by done. done.
Qed.

(** *** The end of a cancelled loop *)

Definition job_left (j : job) : nat := match j with InFn => 2 | AfterFn => 1 | Gone => 0 end.
Definition jobs_left (s : state) : nat := sum_list_with job_left (jobs s).

Lemma jobs_left_insert js k x y :
  js !! k = Some x →
  (sum_list_with job_left (<[k := y]> js) + job_left x = sum_list_with job_left js + job_left y)%nat.
Proof.
  intros H. apply lookup_lt_Some in H as Hlt. rewrite insert_take_drop by done.
  rewrite <-(take_drop_middle js k x H) at 3. rewrite !sum_list_with_app. simpl. lia.
Qed.

Lemma draining_returns svc ctx s :
  at_ s = Draining →
  ∃ ls s', exec (step svc ctx) ls s = Some s' ∧ at_ s' = Returned ∧
    length ls = S (jobs_left s).
Proof.
  remember (jobs_left s) as n eqn:Hn. revert s Hn.
  induction n as [|n IH]; intros s Hn Hat.
  - exists [LReturn]. eexists. simpl. rewrite Hat, bool_decide_eq_true_2 by done.
    assert (all_gone s = true) as ->; [|done].
    unfold all_gone, jobs_left in *. induction (jobs s) as [|[] js IH]; simpl in *; try done. by apply IH.
  - assert (∃ k j, jobs s !! k = Some j ∧ j ≠ Gone) as (k & j & Hk & Hj).
    { unfold jobs_left in Hn. clear IH. induction (jobs s) as [|j js IH]; [done|].
      destruct j; [by exists 0%nat, InFn|by exists 0%nat, AfterFn|].
      destruct IH as (k & j & ? & ?); [done|]. by exists (S k), j. }
    assert (∃ l s1, step svc ctx l s = Some s1 ∧ at_ s1 = Draining ∧ jobs_left s1 = n)
      as (l & s1 & H1 & Hat1 & Hn1).
    { destruct j; [exists (LFnDone k)|exists (LJobDone k)|done]; simpl; rewrite Hk;
        eexists; split_and!; try done; unfold jobs_left in *; simpl;
        pose proof (jobs_left_insert _ _ _ AfterFn Hk); pose proof (jobs_left_insert _ _ _ Gone Hk);
        simpl in *; lia. }
    destruct (IH s1) as (ls & s' & H & Hat' & Hl); [done..|].
    exists (l :: ls), s'. simpl. rewrite H1, Hl. done.
Qed.

(** Once the context of a looping [Start] has ended and its calls of [fn]
    end, [Start] returns: within two steps per launched call, plus two. *)
Theorem cancelled_start_returns svc ctx s :
  at_ s = Loop → is_Some (ctx_err (σ s) ctx) →
  ∃ ls s', exec (step svc ctx) ls s = Some s' ∧ at_ s' = Returned ∧
    (length ls ≤ 2 * length (jobs s) + 2)%nat.
Proof.
  intros Hat [e He].
  destruct (draining_returns svc ctx
    (mkState Draining (tick s) (busy s) (jobs s) (σ s) (runs s) (skips s) (seen s)))
    as (ls & s' & H & Hat' & Hl); [done|].
  exists (LDone :: ls), s'. simpl. rewrite Hat, He. simpl. split_and!; [done..|].
  rewrite Hl. unfold jobs_left. simpl.
  assert (sum_list_with job_left (jobs s) ≤ 2 * length (jobs s))%nat; [|lia].
  clear. induction (jobs s) as [|[] js IH]; simpl; lia.
Qed.

(** ** Concrete schedules *)

Definition demo : Service := New 10 [WithImmediateStart].
Definition demo_ctx : context := WithCancel Background 1.
(** The immediate call, a tick that runs, a tick that is skipped. *)
Definition demo_ticks : list label :=
  [LStart; LImmediateDone; LTicker; LTick; LTicker].
Definition after (ls : list label) : state := default init (exec (step demo demo_ctx) ls init).

Lemma at_most_one_call_witness : (in_flight (after demo_ticks) ≤ 1)%nat.
Proof.
  apply (at_most_one_call demo demo_ctx); [reflexivity|].
  exists demo_ticks. vm_compute. reflexivity.
Defined.

Lemma tick_runs_or_skips_witness :
  runs (after (demo_ticks ++ [LTick])) = runs (after demo_ticks) ∧
  skips (after (demo_ticks ++ [LTick])) = 1%nat.
Proof.
  assert (reach (step demo demo_ctx) init (after demo_ticks)) as Hr
    by (exists demo_ticks; vm_compute; reflexivity).
  pose proof (proj1 (tick_runs_or_skips demo demo_ctx _ (after (demo_ticks ++ [LTick])) Hr
    ltac:(vm_compute; reflexivity))) as H.
  exact (conj (proj1 H) (proj1 (proj2 H))).
Defined.

Definition demo_end : list label :=
  demo_ticks ++ [LCancel demo_ctx Canceled; LDone; LFnDone 0; LJobDone 0; LReturn].

Lemma start_returns_after_calls_witness :
  runs (after demo_end) = 2%nat ∧ in_flight (after demo_end) = 0%nat.
Proof.
  assert (reach (step demo demo_ctx) init (after demo_end)) as Hr
    by (exists demo_end; vm_compute; reflexivity).
  pose proof (start_returns_after_calls demo demo_ctx _ [] (after demo_end) Hr eq_refl eq_refl) as H.
  split; [reflexivity|exact (proj1 (proj2 H))].
Defined.

Lemma cancelled_start_returns_witness :
  ∃ ls s', exec (step demo demo_ctx) ls (after (demo_ticks ++ [LCancel demo_ctx Canceled])) = Some s' ∧
    at_ s' = Returned ∧ (length ls ≤ 4)%nat.
Proof.
  apply (cancelled_start_returns demo demo_ctx (after (demo_ticks ++ [LCancel demo_ctx Canceled])));
    [reflexivity|eexists; vm_compute; reflexivity].
Defined.
