(* ===== verification/Entrypoint.v ===== *)
(** * core/entrypoint: the lifecycle manager

    [Entrypoint] is what [New] and [AddService] build; [step] is the machine of
    [Run]: its own goroutine (program counter [pc]), one goroutine per service
    [Start], one per [Stop], the signal channel, and the contexts.  A hook is
    called and returns in one step, with whatever the environment makes it
    return; a [Start] or [Stop] may return at any time.  [hist] records the
    hooks, the launches, and the calls of [Start] and [Stop] in order.  Theorems: the lifecycle
    order, the two aborts, what [Run] returns and why, that a failing service
    never blocks, what the stop phase's context is, and that [Run] returns even
    when services hang.  A launched goroutine makes its call of [Start] or
    [Stop] whenever it is scheduled, which is a step of its own. *)
From S2P Require Import Prelude GoContext.

Definition hookFn : Type := nat.                 (* a hook, by name *)
Record Service : Type := mkService {
  svc : nat;                                     (* a service, by name *)
  implements_Shutdown : bool;
}.

Definition defaultShutdownTimeout : Z := 60 * Second.
Definition SIGINT : nat := 2.
Definition SIGTERM : nat := 15.

Record Entrypoint : Type := mkEntrypoint {
  services : list Service;
  shutdownTimeout : Z;
  catchSignals : list nat;
  onPreStart : list hookFn;
  onPostStart : list hookFn;
  onPreStop : list hookFn;
  onPostStop : list hookFn;
}.

Definition Option : Type := Entrypoint → Entrypoint.

Definition WithServices (svcs : list Service) : Option := λ e,
  mkEntrypoint (services e ++ svcs) (shutdownTimeout e) (catchSignals e)
    (onPreStart e) (onPostStart e) (onPreStop e) (onPostStop e).
Definition WithShutdownTimeout (d : Z) : Option := λ e,
  if 0 <? d then
    mkEntrypoint (services e) d (catchSignals e)
      (onPreStart e) (onPostStart e) (onPreStop e) (onPostStop e)
  else e.
Definition WithCatchSignals (sigs : list nat) : Option := λ e,
  mkEntrypoint (services e) (shutdownTimeout e) sigs
    (onPreStart e) (onPostStart e) (onPreStop e) (onPostStop e).
Definition WithPreStart (fn : hookFn) : Option := λ e,
  mkEntrypoint (services e) (shutdownTimeout e) (catchSignals e)
    (onPreStart e ++ [fn]) (onPostStart e) (onPreStop e) (onPostStop e).
Definition WithPostStart (fn : hookFn) : Option := λ e,
  mkEntrypoint (services e) (shutdownTimeout e) (catchSignals e)
    (onPreStart e) (onPostStart e ++ [fn]) (onPreStop e) (onPostStop e).
Definition WithPreStop (fn : hookFn) : Option := λ e,
  mkEntrypoint (services e) (shutdownTimeout e) (catchSignals e)
    (onPreStart e) (onPostStart e) (onPreStop e ++ [fn]) (onPostStop e).
Definition WithPostStop (fn : hookFn) : Option := λ e,
  mkEntrypoint (services e) (shutdownTimeout e) (catchSignals e)
    (onPreStart e) (onPostStart e) (onPreStop e) (onPostStop e ++ [fn]).

Definition New (opts : list Option) : Entrypoint :=
  foldl (λ e opt, opt e)
    (mkEntrypoint [] defaultShutdownTimeout [SIGINT; SIGTERM] [] [] [] []) opts.

Definition AddService (e : Entrypoint) (svcs : list Service) : Entrypoint :=
  mkEntrypoint (services e ++ svcs) (shutdownTimeout e) (catchSignals e)
    (onPreStart e) (onPostStart e) (onPreStop e) (onPostStop e).

(** ** The goroutines of [Run] *)

Inductive pc : Type :=
  | Called                                       (* Run not yet begun *)
  | PreStart (todo : list hookFn)                (* runHooks(ctx, e.onPreStart) *)
  | Starting (todo : list Service)               (* the loop of wg.Go *)
  | PostStart (todo : list hookFn)
  | Select                                       (* the shutdown select *)
  | PreStop (cause : option goerr) (todo : list hookFn)
  | Stopping (cause : option goerr) (todo : list Service)
  | WaitStop (cause : option goerr)              (* the allDone select *)
  | PostStop (cause : option goerr) (todo : list hookFn)
  | Done (err : option goerr).                   (* Run returned *)

(** The goroutine around [svc.Start]: launched by [wg.Go] and not scheduled yet;
    inside the call; holding an error it will send on [svcErrs]; finished. *)
Inductive starter : Type := ToStart | InStart | Sending (e : goerr) | StartDone.
(** The goroutine around [stopper.Stop]. *)
Inductive stopper : Type := ToStop | InStop | StopDone.

Inductive stage : Type := StPreStart | StPostStart | StPreStop | StPostStop.
Inductive event : Type :=
  | EHook (st : stage) (h : hookFn) (err : option goerr)   (* and what it returned *)
  | EGoStart (s : Service)                                 (* [wg.Go] around its [Start] *)
  | EGoStop (s : Service)                                  (* [stopWg.Go] around its [Stop] *)
  | EStart (k : nat)                                       (* goroutine [k] calls [Start] *)
  | EStop (k : nat).                                       (* and [k] of the others [Stop] *)

#[export] Instance starter_eq_dec : EqDecision starter.
Proof. solve_decision. Defined.
#[export] Instance stopper_eq_dec : EqDecision stopper.
Proof. solve_decision. Defined.

Record state : Type := mkState {
  at_ : pc;
  σ : cancels;
  notified : bool;                               (* signal.Notify in force *)
  sigCh : option nat;                            (* channel of capacity 1 *)
  svcErrs : list goerr;                          (* channel of capacity |services| *)
  starters : list starter;
  stoppers : list stopper;
  (* history *)
  hist : list event;
  live_errors : list goerr;                      (* Start errors seen with svcCtx live *)
  shut : bool;                                   (* Shutdown was called *)
}.

Definition init (σ0 : cancels) : state := mkState Called σ0 false None [] [] [] [] [] false.

Definition goto (q : pc) (s : state) : state :=
  mkState q (σ s) (notified s) (sigCh s) (svcErrs s) (starters s) (stoppers s)
    (hist s) (live_errors s) (shut s).
Definition set_cancels (c : cancels) (s : state) : state :=
  mkState (at_ s) c (notified s) (sigCh s) (svcErrs s) (starters s) (stoppers s)
    (hist s) (live_errors s) (shut s).
Definition set_signals (n : bool) (g : option nat) (s : state) : state :=
  mkState (at_ s) (σ s) n g (svcErrs s) (starters s) (stoppers s)
    (hist s) (live_errors s) (shut s).
Definition set_errs (es : list goerr) (s : state) : state :=
  mkState (at_ s) (σ s) (notified s) (sigCh s) es (starters s) (stoppers s)
    (hist s) (live_errors s) (shut s).
Definition set_starters (l : list starter) (s : state) : state :=
  mkState (at_ s) (σ s) (notified s) (sigCh s) (svcErrs s) l (stoppers s)
    (hist s) (live_errors s) (shut s).
Definition set_stoppers (l : list stopper) (s : state) : state :=
  mkState (at_ s) (σ s) (notified s) (sigCh s) (svcErrs s) (starters s) l
    (hist s) (live_errors s) (shut s).
Definition record (ev : event) (s : state) : state :=
  mkState (at_ s) (σ s) (notified s) (sigCh s) (svcErrs s) (starters s) (stoppers s)
    (hist s ++ [ev]) (live_errors s) (shut s).
Definition note_error (e : goerr) (s : state) : state :=
  mkState (at_ s) (σ s) (notified s) (sigCh s) (svcErrs s) (starters s) (stoppers s)
    (hist s) (live_errors s ++ [e]) (shut s).
Definition note_shutdown (s : state) : state :=
  mkState (at_ s) (σ s) (notified s) (sigCh s) (svcErrs s) (starters s) (stoppers s)
    (hist s) (live_errors s) true.

Inductive label : Type :=
  | LRun                                   (* Run is called *)
  | LHook (err : option goerr)             (* the next hook of the stage runs *)
  | LNext                                  (* the stage or loop has nothing todo *)
  | LLaunch                                (* next wg.Go / stopWg.Go, or a skip *)
  | LSelectCtx | LSelectSignal | LSelectErr | LSelectShutdown
  | LAllDone | LTimeout                    (* the second select *)
  | LStartCalled (k : nat)                 (* the goroutine runs: svc.Start(svcCtx) *)
  | LStartReturns (k : nat) (err : option goerr)
  | LSendErr (k : nat)
  | LStopCalled (k : nat)                  (* stopper.Stop(stopCtx) *)
  | LStopReturns (k : nat)
  | LSignal (g : nat)                      (* the OS delivers a signal *)
  | LShutdown                              (* e.Shutdown() *)
  | LStopDeadline                          (* the timer of stopCtx *)
  | LCancel (c : context) (e : goerr).     (* the caller ends a context *)

Definition pre_start_error (e : goerr) : goerr := Wrap "pre-start" e.
Definition post_start_error (e : goerr) : goerr := Wrap "post-start" e.
(** [Signal.String], the names the platform (Linux) gives. *)
Definition signal_names : list string :=
  ["hangup"; "interrupt"; "quit"; "illegal instruction"; "trace/breakpoint trap"; "aborted"; "bus error";
   "floating point exception"; "killed"; "user defined signal 1"; "segmentation fault"; "user defined signal 2";
   "broken pipe"; "alarm clock"; "terminated"].
Definition signal_String (g : nat) : string :=
  match g with
  | O => "signal 0"
  | S n => match signal_names !! n with Some name => name | None => "signal " +:+ pretty g end
  end.
Definition signal_error (g : nat) : goerr := Text ("received signal: " +:+ signal_String g).

Section run.
Context (e : Entrypoint) (ctx : context) (svc_id stop_id shutdown_id : positive).

(** [svcCtx, svcCancel := context.WithCancel(ctx)] *)
Definition svcCtx : context := WithCancel ctx svc_id.
(** [context.WithTimeout(context.WithoutCancel(ctx), e.shutdownTimeout)] *)
Definition stopCtx : context := detached ctx stop_id (shutdownTimeout e).
(** [context.WithCancelCause(context.Background())], made by [New] *)
Definition shutdownCtx : context := WithCancel Background shutdown_id.

(** A shutdown cause won the select: [svcCancel()], then the PreStop hooks. *)
Definition begin_stop (cause : option goerr) (s : state) : state :=
  goto (PreStop cause (onPreStop e)) (set_cancels (fire svcCtx Canceled (σ s)) s).

(** Returning runs the deferred [signal.Stop]. *)
Definition return_ (err : option goerr) (s : state) : state :=
  goto (Done err) (set_signals false (sigCh s) s).

(** One step of [runHooks]: the hook [h] returns [err]; [next] continues with the
    hooks todo, [fail] is the caller's error branch. *)
Definition run_hook (st : stage) (h : hookFn) (err : option goerr)
    (next : pc) (fail : goerr → state → state) (s : state) : state :=
  let s := record (EHook st h err) s in
  match err with None => goto next s | Some er => fail er s end.

Definition all_done (s : state) : bool :=
  forallb (λ x, bool_decide (x = StartDone)) (starters s) &&
  forallb (λ x, bool_decide (x = StopDone)) (stoppers s).

(** The goroutine of [Run] itself. *)
Definition run_step (l : label) (s : state) : option state :=
  match l, at_ s with
  | LRun, Called =>
      Some (goto (PreStart (onPreStart e))
              (set_signals (negb (bool_decide (catchSignals e = []))) None s))
  | LHook err, PreStart (h :: todo) =>
      Some (run_hook StPreStart h err (PreStart todo) (λ er, return_ (Some (pre_start_error er))) s)
  | LNext, PreStart [] => Some (goto (Starting (services e)) s)
  | LLaunch, Starting (sv :: todo) =>
      Some (goto (Starting todo) (record (EGoStart sv) (set_starters (starters s ++ [ToStart]) s)))
  | LNext, Starting [] => Some (goto (PostStart (onPostStart e)) s)
  | LHook err, PostStart (h :: todo) =>
      Some (run_hook StPostStart h err (PostStart todo)
              (λ er s, return_ (Some (post_start_error er))
                         (set_cancels (fire svcCtx Canceled (σ s)) s)) s)
  | LNext, PostStart [] => Some (goto Select s)
  | LSelectCtx, Select => er ← ctx_err (σ s) ctx; Some (begin_stop (Some er) s)
  | LSelectSignal, Select =>
      g ← sigCh s; Some (begin_stop (Some (signal_error g)) (set_signals (notified s) None s))
  | LSelectErr, Select =>
      match svcErrs s with
      | er :: es => Some (begin_stop (Some er) (set_errs es s))
      | [] => None
      end
  | LSelectShutdown, Select =>
      if bool_decide (ctx_err (σ s) shutdownCtx = None) then None else Some (begin_stop None s)
  | LHook err, PreStop c (h :: todo) =>
      Some (run_hook StPreStop h err (PreStop c todo) (λ _, goto (PreStop c [])) s)
  | LNext, PreStop c [] => Some (goto (Stopping c (services e)) s)
  | LLaunch, Stopping c (sv :: todo) =>
      Some (goto (Stopping c todo)
              (if implements_Shutdown sv
               then record (EGoStop sv) (set_stoppers (stoppers s ++ [ToStop]) s) else s))
  | LNext, Stopping c [] => Some (goto (WaitStop c) s)
  | LAllDone, WaitStop c =>
      if all_done s then Some (goto (PostStop c (onPostStop e)) s) else None
  | LTimeout, WaitStop c =>
      if bool_decide (ctx_err (σ s) stopCtx = None) then None
      else Some (goto (PostStop c (onPostStop e)) s)
  | LHook err, PostStop c (h :: todo) =>
      Some (run_hook StPostStop h err (PostStop c todo) (λ _, goto (PostStop c [])) s)
  | LNext, PostStop c [] =>
      Some (return_ c (set_cancels (fire stopCtx Canceled (σ s)) s))
  | _, _ => None
  end.

(** The goroutines of the services. *)
Definition service_step (l : label) (s : state) : option state :=
  match l with
  | LStartCalled k =>
      match starters s !! k with
      | Some ToStart => Some (record (EStart k) (set_starters (<[k := InStart]> (starters s)) s))
      | _ => None
      end
  | LStopCalled k =>
      match stoppers s !! k with
      | Some ToStop => Some (record (EStop k) (set_stoppers (<[k := InStop]> (stoppers s)) s))
      | _ => None
      end
  | LStartReturns k err =>
      match starters s !! k with
      | Some InStart =>
          match err with
          | Some er =>
              if bool_decide (ctx_err (σ s) svcCtx = None)
              then Some (note_error er (set_starters (<[k := Sending er]> (starters s)) s))
              else Some (set_starters (<[k := StartDone]> (starters s)) s)
          | None => Some (set_starters (<[k := StartDone]> (starters s)) s)
          end
      | _ => None
      end
  | LSendErr k =>
      match starters s !! k with
      | Some (Sending er) =>
          if (length (svcErrs s) <? length (services e))%nat
          then Some (set_starters (<[k := StartDone]> (starters s)) (set_errs (svcErrs s ++ [er]) s))
          else None
      | _ => None
      end
  | LStopReturns k =>
      match stoppers s !! k with
      | Some InStop => Some (set_stoppers (<[k := StopDone]> (stoppers s)) s)
      | _ => None
      end
  | _ => None
  end.

Definition stopping (q : pc) : bool :=
  match q with PreStop _ _ | Stopping _ _ | WaitStop _ | PostStop _ _ => true | _ => false end.

(** What happens around [Run]: signals, [Shutdown], timers, other contexts. *)
Definition env_step (l : label) (s : state) : option state :=
  match l with
  | LSignal g =>
      if notified s && bool_decide (g ∈ catchSignals e) then
        Some (set_signals true (match sigCh s with None => Some g | Some g0 => Some g0 end) s)
      else None
  | LShutdown => Some (note_shutdown (set_cancels (fire shutdownCtx Canceled (σ s)) s))
  | LStopDeadline =>
      if stopping (at_ s) then Some (set_cancels (fire stopCtx DeadlineExceeded (σ s)) s) else None
  | LCancel c er =>
      if bool_decide (c ∈ [svcCtx; stopCtx; shutdownCtx]) then None
      else Some (set_cancels (fire c er (σ s)) s)
  | _ => None
  end.

Definition step (l : label) (s : state) : option state :=
  match l with
  | LStartCalled _ | LStartReturns _ _ | LSendErr _ | LStopCalled _ | LStopReturns _ => service_step l s
  | LSignal _ | LShutdown | LStopDeadline | LCancel _ _ => env_step l s
  | _ => run_step l s
  end.

(** ** What [Run]'s own goroutine does, phase by phase *)

(** The events of that goroutine; the others are the calls themselves. *)
Definition own_event (ev : event) : bool := match ev with EStart _ | EStop _ => false | _ => true end.
Definition own (h : list event) : list event := filter (λ ev, own_event ev = true) h.

Lemma own_app h1 h2 : own (h1 ++ h2) = own h1 ++ own h2.
Proof. apply filter_app. Qed.

Lemma own_snoc h ev : own (h ++ [ev]) = if own_event ev then own h ++ [ev] else own h.
Proof.
  rewrite own_app. unfold own at 2. destruct (own_event ev) eqn:E; [by rewrite filter_cons_True|].
  rewrite filter_cons_False, filter_nil, app_nil_r by (by rewrite E). done.
Qed.

(** Hooks that returned nil. *)
Definition passed (st : stage) (hs : list hookFn) : list event := (λ h, EHook st h None) <$> hs.

Definition pre_start_calls : list event := passed StPreStart (onPreStart e).
Definition start_launches (svcs : list Service) : list event := EGoStart <$> svcs.
Definition post_start_calls : list event := passed StPostStart (onPostStart e).
Definition stop_launches (svcs : list Service) : list event :=
  EGoStop <$> filter (λ sv, implements_Shutdown sv = true) svcs.

(** Everything up to the shutdown select. *)
Definition up_calls : list event :=
  pre_start_calls ++ start_launches (services e) ++ post_start_calls.

(** The hooks [all] ran in order up to one that failed with [er], and no
    further. *)
Definition failed_at (st : stage) (all : list hookFn) (er : goerr) (h : list event) : Prop :=
  ∃ d x todo, all = d ++ x :: todo ∧ h = passed st d ++ [EHook st x (Some er)].

(** A stage that ended: all its hooks ran, or it ended at a failing one. *)
Definition ran (st : stage) (all : list hookFn) (h : list event) : Prop :=
  h = passed st all ∨ ∃ er, failed_at st all er h.

(** A stop stage with [todo] left to run. *)
Definition during (st : stage) (all todo : list hookFn) (h : list event) : Prop :=
  (∃ d, all = d ++ todo ∧ h = passed st d) ∨ (todo = [] ∧ ∃ er, failed_at st all er h).

(** A complete life: up, the PreStop stage, every [Stop], the PostStop stage; a
    failing hook ends its stage and nothing else. *)
Definition full_life (h : list event) : Prop :=
  ∃ hs1 hs2, ran StPreStop (onPreStop e) hs1 ∧ ran StPostStop (onPostStop e) hs2 ∧
    h = up_calls ++ hs1 ++ stop_launches (services e) ++ hs2.

(** Why shutdown began: [Shutdown] was called, the caller's context ended, a
    caught signal came, or a [Start] returned that error while the services'
    context was live. *)
Definition caused (c : option goerr) (s : state) : Prop :=
  match c with
  | None => shut s = true
  | Some er =>
      ctx_err (σ s) ctx = Some er ∨ (∃ g, g ∈ catchSignals e ∧ er = signal_error g) ∨
      er ∈ live_errors s
  end.

Definition cause_of (q : pc) : option (option goerr) :=
  match q with
  | PreStop c _ | Stopping c _ | WaitStop c | PostStop c _ => Some c
  | _ => None
  end.

(** [C] is what is known of the cause a complete life returns. *)
Definition hist_ok (C : option goerr → Prop) (q : pc) (h : list event) (n_start n_stop : nat) : Prop :=
  match q with
  | Called => h = [] ∧ n_start = 0%nat ∧ n_stop = 0%nat
  | PreStart todo =>
      (∃ d, onPreStart e = d ++ todo ∧ h = passed StPreStart d) ∧ n_start = 0%nat ∧ n_stop = 0%nat
  | Starting todo =>
      (∃ d, services e = d ++ todo ∧ h = pre_start_calls ++ start_launches d ∧ n_start = length d) ∧
      n_stop = 0%nat
  | PostStart todo =>
      (∃ d, onPostStart e = d ++ todo ∧
            h = pre_start_calls ++ start_launches (services e) ++ passed StPostStart d) ∧
      n_start = length (services e) ∧ n_stop = 0%nat
  | Select => h = up_calls ∧ n_start = length (services e) ∧ n_stop = 0%nat
  | PreStop _ todo =>
      (∃ hs, during StPreStop (onPreStop e) todo hs ∧ h = up_calls ++ hs) ∧
      n_start = length (services e) ∧ n_stop = 0%nat
  | Stopping _ todo =>
      (∃ d hs, services e = d ++ todo ∧ ran StPreStop (onPreStop e) hs ∧
               h = up_calls ++ hs ++ stop_launches d ∧ n_stop = length (stop_launches d)) ∧
      n_start = length (services e)
  | WaitStop _ =>
      (∃ hs, ran StPreStop (onPreStop e) hs ∧ h = up_calls ++ hs ++ stop_launches (services e)) ∧
      n_start = length (services e) ∧ n_stop = length (stop_launches (services e))
  | PostStop _ todo =>
      (∃ hs1 hs2, ran StPreStop (onPreStop e) hs1 ∧ during StPostStop (onPostStop e) todo hs2 ∧
         h = up_calls ++ hs1 ++ stop_launches (services e) ++ hs2) ∧
      n_start = length (services e) ∧ n_stop = length (stop_launches (services e))
  | Done err =>
      (∃ er, err = Some (pre_start_error er) ∧ failed_at StPreStart (onPreStart e) er h ∧
         n_start = 0%nat ∧ n_stop = 0%nat) ∨
      (∃ er hs, err = Some (post_start_error er) ∧ failed_at StPostStart (onPostStart e) er hs ∧
         h = pre_start_calls ++ start_launches (services e) ++ hs ∧
         n_start = length (services e) ∧ n_stop = 0%nat) ∨
      C err ∧ full_life h ∧ n_start = length (services e) ∧ n_stop = length (stop_launches (services e))
  end.

Lemma passed_snoc st d x : passed st (d ++ [x]) = passed st d ++ [EHook st x None].
Proof. exact (fmap_app _ d [x]). Qed.

Lemma during_start st all : during st all all [].
Proof. left. by exists []. Qed.

Lemma during_end st all h : during st all [] h → ran st all h.
Proof. intros [(d & -> & ->)|[_ ?]]; [left; by rewrite app_nil_r|by right]. Qed.

Lemma during_hook st all x todo err h :
  during st all (x :: todo) h →
  during st all (match err with None => todo | Some _ => [] end) (h ++ [EHook st x err]).
Proof.
  intros [(d & -> & ->)|[? _]]; [|done]. destruct err as [er|].
  - right. split; [done|]. by exists er, d, x, todo.
  - left. exists (d ++ [x]). by rewrite passed_snoc, <-app_assoc.
Qed.

Lemma start_launches_app l1 l2 : start_launches (l1 ++ l2) = start_launches l1 ++ start_launches l2.
Proof. apply fmap_app. Qed.

Lemma stop_launches_app l1 l2 : stop_launches (l1 ++ l2) = stop_launches l1 ++ stop_launches l2.
Proof. unfold stop_launches. by rewrite filter_app, fmap_app. Qed.

(** The invariant of [hist] only reads these parts of the state. *)
Definition hist_inv (s : state) : Prop :=
  hist_ok (λ c, caused c s) (at_ s) (own (hist s)) (length (starters s)) (length (stoppers s)).

Lemma begin_stop_hist cause s : at_ s = Select → hist_inv s → hist_inv (begin_stop cause s).
Proof.
  unfold hist_inv. intros ->. simpl. intros (-> & Hn & Hm). split; [|done].
  exists []. split; [apply during_start|by rewrite app_nil_r].
Qed.

Lemma caused_mono c s s' :
  (∀ er, ctx_err (σ s) ctx = Some er → ctx_err (σ s') ctx = Some er) →
  (∀ er, er ∈ live_errors s → er ∈ live_errors s') → (shut s = true → shut s' = true) →
  caused c s → caused c s'.
Proof. intros Hc He Hs. destruct c; simpl; [|done]. intros [?|[?|?]]; eauto. Qed.

(** Solves the equations of a step and pushes [own] to the event it adds. *)
Ltac own_simpl := simplify_eq/=; rewrite ?own_snoc; cbn [own_event].

Lemma run_step_hist l s s' :
  hist_inv s → (∀ c, cause_of (at_ s) = Some c → caused c s) →
  run_step l s = Some s' → hist_inv s'.
Proof.
  intros Hh Hc H. unfold run_step in H.
  destruct (at_ s) as [|todo|todo|todo| |c todo|c todo|c|c todo|r] eqn:Eat;
    destruct l; try done; try (destruct todo as [|x todo]; try done);
    try (apply bind_Some in H as (? & ? & H); simplify_eq; by apply begin_stop_hist);
    unfold hist_inv in *; rewrite Eat in Hh; simpl in Hh, Hc.
  - own_simpl. destruct Hh as (-> & -> & ->). split; [|done]. by exists [].
  - destruct Hh as [(d & Hd & Hh) [Hn Hm]].
    destruct err as [er|]; own_simpl; rewrite Hh.
    + left. exists er. split; [done|]. split; [by exists d, x, todo|done].
    + split; [|done]. exists (d ++ [x]). by rewrite Hd, <-app_assoc, passed_snoc.
  - destruct Hh as [(d & Hd & Hh) [Hn Hm]]. own_simpl. split; [|done]. exists [].
    rewrite Hh, Hn, <-(app_nil_r d), <-Hd. unfold pre_start_calls. simpl. by rewrite app_nil_r.
  - destruct Hh as [(d & Hd & Hh & Hn) Hm]. rewrite app_nil_r in Hd. subst d. own_simpl.
    split; [|done]. exists []. by rewrite Hh, app_nil_r.
  - destruct Hh as [(d & Hd & Hh & Hn) Hm]. own_simpl. split; [|done]. exists (d ++ [x]).
    rewrite Hd, Hh, start_launches_app, <-!app_assoc, !length_app, Hn. done.
  - destruct Hh as [(d & Hd & Hh) [Hn Hm]]. destruct err as [er|]; own_simpl; rewrite Hh.
    + right. left. eexists er, _. split; [done|]. split; [by exists d, x, todo|]. by rewrite <-!app_assoc.
    + split; [|done]. exists (d ++ [x]). by rewrite Hd, <-!app_assoc, passed_snoc.
  - destruct Hh as [(d & Hd & Hh) [Hn Hm]]. own_simpl. rewrite app_nil_r in Hd.
    split_and!; [|done..]. rewrite Hh. unfold up_calls, post_start_calls. by rewrite Hd.
  - destruct (svcErrs s) as [|er es] eqn:Ee; simplify_eq.
    apply (begin_stop_hist (Some er) (set_errs es s)); [done|].
    unfold hist_inv. simpl. by rewrite Eat.
  - case_bool_decide; simplify_eq. apply begin_stop_hist; [done|].
    unfold hist_inv. simpl. by rewrite Eat.
  - destruct Hh as [(hs & Hd & Hh) [Hn Hm]]. apply (during_hook _ _ _ _ err) in Hd.
    destruct err; own_simpl; (split; [|done]); eexists; (split; [exact Hd|]); by rewrite Hh, <-app_assoc.
  - destruct Hh as [(hs & Hd%during_end & Hh) [Hn Hm]]. own_simpl. split; [|done].
    exists [], hs. split_and!; [done..|by rewrite app_nil_r|by rewrite Hm].
  - destruct Hh as [(d & hs & Hd & Hr & Hh & Hm) Hn]. own_simpl. rewrite app_nil_r in Hd. subst d.
    split_and!; [|done..]. by exists hs.
  - destruct Hh as [(d & hs & Hd & Hr & Hh & Hm) Hn]. own_simpl. split.
    2:{ by destruct (implements_Shutdown x). }
    exists (d ++ [x]), hs. rewrite stop_launches_app, <-app_assoc. split_and!; [done..| |].
    + unfold stop_launches at 2. destruct (implements_Shutdown x) eqn:Ei; simpl.
      * rewrite own_snoc, Hh, filter_cons_True by done. simpl. by rewrite <-!app_assoc.
      * rewrite filter_cons_False by (by rewrite Ei). simpl. by rewrite app_nil_r.
    + unfold stop_launches at 2. destruct (implements_Shutdown x) eqn:Ei; simpl.
      * rewrite filter_cons_True by done. by rewrite !length_app, Hm.
      * rewrite filter_cons_False by (by rewrite Ei). simpl. by rewrite app_nil_r.
  - destruct Hh as [(hs & Hr & Hh) [Hn Hm]]. case_match; own_simpl. split_and!; [|done..].
    exists hs, []. rewrite Hh, !app_nil_r. eauto using during_start.
  - destruct Hh as [(hs & Hr & Hh) [Hn Hm]]. case_bool_decide; own_simpl. split_and!; [|done..].
    exists hs, []. rewrite Hh, !app_nil_r. eauto using during_start.
  - destruct Hh as [(hs & hs2 & Hr & Hd & Hh) [Hn Hm]]. apply (during_hook _ _ _ _ err) in Hd.
    destruct err; own_simpl; (split; [|done]); eexists hs, _; (split; [done|]); (split; [exact Hd|]);
      by rewrite Hh, <-!app_assoc.
  - destruct Hh as [(hs & hs2 & Hr & Hd%during_end & Hh) [Hn Hm]]. own_simpl.
    right. right. split_and!; [|by exists hs, hs2|done..].
    eapply caused_mono; [..|by apply Hc]; [|done..]. intros. by apply ctx_err_stable.
Qed.

(** ** Invariant *)

#[local] Arguments ctx_err : simpl never.
#[local] Arguments fired : simpl never.

Hypothesis ids_distinct : svc_id ≠ shutdown_id.

Definition pending (x : starter) : nat := match x with StartDone => 0 | _ => 1 end.

Definition returned (q : pc) : bool := match q with Done _ => true | _ => false end.

Record Inv (s : state) : Prop := mkInv {
  inv_hist : hist_inv s;
  inv_chan : (length (svcErrs s) + sum_list_with pending (starters s) ≤ length (starters s))%nat;
  inv_many : (length (starters s) ≤ length (services e))%nat;
  inv_errs er : er ∈ svcErrs s ∨ Sending er ∈ starters s → er ∈ live_errors s;
  inv_sig g : sigCh s = Some g → g ∈ catchSignals e;
  inv_shut : is_Some (ctx_err (σ s) shutdownCtx) → shut s = true;
  inv_cause c : cause_of (at_ s) = Some c → caused c s;
  inv_svc c : cause_of (at_ s) = Some c → is_Some (ctx_err (σ s) svcCtx);
  inv_stop : returned (at_ s) = false →
    fired (σ s) stopCtx = None ∨
    (stopping (at_ s) = true ∧ fired (σ s) stopCtx = Some DeadlineExceeded);
}.

Definition fresh_contexts (σ0 : cancels) : Prop :=
  fired σ0 stopCtx = None ∧ fired σ0 shutdownCtx = None.

Lemma entrypoint_Inv_init σ0 : fresh_contexts σ0 → Inv (init σ0).
Proof.
  intros [H1 H2]. constructor; simpl; try done; try lia.
  - intros er [H|H]; by apply not_elem_of_nil in H.
  - unfold shutdownCtx, ctx_err in *. rewrite H2. by intros [? ?].
  - by left.
Qed.

Lemma fired_fire_other σ0 c c' er : c' ≠ c → fired (fire c' er σ0) c = fired σ0 c.
Proof. intros H. unfold fire. case_match; [|done]. rewrite fired_cons. by rewrite decide_False. Qed.

Lemma shutdown_fire_other σ0 c er :
  c ≠ shutdownCtx → ctx_err (fire c er σ0) shutdownCtx = ctx_err σ0 shutdownCtx.
Proof. intros H. apply ctx_err_fire_other. simpl. set_solver. Qed.

Lemma svcCtx_not_shutdown : svcCtx ≠ shutdownCtx.
Proof. unfold svcCtx, shutdownCtx. intros [=]. done. Qed.

Lemma svcCtx_not_stop : svcCtx ≠ stopCtx.
Proof. done. Qed.

(** Cancelling a context keeps everything the invariant says of the others. *)
Lemma fire_caused c s cc er : caused c s → caused c (set_cancels (fire cc er (σ s)) s).
Proof. apply caused_mono; simpl; auto. intros. by apply ctx_err_stable. Qed.

Lemma hist_ok_mono (C C' : option goerr → Prop) q h n m :
  (∀ c, C c → C' c) → hist_ok C q h n m → hist_ok C' q h n m.
Proof. intros HC. destruct q; simpl; try done. naive_solver. Qed.

(** A step that leaves program counter, history and goroutine counts alone keeps
    the history invariant, if causes stay causes. *)
Lemma hist_inv_frame s s' :
  at_ s' = at_ s → own (hist s') = own (hist s) → length (starters s') = length (starters s) →
  length (stoppers s') = length (stoppers s) → (∀ c, caused c s → caused c s') →
  hist_inv s → hist_inv s'.
Proof. unfold hist_inv. intros -> -> -> -> HC. by apply hist_ok_mono. Qed.

Lemma pending_insert l k x y :
  l !! k = Some x →
  (sum_list_with pending (<[k := y]> l) + pending x = sum_list_with pending l + pending y)%nat.
Proof.
  intros H. apply lookup_lt_Some in H as Hlt. rewrite insert_take_drop by done.
  rewrite <-(take_drop_middle l k x H) at 3. rewrite !sum_list_with_app. simpl. lia.
Qed.

Lemma sending_insert (l : list starter) k y er :
  Sending er ∈ <[k := y]> l → y = Sending er ∨ Sending er ∈ l.
Proof.
  intros [j Hj]%list_elem_of_lookup. apply list_lookup_insert_Some in Hj as [(_ & -> & _)|[_ Hj]].
  - by left.
  - right. by apply list_elem_of_lookup_2 in Hj.
Qed.

Lemma service_step_inv l s s' : Inv s → service_step l s = Some s' → Inv s'.
Proof.
  intros [Hh Hch Hm He Hs Hsh Hc Hv Hst] H. unfold service_step in H.
  destruct l as [ |err| | | | | | | | |k|k err|k|k|k|g| | |cc er]; try done.
  - destruct (starters s !! k) as [[]|] eqn:Ek; simplify_eq.
    pose proof (pending_insert _ _ _ InStart Ek). simpl in *.
    constructor; simpl; rewrite ?length_insert; try done; try lia.
    + eapply hist_inv_frame; [..|exact Hh]; simpl; by rewrite ?length_insert, ?own_snoc.
    + intros er' [?|[?|?]%sending_insert]; auto; done.
  - destruct (starters s !! k) as [[]|] eqn:Ek; try done.
    assert (Inv (set_starters (<[k := StartDone]> (starters s)) s)) as Hdone.
    { pose proof (pending_insert _ _ _ StartDone Ek). simpl in *.
      constructor; simpl; rewrite ?length_insert; try done; try lia.
      - eapply hist_inv_frame; [..|exact Hh]; simpl; by rewrite ?length_insert.
      - intros er' [?|[?|?]%sending_insert]; auto; done. }
    destruct err as [er|]; [|by simplify_eq].
    case_bool_decide; simplify_eq; [|done].
    pose proof (pending_insert _ _ _ (Sending er) Ek). simpl in *.
    assert (∀ c, caused c s → caused c (note_error er (set_starters (<[k:=Sending er]> (starters s)) s)))
      as Hmono by (intros c; apply caused_mono; simpl; auto; set_solver).
    constructor; simpl; rewrite ?length_insert; try done; try lia; [|..].
    + eapply hist_inv_frame; [..|exact Hh]; simpl; by rewrite ?length_insert.
    + intros er' [?|[?|?]%sending_insert]; apply elem_of_app; [auto|simplify_eq; right; left|auto].
    + auto.
  - destruct (starters s !! k) as [[| |er|]|] eqn:Ek; try done.
    case_match; simplify_eq. pose proof (pending_insert _ _ _ StartDone Ek). simpl in *.
    constructor; simpl; rewrite ?length_insert, ?length_app; simpl; try done; try lia.
    + eapply hist_inv_frame; [..|exact Hh]; simpl; by rewrite ?length_insert.
    + intros er' [[? | ->%list_elem_of_singleton]%elem_of_app | [? | ?]%sending_insert]; auto; [|done].
      apply He. right. by apply list_elem_of_lookup_2 in Ek.
  - destruct (stoppers s !! k) as [[]|] eqn:Ek; simplify_eq. constructor; try done.
    eapply hist_inv_frame; [..|exact Hh]; simpl; by rewrite ?length_insert, ?own_snoc.
  - destruct (stoppers s !! k) as [[]|] eqn:Ek; simplify_eq. constructor; try done.
    eapply hist_inv_frame; [..|exact Hh]; simpl; by rewrite ?length_insert.
Qed.

(** Cancelling [c], neither of [Run]'s own contexts but possibly [stopCtx] on
    its deadline, keeps the invariant. *)
Lemma fire_inv s c er :
  Inv s → c ≠ shutdownCtx →
  (c ≠ stopCtx ∨ (stopping (at_ s) = true ∧ er = DeadlineExceeded)) →
  Inv (set_cancels (fire c er (σ s)) s).
Proof.
  intros [Hh Hch Hm He Hs Hsh Hc Hv Hst] Hne Hstop. constructor; simpl; try done.
  - eapply hist_inv_frame; [..|exact Hh]; try done. intros c'. apply fire_caused.
  - by rewrite shutdown_fire_other.
  - intros c' Hc'. by apply fire_caused, Hc.
  - intros c' [e0 He0]%Hv. exists e0. by apply ctx_err_stable.
  - intros Hr. destruct (decide (c = stopCtx)) as [->|Hcs]; [|by rewrite fired_fire_other; auto].
    destruct Hstop as [ |[Hq ->]]; [done|]. simpl. rewrite Hq.
    unfold fire. case_match; [|destruct (Hst Hr) as [?|[_ ?]]; auto].
    right. by rewrite fired_cons, decide_True.
Qed.

Lemma env_step_inv l s s' : Inv s → env_step l s = Some s' → Inv s'.
Proof.
  intros HI H. unfold env_step in H.
  destruct l as [ |err| | | | | | | | |k|k err|k|k|k|g| | |cc er]; try done.
  - case_match eqn:E; simplify_eq. to_prop. destruct HI. constructor; try done.
    simpl. destruct (sigCh s); naive_solver.
  - simplify_eq. destruct HI as [Hh Hch Hm He Hs Hsh Hc Hv Hst].
    assert (∀ c, caused c s →
      caused c (note_shutdown (set_cancels (fire shutdownCtx Canceled (σ s)) s))) as Hmono.
    { intros c. apply caused_mono; simpl; auto. intros. by apply ctx_err_stable. }
    constructor; simpl; try done.
    + by eapply hist_inv_frame; [..|exact Hh].
    + auto.
    + intros c' [e0 He0]%Hv. exists e0. by apply ctx_err_stable.
    + intros Hr. rewrite fired_fire_other by done. auto.
  - case_match; simplify_eq. by apply fire_inv; [..|right].
  - case_bool_decide as Hin; simplify_eq. apply fire_inv; [done|set_solver|left; set_solver].
Qed.

Lemma begin_stop_inv cause s :
  Inv s → at_ s = Select → caused cause s → Inv (begin_stop cause s).
Proof.
  intros HI Hat Hcause. pose proof HI as [Hh Hch Hm He Hs Hsh Hc Hv Hst].
  constructor; simpl; try done.
  - by apply begin_stop_hist.
  - by rewrite shutdown_fire_other by apply svcCtx_not_shutdown.
  - intros c [= ->]. by apply (fire_caused c s svcCtx Canceled).
  - intros c _. by apply ctx_err_fire_descendant; [|left].
  - intros _. left. rewrite fired_fire_other by apply svcCtx_not_stop. rewrite Hat in Hst.
    by destruct Hst as [?|[? _]].
Qed.

(** A step of [Run] that moves the program counter within or towards the stop
    phase and touches no channel or goroutine. *)
Lemma move_inv s s' :
  Inv s → hist_inv s' → σ s' = σ s → svcErrs s' = svcErrs s → starters s' = starters s →
  live_errors s' = live_errors s → shut s' = shut s → (sigCh s' = sigCh s ∨ sigCh s' = None) →
  (∀ c, cause_of (at_ s') = Some c → cause_of (at_ s) = Some c) →
  (returned (at_ s') = false →
     returned (at_ s) = false ∧ (stopping (at_ s) = true → stopping (at_ s') = true)) →
  Inv s'.
Proof.
  intros [Hh Hch Hm He Hs Hsh Hc Hv Hst] Hh' E1 E2 E3 E4 E5 E6 Hcause Hret.
  assert (∀ c, caused c s → caused c s') as Hmono
    by (intros c; apply caused_mono; rewrite ?E1, ?E4, ?E5; done).
  constructor; rewrite ?E1, ?E2, ?E3, ?E4, ?E5; try done.
  - intros g. destruct E6 as [->| ->]; [apply Hs|done].
  - intros c H. by apply Hmono, Hc, Hcause.
  - intros c H. by eapply Hv, Hcause.
  - intros Hr. destruct (Hret Hr) as [Hr' Hq]. destruct (Hst Hr') as [?|[? ?]]; auto.
Qed.

Lemma launch_start_inv sv todo s :
  Inv s → at_ s = Starting (sv :: todo) →
  hist_inv (goto (Starting todo) (record (EGoStart sv) (set_starters (starters s ++ [ToStart]) s))) →
  Inv (goto (Starting todo) (record (EGoStart sv) (set_starters (starters s ++ [ToStart]) s))).
Proof.
  intros [Hh Hch Hm He Hs Hsh Hc Hv Hst] Hat Hh'.
  pose proof Hh as Hl. unfold hist_inv in Hl. rewrite Hat in Hl.
  destruct Hl as [(d & Hd & _ & Hn) _].
  constructor; simpl; try done.
  - rewrite length_app, sum_list_with_app. simpl. lia.
  - rewrite Hd, !length_app, Hn. simpl. lia.
  - intros er [?|[?|Hx%list_elem_of_singleton]%elem_of_app]; auto; done.
  - intros _. left. destruct Hst as [?|[H _]]; [by rewrite Hat|done|by rewrite Hat in H].
Qed.

(** Returning: the state is final, and only causes recorded in [hist] matter. *)
Lemma return_inv err s s0 :
  Inv s → hist_inv (return_ err s0) → svcErrs s0 = svcErrs s → starters s0 = starters s →
  live_errors s0 = live_errors s → shut s0 = shut s → sigCh s0 = sigCh s →
  ctx_err (σ s0) shutdownCtx = ctx_err (σ s) shutdownCtx → Inv (return_ err s0).
Proof.
  intros [Hh Hch Hm He Hs Hsh Hc Hv Hst] Hh' E1 E2 E3 E4 E5 E6.
  constructor; simpl; rewrite ?E1, ?E2, ?E3, ?E4, ?E5, ?E6; done.
Qed.

Lemma run_step_inv l s s' : Inv s → run_step l s = Some s' → Inv s'.
Proof.
  intros HI H. pose proof HI as [Hh Hch Hm He Hs Hsh Hc Hv Hst].
  pose proof (run_step_hist l s s' Hh Hc H) as Hh'.
  unfold run_step in H.
  destruct (at_ s) as [|todo|todo|todo| |c todo|c todo|c|c todo|r] eqn:Eat;
    destruct l; try done; try (destruct todo as [|x todo]; try done);
    try (simplify_eq; apply (move_inv s); try done; simpl; rewrite ?Eat; by auto).
  - destruct err as [er|]; simplify_eq/=; [by apply (return_inv _ s)|].
    apply (move_inv s); try done; simpl; rewrite ?Eat; by auto.
  - simplify_eq. by apply launch_start_inv.
  - destruct err as [er|]; simplify_eq/=.
    + apply (return_inv _ s); try done. simpl.
      by rewrite shutdown_fire_other by apply svcCtx_not_shutdown.
    + apply (move_inv s); try done; simpl; rewrite ?Eat; by auto.
  - apply bind_Some in H as (er & Her & H). simplify_eq. apply begin_stop_inv; [done..|by left].
  - apply bind_Some in H as (g & Hg & H). simplify_eq. apply begin_stop_inv; [|done|].
    + apply (move_inv s); try done; simpl; rewrite ?Eat; try by auto.
    + right. left. exists g. auto.
  - destruct (svcErrs s) as [|er es] eqn:Ee; simplify_eq. apply begin_stop_inv; [|done|].
    + constructor; simpl; rewrite ?Eat; try done.
      * simpl in Hch. lia.
      * intros er' [?|?]; apply He; [left; by right|by right].
    + right. right. apply He. left. left.
  - case_bool_decide as Hn; simplify_eq. apply begin_stop_inv; [done..|].
    apply Hsh. by apply not_eq_None_Some.
  - destruct err as [er|]; simplify_eq/=; apply (move_inv s); try done; simpl; rewrite ?Eat; by auto.
  - simplify_eq. destruct (implements_Shutdown x); apply (move_inv s); try done; simpl; rewrite ?Eat; by auto.
  - case_match; simplify_eq. apply (move_inv s); try done; simpl; rewrite ?Eat; by auto.
  - case_bool_decide; simplify_eq. apply (move_inv s); try done; simpl; rewrite ?Eat; by auto.
  - destruct err as [er|]; simplify_eq/=; apply (move_inv s); try done; simpl; rewrite ?Eat; by auto.
  - simplify_eq. apply (return_inv _ s); try done. simpl. by rewrite shutdown_fire_other.
Qed.

Lemma entrypoint_step_inv l s s' : Inv s → step l s = Some s' → Inv s'.
Proof.
  intros HI H. unfold step in H.
  destruct l; eauto using run_step_inv, service_step_inv, env_step_inv.
Qed.

Lemma entrypoint_reach_inv σ0 s : fresh_contexts σ0 → reach step (init σ0) s → Inv s.
Proof.
  intros H0 [ls H]. eapply (exec_invariant _ Inv) in H; eauto using entrypoint_step_inv, entrypoint_Inv_init.
Qed.

(** ** The calls the launched goroutines make

    A call is made once, by its goroutine, at any time after the launch. *)
Definition go_starts (h : list event) : nat :=
  length (filter (λ ev, match ev with EGoStart _ => true | _ => false end = true) h).
Definition go_stops (h : list event) : nat :=
  length (filter (λ ev, match ev with EGoStop _ => true | _ => false end = true) h).

Definition calls_follow (h : list event) : Prop :=
  (∀ h1 k h2, h = h1 ++ EStart k :: h2 → (k < go_starts h1)%nat ∧ EStart k ∉ h1) ∧
  (∀ h1 k h2, h = h1 ++ EStop k :: h2 → (k < go_stops h1)%nat ∧ EStop k ∉ h1).

Lemma calls_follow_snoc h ev :
  calls_follow h →
  match ev with
  | EStart k => (k < go_starts h)%nat ∧ EStart k ∉ h
  | EStop k => (k < go_stops h)%nat ∧ EStop k ∉ h
  | _ => True
  end → calls_follow (h ++ [ev]).
Proof.
  intros [H1 H2] Hev. split; intros h1 k h2 E; destruct h2 as [|x h2 _] using rev_ind;
    try (apply app_inj_tail in E as [-> ->]; exact Hev);
    rewrite app_comm_cons, app_assoc in E; apply app_inj_tail in E as [-> _]; [by eapply H1|by eapply H2].
Qed.

Record calls_ok (s : state) : Prop := mkCalls {
  c_follow : calls_follow (hist s);
  c_starts : go_starts (hist s) = length (starters s);
  c_stops : go_stops (hist s) = length (stoppers s);
  c_start k : EStart k ∈ hist s ↔ ∃ x, starters s !! k = Some x ∧ x ≠ ToStart;
  c_stop k : EStop k ∈ hist s ↔ ∃ x, stoppers s !! k = Some x ∧ x ≠ ToStop;
}.

Lemma calls_ok_init σ0 : calls_ok (init σ0).
Proof.
  constructor; simpl; try done; [split; by intros [] ? ?| |];
    (intros k; split; [by intros ?%not_elem_of_nil|by intros (x & ? & _)]).
Qed.

Lemma go_starts_snoc h ev :
  go_starts (h ++ [ev]) = (go_starts h + match ev with EGoStart _ => 1 | _ => 0 end)%nat.
Proof. unfold go_starts. rewrite filter_app, length_app. by destruct ev. Qed.
Lemma go_stops_snoc h ev :
  go_stops (h ++ [ev]) = (go_stops h + match ev with EGoStop _ => 1 | _ => 0 end)%nat.
Proof. unfold go_stops. rewrite filter_app, length_app. by destruct ev. Qed.

(** What changes a slot of [l] that is not waiting, to one that is not. *)
Lemma moved_insert {A} (a : A) (l : list A) k x y :
  l !! k = Some x → x ≠ a → y ≠ a →
  ∀ j, (∃ z, l !! j = Some z ∧ z ≠ a) ↔ ∃ z, <[k := y]> l !! j = Some z ∧ z ≠ a.
Proof.
  intros Hk Hx Hy j. apply lookup_lt_Some in Hk as Hlt. destruct (decide (k = j)) as [->|Hne].
  - rewrite list_lookup_insert_eq by done. naive_solver.
  - by rewrite list_lookup_insert_ne.
Qed.

(** What a slot that was waiting becomes. *)
Lemma woken_insert {A} (a : A) (l : list A) k y :
  l !! k = Some a → y ≠ a →
  ∀ j, (∃ z, <[k := y]> l !! j = Some z ∧ z ≠ a) ↔ j = k ∨ ∃ z, l !! j = Some z ∧ z ≠ a.
Proof.
  intros Hk Hy j. apply lookup_lt_Some in Hk as Hlt. destruct (decide (k = j)) as [->|Hne].
  - rewrite list_lookup_insert_eq by done. naive_solver.
  - rewrite list_lookup_insert_ne by done. naive_solver.
Qed.

Lemma waiting_snoc {A} (a : A) (l : list A) j :
  (∃ z, (l ++ [a]) !! j = Some z ∧ z ≠ a) ↔ ∃ z, l !! j = Some z ∧ z ≠ a.
Proof.
  split; intros (z & Hz & Hne).
  - apply lookup_app_Some in Hz as [Hz|[_ Hz]]; [by exists z|]. by apply list_lookup_singleton_Some in Hz as [_ <-].
  - exists z. by rewrite (lookup_app_l_Some _ _ _ _ Hz).
Qed.

(** An event that is neither a launch nor a call. *)
Lemma calls_ok_event s ev :
  match ev with EHook _ _ _ => True | _ => False end → calls_ok s → calls_ok (record ev s).
Proof.
  intros Hev [H1 H2 H3 H4 H5]. constructor; simpl.
  - apply calls_follow_snoc; [done|by destruct ev].
  - rewrite go_starts_snoc, H2. by destruct ev.
  - rewrite go_stops_snoc, H3. by destruct ev.
  - intros k. rewrite <-H4, elem_of_app, list_elem_of_singleton. destruct ev; naive_solver.
  - intros k. rewrite <-H5, elem_of_app, list_elem_of_singleton. destruct ev; naive_solver.
Qed.

Lemma calls_ok_same s s' :
  hist s' = hist s → starters s' = starters s → stoppers s' = stoppers s → calls_ok s → calls_ok s'.
Proof. intros E1 E2 E3 [H1 H2 H3 H4 H5]. by constructor; rewrite ?E1, ?E2, ?E3. Qed.

Lemma calls_ok_launch_start s sv :
  calls_ok s → calls_ok (record (EGoStart sv) (set_starters (starters s ++ [ToStart]) s)).
Proof.
  intros [H1 H2 H3 H4 H5]. constructor; simpl.
  - by apply calls_follow_snoc.
  - by rewrite go_starts_snoc, H2, length_app.
  - rewrite go_stops_snoc, H3. lia.
  - intros k. rewrite waiting_snoc, <-H4, elem_of_app, list_elem_of_singleton. naive_solver.
  - intros k. rewrite <-H5, elem_of_app, list_elem_of_singleton. naive_solver.
Qed.

Lemma calls_ok_launch_stop s sv :
  calls_ok s → calls_ok (record (EGoStop sv) (set_stoppers (stoppers s ++ [ToStop]) s)).
Proof.
  intros [H1 H2 H3 H4 H5]. constructor; simpl.
  - by apply calls_follow_snoc.
  - rewrite go_starts_snoc, H2. lia.
  - by rewrite go_stops_snoc, H3, length_app.
  - intros k. rewrite <-H4, elem_of_app, list_elem_of_singleton. naive_solver.
  - intros k. rewrite waiting_snoc, <-H5, elem_of_app, list_elem_of_singleton. naive_solver.
Qed.

Lemma calls_ok_run l s s' : calls_ok s → run_step l s = Some s' → calls_ok s'.
Proof.
  intros Hok H. unfold run_step in H.
  destruct (at_ s) as [|todo|todo|todo| |c todo|c todo|c|c todo|r], l; try done;
    try (destruct todo as [|x todo]; try done); try (destruct err as [er|]);
    try (apply bind_Some in H as (? & ? & H)); repeat (case_match; try done); simplify_eq/=;
    try (by eapply calls_ok_same; [..|exact Hok]);
    try match goal with |- context [record (EHook ?st ?h ?er) s] =>
      by apply (calls_ok_same (record (EHook st h er) s)); [..|by apply calls_ok_event]
    end.
  - by eapply calls_ok_same; [..|by apply (calls_ok_launch_start s x)].
  - by eapply calls_ok_same; [..|by apply (calls_ok_launch_stop s x)].
Qed.

Lemma calls_ok_service l s s' : calls_ok s → service_step l s = Some s' → calls_ok s'.
Proof.
  intros Hok H. pose proof Hok as [H1 H2 H3 H4 H5]. unfold service_step in H.
  destruct l as [ |err| | | | | | | | |k|k err|k|k|k|g| | |cc er]; try done.
  - destruct (starters s !! k) as [[]|] eqn:Ek; simplify_eq. constructor; simpl.
    + apply calls_follow_snoc; [done|]. rewrite H2. split; [by eapply lookup_lt_Some|].
      rewrite H4. intros (x & Hx & Hne). by simplify_eq.
    + rewrite go_starts_snoc, H2, length_insert. lia.
    + rewrite go_stops_snoc, H3. lia.
    + intros j. rewrite woken_insert, <-H4, elem_of_app, list_elem_of_singleton by done. naive_solver.
    + intros j. rewrite <-H5, elem_of_app, list_elem_of_singleton. naive_solver.
  - assert (∀ x y, starters s !! k = Some x → x ≠ ToStart → y ≠ ToStart → ∀ es ls,
      calls_ok (mkState (at_ s) (σ s) (notified s) (sigCh s) es (<[k := y]> (starters s)) (stoppers s) (hist s) ls (shut s)))
      as Hmove.
    { intros x y Hx Hnx Hny es ls. constructor; simpl; rewrite ?length_insert; try done. intros j.
      by rewrite <-moved_insert. }
    step_inv H; eapply Hmove; done.
  - assert (∀ x, starters s !! k = Some x → x ≠ ToStart → ∀ es,
      calls_ok (set_starters (<[k := StartDone]> (starters s)) (set_errs es s))) as Hmove.
    { intros x Hx Hnx es. constructor; simpl; rewrite ?length_insert; try done. intros j.
      by rewrite <-moved_insert. }
    step_inv H; eapply Hmove; done.
  - destruct (stoppers s !! k) as [[]|] eqn:Ek; simplify_eq. constructor; simpl.
    + apply calls_follow_snoc; [done|]. rewrite H3. split; [by eapply lookup_lt_Some|].
      rewrite H5. intros (x & Hx & Hne). by simplify_eq.
    + rewrite go_starts_snoc, H2. lia.
    + rewrite go_stops_snoc, H3, length_insert. lia.
    + intros j. rewrite <-H4, elem_of_app, list_elem_of_singleton. naive_solver.
    + intros j. rewrite woken_insert, <-H5, elem_of_app, list_elem_of_singleton by done. naive_solver.
  - destruct (stoppers s !! k) as [[]|] eqn:Ek; simplify_eq. constructor; simpl; rewrite ?length_insert; try done.
    intros j. by rewrite <-moved_insert.
Qed.

Lemma calls_ok_reach σ0 s : reach step (init σ0) s → calls_ok s.
Proof.
  intros [ls H]. eapply (exec_invariant _ calls_ok); [|apply calls_ok_init|exact H]. clear s H.
  intros l s s' Hok H. unfold step in H. destruct l; eauto using calls_ok_run, calls_ok_service.
  all: simpl in H; step_inv H; by eapply calls_ok_same; [..|exact Hok].
Qed.

Lemma all_done_called s :
  calls_ok s → all_done s = true →
  (∀ k, (k < length (starters s))%nat → EStart k ∈ hist s) ∧ (∀ k, (k < length (stoppers s))%nat → EStop k ∈ hist s).
Proof.
  intros Hok Hd. unfold all_done in Hd. apply andb_true_iff in Hd as [H1 H2]. rewrite forallb_forall in H1, H2.
  setoid_rewrite <-list_elem_of_In in H1. setoid_rewrite <-list_elem_of_In in H2. split; intros k [x Hx]%lookup_lt_is_Some.
  - apply (c_start _ Hok). exists x. split; [done|]. by apply list_elem_of_lookup_2, H1, bool_decide_eq_true in Hx as ->.
  - apply (c_stop _ Hok). exists x. split; [done|]. by apply list_elem_of_lookup_2, H2, bool_decide_eq_true in Hx as ->.
Qed.

(** ** Properties *)

(** C12: the lifecycle.  When [Run] returns, exactly one of three things
    happened: a PreStart hook failed, its wrapped error is returned and no
    [Start] was ever called; a PostStart hook failed, its wrapped error is returned
    and neither a [Stop] nor a stop hook was ever called; or the whole life took
    place, in which [Run]'s own goroutine went through the documented order (every
    PreStart hook, a goroutine launched for every [Start], every PostStart hook,
    the PreStop hooks up to the first failing one, a goroutine launched for every
    [Stop] there is, the PostStop hooks up to the first failing one; all
    of a stage when none fails) and what is returned is the cause of the shutdown:
    nil after [Shutdown], or [ctx.Err()], a caught signal, or an error a [Start]
    returned before the services were cancelled.  The launched goroutines are
    concurrent with all of it: each makes its call at most once and at any time
    after its launch, and when both wait groups are done all of them have. *)
Theorem run_lifecycle σ0 s err :
  fresh_contexts σ0 → reach step (init σ0) s → at_ s = Done err →
  calls_follow (hist s) ∧
  ((∃ er, err = Some (pre_start_error er) ∧ failed_at StPreStart (onPreStart e) er (own (hist s)) ∧
      ∀ k, EStart k ∉ hist s ∧ EStop k ∉ hist s) ∨
   (∃ er hs, err = Some (post_start_error er) ∧ failed_at StPostStart (onPostStart e) er hs ∧
      own (hist s) = pre_start_calls ++ start_launches (services e) ++ hs ∧ ∀ k, EStop k ∉ hist s) ∨
   (caused err s ∧ full_life (own (hist s)) ∧
      (all_done s = true →
         (∀ k, (k < length (services e))%nat → EStart k ∈ hist s) ∧
         ∀ k, (k < length (stop_launches (services e)))%nat → EStop k ∈ hist s))).
Proof.
  intros H0 Hr Hat. pose proof (inv_hist _ (entrypoint_reach_inv _ _ H0 Hr)) as Hh.
  pose proof (calls_ok_reach _ _ Hr) as Hok. split; [apply (c_follow _ Hok)|].
  unfold hist_inv in Hh. rewrite Hat in Hh. simpl in Hh.
  assert (length (starters s) = 0%nat → ∀ k, EStart k ∉ hist s) as Hstart.
  { intros E k. rewrite (c_start _ Hok). intros (x & Hx & _). apply lookup_lt_Some in Hx. lia. }
  assert (length (stoppers s) = 0%nat → ∀ k, EStop k ∉ hist s) as Hstop.
  { intros E k. rewrite (c_stop _ Hok). intros (x & Hx & _). apply lookup_lt_Some in Hx. lia. }
  destruct Hh as [(er & -> & Hf & ? & ?)|[(er & hs & -> & Hf & Eh & _ & ?)|(Hc & Hl & En & Em)]].
  - left. exists er. split; [done|]. split; [done|]. auto.
  - right. left. exists er, hs. auto.
  - right. right. split; [done|]. split; [done|]. rewrite <-En, <-Em. by apply all_done_called.
Qed.

(** The goroutine of a failed service never blocks: whenever it holds an
    error for [svcErrs] the channel has room, so sending it is enabled, in
    every reachable state, even after [Run] stopped listening. *)
Theorem service_error_never_blocks σ0 s k er :
  fresh_contexts σ0 → reach step (init σ0) s → starters s !! k = Some (Sending er) →
  is_Some (step (LSendErr k) s).
Proof.
  intros H0 Hr Hk. pose proof (entrypoint_reach_inv _ _ H0 Hr) as HI. simpl. rewrite Hk.
  pose proof (inv_chan _ HI). pose proof (inv_many _ HI).
  pose proof (pending_insert _ _ _ StartDone Hk). simpl in *.
  rewrite (proj2 (Nat.ltb_lt _ _)) by lia. eauto.
Qed.

(** The contexts of the stop phase.  From the first PreStop hook until
    [Run] returns, the context of every [Start] is cancelled, while the one
    given to the hooks and to every [Stop] is alive or past its own deadline and
    nothing else: the end of the caller's context, which may be what began
    the shutdown, does not reach it.  It answers [Value] as the caller's. *)
Theorem stop_phase_contexts σ0 s c :
  fresh_contexts σ0 → reach step (init σ0) s → cause_of (at_ s) = Some c →
  is_Some (ctx_err (σ s) svcCtx) ∧
  (ctx_err (σ s) stopCtx = None ∨ ctx_err (σ s) stopCtx = Some DeadlineExceeded) ∧
  ∀ key, ctx_value stopCtx key = ctx_value ctx key.
Proof.
  intros H0 Hr Hc. pose proof (entrypoint_reach_inv _ _ H0 Hr) as HI.
  split_and!; [by eapply inv_svc| |done]. unfold stopCtx. rewrite detached_err.
  destruct (inv_stop _ HI) as [?|[_ ?]]; [by destruct (at_ s)|auto..].
Qed.

(** Steps left to [Run] in its stop phase. *)
Definition run_steps_left (q : pc) : nat :=
  match q with
  | PreStop _ todo => length todo + length (services e) + length (onPostStop e) + 4
  | Stopping _ todo => length todo + length (onPostStop e) + 3
  | WaitStop _ => length (onPostStop e) + 2
  | PostStop _ todo => length todo + 1
  | _ => 0
  end.

Definition is_run_label (l : label) : bool :=
  match l with
  | LStartCalled _ | LStartReturns _ _ | LSendErr _ | LStopCalled _ | LStopReturns _
  | LSignal _ | LShutdown | LStopDeadline | LCancel _ _ => false
  | _ => true
  end.

Definition stop_expired (s : state) : Prop := is_Some (ctx_err (σ s) stopCtx).
Definition ending (q : pc) : bool := stopping q || returned q.

Lemma other_step_pc l s s' : step l s = Some s' → is_run_label l = false → at_ s' = at_ s.
Proof. intros H Hl. destruct l; try done; simpl in H; by step_inv H. Qed.

Lemma step_cancels_mono l s s' c er :
  step l s = Some s' → ctx_err (σ s) c = Some er → ctx_err (σ s') c = Some er.
Proof.
  intros H Hc.
  destruct l as [ |err| | | | | | | | |k|k err|k|k|k|g| | |cc er']; simpl in H;
    try (destruct (at_ s) as [|[|]|[|]|[|]| |? [|]|? [|]| |? [|]|]; try done); step_inv H; eauto with go;
    try (destruct err; simpl in *; by eauto with go); by case_match.
Qed.

Lemma run_step_left l s s' :
  stopping (at_ s) = true → run_step l s = Some s' →
  ending (at_ s') = true ∧ (run_steps_left (at_ s') < run_steps_left (at_ s))%nat.
Proof.
  intros Hq H. unfold run_step in H. destruct (at_ s) as [| | | | |? [|]|? [|]| |? [|]|]; try done;
    destruct l as [ |err| | | | | | | | | | | | | | | | | ]; try done;
    try (destruct err); step_inv H; split; try done; lia.
Qed.

Lemma run_step_progress s :
  stopping (at_ s) = true → stop_expired s → ∃ l, is_run_label l = true ∧ is_Some (step l s).
Proof.
  unfold stop_expired. intros Hq Hd.
  destruct (at_ s) as [| | | | |c [|h t]|c [|h t]|c|c [|h t]|] eqn:E; try done;
    [exists LNext|exists (LHook None)|exists LNext|exists LLaunch|exists LTimeout
    |exists LNext|exists (LHook None)]; (split; [done|]); simpl; rewrite E; eauto.
  rewrite bool_decide_eq_false_2; [eauto|].
  intros Hn. rewrite Hn in Hd. by destruct Hd.
Qed.

(** C32: [Run] returns even if services hang.  Once it is in its stop phase and
    [shutdownTimeout] has passed, then along every further schedule, in
    particular one where no [Start] or [Stop] ever returns, [Run]'s goroutine
    can always make a step until it has returned, and it makes no more than
    [run_steps_left] of them. *)
Theorem run_returns_after_deadline s ls s' :
  stopping (at_ s) = true → stop_expired s → exec step ls s = Some s' →
  (returned (at_ s') = true ∨ ∃ l, is_run_label l = true ∧ is_Some (step l s')) ∧
  (length (filter (λ l, is_run_label l = true) ls) ≤ run_steps_left (at_ s))%nat.
Proof.
  intros Hq Hd H.
  cut (ending (at_ s') = true ∧ stop_expired s' ∧
    length (filter (λ l, is_run_label l = true) ls) + run_steps_left (at_ s') ≤ run_steps_left (at_ s))%nat.
  { intros (Hq' & Hd' & Hn). split; [|lia]. unfold ending in Hq'.
    destruct (stopping (at_ s')) eqn:E; [right; by apply run_step_progress|by left]. }
  assert (ending (at_ s) = true) as Hq0 by (unfold ending; by rewrite Hq). clear Hq.
  revert s Hq0 Hd H. induction ls as [|l ls IH]; intros s Hq Hd H; simpl in H.
  { simplify_eq. by split_and!. }
  apply bind_Some in H as (s1 & H1 & H2).
  assert (stop_expired s1) as Hd1.
  { destruct Hd as [er Her]. exists er. by eapply step_cancels_mono. }
  destruct (is_run_label l) eqn:El.
  - rewrite filter_cons_True by done. simpl.
    assert (run_step l s = Some s1) as Hrun by by destruct l.
    destruct (stopping (at_ s)) eqn:Es.
    + destruct (run_step_left _ _ _ Es Hrun) as [Hq1 ?].
      destruct (IH _ Hq1 Hd1 H2) as (? & ? & ?). split_and!; [done..|lia].
    + exfalso. unfold ending in Hq. rewrite Es in Hq. simpl in Hq.
      unfold run_step in Hrun. by destruct l, (at_ s).
  - rewrite filter_cons_False by (by rewrite El).
    pose proof (other_step_pc _ _ _ H1 El) as Hat. rewrite <-Hat in Hq |- *. by apply IH.
Qed.

End run.

(** ** Witnesses: two services, the second one without a [Stop]; the first
    fails, shutdown follows. *)
Definition ex_entrypoint : Entrypoint :=
  New [WithServices [mkService 1 true; mkService 2 false]; WithPreStart 10%nat; WithPostStop 20%nat;
       WithShutdownTimeout (-5)].
Definition ex_error : goerr := Text "listen: address in use".
Definition ex_up : list label :=
  [LRun; LHook None; LNext; LLaunch; LLaunch; LNext; LStartCalled 1; LNext].
Definition ex_failed : list label := ex_up ++ [LStartCalled 0; LStartReturns 0 (Some ex_error)].
Definition ex_stopping : list label :=
  ex_failed ++ [LSendErr 0; LSelectErr; LNext; LLaunch; LLaunch; LNext].
Definition ex_done : list label := ex_stopping ++ [LStopDeadline; LTimeout; LHook None; LNext].

Definition ex_step := step ex_entrypoint Background 1 2 3.
Definition ex_state (ls : list label) : state := default (init []) (exec ex_step ls (init [])).

Definition ex_clean : list label :=
  ex_stopping ++ [LStopCalled 0; LStartReturns 1 None; LStopReturns 0; LAllDone; LHook None; LNext].

Lemma run_lifecycle_witness :
  at_ (ex_state ex_clean) = Done (Some ex_error) ∧
  hist (ex_state ex_clean) =
    [EHook StPreStart 10%nat None; EGoStart (mkService 1 true); EGoStart (mkService 2 false); EStart 1; EStart 0;
     EGoStop (mkService 1 true); EStop 0; EHook StPostStop 20%nat None] ∧
  ((1 < go_starts [EHook StPreStart 10%nat None; EGoStart (mkService 1 true); EGoStart (mkService 2 false)])%nat ∧
   EStart 1 ∉ [EHook StPreStart 10%nat None; EGoStart (mkService 1 true); EGoStart (mkService 2 false)]).
Proof.
  assert (hist (ex_state ex_clean) =
    [EHook StPreStart 10%nat None; EGoStart (mkService 1 true); EGoStart (mkService 2 false); EStart 1; EStart 0;
     EGoStop (mkService 1 true); EStop 0; EHook StPostStop 20%nat None]) as Eh by (vm_compute; reflexivity).
  split; [vm_compute; reflexivity|]. split; [exact Eh|].
  destruct (run_lifecycle ex_entrypoint Background 1 2 3 ltac:(done) [] (ex_state ex_clean) (Some ex_error))
    as [[Hf _] _].
  - by split.
  - exists ex_clean. vm_compute. reflexivity.
  - vm_compute. reflexivity.
  - by apply (Hf _ 1%nat [EStart 0; EGoStop (mkService 1 true); EStop 0; EHook StPostStop 20%nat None]).
Defined.

Lemma service_error_never_blocks_witness :
  is_Some (ex_step (LSendErr 0) (ex_state ex_failed)).
Proof.
  apply (service_error_never_blocks ex_entrypoint Background 1 2 3 ltac:(done) [] _ 0 ex_error).
  - by split.
  - exists ex_failed. vm_compute. reflexivity.
  - vm_compute. reflexivity.
Defined.

Lemma stop_phase_contexts_witness :
  is_Some (ctx_err (σ (ex_state ex_stopping)) (svcCtx Background 1)) ∧
  (ctx_err (σ (ex_state ex_stopping)) (stopCtx ex_entrypoint Background 2) = None ∨
   ctx_err (σ (ex_state ex_stopping)) (stopCtx ex_entrypoint Background 2) = Some DeadlineExceeded) ∧
  ∀ key, ctx_value (stopCtx ex_entrypoint Background 2) key = ctx_value Background key.
Proof.
  apply (stop_phase_contexts ex_entrypoint Background 1 2 3 ltac:(done) [] _ (Some ex_error)).
  - by split.
  - exists ex_stopping. vm_compute. reflexivity.
  - vm_compute. reflexivity.
Defined.

Lemma run_returns_after_deadline_witness :
  let s := ex_state (ex_stopping ++ [LStopDeadline]) in
  let s' := ex_state ex_done in
  (returned (at_ s') = true ∨ ∃ l, is_run_label l = true ∧ is_Some (ex_step l s')) ∧
  (length (filter (λ l, is_run_label l = true) [LTimeout; LHook None; LNext]) ≤
     run_steps_left ex_entrypoint (at_ s))%nat.
Proof.
  apply (run_returns_after_deadline ex_entrypoint Background 1 2 3 ltac:(done)).
  - vm_compute. reflexivity.
  - exists DeadlineExceeded. vm_compute. reflexivity.
  - vm_compute. reflexivity.
Defined.
