(* ===== verification/Prom.v ===== *)
(** * internal/prom: metric registration

    [RegisterOrReuse] over a registry the code does not own: [Register] is a
    parameter over an arbitrary world, and [registry] states what the Prometheus
    registry documents of it.  The theorem: components that register the
    same metric share one collector. *)
From S2P Require Import Prelude.

Inductive kind : Type := CounterVec | HistogramVec | GaugeVec.

#[export] Instance kind_eq_dec : EqDecision kind.
Proof. solve_decision. Defined.

(** A collector: the type it is cast to, the metric it describes, and which
    object it is. *)
Record collector : Type := mkCollector {
  ckind : kind;
  cname : string;
  clabels : list string;
  object : nat;
}.

#[export] Instance collector_eq_dec : EqDecision collector.
Proof. solve_decision. Defined.

(** What [Registerer.Register] answers when it does not return nil. *)
Inductive reg_error : Type :=
  | AlreadyRegistered (ExistingCollector : collector)
  | OtherError (e : goerr).

Definition cast_error : goerr := Text "interface conversion".

Section register.
Context {W : Type} (Register : collector → io W (option reg_error)).

Definition RegisterOrReuse (c : collector) : io W (outcome collector) :=
  err ← Register c;
  match err with
  | None => mret (Ret c)
  | Some (AlreadyRegistered ex) =>
      mret (if decide (ckind ex = ckind c) then Ret ex else Panics cast_error)
  | Some (OtherError e) => mret (Panics e)
  end.

(** [registered w name] is the collector the registry holds for a metric name.
    A registry keeps one collector per name: a second one with the same
    labels is refused with the first, with other labels with another error. *)
Class registry (registered : W → string → option collector) : Prop := {
  register_new w c : registered w (cname c) = None →
    ∃ w', Register c w = (None, w') ∧ registered w' (cname c) = Some c ∧
      ∀ n, n ≠ cname c → registered w' n = registered w n;
  register_again w c ex : registered w (cname c) = Some ex → clabels ex = clabels c →
    Register c w = (Some (AlreadyRegistered ex), w);
  register_clash w c ex : registered w (cname c) = Some ex → clabels ex ≠ clabels c →
    ∃ e, Register c w = (Some (OtherError e), w);
}.

Context {registered : W → string → option collector} {Hreg : registry registered}.

Lemma register_or_reuse_new w c :
  registered w (cname c) = None →
  ∃ w', RegisterOrReuse c w = (Ret c, w') ∧ registered w' (cname c) = Some c ∧
    ∀ n, n ≠ cname c → registered w' n = registered w n.
Proof.
  intros (w' & H & Hw)%register_new. exists w'. split; [|done].
  unfold RegisterOrReuse, mbind, io_bind. by rewrite H.
Qed.

Lemma register_or_reuse_again w c ex :
  registered w (cname c) = Some ex → ckind ex = ckind c → clabels ex = clabels c →
  RegisterOrReuse c w = (Ret ex, w).
Proof.
  intros H Hk Hl. unfold RegisterOrReuse, mbind, io_bind.
  rewrite (register_again _ _ _ H Hl). by rewrite decide_True.
Qed.

(** Two collectors of one metric. *)
Definition same_metric (c c' : collector) : Prop :=
  cname c' = cname c ∧ clabels c' = clabels c ∧ ckind c' = ckind c.

(** The collectors of a component, registered one after the other as its
    [initMetrics] does. *)
Fixpoint register_all (cs : list collector) : io W (outcome (list collector)) :=
  match cs with
  | [] => mret (Ret [])
  | c :: cs =>
      r ← RegisterOrReuse c;
      match r with
      | Panics v => mret (Panics v)
      | Ret c =>
          rs ← register_all cs;
          mret (match rs with Ret cs => Ret (c :: cs) | Panics v => Panics v end)
      end
  end.

(** Registering changes only what [Register] changes. *)
Lemma register_all_keeps {A} (f : W → A) cs w :
  (∀ c w, f (Register c w).2 = f w) → f (register_all cs w).2 = f w.
Proof.
  intros Hk. revert w. induction cs as [|c cs IH]; intros w; [done|]. simpl.
  unfold RegisterOrReuse, mbind, io_bind. pose proof (Hk c w) as H.
  destruct (Register c w) as [[[ex|e]|] w1]; simpl in *; [|done|].
  - case_decide; simpl; [|done]. specialize (IH w1). destruct (register_all cs w1) as [[] w2];
      simpl in *; congruence.
  - specialize (IH w1). destruct (register_all cs w1) as [[] w2]; simpl in *; congruence.
Qed.

(** The registry holds these collectors. *)
Definition holds (w : W) (cs : list collector) : Prop :=
  Forall (λ c, registered w (cname c) = Some c) cs.

Lemma register_all_new w cs :
  NoDup (cname <$> cs) → Forall (λ c, registered w (cname c) = None) cs →
  ∃ w', register_all cs w = (Ret cs, w') ∧ holds w' cs ∧
    ∀ n, n ∉ (cname <$> cs) → registered w' n = registered w n.
Proof.
  revert w. induction cs as [|c cs IH]; intros w Hnd Hnew.
  { exists w. split_and!; [done|constructor|done]. }
  apply NoDup_cons in Hnd as [Hc Hnd]. apply Forall_cons_1 in Hnew as [H1 Hnew].
  destruct (register_or_reuse_new w c H1) as (w1 & Hr & Hw1 & Hother).
  destruct (IH w1 Hnd) as (w' & Hrs & Hh & Ho).
  { apply Forall_forall. intros c' Hc'. rewrite Hother.
    - by eapply Forall_forall in Hnew.
    - intros Heq. apply Hc. rewrite <-Heq. by apply list_elem_of_fmap_2. }
  exists w'. split_and!.
  - simpl. unfold mbind, io_bind. rewrite Hr. by rewrite Hrs.
  - constructor; [|done]. by rewrite Ho.
  - intros n Hn. apply not_elem_of_cons in Hn as [Hn1 Hn2]. rewrite Ho by done. by apply Hother.
Qed.

Lemma register_all_again w cs cs' :
  holds w cs → Forall2 same_metric cs cs' → register_all cs' w = (Ret cs, w).
Proof.
  intros Hh H. induction H as [|c c' cs cs' (Hn & Hl & Hk) _ IH]; [done|].
  apply Forall_cons_1 in Hh as [Hc Hh].
  simpl. unfold mbind, io_bind. rewrite (register_or_reuse_again w c' c) by (rewrite ?Hn; done).
  by rewrite IH.
Qed.

(** Two instances of a component share their metrics.  When no metric of
    the component is registered yet, the first [initMetrics] registers its own
    collectors; a second one, and every later one, never panics, gets exactly
    the collectors of the first, and leaves the registry as it is.  A
    metric already registered with another type or other labels makes the
    registration panic. *)
Theorem metrics_are_shared w cs :
  NoDup (cname <$> cs) →
  (Forall (λ c, registered w (cname c) = None) cs →
   ∃ w', register_all cs w = (Ret cs, w') ∧
     ∀ cs', Forall2 same_metric cs cs' → register_all cs' w' = (Ret cs, w')) ∧
  (∀ c ex cs1 cs2, cs = cs1 ++ c :: cs2 → Forall (λ c, registered w (cname c) = None) cs1 →
     registered w (cname c) = Some ex → ckind ex ≠ ckind c ∨ clabels ex ≠ clabels c →
     ∃ v w', register_all cs w = (Panics v, w')).
Proof.
  intros Hnd. split.
  - intros Hnew. destruct (register_all_new w cs Hnd Hnew) as (w' & Hr & Hh & _).
    exists w'. split; [done|]. intros cs'. by apply register_all_again.
  - intros c ex cs1 cs2 -> Hnew Hex Hd. revert w Hnew Hex Hnd.
    induction cs1 as [|c1 cs1 IH]; intros w Hnew Hex Hnd; simpl; unfold mbind, io_bind.
    + unfold RegisterOrReuse, mbind, io_bind.
      destruct (decide (clabels ex = clabels c)) as [Hl|Hl].
      * rewrite (register_again _ _ _ Hex Hl), decide_False by naive_solver. by do 2 eexists.
      * destruct (register_clash _ _ _ Hex Hl) as [e ->]. by do 2 eexists.
    + apply Forall_cons_1 in Hnew as [H1 Hnew]. simpl in Hnd. apply NoDup_cons in Hnd as [Hc1 Hnd].
      destruct (register_or_reuse_new w c1 H1) as (w1 & -> & _ & Hother).
      rewrite fmap_app in Hc1. simpl in Hc1.
      destruct (IH w1) as (v & w' & Hr); [..|done|].
      * apply Forall_forall. intros c' Hc'. rewrite Hother; [by eapply Forall_forall in Hnew|].
        intros Heq. apply Hc1, elem_of_app. left. rewrite <-Heq. by apply list_elem_of_fmap_2.
      * rewrite Hother; [done|]. intros Heq. apply Hc1. rewrite <-Heq.
        apply elem_of_app. right. left.
      * rewrite Hr. by do 2 eexists.
Qed.
End register.

(** A registry that keeps its collectors in a list. *)
Definition list_registered (w : list collector) (n : string) : option collector :=
  snd <$> list_find (λ c, cname c = n) w.
Definition list_register (c : collector) : io (list collector) (option reg_error) := λ w,
  match list_registered w (cname c) with
  | None => (None, c :: w)
  | Some ex =>
      if decide (clabels ex = clabels c) then (Some (AlreadyRegistered ex), w)
      else (Some (OtherError (Text "a previously registered descriptor has different labels")), w)
  end.

#[export] Instance list_registry : registry list_register list_registered.
Proof.
  split.
  - intros w c H. unfold list_register. rewrite H. eexists. split; [done|].
    unfold list_registered. cbn. rewrite decide_True by done. split; [done|].
    intros n Hn. rewrite decide_False by done. by destruct (list_find _ w) as [[]|].
  - intros w c ex H Hl. unfold list_register. rewrite H. by rewrite decide_True.
  - intros w c ex H Hl. unfold list_register. rewrite H. rewrite decide_False by done. eauto.
Qed.

Definition ex_counter (o : nat) : collector := mkCollector CounterVec "requests_total" ["code"] o.

Lemma metrics_are_shared_witness :
  (∃ w', register_all list_register [ex_counter 1] [] = (Ret [ex_counter 1], w') ∧
     ∀ cs', Forall2 same_metric [ex_counter 1] cs' →
       register_all list_register cs' w' = (Ret [ex_counter 1], w')) ∧
  (∃ v w', register_all list_register [mkCollector GaugeVec "requests_total" ["code"] 2] [ex_counter 1] =
     (Panics v, w')).
Proof.
  split.
  - apply (metrics_are_shared list_register [] [ex_counter 1]); [|by repeat constructor].
    apply NoDup_singleton.
  - apply (proj2 (metrics_are_shared list_register [ex_counter 1]
      [mkCollector GaugeVec "requests_total" ["code"] 2] (NoDup_singleton _))
      (mkCollector GaugeVec "requests_total" ["code"] 2) (ex_counter 1) [] []); try done.
    by left.
Defined.

(** ** Samples

    What the collectors hold: a value per metric and labels, and the
    observations of the histograms in the order they were made. *)
Definition series : Type := string * list string.
Record metrics : Type := mkMetrics {
  values : gmap series Z;
  observed : list (series * Z);
}.

Definition no_metrics : metrics := mkMetrics ∅ [].
Definition value (m : metrics) (k : series) : Z := default 0 (values m !! k).
(** [WithLabelValues(labels...).Add(d)] and its siblings. *)
Definition add_value (k : series) (d : Z) (m : metrics) : metrics :=
  mkMetrics (<[k := value m k + d]> (values m)) (observed m).
Definition set_value (k : series) (d : Z) (m : metrics) : metrics :=
  mkMetrics (<[k := d]> (values m)) (observed m).
Definition observe (k : series) (d : Z) (m : metrics) : metrics :=
  mkMetrics (values m) (observed m ++ [(k, d)]).

Lemma value_add k k' d m :
  value (add_value k d m) k' = if decide (k = k') then value m k' + d else value m k'.
Proof.
  unfold value, add_value. simpl. case_decide; subst.
  - by rewrite lookup_insert_eq.
  - by rewrite lookup_insert_ne.
Qed.

Lemma value_set k k' d m :
  value (set_value k d m) k' = if decide (k = k') then d else value m k'.
Proof.
  unfold value, set_value. simpl. case_decide; subst.
  - by rewrite lookup_insert_eq.
  - by rewrite lookup_insert_ne.
Qed.

Lemma value_observe k k' d m : value (observe k d m) k' = value m k'.
Proof. done. Qed.

#[export] Hint Rewrite value_add value_set value_observe : go.
