(* ===== verification/HttpServer.v ===== *)
(** * http/server: configuration, metrics and panic-recovery middleware

    [NewServer] with its options and metrics, and the handler chain it installs:
    [responseWriter], which watches what the user's handler writes, and
    [buildMiddleware], which counts the request and turns a panic into a problem
    document.  A user's handler is a tree of the calls it makes on its
    [http.ResponseWriter]; [net_writer] is the writer of [net/http] itself.  The
    lifecycle of the server ([Start], [Stop]) is in ServerLifecycle.  Theorems:
    the wrapper is transparent, the metrics balance, what a panic leaves on the
    wire, and when the status the metrics report is the one the client saw. *)
From S2P Require Import Prelude Json Prom.
From Stdlib Require Import Ascii.

(** ** Configuration *)

Record Server : Type := mkServer {
  host : string;
  port : Z;
  readTimeout : Z;
  readHeaderTimeout : Z;
  writeTimeout : Z;
  idleTimeout : Z;
  maxHeaderBytes : Z;
  appName : string;
}.

Definition Option : Type := Server → Server.

Definition WithHost (h : string) : Option := λ s,
  mkServer h (port s) (readTimeout s) (readHeaderTimeout s) (writeTimeout s) (idleTimeout s)
    (maxHeaderBytes s) (appName s).
Definition WithPort (p : Z) : Option := λ s,
  mkServer (host s) p (readTimeout s) (readHeaderTimeout s) (writeTimeout s) (idleTimeout s)
    (maxHeaderBytes s) (appName s).
Definition WithReadTimeout (d : Z) : Option := λ s,
  mkServer (host s) (port s) d (readHeaderTimeout s) (writeTimeout s) (idleTimeout s)
    (maxHeaderBytes s) (appName s).
Definition WithReadHeaderTimeout (d : Z) : Option := λ s,
  mkServer (host s) (port s) (readTimeout s) d (writeTimeout s) (idleTimeout s)
    (maxHeaderBytes s) (appName s).
Definition WithWriteTimeout (d : Z) : Option := λ s,
  mkServer (host s) (port s) (readTimeout s) (readHeaderTimeout s) d (idleTimeout s)
    (maxHeaderBytes s) (appName s).
Definition WithIdleTimeout (d : Z) : Option := λ s,
  mkServer (host s) (port s) (readTimeout s) (readHeaderTimeout s) (writeTimeout s) d
    (maxHeaderBytes s) (appName s).
Definition WithMaxHeaderBytes (n : Z) : Option := λ s,
  mkServer (host s) (port s) (readTimeout s) (readHeaderTimeout s) (writeTimeout s) (idleTimeout s)
    n (appName s).
Definition WithAppName (name : string) : Option := λ s,
  mkServer (host s) (port s) (readTimeout s) (readHeaderTimeout s) (writeTimeout s) (idleTimeout s)
    (maxHeaderBytes s) name.

Definition default_server : Server :=
  mkServer "0.0.0.0" 8080 (5 * Second) (5 * Second) (10 * Second) (120 * Second) 0 "".

(** The four metrics of a server; [o] tells the collectors one server makes from
    those of another. *)
Definition metric_collectors (o : nat) : list collector :=
  [mkCollector CounterVec "http_panic_recovery_total" ["http_service"; "http_method"; "http_handler"] o;
   mkCollector HistogramVec "http_request_duration_seconds"
     ["http_service"; "http_handler"; "http_method"; "http_code"] o;
   mkCollector GaugeVec "http_requests_inflight" ["http_service"; "http_handler"] o;
   mkCollector HistogramVec "http_response_size_bytes"
     ["http_service"; "http_handler"; "http_method"; "http_code"] o].

(** [net.JoinHostPort]: an address with a colon is put in brackets. *)
Definition JoinHostPort (h : string) (p : Z) : string :=
  if existsb (λ c, bool_decide (c = ":"%char)) (String.list_ascii_of_string h)
  then "[" +:+ h +:+ "]:" +:+ pretty p else h +:+ ":" +:+ pretty p.

(** [Addr]: the bound address once there is a listener. *)
Definition Addr (s : Server) (listener : option string) : string :=
  match listener with Some a => a | None => JoinHostPort (host s) (port s) end.

Section new.
Context {W : Type} (Register : collector → io W (option reg_error)).

Definition initMetrics (o : nat) : io W (outcome (list collector)) :=
  register_all Register (metric_collectors o).

Definition NewServer (opts : list Option) (o : nat) : io W (outcome (Server * list collector)) :=
  let s := foldl (λ s opt, opt s) default_server opts in
  r ← initMetrics o;
  mret (match r with Ret cs => Ret (s, cs) | Panics v => Panics v end).
End new.

(** ** Response writers *)

(** [http.ResponseWriter] with the optional [Flusher] and [Hijacker].  A call
    returns the writer's new state; [write_header] may panic, [write] returns
    the bytes taken and an error, [hijack] an error. *)
Class ResponseWriter (A : Type) := {
  header_set : string → string → A → A;
  write_header : Z → A → A * option goerr;
  write : string → A → A * (Z * option goerr);
  flush : A → A;
  hijack : A → A * option goerr;
}.

(** *** The writer of [net/http] (HTTP/1) *)
Record net_writer : Type := mkNet {
  u_header : gmap string string;
  u_status : option Z;                         (* the status line sent *)
  u_sent : gmap string string;                 (* the header as it was sent *)
  u_infos : list Z;                            (* informational responses sent *)
  u_body : string;
  u_writes : nat;
  u_hijacked : bool;
}.

Definition fresh_net : net_writer := mkNet ∅ None ∅ [] "" 0 false.

Definition invalid_code : goerr := Text "invalid WriteHeader code".
Definition ErrHijacked : goerr := Sentinel "http.ErrHijacked" "http: connection has been hijacked".
Definition ErrBodyNotAllowed : goerr :=
  Sentinel "http.ErrBodyNotAllowed" "http: request method or response status code does not allow body".
Definition not_hijacker : goerr := Text "not a Hijacker".

Section serve.
(** The connection: what the [n]th write to it takes and fails with, and whether
    and how it can be hijacked.  Among a write's errors is [ErrContentLength], for
    more bytes than a Content-Length the handler set; on a HEAD request the body
    counts as written, and the client gets none of it. *)
Context (conn : nat → string → Z * option goerr) (hijackable : option (option goerr)).

Definition net_write_header (code : Z) (u : net_writer) : net_writer * option goerr :=
  if u_hijacked u then (u, None)
  else if decide (u_status u ≠ None) then (u, None)
  else if (code <? 100) || (999 <? code) then (u, Some invalid_code)
  else if (code <=? 199) && negb (code =? 101) then
    (mkNet (u_header u) (u_status u) (u_sent u) (u_infos u ++ [code]) (u_body u) (u_writes u)
       (u_hijacked u), None)
  else
    (mkNet (u_header u) (Some code) (u_header u) (u_infos u) (u_body u) (u_writes u)
       (u_hijacked u), None).

Definition body_allowed (u : net_writer) : bool :=
  match u_status u with
  | Some c => (200 <=? c) && negb (c =? 204) && negb (c =? 304)
  | None => true
  end.

Definition net_write (b : string) (u : net_writer) : net_writer * (Z * option goerr) :=
  if u_hijacked u then (u, (0, Some ErrHijacked))
  else
    let u := (net_write_header 200 u).1 in
    if decide (b = "") then (u, (0, None))
    else if negb (body_allowed u) then (u, (0, Some ErrBodyNotAllowed))
    else
      let '(n, err) := conn (u_writes u) b in
      (mkNet (u_header u) (u_status u) (u_sent u) (u_infos u)
         (u_body u +:+ String.substring 0 (Z.to_nat n) b) (S (u_writes u)) (u_hijacked u), (n, err)).

Definition net_hijack (u : net_writer) : net_writer * option goerr :=
  match hijackable with
  | None => (u, Some not_hijacker)
  | Some (Some e) => (u, Some e)
  | Some None =>
      if u_hijacked u then (u, Some ErrHijacked)
      else (mkNet (u_header u) (u_status u) (u_sent u) (u_infos u) (u_body u) (u_writes u) true, None)
  end.

#[export] Instance net_response_writer : ResponseWriter net_writer := {
  header_set k v u :=
    mkNet (<[k := v]> (u_header u)) (u_status u) (u_sent u) (u_infos u) (u_body u) (u_writes u)
      (u_hijacked u);
  write_header := net_write_header;
  write := net_write;
  flush u := (net_write_header 200 u).1;
  hijack := net_hijack;
}.

(** *** The wrapper *)
Record responseWriter : Type := mkRW {
  under : net_writer;                          (* the embedded ResponseWriter *)
  statusCode : Z;
  size : Z;
  wroteHeader : bool;
}.

Definition rw_WriteHeader (code : Z) (rw : responseWriter) : responseWriter * option goerr :=
  let rw := if wroteHeader rw then rw else mkRW (under rw) code (size rw) true in
  let '(u, p) := net_write_header code (under rw) in
  (mkRW u (statusCode rw) (size rw) (wroteHeader rw), p).

Definition rw_Write (b : string) (rw : responseWriter) : responseWriter * (Z * option goerr) :=
  let rw := if wroteHeader rw then rw else mkRW (under rw) (statusCode rw) (size rw) true in
  let '(u, (n, err)) := net_write b (under rw) in
  (mkRW u (statusCode rw) (size rw + n) (wroteHeader rw),
   (n, Wrap "responseWriter write" <$> err)).

Definition rw_Flush (rw : responseWriter) : responseWriter :=
  mkRW (net_write_header 200 (under rw)).1 (statusCode rw) (size rw) (wroteHeader rw).

Definition rw_hijack_error (err : option goerr) : option goerr :=
  match hijackable with
  | None => Some (Text "responseWriter: underlying ResponseWriter does not implement http.Hijacker")
  | Some _ => Wrap "responseWriter hijack" <$> err
  end.

Definition rw_Hijack (rw : responseWriter) : responseWriter * option goerr :=
  let '(u, err) := net_hijack (under rw) in
  (mkRW u (statusCode rw) (size rw) (wroteHeader rw), rw_hijack_error err).

#[export] Instance rw_response_writer : ResponseWriter responseWriter := {
  header_set k v rw :=
    mkRW (header_set k v (under rw)) (statusCode rw) (size rw) (wroteHeader rw);
  write_header := rw_WriteHeader;
  write := rw_Write;
  flush := rw_Flush;
  hijack := rw_Hijack;
}.

(** ** Handlers

    What a handler does with its writer, with what it does next depending on
    what the calls return.  [HSetPattern] is a [ServeMux] recording the pattern
    it matched in [r.Pattern]. *)
Inductive handler : Type :=
  | HReturn
  | HPanic (v : goerr)
  | HSetHeader (k v : string) (h : handler)
  | HWriteHeader (code : Z) (h : handler)
  | HWrite (b : string) (h : Z → option goerr → handler)
  | HFlush (h : handler)
  | HHijack (h : option goerr → handler)
  | HSetPattern (p : string) (h : handler).

(** The state the calls leave, the pattern, and the panic if any. *)
Fixpoint serve {A} `{!ResponseWriter A} (h : handler) (w : A) (p : string) :
    A * string * option goerr :=
  match h with
  | HReturn => (w, p, None)
  | HPanic v => (w, p, Some v)
  | HSetHeader k v h => serve h (header_set k v w) p
  | HWriteHeader code h =>
      let '(w, pan) := write_header code w in
      match pan with Some v => (w, p, Some v) | None => serve h w p end
  | HWrite b h => let '(w, (n, err)) := write b w in serve (h n err) w p
  | HFlush h => serve h (flush w) p
  | HHijack h => let '(w, err) := hijack w in serve (h err) w p
  | HSetPattern p h => serve h w p
  end.

(** ** Problem documents *)

Record Problem : Type := mkProblem {
  p_Type : string;
  p_Title : string;
  p_Status : Z;
  p_Detail : option json;
  p_Instance : string;
  p_InvalidParams : option json;
}.

Definition problemContentType : string := "application/problem+json".

Definition problem_json (p : Problem) : json :=
  JObj (omit_empty
    [("type", nonempty_str (p_Type p)); ("title", nonempty_str (p_Title p));
     ("status", nonzero_num (p_Status p)); ("detail", p_Detail p);
     ("instance", nonempty_str (p_Instance p)); ("invalid-params", p_InvalidParams p)]).

Definition newline : string := String (ascii_of_nat 10) EmptyString.

(** The writer, a panic of [WriteHeader], or the error returned. *)
Definition WriteProblem {A} `{!ResponseWriter A} (p : Problem) (w : A) :
    A * option goerr * option goerr :=
  let w := header_set "Content-Type" problemContentType w in
  let '(w, pan) := write_header (p_Status p) w in
  match pan with
  | Some v => (w, Some v, None)
  | None =>
      let '(w, (_, err)) := write (print (problem_json p) +:+ newline) w in
      (w, None, Wrap "write problem" <$> err)
  end.

(** ** The middleware *)

Record request : Type := mkRequest {
  r_Method : string;
  r_Pattern : string;
  r_Path : string;
}.

Definition inflight_series (s : Server) (pattern : string) : series :=
  ("http_requests_inflight", [appName s; pattern]).
Definition panic_series (s : Server) (method pattern : string) : series :=
  ("http_panic_recovery_total", [appName s; method; pattern]).
Definition request_labels (s : Server) (pattern method : string) (code : Z) : list string :=
  [appName s; pattern; method; pretty code].

Definition panic_problem (r : request) : Problem :=
  mkProblem "" "Internal Server Error" 500 None (r_Path r) None.

(** The deferred function: recover, then observe. *)
Definition recover_panic (s : Server) (r : request) (pattern : string) (pan : option goerr)
    (rw : responseWriter) (m : metrics) : responseWriter * metrics :=
  match pan with
  | None => (rw, m)
  | Some _ =>
      let m := add_value (panic_series s (r_Method r) pattern) 1 m in
      if wroteHeader rw then (rw, m) else ((WriteProblem (panic_problem r) rw).1.1, m)
  end.

Definition observe_request (s : Server) (r : request) (pattern inflightPattern : string) (dur : Z)
    (rw : responseWriter) (m : metrics) : metrics :=
  let labels := request_labels s pattern (r_Method r) (statusCode rw) in
  add_value (inflight_series s inflightPattern) (-1)
    (observe ("http_response_size_bytes", labels) (size rw)
       (observe ("http_request_duration_seconds", labels) dur m)).

Definition buildMiddleware (s : Server) (h : request → handler) (r : request) (dur : Z)
    (u : net_writer) (m : metrics) : responseWriter * metrics :=
  let inflightPattern := r_Pattern r in
  let rw := mkRW u 200 0 false in
  let m := add_value (inflight_series s inflightPattern) 1 m in
  let '(rw, pattern, pan) := serve (h r) rw (r_Pattern r) in
  let '(rw, m) := recover_panic s r pattern pan rw m in
  (rw, observe_request s r pattern inflightPattern dur rw m).

(** What the client sees: [net/http] sends 200 when the handler sent nothing. *)
Definition client_status (u : net_writer) : Z := default 200 (u_status u).

(** ** The wrapper is transparent *)

(** The handler as it sees its errors through the wrapper. *)
Fixpoint wrap_errors (h : handler) : handler :=
  match h with
  | HReturn => HReturn
  | HPanic v => HPanic v
  | HSetHeader k v h => HSetHeader k v (wrap_errors h)
  | HWriteHeader code h => HWriteHeader code (wrap_errors h)
  | HWrite b h => HWrite b (λ n err, wrap_errors (h n (Wrap "responseWriter write" <$> err)))
  | HFlush h => HFlush (wrap_errors h)
  | HHijack h => HHijack (λ err, wrap_errors (h (rw_hijack_error err)))
  | HSetPattern p h => HSetPattern p (wrap_errors h)
  end.

Lemma serve_under h rw p :
  serve (wrap_errors h) (under rw) p =
    let '(rw', p', pan) := serve h rw p in (under rw', p', pan).
Proof.
  revert rw p.
  induction h as [| |k v h IH|code h IH|b h IH|h IH|h IH|p' h IH]; intros rw p; simpl; auto.
  - by rewrite <-IH.
  - unfold rw_WriteHeader. replace (under (if wroteHeader rw then _ else _)) with (under rw)
      by (by destruct (wroteHeader rw)).
    destruct (net_write_header code (under rw)) as [u [v|]]; simpl; [done|]. by rewrite <-IH.
  - unfold rw_Write. replace (under (if wroteHeader rw then _ else _)) with (under rw)
      by (by destruct (wroteHeader rw)).
    destruct (net_write b (under rw)) as [u [n err]]. simpl. by rewrite <-IH.
  - by rewrite <-IH.
  - unfold rw_Hijack. destruct (net_hijack (under rw)) as [u err]. by rewrite <-IH.
Qed.

(** C34: the middleware is transparent.  A handler that does not panic leaves on
    the connection exactly what it would have left served without the
    middleware, whatever the connection answers, seeing the same results of
    its calls up to the wrapping of their errors. *)
Theorem middleware_transparent s h r dur u m u' pattern :
  serve (wrap_errors (h r)) u (r_Pattern r) = (u', pattern, None) →
  under (buildMiddleware s h r dur u m).1 = u'.
Proof.
  intros H. change u with (under (mkRW u 200 0 false)) in H. rewrite serve_under in H.
  unfold buildMiddleware.
  destruct (serve (h r) (mkRW u 200 0 false) (r_Pattern r)) as [[rw p'] pan]. by simplify_eq/=.
Qed.

(** C20: the metrics balance.  However the handler ends, the gauge of requests in
    flight is back where it was, even when routing changed the request's
    pattern on the way; the panic counter went up by one exactly when the
    handler panicked; nothing else changed, and one duration and one size were
    observed, under the same labels. *)
Theorem metrics_balance s h r dur u m :
  let '(rw1, pattern, pan) := serve (h r) (mkRW u 200 0 false) (r_Pattern r) in
  let '(rw, m') := buildMiddleware s h r dur u m in
  let labels := request_labels s pattern (r_Method r) (statusCode rw) in
  (∀ k, value m' k = value m k +
     (if decide (pan ≠ None ∧ k = panic_series s (r_Method r) pattern) then 1 else 0)) ∧
  observed m' = observed m ++
    [(("http_request_duration_seconds", labels), dur); (("http_response_size_bytes", labels), size rw)].
Proof.
  unfold buildMiddleware. destruct (serve (h r) _ _) as [[rw1 pattern] pan].
  destruct (recover_panic _ _ _ _ _ _) as [rw m1] eqn:E.
  assert ((∀ k, value m1 k = value m k + (if decide (k = inflight_series s (r_Pattern r)) then 1 else 0) +
     (if decide (pan ≠ None ∧ k = panic_series s (r_Method r) pattern) then 1 else 0)) ∧
     observed m1 = observed m) as [Hv Ho].
  { unfold recover_panic in E. destruct pan as [v|].
    - destruct (wroteHeader rw1); simplify_eq; (split; [intros k|done]); rewrite !value_add;
        repeat case_decide; simplify_eq; naive_solver lia.
    - simplify_eq. split; [intros k|done]. rewrite value_add. repeat case_decide; naive_solver lia. }
  unfold observe_request. split.
  - intros k. rewrite value_add, !value_observe, Hv. repeat case_decide; naive_solver lia.
  - simpl. by rewrite Ho, <-app_assoc.
Qed.

(** *** What a panic leaves *)

Definition problem_text (r : request) : string := print (problem_json (panic_problem r)) +:+ newline.

(** The connection takes the write whole. *)
Definition takes_all (n : nat) (b : string) : Prop := conn n b = (Z.of_nat (String.length b), None).

Lemma substring_all b : String.substring 0 (String.length b) b = b.
Proof. induction b as [|c b IH]; simpl; [done|]. by rewrite IH. Qed.

Lemma problem_text_not_empty r : problem_text r ≠ "".
Proof. unfold problem_text. by destruct (print _). Qed.

(** The problem document on a writer whose [WriteHeader] was not called: the status
    goes out unless something did before, then as much of the document as the
    connection takes; on a hijacked connection nothing does. *)
Definition after_problem (r : request) (n : Z) (u : net_writer) : net_writer :=
  let hd := <["Content-Type" := problemContentType]> (u_header u) in
  let '(st, sent) := match u_status u with Some st => (st, u_sent u) | None => (500, hd) end in
  let took := String.substring 0 (Z.to_nat n) (problem_text r) in
  if u_hijacked u then mkNet hd (u_status u) (u_sent u) (u_infos u) (u_body u) (u_writes u) true
  else if body_allowed (mkNet hd (Some st) sent (u_infos u) (u_body u) (u_writes u) false)
  then mkNet hd (Some st) sent (u_infos u) (u_body u +:+ took) (S (u_writes u)) false
  else mkNet hd (Some st) sent (u_infos u) (u_body u) (u_writes u) false.

Lemma write_problem_leaves r rw n err :
  wroteHeader rw = false → conn (u_writes (under rw)) (problem_text r) = (n, err) →
  under (WriteProblem (panic_problem r) rw).1.1 = after_problem r n (under rw) ∧
  statusCode (WriteProblem (panic_problem r) rw).1.1 = 500.
Proof.
  intros Hw. unfold WriteProblem, after_problem. fold (problem_text r).
  pose proof (problem_text_not_empty r) as Hne. revert Hne. generalize (problem_text r). intros t Hne Hc.
  destruct rw as [[hd st sent infos body k hj] sc sz wh]. simpl in *. subst wh.
  unfold rw_WriteHeader, rw_Write, net_write, net_write_header.
  destruct hj; simpl; [by destruct st|]. destruct st as [st|]; simpl; rewrite (decide_False (P := t = "")) by done.
  - destruct (body_allowed _); simpl; [|done]. by rewrite Hc.
  - by rewrite Hc.
Qed.

Lemma panic_leaves s h r dur u m rw1 pattern v n err :
  serve (h r) (mkRW u 200 0 false) (r_Pattern r) = (rw1, pattern, Some v) →
  wroteHeader rw1 = false → conn (u_writes (under rw1)) (problem_text r) = (n, err) →
  let rw := (buildMiddleware s h r dur u m).1 in
  under rw = after_problem r n (under rw1) ∧ statusCode rw = 500.
Proof.
  intros H Hw Hc. unfold buildMiddleware. rewrite H. unfold recover_panic. rewrite Hw. by eapply write_problem_leaves.
Qed.

(** C35: what the client gets when a handler panics.  If the handler had called
    [WriteHeader] or [Write] through the wrapper, what it left is not touched.
    Otherwise the metrics report 500, and what the client gets depends on what
    went out without the wrapper noticing.  Nothing: status 500, the problem
    document as content type and body, as far as the connection takes it.  A
    header sent by a flush: the client keeps that status and header, and the
    document is appended to the body where that status allows one.  A hijacked
    connection: nothing is written to it. *)
Theorem panic_response s h r dur u m rw1 pattern v n err :
  serve (h r) (mkRW u 200 0 false) (r_Pattern r) = (rw1, pattern, Some v) →
  conn (u_writes (under rw1)) (problem_text r) = (n, err) →
  let rw := (buildMiddleware s h r dur u m).1 in
  let took := String.substring 0 (Z.to_nat n) (problem_text r) in
  (wroteHeader rw1 = true → rw = rw1) ∧
  (wroteHeader rw1 = false → statusCode rw = 500 ∧
   match u_hijacked (under rw1), u_status (under rw1) with
   | false, None =>
       client_status (under rw) = 500 ∧ u_sent (under rw) !! "Content-Type" = Some problemContentType ∧
       u_body (under rw) = u_body (under rw1) +:+ took
   | false, Some st =>
       client_status (under rw) = st ∧ u_sent (under rw) = u_sent (under rw1) ∧
       u_body (under rw) = if body_allowed (under rw1) then u_body (under rw1) +:+ took else u_body (under rw1)
   | true, _ =>
       u_status (under rw) = u_status (under rw1) ∧ u_sent (under rw) = u_sent (under rw1) ∧
       u_body (under rw) = u_body (under rw1)
   end) ∧
  (n = Z.of_nat (String.length (problem_text r)) → took = problem_text r).
Proof.
  intros H Hc rw took. subst took. split; [|split].
  - intros Hw. subst rw. unfold buildMiddleware. rewrite H. simpl. by rewrite Hw.
  - intros Hw. destruct (panic_leaves s h r dur u m rw1 pattern v n err H Hw Hc) as [E1 E2].
    subst rw. rewrite E1, E2. split; [done|].
    unfold after_problem. destruct (under rw1) as [hd st sent infos body k hj]. simpl.
    destruct hj; [by destruct st|]. destruct st as [st|]; simpl.
    + unfold body_allowed. simpl. by destruct (_ && _).
    + split_and!; try done. apply lookup_insert_eq.
  - intros ->. by rewrite Nat2Z.id, substring_all.
Qed.

(** *** What the metrics report *)

(** A handler that sends valid final statuses only, and neither flushes nor
    hijacks. *)
Fixpoint plain (h : handler) : Prop :=
  match h with
  | HReturn | HPanic _ => True
  | HSetHeader _ _ h | HSetPattern _ h => plain h
  | HWriteHeader code h => (code = 101 ∨ 200 ≤ code ≤ 999) ∧ plain h
  | HWrite _ h => ∀ n err, plain (h n err)
  | HFlush _ | HHijack _ => False
  end.

(** The wrapper knows what was sent. *)
Record agrees (rw : responseWriter) : Prop := mkAgrees {
  agrees_hijack : u_hijacked (under rw) = false;
  agrees_wrote : wroteHeader rw = bool_decide (u_status (under rw) ≠ None);
  agrees_code : statusCode rw = client_status (under rw);
  agrees_size : size rw = Z.of_nat (String.length (u_body (under rw)));
}.

(** The connection reports how much of the write it took. *)
Hypothesis conn_counts : ∀ n b, 0 ≤ (conn n b).1 ≤ Z.of_nat (String.length b).

Lemma length_append a b : String.length (a +:+ b) = (String.length a + String.length b)%nat.
Proof. induction a as [|c a IH]; simpl; [done|]. by rewrite IH. Qed.

Lemma length_prefix n b : (n ≤ String.length b)%nat → String.length (String.substring 0 n b) = n.
Proof.
  revert n. induction b as [|c b IH]; intros [|n] H; simpl in *; try lia. rewrite IH; lia.
Qed.

Lemma agrees_write_header code rw :
  agrees rw → code = 101 ∨ 200 ≤ code ≤ 999 →
  agrees (rw_WriteHeader code rw).1 ∧ (rw_WriteHeader code rw).2 = None.
Proof.
  intros [Hj Hw Hc Hs] Hcode. unfold rw_WriteHeader, net_write_header.
  rewrite Hw. case_bool_decide as E; simpl; rewrite Hj.
  - rewrite decide_True by done. simpl. split; [|done].
    constructor; simpl; try done. rewrite Hw. by rewrite bool_decide_eq_true_2.
  - rewrite decide_False by (by intros []).
    assert ((code <? 100) || (999 <? code) = false) as -> by (apply orb_false_iff; lia).
    assert ((code <=? 199) && negb (code =? 101) = false) as ->.
    { apply andb_false_iff. destruct (Z.eqb_spec code 101); [by right|left; lia]. }
    simpl. split; [|done]. by constructor.
Qed.

Lemma agrees_write b rw : agrees rw → agrees (rw_Write b rw).1.
Proof.
  intros [Hj Hw Hc Hs]. unfold rw_Write, net_write.
  assert (∀ rw', under (if wroteHeader rw then rw else rw') = if wroteHeader rw then under rw else under rw')
    as Hu by (intros; by destruct (wroteHeader rw)).
  rewrite Hu. simpl. replace (if wroteHeader rw then under rw else under rw) with (under rw)
    by (by destruct (wroteHeader rw)). rewrite Hj.
  set (u1 := (net_write_header 200 (under rw)).1).
  assert (u_hijacked u1 = false ∧ u_status u1 ≠ None ∧ client_status u1 = client_status (under rw) ∧
    u_body u1 = u_body (under rw)) as (Hj1 & Hs1 & Hc1 & Hb1).
  { unfold u1, net_write_header. rewrite Hj. case_decide as E; simpl; [done|].
    split_and!; try done. unfold client_status. by rewrite E. }
  assert (agrees (mkRW u1 (statusCode rw) (size rw) true)) as H1.
  { constructor; simpl; [done|by rewrite bool_decide_eq_true_2|congruence|by rewrite Hb1]. }
  assert (wroteHeader (if wroteHeader rw then rw else mkRW (under rw) (statusCode rw) (size rw) true) = true)
    as Hwh by (by destruct (wroteHeader rw) eqn:E).
  assert (statusCode (if wroteHeader rw then rw else mkRW (under rw) (statusCode rw) (size rw) true) =
    statusCode rw) as Hst by (by destruct (wroteHeader rw)).
  assert (size (if wroteHeader rw then rw else mkRW (under rw) (statusCode rw) (size rw) true) = size rw)
    as Hsz by (by destruct (wroteHeader rw)).
  case_decide; [|destruct (negb (body_allowed u1))]; simpl; rewrite ?Hwh, ?Hst, ?Hsz, ?Z.add_0_r;
    [done..|].
  pose proof (conn_counts (u_writes u1) b) as Hn. destruct (conn (u_writes u1) b) as [n err].
  simpl in *. destruct H1 as [? ? ? Hs']. constructor; simpl in *; try done.
  rewrite length_append, length_prefix by lia. lia.
Qed.

Lemma agrees_serve h rw p :
  plain h → agrees rw → agrees (serve h rw p).1.1.
Proof.
  revert rw p. induction h as [| |k v h IH|code h IH|b h IH| | |p' h IH]; intros rw p Hp Ha; simpl in *;
    try done; auto.
  - apply IH; [done|]. by destruct Ha; constructor.
  - destruct Hp as [Hcode Hp]. destruct (agrees_write_header code rw Ha Hcode) as [H1 H2].
    destruct (rw_WriteHeader code rw) as [rw' pan]. simpl in *. subst. by apply IH.
  - pose proof (agrees_write b rw Ha) as H1. destruct (rw_Write b rw) as [rw' [n err]].
    by apply IH.
Qed.

(** The metrics report what the client saw.  For a handler that sends valid
    final statuses and neither flushes nor hijacks, panicking or not, the
    status in the labels is the one the client received, and the size observed
    is the size of the body sent. *)
Theorem reported_status_is_sent s h r dur m :
  plain (h r) →
  let rw := (buildMiddleware s h r dur fresh_net m).1 in
  statusCode rw = client_status (under rw) ∧ size rw = Z.of_nat (String.length (u_body (under rw))).
Proof.
  intros Hp. unfold buildMiddleware.
  pose proof (agrees_serve (h r) (mkRW fresh_net 200 0 false) (r_Pattern r) Hp
    ltac:(by constructor)) as Ha.
  destruct (serve (h r) _ _) as [[rw1 pattern] pan]. simpl in Ha.
  cut (agrees (recover_panic s r pattern pan rw1
    (add_value (inflight_series s (r_Pattern r)) 1 m)).1).
  { destruct (recover_panic _ _ _ _ _ _) as [rw m1]. by intros [_ _ ? ?]. }
  unfold recover_panic. destruct pan as [v|]; [|done]. destruct (wroteHeader rw1); [done|]. simpl.
  unfold WriteProblem. simpl.
  set (rw2 := mkRW _ (statusCode rw1) _ _).
  assert (agrees rw2) as H2 by (by destruct Ha; constructor).
  destruct (agrees_write_header 500 rw2 H2 ltac:(lia)) as [H3 Hn]. clearbody rw2.
  destruct (rw_WriteHeader 500 rw2) as [rw3 pan]. simpl in *. subst pan.
  pose proof (agrees_write (print (problem_json (panic_problem r)) +:+ newline) rw3 H3) as H4.
  by destruct (rw_Write _ rw3) as [rw4 [n err]].
Qed.

(** A handler that flushes has sent its header without the wrapper noticing: when
    it then panics, the problem document is appended to a response the client
    already sees as 200, and the metrics report 500. *)
Lemma flush_then_panic s r dur m v :
  takes_all 0 (problem_text r) →
  let rw := (buildMiddleware s (λ _, HFlush (HPanic v)) r dur fresh_net m).1 in
  client_status (under rw) = 200 ∧ u_body (under rw) = problem_text r ∧ statusCode rw = 500.
Proof.
  intros Hc rw. destruct (panic_leaves s (λ _, HFlush (HPanic v)) r dur fresh_net m
    (rw_Flush (mkRW fresh_net 200 0 false)) (r_Pattern r) v _ _ eq_refl eq_refl Hc) as [H1 H2].
  subst rw. rewrite H1, H2. clear. split; [done|]. split; [|done]. unfold after_problem.
  generalize (problem_text r). intros t. cbn -[String.substring]. by rewrite Nat2Z.id, substring_all.
Qed.

(** An informational status is taken for the final one: the metrics report it,
    and a panic after it is answered with an empty 200. *)
Lemma informational_then_panic s r dur m v :
  let rw := (buildMiddleware s (λ _, HWriteHeader 103 (HPanic v)) r dur fresh_net m).1 in
  client_status (under rw) = 200 ∧ u_body (under rw) = "" ∧ statusCode rw = 103.
Proof. done. Qed.
End serve.

(** ** Witnesses *)
Definition ex_conn (n : nat) (b : string) : Z * option goerr := (Z.of_nat (String.length b), None).
Definition ex_request : request := mkRequest "GET" "/orders/{id}" "/orders/7".
Definition ex_server : Server := foldl (λ s opt, opt s) default_server [WithAppName "orders"].
Definition ex_created : request → handler := λ _,
  HSetHeader "Location" "/orders/7" (HWriteHeader 201 (HWrite "ok" (λ _ _, HReturn))).
Definition ex_panics : request → handler := λ _, HSetPattern "/orders" (HPanic (Text "nil map")).

Lemma middleware_transparent_witness :
  under (buildMiddleware ex_conn None ex_server ex_created ex_request 5 fresh_net no_metrics).1 =
  mkNet {["Location" := "/orders/7"]} (Some 201) {["Location" := "/orders/7"]} [] "ok" 1 false.
Proof.
  eapply (middleware_transparent ex_conn None ex_server ex_created ex_request 5 fresh_net no_metrics).
  vm_compute. reflexivity.
Defined.

(** A panic before anything was sent, and one after a flush. *)
Definition ex_flushes : request → handler := λ _, HFlush (HPanic (Text "nil map")).

Lemma panic_response_witness :
  let rw := (buildMiddleware ex_conn None ex_server ex_panics ex_request 5 fresh_net no_metrics).1 in
  let rw' := (buildMiddleware ex_conn None ex_server ex_flushes ex_request 5 fresh_net no_metrics).1 in
  statusCode rw = 500 ∧
  (client_status (under rw) = 500 ∧ u_sent (under rw) !! "Content-Type" = Some problemContentType ∧
   u_body (under rw) = problem_text ex_request) ∧
  (client_status (under rw') = 200 ∧ u_body (under rw') = problem_text ex_request).
Proof.
  destruct (panic_response ex_conn None ex_server ex_panics ex_request 5 fresh_net no_metrics
    (mkRW fresh_net 200 0 false) "/orders" (Text "nil map") _ _ eq_refl eq_refl) as (_ & H & _).
  destruct (panic_response ex_conn None ex_server ex_flushes ex_request 5 fresh_net no_metrics
    (rw_Flush (mkRW fresh_net 200 0 false)) "/orders/{id}" (Text "nil map") _ _ eq_refl eq_refl) as (_ & H' & _).
  specialize (H eq_refl) as [H1 (H2 & H3 & H4)]. specialize (H' eq_refl) as [_ (H5 & _ & H6)].
  split; [exact H1|]. split; [split; [exact H2|split; [exact H3|rewrite H4; vm_compute; reflexivity]]|].
  split; [exact H5|rewrite H6; vm_compute; reflexivity].
Defined.

Lemma reported_status_is_sent_witness :
  let rw := (buildMiddleware ex_conn None ex_server ex_created ex_request 5 fresh_net no_metrics).1 in
  statusCode rw = client_status (under rw) ∧ size rw = Z.of_nat (String.length (u_body (under rw))).
Proof.
  apply (reported_status_is_sent ex_conn None).
  - intros n b. simpl. lia.
  - simpl. split; [right; lia|done].
Defined.
