(* ===== verification/ServerLifecycle.v ===== *)
(** * http/server and grpc/server: Start and Stop

    The two servers run the same protocol around a library server they do not
    own: [Start] serves and watches its context, [Stop] drains, and both drain
    through one [sync.Once].  [flavour] is what differs between them, [step]
    the machine of one [Start], any number of [Stop] calls and the library
    server, which is known by what it documents: graceful shutdown stops the
    accepting of connections and returns when none is open, a forced stop
    closes the open ones, and either makes [Serve] return.  Theorems: one
    graceful shutdown whatever is called, what [Stop]'s result means, that
    [Stop] returns once its context ends, and what [Start] returns. *)
From S2P Require Import Prelude GoContext.

(** What differs between the two servers: the wrapping of [net.Listen]'s error,
    what [Serve] returns once shut down, what [Start] makes of [Serve]'s result,
    and the prefix of [Stop]'s error. *)
Record flavour : Type := mkFlavour {
  listen_error : goerr → goerr;
  serve_closed : option goerr;
  start_result : option goerr → option goerr;
  stop_prefix : string;
}.

Definition http_start_result (err : option goerr) : option goerr :=
  match err with
  | Some e => if errors_Is e ErrServerClosed then None else Some (Wrap "serving" e)
  | None => None
  end.

Definition http_server (addr : string) : flavour :=
  mkFlavour (Wrap ("listening on " +:+ addr)) (Some ErrServerClosed) http_start_result
    "http server stop".

(** The gRPC server logs [Serve]'s error and returns nil. *)
Definition grpc_start_result (err : option goerr) : option goerr := None.

Definition grpc_server : flavour :=
  mkFlavour (Wrap "grpc server listen") None grpc_start_result "grpc server stop".

(** [sync.Once] around the graceful shutdown. *)
Inductive once : Type := Fresh | Running | Finished.

#[export] Instance once_eq_dec : EqDecision once.
Proof. solve_decision. Defined.

(** The goroutine of [Start], and the one it launches to watch [ctx]. *)
Inductive start_pc : Type := Idle | Serving | Quitting (r : option goerr) | Started (r : option goerr).
Inductive watcher : Type := NoWatcher | Watching | InOnce | Gone.

(** A call of [Stop], and the goroutine it launches. *)
Inductive stop_pc : Type := Called | Selecting | Waiting | Stopped (r : option goerr).
Inductive helper : Type := NoHelper | Launched | HelperInOnce | ClosedDone.

Record stop_call : Type := mkStop {
  stop_ctx : context;
  spc : stop_pc;
  hlp : helper;
}.

Record state : Type := mkState {
  σ : cancels;
  start : start_pc;
  watch : watcher;
  shutdownOnce : once;
  stops : list stop_call;
  (* the library server *)
  draining : bool;                             (* graceful shutdown was begun *)
  forced : bool;                               (* Close / Stop was called *)
  active : nat;                                (* open connections *)
  (* history *)
  accepted : nat;
  finished : nat;                              (* connections that ended by themselves *)
  cut : nat;                                   (* connections closed by force *)
  shutdown_calls : nat;
}.

Definition init (σ0 : cancels) : state :=
  mkState σ0 Idle NoWatcher Fresh [] false false 0 0 0 0 0.

Definition set_σ (c : cancels) (s : state) : state :=
  mkState c (start s) (watch s) (shutdownOnce s) (stops s) (draining s) (forced s) (active s)
    (accepted s) (finished s) (cut s) (shutdown_calls s).
Definition set_start (q : start_pc) (w : watcher) (s : state) : state :=
  mkState (σ s) q w (shutdownOnce s) (stops s) (draining s) (forced s) (active s)
    (accepted s) (finished s) (cut s) (shutdown_calls s).
Definition set_once (o : once) (s : state) : state :=
  mkState (σ s) (start s) (watch s) o (stops s) (draining s) (forced s) (active s)
    (accepted s) (finished s) (cut s) (shutdown_calls s).
Definition set_stops (l : list stop_call) (s : state) : state :=
  mkState (σ s) (start s) (watch s) (shutdownOnce s) l (draining s) (forced s) (active s)
    (accepted s) (finished s) (cut s) (shutdown_calls s).

(** [s.shutdownOnce.Do(shutdown)] up to the point where it runs or waits. *)
Definition begin_once (s : state) : state :=
  match shutdownOnce s with
  | Fresh =>
      mkState (σ s) (start s) (watch s) Running (stops s) true (forced s) (active s)
        (accepted s) (finished s) (cut s) (S (shutdown_calls s))
  | _ => s
  end.

(** [s.server.Close()], [s.srv.Stop()]. *)
Definition force (s : state) : state :=
  mkState (σ s) (start s) (watch s) (shutdownOnce s) (stops s) (draining s) true 0
    (accepted s) (finished s) (cut s + active s) (shutdown_calls s).

Inductive label : Type :=
  | LListen (err : option goerr)
  | LServeReturns (err : goerr)            (* the error of an unexpected return *)
  | LWatchCtx | LWatchQuit | LWatchDone
  | LStartReturns
  | LStop (c : context)                    (* somebody calls Stop(c) *)
  | LStopBegin (k : nat)
  | LHelperOnce (k : nat) | LHelperDone (k : nat)
  | LSelectDone (k : nat) | LSelectCtx (k : nat) | LStopWaited (k : nat)
  | LAccept | LConnEnds | LDrained         (* the library server *)
  | LCancel (c : context) (e : goerr).

Section server.
Context (fl : flavour) (ctx : context).

Definition stop_error (er : goerr) : goerr := Wrap (stop_prefix fl) er.

Definition upd_stop (k : nat) (c : stop_call) (s : state) : state := set_stops (<[k := c]> (stops s)) s.

Definition start_step (l : label) (s : state) : option state :=
  match l, start s with
  | LListen (Some er), Idle => Some (set_start (Started (Some (listen_error fl er))) (watch s) s)
  | LListen None, Idle => Some (set_start Serving Watching s)
  | LServeReturns er, Serving =>
      let r := if draining s || forced s then serve_closed fl else Some er in
      Some (set_start (Quitting (start_result fl r)) (watch s) s)
  | LStartReturns, Quitting r =>
      match watch s with Gone => Some (set_start (Started r) (watch s) s) | _ => None end
  | _, _ => None
  end.

Definition quit_closed (q : start_pc) : bool :=
  match q with Quitting _ | Started _ => true | _ => false end.

Definition watch_step (l : label) (s : state) : option state :=
  match l, watch s with
  | LWatchCtx, Watching =>
      if bool_decide (ctx_err (σ s) ctx = None) then None
      else Some (begin_once (set_start (start s) InOnce s))
  | LWatchQuit, Watching => if quit_closed (start s) then Some (set_start (start s) Gone s) else None
  | LWatchDone, InOnce =>
      match shutdownOnce s with Finished => Some (set_start (start s) Gone s) | _ => None end
  | _, _ => None
  end.

(** A step of the [k]th [Stop] call. *)
Definition stop_step (l : label) (k : nat) (s : state) : option state :=
  c ← stops s !! k;
  match l, spc c, hlp c with
  | LStopBegin _, Called, _ =>
      match ctx_err (σ s) (stop_ctx c) with
      | Some er => Some (upd_stop k (mkStop (stop_ctx c) (Stopped (Some (stop_error er))) (hlp c)) (force s))
      | None => Some (upd_stop k (mkStop (stop_ctx c) Selecting Launched) s)
      end
  | LHelperOnce _, q, Launched =>
      Some (upd_stop k (mkStop (stop_ctx c) q HelperInOnce) (begin_once s))
  | LHelperDone _, q, HelperInOnce =>
      match shutdownOnce s with
      | Finished => Some (upd_stop k (mkStop (stop_ctx c) q ClosedDone) s)
      | _ => None
      end
  | LSelectDone _, Selecting, ClosedDone =>
      Some (upd_stop k (mkStop (stop_ctx c) (Stopped None) ClosedDone) s)
  | LSelectCtx _, Selecting, h =>
      if bool_decide (ctx_err (σ s) (stop_ctx c) = None) then None
      else Some (upd_stop k (mkStop (stop_ctx c) Waiting h) (force s))
  | LStopWaited _, Waiting, ClosedDone =>
      er ← ctx_err (σ s) (stop_ctx c);
      Some (upd_stop k (mkStop (stop_ctx c) (Stopped (Some (stop_error er))) ClosedDone) s)
  | _, _, _ => None
  end.

(** The library server: it accepts until told to stop, and its graceful shutdown
    returns when no connection is open. *)
Definition library_step (l : label) (s : state) : option state :=
  match l with
  | LAccept =>
      match start s with
      | Serving =>
          if draining s || forced s then None
          else Some (mkState (σ s) (start s) (watch s) (shutdownOnce s) (stops s) (draining s) (forced s)
                 (S (active s)) (S (accepted s)) (finished s) (cut s) (shutdown_calls s))
      | _ => None
      end
  | LConnEnds =>
      match active s with
      | S n => Some (mkState (σ s) (start s) (watch s) (shutdownOnce s) (stops s) (draining s) (forced s)
                 n (accepted s) (S (finished s)) (cut s) (shutdown_calls s))
      | O => None
      end
  | LDrained =>
      match shutdownOnce s, active s with
      | Running, O => Some (set_once Finished s)
      | _, _ => None
      end
  | _ => None
  end.

Definition step (l : label) (s : state) : option state :=
  match l with
  | LListen _ | LServeReturns _ | LStartReturns => start_step l s
  | LWatchCtx | LWatchQuit | LWatchDone => watch_step l s
  | LStop c => Some (set_stops (stops s ++ [mkStop c Called NoHelper]) s)
  | LStopBegin k | LHelperOnce k | LHelperDone k
  | LSelectDone k | LSelectCtx k | LStopWaited k => stop_step l k s
  | LAccept | LConnEnds | LDrained => library_step l s
  | LCancel c e => Some (set_σ (fire c e (σ s)) s)
  end.

(** ** Invariant *)

#[local] Arguments ctx_err : simpl never.

(** What a [Stop] call knows of the rest. *)
Definition call_ok (s : state) (c : stop_call) : Prop :=
  match spc c with
  | Called => hlp c = NoHelper
  | Selecting => hlp c ≠ NoHelper
  | Waiting => hlp c ≠ NoHelper ∧ forced s = true ∧ is_Some (ctx_err (σ s) (stop_ctx c))
  | Stopped None => hlp c = ClosedDone
  | Stopped (Some e) =>
      forced s = true ∧ ∃ er, e = stop_error er ∧ ctx_err (σ s) (stop_ctx c) = Some er
  end ∧
  match hlp c with
  | HelperInOnce => shutdownOnce s ≠ Fresh
  | ClosedDone => shutdownOnce s = Finished
  | _ => True
  end.

Definition served (s : state) (r : option goerr) : Prop :=
  (∃ er, r = start_result fl (Some er)) ∨
  (r = start_result fl (serve_closed fl) ∧ (draining s = true ∨ forced s = true)).

Definition start_ok (s : state) : Prop :=
  match start s with
  | Idle => watch s = NoWatcher ∧ accepted s = 0%nat
  | Serving => watch s ≠ NoWatcher
  | Quitting r => watch s ≠ NoWatcher ∧ served s r
  | Started r =>
      (watch s = NoWatcher ∧ accepted s = 0%nat ∧ ∃ er, r = Some (listen_error fl er)) ∨
      (watch s = Gone ∧ served s r)
  end.

Record Inv (s : state) : Prop := mkInv {
  inv_conns : accepted s = (active s + finished s + cut s)%nat;
  inv_cut : forced s = false → cut s = 0%nat;
  inv_forced : forced s = true → active s = 0%nat;
  inv_once : shutdown_calls s = match shutdownOnce s with Fresh => 0%nat | _ => 1%nat end;
  inv_draining : draining s = bool_decide (shutdownOnce s ≠ Fresh);
  inv_finished : shutdownOnce s = Finished → active s = 0%nat;
  inv_start : start_ok s;
  inv_calls : Forall (call_ok s) (stops s);
}.

Lemma serverLifecycle_Inv_init σ0 : Inv (init σ0).
Proof. by constructor. Qed.

(** Nothing a call relies on is ever taken back. *)
Definition later (s s' : state) : Prop :=
  (∀ c e, ctx_err (σ s) c = Some e → ctx_err (σ s') c = Some e) ∧
  (shutdownOnce s ≠ Fresh → shutdownOnce s' ≠ Fresh) ∧
  (shutdownOnce s = Finished → shutdownOnce s' = Finished) ∧
  (forced s = true → forced s' = true) ∧ (draining s = true → draining s' = true).

Lemma call_ok_later s s' c : later s s' → call_ok s c → call_ok s' c.
Proof.
  intros (Hσ & Ho & Hf & Hfo & _) [H1 H2]. split.
  - destruct (spc c) as [| | |[e|]]; try done.
    + destruct H1 as (? & ? & [er ?]). split_and!; auto. exists er. auto.
    + destruct H1 as (? & er & ? & ?). split; [auto|]. exists er. auto.
  - destruct (hlp c); auto.
Qed.

Lemma calls_later s s' : later s s' → Forall (call_ok s) (stops s) → Forall (call_ok s') (stops s).
Proof. intros H Hf. eapply Forall_impl; [exact Hf|]. intros c. by apply call_ok_later. Qed.

Lemma served_later s s' r : later s s' → served s r → served s' r.
Proof. intros (_ & _ & _ & Hf & Hd) [He|[-> [?|?]]]; unfold served; auto. Qed.

Lemma begin_once_later s : later s (begin_once s).
Proof. unfold later, begin_once. destruct (shutdownOnce s) eqn:E; simpl; rewrite ?E; naive_solver. Qed.

Lemma begin_once_inv s : Inv s → Inv (begin_once s) ∧ shutdownOnce (begin_once s) ≠ Fresh.
Proof.
  intros HI. unfold begin_once. destruct (shutdownOnce s) eqn:E; [|by rewrite E..].
  split; [|done]. pose proof HI as [H1 H2 H3 H4 H5 H6 H7 H8]. rewrite E in *.
  assert (later s (begin_once s)) as Hl by apply begin_once_later.
  unfold begin_once in Hl. rewrite E in Hl.
  constructor; simpl; try done; auto.
  - unfold start_ok in *. simpl. destruct (start s); try done.
    + destruct H7. split; [done|]. by eapply served_later.
    + destruct H7 as [?|[? ?]]; [by left|right]. split; [done|]. by eapply served_later.
  - by eapply calls_later.
Qed.

Lemma force_inv s : Inv s → Inv (force s).
Proof.
  intros [H1 H2 H3 H4 H5 H6 H7 H8].
  assert (later s (force s)) as Hl by (unfold later; simpl; auto).
  constructor; simpl; try done; try lia.
  - unfold start_ok in *. simpl. destruct (start s); try done.
    + destruct H7. split; [done|]. by eapply served_later.
    + destruct H7 as [?|[? ?]]; [by left|right]. split; [done|]. by eapply served_later.
  - by eapply calls_later.
Qed.

(** A [Stop] call moves on. *)
Lemma upd_stop_inv k c s : Inv s → call_ok s c → Inv (upd_stop k c s).
Proof.
  intros [H1 H2 H3 H4 H5 H6 H7 H8] Hc. constructor; try done.
  by apply Forall_insert.
Qed.

Lemma serverLifecycle_start_step_inv l s s' : Inv s → start_step l s = Some s' → Inv s'.
Proof.
  intros HI H. pose proof HI as [H1 H2 H3 H4 H5 H6 H7 H8]. unfold start_ok in H7.
  unfold start_step in H.
  destruct l as [[er|]|er| | | | | | | | | | | | | | |], (start s) as [| |r|r] eqn:E; try done.
  - simplify_eq. constructor; try done. left. destruct H7 as [? ?]. split_and!; try done. by exists er.
  - simplify_eq. by constructor.
  - simplify_eq. constructor; try done. split; [done|]. unfold served. simpl.
    destruct (draining s), (forced s); simpl; eauto.
  - destruct (watch s) eqn:Ew; simplify_eq. constructor; try done. right. simpl. by destruct H7.
Qed.

Lemma watch_step_inv l s s' : Inv s → watch_step l s = Some s' → Inv s'.
Proof.
  intros HI H. unfold watch_step in H.
  assert (∀ w, watch s ≠ NoWatcher → w ≠ NoWatcher → watch s ≠ Gone → Inv (set_start (start s) w s)) as Hw.
  { intros w Hn Hw Hg. destruct HI as [H1 H2 H3 H4 H5 H6 H7 H8]. constructor; try done.
    unfold start_ok in *. simpl. destruct (start s); try done; naive_solver. }
  destruct l; try done; destruct (watch s) eqn:Ew; try done.
  - case_bool_decide; simplify_eq. by apply begin_once_inv, Hw.
  - case_match; simplify_eq. by apply Hw.
  - destruct (shutdownOnce s); simplify_eq. by apply Hw.
Qed.

Lemma stop_step_inv l k s s' : Inv s → stop_step l k s = Some s' → Inv s'.
Proof.
  intros HI H. unfold stop_step in H. apply bind_Some in H as (c & Hk & H).
  assert (call_ok s c) as Hc by (eapply Forall_lookup_1; [apply (inv_calls _ HI)|done]).
  pose proof (call_ok_later _ _ _ (begin_once_later s) Hc) as Hb.
  pose proof (begin_once_inv s HI) as [HB Hfresh].
  destruct l; try done; destruct (spc c) as [| | |r] eqn:Es; try done;
    destruct (hlp c) eqn:Eh; try done;
    unfold call_ok in Hc, Hb; rewrite Es, Eh in Hc, Hb; simpl in Hc, Hb; destruct Hc as [Hs Hh].
  all: try match type of H with context [ctx_err ?a ?b] => destruct (ctx_err a b) as [er|] eqn:Ec end;
    simpl in H; try (destruct (shutdownOnce s) eqn:Eo; try done); simplify_eq/=;
    apply upd_stop_inv; auto using force_inv; unfold call_ok; simpl; try (destruct r as [e|]);
    rewrite ?Ec; try naive_solver; split_and!; eauto; congruence.
Qed.

Lemma library_step_inv l s s' : Inv s → library_step l s = Some s' → Inv s'.
Proof.
  intros [H1 H2 H3 H4 H5 H6 H7 H8] H. unfold library_step in H. unfold start_ok in H7.
  destruct l; try done.
  - destruct (start s) eqn:Es; try done. destruct (draining s || forced s) eqn:Ed; simplify_eq.
    apply orb_false_iff in Ed as [Hd Hf]. rewrite Hd in H5. symmetry in H5.
    apply bool_decide_eq_false, dec_stable in H5.
    constructor; simpl; try done; rewrite ?Hf, ?H5; try done. lia.
  - destruct (active s) as [|n] eqn:Ea; simplify_eq. constructor; simpl; try done; try lia.
    + intros Hf. by specialize (H3 Hf).
    + intros Hf. by specialize (H6 Hf).
  - destruct (shutdownOnce s) eqn:Eo; try done. destruct (active s) eqn:Ea; simplify_eq.
    assert (later s (set_once Finished s)) as Hl by (unfold later; simpl; auto).
    constructor; simpl; try done; try (by rewrite Ea).
    by eapply calls_later.
Qed.

Lemma serverLifecycle_step_inv l s s' : Inv s → step l s = Some s' → Inv s'.
Proof.
  intros HI H. unfold step in H.
  destruct l; eauto using serverLifecycle_start_step_inv, watch_step_inv, stop_step_inv, library_step_inv.
  - simplify_eq. destruct HI as [H1 H2 H3 H4 H5 H6 H7 H8]. constructor; try done.
    apply Forall_app. split; [done|]. by repeat constructor.
  - simplify_eq. destruct HI as [H1 H2 H3 H4 H5 H6 H7 H8]. constructor; try done.
    apply (calls_later s); [|done]. unfold later. simpl. split_and!; try done.
    intros. by apply ctx_err_stable.
Qed.

Lemma serverLifecycle_reach_inv σ0 s : reach step (init σ0) s → Inv s.
Proof. intros [ls H]. eapply (exec_invariant _ Inv); eauto using serverLifecycle_step_inv, serverLifecycle_Inv_init. Qed.

(** ** Properties *)

(** C29: one graceful shutdown.  However often [Stop] is called, and whether or
    not the context of [Start] ends, the library's graceful shutdown is called
    at most once, and at least once before any [Stop] returns nil; no
    connection is accepted after it began, and every accepted one is open, has
    ended by itself, or was cut by a forced stop. *)
Theorem graceful_shutdown_once σ0 s :
  reach step (init σ0) s →
  (shutdown_calls s ≤ 1)%nat ∧ (draining s = true ↔ shutdown_calls s = 1%nat) ∧
  (∀ c, c ∈ stops s → spc c = Stopped None → shutdown_calls s = 1%nat) ∧
  (draining s = true → step LAccept s = None) ∧
  accepted s = (active s + finished s + cut s)%nat.
Proof.
  intros H%serverLifecycle_reach_inv. destruct H as [H1 H2 H3 H4 H5 H6 H7 H8]. split_and!; [| | | |done].
  - destruct (shutdownOnce s); lia.
  - rewrite H5, bool_decide_eq_true, H4. by destruct (shutdownOnce s).
  - intros c Hc Hs. eapply Forall_forall in H8 as [Hok Hh]; [|done].
    rewrite Hs in Hok. rewrite Hok in Hh. by rewrite H4, Hh.
  - simpl. intros ->. by destruct (start s).
Qed.

(** C16: what [Stop] returns.  Nil means the server is drained: no connection is
    open, and unless another [Stop] had to force it every connection it
    accepted ended by itself.  An error means the context given to that very
    call had ended; the error wraps the context's own, and every connection is
    closed. *)
Theorem stop_result σ0 s k c r :
  reach step (init σ0) s → stops s !! k = Some c → spc c = Stopped r →
  match r with
  | None => shutdownOnce s = Finished ∧ active s = 0%nat ∧ (forced s = false → accepted s = finished s)
  | Some e =>
      ∃ er, ctx_err (σ s) (stop_ctx c) = Some er ∧ e = stop_error er ∧ forced s = true ∧ active s = 0%nat
  end.
Proof.
  intros H%serverLifecycle_reach_inv Hk Hr. destruct H as [H1 H2 H3 H4 H5 H6 H7 H8].
  eapply Forall_lookup_1 in H8 as [Hok Hh]; [|done]. rewrite Hr in Hok.
  destruct r as [e|].
  - destruct Hok as (Hf & er & ? & ?). exists er. auto.
  - rewrite Hok in Hh. split_and!; [done|auto|]. intros Hf. rewrite H1, H6, H2 by done. lia.
Qed.

(** What [Start] returns: the error of listening, wrapped, and then nothing
    was ever accepted; or, once its watching goroutine has gone, what its
    flavour makes of [Serve]'s result, and that result is the normal one only if
    a shutdown was begun.  For HTTP nil thus means a shutdown (or a [Serve] that
    itself says so) and any other failure is returned. *)
Theorem start_result_meaning σ0 s r :
  reach step (init σ0) s → start s = Started r →
  (accepted s = 0%nat ∧ ∃ er, r = Some (listen_error fl er)) ∨
  (watch s = Gone ∧
   ((∃ er, r = start_result fl (Some er)) ∨
    (r = start_result fl (serve_closed fl) ∧ (draining s = true ∨ forced s = true)))).
Proof.
  intros H%serverLifecycle_reach_inv Hs. pose proof (inv_start _ H) as Hok. unfold start_ok in Hok.
  rewrite Hs in Hok. destruct Hok as [(_ & ? & ?)|[? ?]]; [by left|by right].
Qed.
(** *** [Stop] returns *)

Definition once_left (o : once) : nat := match o with Fresh => 2 | Running => 1 | Finished => 0 end.
Definition spc_left (q : stop_pc) : nat :=
  match q with Called => 6 | Selecting => 3 | Waiting => 1 | Stopped _ => 0 end.
Definition helper_left (h : helper) : nat := match h with Launched => 2 | HelperInOnce => 1 | _ => 0 end.

(** Steps left to a [Stop] call. *)
Definition stop_left (c : stop_call) (o : once) : nat :=
  (spc_left (spc c) + helper_left (hlp c) + once_left o)%nat.

(** The steps of the [k]th [Stop] call, and the return of the graceful shutdown
    it may wait for. *)
Definition own_label (k : nat) (l : label) : bool :=
  match l with
  | LStopBegin j | LHelperOnce j | LHelperDone j | LSelectDone j | LSelectCtx j | LStopWaited j =>
      bool_decide (j = k)
  | LDrained => true
  | _ => false
  end.

Definition is_stopped (c : stop_call) : Prop := ∃ r, spc c = Stopped r.

Lemma begin_once_left s : (once_left (shutdownOnce (begin_once s)) ≤ once_left (shutdownOnce s))%nat.
Proof. unfold begin_once. destruct (shutdownOnce s) eqn:E; simpl; rewrite ?E; simpl; lia. Qed.

Lemma begin_once_stops s : stops (begin_once s) = stops s.
Proof. unfold begin_once. by destruct (shutdownOnce s). Qed.

(** A step of the [j]th call replaces that call alone, by one closer to its end. *)
Lemma stop_step_left l j s s' :
  own_label j l = true → l ≠ LDrained → stop_step l j s = Some s' →
  ∃ c c', stops s !! j = Some c ∧ stops s' = <[j := c']> (stops s) ∧ stop_ctx c' = stop_ctx c ∧
    (once_left (shutdownOnce s') ≤ once_left (shutdownOnce s))%nat ∧
    (spc_left (spc c') + helper_left (hlp c') < spc_left (spc c) + helper_left (hlp c))%nat.
Proof.
  intros Hl Hd H. unfold stop_step in H. apply bind_Some in H as (c & Hk & H). exists c.
  pose proof (begin_once_left s). pose proof (begin_once_stops s) as Hb.
  destruct l; try done; destruct (spc c) as [| | |r] eqn:Es; try done; destruct (hlp c) eqn:Eh; try done.
  all: try match type of H with context [ctx_err ?a ?b] => destruct (ctx_err a b) as [er|] eqn:Ec end;
    simpl in H; try (destruct (shutdownOnce s) eqn:Eo; try done); simplify_eq/=; rewrite ?Hb;
    eexists; split_and!; try done; simpl in *; rewrite ?Eo; simpl; lia.
Qed.

Lemma stops_kept l s s' k c :
  step l s = Some s' → stops s !! k = Some c →
  ∃ c', stops s' !! k = Some c' ∧ stop_ctx c' = stop_ctx c ∧
    (stop_left c' (shutdownOnce s') + (if own_label k l then 1 else 0) ≤
       stop_left c (shutdownOnce s))%nat.
Proof.
  intros H Hk. unfold stop_left.
  assert (∀ j, own_label j l = true → l ≠ LDrained → stop_step l j s = Some s' →
    own_label k l = bool_decide (j = k) →
    ∃ c', stops s' !! k = Some c' ∧ stop_ctx c' = stop_ctx c ∧
    (spc_left (spc c') + helper_left (hlp c') + once_left (shutdownOnce s') +
       (if own_label k l then 1 else 0) ≤
       spc_left (spc c) + helper_left (hlp c) + once_left (shutdownOnce s))%nat) as Hstop.
  { intros j Hj Hd Hs ->. destruct (stop_step_left l j s s' Hj Hd Hs) as (c0 & c1 & Hc0 & -> & ? & ? & ?).
    case_bool_decide as Hjk.
    - subst j. simplify_eq. exists c1. split_and!; [|done|lia].
      apply list_lookup_insert_eq. by apply lookup_lt_Some in Hk.
    - exists c. rewrite list_lookup_insert_ne by done. split_and!; [done..|lia]. }
  destruct l; simpl in H; try (eapply Hstop; [..|exact H|done]; [by apply bool_decide_eq_true_2|done]);
    clear Hstop; exists c; simpl.
  - destruct err; destruct (start s); simplify_eq/=; split_and!; try done; lia.
  - destruct (start s); simplify_eq/=; split_and!; try done; lia.
  - destruct (watch s); simplify_eq. case_bool_decide; simplify_eq. rewrite begin_once_stops.
    pose proof (begin_once_left (set_start (start s) InOnce s)). simpl in *. split_and!; try done. lia.
  - destruct (watch s); simplify_eq. destruct (quit_closed (start s)); simplify_eq/=; split_and!; try done; lia.
  - destruct (watch s), (shutdownOnce s) eqn:E; simplify_eq/=; rewrite E; split_and!; try done; simpl; lia.
  - destruct (start s), (watch s); simplify_eq/=; split_and!; try done; lia.
  - simplify_eq/=. split_and!; [|done|lia]. by apply lookup_app_l_Some.
  - destruct (start s); simplify_eq. destruct (draining s || forced s); simplify_eq/=.
    split_and!; try done; lia.
  - destruct (active s); simplify_eq/=; split_and!; try done; lia.
  - destruct (shutdownOnce s), (active s); simplify_eq/=; split_and!; try done; lia.
  - simplify_eq/=; split_and!; try done; lia.
Qed.

Lemma stop_progress s k c :
  Inv s → stops s !! k = Some c → is_Some (ctx_err (σ s) (stop_ctx c)) →
  is_stopped c ∨ ∃ l, own_label k l = true ∧ is_Some (step l s).
Proof.
  intros HI Hk [er Her]. pose proof (inv_calls _ HI) as Hall.
  eapply Forall_lookup_1 in Hall as [Hs Hh]; [|done].
  destruct (spc c) as [| | |r] eqn:Es; [right..|left; by exists r].
  - exists (LStopBegin k). split; [by apply bool_decide_eq_true_2|]. simpl. unfold stop_step.
    rewrite Hk. simpl. rewrite Es, Her. eauto.
  - exists (LSelectCtx k). split; [by apply bool_decide_eq_true_2|]. simpl. unfold stop_step.
    rewrite Hk. simpl. rewrite Es, Her. eauto.
  - destruct Hs as (Hh0 & Hf & _). destruct (hlp c) eqn:Eh; try done.
    + exists (LHelperOnce k). split; [by apply bool_decide_eq_true_2|]. simpl. unfold stop_step.
      rewrite Hk. simpl. rewrite Es, Eh. eauto.
    + destruct (shutdownOnce s) eqn:Eo; try done.
      * exists LDrained. split; [done|]. simpl. rewrite Eo, (inv_forced _ HI Hf). eauto.
      * exists (LHelperDone k). split; [by apply bool_decide_eq_true_2|]. simpl. unfold stop_step.
        rewrite Hk. simpl. rewrite Es, Eh, Eo. eauto.
    + exists (LStopWaited k). split; [by apply bool_decide_eq_true_2|]. simpl. unfold stop_step.
      rewrite Hk. simpl. rewrite Es, Eh, Her. simpl. eauto.
Qed.

Lemma step_cancels l s s' c er :
  step l s = Some s' → ctx_err (σ s) c = Some er → ctx_err (σ s') c = Some er.
Proof.
  intros H Hc. assert (∀ x, σ (begin_once x) = σ x) as Hb
    by (intros x; unfold begin_once; by destruct (shutdownOnce x)).
  destruct l; unfold step, stop_step in H; try (apply bind_Some in H as (c0 & _ & H));
    repeat (first [case_match | case_bool_decide]; try done); simplify_eq/=; rewrite ?Hb; eauto with go.
  all: try (apply bind_Some in H as (? & _ & H)); unfold start_step, watch_step, library_step in *;
    repeat case_match; simplify_eq/=; rewrite ?Hb; eauto.
Qed.

(** C33: [Stop] returns once its context ends, even if no connection ever closes
    by itself.  From any reachable state where the context of the [k]th call of
    [Stop] has ended, along every further schedule, that call has returned or
    can make a step, it makes at most [stop_left] steps, and it never waits for
    a connection: cutting them is its own step. *)
Theorem stop_returns_after_deadline σ0 s k c ls s' :
  reach step (init σ0) s → stops s !! k = Some c → is_Some (ctx_err (σ s) (stop_ctx c)) →
  exec step ls s = Some s' →
  ∃ c', stops s' !! k = Some c' ∧ stop_ctx c' = stop_ctx c ∧
    (is_stopped c' ∨ ∃ l, own_label k l = true ∧ is_Some (step l s')) ∧
    (length (filter (λ l, own_label k l = true) ls) ≤ stop_left c (shutdownOnce s))%nat.
Proof.
  intros HI%serverLifecycle_reach_inv Hk [er Her] H.
  cut (∃ c', stops s' !! k = Some c' ∧ stop_ctx c' = stop_ctx c ∧ Inv s' ∧
    is_Some (ctx_err (σ s') (stop_ctx c)) ∧
    (length (filter (λ l, own_label k l = true) ls) + stop_left c' (shutdownOnce s') ≤
       stop_left c (shutdownOnce s))%nat).
  { intros (c' & Hk' & Hc & HI' & He & Hn). exists c'. split_and!; [done..| |lia].
    apply stop_progress; [done..|by rewrite Hc]. }
  revert s c HI Hk Her H. induction ls as [|l ls IH]; intros s c HI Hk Her H; simpl in H.
  { simplify_eq. exists c. split_and!; eauto. }
  apply bind_Some in H as (s1 & H1 & H2).
  destruct (stops_kept l s s1 k c H1 Hk) as (c1 & Hk1 & Hc1 & Hle).
  destruct (IH s1 c1) as (c' & Hk' & Hc' & HI' & He' & Hn); [by eapply serverLifecycle_step_inv|done| |done|].
  { rewrite Hc1. by eapply step_cancels. }
  exists c'. rewrite Hc1 in *. split_and!; [done..|].
  destruct (own_label k l) eqn:El.
  - rewrite filter_cons_True by done. simpl. lia.
  - rewrite filter_cons_False by (by rewrite El). lia.
Qed.
End server.

(** A gRPC server whose [Serve] fails returns nil from [Start]: nobody is told
    that it no longer serves. *)
Lemma grpc_serve_error_swallowed ctx er :
  ∃ s, exec (step grpc_server ctx) [LListen None; LServeReturns er; LWatchQuit; LStartReturns] (init []) = Some s ∧
    start s = Started None ∧ draining s = false ∧ forced s = false.
Proof. eexists. by split_and!. Qed.

(** ** Witnesses: a request is in flight when [Stop] is called with a context
    that then expires. *)
Definition ex_ctx : context := WithCancel Background 1.
Definition ex_stop : context := WithTimeout Background 2 Second.
Definition ex_http : flavour := http_server "0.0.0.0:8080".
Definition ex_pending : list label :=
  [LListen None; LAccept; LStop ex_stop; LStopBegin 0; LHelperOnce 0; LCancel ex_stop DeadlineExceeded].
Definition ex_forced : list label :=
  ex_pending ++ [LSelectCtx 0; LDrained; LHelperDone 0; LStopWaited 0; LServeReturns ErrEOF; LWatchQuit;
                 LStartReturns].
Definition ex_state (ls : list label) : state :=
  default (init []) (exec (step ex_http ex_ctx) ls (init [])).

Lemma graceful_shutdown_once_witness :
  let s := ex_state ex_forced in
  (shutdown_calls s ≤ 1)%nat ∧ (draining s = true ↔ shutdown_calls s = 1%nat) ∧
  (∀ c, c ∈ stops s → spc c = Stopped None → shutdown_calls s = 1%nat) ∧
  (draining s = true → step ex_http ex_ctx LAccept s = None) ∧
  accepted s = (active s + finished s + cut s)%nat.
Proof.
  apply (graceful_shutdown_once ex_http ex_ctx []). exists ex_forced. vm_compute. reflexivity.
Defined.

Lemma stop_result_witness :
  ∃ er, ctx_err (σ (ex_state ex_forced)) ex_stop = Some er ∧
    Wrap "http server stop" DeadlineExceeded = stop_error ex_http er ∧
    forced (ex_state ex_forced) = true ∧ active (ex_state ex_forced) = 0%nat.
Proof.
  apply (stop_result ex_http ex_ctx [] (ex_state ex_forced) 0
    (mkStop ex_stop (Stopped (Some (Wrap "http server stop" DeadlineExceeded))) ClosedDone)
    (Some (Wrap "http server stop" DeadlineExceeded))).
  - exists ex_forced. vm_compute. reflexivity.
  - vm_compute. reflexivity.
  - reflexivity.
Defined.

Lemma start_result_meaning_witness :
  (accepted (ex_state ex_forced) = 0%nat ∧ ∃ er, None = Some (listen_error ex_http er)) ∨
  (watch (ex_state ex_forced) = Gone ∧
   ((∃ er, None = start_result ex_http (Some er)) ∨
    (None = start_result ex_http (serve_closed ex_http) ∧
     (draining (ex_state ex_forced) = true ∨ forced (ex_state ex_forced) = true)))).
Proof.
  apply (start_result_meaning ex_http ex_ctx []).
  - exists ex_forced. vm_compute. reflexivity.
  - vm_compute. reflexivity.
Defined.

Lemma stop_returns_after_deadline_witness :
  ∃ c', stops (ex_state ex_pending) !! 0%nat = Some c' ∧ stop_ctx c' = ex_stop ∧
    (is_stopped c' ∨ ∃ l, own_label 0 l = true ∧ is_Some (step ex_http ex_ctx l (ex_state ex_pending))) ∧
    (0 ≤ stop_left (mkStop ex_stop Selecting HelperInOnce) Running)%nat.
Proof.
  apply (stop_returns_after_deadline ex_http ex_ctx [] (ex_state ex_pending) 0
    (mkStop ex_stop Selecting HelperInOnce) [] (ex_state ex_pending)).
  - exists ex_pending. vm_compute. reflexivity.
  - vm_compute. reflexivity.
  - exists DeadlineExceeded. vm_compute. reflexivity.
  - reflexivity.
Defined.
