(* ===== verification/HealthServer.v ===== *)
(** * healthserver: liveness and readiness

    Two endpoints served through an inner http/server: [handleHealthz] and
    [handleReadyz] are handlers in the sense of HttpServer, [mux] is the part of
    [http.ServeMux] that routes to them, and [serve_request] the whole way of a
    request through the inner server's middleware.  Probers run concurrently:
    what [handleReadyz] sees is their results in the order they finished.
    Theorem: what the endpoints answer. *)
From S2P Require Import Prelude Json Prom HttpServer.

(** ** Configuration *)

(** A prober by name; [registerer] and [logger] by name too, [None] when not set. *)
Record config : Type := mkConfig {
  c_port : Z;
  c_host : string;
  c_appName : string;
  c_registerer : option nat;
  probers : list nat;
}.

Definition Option : Type := config → config.
Definition WithProber (p : nat) : Option := λ c,
  mkConfig (c_port c) (c_host c) (c_appName c) (c_registerer c) (probers c ++ [p]).
Definition WithPort (p : Z) : Option := λ c,
  mkConfig p (c_host c) (c_appName c) (c_registerer c) (probers c).
Definition WithHost (h : string) : Option := λ c,
  mkConfig (c_port c) h (c_appName c) (c_registerer c) (probers c).
Definition WithAppName (n : string) : Option := λ c,
  mkConfig (c_port c) (c_host c) n (c_registerer c) (probers c).
Definition WithPrometheusRegisterer (r : nat) : Option := λ c,
  mkConfig (c_port c) (c_host c) (c_appName c) (Some r) (probers c).

(** The options [New] hands to the inner server: only what was set. *)
Definition httpOpts (c : config) : list HttpServer.Option :=
  (if decide (c_port c = 0) then [] else [HttpServer.WithPort (c_port c)]) ++
  (if decide (c_host c = "") then [] else [HttpServer.WithHost (c_host c)]) ++
  (if decide (c_appName c = "") then [] else [HttpServer.WithAppName (c_appName c)]).

(** The registerer the inner server uses: [0] is the default one. *)
Definition inner_registerer (c : config) : nat := default 0%nat (c_registerer c).

Definition New (opts : list Option) : list nat * HttpServer.Server :=
  let cfg := foldl (λ c opt, opt c) (mkConfig 0 "" "" None []) opts in
  (probers cfg, foldl (λ s opt, opt s) default_server (httpOpts cfg)).

(** ** Handlers *)

Definition status_body (st : string) : string := print (JObj [("status", JStr st)]).
(** [json.Marshal] of a map prints its keys in order. *)
Definition not_ready_body (errs : list string) : string :=
  print (JObj [("errors", JArr (JStr <$> errs)); ("status", JStr "not ready")]).

Definition handleHealthz : handler :=
  HSetHeader "Content-Type" "application/json"
    (HWriteHeader 200 (HWrite (status_body "ok") (λ _ _, HReturn))).

(** [results]: what the probers returned, in the order they finished. *)
Definition probe_errors (results : list (option goerr)) : list string :=
  omap (λ r, err_msg <$> r) results.

Definition handleReadyz (results : list (option goerr)) : handler :=
  let errs := probe_errors results in
  HSetHeader "Content-Type" "application/json"
    match errs with
    | [] => HWriteHeader 200 (HWrite (status_body "ready") (λ _ _, HReturn))
    | _ => HWriteHeader 503 (HWrite (not_ready_body errs) (λ _ _, HReturn))
    end.

(** [http.ServeMux] with the two patterns: a GET pattern matches HEAD too, other
    methods get 405 and other paths 404. *)
Definition not_found : handler :=
  HSetHeader "Content-Type" "text/plain; charset=utf-8"
    (HWriteHeader 404 (HWrite ("404 page not found" +:+ newline) (λ _ _, HReturn))).
Definition method_not_allowed : handler :=
  HSetHeader "Allow" "GET, HEAD"
    (HSetHeader "Content-Type" "text/plain; charset=utf-8"
       (HWriteHeader 405 (HWrite ("Method Not Allowed" +:+ newline) (λ _ _, HReturn)))).

Definition mux (results : list (option goerr)) (r : request) : handler :=
  let get := bool_decide (r_Method r = "GET") || bool_decide (r_Method r = "HEAD") in
  if decide (r_Path r = "/healthz") then
    if get then HSetPattern "GET /healthz" handleHealthz else method_not_allowed
  else if decide (r_Path r = "/readyz") then
    if get then HSetPattern "GET /readyz" (handleReadyz results) else method_not_allowed
  else not_found.

(** [Start] and [Stop] of the wrapper around those of the inner server. *)
Definition Start (inner : option goerr) : option goerr := Wrap "healthserver start" <$> inner.
Definition Stop (inner : option goerr) : option goerr := Wrap "healthserver stop" <$> inner.

Section serve.
Context (conn : nat → string → Z * option goerr).

Definition serve_request (s : Server) (results : list (option goerr)) (r : request) (dur : Z)
    (m : metrics) : responseWriter * metrics :=
  buildMiddleware conn (Some None) s (mux results) r dur fresh_net m.

Hypothesis conn_takes : ∀ n b, conn n b = (Z.of_nat (String.length b), None).

Lemma serve_json code body pattern r s dur m h :
  199 < code ≤ 999 → code ≠ 204 → code ≠ 304 → body ≠ "" →
  h r = HSetPattern pattern (HSetHeader "Content-Type" "application/json"
          (HWriteHeader code (HWrite body (λ _ _, HReturn)))) →
  let rw := (buildMiddleware conn (Some None) s h r dur fresh_net m).1 in
  client_status (under rw) = code ∧ u_body (under rw) = body ∧
  u_sent (under rw) !! "Content-Type" = Some "application/json" ∧ statusCode rw = code.
Proof.
  intros H1 H4 H5 Hb Hh. unfold buildMiddleware. rewrite Hh. simpl.
  unfold rw_WriteHeader, net_write_header. simpl.
  assert ((code <? 100) || (999 <? code) = false) as -> by (apply orb_false_iff; lia).
  assert ((code <=? 199) = false) as -> by lia. simpl.
  unfold rw_Write, net_write, body_allowed. simpl. rewrite (decide_False (P := body = "")) by done.
  assert ((200 <=? code) && negb (code =? 204) && negb (code =? 304) = true) as ->.
  { rewrite !andb_true_iff, !negb_true_iff. lia. }
  simpl. rewrite conn_takes. simpl. rewrite Nat2Z.id, substring_all. by rewrite lookup_insert_eq.
Qed.

(** The messages of the probers that failed. *)
Definition failures (probe : nat → option goerr) (ps : list nat) : list string :=
  omap (λ p, err_msg <$> probe p) ps.

Lemma probe_errors_nil results : probe_errors results = [] ↔ Forall (λ r, r = None) results.
Proof.
  induction results as [|[e|] results IH]; simpl; [by split|..].
  - split; [done|]. by intros [? _]%Forall_cons_1.
  - rewrite IH. split; [by constructor|]. by intros [_ ?]%Forall_cons_1.
Qed.

(** Readiness.  A GET of /readyz is answered, through the metrics middleware,
    with 200 exactly when every registered prober returns nil, and with 503
    otherwise; the body then lists the messages of the probers that failed,
    each once, in the order they finished.  The order never changes the
    status, and the status the metrics report is the one sent. *)
Theorem readyz_answers s ps probe results r dur m :
  results ≡ₚ (probe <$> ps) → r_Method r = "GET" → r_Path r = "/readyz" →
  let rw := (serve_request s results r dur m).1 in
  (client_status (under rw) = 200 ↔ ∀ p, p ∈ ps → probe p = None) ∧
  (client_status (under rw) = 200 ∨ client_status (under rw) = 503) ∧
  (client_status (under rw) = 503 →
     ∃ errs, u_body (under rw) = not_ready_body errs ∧ errs ≡ₚ failures probe ps) ∧
  statusCode rw = client_status (under rw).
Proof.
  intros Hres Hm Hp.
  assert (probe_errors results ≡ₚ failures probe ps) as Herrs.
  { unfold probe_errors, failures. rewrite Hres. clear. induction ps as [|p ps IH]; [done|]. simpl.
    destruct (probe p); simpl; [by constructor|done]. }
  assert (probe_errors results = [] ↔ ∀ p, p ∈ ps → probe p = None) as Hiff.
  { rewrite probe_errors_nil, Hres, Forall_fmap, Forall_forall. done. }
  destruct (probe_errors results) as [|e errs] eqn:E.
  - destruct (serve_json 200 (status_body "ready") "GET /readyz" r s dur m (mux results))
      as (Hst & Hb & _ & Hsc); try done; try lia.
    { unfold mux. rewrite Hm, Hp. simpl. unfold handleReadyz. by rewrite E. }
    unfold serve_request. rewrite Hst, Hsc. split_and!; [|by left|done..]. split; [|done]. intros _. by apply Hiff.
  - destruct (serve_json 503 (not_ready_body (e :: errs)) "GET /readyz" r s dur m (mux results))
      as (Hst & Hb & _ & Hsc); try done; try lia.
    { unfold mux. rewrite Hm, Hp. simpl. unfold handleReadyz. by rewrite E. }
    unfold serve_request. rewrite Hst, Hsc, Hb. split_and!; [|by right| |done].
    + split; [done|]. by intros H%Hiff.
    + intros _. by exists (e :: errs).
Qed.

(** Liveness does not depend on the probers. *)
Lemma healthz_answers s results r dur m :
  r_Method r = "GET" → r_Path r = "/healthz" →
  let rw := (serve_request s results r dur m).1 in
  client_status (under rw) = 200 ∧ u_body (under rw) = status_body "ok".
Proof.
  intros Hm Hp.
  destruct (serve_json 200 (status_body "ok") "GET /healthz" r s dur m (mux results))
    as (? & ? & _); try done; try lia.
  unfold mux. by rewrite Hm, Hp.
Qed.
End serve.

Definition ex_probe (p : nat) : option goerr :=
  if decide (p = 2%nat) then Some (Text "db down") else None.

Lemma readyz_answers_witness :
  let rw := (serve_request ex_conn ex_server [Some (Text "db down"); None]
               (mkRequest "GET" "" "/readyz") 1 no_metrics).1 in
  (client_status (under rw) = 200 ↔ ∀ p, p ∈ [1%nat; 2%nat] → ex_probe p = None) ∧
  (client_status (under rw) = 200 ∨ client_status (under rw) = 503) ∧
  (client_status (under rw) = 503 →
     ∃ errs, u_body (under rw) = not_ready_body errs ∧ errs ≡ₚ failures ex_probe [1%nat; 2%nat]) ∧
  statusCode rw = client_status (under rw).
Proof.
  apply (readyz_answers ex_conn ltac:(done)); [|done..]. apply perm_swap.
Defined.
