(* ===== verification/Grpc.v ===== *)
(** * grpc/server and grpc/client

    The configuration of the gRPC server (its lifecycle is in ServerLifecycle)
    and the client: [Start] opens a connection, [Stop] closes it under a
    deadline.  [grpc.NewClient] and [Close] are parameters.  Theorem: what the
    client's [Stop] does at every point of its life. *)
From S2P Require Import Prelude GoContext HttpServer.

(** ** Server configuration *)
Record Server : Type := mkServer {
  g_host : string;
  g_port : Z;
  srvOpts : list nat;                          (* gRPC server options, by name *)
}.

Definition Option : Type := Server → Server.
Definition WithHost (h : string) : Option := λ s, mkServer h (g_port s) (srvOpts s).
Definition WithPort (p : Z) : Option := λ s, mkServer (g_host s) p (srvOpts s).
Definition WithServerOptions (opts : list nat) : Option := λ s,
  mkServer (g_host s) (g_port s) (srvOpts s ++ opts).

(** The second component is what [grpclib.NewServer] is given. *)
Definition NewServer (opts : list Option) : Server * list nat :=
  let s := foldl (λ s opt, opt s) (mkServer "0.0.0.0" 9090 []) opts in (s, srvOpts s).

Definition Addr (s : Server) (listener : option string) : string :=
  match listener with Some a => a | None => JoinHostPort (g_host s) (g_port s) end.

(** ** Client *)
Record Client (Conn : Type) : Type := mkClient {
  target : string;
  dialOpts : list nat;
  conn : option Conn;
}.
Arguments mkClient {Conn}.
Arguments target {Conn}.
Arguments dialOpts {Conn}.
Arguments conn {Conn}.

Section client.
Context {W Conn : Type}.
(** [grpclib.NewClient(target, opts...)] and [conn.Close()]. *)
Context (dial : string → list nat → io W (res Conn)) (Close : Conn → io W (option goerr)).

Definition ClientOption : Type := Client Conn → Client Conn.
Definition WithDialOptions (opts : list nat) : ClientOption := λ c,
  mkClient (target c) (dialOpts c ++ opts) (conn c).
Definition NewClient (t : string) (opts : list ClientOption) : Client Conn :=
  foldl (λ c opt, opt c) (mkClient t [] None) opts.

(** [Start] up to the point where it only waits for its context: the error it
    returns at once, or the client it leaves connected; it then returns nil
    when the context ends. *)
Definition Start (c : Client Conn) : io W (res (Client Conn)) :=
  r ← dial (target c) (dialOpts c);
  mret (match r with
        | Err e => Err (Wrap "grpc client" e)
        | Ok x => Ok (mkClient (target c) (dialOpts c) (Some x))
        end).

(** [Stop]: [ended] is the error of the context if it ends before [Close]
    returns; [Close] was begun all the same. *)
Definition Stop (c : Client Conn) (ended : option goerr) : io W (option goerr) :=
  match conn c with
  | None => mret None
  | Some x =>
      r ← Close x;
      mret (Wrap "grpc client close" <$> match ended with Some e => Some e | None => r end)
  end.

Definition Conn_ (c : Client Conn) : option Conn := conn c.
End client.

Section client_props.
Context {W Conn : Type} (dial : string → list nat → io W (res Conn)) (Close : Conn → io W (option goerr)).

(** The client's connection is closed exactly when there is one.  Before
    [Start] has connected, [Stop] does nothing and returns nil; after it,
    [Stop] begins [Close] on that very connection whatever its context does,
    and returns nil exactly when [Close] succeeded before the context ended. *)
Theorem client_stop (c : Client Conn) ended w :
  match Start dial c w with
  | (Ok c', w') =>
      (Stop Close c' ended w').2 = match conn c' with Some x => (Close x w').2 | None => w' end ∧
      ((Stop Close c' ended w').1 = None ↔
         ended = None ∧ ∃ x, conn c' = Some x ∧ (Close x w').1 = None) ∧
      target c' = target c ∧ dial (target c) (dialOpts c) w = (default (Err (Text "")) (Ok <$> conn c'), w')
  | (Err e, w') => ∃ er, e = Wrap "grpc client" er ∧ dial (target c) (dialOpts c) w = (Err er, w')
  end ∧
  (conn c = None → Stop Close c ended w = (None, w)).
Proof.
  split; [|by unfold Stop; intros ->].
  unfold Start, mbind, io_bind. destruct (dial _ _ w) as [[x|er] w'] eqn:E; simpl; [|by exists er].
  unfold Stop, mbind, io_bind. simpl. destruct (Close x w') as [r w2] eqn:Ec. simpl.
  split_and!; [done| |done..]. destruct ended as [e|]; simpl.
  - split; [done|]. by intros [? _].
  - destruct r as [e|]; simpl; split; try done.
    + intros (_ & y & [= <-] & Hy). by rewrite Ec in Hy.
    + intros _. split; [done|]. exists x. by rewrite Ec.
Qed.
End client_props.
