(* ===== verification/KafkaNet.v ===== *)
(** * kafka: the dialer

    Transport security ([NewDialer], [saslMechanism]) and the connectivity
    [Probe] shared by the producer and the consumer.  The SCRAM constructor and
    the dial are parameters.  Theorem: when a dialer is built and with what. *)
From S2P Require Import Prelude.

Definition SASLPlain : string := "PLAIN".
Definition SASLScramSHA256 : string := "SCRAM-SHA-256".
Definition SASLScramSHA512 : string := "SCRAM-SHA-512".
Definition dialTimeout : Z := 10 * Second.

(** [TLS] is the [*tls.Config], by name; [None] is nil. *)
Record TLSSASLConfig : Type := mkTLSSASL {
  TLS : option nat;
  SASLUser : string;
  SASLPass : string;
  SASLMech : string;
}.

Inductive algorithm : Type := SHA256 | SHA512.
Inductive mechanism : Type :=
  | Plain (user pass : string)
  | Scram (alg : algorithm) (handle : nat).    (* what scram.Mechanism built *)

Record Dialer : Type := mkDialer {
  d_Timeout : Z;
  d_TLS : option nat;
  d_SASLMechanism : option mechanism;
}.

Section net.
(** [scram.Mechanism(alg, user, pass)]. *)
Context (scram_Mechanism : algorithm → string → string → res nat).

Definition unknown_mechanism (m : string) : goerr :=
  Text ("kafkanet: unknown SASL mechanism " +:+ m).

Definition saslMechanism (cfg : TLSSASLConfig) : res mechanism :=
  let m := SASLMech cfg in
  if decide (m = "" ∨ m = SASLPlain) then Ok (Plain (SASLUser cfg) (SASLPass cfg))
  else if decide (m = SASLScramSHA256) then
    match scram_Mechanism SHA256 (SASLUser cfg) (SASLPass cfg) with
    | Ok h => Ok (Scram SHA256 h)
    | Err e => Err (Wrap "kafkanet: scram-sha-256" e)
    end
  else if decide (m = SASLScramSHA512) then
    match scram_Mechanism SHA512 (SASLUser cfg) (SASLPass cfg) with
    | Ok h => Ok (Scram SHA512 h)
    | Err e => Err (Wrap "kafkanet: scram-sha-512" e)
    end
  else Err (unknown_mechanism m).

Definition NewDialer (cfg : TLSSASLConfig) : res Dialer :=
  let tls := TLS cfg in
  if decide (SASLUser cfg = "") then Ok (mkDialer dialTimeout tls None)
  else match saslMechanism cfg with
       | Err e => Err e
       | Ok mech => Ok (mkDialer dialTimeout tls (Some mech))
       end.

(** A dialer always carries the TLS configuration it was given, and
    authenticates exactly when a user is set, with the mechanism asked for and
    that user's credentials, PLAIN when none is named; without a user it is
    built whatever mechanism is named.  It is refused only when a user is set
    and the mechanism is unknown or SCRAM cannot be built. *)
Theorem dialer_security cfg :
  match NewDialer cfg with
  | Ok d =>
      d_TLS d = TLS cfg ∧ d_Timeout d = dialTimeout ∧
      (d_SASLMechanism d = None ↔ SASLUser cfg = "") ∧
      match d_SASLMechanism d with
      | None => True
      | Some (Plain u p) => u = SASLUser cfg ∧ p = SASLPass cfg ∧ (SASLMech cfg = "" ∨ SASLMech cfg = "PLAIN")
      | Some (Scram a h) =>
          scram_Mechanism a (SASLUser cfg) (SASLPass cfg) = Ok h ∧
          SASLMech cfg = match a with SHA256 => "SCRAM-SHA-256" | SHA512 => "SCRAM-SHA-512" end
      end
  | Err _ =>
      SASLUser cfg ≠ "" ∧ SASLMech cfg ∉ [""; "PLAIN"] ∧
      (SASLMech cfg ∉ ["SCRAM-SHA-256"; "SCRAM-SHA-512"] ∨
       ∃ a e, scram_Mechanism a (SASLUser cfg) (SASLPass cfg) = Err e)
  end.
Proof.
  unfold NewDialer, saslMechanism, SASLPlain, SASLScramSHA256, SASLScramSHA512.
  case_decide as Hu; simpl; [by split_and!|].
  case_decide as H1; simpl; [by split_and!|].
  assert (SASLMech cfg ∉ [""; "PLAIN"]) as Hn by set_solver.
  case_decide as H2; [|case_decide as H3].
  - destruct (scram_Mechanism SHA256 _ _) eqn:E; simpl; [by split_and!|].
    split_and!; [done..|]. right. by exists SHA256, e.
  - destruct (scram_Mechanism SHA512 _ _) eqn:E; simpl; [by split_and!|].
    split_and!; [done..|]. right. by exists SHA512, e.
  - split_and!; [done..|]. left. set_solver.
Qed.

(** ** Probe *)
Context {W Conn : Type} (DialContext : Dialer → string → io W (res Conn)) (CloseConn : Conn → io W unit).

Definition no_brokers : goerr := Text "kafkanet: no brokers configured".

Definition Probe (brokers : list string) (d : Dialer) : io W (option goerr) :=
  match brokers with
  | [] => mret (Some no_brokers)
  | b :: _ =>
      r ← DialContext d b;
      match r with
      | Err e => mret (Some (Wrap ("kafkanet: probe " +:+ b) e))
      | Ok c => CloseConn c;; mret None
      end
  end.

(** [Probe] asks the first broker only, and closes what it opened. *)
Lemma probe_first_broker b bs d w :
  Probe (b :: bs) d w =
  match DialContext d b w with
  | (Err e, w') => (Some (Wrap ("kafkanet: probe " +:+ b) e), w')
  | (Ok c, w') => (None, (CloseConn c w').2)
  end.
Proof.
  unfold Probe, mbind, io_bind. destruct (DialContext d b w) as [[c|e] w']; [|done].
  by destruct (CloseConn c w').
Qed.
End net.
