(* ===== verification/Managed.v ===== *)
(** * Managed resources

    What dbservice, redisservice and the Kafka components promise of the one
    resource they hold.  [connects] is the interface of one connection attempt:
    whatever it opens it returns or closes.  [managed] is the interface of
    [Stop]: the resource is closed the first time, and never again.  The
    client theorems are proved here against the interfaces, with [Retry.Do] in
    between; each service discharges them for its own code. *)
From S2P Require Import Prelude Retry.

(** ** One attempt *)
Section connects.
Context {W R : Type} (live : W → list R).

(** [live w]: the resources open in [w], the latest first. *)
Class connects (attempt : io W (res R)) : Prop := {
  connects_ok w r w' : attempt w = (Ok r, w') → live w' = r :: live w;
  connects_err w e w' : attempt w = (Err e, w') → live w' = live w;
}.

(** Waiting opens and closes nothing. *)
Class waits_only (select_wait : Z → io W (option goerr)) : Prop :=
  waits_only_live d w : live (select_wait d w).2 = live w.

(** Retrying leaves exactly the returned resource open, or none. *)
Lemma retry_connects oor attempt select_wait cfg :
  connects attempt → waits_only select_wait → connects (Do oor attempt select_wait cfg).
Proof.
  intros Ha Hw.
  assert (∀ w, match Do oor attempt select_wait cfg w with
    | (Ok r, w') => live w' = r :: live w | (Err _, w') => live w' = live w end) as H.
  { intros w. apply (Do_hoare attempt select_wait (λ w', live w' = live w)
      (λ r w', live w' = r :: live w)); [| |done].
    - intros w1 H1. destruct (attempt w1) as [[r|e] w2] eqn:E.
      + rewrite <-H1. by eapply connects_ok.
      + rewrite <-H1. by eapply connects_err.
    - intros d w1 <-. apply waits_only_live. }
  split; intros w r w' E; specialize (H w); by rewrite E in H.
Qed.
End connects.

(** ** Stopping *)

(** The operations of a service as its callers see them: the resource it holds,
    whether its [sync.Once] has run, and [Stop], given the error of the context
    if that ends first. *)
Record stoppable (W R S : Type) : Type := mkStoppable {
  resource : S → option R;
  once_done : S → bool;
  stop : option goerr → S → io W (S * option goerr);
}.
Arguments resource {W R S}.
Arguments once_done {W R S}.
Arguments stop {W R S}.

Section managed.
Context {W R S : Type} (close : R → W → W).

(** [close r w]: the world after the driver closed [r]; that is all a first
    [Stop] does to the world, and a later one does nothing. *)
Class managed (ops : stoppable W R S) : Prop := {
  stop_keeps ended s w : resource ops (stop ops ended s w).1.1 = resource ops s;
  stop_unconnected ended s w :
    resource ops s = None → stop ops ended s w = ((s, None), w);
  stop_first ended s w r :
    resource ops s = Some r → once_done ops s = false →
    once_done ops (stop ops ended s w).1.1 = true ∧ (stop ops ended s w).2 = close r w;
  stop_again ended s w :
    once_done ops s = true →
    once_done ops (stop ops ended s w).1.1 = true ∧ (stop ops ended s w).2 = w;
}.

(** Calling [Stop] again and again. *)
Fixpoint stop_all (ops : stoppable W R S) (calls : list (option goerr)) (s : S) : io W S :=
  match calls with
  | [] => mret s
  | ended :: calls => r ← stop ops ended s; stop_all ops calls r.1
  end.

Context (ops : stoppable W R S) `{Hm : !managed ops}.

Lemma stop_all_unconnected calls s w :
  resource ops s = None → stop_all ops calls s w = (s, w).
Proof.
  intros Hr. revert w. induction calls as [|ended calls IH]; intros w; simpl; [done|].
  unfold mbind, io_bind. rewrite stop_unconnected by done. apply IH.
Qed.

Lemma stop_all_again calls s w :
  once_done ops s = true → (stop_all ops calls s w).2 = w.
Proof.
  revert s w. induction calls as [|ended calls IH]; intros s w Hd; simpl; [done|].
  unfold mbind, io_bind. destruct (stop_again ended s w Hd) as [Hd' Hc].
  destruct (stop ops ended s w) as [[s' err] w'] eqn:E. simpl in *. by rewrite IH, Hc.
Qed.

Lemma stop_all_done calls s w r :
  resource ops s = Some r → once_done ops s = true ∨ calls ≠ [] →
  once_done ops (stop_all ops calls s w).1 = true.
Proof.
  revert s w. induction calls as [|ended calls IH]; intros s w Hr Hd; simpl; [by destruct Hd|].
  unfold mbind, io_bind. pose proof (stop_keeps ended s w) as Hk.
  assert (once_done ops (stop ops ended s w).1.1 = true) as Hd'.
  { destruct (once_done ops s) eqn:E; [by apply stop_again|by eapply stop_first]. }
  destruct (stop ops ended s w) as [[s' err] w'] eqn:E. simpl in *. apply IH; [congruence|by left].
Qed.

(** However often [Stop] is called, the resource is closed once. *)
Lemma stop_all_once calls s w r :
  resource ops s = Some r → once_done ops s = false → calls ≠ [] →
  (stop_all ops calls s w).2 = close r w.
Proof.
  intros Hr Hd Hne. destruct calls as [|ended calls]; [done|]. simpl. unfold mbind, io_bind.
  destruct (stop_first ended s w r Hr Hd) as [Hd' Hc].
  destruct (stop ops ended s w) as [[s' err] w'] eqn:E. simpl in *. by rewrite stop_all_again, Hc.
Qed.
End managed.
