(* ===== verification/DbService.v ===== *)
(** * dbservice: a managed PostgreSQL pool

    [Start] connects with retries and registers the metrics, [poll] samples the
    pool, [Stop] closes it, [Probe] pings it.  pgxpool is a parameter over an
    arbitrary world; [pgx] states what it documents.  Theorems: no pool is
    leaked on any path of [Start], [Stop] closes the pool exactly once, and
    what [Probe] answers. *)
From Stdlib Require Import SpecFloat.
From S2P Require Import Prelude Prom Retry Managed.

(** A parsed DSN by name, with the two settings the service overwrites. *)
Record PoolConfig : Type := mkPoolConfig { base : nat; MaxConns : Z; MinConns : Z }.

Record stat : Type := mkStat {
  TotalConns : Z;
  IdleConns : Z;
  AcquiredConns : Z;
  ConstructingConns : Z;
  StatMaxConns : Z;
  AcquireCount : Z;
}.

Record Service (R : Type) : Type := mkService {
  dsn : string;
  maxConns : Z;
  minConns : Z;
  appName : string;
  retry : Config;
  metricsInterval : Z;
  pool : option R;
  shutdownOnce : bool;
}.
Arguments mkService {R}.
Arguments dsn {R}.
Arguments maxConns {R}.
Arguments minConns {R}.
Arguments appName {R}.
Arguments retry {R}.
Arguments metricsInterval {R}.
Arguments pool {R}.
Arguments shutdownOnce {R}.

Definition metric_collectors (o : nat) : list collector :=
  [mkCollector GaugeVec "db_pool_conns" ["db_service"; "state"] o;
   mkCollector GaugeVec "db_pool_max_conns" ["db_service"] o;
   mkCollector GaugeVec "db_pool_acquire_count" ["db_service"] o;
   mkCollector HistogramVec "db_probe_duration_seconds" ["db_service"] o].

Section db.
Context {W R : Type}.
Context (ParseConfig : string → res nat) (NewWithConfig : PoolConfig → io W (res R))
  (Ping : R → io W (option goerr)) (Close : R → io W unit).
Context (select_wait : Z → io W (option goerr)) (conv_out_of_range : spec_float → Z).
Context (Register : collector → io W (option reg_error)).

Definition Option : Type := Service R → Service R.
Definition WithMaxConns (n : Z) : Option := λ s,
  mkService (dsn s) n (minConns s) (appName s) (retry s) (metricsInterval s) (pool s) (shutdownOnce s).
Definition WithMinConns (n : Z) : Option := λ s,
  mkService (dsn s) (maxConns s) n (appName s) (retry s) (metricsInterval s) (pool s) (shutdownOnce s).
Definition WithRetry (cfg : Config) : Option := λ s,
  mkService (dsn s) (maxConns s) (minConns s) (appName s) cfg (metricsInterval s) (pool s) (shutdownOnce s).
Definition WithMetricsInterval (d : Z) : Option := λ s,
  mkService (dsn s) (maxConns s) (minConns s) (appName s) (retry s) d (pool s) (shutdownOnce s).
Definition WithAppName (n : string) : Option := λ s,
  mkService (dsn s) (maxConns s) (minConns s) n (retry s) (metricsInterval s) (pool s) (shutdownOnce s).

Definition New (d : string) (opts : list Option) : Service R :=
  foldl (λ s opt, opt s) (mkService d 10 2 "" DefaultConfig (15 * Second) None false) opts.

Definition initMetrics (o : nat) : io W (outcome (list collector)) :=
  register_all Register (metric_collectors o).

Definition connectOnce (cfg : PoolConfig) : io W (res R) :=
  r ← NewWithConfig cfg;
  match r with
  | Err e => mret (Err (Wrap "dbservice: create pool" e))
  | Ok p =>
      err ← Ping p;
      match err with
      | Some e => Close p;; mret (Err (Wrap "dbservice: ping" e))
      | None => mret (Ok p)
      end
  end.

Definition set_pool (p : R) (s : Service R) : Service R :=
  mkService (dsn s) (maxConns s) (minConns s) (appName s) (retry s) (metricsInterval s)
    (Some p) (shutdownOnce s).

(** [Start] up to its polling loop: the error it returns, or the service
    connected; registering the metrics may panic. *)
Definition Start (o : nat) (s : Service R) : io W (outcome (res (Service R))) :=
  match ParseConfig (dsn s) with
  | Err e => mret (Ret (Err (Wrap "dbservice: parse dsn" e)))
  | Ok b =>
      let cfg := mkPoolConfig b (maxConns s) (minConns s) in
      r ← Do conv_out_of_range (connectOnce cfg) select_wait (retry s);
      match r with
      | Err e => mret (Ret (Err (Wrap "dbservice: connect" e)))
      | Ok p =>
          m ← initMetrics o;
          mret (match m with Panics v => Panics v | Ret _ => Ret (Ok (set_pool p s)) end)
      end
  end.

(** A tick of the polling loop, which ends with the context. *)
Definition poll (st : stat) (s : Service R) (m : metrics) : metrics :=
  let m := set_value ("db_pool_conns", [appName s; "total"]) (TotalConns st) m in
  let m := set_value ("db_pool_conns", [appName s; "idle"]) (IdleConns st) m in
  let m := set_value ("db_pool_conns", [appName s; "acquired"]) (AcquiredConns st) m in
  let m := set_value ("db_pool_conns", [appName s; "constructing"]) (ConstructingConns st) m in
  let m := set_value ("db_pool_max_conns", [appName s]) (StatMaxConns st) m in
  set_value ("db_pool_acquire_count", [appName s]) (AcquireCount st) m.

(** [Stop]: [ended] is the context's error when it ends before [Close] returns;
    the close goes on all the same. *)
Definition Stop (ended : option goerr) (s : Service R) : io W (Service R * option goerr) :=
  match pool s with
  | None => mret (s, None)
  | Some p =>
      (if shutdownOnce s then mret tt else Close p);;
      mret (mkService (dsn s) (maxConns s) (minConns s) (appName s) (retry s) (metricsInterval s)
              (pool s) true,
            Wrap "dbservice: stop" <$> ended)
  end.

Definition not_connected : goerr := Text "dbservice: not connected".

Definition Probe (dur : Z) (s : Service R) (m : metrics) : io W (option goerr * metrics) :=
  match pool s with
  | None => mret (Some not_connected, m)
  | Some p =>
      err ← Ping p;
      mret (Wrap "dbservice: probe" <$> err, observe ("db_probe_duration_seconds", [appName s]) dur m)
  end.

Definition stop_ops : stoppable W R (Service R) := mkStoppable _ _ _ pool shutdownOnce Stop.

(** ** The driver *)
Context (live : W → list R).

(** [live w]: the pools open in [w]. *)
Class pgx : Prop := {
  new_ok cfg w p w' : NewWithConfig cfg w = (Ok p, w') → live w' = p :: live w;
  new_err cfg w e w' : NewWithConfig cfg w = (Err e, w') → live w' = live w;
  ping_live p w : live (Ping p w).2 = live w;
  close_live p l w : live w = p :: l → live (Close p w).2 = l;
  register_live c w : live (Register c w).2 = live w;
}.

Context `{Hpgx : pgx} `{Hwait : !waits_only live select_wait}.

#[export] Instance connectOnce_connects cfg : connects live (connectOnce cfg).
Proof.
  split; intros w r w'; unfold connectOnce, mbind, io_bind, mret, io_ret;
    destruct (NewWithConfig cfg w) as [[p|e] w1] eqn:E; intros H; simplify_eq.
  - pose proof (ping_live p w1). destruct (Ping p w1) as [[e|] w2]; simpl in *.
    + destruct (Close p w2). simplify_eq.
    + simplify_eq/=. apply new_ok in E. congruence.
  - pose proof (ping_live p w1) as Hp. apply new_ok in E. destruct (Ping p w1) as [[e|] w2]; simpl in *.
    + pose proof (close_live p (live w) w2 ltac:(congruence)) as Hc.
      destruct (Close p w2). by simplify_eq/=.
    + simplify_eq.
  - by eapply new_err.
Qed.

#[export] Instance stop_managed : managed (λ p w, (Close p w).2) stop_ops.
Proof.
  split; intros ended s w; simpl; unfold Stop, mbind, io_bind.
  - destruct (pool s) eqn:E; [|done]. destruct (shutdownOnce s); simpl; [done|]. by destruct (Close r w).
  - by intros ->.
  - intros r -> ->. by destruct (Close r w).
  - intros H. destruct (pool s); rewrite ?H; done.
Qed.

(** No pool is leaked.  When [Start] returns an error, after however many
    attempts, every pool it opened has been closed again; when it connects,
    exactly one new pool is open and it is the one the service holds.  [Stop]
    then closes it exactly once however often it is called and whatever its
    contexts do, which leaves open what was open before [Start]; called
    without a connection it does nothing and returns nil. *)
Theorem pool_lifecycle o s w :
  shutdownOnce s = false →
  match Start o s w with
  | (Ret (Err e), w') => live w' = live w
  | (Ret (Ok s'), w') =>
      ∃ p, pool s' = Some p ∧ live w' = p :: live w ∧
        ∀ calls, calls ≠ [] →
          (stop_all stop_ops calls s' w').2 = (Close p w').2 ∧
          live (stop_all stop_ops calls s' w').2 = live w
  | (Panics v, w') => ∃ p, live w' = p :: live w
  end ∧
  (pool s = None → ∀ calls, stop_all stop_ops calls s w = (s, w)).
Proof.
  intros Hs. split.
  2:{ intros Hp calls. by apply (stop_all_unconnected (λ p w, (Close p w).2) stop_ops). }
  unfold Start. destruct (ParseConfig (dsn s)) as [b|e]; [|done]. unfold mbind, io_bind.
  set (cfg := mkPoolConfig b (maxConns s) (minConns s)).
  pose proof (retry_connects live conv_out_of_range (connectOnce cfg) select_wait (retry s) _ _)
    as [Hok Herr].
  destruct (Do _ _ _ _ w) as [[p|e] w1] eqn:E; [|by apply Herr in E].
  apply Hok in E.
  pose proof (register_all_keeps Register live (metric_collectors o) w1 register_live) as Hr.
  unfold initMetrics. destruct (register_all _ _ w1) as [[cs|v] w2]; simpl in *; rewrite E in Hr; [|by eexists].
  exists p. split_and!; [done..|]. intros calls Hne.
  pose proof (stop_all_once (λ p w, (Close p w).2) stop_ops calls (set_pool p s) w2 p eq_refl Hs Hne) as H.
  rewrite H. split; [done|]. by apply close_live.
Qed.

(** [Probe] reports the ping, and fails before the service is connected. *)
Lemma dbService_probe_result dur s m w :
  match pool s with
  | None => Probe dur s m w = ((Some not_connected, m), w)
  | Some p =>
      ((Probe dur s m w).1.1 = None ↔ (Ping p w).1 = None) ∧ (Probe dur s m w).2 = (Ping p w).2
  end.
Proof.
  unfold Probe, mbind, io_bind. destruct (pool s) as [p|]; [|done].
  destruct (Ping p w) as [[e|] w']; simpl; split; done.
Qed.
End db.

(** ** Witness: a driver whose first pool does not answer. *)
Module Example_driver.
Record world : Type := mkWorld { opened : nat; alive : list nat }.
Definition new (_ : PoolConfig) : io world (res nat) := λ w,
  (Ok (opened w), mkWorld (S (opened w)) (opened w :: alive w)).
Definition ping (p : nat) : io world (option goerr) := λ w,
  (if decide (p = 0%nat) then Some (Text "connection refused") else None, w).
Definition close (p : nat) : io world unit := λ w,
  (tt, mkWorld (opened w) (match alive w with q :: l => if decide (p = q) then l else q :: l | [] => [] end)).
Definition wait (_ : Z) : io world (option goerr) := λ w, (None, w).
Definition reg (_ : collector) : io world (option reg_error) := λ w, (None, w).
Definition parse (_ : string) : res nat := Ok 7%nat.

#[global] Instance driver_pgx : pgx new ping close reg alive.
Proof.
  split; try done.
  - intros cfg w p w' [= <- <-]. done.
  - intros p l w H. simpl. rewrite H. by rewrite decide_True.
Qed.
#[global] Instance wait_only : waits_only alive wait.
Proof. done. Qed.
End Example_driver.

Lemma pool_lifecycle_witness :
  let s := New "postgres://" [] in
  let w := Example_driver.mkWorld 0 [] in
  match Start Example_driver.parse Example_driver.new Example_driver.ping Example_driver.close
          Example_driver.wait no_oor Example_driver.reg 1 s w with
  | (Ret (Err e), w') => Example_driver.alive w' = []
  | (Ret (Ok s'), w') =>
      ∃ p, pool s' = Some p ∧ Example_driver.alive w' = [p] ∧
        ∀ calls, calls ≠ [] →
          (stop_all (stop_ops Example_driver.close) calls s' w').2 = (Example_driver.close p w').2 ∧
          Example_driver.alive (stop_all (stop_ops Example_driver.close) calls s' w').2 = []
  | (Panics v, w') => ∃ p, Example_driver.alive w' = [p]
  end.
Proof.
  exact (proj1 (pool_lifecycle Example_driver.parse Example_driver.new Example_driver.ping Example_driver.close
    Example_driver.wait no_oor Example_driver.reg Example_driver.alive 1 (New "postgres://" [])
    (Example_driver.mkWorld 0 []) eq_refl)).
Defined.
