(* ===== verification/RedisService.v ===== *)
(** * redisservice: a managed Redis client

    As dbservice, with go-redis as the driver: a client is made without an
    error, and closing one may fail.  Theorems: no client is leaked on any path
    of [Start] (even when closing fails, whose error is then reported beside
    the ping's), [Stop] closes the client exactly once, and what [Probe]
    answers. *)
From Stdlib Require Import SpecFloat.
From S2P Require Import Prelude Prom Retry Managed.

(** Parsed options: by name, with the pool size; 0 is go-redis's default. *)
Record Options : Type := mkOptions { base : nat; PoolSize : Z }.

Record stats : Type := mkStats { TotalConns : Z; IdleConns : Z; Hits : Z; Misses : Z }.

Record Service (R : Type) : Type := mkService {
  dsn : string;
  poolSize : Z;
  appName : string;
  retry : Config;
  metricsInterval : Z;
  client : option R;
  shutdownOnce : bool;
}.
Arguments mkService {R}.
Arguments dsn {R}.
Arguments poolSize {R}.
Arguments appName {R}.
Arguments retry {R}.
Arguments metricsInterval {R}.
Arguments client {R}.
Arguments shutdownOnce {R}.

Definition metric_collectors (o : nat) : list collector :=
  [mkCollector GaugeVec "redis_pool_conns" ["redis_service"; "state"] o;
   mkCollector GaugeVec "redis_pool_hits" ["redis_service"] o;
   mkCollector GaugeVec "redis_pool_misses" ["redis_service"] o;
   mkCollector HistogramVec "redis_probe_duration_seconds" ["redis_service"] o].

Section redis.
Context {W R : Type}.
Context (ParseURL : string → res Options) (NewClient : Options → io W R)
  (Ping : R → io W (option goerr)) (Close : R → io W (option goerr)).
Context (select_wait : Z → io W (option goerr)) (conv_out_of_range : spec_float → Z).
Context (Register : collector → io W (option reg_error)).

Definition Option : Type := Service R → Service R.
Definition WithPoolSize (n : Z) : Option := λ s,
  mkService (dsn s) n (appName s) (retry s) (metricsInterval s) (client s) (shutdownOnce s).
Definition WithRetry (cfg : Config) : Option := λ s,
  mkService (dsn s) (poolSize s) (appName s) cfg (metricsInterval s) (client s) (shutdownOnce s).
Definition WithMetricsInterval (d : Z) : Option := λ s,
  mkService (dsn s) (poolSize s) (appName s) (retry s) d (client s) (shutdownOnce s).
Definition WithAppName (n : string) : Option := λ s,
  mkService (dsn s) (poolSize s) n (retry s) (metricsInterval s) (client s) (shutdownOnce s).

Definition New (d : string) (opts : list Option) : Service R :=
  foldl (λ s opt, opt s) (mkService d 0 "" DefaultConfig (15 * Second) None false) opts.

Definition initMetrics (o : nat) : io W (outcome (list collector)) :=
  register_all Register (metric_collectors o).

Definition connectOnce (opts : Options) : io W (res R) :=
  c ← NewClient opts;
  errPing ← Ping c;
  match errPing with
  | None => mret (Ok c)
  | Some e =>
      errClose ← Close c;
      mret (match errClose with
            | Some ec => Err (Wrap2 "redisservice: ping" e "close" ec)
            | None => Err (Wrap "redisservice: ping" e)
            end)
  end.

Definition set_client (c : R) (s : Service R) : Service R :=
  mkService (dsn s) (poolSize s) (appName s) (retry s) (metricsInterval s) (Some c) (shutdownOnce s).

(** [Start] up to its polling loop. *)
Definition Start (o : nat) (s : Service R) : io W (outcome (res (Service R))) :=
  match ParseURL (dsn s) with
  | Err e => mret (Ret (Err (Wrap "redisservice: parse dsn" e)))
  | Ok opts =>
      let opts := if 0 <? poolSize s then mkOptions (base opts) (poolSize s) else opts in
      r ← Do conv_out_of_range (connectOnce opts) select_wait (retry s);
      match r with
      | Err e => mret (Ret (Err (Wrap "redisservice: connect" e)))
      | Ok c =>
          m ← initMetrics o;
          mret (match m with Panics v => Panics v | Ret _ => Ret (Ok (set_client c s)) end)
      end
  end.

Definition poll (st : stats) (s : Service R) (m : metrics) : metrics :=
  let m := set_value ("redis_pool_conns", [appName s; "total"]) (TotalConns st) m in
  let m := set_value ("redis_pool_conns", [appName s; "idle"]) (IdleConns st) m in
  let m := set_value ("redis_pool_hits", [appName s]) (Hits st) m in
  set_value ("redis_pool_misses", [appName s]) (Misses st) m.

(** [Stop] ignores its context. *)
Definition Stop (ended : option goerr) (s : Service R) : io W (Service R * option goerr) :=
  match client s with
  | None => mret (s, None)
  | Some c =>
      errClose ← (if shutdownOnce s then mret None
                  else err ← Close c; mret (Wrap "redisservice: stop" <$> err));
      mret (mkService (dsn s) (poolSize s) (appName s) (retry s) (metricsInterval s) (client s) true,
            errClose)
  end.

Definition not_connected : goerr := Text "redisservice: not connected".

Definition Probe (dur : Z) (s : Service R) (m : metrics) : io W (option goerr * metrics) :=
  match client s with
  | None => mret (Some not_connected, m)
  | Some c =>
      err ← Ping c;
      mret (Wrap "redisservice: probe" <$> err,
            observe ("redis_probe_duration_seconds", [appName s]) dur m)
  end.

Definition stop_ops : stoppable W R (Service R) := mkStoppable _ _ _ client shutdownOnce Stop.

(** ** The driver *)
Context (live : W → list R).

(** [live w]: the clients open in [w]; [Close] closes even when it reports an
    error. *)
Class go_redis : Prop := {
  new_live opts w : live (NewClient opts w).2 = (NewClient opts w).1 :: live w;
  ping_live c w : live (Ping c w).2 = live w;
  close_live c l w : live w = c :: l → live (Close c w).2 = l;
  register_live c w : live (Register c w).2 = live w;
}.

Context `{Hredis : go_redis} `{Hwait : !waits_only live select_wait}.

#[export] Instance connectOnce_connects opts : connects live (connectOnce opts).
Proof.
  split; intros w r w'; unfold connectOnce, mbind, io_bind, mret, io_ret;
    pose proof (new_live opts w) as Hn; destruct (NewClient opts w) as [c w1];
    pose proof (ping_live c w1) as Hp; destruct (Ping c w1) as [[e|] w2]; simpl in *; intros H; simplify_eq.
  - destruct (Close c w2) as [[ec|] w3]; simplify_eq.
  - congruence.
  - pose proof (close_live c (live w) w2 ltac:(congruence)) as Hc.
    destruct (Close c w2) as [[ec|] w3]; by simplify_eq/=.
Qed.

#[export] Instance stop_managed : managed (λ c w, (Close c w).2) stop_ops.
Proof.
  split; intros ended s w; simpl; unfold Stop, mbind, io_bind.
  - destruct (client s) eqn:E; [|done]. destruct (shutdownOnce s); simpl; [done|]. by destruct (Close r w).
  - by intros ->.
  - intros r -> ->. by destruct (Close r w).
  - intros H. destruct (client s); rewrite ?H; done.
Qed.

(** No client is leaked.  When [Start] returns an error, every client its
    attempts made has been closed; when it connects, exactly one is open and
    the service holds it; however often [Stop] is then called it is closed
    exactly once, and only the first call can return the error of closing.
    Without a connection [Stop] does nothing. *)
Theorem client_lifecycle o s w :
  shutdownOnce s = false →
  match Start o s w with
  | (Ret (Err e), w') => live w' = live w
  | (Ret (Ok s'), w') =>
      ∃ c, client s' = Some c ∧ live w' = c :: live w ∧
        (Stop None s' w').1.2 = (Wrap "redisservice: stop" <$> (Close c w').1) ∧
        ∀ calls, calls ≠ [] →
          (stop_all stop_ops calls s' w').2 = (Close c w').2 ∧
          live (stop_all stop_ops calls s' w').2 = live w ∧
          ∀ ended w2, (Stop ended (stop_all stop_ops calls s' w').1 w2).1.2 = None
  | (Panics v, w') => ∃ c, live w' = c :: live w
  end ∧
  (client s = None → ∀ calls, stop_all stop_ops calls s w = (s, w)).
Proof.
  intros Hs. split.
  2:{ intros Hp calls. by apply (stop_all_unconnected (λ p w, (Close p w).2) stop_ops). }
  unfold Start. destruct (ParseURL (dsn s)) as [opts|e]; [|done]. unfold mbind, io_bind.
  set (opts' := if 0 <? poolSize s then _ else _).
  pose proof (retry_connects live conv_out_of_range (connectOnce opts') select_wait (retry s) _ _)
    as [Hok Herr].
  destruct (Do _ _ _ _ w) as [[c|e] w1] eqn:E; [|by apply Herr in E]. apply Hok in E.
  pose proof (register_all_keeps Register live (metric_collectors o) w1 register_live) as Hr.
  unfold initMetrics. destruct (register_all _ _ w1) as [[cs|v] w2]; simpl in *; rewrite E in Hr; [|by eexists].
  exists c. split_and!; [done..| |].
  { unfold Stop, mbind, io_bind. simpl. rewrite Hs. by destruct (Close c w2). }
  intros calls Hne.
  pose proof (stop_all_once (λ p w, (Close p w).2) stop_ops calls (set_client c s) w2 c eq_refl Hs Hne) as H.
  rewrite H. split_and!; [done|by apply close_live|]. intros ended w3.
  pose proof (stop_all_done (λ p w, (Close p w).2) stop_ops calls (set_client c s) w2 c eq_refl
    (or_intror Hne)) as Hd.
  unfold Stop, mbind, io_bind. destruct (client _); [|done]. simpl in Hd. by rewrite Hd.
Qed.

Lemma redisService_probe_result dur s m w :
  match client s with
  | None => Probe dur s m w = ((Some not_connected, m), w)
  | Some c =>
      ((Probe dur s m w).1.1 = None ↔ (Ping c w).1 = None) ∧ (Probe dur s m w).2 = (Ping c w).2
  end.
Proof.
  unfold Probe, mbind, io_bind. destruct (client s) as [c|]; [|done].
  destruct (Ping c w) as [[e|] w']; simpl; split; done.
Qed.
End redis.

(** ** Witness: the first client does not answer, and closing it fails. *)
Module Example_driver.
Record world : Type := mkWorld { opened : nat; alive : list nat }.
Definition parse (_ : string) : res Options := Ok (mkOptions 7 10).
Definition new (_ : Options) : io world nat := λ w,
  (opened w, mkWorld (S (opened w)) (opened w :: alive w)).
Definition ping (p : nat) : io world (option goerr) := λ w,
  (if decide (p = 0%nat) then Some (Text "connection refused") else None, w).
Definition close (p : nat) : io world (option goerr) := λ w,
  (if decide (p = 0%nat) then Some ErrClosedPipe else None,
   mkWorld (opened w) (match alive w with q :: l => if decide (p = q) then l else q :: l | [] => [] end)).
Definition wait (_ : Z) : io world (option goerr) := λ w, (None, w).
Definition reg (_ : collector) : io world (option reg_error) := λ w, (None, w).

#[global] Instance driver_redis : go_redis new ping close reg alive.
Proof.
  split; try done. intros p l w H. simpl. rewrite H. by rewrite decide_True.
Qed.
#[global] Instance wait_only : waits_only alive wait.
Proof. done. Qed.
End Example_driver.

Lemma client_lifecycle_witness :
  let s := New "redis://" [] in
  let w := Example_driver.mkWorld 0 [] in
  match Start Example_driver.parse Example_driver.new Example_driver.ping Example_driver.close
          Example_driver.wait no_oor Example_driver.reg 1 s w with
  | (Ret (Err e), w') => Example_driver.alive w' = []
  | (Ret (Ok s'), w') =>
      ∃ c, client s' = Some c ∧ Example_driver.alive w' = [c] ∧
        (Stop Example_driver.close None s' w').1.2 =
          (Wrap "redisservice: stop" <$> (Example_driver.close c w').1) ∧
        ∀ calls, calls ≠ [] →
          (stop_all (stop_ops Example_driver.close) calls s' w').2 = (Example_driver.close c w').2 ∧
          Example_driver.alive (stop_all (stop_ops Example_driver.close) calls s' w').2 = [] ∧
          ∀ ended w2, (Stop Example_driver.close ended
             (stop_all (stop_ops Example_driver.close) calls s' w').1 w2).1.2 = None
  | (Panics v, w') => ∃ c, Example_driver.alive w' = [c]
  end.
Proof.
  exact (proj1 (client_lifecycle Example_driver.parse Example_driver.new Example_driver.ping
    Example_driver.close Example_driver.wait no_oor Example_driver.reg Example_driver.alive 1
    (New "redis://" []) (Example_driver.mkWorld 0 []) eq_refl)).
Defined.
