(* ===== verification/Producer.v ===== *)
(** * kafka/producer

    [Produce] and [ProduceBatch] over a kafka-go writer, and the life of the
    producer around them.  The writer's [WriteMessages] and [Close], the broker
    dial and the registry are parameters over an arbitrary world.  A Go slice
    that may be nil is an [option]; headers are a Go map, so the order of the
    header list is whatever the range over the map gives ([iterate]).
    Theorems: what a call writes, returns and counts, the batch being all or
    nothing and counted per topic, and when [Stop] closes the writer. *)
From Stdlib Require Import SpecFloat.
From S2P Require Import Prelude Prom Retry KafkaNet Managed.

(** [Compression] is a string type; the codec is what it becomes. *)
Definition CompressionNone : string := "".
Definition CompressionGzip : string := "gzip".
Definition CompressionSnappy : string := "snappy".
Definition CompressionLz4 : string := "lz4".
Definition CompressionZstd : string := "zstd".
Inductive codec : Type := NoCodec | Gzip | Snappy | Lz4 | Zstd.

Record Message : Type := mkMessage {
  Topic : string;
  Key : option string;
  Value : option string;
  Headers : gmap string string;
}.

(** [kafka.Message] as far as it is filled in. *)
Record kmessage : Type := mkK {
  k_Topic : string;
  k_Key : option string;
  k_Value : option string;
  k_Headers : option (list (string * string));
}.

(** [kafka.Writer] as [Start] configures it. *)
Record Writer : Type := mkWriter {
  w_Addr : list string;
  w_Compression : codec;
  w_TLS : option nat;
  w_SASL : option mechanism;
  w_WriteTimeout : option Z;                   (* [None] keeps the default *)
  w_MaxAttempts : option Z;
}.

Record Producer : Type := mkProducer {
  brokers : list string;
  appName : string;
  tlsCfg : TLSSASLConfig;
  retry : Config;
  compression : string;
  writeTimeout : Z;
  maxAttempts : Z;
  writer : option Writer;
  started : bool;
  closeOnce : bool;
}.

Definition metric_collectors (o : nat) : list collector :=
  [mkCollector CounterVec "kafka_produce_messages_total" ["kafka_service"; "topic"] o;
   mkCollector CounterVec "kafka_produce_errors_total" ["kafka_service"; "topic"] o;
   mkCollector HistogramVec "kafka_produce_duration_seconds" ["kafka_service"; "topic"] o].

(** ** Configuration *)
Definition Option : Type := Producer → Producer.
Definition set_tls (c : TLSSASLConfig) (p : Producer) : Producer :=
  mkProducer (brokers p) (appName p) c (retry p) (compression p) (writeTimeout p) (maxAttempts p)
    (writer p) (started p) (closeOnce p).
Definition WithTLS (t : option nat) : Option := λ p,
  let c := tlsCfg p in set_tls (mkTLSSASL t (SASLUser c) (SASLPass c) (SASLMech c)) p.
Definition WithSASL (user pass : string) : Option := λ p,
  let c := tlsCfg p in set_tls (mkTLSSASL (TLS c) user pass (SASLMech c)) p.
Definition WithSASLMechanism (m : string) : Option := λ p,
  let c := tlsCfg p in set_tls (mkTLSSASL (TLS c) (SASLUser c) (SASLPass c) m) p.
Definition WithRetry (cfg : Config) : Option := λ p,
  mkProducer (brokers p) (appName p) (tlsCfg p) cfg (compression p) (writeTimeout p) (maxAttempts p)
    (writer p) (started p) (closeOnce p).
Definition WithCompression (c : string) : Option := λ p,
  mkProducer (brokers p) (appName p) (tlsCfg p) (retry p) c (writeTimeout p) (maxAttempts p)
    (writer p) (started p) (closeOnce p).
Definition WithWriteTimeout (d : Z) : Option := λ p,
  mkProducer (brokers p) (appName p) (tlsCfg p) (retry p) (compression p) d (maxAttempts p)
    (writer p) (started p) (closeOnce p).
Definition WithMaxAttempts (n : Z) : Option := λ p,
  mkProducer (brokers p) (appName p) (tlsCfg p) (retry p) (compression p) (writeTimeout p) n
    (writer p) (started p) (closeOnce p).
Definition WithAppName (n : string) : Option := λ p,
  mkProducer (brokers p) n (tlsCfg p) (retry p) (compression p) (writeTimeout p) (maxAttempts p)
    (writer p) (started p) (closeOnce p).

Definition New (bs : list string) (opts : list Option) : Producer :=
  foldl (λ p opt, opt p)
    (mkProducer bs "" (mkTLSSASL None "" "" "") DefaultConfig CompressionNone 0 0 None false false) opts.

(** ** Conversions *)
Definition kafkaCompression (c : string) : codec :=
  if decide (c = CompressionGzip) then Gzip
  else if decide (c = CompressionSnappy) then Snappy
  else if decide (c = CompressionLz4) then Lz4
  else if decide (c = CompressionZstd) then Zstd
  else NoCodec.

(** [len(key) == 0] holds of nil and of the empty slice. *)
Definition toKafkaKey (key : option string) : option string :=
  match key with
  | Some k => if decide (k = "") then None else Some k
  | None => None
  end.

Section producer.
Context (iterate : gmap string string → list (string * string)).

Definition toKafkaHeaders (h : gmap string string) : option (list (string * string)) :=
  if decide (h = ∅) then None else Some (iterate h).

Definition to_kmessage (m : Message) : kmessage :=
  mkK (Topic m) (toKafkaKey (Key m)) (Value m) (toKafkaHeaders (Headers m)).

Context {W : Type} (WriteMessages : Writer → list kmessage → io W (option goerr))
  (CloseWriter : Writer → io W (option goerr)).

Definition not_started : goerr := Text "kafkaproducer: not started".
Definition empty_topic (i : nat) : goerr :=
  Text ("kafkaproducer: message at index " +:+ pretty i +:+ " has empty topic").

Definition total_series (p : Producer) (t : string) : series :=
  ("kafka_produce_messages_total", [appName p; t]).
Definition errors_series (p : Producer) (t : string) : series :=
  ("kafka_produce_errors_total", [appName p; t]).
Definition duration_series (p : Producer) (t : string) : series :=
  ("kafka_produce_duration_seconds", [appName p; t]).

(** ** Producing; [dur] is the time the write takes. *)
Definition Produce (dur : Z) (p : Producer) (topic : string) (key value : option string)
    (headers : gmap string string) (m : metrics) : io W (option goerr * metrics) :=
  match writer p with
  | None => mret (Some not_started, m)
  | Some wr =>
      err ← WriteMessages wr [mkK topic (toKafkaKey key) value (toKafkaHeaders headers)];
      let m := observe (duration_series p topic) dur m in
      mret (match err with
            | Some e => (Some (Wrap ("kafkaproducer: produce to " +:+ topic) e),
                         add_value (errors_series p topic) 1 m)
            | None => (None, add_value (total_series p topic) 1 m)
            end)
  end.

(** The conversion loop: stops at the first empty topic, [i] its index. *)
Fixpoint convert (i : nat) (msgs : list Message) : res (list kmessage) :=
  match msgs with
  | [] => Ok []
  | m :: msgs =>
      if decide (Topic m = "") then Err (empty_topic i)
      else match convert (S i) msgs with
           | Ok l => Ok (to_kmessage m :: l)
           | Err e => Err e
           end
  end.

(** [for _, m := range msgs { f(m) }] on the metrics. *)
Definition each (f : Message → metrics → metrics) (msgs : list Message) (m : metrics) : metrics :=
  foldl (λ acc msg, f msg acc) m msgs.

Definition ProduceBatch (dur : Z) (p : Producer) (msgs : list Message) (m : metrics) :
    io W (option goerr * metrics) :=
  match msgs with
  | [] => mret (None, m)
  | _ =>
      match writer p with
      | None => mret (Some not_started, m)
      | Some wr =>
          match convert 0 msgs with
          | Err e => mret (Some e, m)
          | Ok kmsgs =>
              err ← WriteMessages wr kmsgs;
              let m := each (λ x, observe (duration_series p (Topic x)) dur) msgs m in
              mret (match err with
                    | Some e =>
                        (Some (Wrap ("kafkaproducer: produce batch of " +:+ pretty (length msgs)) e),
                         each (λ x, add_value (errors_series p (Topic x)) 1) msgs m)
                    | None => (None, each (λ x, add_value (total_series p (Topic x)) 1) msgs m)
                    end)
          end
      end
  end.

(** ** Life *)
Context (scram_Mechanism : algorithm → string → string → res nat).
Context {Conn : Type} (DialContext : Dialer → string → io W (res Conn)) (CloseConn : Conn → io W unit).
Context (select_wait : Z → io W (option goerr)) (conv_out_of_range : spec_float → Z).
Context (Register : collector → io W (option reg_error)).

Definition initMetrics (o : nat) : io W (outcome (list collector)) :=
  register_all Register (metric_collectors o).

Definition new_writer (p : Producer) (d : Dialer) : Writer :=
  mkWriter (brokers p) (kafkaCompression (compression p)) (d_TLS d) (d_SASLMechanism d)
    (if 0 <? writeTimeout p then Some (writeTimeout p) else None)
    (if 0 <? maxAttempts p then Some (maxAttempts p) else None).

Definition connected (wr : Writer) (p : Producer) : Producer :=
  mkProducer (brokers p) (appName p) (tlsCfg p) (retry p) (compression p) (writeTimeout p)
    (maxAttempts p) (Some wr) true (closeOnce p).

(** [Start] up to the point where it only waits for its context. *)
Definition Start (o : nat) (p : Producer) : io W (outcome (res Producer)) :=
  match NewDialer scram_Mechanism (tlsCfg p) with
  | Err e => mret (Ret (Err (Wrap "kafkaproducer: dialer" e)))
  | Ok d =>
      let connect := err ← Probe DialContext CloseConn (brokers p) d; mret (of_err err) in
      r ← Do conv_out_of_range connect select_wait (retry p);
      match r with
      | Err e => mret (Ret (Err (Wrap "kafkaproducer: connect" e)))
      | Ok _ =>
          m ← initMetrics o;
          mret (match m with Panics v => Panics v | Ret _ => Ret (Ok (connected (new_writer p d) p)) end)
      end
  end.

Definition closed (p : Producer) : Producer :=
  mkProducer (brokers p) (appName p) (tlsCfg p) (retry p) (compression p) (writeTimeout p)
    (maxAttempts p) (writer p) (started p) true.

(** [Stop] ignores its context; [closeOnce] runs even when there is no writer. *)
Definition Stop (ended : option goerr) (p : Producer) : io W (Producer * option goerr) :=
  if closeOnce p then mret (p, None)
  else match writer p with
       | None => mret (closed p, None)
       | Some wr =>
           err ← CloseWriter wr;
           mret (closed p, Wrap "kafkaproducer: close writer" <$> err)
       end.

Definition ProbeProducer (p : Producer) : io W (option goerr) :=
  if started p then
    match NewDialer scram_Mechanism (tlsCfg p) with
    | Err e => mret (Some (Wrap "kafkaproducer: dialer" e))
    | Ok d => Probe DialContext CloseConn (brokers p) d
    end
  else mret (Some not_started).

Definition stop_ops : stoppable W Writer Producer := mkStoppable _ _ _ writer closeOnce Stop.

(** ** Metrics of a batch *)
Definition count_topic (t : string) (msgs : list Message) : Z :=
  Z.of_nat (length (filter (λ x, Topic x = t) msgs)).

Lemma each_cons f x msgs m : each f (x :: msgs) m = each f msgs (f x m).
Proof. done. Qed.

Lemma value_each name app msgs m k :
  value (each (λ x, add_value (name, [app; Topic x]) 1) msgs m) k =
  value m k + match k with
              | (n, [a; t]) => if decide (n = name ∧ a = app) then count_topic t msgs else 0
              | _ => 0
              end.
Proof.
  revert m. induction msgs as [|x msgs IH]; intros m.
  - unfold count_topic. simpl. destruct k as [n [|a [|t [|]]]]; try lia. case_decide; lia.
  - rewrite each_cons, IH, value_add. unfold count_topic.
    destruct k as [n [|a [|t [|b l]]]]; try (rewrite decide_False by congruence; lia).
    destruct (decide (Topic x = t)) as [<-|Hx].
    + rewrite filter_cons_True by done. simpl length.
      destruct (decide (n = name ∧ a = app)) as [[-> ->]|Hn].
      * rewrite decide_True by done. lia.
      * rewrite decide_False by (intros [= -> ->]; by apply Hn). lia.
    + rewrite filter_cons_False by done. rewrite decide_False by congruence. lia.
Qed.

Lemma value_each_observe (f : Message → series) dur msgs m k :
  value (each (λ x, observe (f x) dur) msgs m) k = value m k.
Proof. revert m. induction msgs as [|x msgs IH]; intros m; [done|]. by rewrite each_cons, IH. Qed.

Lemma observed_each (f : Message → series) dur msgs m :
  observed (each (λ x, observe (f x) dur) msgs m) = observed m ++ ((λ x, (f x, dur)) <$> msgs).
Proof.
  revert m. induction msgs as [|x msgs IH]; intros m; [by rewrite app_nil_r|].
  rewrite each_cons, IH. simpl. by rewrite <-app_assoc.
Qed.

Lemma observed_each_add (f : Message → series) d msgs m :
  observed (each (λ x, add_value (f x) d) msgs m) = observed m.
Proof. revert m. induction msgs as [|x msgs IH]; intros m; [done|]. by rewrite each_cons, IH. Qed.

Lemma convert_spec i msgs :
  match list_find (λ x, Topic x = "") msgs with
  | Some (j, _) => convert i msgs = Err (empty_topic (i + j))
  | None => convert i msgs = Ok (to_kmessage <$> msgs)
  end.
Proof.
  revert i. induction msgs as [|x msgs IH]; intros i; simpl; [done|].
  destruct (decide (Topic x = "")) as [Hx|Hx].
  - by rewrite Nat.add_0_r.
  - specialize (IH (S i)). destruct (list_find _ msgs) as [[j y]|]; simpl.
    + rewrite IH. f_equal. f_equal. lia.
    + by rewrite IH.
Qed.

(** The write of a batch: one call of [WriteMessages] that returned [err], every
    message of [msgs] in it, observed and counted once. *)
Definition batch_counted (p : Producer) (msgs : list Message) (err : option goerr) (dur : Z)
    (m m' : metrics) : Prop :=
  (∀ t, value m' (total_series p t) = value m (total_series p t) +
          (if err then 0 else count_topic t msgs) ∧
        value m' (errors_series p t) = value m (errors_series p t) +
          (if err then count_topic t msgs else 0)) ∧
  observed m' = observed m ++ ((λ x, (duration_series p (Topic x), dur)) <$> msgs).

(** A batch is all or nothing.  An empty batch does nothing; without a
    writer, or when some message has no topic, nothing is written or counted
    and the error names the first such message; otherwise one [WriteMessages]
    carries every message in order, the result is nil exactly when that call's
    is, and each message is counted once under its topic: as produced when the
    call succeeded, as an error when it failed. *)
Theorem batch_all_or_nothing dur p msgs m w :
  match msgs, writer p with
  | [], _ => ProduceBatch dur p msgs m w = ((None, m), w)
  | _, None => ProduceBatch dur p msgs m w = ((Some not_started, m), w)
  | _, Some wr =>
      match list_find (λ x, Topic x = "") msgs with
      | Some (i, _) => ProduceBatch dur p msgs m w = ((Some (empty_topic i), m), w)
      | None =>
          let '(err, w1) := WriteMessages wr (to_kmessage <$> msgs) w in
          let '((r, m'), w') := ProduceBatch dur p msgs m w in
          w' = w1 ∧ (r = None ↔ err = None) ∧ batch_counted p msgs err dur m m'
      end
  end.
Proof.
  unfold ProduceBatch. destruct msgs as [|x msgs]; [done|]. destruct (writer p) as [wr|]; [|done].
  pose proof (convert_spec 0 (x :: msgs)) as Hc. destruct (list_find _ (x :: msgs)) as [[j y]|].
  { by rewrite Hc. }
  rewrite Hc. unfold mbind, io_bind. destruct (WriteMessages wr _ w) as [[e|] w1]; unfold mret, io_ret;
    (split; [done|split; [done|]]); split.
  1,3: intros t; unfold total_series, errors_series; rewrite !value_each, !value_each_observe; simpl;
       rewrite ?decide_True by done; rewrite ?decide_False by (by intros [? _]); lia.
  1,2: rewrite observed_each_add; apply observed_each.
Qed.

(** Producing one message.  Without a writer nothing is written or counted;
    with one, exactly this message is handed to it, with a key that is absent
    rather than empty and with its headers in some order; the result is nil
    exactly when the write's is; and a produce of one message is a batch of
    one, up to the text of the error. *)
Theorem produce_is_batch_of_one dur p topic key value_ headers m w :
  topic ≠ "" →
  match writer p with
  | None => Produce dur p topic key value_ headers m w = ((Some not_started, m), w)
  | Some wr =>
      let '((r, m'), w') := Produce dur p topic key value_ headers m w in
      let '((r1, m1), w1) := ProduceBatch dur p [mkMessage topic key value_ headers] m w in
      w' = w1 ∧ m' = m1 ∧
      match r, r1 with
      | None, None => True
      | Some e, Some e1 =>
          ∃ er, e = Wrap ("kafkaproducer: produce to " +:+ topic) er ∧
                e1 = Wrap "kafkaproducer: produce batch of 1" er
      | _, _ => False
      end
  end ∧ toKafkaKey key ≠ Some "".
Proof.
  intros Ht. split.
  - unfold Produce, ProduceBatch. destruct (writer p) as [wr|]; [|done].
    cbn [convert Topic]. rewrite decide_False by done. unfold mbind, io_bind, to_kmessage. simpl.
    destruct (WriteMessages wr _ w) as [[e|] w1]; split_and!; try done. by exists e.
  - unfold toKafkaKey. destruct key; [|done]. by case_decide; congruence.
Qed.

(** ** When the writer is closed *)

Lemma stop_all_closed calls p w :
  closeOnce p = true → stop_all stop_ops calls p w = (p, w).
Proof.
  intros Hc. revert w. induction calls as [|c calls IH]; intros w; simpl; [done|].
  unfold Stop, mbind, io_bind. rewrite Hc. apply IH.
Qed.

(** Once connected, however often [Stop] is called the writer is closed
    exactly once, and only the first call can return its error, provided [Stop]
    was not called before: a [Stop] that finds no writer uses up the [sync.Once],
    and then the writer a later [Start] makes is never closed. *)
Theorem writer_closed_once p wr w calls :
  calls ≠ [] →
  (writer p = Some wr → closeOnce p = false →
     stop_all stop_ops calls p w = (closed p, (CloseWriter wr w).2)) ∧
  (writer p = None →
     let '(p1, w1) := stop_all stop_ops calls p w in
     w1 = w ∧
     ∀ o w2, match Start o p1 w2 with
             | (Ret (Ok p2), w3) =>
                 is_Some (writer p2) ∧ ∀ calls', stop_all stop_ops calls' p2 w3 = (p2, w3)
             | _ => True
             end).
Proof.
  intros Hne. destruct calls as [|c calls]; [done|]. split.
  - intros Hw Hc. simpl. unfold Stop, mbind, io_bind. rewrite Hc, Hw.
    destruct (CloseWriter wr w) as [err w1]. simpl. by rewrite stop_all_closed.
  - intros Hw. simpl. unfold Stop, mbind, io_bind. rewrite Hw.
    set (p1 := if closeOnce p then p else closed p).
    assert (closeOnce p1 = true) as Hp1 by (unfold p1; by destruct (closeOnce p) eqn:E).
    replace (if closeOnce p then _ else _) with (λ w : W, (p1, None : option goerr, w))
      by (unfold p1; by destruct (closeOnce p)).
    simpl. rewrite stop_all_closed by done. split; [done|]. intros o w2.
    destruct (Start o p1 w2) as [[[p2|e]|v] w3] eqn:E; try done.
    assert (is_Some (writer p2) ∧ closeOnce p2 = true) as [H1 H2].
    { unfold Start in E. destruct (NewDialer _ _) as [d|]; [|done]. clearbody p1.
      unfold mbind, io_bind, mret, io_ret in E. destruct (Do _ _ _ _ w2) as [[[]|] w4]; [|done].
      destruct (initMetrics o w4) as [[cs|] w5]; by simplify_eq/=. }
    split; [done|]. intros calls'. by apply stop_all_closed.
Qed.
End producer.

(** ** Witnesses *)
Definition ex_producer : Producer := New ["kafka:9092"] [WithAppName "orders"; WithCompression "zstd"].
Definition ex_writer : Writer := mkWriter ["kafka:9092"] Zstd None None None None.
Definition ex_connected : Producer := connected ex_writer ex_producer.
Definition ex_write (_ : Writer) (l : list kmessage) : io (list kmessage) (option goerr) := λ w, (None, w ++ l).
Definition ex_close (_ : Writer) : io (list kmessage) (option goerr) := λ w, (None, []).
Definition ex_dial (_ : Dialer) (_ : string) : io (list kmessage) (res unit) := λ w, (Ok tt, w).
Definition ex_hangup (_ : unit) : io (list kmessage) unit := λ w, (tt, w).
Definition ex_wait (_ : Z) : io (list kmessage) (option goerr) := λ w, (None, w).
Definition ex_reg (_ : collector) : io (list kmessage) (option reg_error) := λ w, (None, w).
Definition ex_scram (_ : algorithm) (_ _ : string) : res nat := Ok 0%nat.

Lemma produce_is_batch_of_one_witness :
  let p := ex_connected in
  let '((r, m'), w') := Produce map_to_list ex_write 3 p "orders.created" (Some "") (Some "v") ∅ no_metrics [] in
  let '((r1, m1), w1) :=
    ProduceBatch map_to_list ex_write 3 p [mkMessage "orders.created" (Some "") (Some "v") ∅] no_metrics [] in
  w' = w1 ∧ m' = m1 ∧
  match r, r1 with
  | None, None => True
  | Some e, Some e1 =>
      ∃ er, e = Wrap ("kafkaproducer: produce to " +:+ "orders.created") er ∧
            e1 = Wrap "kafkaproducer: produce batch of 1" er
  | _, _ => False
  end.
Proof.
  exact (proj1 (produce_is_batch_of_one map_to_list ex_write 3 ex_connected "orders.created" (Some "")
    (Some "v") ∅ no_metrics [] ltac:(done))).
Defined.

Lemma writer_closed_once_witness :
  stop_all (stop_ops ex_close) [None; None] ex_connected [mkK "t" None None None] = (closed ex_connected, []).
Proof.
  apply (writer_closed_once ex_close ex_scram ex_dial ex_hangup ex_wait no_oor ex_reg ex_connected
    ex_writer [mkK "t" None None None] [None; None]); done.
Defined.
