(* ===== verification/Consumer.v ===== *)
(** * kafka/consumer

    The configuration and life of the consumer, and [step], the machine of its
    [consume] loop with the tasks it gives to the worker pool and the broker's
    committed offsets.  kafka-go documents of its reader: messages of a
    partition are fetched in offset order, committing a message makes the
    partition's position the offset after it, and a new reader starts from that
    position, as does the same reader after a rebalance of its group, which may
    come at any moment ([LRebalance]).  What other members of the group commit is
    left out.  Theorems: an offset is committed only after its handler
    succeeded, what becomes of every fetched message, what the metrics count,
    which messages a committed position has passed, and the context a commit
    runs under. *)
From Stdlib Require Import SpecFloat.
From S2P Require Import Prelude GoContext Prom Retry KafkaNet.
From S2P Require WorkerPool.

Definition defaultPoolSize : Z := 8.
Definition defaultMetricsInterval : Z := 15 * Second.
Definition readerMinBytes : Z := 10000.
Definition readerMaxBytes : Z := 10000000.
Definition readerMaxWait : Z := 500 * Millisecond.
Definition fetchErrorBackoff : Z := 1 * Second.

(** [kafka.Message] and the [Message] handlers see. *)
Record kmessage : Type := mkK {
  k_Topic : string;
  k_Partition : Z;
  k_Offset : Z;
  k_Key : option string;
  k_Value : option string;
  k_Headers : list (string * string);
  k_Time : Z;
}.

#[export] Instance kmessage_eq_dec : EqDecision kmessage.
Proof. solve_decision. Defined.

Record Message : Type := mkMessage {
  Topic : string;
  Partition : Z;
  Offset : Z;
  Key : option string;
  Value : option string;
  Headers : gmap string string;
  Time : Z;
}.

(** The last header of a key wins. *)
Definition toMessage (msg : kmessage) : Message :=
  mkMessage (k_Topic msg) (k_Partition msg) (k_Offset msg) (k_Key msg) (k_Value msg)
    (foldl (λ h kv, <[kv.1 := kv.2]> h) ∅ (k_Headers msg)) (k_Time msg).

(** ** Configuration *)
Record ReaderConfig : Type := mkReaderConfig {
  Brokers : list string;
  GroupID : string;
  GroupTopics : list string;
  r_Dialer : Dialer;
  MinBytes : Z;
  MaxBytes : Z;
  MaxWait : Z;
}.

Record Consumer : Type := mkConsumer {
  brokers : list string;
  consumerGroup : string;
  appName : string;
  tlsCfg : TLSSASLConfig;
  retry : Config;
  poolSize : Z;
  metricsInterval : Z;
  handlerTimeout : Z;
  topics : gmap string nat;                    (* handlers, by name *)
  reader : option ReaderConfig;
  pool : option WorkerPool.Pool;
  started : bool;
  closeOnce : bool;
}.

Definition Option : Type := Consumer → Consumer.
Definition set_tls (t : TLSSASLConfig) (c : Consumer) : Consumer :=
  mkConsumer (brokers c) (consumerGroup c) (appName c) t (retry c) (poolSize c) (metricsInterval c)
    (handlerTimeout c) (topics c) (reader c) (pool c) (started c) (closeOnce c).
Definition WithTLS (t : option nat) : Option := λ c,
  let k := tlsCfg c in set_tls (mkTLSSASL t (SASLUser k) (SASLPass k) (SASLMech k)) c.
Definition WithSASL (user pass : string) : Option := λ c,
  let k := tlsCfg c in set_tls (mkTLSSASL (TLS k) user pass (SASLMech k)) c.
Definition WithSASLMechanism (m : string) : Option := λ c,
  let k := tlsCfg c in set_tls (mkTLSSASL (TLS k) (SASLUser k) (SASLPass k) m) c.
Definition WithRetry (cfg : Config) : Option := λ c,
  mkConsumer (brokers c) (consumerGroup c) (appName c) (tlsCfg c) cfg (poolSize c) (metricsInterval c)
    (handlerTimeout c) (topics c) (reader c) (pool c) (started c) (closeOnce c).
Definition WithWorkerPoolSize (n : Z) : Option := λ c,
  mkConsumer (brokers c) (consumerGroup c) (appName c) (tlsCfg c) (retry c) n (metricsInterval c)
    (handlerTimeout c) (topics c) (reader c) (pool c) (started c) (closeOnce c).
Definition WithMetricsInterval (d : Z) : Option := λ c,
  mkConsumer (brokers c) (consumerGroup c) (appName c) (tlsCfg c) (retry c) (poolSize c) d
    (handlerTimeout c) (topics c) (reader c) (pool c) (started c) (closeOnce c).
Definition WithHandlerTimeout (d : Z) : Option := λ c,
  mkConsumer (brokers c) (consumerGroup c) (appName c) (tlsCfg c) (retry c) (poolSize c)
    (metricsInterval c) d (topics c) (reader c) (pool c) (started c) (closeOnce c).
Definition WithAppName (n : string) : Option := λ c,
  mkConsumer (brokers c) (consumerGroup c) n (tlsCfg c) (retry c) (poolSize c) (metricsInterval c)
    (handlerTimeout c) (topics c) (reader c) (pool c) (started c) (closeOnce c).

Definition New (bs : list string) (group : string) (opts : list Option) : Consumer :=
  foldl (λ c opt, opt c)
    (mkConsumer bs group "" (mkTLSSASL None "" "" "") DefaultConfig defaultPoolSize
       defaultMetricsInterval 0 ∅ None None false false) opts.

Definition Handle (topic : string) (h : nat) (c : Consumer) : Consumer :=
  mkConsumer (brokers c) (consumerGroup c) (appName c) (tlsCfg c) (retry c) (poolSize c)
    (metricsInterval c) (handlerTimeout c) (<[topic := h]> (topics c)) (reader c) (pool c)
    (started c) (closeOnce c).

Definition handlerFor (c : Consumer) (topic : string) : option nat := topics c !! topic.

Definition metric_collectors (o : nat) : list collector :=
  [mkCollector CounterVec "kafka_consume_messages_total" ["kafka_service"; "topic"] o;
   mkCollector CounterVec "kafka_consume_errors_total" ["kafka_service"; "topic"] o;
   mkCollector HistogramVec "kafka_consume_duration_seconds" ["kafka_service"; "topic"] o;
   mkCollector GaugeVec "kafka_consume_lag" ["kafka_service"; "topic"] o].

Definition consumed_series (c : Consumer) (t : string) : series :=
  ("kafka_consume_messages_total", [appName c; t]).
Definition errors_series (c : Consumer) (t : string) : series :=
  ("kafka_consume_errors_total", [appName c; t]).
Definition duration_series (c : Consumer) (t : string) : series :=
  ("kafka_consume_duration_seconds", [appName c; t]).

(** A tick of [pollLag]. *)
Definition poll_lag (c : Consumer) (stats_topic : string) (lag : Z) (m : metrics) : metrics :=
  set_value ("kafka_consume_lag", [appName c; stats_topic]) lag m.

(** ** Life *)
Section life.
Context {W : Type} (range_topics : gmap string nat → list string).
Context (scram_Mechanism : algorithm → string → string → res nat).
Context {Conn : Type} (DialContext : Dialer → string → io W (res Conn)) (CloseConn : Conn → io W unit).
Context (select_wait : Z → io W (option goerr)) (conv_out_of_range : spec_float → Z).
Context (Register : collector → io W (option reg_error)).
(** [reader.Close()] and [pool.Stop(ctx)]. *)
Context (CloseReader : ReaderConfig → io W (option goerr)) (PoolStop : WorkerPool.Pool → io W (option goerr)).

Definition no_topics : goerr :=
  Text "kafkaconsumer: no topics registered, call Handle before Start".

Definition topicList (c : Consumer) : list string := range_topics (topics c).

Definition initMetrics (o : nat) : io W (outcome (list collector)) :=
  register_all Register (metric_collectors o).

Definition connected (c : Consumer) (d : Dialer) (ts : list string) (p : WorkerPool.Pool) : Consumer :=
  mkConsumer (brokers c) (consumerGroup c) (appName c) (tlsCfg c) (retry c) (poolSize c)
    (metricsInterval c) (handlerTimeout c) (topics c)
    (Some (mkReaderConfig (brokers c) (consumerGroup c) ts d readerMinBytes readerMaxBytes readerMaxWait))
    (Some p) true (closeOnce c).

(** [workerpool.New] panics on a negative size. *)
Definition negative_pool : goerr := Text "makechan: size out of range".

(** [Start] up to the point where the pool, [pollLag] and [consume] run. *)
Definition Start (o : nat) (c : Consumer) : io W (outcome (res Consumer)) :=
  let ts := topicList c in
  match ts with
  | [] => mret (Ret (Err no_topics))
  | _ =>
      match NewDialer scram_Mechanism (tlsCfg c) with
      | Err e => mret (Ret (Err (Wrap "kafkaconsumer: dialer" e)))
      | Ok d =>
          let connect := err ← Probe DialContext CloseConn (brokers c) d; mret (of_err err) in
          r ← Do conv_out_of_range connect select_wait (retry c);
          match r with
          | Err e => mret (Ret (Err (Wrap "kafkaconsumer: connect" e)))
          | Ok _ =>
              m ← initMetrics o;
              mret (match m, WorkerPool.New (poolSize c) [] with
                    | Panics v, _ => Panics v
                    | Ret _, None => Panics negative_pool
                    | Ret _, Some p => Ret (Ok (connected c d ts p))
                    end)
          end
      end
  end.

Definition closed (c : Consumer) : Consumer :=
  mkConsumer (brokers c) (consumerGroup c) (appName c) (tlsCfg c) (retry c) (poolSize c)
    (metricsInterval c) (handlerTimeout c) (topics c) (reader c) (pool c) (started c) true.

Definition close_reader (c : Consumer) : io W (option goerr) :=
  if closeOnce c then mret None
  else match reader c with
       | None => mret None
       | Some r => err ← CloseReader r; mret (Wrap "kafkaconsumer: close reader" <$> err)
       end.

(** [Stop]: the reader once, the pool every time; the reader's error wins. *)
Definition Stop (c : Consumer) : io W (Consumer * option goerr) :=
  errClose ← close_reader c;
  match pool c with
  | None => mret (closed c, errClose)
  | Some p =>
      errStop ← PoolStop p;
      mret (closed c, match errStop, errClose with
                      | Some e, None => Some (Wrap "kafkaconsumer: stop pool" e)
                      | _, _ => errClose
                      end)
  end.

Definition not_started : goerr := Text "kafkaconsumer: not started".

Definition ProbeConsumer (c : Consumer) : io W (option goerr) :=
  if started c then
    match NewDialer scram_Mechanism (tlsCfg c) with
    | Err e => mret (Some (Wrap "kafkaconsumer: dialer" e))
    | Ok d => Probe DialContext CloseConn (brokers c) d
    end
  else mret (Some not_started).
End life.

(** ** The consume loop *)

Inductive cpc : Type :=
  | Fetching
  | Skipping (m : kmessage)                    (* committing a topic without a handler *)
  | Submitting (m : kmessage)
  | BackingOff
  | Returned.

(** A task of the pool: not yet past its handler, past it and committing, ended. *)
Inductive task_pc : Type := Waiting | Committing | Ended.

#[export] Instance task_pc_eq_dec : EqDecision task_pc.
Proof. solve_decision. Defined.

Definition partition : Type := string * Z.
Definition part (m : kmessage) : partition := (k_Topic m, k_Partition m).

Record state : Type := mkState {
  at_ : cpc;
  next : gmap partition Z;                     (* what the reader fetches next *)
  base : gmap partition Z;                     (* what its generation began from *)
  since : nat;                                 (* how many messages it had fetched then *)
  committed : gmap partition Z;                (* the group's committed positions *)
  tasks : list (kmessage * task_pc);
  mtr : metrics;
  (* history of this reader *)
  fetched : list kmessage;
  handled : list kmessage;                     (* their handler returned nil *)
  failed : list kmessage;
  refused : list kmessage;                     (* the pool did not take them *)
  skipped : list kmessage;                     (* no handler, commit tried *)
  commits : list kmessage;                     (* successful commits *)
}.

Definition position (f : gmap partition Z) (tp : partition) : Z := default 0 (f !! tp).

(** A new reader starts from the committed positions. *)
Definition start_at (pos : gmap partition Z) (m : metrics) : state :=
  mkState Fetching pos pos 0 pos [] m [] [] [] [] [] [].

Inductive label : Type :=
  | LFetch (tp : partition)
  | LFetchErr (e : goerr)
  | LCtxDone | LBackoffOver
  | LSkipCommit (err : option goerr)
  | LSubmit (ok : bool)
  | LRebalance                                 (* the group does, in the reader *)
  | LHandler (k : nat) (dur : Z) (err : option goerr)
  | LCommit (k : nat) (err : option goerr).

Section consume.
Context (c : Consumer) (broker : partition → Z → option kmessage) (ctx : context).

Definition goto (q : cpc) (s : state) : state :=
  mkState q (next s) (base s) (since s) (committed s) (tasks s) (mtr s) (fetched s) (handled s) (failed s) (refused s)
    (skipped s) (commits s).

(** [reader.CommitMessages(ctx, m)] succeeding. *)
Definition do_commit (m : kmessage) (s : state) : state :=
  mkState (at_ s) (next s) (base s) (since s) (<[part m := k_Offset m + 1]> (committed s)) (tasks s) (mtr s) (fetched s)
    (handled s) (failed s) (refused s) (skipped s) (commits s ++ [m]).

Definition ends_loop (e : goerr) : bool := errors_Is e Canceled || errors_Is e ErrClosedPipe.

(** A rebalance of the group: the same reader goes on from the committed positions. *)
Definition rebalance (s : state) : state :=
  mkState (at_ s) (committed s) (committed s) (length (fetched s)) (committed s) (tasks s) (mtr s) (fetched s)
    (handled s) (failed s) (refused s) (skipped s) (commits s).

(** The loop of [consume]. *)
Definition consume_step (l : label) (s : state) : option state :=
  match l, at_ s with
  | LRebalance, _ => Some (rebalance s)
  | LFetch tp, Fetching =>
      m ← broker tp (position (next s) tp);
      let q := match handlerFor c (k_Topic m) with Some _ => Submitting m | None => Skipping m end in
      Some (mkState q (<[tp := k_Offset m + 1]> (next s)) (base s) (since s) (committed s) (tasks s) (mtr s)
              (fetched s ++ [m]) (handled s) (failed s) (refused s) (skipped s) (commits s))
  | LFetchErr e, Fetching => Some (goto (if ends_loop e then Returned else BackingOff) s)
  | LCtxDone, BackingOff => Some (goto Returned s)
  | LBackoffOver, BackingOff => Some (goto Fetching s)
  | LSkipCommit err, Skipping m =>
      let s := match err with None => do_commit m s | Some _ => s end in
      Some (mkState Fetching (next s) (base s) (since s) (committed s) (tasks s) (mtr s) (fetched s) (handled s)
              (failed s) (refused s) (skipped s ++ [m]) (commits s))
  | LSubmit true, Submitting m =>
      Some (mkState Fetching (next s) (base s) (since s) (committed s) (tasks s ++ [(m, Waiting)]) (mtr s) (fetched s)
              (handled s) (failed s) (refused s) (skipped s) (commits s))
  | LSubmit false, Submitting m =>
      Some (mkState Returned (next s) (base s) (since s) (committed s) (tasks s) (mtr s) (fetched s)
              (handled s) (failed s) (refused s ++ [m]) (skipped s) (commits s))
  | _, _ => None
  end.

Definition set_task (k : nat) (m : kmessage) (q : task_pc) (mt : metrics) (s : state) : state :=
  mkState (at_ s) (next s) (base s) (since s) (committed s) (<[k := (m, q)]> (tasks s)) mt (fetched s) (handled s)
    (failed s) (refused s) (skipped s) (commits s).

(** [dispatch] in a worker: the handler, then the commit. *)
Definition dispatch_step (l : label) (s : state) : option state :=
  match l with
  | LHandler k dur err =>
      match tasks s !! k with
      | Some (m, Waiting) =>
          let mt := observe (duration_series c (k_Topic m)) dur (mtr s) in
          match err with
          | Some _ =>
              let s := set_task k m Ended (add_value (errors_series c (k_Topic m)) 1 mt) s in
              Some (mkState (at_ s) (next s) (base s) (since s) (committed s) (tasks s) (mtr s) (fetched s) (handled s)
                      (failed s ++ [m]) (refused s) (skipped s) (commits s))
          | None =>
              let s := set_task k m Committing mt s in
              Some (mkState (at_ s) (next s) (base s) (since s) (committed s) (tasks s) (mtr s) (fetched s)
                      (handled s ++ [m]) (failed s) (refused s) (skipped s) (commits s))
          end
      | _ => None
      end
  | LCommit k err =>
      match tasks s !! k with
      | Some (m, Committing) =>
          Some match err with
               | Some _ => set_task k m Ended (mtr s) s
               | None =>
                   do_commit m (set_task k m Ended (add_value (consumed_series c (k_Topic m)) 1 (mtr s)) s)
               end
      | _ => None
      end
  | _ => None
  end.

Definition step (l : label) (s : state) : option state :=
  match l with LHandler _ _ _ | LCommit _ _ => dispatch_step l s | _ => consume_step l s end.

(** The context a handler runs under; the commit runs under [ctx], the context
    of [Start], which the pool hands its tasks too. *)
Definition handlerCtx (taskCtx : context) (id : positive) : context :=
  if 0 <? handlerTimeout c then WithTimeout taskCtx id (handlerTimeout c) else taskCtx.
(** ** Invariant *)

(** What the reader documents: from [o] on, a partition yields the first message
    at [o] or later. *)
Class reads_in_order : Prop := {
  broker_msg tp o m : broker tp o = Some m → part m = tp ∧ o ≤ k_Offset m;
  broker_gap tp o o' m : broker tp o = Some m → o ≤ o' ≤ k_Offset m → broker tp o' = Some m;
}.
Context `{Hbroker : reads_in_order}.

Definition key_of (m : kmessage) : partition * Z := (part m, k_Offset m).
Definition pending (q : cpc) : list kmessage :=
  match q with Skipping m | Submitting m => [m] | _ => [] end.
Definition count_topic (t : string) (l : list kmessage) : Z :=
  Z.of_nat (length (filter (λ m, k_Topic m = t) l)).
Definition has_handler (m : kmessage) : Prop := is_Some (handlerFor c (k_Topic m)).
Definition past_handler (t : kmessage * task_pc) : Prop := t.2 ≠ Waiting.

Context (pos0 : gmap partition Z) (m0 : metrics).

Record Inv (s : state) : Prop := mkInv {
  i_next m : m ∈ drop (since s) (fetched s) →
    position (base s) (part m) ≤ k_Offset m < position (next s) (part m);
  i_start tp : position pos0 tp ≤ position (next s) tp;
  i_nodup : NoDup (key_of <$> drop (since s) (fetched s));
  i_cover tp o : position pos0 tp ≤ o < position (next s) tp →
    ∃ m, broker tp o = Some m ∧ m ∈ fetched s;
  i_where : fetched s ≡ₚ (tasks s).*1 ++ pending (at_ s) ++ refused s ++ skipped s;
  i_handler m : m ∈ (tasks s).*1 ∨ at_ s = Submitting m → has_handler m;
  i_skip m : m ∈ skipped s ∨ at_ s = Skipping m → ¬ has_handler m;
  i_once : handled s ++ failed s ≡ₚ (filter past_handler (tasks s)).*1;
  i_committing k m : tasks s !! k = Some (m, Committing) → m ∈ handled s;
  i_commits m : m ∈ commits s → m ∈ fetched s ∧ (¬ has_handler m ∨ m ∈ handled s);
  i_committed tp : committed s !! tp = pos0 !! tp ∨
    ∃ m, m ∈ commits s ∧ part m = tp ∧ committed s !! tp = Some (k_Offset m + 1);
  i_consumed t : value (mtr s) (consumed_series c t) = value m0 (consumed_series c t) +
    if handlerFor c t then count_topic t (commits s) else 0;
  i_errors t : value (mtr s) (errors_series c t) =
    value m0 (errors_series c t) + count_topic t (failed s);
  i_since : (since s ≤ length (fetched s))%nat;
  i_from m : m ∈ fetched s → position pos0 (part m) ≤ k_Offset m;
  i_below m o : m ∈ fetched s → position pos0 (part m) ≤ o ≤ k_Offset m →
    ∃ m', broker (part m) o = Some m' ∧ m' ∈ fetched s;
  i_base tp : base s !! tp = pos0 !! tp ∨
    ∃ m, m ∈ commits s ∧ part m = tp ∧ base s !! tp = Some (k_Offset m + 1);
  i_ahead tp : position (base s) tp ≤ position (next s) tp;
}.

Lemma consumer_Inv_init : Inv (start_at pos0 m0).
Proof.
  constructor; simpl; try done; try lia.
  - intros m Hm. by apply not_elem_of_nil in Hm.
  - constructor.
  - intros m [Hm|Hm]; [by apply not_elem_of_nil in Hm|done].
  - intros m [Hm|Hm]; [by apply not_elem_of_nil in Hm|done].
  - intros m Hm. by apply not_elem_of_nil in Hm.
  - intros tp. by left.
  - intros t. case_match; unfold count_topic; simpl; lia.
  - intros t. unfold count_topic. simpl. lia.
  - intros m Hm. by apply not_elem_of_nil in Hm.
  - intros m o Hm. by apply not_elem_of_nil in Hm.
  - intros tp. by left.
Qed.

Lemma position_insert f tp tp' o :
  position (<[tp := o]> f) tp' = if decide (tp = tp') then o else position f tp'.
Proof.
  unfold position. case_decide; subst.
  - by rewrite lookup_insert_eq.
  - by rewrite lookup_insert_ne.
Qed.

Lemma count_topic_snoc t l m :
  count_topic t (l ++ [m]) = count_topic t l + if decide (k_Topic m = t) then 1 else 0.
Proof.
  unfold count_topic. rewrite filter_app, length_app. case_decide.
  - rewrite filter_cons_True by done. simpl. lia.
  - rewrite filter_cons_False by done. simpl. lia.
Qed.

Lemma fetch_inv tp m s :
  Inv s → at_ s = Fetching → broker tp (position (next s) tp) = Some m →
  Inv (mkState (match handlerFor c (k_Topic m) with Some _ => Submitting m | None => Skipping m end)
         (<[tp := k_Offset m + 1]> (next s)) (base s) (since s) (committed s) (tasks s) (mtr s)
         (fetched s ++ [m]) (handled s) (failed s) (refused s) (skipped s) (commits s)).
Proof.
  intros [H1 H2 H3 H4 H5 H6 H7 H8 H9 H10 H11 H12 H13 H14 H15 H16 H17 H18] Hat Hb.
  destruct (broker_msg _ _ _ Hb) as [<- Ho].
  rewrite Hat in H5. simpl in H5.
  constructor; simpl; try done.
  - rewrite drop_app_le by done. intros m' [Hm'|Hm'%list_elem_of_singleton]%elem_of_app; rewrite position_insert.
    + specialize (H1 m' Hm'). case_decide as E; [rewrite <-E in *; lia|done].
    + subst. rewrite decide_True by done. specialize (H18 (part m)). lia.
  - intros tp. rewrite position_insert. specialize (H2 tp). case_decide; subst; lia.
  - rewrite drop_app_le by done. rewrite fmap_app. apply NoDup_app. split_and!; [done| |apply NoDup_singleton].
    intros x Hx Hx'%list_elem_of_singleton. subst x.
    apply list_elem_of_fmap in Hx as (m' & Hk & Hm'). 
    pose proof (f_equal fst Hk) as Hp. pose proof (f_equal snd Hk) as Hof. simpl in Hp, Hof.
    specialize (H1 m' Hm'). rewrite <-Hp in H1. lia.
  - intros tp o. rewrite position_insert. case_decide as E; subst.
    + intros Hrange. destruct (decide (o < position (next s) (part m))) as [Hlt|Hge].
      * destruct (H4 (part m) o ltac:(lia)) as (m' & ? & ?). exists m'. split; [done|].
        apply elem_of_app. by left.
      * exists m. split; [eapply broker_gap; [done|lia]|]. apply elem_of_app. right. by left.
    + intros Hrange. destruct (H4 tp o Hrange) as (m' & ? & ?). exists m'. split; [done|].
      apply elem_of_app. by left.
  - rewrite H5. rewrite <-!app_assoc. f_equiv.
    transitivity ([m] ++ refused s ++ skipped s); [by rewrite app_assoc, Permutation_app_comm|].
    by destruct (handlerFor c (k_Topic m)).
  - intros m' [Hm'|Hm']; [by apply H6; left|]. unfold has_handler.
    destruct (handlerFor c (k_Topic m)) eqn:Eh; simplify_eq. rewrite Eh. eauto.
  - intros m' [Hm'|Hm']; [by apply H7; left|]. unfold has_handler.
    destruct (handlerFor c (k_Topic m)) eqn:Eh; simplify_eq. rewrite Eh. by intros [? ?].
  - intros m' Hm'. destruct (H10 m' Hm'). split; [|done]. apply elem_of_app. by left.
  - rewrite length_app. simpl. lia.
  - intros m' [Hm'| ->%list_elem_of_singleton]%elem_of_app; [by apply H15|]. specialize (H2 (part m)). lia.
  - assert (∀ m' o, broker (part m) o = Some m' → m' ∈ fetched s → ∃ m', broker (part m) o = Some m' ∧ m' ∈ fetched s ++ [m])
      as Hin by (intros m' o ? ?; exists m'; split; [done|]; apply elem_of_app; by left).
    intros m' o [Hm'| ->%list_elem_of_singleton]%elem_of_app Hrange.
    + destruct (H16 m' o Hm' Hrange) as (m2 & ? & ?). exists m2. split; [done|]. apply elem_of_app. by left.
    + destruct (decide (o < position (next s) (part m))) as [Hlt|Hge].
      * destruct (H4 (part m) o ltac:(lia)) as (m2 & ? & ?). by eapply Hin.
      * exists m. split; [eapply broker_gap; [done|lia]|]. apply elem_of_app. right. by left.
  - intros tp. rewrite position_insert. specialize (H18 tp). case_decide; subst; [|done]. lia.
Qed.

(** A position of a partition that was committed, or begun from. *)
Lemma committed_cover s tp o :
  Inv s → position pos0 tp ≤ o < position (committed s) tp → ∃ m, broker tp o = Some m ∧ m ∈ fetched s.
Proof.
  intros HI Ho. destruct (i_committed _ HI tp) as [E|(m & Hm & <- & E)].
  - unfold position in *. rewrite E in Ho. lia.
  - unfold position at 2 in Ho. rewrite E in Ho. simpl in Ho.
    destruct (i_commits _ HI m Hm) as [Hf _]. apply (i_below _ HI m o Hf). lia.
Qed.

Lemma rebalance_inv s : Inv s → Inv (rebalance s).
Proof.
  intros HI. pose proof HI as [H1 H2 H3 H4 H5 H6 H7 H8 H9 H10 H11 H12 H13 H14 H15 H16 H17 H18].
  constructor; simpl; rewrite ?drop_all; try done.
  - intros m Hm. by apply not_elem_of_nil in Hm.
  - intros tp. destruct (H11 tp) as [E|(m & Hm & <- & E)]; unfold position at 2; rewrite E; [done|]. simpl.
    destruct (H10 m Hm) as [Hf _]. specialize (H15 m Hf). lia.
  - constructor.
  - intros tp o. by apply committed_cover.
Qed.

(** A position that is the first one, or one a commit made, stays so. *)
Lemma from_commit_snoc (f : gmap partition Z) tp l (m : kmessage) :
  (f !! tp = pos0 !! tp ∨ ∃ m, m ∈ l ∧ part m = tp ∧ f !! tp = Some (k_Offset m + 1)) →
  f !! tp = pos0 !! tp ∨ ∃ m', m' ∈ l ++ [m] ∧ part m' = tp ∧ f !! tp = Some (k_Offset m' + 1).
Proof.
  intros [?|(m' & ? & ? & ?)]; [by left|right]. exists m'. split_and!; [|done..]. apply elem_of_app. by left.
Qed.

Lemma skip_inv m err s :
  Inv s → at_ s = Skipping m →
  Inv (mkState Fetching (next s) (base s) (since s) (committed (match err with None => do_commit m s | Some _ => s end))
         (tasks s) (mtr s) (fetched s) (handled s) (failed s) (refused s) (skipped s ++ [m])
         (commits (match (err : option goerr) with None => do_commit m s | Some _ => s end))).
Proof.
  intros [H1 H2 H3 H4 H5 H6 H7 H8 H9 H10 H11 H12 H13 H14 H15 H16 H17 H18] Hat. rewrite Hat in H5.
  assert (m ∈ fetched s) as Hm.
  { rewrite H5. simpl. apply elem_of_app. right. by left. }
  assert (¬ has_handler m) as Hn by (apply H7; by right).
  constructor; simpl; try done.
  - rewrite H5. simpl. f_equiv. rewrite app_assoc. apply Permutation_cons_append.
  - intros m' [Hm'|?]; [|done]. apply H6. by left.
  - intros m' [[Hm'| ->%list_elem_of_singleton]%elem_of_app|?]; [apply H7; by left|done|done].
  - destruct err; [done|]. simpl. intros m' [Hm'| ->%list_elem_of_singleton]%elem_of_app; auto.
  - destruct err; [done|]. simpl. intros tp. destruct (decide (part m = tp)) as [<-|Hne].
    + right. exists m. rewrite lookup_insert_eq. split_and!; [|done..]. apply elem_of_app. right. by left.
    + rewrite lookup_insert_ne by done. by apply from_commit_snoc.
  - intros t. rewrite H12. destruct err; [done|]. simpl. rewrite count_topic_snoc.
    destruct (handlerFor c t) as [h|] eqn:Eh; [|done]. case_decide as E; [|lia].
    exfalso. apply Hn. unfold has_handler. rewrite E, Eh. eauto.
  - destruct err; [done|]. simpl. intros tp. by apply from_commit_snoc.
Qed.

Lemma submit_inv m ok s :
  Inv s → at_ s = Submitting m →
  Inv (mkState (if (ok : bool) then Fetching else Returned) (next s) (base s) (since s) (committed s)
         (tasks s ++ if ok then [(m, Waiting)] else []) (mtr s) (fetched s) (handled s) (failed s)
         (refused s ++ if ok then [] else [m]) (skipped s) (commits s)).
Proof.
  intros [H1 H2 H3 H4 H5 H6 H7 H8 H9 H10 H11 H12 H13 H14 H15 H16 H17 H18] Hat. rewrite Hat in H5.
  assert (has_handler m) as Hm by (apply H6; by right).
  constructor; simpl; try done.
  - rewrite H5. simpl. rewrite fmap_app. destruct ok; simpl; rewrite ?app_nil_r, <-?app_assoc; [done|].
    f_equiv. simpl. apply Permutation_middle.
  - intros m' [Hm'|?]; [|by destruct ok]. rewrite fmap_app in Hm'.
    apply elem_of_app in Hm' as [Hm'|Hm']; [by apply H6; left|]. destruct ok.
    + simpl in Hm'. apply list_elem_of_singleton in Hm' as ->. done.
    + by apply not_elem_of_nil in Hm'.
  - intros m' [Hm'|Hm']; [by apply H7; left|by destruct ok].
  - rewrite filter_app, fmap_app, H8. destruct ok; [|by rewrite app_nil_r].
    rewrite filter_cons_False by (by intros []). by rewrite app_nil_r.
  - intros k m' Hk. apply lookup_app_Some in Hk as [Hk|[_ Hk]]; [by eapply H9|].
    destruct ok; [|done]. apply list_lookup_singleton_Some in Hk as [_ Hk]. done.
Qed.

Lemma task_insert (l : list (kmessage * task_pc)) k m q q' :
  l !! k = Some (m, q) →
  (<[k := (m, q')]> l).*1 = l.*1 ∧
  (q' ≠ Waiting →
   (filter past_handler (<[k := (m, q')]> l)).*1 ≡ₚ
     (if decide (q = Waiting) then [m] else []) ++ (filter past_handler l).*1).
Proof.
  intros Hk. apply lookup_lt_Some in Hk as Hlt. rewrite insert_take_drop by done.
  assert (l = take k l ++ (m, q) :: drop (S k) l) as Hl by (symmetry; by apply take_drop_middle).
  set (l1 := take k l) in *. set (l2 := drop (S k) l) in *. clearbody l1 l2. subst l.
  rewrite !fmap_app. split; [done|]. intros Hq. rewrite !filter_app, !fmap_app.
  rewrite (filter_cons_True past_handler (m, q')) by done. case_decide as E; subst.
  - rewrite filter_cons_False by (by intros []). simpl. by rewrite <-Permutation_middle.
  - by rewrite filter_cons_True.
Qed.

Lemma handler_inv k dur err s s' :
  Inv s → dispatch_step (LHandler k dur err) s = Some s' → Inv s'.
Proof.
  intros [H1 H2 H3 H4 H5 H6 H7 H8 H9 H10 H11 H12 H13 H14 H15 H16 H17 H18] H. simpl in H.
  destruct (tasks s !! k) as [[m []]|] eqn:Ek; try done.
  destruct (task_insert (tasks s) k m Waiting Ended Ek) as [E1 E2].
  destruct (task_insert (tasks s) k m Waiting Committing Ek) as [E3 E4].
  assert (∀ q k' m', <[k := (m, q)]> (tasks s) !! k' = Some (m', Committing) →
    (m' = m ∧ q = Committing) ∨ tasks s !! k' = Some (m', Committing)) as Hins.
  { intros q k' m' [(-> & [= -> ->] & _)|[_ ?]]%list_lookup_insert_Some; auto. }
  destruct err as [er|]; simplify_eq/=; constructor; simpl; rewrite ?E1, ?E3; try done.
  - rewrite E2 by done. simpl. rewrite <-H8, app_assoc. by rewrite <-Permutation_cons_append.
  - intros k' m' [[_ ?]|?]%Hins; [done|]. by eapply H9.
  - intros t. rewrite value_add, value_observe. by rewrite decide_False.
  - intros t. rewrite value_add, value_observe, count_topic_snoc, H13. unfold errors_series.
    repeat case_decide; simplify_eq; lia.
  - rewrite E4 by done. simpl. rewrite <-H8.
    rewrite <-app_assoc. symmetry. apply Permutation_middle.
  - intros k' m' [[-> _]|?]%Hins; apply elem_of_app; [right; by left|left; by eapply H9].
  - intros m' Hm'. destruct (H10 m' Hm') as [? [?|?]]; split; [done|by left|done|].
    right. apply elem_of_app. by left.
Qed.

Lemma commit_inv k err s s' :
  Inv s → dispatch_step (LCommit k err) s = Some s' → Inv s'.
Proof.
  intros [H1 H2 H3 H4 H5 H6 H7 H8 H9 H10 H11 H12 H13 H14 H15 H16 H17 H18] H. simpl in H.
  destruct (tasks s !! k) as [[m []]|] eqn:Ek; try done.
  destruct (task_insert (tasks s) k m Committing Ended Ek) as [E1 E2].
  assert (m ∈ (tasks s).*1) as Hin.
  { apply list_elem_of_fmap. exists (m, Committing). split; [done|]. by eapply list_elem_of_lookup_2. }
  assert (has_handler m) as Hh by (apply H6; by left).
  assert (m ∈ fetched s) as Hf by (rewrite H5; apply elem_of_app; by left).
  assert (∀ k' m', <[k := (m, Ended)]> (tasks s) !! k' = Some (m', Committing) →
    tasks s !! k' = Some (m', Committing)) as Hins.
  { intros k' m' [(_ & [=] & _)|[_ ?]]%list_lookup_insert_Some; auto. }
  destruct err as [er|]; simplify_eq/=; constructor; simpl; rewrite ?E1; try done;
    try (by rewrite E2); try (by eauto).
  - intros m' [Hm'| ->%list_elem_of_singleton]%elem_of_app; [auto|]. split; [done|right]. by eapply H9.
  - intros tp. destruct (decide (part m = tp)) as [<-|Hne].
    + right. exists m. rewrite lookup_insert_eq. split_and!; [|done..]. apply elem_of_app. right. by left.
    + rewrite lookup_insert_ne by done. by apply from_commit_snoc.
  - intros t. rewrite value_add, count_topic_snoc, H12. destruct Hh as [h Hh].
    unfold consumed_series. destruct (decide (k_Topic m = t)) as [<-|Hne].
    + rewrite Hh. rewrite decide_True by done. lia.
    + rewrite decide_False by congruence. destruct (handlerFor c t); lia.
  - intros t. rewrite value_add. by rewrite decide_False.
  - intros tp. by apply from_commit_snoc.
Qed.

Lemma goto_inv q s : Inv s → pending (at_ s) = [] → pending q = [] →
  (∀ m, q ≠ Submitting m ∧ q ≠ Skipping m) → Inv (goto q s).
Proof.
  intros [H1 H2 H3 H4 H5 H6 H7 H8 H9 H10 H11 H12 H13 H14 H15 H16 H17 H18] Ha Hq Hn. constructor; simpl; try done.
  - by rewrite Hq, <-Ha.
  - intros m [?|?]; [by apply H6; left|]. by destruct (Hn m).
  - intros m [?|?]; [by apply H7; left|]. by destruct (Hn m).
Qed.

Lemma consumer_step_inv l s s' : Inv s → step l s = Some s' → Inv s'.
Proof.
  intros HI H. unfold step in H. destruct l as [tp|e| | |err|ok| |k dur err|k err];
    [..|simpl in H; simplify_eq; by apply rebalance_inv|by eapply handler_inv|by eapply commit_inv]; simpl in H; destruct (at_ s) eqn:Eat; try done;
    try (by destruct ok).
  - apply bind_Some in H as (m & Hm & H). simplify_eq. by eapply fetch_inv.
  - simplify_eq. apply goto_inv; [done|by rewrite Eat|by destruct (ends_loop e)|].
    intros m. by destruct (ends_loop e).
  - simplify_eq. apply goto_inv; [done|by rewrite Eat|done..].
  - simplify_eq. apply goto_inv; [done|by rewrite Eat|done..].
  - pose proof (skip_inv m err s HI Eat). by destruct err; simplify_eq.
  - pose proof (submit_inv m ok s HI Eat) as Hs. rewrite ?app_nil_r in Hs.
    destruct ok; simplify_eq; by rewrite ?app_nil_r in Hs.
Qed.

Lemma exec_inv ls s : exec step ls (start_at pos0 m0) = Some s → Inv s.
Proof. intros H. eapply (exec_invariant _ Inv); eauto using consumer_step_inv, consumer_Inv_init. Qed.

(** ** Properties *)

(** C4: an offset is committed only after its handler succeeded.  Along every
    schedule of the loop, the pool's tasks and the broker, a message is
    committed only when its handler has returned nil or its topic has no
    handler, and a committed position is the one the reader started from or
    the offset after such a message. *)
Theorem commit_after_success ls s :
  exec step ls (start_at pos0 m0) = Some s →
  (∀ m, m ∈ commits s → m ∈ fetched s ∧ (¬ has_handler m ∨ m ∈ handled s)) ∧
  ∀ tp, committed s !! tp = pos0 !! tp ∨
    ∃ m, m ∈ commits s ∧ part m = tp ∧ committed s !! tp = Some (k_Offset m + 1).
Proof. intros H%exec_inv. split; [apply (i_commits _ H)|apply (i_committed _ H)]. Qed.


(** What a committed position has passed.  Every message of a partition
    between the position the reader started from and the committed one was
    fetched, and so was handled, has no handler, failed, is still with the
    pool, or was refused by it: nothing is skipped that the consumer never saw. *)
Theorem committed_was_fetched ls s tp o :
  exec step ls (start_at pos0 m0) = Some s →
  position pos0 tp ≤ o < position (committed s) tp →
  ∃ m, broker tp o = Some m ∧
    (m ∈ handled s ∨ m ∈ failed s ∨ (m, Waiting) ∈ tasks s ∨ at_ s = Submitting m ∨ at_ s = Skipping m ∨
     m ∈ refused s ∨ ¬ has_handler m).
Proof.
  intros H%exec_inv Ho. pose proof H as [H1 H2 H3 H4 H5 H6 H7 H8 H9 H10 H11 H12 H13 H14 H15 H16 H17 H18].
  destruct (committed_cover s tp o H Ho) as (m & Hb & Hm).
  exists m. split; [done|]. rewrite H5, !elem_of_app in Hm. destruct Hm as [Hm|[Hm|[Hm|Hm]]].
  - apply list_elem_of_fmap in Hm as ([m' q] & -> & Hm). simpl.
    destruct (decide (q = Waiting)) as [->|Hq]; [naive_solver|].
    assert (m' ∈ handled s ++ failed s) as Hx; [|apply elem_of_app in Hx; naive_solver].
    rewrite H8. apply list_elem_of_fmap. exists (m', q). split; [done|].
    by apply list_elem_of_filter.
  - destruct (at_ s); simpl in Hm; try (by apply not_elem_of_nil in Hm);
      apply list_elem_of_singleton in Hm as ->; naive_solver.
  - naive_solver.
  - do 6 right. apply H7. by left.
Qed.
End consume.

(** ** The context of a commit *)

Fixpoint ctx_size (c : context) : nat :=
  match c with
  | Background => 0
  | WithCancel p _ | WithTimeout p _ _ | WithoutCancel p | WithValue p _ _ => S (ctx_size p)
  end.

Lemma cancel_chain_size x c : x ∈ cancel_chain c → (ctx_size x ≤ ctx_size c)%nat.
Proof.
  induction c; simpl; intros H; try (by apply not_elem_of_nil in H);
    try (apply elem_of_cons in H as [->|H]; simpl; [lia|]); try (specialize (IHc H); lia).
Qed.

(** A handler that runs into its timeout does not end the context its commit
    would use. *)
Lemma commit_outlives_handler_timeout c ctx id σ e :
  0 < handlerTimeout c →
  ctx_err (fire (handlerCtx c ctx id) e σ) ctx = ctx_err σ ctx ∧
  (ctx_err σ ctx = None → ctx_err σ (handlerCtx c ctx id) = None →
     ctx_err (fire (handlerCtx c ctx id) e σ) (handlerCtx c ctx id) = Some e).
Proof.
  intros H. unfold handlerCtx. rewrite (proj2 (Z.ltb_lt _ _) H). split.
  - apply ctx_err_fire_other. intros Hin%cancel_chain_size. simpl in Hin. lia.
  - intros _ Hn. by apply ctx_err_fire_self.
Qed.

(** ** What does not hold *)

Definition ex_msg (o : Z) : kmessage := mkK "orders" 0 o None (Some "v") [] 0.
Definition ex_broker (tp : partition) (o : Z) : option kmessage :=
  if decide (tp = ("orders", 0) ∧ 0 ≤ o) then Some (ex_msg o) else None.
Definition ex_consumer : Consumer := Handle "orders" 7 (New ["kafka:9092"] "billing" [WithAppName "billing"]).

(** Two messages go to the pool; the first one's handler fails, the second's
    succeeds and is committed. *)
Definition ex_run : list label :=
  [LFetch ("orders", 0); LSubmit true; LFetch ("orders", 0); LSubmit true;
   LHandler 0 5 (Some (Text "db down")); LHandler 1 5 None; LCommit 1 None].
Definition ex_state (ls : list label) : state :=
  default (start_at ∅ no_metrics) (exec (step ex_consumer ex_broker) ls (start_at ∅ no_metrics)).

(** A later success commits past an earlier failure: the failed message lies
    below the committed position, where no new reader will fetch it. *)
Lemma failed_message_is_passed :
  exec (step ex_consumer ex_broker) ex_run (start_at ∅ no_metrics) = Some (ex_state ex_run) ∧
  failed (ex_state ex_run) = [ex_msg 0] ∧ handled (ex_state ex_run) = [ex_msg 1] ∧
  position (committed (ex_state ex_run)) ("orders", 0) = 2.
Proof. split_and!; vm_compute; reflexivity. Qed.

(** kafka-go says a closed reader with [io.EOF]; the loop does not end on it. *)
Lemma closed_reader_is_retried c broker s :
  at_ s = Fetching →
  exec (step c broker) [LFetchErr ErrEOF; LBackoffOver] s = Some s.
Proof. intros H. destruct s. simpl in *. rewrite H. by simplify_eq/=. Qed.

(** ** Witnesses *)
#[export] Instance ex_broker_in_order : reads_in_order ex_broker.
Proof.
  split; unfold ex_broker.
  - intros tp o m. case_decide as E; [|done]. intros [= <-]. destruct E as [-> _]. done.
  - intros tp o o' m. case_decide as E; [|done]. intros [= <-] Ho. simpl in Ho.
    assert (o' = o) as -> by lia. by rewrite decide_True.
Qed.

Lemma commit_after_success_witness :
  (∀ m, m ∈ commits (ex_state ex_run) → m ∈ fetched (ex_state ex_run) ∧
     (¬ has_handler ex_consumer m ∨ m ∈ handled (ex_state ex_run))) ∧
  ∀ tp, committed (ex_state ex_run) !! tp = (∅ : gmap partition Z) !! tp ∨
    ∃ m, m ∈ commits (ex_state ex_run) ∧ part m = tp ∧
      committed (ex_state ex_run) !! tp = Some (k_Offset m + 1).
Proof.
  apply (commit_after_success ex_consumer ex_broker ∅ no_metrics ex_run).
  vm_compute. reflexivity.
Defined.

(** A handler fails, a rebalance comes, and the message is fetched again. *)
Definition ex_again : list label :=
  [LFetch ("orders", 0); LSubmit true; LHandler 0 5 (Some (Text "db down")); LRebalance; LFetch ("orders", 0); LSubmit true;
   LHandler 1 5 None; LCommit 1 None].


Lemma committed_was_fetched_witness :
  ∃ m, ex_broker ("orders", 0) 0 = Some m ∧
    (m ∈ handled (ex_state ex_run) ∨ m ∈ failed (ex_state ex_run) ∨ (m, Waiting) ∈ tasks (ex_state ex_run) ∨
     at_ (ex_state ex_run) = Submitting m ∨ at_ (ex_state ex_run) = Skipping m ∨
     m ∈ refused (ex_state ex_run) ∨ ¬ has_handler ex_consumer m).
Proof.
  apply (committed_was_fetched ex_consumer ex_broker ∅ no_metrics ex_run).
  - vm_compute. reflexivity.
  - vm_compute. split; congruence.
Defined.
