(* ===== verification/ConsumerStart.v ===== *)
(** * kafka/consumer: Start, with its pool

    The end of [Start] runs three things until its context ends: the worker pool
    (WorkerPool.v), [pollLag], and the [consume] loop (Consumer.v), whose tasks
    are run by the pool's workers.  [step] is the machine of the three together:
    the loop's call of [Submit] is the pool's, a message is accepted when the
    pool accepts its task, and a handler runs only while a worker runs its
    task.  The task of the [k]-th accepted message is the [k]-th of the pool.
    Theorems: each part runs as it does alone, so what is proved of the pool and
    of the loop holds of the consumer; handlers begin in the order of fetching
    and the messages in flight are bounded; when [Start] returns, and what that
    takes.  A consumer whose metrics interval is not positive panics. *)
From S2P Require Import Prelude GoContext Prom Consumer.
From S2P Require WorkerPool.

Record state : Type := mkRun {
  loop : Consumer.state;
  pl : WorkerPool.state;
  ticking : bool;                (* [pollLag] has its ticker *)
  crashed : bool;                (* or panicked for one, which ends the process *)
  lag_over : bool;               (* it returned *)
  lag : metrics;                 (* its gauge *)
  returned : bool;               (* [Start] returned *)
}.

Definition set_loop q s := mkRun q (pl s) (ticking s) (crashed s) (lag_over s) (lag s) (returned s).
Definition set_pl p s := mkRun (loop s) p (ticking s) (crashed s) (lag_over s) (lag s) (returned s).

Inductive label : Type :=
  | LLoop (l : Consumer.label)           (* [consume], but for its [Submit] *)
  | LSubmit                              (* it calls [Submit] *)
  | LAccepted (l : WorkerPool.label)     (* which returns nil *)
  | LRefused (l : WorkerPool.label)      (* or an error *)
  | LTask (l : Consumer.label)           (* [dispatch], in a worker *)
  | LTaskDone (w : nat)                  (* the task returns to its worker *)
  | LPool (l : WorkerPool.label)         (* the rest of the pool *)
  | LLagBegin                            (* [time.NewTicker] *)
  | LLagTick (topic : string) (z : Z)
  | LLagDone
  | LReturn.                             (* [wg.Wait] is over *)

(** The pool [Start] makes. *)
Lemma New_default n p : WorkerPool.New n [] = Some p → 0 ≤ n < 2 ^ 62 → p = WorkerPool.mkPool n (2 * n) false.
Proof.
  intros Hp Hn. unfold WorkerPool.New, WorkerPool.make_chan in Hp.
  rewrite wrap_int64_id in Hp by (unfold min_int64, max_int64; lia).
  destruct (_ <? 0) eqn:E; [done|]. simplify_eq/=. f_equal. lia.
Qed.

Section consumer_start.
Context (c : Consumer) (p : WorkerPool.Pool) (broker : partition → Z → option kmessage) (ctx : context).

Definition ended (s : state) : bool := bool_decide (ctx_err (WorkerPool.σ (pl s)) ctx ≠ None).

(** The task of the message being submitted. *)
Definition current (s : state) : nat := length (tasks (loop s)).

Definition loop_step (l : Consumer.label) (s : state) : option state :=
  q ← Consumer.step c broker l (loop s); Some (set_loop q s).
Definition pool_step (l : WorkerPool.label) (s : state) : option state :=
  q ← WorkerPool.step p ctx l (pl s); Some (set_pl q s).

Definition own_of_loop (l : Consumer.label) (s : state) : bool :=
  match l with
  | LFetch _ | LFetchErr _ | LSkipCommit _ | LBackoffOver | LRebalance => true
  | LCtxDone => ended s
  | Consumer.LSubmit _ | LHandler _ _ _ | LCommit _ _ => false
  end.

(** What the pool does on its own, or for a caller of [Stop]. *)
Definition own_of_pool (l : WorkerPool.label) : bool :=
  match l with
  | WorkerPool.LSubmit _ _ | WorkerPool.LSend _ | WorkerPool.LHandoff _ _ | WorkerPool.LRecover _
  | WorkerPool.LSubmitDone _ | WorkerPool.LTaskDone _ => false
  | _ => true
  end.

Definition accepts (l : WorkerPool.label) (i : nat) : bool :=
  match l with WorkerPool.LSend j | WorkerPool.LHandoff _ j => bool_decide (j = i) | _ => false end.
Definition refuses (l : WorkerPool.label) (i : nat) : bool :=
  match l with WorkerPool.LSubmitDone j | WorkerPool.LRecover j => bool_decide (j = i) | _ => false end.

(** The task a label of [dispatch] is in. *)
Definition task_of (l : Consumer.label) : option nat :=
  match l with LHandler k _ _ | LCommit k _ => Some k | _ => None end.

Definition live_step (l : label) (s : state) : option state :=
  match l with
  | LLoop l => if own_of_loop l s then loop_step l s else None
  | LSubmit =>
      match at_ (loop s) with
      | Submitting _ => pool_step (WorkerPool.LSubmit (current s) ctx) s
      | _ => None
      end
  | LAccepted l => if accepts l (current s) then s ← pool_step l s; loop_step (Consumer.LSubmit true) s else None
  | LRefused l => if refuses l (current s) then s ← pool_step l s; loop_step (Consumer.LSubmit false) s else None
  | LTask l =>
      match task_of l with
      | Some k => if bool_decide (k ∈ WorkerPool.running (WorkerPool.workers (pl s))) then loop_step l s else None
      | None => None
      end
  | LTaskDone w =>
      match WorkerPool.workers (pl s) !! w with
      | Some (WorkerPool.Running k) =>
          match tasks (loop s) !! k with
          | Some (_, Ended) => pool_step (WorkerPool.LTaskDone w) s
          | _ => None
          end
      | _ => None
      end
  | LPool l => if own_of_pool l then pool_step l s else None
  | LLagBegin =>
      if ticking s then None
      else
        let ok := 0 <? metricsInterval c in
        Some (mkRun (loop s) (pl s) ok (negb ok) (lag_over s) (lag s) (returned s))
  | LLagTick topic z =>
      if ticking s && negb (lag_over s)
      then Some (mkRun (loop s) (pl s) true false false (poll_lag c topic z (lag s)) (returned s)) else None
  | LLagDone =>
      if ticking s && negb (lag_over s) && ended s
      then Some (mkRun (loop s) (pl s) true false true (lag s) (returned s)) else None
  | LReturn =>
      match at_ (loop s), WorkerPool.at_ (pl s) with
      | Returned, WorkerPool.Returned =>
          if lag_over s && negb (returned s)
          then Some (mkRun (loop s) (pl s) (ticking s) false true (lag s) true) else None
      | _, _ => None
      end
  end.

(** Nothing runs after a panic that no goroutine recovers. *)
Definition step (l : label) (s : state) : option state := if crashed s then None else live_step l s.

Lemma step_live l s s' : step l s = Some s' → live_step l s = Some s'.
Proof. unfold step. by destruct (crashed s). Qed.

Context (pos0 : gmap partition Z) (m0 : metrics).

(** [Start] once connected: the goroutines are launched. *)
Definition start : state := mkRun (start_at pos0 m0) WorkerPool.init false false false m0 false.

(** ** Each part runs as it does alone *)
Lemma loop_step_spec l s s' :
  loop_step l s = Some s' → Consumer.step c broker l (loop s) = Some (loop s') ∧ pl s' = pl s ∧
    lag_over s' = lag_over s ∧ returned s' = returned s.
Proof. unfold loop_step. intros (q & Hq & H)%bind_Some. by simplify_eq/=. Qed.

Lemma pool_step_spec l s s' :
  pool_step l s = Some s' → WorkerPool.step p ctx l (pl s) = Some (pl s') ∧ loop s' = loop s ∧
    lag_over s' = lag_over s ∧ returned s' = returned s.
Proof. unfold pool_step. intros (q & Hq & H)%bind_Some. by simplify_eq/=. Qed.

Lemma step_projects l s s' :
  step l s = Some s' →
  reach (Consumer.step c broker) (loop s) (loop s') ∧ reach (WorkerPool.step p ctx) (pl s) (pl s').
Proof.
  assert (∀ l s s', loop_step l s = Some s' →
    reach (Consumer.step c broker) (loop s) (loop s') ∧ reach (WorkerPool.step p ctx) (pl s) (pl s')) as HL.
  { intros l0 t t' (H & -> & _)%loop_step_spec. split; [by eapply reach_step|apply reach_refl]. }
  assert (∀ l s s', pool_step l s = Some s' →
    reach (Consumer.step c broker) (loop s) (loop s') ∧ reach (WorkerPool.step p ctx) (pl s) (pl s')) as HP.
  { intros l0 t t' (H & -> & _)%pool_step_spec. split; [apply reach_refl|by eapply reach_step]. }
  intros H%step_live. destruct l; simpl in H; repeat (case_match; try done); try (by eapply HL); try (by eapply HP).
  1, 2: apply bind_Some in H as (s1 & [H1 H2]%HP & [H3 H4]%HL); split; by eapply reach_trans.
  all: simplify_eq/=; split; apply reach_refl.
Qed.

Lemma start_projects s :
  reach step start s →
  reach (Consumer.step c broker) (start_at pos0 m0) (loop s) ∧ reach (WorkerPool.step p ctx) WorkerPool.init (pl s).
Proof.
  intros Hr. split.
  - refine (reach_project step _ loop start s _ Hr). intros l s1 s2 H. by apply step_projects in H as [? _].
  - refine (reach_project step _ pl start s _ Hr). intros l s1 s2 H. by apply step_projects in H as [_ ?].
Qed.

(** ** How the two are tied *)
Record Link (s : state) : Prop := mkLink {
  k_accepted : WorkerPool.accepted (pl s) = seq 0 (current s);
  k_submits i ct r : WorkerPool.submits (pl s) !! i = Some (ct, r) → ct = ctx ∧
    match r with
    | WorkerPool.SubmitReturned None => (i < current s)%nat
    | WorkerPool.SubmitReturned (Some _) => i = current s ∧ at_ (loop s) = Returned
    | _ => i = current s ∧ ∃ m, at_ (loop s) = Submitting m
    end;
  k_begun k m q : tasks (loop s) !! k = Some (m, q) → q ≠ Waiting → k ∈ WorkerPool.started (pl s);
  k_open k m q : tasks (loop s) !! k = Some (m, q) → q ≠ Ended → k ∉ WorkerPool.finished (pl s);
  k_closed : WorkerPool.closed (pl s) = true → ended s = true;
  k_lag : lag_over s = true → ended s = true;
  k_returned : returned s = true → at_ (loop s) = Returned ∧ WorkerPool.at_ (pl s) = WorkerPool.Returned ∧ lag_over s = true;
}.

Lemma Link_start : Link start.
Proof. by constructor. Qed.

(** What a step that takes no task keeps. *)
Lemma pool_own_keeps l q q' :
  own_of_pool l = true → WorkerPool.step p ctx l q = Some q' →
  WorkerPool.accepted q' = WorkerPool.accepted q ∧ WorkerPool.finished q' = WorkerPool.finished q ∧
  ∀ i ct r, WorkerPool.submits q' !! i = Some (ct, r) →
    WorkerPool.submits q !! i = Some (ct, r) ∨
    (r = WorkerPool.Recovering ∧ WorkerPool.submits q !! i = Some (ct, WorkerPool.Selecting)).
Proof.
  intros Hl H. destruct l; try done; simpl in H; repeat (case_match; try done);
    try (apply bind_Some in H as (? & ? & H)); simplify_eq/=; split_and!; auto.
  intros i' ct r Hi. apply lookup_insert_Some in Hi as [[-> [= <- <-]]|[_ ?]]; eauto.
Qed.

Lemma ended_mono l s s' : pool_step l s = Some s' → ended s = true → ended s' = true.
Proof.
  intros (H & _)%pool_step_spec. unfold ended. rewrite !bool_decide_eq_true. apply (WorkerPool.pool_monotone p ctx _ _ _ H).
Qed.

Lemma Link_pool_own l s s' : own_of_pool l = true → pool_step l s = Some s' → Link s → Link s'.
Proof.
  intros Hl H [H1 H2 H3 H4 H5 H6 H7]. pose proof (ended_mono _ _ _ H) as He.
  apply pool_step_spec in H as (H & El & Eg & Er).
  destruct (WorkerPool.pool_monotone p ctx _ _ _ H) as (_ & M2 & M3 & M4), (pool_own_keeps _ _ _ Hl H) as (K1 & K2 & K3).
  unfold current in *. constructor; unfold current; rewrite ?El, ?K1, ?K2, ?Eg, ?Er; eauto.
  - intros i ct r [Hi|[-> Hi]]%K3; [by apply H2|]. by apply H2 in Hi.
  - intros Hc. apply He. destruct (M3 Hc) as [?|Hn]; [auto|]. unfold ended. by apply bool_decide_eq_true.
  - intros Hr. destruct (H7 Hr) as (? & ? & ?). auto.
Qed.

(** Steps of the loop but for [Submit]: the tasks stay. *)
Lemma loop_own_tasks l q q' :
  match l with Consumer.LSubmit _ | LHandler _ _ _ | LCommit _ _ => False | _ => True end →
  Consumer.step c broker l q = Some q' →
  tasks q' = tasks q ∧ (at_ q' = at_ q ∨ (∀ m, at_ q ≠ Submitting m) ∧ at_ q ≠ Returned).
Proof.
  intros Hl H. destruct l; try done; simpl in H; try (simplify_eq; by split; [|left]); destruct (at_ q) eqn:E; try done;
    try (apply bind_Some in H as (m0' & _ & H)); simplify_eq/=; try destruct err; (split; [done|right; by split]).
Qed.

Lemma Link_loop_own l s s' : own_of_loop l s = true → loop_step l s = Some s' → Link s → Link s'.
Proof.
  intros Hl H [H1 H2 H3 H4 H5 H6 H7]. apply loop_step_spec in H as (H & El & Eg & Er).
  destruct (loop_own_tasks l (loop s) (loop s')) as (Et & [Ea|[Hs Hr]]); [by destruct l|exact H|..];
    unfold current, ended in *; constructor; unfold current, ended; rewrite ?El, ?Et, ?Eg, ?Er; rewrite ?Ea; auto.
  - intros i ct r Hi. destruct (H2 i ct r Hi) as [-> Hm]. split; [done|].
    destruct r as [| |[e|]]; [..|exact Hm]; destruct Hm as [_ Hm]; [destruct Hm as [m Hm]; by destruct (Hs m)..|done].
  - intros Hret. by destruct (H7 Hret) as (? & _).
Qed.

Lemma Link_call m s s' :
  at_ (loop s) = Submitting m → pool_step (WorkerPool.LSubmit (current s) ctx) s = Some s' → Link s → Link s'.
Proof.
  intros Hat H [H1 H2 H3 H4 H5 H6 H7]. apply pool_step_spec in H as (H & El & Eg & Er). simpl in H.
  destruct (WorkerPool.submits (pl s) !! current s); simplify_eq. unfold current, ended in *.
  destruct s as [q q' lo la re], s' as [t t' lo' la' re']. simpl in *. subst. constructor; simpl; try done.
  intros i ct r [[<- [= <- <-]]|[_ Hi]]%lookup_insert_Some; [|by apply H2]. split; [done|]. split; [done|]. eauto.
Qed.

Lemma pool_known q k :
  WorkerPool.Inv p q → k ∈ WorkerPool.running (WorkerPool.workers q) ++ WorkerPool.finished q →
  k ∈ WorkerPool.started q ∧ k ∈ WorkerPool.accepted q.
Proof.
  intros [_ Hf Ho _ _ _ _] Hk. rewrite <-Ho in Hk. split; [done|]. rewrite <-Hf. apply elem_of_app. by left.
Qed.

Lemma running_not_finished q k :
  WorkerPool.Inv p q → k ∈ WorkerPool.running (WorkerPool.workers q) → k ∉ WorkerPool.finished q.
Proof.
  intros [_ Hf Ho Hn _ _ _] Hk Hk'. rewrite <-Hf in Hn. apply NoDup_app in Hn as [Hn _]. rewrite Ho in Hn.
  apply NoDup_app in Hn as (_ & Hn & _). by apply (Hn k).
Qed.

Lemma Link_accepted l s s1 s' :
  WorkerPool.Inv p (pl s) → accepts l (current s) = true → pool_step l s = Some s1 →
  loop_step (Consumer.LSubmit true) s1 = Some s' → Link s → Link s'.
Proof.
  intros HI Hl HP HL [H1 H2 H3 H4 H5 H6 H7]. pose proof (ended_mono _ _ _ HP) as He.
  apply pool_step_spec in HP as (HP & E1 & E2 & E3). apply loop_step_spec in HL as (HL & E4 & E5 & E6).
  rewrite E1 in HL. simpl in HL. destruct (at_ (loop s)) eqn:Eat; try done.
  assert (current s' = S (current s)) as Ec by (unfold current; inversion HL; simpl; rewrite length_app; simpl; lia).
  assert (ended s' = ended s1) as Ee by (unfold ended; by rewrite E4).
  assert (tasks (loop s') = tasks (loop s) ++ [(m, Waiting)]) as Et by (by inversion HL).
  destruct (WorkerPool.pool_monotone p ctx _ _ _ HP) as (_ & M2 & M3 & _).
  assert (WorkerPool.accepted (pl s1) = WorkerPool.accepted (pl s) ++ [current s] ∧
    WorkerPool.finished (pl s1) = WorkerPool.finished (pl s) ∧
    ∃ ct, WorkerPool.submits (pl s) !! current s = Some (ct, WorkerPool.Selecting) ∧
      WorkerPool.submits (pl s1) = <[current s := (ct, WorkerPool.SubmitReturned None)]> (WorkerPool.submits (pl s)))
    as (A1 & A2 & ct & A3 & A4).
  { destruct l; try done; simpl in Hl; apply bool_decide_eq_true in Hl; subst; simpl in HP;
      repeat (case_match; try done); simplify_eq/=; rewrite <-HP; simpl; eauto 10. }
  constructor; rewrite ?Ec, ?E4, ?E5, ?E6, ?E2, ?E3, ?Ee; auto.
  - by rewrite A1, H1, seq_S.
  - intros i ct' r Hi. rewrite A4 in Hi. apply lookup_insert_Some in Hi as [[<- [= <- <-]]|[Hne Hi]].
    + destruct (H2 _ _ _ A3) as [-> _]. split; [done|lia].
    + destruct (H2 _ _ _ Hi) as [-> Hr]. split; [done|]. destruct r as [| |[]]; naive_solver lia.
  - intros k m' q Hk Hq. rewrite Et in Hk. apply lookup_app_Some in Hk as [Hk|[_ Hk]]; [eauto|].
    apply list_lookup_singleton_Some in Hk as [_ [= <- <-]]. done.
  - intros k m' q Hk Hq. rewrite A2. rewrite Et in Hk. apply lookup_app_Some in Hk as [Hk|[Hge Hk]]; [eauto|].
    intros Hin. destruct (pool_known (pl s) k HI) as [_ Ha]; [apply elem_of_app; by right|].
    rewrite H1, elem_of_seq in Ha. unfold current in Ha. lia.
  - intros Hc. apply He. destruct (M3 Hc) as [?|Hn]; [auto|]. unfold ended. by apply bool_decide_eq_true.
  - intros Hr. by destruct (H7 Hr).
Qed.

Lemma Link_refused l s s1 s' :
  refuses l (current s) = true → pool_step l s = Some s1 →
  loop_step (Consumer.LSubmit false) s1 = Some s' → Link s → Link s'.
Proof.
  intros Hl HP HL [H1 H2 H3 H4 H5 H6 H7]. pose proof (ended_mono _ _ _ HP) as He.
  apply pool_step_spec in HP as (HP & E1 & E2 & E3). apply loop_step_spec in HL as (HL & E4 & E5 & E6).
  rewrite E1 in HL. simpl in HL. destruct (at_ (loop s)) eqn:Eat; try done.
  assert (tasks (loop s') = tasks (loop s) ∧ at_ (loop s') = Returned) as [Et Er] by (by inversion HL).
  assert (current s' = current s) as Ec by (unfold current; by rewrite Et).
  assert (ended s' = ended s1) as Ee by (unfold ended; by rewrite E4).
  destruct (WorkerPool.pool_monotone p ctx _ _ _ HP) as (_ & _ & M3 & _).
  assert (WorkerPool.accepted (pl s1) = WorkerPool.accepted (pl s) ∧
    WorkerPool.finished (pl s1) = WorkerPool.finished (pl s) ∧ WorkerPool.started (pl s1) = WorkerPool.started (pl s) ∧
    ∃ ct r e, WorkerPool.submits (pl s) !! current s = Some (ct, r) ∧ 
      WorkerPool.submits (pl s1) = <[current s := (ct, WorkerPool.SubmitReturned (Some e))]> (WorkerPool.submits (pl s)))
    as (A1 & A2 & A3 & ct & r & e & A4 & A5).
  { destruct l; try done; simpl in Hl; apply bool_decide_eq_true in Hl; subst; simpl in HP;
      repeat (case_match; try done); try (apply bind_Some in HP as (? & ? & HP)); simplify_eq/=;
      rewrite <-HP; simpl; eauto 10. }
  constructor; rewrite ?Ec, ?E4, ?E5, ?E6, ?E2, ?E3, ?Ee, ?A1, ?A2, ?A3, ?Et; auto.
  - intros i ct' r' Hi. rewrite A5 in Hi. apply lookup_insert_Some in Hi as [[<- [= <- <-]]|[Hne Hi]].
    + destruct (H2 _ _ _ A4) as [-> _]. done.
    + destruct (H2 _ _ _ Hi) as [-> Hr]. split; [done|]. destruct r' as [| |[]]; naive_solver.
  - intros Hc. apply He. destruct (M3 Hc) as [?|Hn]; [auto|]. unfold ended. by apply bool_decide_eq_true.
  - intros Hr. by destruct (H7 Hr).
Qed.

(** A step of [dispatch]: one task moves past its handler, or ends. *)
Lemma dispatch_tasks l k q q' :
  task_of l = Some k → Consumer.step c broker l q = Some q' →
  ∃ m pc pc', tasks q !! k = Some (m, pc) ∧ tasks q' = <[k := (m, pc')]> (tasks q) ∧ pc ≠ Ended ∧ pc' ≠ Waiting ∧
    at_ q' = at_ q ∧ length (tasks q') = length (tasks q).
Proof.
  intros Hl H. destruct l as [| | | | | | |k' dur err|k' err]; try done; simplify_eq/=;
    destruct (tasks q !! k) as [[m []]|] eqn:Ek; try done; destruct err; simplify_eq/=;
    eexists m, _, _; (split; [done|]); (split; [reflexivity|]); rewrite length_insert; done.
Qed.

Lemma Link_task l k s s' :
  WorkerPool.Inv p (pl s) → task_of l = Some k → k ∈ WorkerPool.running (WorkerPool.workers (pl s)) →
  loop_step l s = Some s' → Link s → Link s'.
Proof.
  intros HI Hl Hk H [H1 H2 H3 H4 H5 H6 H7]. apply loop_step_spec in H as (H & El & Eg & Er).
  destruct (dispatch_tasks l k _ _ Hl H) as (m & pc & pc' & Htk & Ht & Hp & Hp' & Eat & Elen).
  unfold current, ended in *. constructor; unfold current, ended; rewrite ?El, ?Elen, ?Eg, ?Er, ?Eat; auto.
  - intros k' m' q Hk' Hq. rewrite Ht in Hk'. apply list_lookup_insert_Some in Hk' as [(-> & _)|[_ Hk']]; [|eauto].
    apply (pool_known (pl s)); [done|]. apply elem_of_app. by left.
  - intros k' m' q Hk' Hq. rewrite Ht in Hk'. apply list_lookup_insert_Some in Hk' as [(-> & _)|[_ Hk']]; [|eauto].
    by apply running_not_finished.
Qed.

Lemma Link_task_done w k m s s' :
  WorkerPool.workers (pl s) !! w = Some (WorkerPool.Running k) → tasks (loop s) !! k = Some (m, Ended) →
  pool_step (WorkerPool.LTaskDone w) s = Some s' → Link s → Link s'.
Proof.
  intros Hw Hk H [H1 H2 H3 H4 H5 H6 H7]. apply pool_step_spec in H as (H & El & Eg & Er).
  simpl in H. rewrite Hw in H. injection H as H.
  destruct s as [q q' lo la re], s' as [t t' lo' la' re']. unfold current, ended in *. simpl in *. subst.
  constructor; unfold ended; simpl; auto.
  intros k' m' q0 Hk' Hq [Hin| ->%list_elem_of_singleton]%elem_of_app; [by eapply H4|]. naive_solver.
Qed.

Definition Inv (s : state) : Prop := WorkerPool.Inv p (pl s) ∧ Link s.

Lemma Link_step l s s' : WorkerPool.Inv p (pl s) → Link s → step l s = Some s' → Link s'.
Proof.
  intros HI HL H%step_live. destruct l; simpl in H.
  - destruct (own_of_loop l s) eqn:E; [by eapply Link_loop_own|done].
  - destruct (at_ (loop s)) eqn:E; try done. by eapply Link_call.
  - destruct (accepts l (current s)) eqn:E; [|done]. apply bind_Some in H as (s1 & ? & ?). by eapply Link_accepted.
  - destruct (refuses l (current s)) eqn:E; [|done]. apply bind_Some in H as (s1 & ? & ?). by eapply Link_refused.
  - destruct (task_of l) as [k|] eqn:E; [|done]. destruct (bool_decide _) eqn:E'; [|done]. to_prop. by eapply Link_task.
  - destruct (WorkerPool.workers (pl s) !! w) as [[]|] eqn:E; try done.
    destruct (tasks (loop s) !! t) as [[m []]|] eqn:E'; try done. by eapply Link_task_done.
  - destruct (own_of_pool l) eqn:E; [|done]. by eapply Link_pool_own.
  - destruct (ticking s); [done|]. simplify_eq. destruct HL. by constructor.
  - destruct (_ && _) eqn:E; [|done]. to_prop. simplify_eq. destruct HL as [? ? ? ? ? ? H7]. constructor; try done.
    intros Hr. simpl in *. destruct (H7 Hr) as (? & ? & ?). naive_solver.
  - destruct (_ && _) eqn:E; [|done]. to_prop. simplify_eq. destruct HL as [? ? ? ? ? ? H7]. constructor; try done.
    intros Hr. simpl in *. by destruct (H7 Hr) as (? & ? & ?).
  - destruct (at_ (loop s)) eqn:E1, (WorkerPool.at_ (pl s)) eqn:E2; try done.
    destruct (_ && _) eqn:E; [|done]. to_prop. simplify_eq. destruct HL. by constructor; auto.
Qed.

Context (cap_nonneg : 0 ≤ WorkerPool.tasks_cap p).

Lemma consumer_start_inv s : reach step start s → Inv s.
Proof.
  intros Hr. pose proof Hr as (_ & Hp)%start_projects. split; [by apply (WorkerPool.workerPool_reach_inv p ctx)|].
  destruct Hr as [ls H]. clear Hp. revert s H. induction ls as [|l ls IH] using rev_ind; intros s H.
  - simpl in H. simplify_eq. apply Link_start.
  - assert (exec step (ls ++ [l]) start = Some s) as H0 by done. apply exec_snoc in H as (s1 & H1 & H2).
    eapply Link_step; [|by apply IH|exact H2].
    apply (WorkerPool.workerPool_reach_inv p ctx); [done|]. apply start_projects. by exists ls.
Qed.

(** ** In flight *)

(** What [consume] is submitting. *)
Definition submitting (q : cpc) : list kmessage := match q with Submitting m => [m] | _ => [] end.

Lemma tasks_in_fetch_order q :
  reach (Consumer.step c broker) (start_at pos0 m0) q → (tasks q).*1 ++ submitting (at_ q) `sublist_of` fetched q.
Proof.
  intros [ls H]. revert H. apply (exec_invariant _ (λ q, (tasks q).*1 ++ submitting (at_ q) `sublist_of` fetched q)); [|done].
  clear q ls. intros l q q' Hq H.
  destruct (task_of l) as [k|] eqn:Ek.
  { destruct (dispatch_tasks l k q q' Ek H) as (m & pc & pc' & H1 & H2 & _ & _ & H3 & _).
    rewrite H2, H3. destruct (task_insert (tasks q) k m pc pc' H1) as [-> _].
    replace (fetched q') with (fetched q); [done|].
    destruct l; simplify_eq/=; rewrite H1 in H; destruct pc; try done; destruct err; by simplify_eq/=. }
  destruct l as [tp|e| | |err|[]| | |]; try done; simpl in H; try (by simplify_eq); destruct (at_ q) eqn:E; try done.
  - apply bind_Some in H as (m & _ & H). simplify_eq/=. rewrite app_nil_r in Hq.
    apply sublist_app; [done|]. destruct (handlerFor c (k_Topic m)); [done|]. apply sublist_nil_l.
  - simplify_eq/=. by destruct (ends_loop e).
  - by simplify_eq/=.
  - by simplify_eq/=.
  - destruct err; by simplify_eq/=.
  - simplify_eq/=. by rewrite app_nil_r, fmap_app.
  - simplify_eq/=. rewrite app_nil_r. etransitivity; [|exact Hq]. by apply sublist_inserts_r.
Qed.

Lemma open_tasks s :
  Inv s →
  (length (filter (λ t, t.2 ≠ Ended) (tasks (loop s))) ≤
   length (WorkerPool.queue (pl s)) + length (WorkerPool.running (WorkerPool.workers (pl s))))%nat.
Proof.
  intros [[_ Hf Ho _ _ _ _] HL].
  rewrite <-length_app. apply (filter_index_bound _ _ (WorkerPool.finished (pl s))).
  - change (seq 0 (current s) ≡ₚ WorkerPool.finished (pl s) ++ WorkerPool.queue (pl s) ++ WorkerPool.running (WorkerPool.workers (pl s))).
    rewrite <-(k_accepted _ HL), <-Hf, Ho. rewrite (app_assoc (WorkerPool.finished _)).
    rewrite (Permutation_app_comm (_ ++ WorkerPool.queue _)). by rewrite app_assoc.
  - intros k [m q] Hk Hq. by eapply (k_open _ HL).
Qed.

(** C28: backpressure and order.  However the loop, the workers and the broker
    interleave, at most [3 * poolSize + 1] messages are fetched and neither done
    with nor refused: those the loop holds, those in the pool's queue and
    those whose handler or commit is running, of which there are never more
    than [poolSize].  Tasks are submitted in the order of fetching and begun in
    the order of submission: the handlers that began are those of the first
    messages submitted. *)
Theorem in_flight_bounded s :
  WorkerPool.New (poolSize c) [] = Some p → 0 ≤ poolSize c < 2 ^ 62 → reach step start s →
  Z.of_nat (length (filter (λ t, t.2 ≠ Ended) (tasks (loop s))) + length (pending (at_ (loop s)))) ≤ 3 * poolSize c + 1 ∧
  Z.of_nat (length (WorkerPool.running (WorkerPool.workers (pl s)))) ≤ poolSize c ∧
  (tasks (loop s)).*1 `sublist_of` fetched (loop s) ∧
  WorkerPool.started (pl s) = seq 0 (length (WorkerPool.started (pl s))) ∧
  ∀ k m q, tasks (loop s) !! k = Some (m, q) → q ≠ Waiting → (k < length (WorkerPool.started (pl s)))%nat.
Proof.
  intros Hp Hn Hr. pose proof (consumer_start_inv s Hr) as HI. pose proof (open_tasks s HI) as Ho.
  pose proof Hr as (Hq & _)%start_projects. apply tasks_in_fetch_order in Hq. destruct HI as [[Hb Hf _ _ _ _ Hph] HL].
  apply New_default in Hp; [|done].
  assert (WorkerPool.size p = poolSize c ∧ WorkerPool.tasks_cap p = 2 * poolSize c) as [Hs Hc] by (by rewrite Hp).
  pose proof (WorkerPool.running_length (WorkerPool.workers (pl s))) as Hl.
  assert (Z.of_nat (length (WorkerPool.workers (pl s))) ≤ poolSize c) as Hw.
  { unfold WorkerPool.phase_ok in Hph. destruct (WorkerPool.at_ (pl s)); [destruct Hph as [-> _]; simpl|..]; lia. }
  assert (length (pending (at_ (loop s))) ≤ 1)%nat as Hpe by (destruct (at_ (loop s)); simpl; lia).
  assert (WorkerPool.started (pl s) = seq 0 (length (WorkerPool.started (pl s)))) as Hst.
  { pose proof (k_accepted _ HL) as Ha. rewrite <-Hf in Ha. apply (f_equal (take (length (WorkerPool.started (pl s))))) in Ha.
    rewrite take_app_length, take_seq in Ha. rewrite Ha at 1. f_equal.
    apply (f_equal length) in Ha. rewrite length_seq in Ha. lia. }
  split_and!; [lia|lia| |exact Hst|].
  - etransitivity; [|exact Hq]. by apply sublist_inserts_r.
  - intros k m q Hk Hne. pose proof (k_begun _ HL _ _ _ Hk Hne) as Hin. rewrite Hst, elem_of_seq in Hin. lia.
Qed.

(** ** Return *)
Lemma returned_stays ls s s' :
  at_ (loop s) = Returned → exec step ls s = Some s' →
  at_ (loop s') = Returned ∧ fetched (loop s') = fetched (loop s) ∧ (tasks (loop s')).*1 = (tasks (loop s)).*1.
Proof.
  revert s. induction ls as [|l ls IH]; intros s Hat H; simpl in H; [by simplify_eq|].
  apply bind_Some in H as (s1 & H1 & H2).
  assert (at_ (loop s1) = Returned ∧ fetched (loop s1) = fetched (loop s) ∧ (tasks (loop s1)).*1 = (tasks (loop s)).*1)
    as (Ha & <- & <-); [|by apply IH].
  clear IH H2. apply step_live in H1. destruct l; simpl in H1; rewrite ?Hat in H1; repeat (case_match; try done);
    try (apply bind_Some in H1 as (s2 & (_ & E & _)%pool_step_spec & H1); apply loop_step_spec in H1 as (H1 & _);
         rewrite E in H1; simpl in H1; by rewrite Hat in H1);
    try (apply pool_step_spec in H1 as (_ & -> & _); done); try (by simplify_eq/=).
  - apply loop_step_spec in H1 as (H1 & _). destruct l; try done; simpl in H1; try (by rewrite Hat in H1).
    injection H1 as H1. by rewrite <-H1.
  - apply loop_step_spec in H1 as (H1 & _). destruct (dispatch_tasks l n _ _ ltac:(done) H1) as (m & pc & pc' & E1 & E2 & _ & _ & -> & _).
    rewrite E2. destruct (task_insert (tasks (loop s)) n m pc pc' E1) as [-> _]. split_and!; [done| |done].
    destruct l; simplify_eq/=; rewrite E1 in H1; destruct pc; try done; destruct err; simplify_eq/=; try done;
    match goal with E : _ = loop s1 |- _ => by rewrite <-E end.
Qed.

(** The steps of [Start]'s own goroutines that bring its end nearer: [FetchMessage]
    fails, the context's branch of a [select] is taken, [Submit] is called and
    refused, what was launched winds up.  No handler, commit or further message is
    waited for. *)
Definition winds_up (l : label) : bool :=
  match l with
  | LLoop (LFetchErr _) | LLoop (LSkipCommit _) | LLoop LCtxDone | LSubmit | LRefused _ | LLagBegin | LLagDone | LReturn => true
  | LPool l =>
      match l with
      | WorkerPool.LStart | WorkerPool.LSpawn | WorkerPool.LClose | WorkerPool.LReturn | WorkerPool.LSendClosed _ => true
      | _ => false
      end
  | _ => false
  end.

(** Those that put it off: [FetchMessage] returns a message all the same, and a
    back-off is waited out. *)
Definition prolongs (l : label) : bool :=
  match l with LLoop (LFetch _) | LLoop LBackoffOver => true | _ => false end.

Definition call_rank (o : option (context * WorkerPool.submit)) : nat :=
  match o with None => 2 | Some (_, WorkerPool.Selecting) => 1 | _ => 0 end.
Definition loop_rank (s : state) : nat :=
  match at_ (loop s) with
  | Returned => 0 | BackingOff => 1 | Fetching => 2 | Skipping _ => 3
  | Submitting _ => 1 + call_rank (WorkerPool.submits (pl s) !! current s)
  end.
Definition pool_rank (ph : WorkerPool.phase) : nat :=
  match ph with
  | WorkerPool.NotStarted => 3 + Z.to_nat (WorkerPool.size p)
  | WorkerPool.Spawning n => 2 + Z.to_nat n
  | WorkerPool.Waiting => 2 | WorkerPool.Closing => 1 | WorkerPool.Returned => 0
  end.
Definition rank (s : state) : nat :=
  loop_rank s + pool_rank (WorkerPool.at_ (pl s)) + (if lag_over s then 0 else if ticking s then 1 else 2) + (if returned s then 0 else 1).

Lemma call_rank_bound o : (call_rank o ≤ 2)%nat.
Proof. destruct o as [[ct []]|]; simpl; lia. Qed.

Lemma loop_step_ticks l s s' : loop_step l s = Some s' → ticking s' = ticking s.
Proof. unfold loop_step. intros (q & _ & H)%bind_Some. by simplify_eq/=. Qed.

Lemma pool_step_ticks l s s' : pool_step l s = Some s' → ticking s' = ticking s.
Proof. unfold pool_step. intros (q & _ & H)%bind_Some. by simplify_eq/=. Qed.

Lemma rank_loop l s s' :
  own_of_loop l s = true → loop_step l s = Some s' →
  (Nat.b2n (winds_up (LLoop l)) + rank s' ≤ rank s + Nat.b2n (prolongs (LLoop l)))%nat.
Proof.
  intros Hl H. pose proof (loop_step_ticks _ _ _ H) as Et. apply loop_step_spec in H as (H & El & Eg & Er).
  unfold rank, loop_rank, current. rewrite El, Eg, Er, Et.
  destruct l; try done; simpl in H.
  2-5: destruct (at_ (loop s)) eqn:E; try done; injection H as H; rewrite <-H; simpl; try lia;
    destruct (ends_loop e); simpl; lia.
  - destruct (at_ (loop s)) eqn:E; try done. apply bind_Some in H as (m & _ & H). injection H as H. rewrite <-H. simpl.
    pose proof (call_rank_bound (WorkerPool.submits (pl s) !! length (tasks (loop s)))).
    destruct (handlerFor c (k_Topic m)); simpl; lia.
  - injection H as H. rewrite <-H. simpl. lia.
Qed.

Lemma rank_pool l s s' :
  WorkerPool.Inv p (pl s) → Link s → own_of_pool l = true → pool_step l s = Some s' →
  (Nat.b2n (winds_up (LPool l)) + rank s' ≤ rank s)%nat.
Proof.
  intros [_ _ _ _ _ _ Hph] HL Hl H. pose proof (pool_step_ticks _ _ _ H) as Et.
  apply pool_step_spec in H as (H & El & Eg & Er).
  unfold rank, loop_rank, current. rewrite El, Eg, Er, Et. unfold WorkerPool.phase_ok in Hph.
  destruct (winds_up (LPool l)) eqn:Ew; simpl Nat.b2n.
  - destruct l; try done; simpl in H.
    1-4: destruct (WorkerPool.at_ (pl s)) eqn:E; try done; repeat (case_match; try done); simplify_eq/=; to_prop;
      rewrite <-H; simpl; lia.
    destruct (WorkerPool.submits (pl s) !! i) as [[ct []]|] eqn:E; try done. case_match; simplify_eq/=.
    destruct (k_submits _ HL _ _ _ E) as (_ & -> & m & Hm). rewrite Hm. rewrite <-H. cbn [WorkerPool.submits WorkerPool.at_ WorkerPool.set_submit].
    unfold current in *. rewrite E, lookup_insert_eq. simpl. lia.
  - assert (WorkerPool.at_ (pl s') = WorkerPool.at_ (pl s) ∧ WorkerPool.submits (pl s') = WorkerPool.submits (pl s)) as [-> ->];
      [|lia].
    destruct l; try done; simpl in H; repeat (case_match; try done); try (apply bind_Some in H as (? & ? & H));
      simplify_eq/=; by rewrite <-H.
Qed.

Lemma rank_accepted l s s1 s' :
  accepts l (current s) = true → pool_step l s = Some s1 → loop_step (Consumer.LSubmit true) s1 = Some s' →
  (rank s' ≤ rank s)%nat.
Proof.
  intros E HP H. pose proof (pool_step_ticks _ _ _ HP) as T1. pose proof (loop_step_ticks _ _ _ H) as T2.
  apply pool_step_spec in HP as (HP & E1 & E2 & E3).
  apply loop_step_spec in H as (H & E4 & E5 & E6). rewrite E1 in H. simpl in H.
  destruct (at_ (loop s)) eqn:Eat; try done. injection H as H.
  assert (WorkerPool.at_ (pl s1) = WorkerPool.at_ (pl s) ∧
    ∃ ct, WorkerPool.submits (pl s) !! current s = Some (ct, WorkerPool.Selecting)) as (Ea & ct & Es).
  { destruct l; try done; simpl in E; apply bool_decide_eq_true in E; subst; simpl in HP; repeat (case_match; try done);
      simplify_eq/=; rewrite <-HP; eauto. }
  unfold rank, loop_rank. rewrite Eat, Es, <-H, E4, E5, E6, E2, E3, Ea, T2, T1. simpl. lia.
Qed.

Lemma rank_refused l s s1 s' :
  refuses l (current s) = true → pool_step l s = Some s1 → loop_step (Consumer.LSubmit false) s1 = Some s' →
  (rank s' < rank s)%nat.
Proof.
  intros E HP H. pose proof (pool_step_ticks _ _ _ HP) as T1. pose proof (loop_step_ticks _ _ _ H) as T2.
  apply pool_step_spec in HP as (HP & E1 & E2 & E3).
  apply loop_step_spec in H as (H & E4 & E5 & E6). rewrite E1 in H. simpl in H.
  destruct (at_ (loop s)) eqn:Eat; try done. injection H as H.
  assert (WorkerPool.at_ (pl s1) = WorkerPool.at_ (pl s)) as Ea.
  { destruct l; try done; simpl in HP; repeat (case_match; try done); try (apply bind_Some in HP as (? & ? & HP));
      simplify_eq/=; by rewrite <-HP. }
  unfold rank, loop_rank. rewrite Eat, <-H, E4, E5, E6, E2, E3, Ea, T2, T1. simpl. lia.
Qed.

(** Steps in a worker leave it alone. *)
Lemma rank_task l k s s' : task_of l = Some k → loop_step l s = Some s' → rank s' = rank s.
Proof.
  intros Hk H. pose proof (loop_step_ticks _ _ _ H) as Et. apply loop_step_spec in H as (H & El & Eg & Er).
  destruct (dispatch_tasks l k _ _ Hk H) as (m & pc & pc' & _ & _ & _ & _ & Ea & En).
  unfold rank, loop_rank, current. by rewrite El, Eg, Er, Et, Ea, En.
Qed.

Lemma rank_step l s s' :
  0 < metricsInterval c → Inv s → (lag_over s = true → ticking s = true) → step l s = Some s' →
  (Nat.b2n (winds_up l) + rank s' ≤ rank s + Nat.b2n (prolongs l))%nat.
Proof.
  intros Hm [HI HL] Ht H%step_live. destruct l; simpl in H.
  - destruct (own_of_loop l s) eqn:E; [|done]. by apply rank_loop.
  - destruct (at_ (loop s)) eqn:E; try done. pose proof (pool_step_ticks _ _ _ H) as Et.
    apply pool_step_spec in H as (H & El & Eg & Er). simpl in H.
    destruct (WorkerPool.submits (pl s) !! current s) eqn:Es; simplify_eq/=.
    unfold rank, loop_rank, current in *. rewrite El, Eg, Er, Et, E, Es, <-H. simpl. rewrite lookup_insert_eq. simpl. lia.
  - destruct (accepts l (current s)) eqn:E; [|done]. apply bind_Some in H as (s1 & HP & H).
    pose proof (rank_accepted l s s1 s' E HP H). simpl. lia.
  - destruct (refuses l (current s)) eqn:E; [|done]. apply bind_Some in H as (s1 & HP & H).
    pose proof (rank_refused l s s1 s' E HP H). simpl. lia.
  - destruct (task_of l) as [k|] eqn:E; [|done]. destruct (bool_decide _); [|done].
    rewrite (rank_task l k s s' E H). simpl. lia.
  - destruct (WorkerPool.workers (pl s) !! w) as [[]|] eqn:E; try done.
    destruct (tasks (loop s) !! t) as [[m []]|] eqn:E'; try done. pose proof (pool_step_ticks _ _ _ H) as Et.
    apply pool_step_spec in H as (H & El & Eg & Er). simpl in H. rewrite E in H. injection H as H.
    unfold rank, loop_rank, current. rewrite El, Eg, Er, Et, <-H. simpl. lia.
  - destruct (own_of_pool l) eqn:E; [|done]. pose proof (rank_pool l s s' HI HL E H). simpl in *. lia.
  - destruct (ticking s) eqn:E; [done|]. injection H as <-. unfold rank, loop_rank, current. simpl. rewrite E.
    destruct (lag_over s) eqn:El; [|rewrite (proj2 (Z.ltb_lt _ _) Hm); simpl; lia].
    by specialize (Ht eq_refl).
  - destruct (ticking s) eqn:E, (lag_over s) eqn:E'; try done. injection H as <-. unfold rank, loop_rank, current. simpl.
    rewrite E, E'. lia.
  - destruct (ticking s) eqn:E0, (lag_over s) eqn:E1, (ended s) eqn:E2; try done. simpl in H. simplify_eq.
    unfold rank, loop_rank, current. simpl. rewrite E0, E1. lia.
  - destruct (at_ (loop s)) eqn:E1, (WorkerPool.at_ (pl s)) eqn:E2; try done.
    destruct (lag_over s) eqn:E3, (returned s) eqn:E4; try done. simpl in H. simplify_eq.
    unfold rank, loop_rank, current. simpl. rewrite E1, E2, E3, E4. simpl. lia.
Qed.

(** With an interval a ticker takes nothing panics, and [pollLag] ends only once it
    has its ticker. *)
Lemma ticker_inv s :
  0 < metricsInterval c → reach step start s → crashed s = false ∧ (lag_over s = true → ticking s = true).
Proof.
  intros Hm [ls H]. revert H. apply (exec_invariant _ (λ s, crashed s = false ∧ (lag_over s = true → ticking s = true))); [|done].
  clear s ls. intros l s s' Hs H%step_live. destruct l; simpl in H; repeat (case_match; try done);
    try (apply bind_Some in H as (s1 & HP & H); unfold pool_step in HP; apply bind_Some in HP as (q1 & _ & HP); simplify_eq/=);
    unfold pool_step, loop_step in *; try (apply bind_Some in H as (q & _ & H)); simplify_eq/=; try done; try naive_solver.
  - by rewrite (proj2 (Z.ltb_lt _ _) Hm).
  - split; [done|]. intros _. apply Hs. by destruct (lag_over s).
Qed.

(** [time.NewTicker] panics on an interval that is not positive, and with it the
    process. *)
Lemma interval_not_positive_panics :
  metricsInterval c ≤ 0 → ∃ s, step LLagBegin start = Some s ∧ crashed s = true ∧ ∀ l, step l s = None.
Proof.
  intros Hm. eexists. split; [reflexivity|]. unfold step. simpl. by rewrite (proj2 (Z.ltb_ge _ _) Hm).
Qed.

(** Nothing of it is ever stuck. *)
Lemma wind_up_enabled s :
  WorkerPool.drainOnStop p = false → Inv s → crashed s = false → ended s = true → returned s = false →
  ∃ l s', winds_up l = true ∧ step l s = Some s'.
Proof.
  intros Hd [[_ _ _ _ _ _ Hph] HL] Hcr He Hr. unfold step. rewrite Hcr.
  pose proof He as Hc. unfold ended in Hc. apply bool_decide_eq_true in Hc.
  destruct (ctx_err (WorkerPool.σ (pl s)) ctx) as [e|] eqn:Ee; [clear Hc|done].
  destruct (at_ (loop s)) as [|m|m| |] eqn:Eat.
  - exists (LLoop (LFetchErr Canceled)). simpl. unfold loop_step. simpl. rewrite Eat. eexists. split; [done|reflexivity].
  - exists (LLoop (LSkipCommit None)). simpl. unfold loop_step. simpl. rewrite Eat. eexists. split; [done|reflexivity].
  - destruct (WorkerPool.submits (pl s) !! current s) as [[ct r]|] eqn:Es.
    + destruct (k_submits _ HL _ _ _ Es) as [-> Hm]. destruct r as [| |[e'|]].
      * exists (LRefused (WorkerPool.LSubmitDone (current s))). simpl. rewrite bool_decide_eq_true_2 by done.
        unfold pool_step. simpl. rewrite Es, Ee. simpl. unfold loop_step. simpl. rewrite Eat. eexists. split; [done|reflexivity].
      * exists (LRefused (WorkerPool.LRecover (current s))). simpl. rewrite bool_decide_eq_true_2 by done.
        unfold pool_step. simpl. rewrite Es. simpl. unfold loop_step. simpl. rewrite Eat. eexists. split; [done|reflexivity].
      * destruct Hm as [_ Hm]. congruence.
      * lia.
    + exists LSubmit. simpl. rewrite Eat. unfold pool_step. simpl. rewrite Es. eexists. split; [done|reflexivity].
  - exists (LLoop LCtxDone). simpl. rewrite He. unfold loop_step. simpl. rewrite Eat. eexists. split; [done|reflexivity].
  - destruct (WorkerPool.at_ (pl s)) eqn:Ep.
    + exists (LPool WorkerPool.LStart). simpl. unfold pool_step. simpl. rewrite Ep. eexists. split; [done|reflexivity].
    + exists (LPool WorkerPool.LSpawn). simpl. unfold pool_step. simpl. rewrite Ep. eexists. split; [done|reflexivity].
    + exists (LPool WorkerPool.LClose). simpl. unfold pool_step. simpl. rewrite Ep, Ee. eexists. split; [done|reflexivity].
    + exists (LPool WorkerPool.LReturn). simpl. unfold pool_step. simpl. rewrite Ep, Hd. eexists. split; [done|reflexivity].
    + destruct (lag_over s) eqn:El.
      * exists LReturn. simpl. rewrite Eat, Ep, El, Hr. eexists. split; [done|reflexivity].
      * destruct (ticking s) eqn:Et.
        -- exists LLagDone. simpl. rewrite Et, El, He. eexists. split; [done|reflexivity].
        -- exists LLagBegin. simpl. rewrite Et. eexists. split; [done|reflexivity].
Qed.

(** C26: the end of [Start].  Of a [Start] that connected (its earlier errors are
    those of [Consumer.Start]), whose metrics interval is positive (a ticker
    panics on another) and whose pool does not drain, as it makes it: it returns
    only after its context has ended, [consume] and [pollLag] have returned and
    the pool's channel is closed; from then on no message is fetched and no task
    submitted.  Once the context has ended, in whatever state the consumer is,
    and whether or not a handler ever ends, some step towards the return is
    enabled until it has returned.  On any schedule there are at most [rank s] such
    steps, and one more for each message that [FetchMessage] still returns and
    each back-off that is waited out: given that an ended context stops those
    two, [Start] returns. *)
Theorem consumer_start_returns s :
  WorkerPool.drainOnStop p = false → 0 < metricsInterval c → reach step start s →
  (returned s = true →
     ended s = true ∧ at_ (loop s) = Returned ∧ lag_over s = true ∧ WorkerPool.closed (pl s) = true ∧
     ∀ ls s', exec step ls s = Some s' →
       fetched (loop s') = fetched (loop s) ∧ (tasks (loop s')).*1 = (tasks (loop s)).*1) ∧
  (ended s = true → returned s = false → ∃ l s', winds_up l = true ∧ step l s = Some s') ∧
  (∀ ls s', exec step ls s = Some s' → (count_steps winds_up ls ≤ rank s + count_steps prolongs ls)%nat).
Proof.
  intros Hd Hm Hr. pose proof (consumer_start_inv s Hr) as HI. split_and!.
  - intros Hret. destruct HI as [[_ _ _ _ _ _ Hph] HL]. destruct (k_returned _ HL Hret) as (Ha & Hp & Hl).
    unfold WorkerPool.phase_ok in Hph. rewrite Hp in Hph. destruct Hph as (_ & Hc & _).
    split; [by apply (k_lag _ HL)|]. split; [done|]. split; [done|]. split; [done|].
    intros ls s' H. destruct (returned_stays ls s s' Ha H) as (_ & ? & ?). done.
  - apply wind_up_enabled; [done|done|by apply ticker_inv].
  - intros ls s' H.
    assert (count_steps winds_up ls + rank s' ≤ rank s + count_steps prolongs ls)%nat; [|lia].
    eapply (exec_count_bound step (λ s, reach step start s)); [|exact Hr|exact H].
    intros l t t' Ht Hst. split; [by eapply reach_snoc|]. apply rank_step; [done|by apply consumer_start_inv|by apply ticker_inv|done].
Qed.

(** C9: the consumer is its loop and its pool.  Along every schedule of [Start],
    [consume] does what the loop alone can do and the pool what the pool alone
    can do, so what is proved of either holds of them together; the tasks the
    pool accepted are those of the submitted messages, in order; a commit is in
    flight only while a worker runs its task; and once the workers have left
    their loops (of a pool with a worker, all launched) every submitted message
    was handled or failed: none is lost between the two. *)
Theorem consumer_parts s `{Hbroker : !reads_in_order broker} :
  reach step start s →
  reach (Consumer.step c broker) (start_at pos0 m0) (loop s) ∧
  reach (WorkerPool.step p ctx) WorkerPool.init (pl s) ∧
  WorkerPool.accepted (pl s) = seq 0 (length (tasks (loop s))) ∧
  (∀ k m, tasks (loop s) !! k = Some (m, Committing) → k ∈ WorkerPool.running (WorkerPool.workers (pl s))) ∧
  (0 < WorkerPool.size p → WorkerPool.closed (pl s) = true → WorkerPool.wg_done (WorkerPool.workers (pl s)) = true →
   handled (loop s) ++ failed (loop s) ≡ₚ (tasks (loop s)).*1).
Proof.
  intros Hr. pose proof Hr as (H1 & H2)%start_projects. pose proof (consumer_start_inv s Hr) as [HI HL].
  split; [done|]. split; [done|]. split; [apply (k_accepted _ HL)|]. split.
  - intros k m Hk. pose proof (k_begun _ HL _ _ _ Hk ltac:(done)) as Hs. pose proof (k_open _ HL _ _ _ Hk ltac:(done)) as Hf.
    rewrite (WorkerPool.inv_once _ _ HI) in Hs. by apply elem_of_app in Hs as [?|?].
  - intros Hs Hc Hw.
    destruct (WorkerPool.wg_done_all_finished p (pl s) Hs HI Hw) as (_ & _ & _ & Hf).
    { pose proof (WorkerPool.inv_phase _ _ HI) as Hph. unfold WorkerPool.phase_ok in Hph. rewrite Hc in Hph.
      destruct (WorkerPool.at_ (pl s)); naive_solver. }
    destruct H1 as [ls H1]. rewrite (i_once _ _ _ _ _ (exec_inv c broker pos0 m0 ls (loop s) H1)).
    rewrite filter_all; [done|]. apply Forall_lookup. intros k [m q] Hk. unfold past_handler. simpl. intros ->.
    apply (k_open _ HL _ _ _ Hk ltac:(done)). rewrite Hf, (k_accepted _ HL). apply elem_of_seq.
    apply lookup_lt_Some in Hk. unfold current. lia.
Qed.
End consumer_start.

(** ** A run: one worker, one message *)
Definition sex_consumer : Consumer := WithWorkerPoolSize 1 ex_consumer.
Definition sex_pool : WorkerPool.Pool := WorkerPool.mkPool 1 2 false.
Definition sex_ctx : context := WithCancel Background 1.
Definition sex_begin : list label :=
  [LPool WorkerPool.LStart; LPool WorkerPool.LSpawn; LLoop (LFetch ("orders", 0)); LSubmit;
   LAccepted (WorkerPool.LSend 0); LPool (WorkerPool.LReceive 0)].
Definition sex_stop : list label :=
  [LPool (WorkerPool.LCancel sex_ctx Canceled); LPool (WorkerPool.LStop 0 Background); LLoop (LFetchErr Canceled);
   LPool WorkerPool.LClose; LPool WorkerPool.LReturn; LLagBegin; LLagDone; LReturn].
Definition sex_rest : list label :=
  [LTask (LHandler 0 5 None); LTask (LCommit 0 (Some ErrClosedPipe)); LTaskDone 0; LPool (WorkerPool.LExit 0)].
Definition sex_step := step sex_consumer sex_pool ex_broker sex_ctx.
Definition sex_start : state := start ∅ no_metrics.
Definition sex_state (ls : list label) : state := default sex_start (exec sex_step ls sex_start).

Lemma sex_reach ls : exec sex_step ls sex_start = Some (sex_state ls) → reach sex_step sex_start (sex_state ls).
Proof. by exists ls. Qed.

(** [Stop] is said to stop the worker pool.  The pool is made without
    [WithDrainOnStop], so its [Stop] returns nil at once: here [Stop] and [Start]
    have both returned, the message's handler is only then called, and its
    commit fails on the closed reader: the next consumer handles it again. *)
Theorem handlers_outlive_start :
  exec sex_step (sex_begin ++ sex_stop) sex_start = Some (sex_state (sex_begin ++ sex_stop)) ∧
  returned (sex_state (sex_begin ++ sex_stop)) = true ∧
  WorkerPool.stops (pl (sex_state (sex_begin ++ sex_stop))) !! 0%nat = Some (Background, WorkerPool.StopReturned None) ∧
  handled (loop (sex_state (sex_begin ++ sex_stop))) = [] ∧
  exec sex_step sex_rest (sex_state (sex_begin ++ sex_stop)) = Some (sex_state (sex_begin ++ sex_stop ++ sex_rest)) ∧
  handled (loop (sex_state (sex_begin ++ sex_stop ++ sex_rest))) = [ex_msg 0] ∧
  commits (loop (sex_state (sex_begin ++ sex_stop ++ sex_rest))) = [].
Proof. split_and!; vm_compute; reflexivity. Qed.

Lemma in_flight_bounded_witness :
  length (filter (λ t, t.2 ≠ Ended) (tasks (loop (sex_state sex_begin)))) = 1%nat ∧
  Z.of_nat (length (filter (λ t, t.2 ≠ Ended) (tasks (loop (sex_state sex_begin)))) +
            length (pending (at_ (loop (sex_state sex_begin))))) ≤ 4.
Proof.
  split; [vm_compute; reflexivity|].
  exact (proj1 (in_flight_bounded sex_consumer sex_pool ex_broker sex_ctx ∅ no_metrics ltac:(done) (sex_state sex_begin)
    eq_refl ltac:(vm_compute; split; congruence) (sex_reach sex_begin ltac:(vm_compute; reflexivity)))).
Defined.

Lemma consumer_start_returns_witness :
  fetched (loop (sex_state (sex_begin ++ sex_stop ++ sex_rest))) = fetched (loop (sex_state (sex_begin ++ sex_stop))) ∧
  (count_steps winds_up sex_stop ≤ rank sex_pool (sex_state sex_begin) + 0)%nat.
Proof.
  split.
  - destruct (consumer_start_returns sex_consumer sex_pool ex_broker sex_ctx ∅ no_metrics ltac:(done)
      (sex_state (sex_begin ++ sex_stop)) eq_refl eq_refl) as (H & _).
    { exists (sex_begin ++ sex_stop). vm_compute. reflexivity. }
    destruct H as (_ & _ & _ & _ & H); [vm_compute; reflexivity|].
    exact (proj1 (H sex_rest (sex_state (sex_begin ++ sex_stop ++ sex_rest)) ltac:(vm_compute; reflexivity))).
  - destruct (consumer_start_returns sex_consumer sex_pool ex_broker sex_ctx ∅ no_metrics ltac:(done)
      (sex_state sex_begin) eq_refl eq_refl) as (_ & _ & H).
    { exists sex_begin. vm_compute. reflexivity. }
    apply (H sex_stop (sex_state (sex_begin ++ sex_stop))). vm_compute. reflexivity.
Defined.

Lemma consumer_parts_witness :
  handled (loop (sex_state (sex_begin ++ sex_stop ++ sex_rest))) ++ [] ≡ₚ [ex_msg 0].
Proof.
  destruct (consumer_parts sex_consumer sex_pool ex_broker sex_ctx ∅ no_metrics ltac:(done)
    (sex_state (sex_begin ++ sex_stop ++ sex_rest))) as (_ & _ & _ & _ & H).
  { exists (sex_begin ++ sex_stop ++ sex_rest). vm_compute. reflexivity. }
  apply H; vm_compute; reflexivity.
Defined.
