(* ===== verification/Orders.v ===== *)
(** * orders: the domain and the Store contract

    Orders, their validation, and the contract every [Store] promises its
    callers: [create_spec], [list_spec], [confirm_spec] and [cancel_spec] say
    what each operation may do to the orders there are, [current] what [Get]
    answers, and the class [store] that an implementation does no more.  The
    client theorems need less, [store_for]: they leave open how old the order is
    that a [Get] answers, and cutoffs may be compared at a resolution of their
    own, down to a microsecond.  The client
    theorems are proved against that class: along any history of calls an
    order is confirmed or cancelled at most once, never both, and its identity
    never changes.  A time is a number of nanoseconds. *)
From S2P Require Import Prelude Utf8 Json.

(** ** Data *)
Definition Status : Type := string.
Definition StatusPending : Status := "PENDING".
Definition StatusConfirmed : Status := "CONFIRMED".
Definition StatusCanceled : Status := "CANCELED".

#[export] Instance Status_eq_dec : EqDecision Status.
Proof. unfold Status. solve_decision. Defined.

Lemma pending_confirmed : StatusConfirmed ≠ StatusPending.
Proof. done. Qed.
Lemma pending_canceled : StatusCanceled ≠ StatusPending.
Proof. done. Qed.

Record Item : Type := mkItem { SKU : string; Quantity : Z (* int32 *) }.

#[export] Instance Item_eq_dec : EqDecision Item.
Proof. solve_decision. Defined.

Record Order : Type := mkOrder {
  ID : string;
  CustomerID : string;
  Items : list Item;
  status : Status;
  CreatedAt : Z;
  UpdatedAt : Z;
}.

#[export] Instance Order_eq_dec : EqDecision Order.
Proof. solve_decision. Defined.

(** A quantity is an int32. *)
Definition int32_items (items : list Item) : Prop := Forall (λ it, in_int32 (Quantity it) = true) items.

#[export] Instance int32_items_dec items : Decision (int32_items items).
Proof. unfold int32_items. apply _. Defined.

(** Items as both transports deliver them: a JSON decoder and a protobuf one leave
    no text that is not UTF-8. *)
Definition sent_items (items : list Item) : Prop :=
  Forall (λ it, in_int32 (Quantity it) = true ∧ valid_text (SKU it) = true) items.

#[export] Instance sent_items_dec items : Decision (sent_items items).
Proof. unfold sent_items. apply _. Defined.

Lemma sent_int32 items : sent_items items → int32_items items.
Proof. intros H. eapply Forall_impl; [exact H|]. by intros it [? _]. Qed.

Definition set_status (st : Status) (now : Z) (o : Order) : Order :=
  mkOrder (ID o) (CustomerID o) (Items o) st (CreatedAt o) now.

Definition ErrOrderNotFound : goerr := Sentinel "orders.ErrOrderNotFound" "order not found".

(** ** Validation *)
Definition MaxItemsPerOrder : Z := 100.
Definition MaxItemQuantity : Z := 1000000.

Definition bad_quantity : string := "item quantity must be between 1 and " +:+ pretty MaxItemQuantity.
Definition too_many_items : string := "too many items (max " +:+ pretty MaxItemsPerOrder +:+ ")".

(** The loop over the items: the first reason found. *)
Fixpoint validate_items (items : list Item) : option string :=
  match items with
  | [] => None
  | it :: items =>
      if decide (SKU it = "") then Some "item sku is required"
      else if (Quantity it <? 1) || (MaxItemQuantity <? Quantity it) then Some bad_quantity
      else validate_items items
  end.

(** [None] is ok; [Some reason] is not. *)
Definition ValidateNewOrder (customerID : string) (items : list Item) : option string :=
  if decide (customerID = "") then Some "customer_id is required"
  else if decide (length items = 0%nat) then Some "at least one item is required"
  else if MaxItemsPerOrder <? Z.of_nat (length items) then Some too_many_items
  else validate_items items.

Definition valid_item (it : Item) : Prop := SKU it ≠ "" ∧ 1 ≤ Quantity it ≤ MaxItemQuantity.

Lemma validate_items_spec items : validate_items items = None ↔ Forall valid_item items.
Proof.
  induction items as [|it items IH]; simpl; [by split|]. rewrite Forall_cons, <-IH. unfold valid_item.
  case_decide as Hs; [by split; [done|intros [[? _] _]]|].
  destruct (Quantity it <? 1) eqn:E1; simpl; [split; [done|intros [[_ ?] _]; lia]|].
  destruct (MaxItemQuantity <? Quantity it) eqn:E2; simpl; [split; [done|intros [[_ ?] _]; lia]|].
  naive_solver lia.
Qed.

Lemma ValidateNewOrder_limits customerID items :
  ValidateNewOrder customerID items = None ↔
     customerID ≠ "" ∧ (1 ≤ length items ≤ 100)%nat ∧ Forall valid_item items.
Proof.
  unfold ValidateNewOrder, MaxItemsPerOrder. repeat case_decide; [naive_solver lia..|].
  destruct (100 <? Z.of_nat (length items)) eqn:E; [naive_solver lia|].
  rewrite validate_items_spec. naive_solver lia.
Qed.

(** An order is accepted exactly when it names a customer and has between 1
    and 100 items, each with a SKU and a quantity between 1 and 1000000; so an
    accepted order's quantities fit an int32 and their sum an int64. *)
Theorem ValidateNewOrder_spec customerID items :
  (ValidateNewOrder customerID items = None ↔
     customerID ≠ "" ∧ (1 ≤ length items ≤ 100)%nat ∧ Forall valid_item items) ∧
  (ValidateNewOrder customerID items = None →
     0 < foldr (λ it z, Quantity it + z) 0 items ≤ 100 * MaxItemQuantity).
Proof.
  pose proof (ValidateNewOrder_limits customerID items) as Hspec.
  split; [done|]. intros (_ & Hn & Hv)%Hspec.
  assert (Z.of_nat (length items) ≤ foldr (λ it z, Quantity it + z) 0 items
    ≤ Z.of_nat (length items) * MaxItemQuantity) as ?; [|unfold MaxItemQuantity in *; lia].
  clear Hn Hspec. induction Hv as [|it items [_ Hq] _ IH]; simpl; [lia|].
  unfold MaxItemQuantity in *. lia.
Qed.

(** ** The contract *)

Notation orders := (gmap string Order) (only parsing).

(** Every order is under its own ID. *)
Definition keyed (m : orders) : Prop := ∀ id o, m !! id = Some o → ID o = id.

Definition not_found (e : goerr) : bool := errors_Is e ErrOrderNotFound.

(** A new order in PENDING status. *)
Definition inserts (customerID : string) (items : list Item) (o : Order) (m m' : orders) : Prop :=
  m !! ID o = None ∧ status o = StatusPending ∧ CustomerID o = customerID ∧ Items o = items ∧
  m' = <[ID o := o]> m.

(** The order [id] leaves PENDING for [st]. *)
Definition settles (st : Status) (id : string) (m m' : orders) : Prop :=
  ∃ o now, m !! id = Some o ∧ status o = StatusPending ∧ m' = <[id := set_status st now o]> m.

Definition stale (cutoff : Z) (o : Order) : Prop := status o = StatusPending ∧ CreatedAt o < cutoff.

#[export] Instance stale_dec cutoff o : Decision (stale cutoff o).
Proof. unfold stale. apply _. Defined.

(** Every stale order is cancelled, each at a time [now] of its own. *)
Definition cancels (cutoff : Z) (m m' : orders) : Prop :=
  ∃ now : string → Z, ∀ id, m' !! id =
    (λ o, if decide (stale cutoff o) then set_status StatusCanceled (now id) o else o) <$> m !! id.

(** An operation that fails with an error of its own, not [ErrOrderNotFound],
    may or may not have taken effect. *)
Definition create_spec (c : string) (items : list Item) (m : orders) (r : res Order) (m' : orders) : Prop :=
  match r with
  | Ok o => inserts c items o m m'
  | Err _ => m' = m ∨ ∃ o, inserts c items o m m'
  end.
(** What [Get] may answer: the order as it is now. *)
Definition current (id : string) (m : orders) (r : res Order) : Prop :=
  match r with
  | Ok o => m !! id = Some o
  | Err e => not_found e = true → m !! id = None
  end.
Definition list_spec (m : orders) (r : res (list Order)) (m' : orders) : Prop :=
  m' = m ∧ match r with Ok l => l ≡ₚ (map_to_list m).*2 | Err _ => True end.
Definition confirm_spec (id : string) (m : orders) (r : res bool) (m' : orders) : Prop :=
  match r with
  | Ok true => settles StatusConfirmed id m m'
  | Ok false => m' = m ∧ ∃ o, m !! id = Some o ∧ status o ≠ StatusPending
  | Err e => if not_found e then m' = m ∧ m !! id = None else m' = m ∨ settles StatusConfirmed id m m'
  end.
Definition cancel_spec (cutoff : Z) (m : orders) (r : res (list string)) (m' : orders) : Prop :=
  match r with
  | Ok ids =>
      cancels cutoff m m' ∧ NoDup ids ∧
      ∀ id, id ∈ ids ↔ ∃ o, m !! id = Some o ∧ stale cutoff o
  | Err _ => m' = m ∨ cancels cutoff m m'
  end.

(** The [Store] interface: its operations over a world, and the class of those
    that keep the contract for the orders [abs w] there are in [w], as long as
    [wf w]; [room w] is what an implementation needs to make another order. *)
Record Store (W : Type) : Type := mkStore {
  Create : string → list Item → io W (res Order);
  Get : string → io W (res Order);
  List_ : io W (res (list Order));
  ConfirmPending : string → io W (res bool);
  CancelStalePending : Z → io W (res (list string));
}.
Arguments mkStore {W}.
Arguments Create {W}.
Arguments Get {W}.
Arguments List_ {W}.
Arguments ConfirmPending {W}.
Arguments CancelStalePending {W}.

(** [answers] is what a [Get] may answer, and [grain] the resolution of the
    times an implementation compares. *)
Class store_for {W} (answers : string → orders → res Order → Prop) (grain : Z → Z)
    (S : Store W) (abs : W → orders) (wf room : W → Prop) : Prop := {
  store_grain c : grain c ≤ c < grain c + Microsecond;
  store_keyed w : wf w → keyed (abs w);
  store_create c items w r w' : wf w → room w → sent_items items → Create S c items w = (r, w') →
    wf w' ∧ create_spec c items (abs w) r (abs w');
  store_get id w r w' : wf w → Get S id w = (r, w') → wf w' ∧ abs w' = abs w ∧ answers id (abs w) r;
  store_list w r w' : wf w → List_ S w = (r, w') → wf w' ∧ list_spec (abs w) r (abs w');
  store_confirm id w r w' : wf w → ConfirmPending S id w = (r, w') →
    wf w' ∧ confirm_spec id (abs w) r (abs w');
  store_cancel cutoff w r w' : wf w → CancelStalePending S cutoff w = (r, w') →
    wf w' ∧ cancel_spec (grain cutoff) (abs w) r (abs w');
}.

(** The documented contract, under which [Get] answers the order as it is and
    times are compared exactly. *)
Definition exact (c : Z) : Z := c.
Notation store := (store_for current exact).

Lemma exact_grain c : exact c ≤ c < exact c + Microsecond.
Proof. unfold exact, Microsecond. lia. Qed.

Lemma store_wf_iff {W answers grain} (S : Store W) abs wf wf' room :
  (∀ w, wf w ↔ wf' w) → store_for answers grain S abs wf room → store_for answers grain S abs wf' room.
Proof.
  intros Hiff HS. split.
  - apply (store_grain (store_for := HS)).
  - intros w ?%Hiff. by apply (store_keyed (store_for := HS)).
  - intros c items w r w' Hw%Hiff Hr Hi H. rewrite <-Hiff. by eapply store_create.
  - intros id w r w' Hw%Hiff H. rewrite <-Hiff. by eapply store_get.
  - intros w r w' Hw%Hiff H. rewrite <-Hiff. by eapply store_list.
  - intros id w r w' Hw%Hiff H. rewrite <-Hiff. by eapply store_confirm.
  - intros cutoff w r w' Hw%Hiff H. rewrite <-Hiff. by eapply store_cancel.
Qed.

(** ** Clients of the contract *)

(** What a step may do to one order: it keeps who it is, and its status unless
    that is PENDING. *)
Definition evolves (o o' : Order) : Prop :=
  ID o' = ID o ∧ CustomerID o' = CustomerID o ∧ Items o' = Items o ∧ CreatedAt o' = CreatedAt o ∧
  (status o' = status o ∨ status o = StatusPending).

Definition progress (m m' : orders) : Prop :=
  ∀ id o, m !! id = Some o → ∃ o', m' !! id = Some o' ∧ evolves o o'.

#[export] Instance evolves_preorder : PreOrder evolves.
Proof.
  split.
  - intros o. unfold evolves. auto 10.
  - intros o1 o2 o3 (? & ? & ? & ? & H12) (? & ? & ? & ? & H23). unfold evolves.
    split_and!; try congruence. destruct H12 as [H12|?]; [|by right]. destruct H23; [left|right]; congruence.
Qed.

#[export] Instance progress_preorder : PreOrder progress.
Proof.
  split.
  - intros m id o H. exists o. by split.
  - intros m1 m2 m3 H12 H23 id o H. destruct (H12 id o H) as (o2 & H2 & He).
    destruct (H23 id o2 H2) as (o3 & H3 & He'). exists o3. split; [done|]. by etrans.
Qed.

Lemma set_status_evolves st now o : status o = StatusPending → evolves o (set_status st now o).
Proof. intros H. by split_and!; [..|right]. Qed.

Lemma inserts_progress c items o m m' : inserts c items o m m' → progress m m'.
Proof.
  intros (Hn & _ & _ & _ & ->) id o' Ho. exists o'. split; [|done].
  rewrite lookup_insert_ne; [done|]. intros <-. congruence.
Qed.

Lemma settles_progress st id m m' : settles st id m m' → progress m m'.
Proof.
  intros (o & now & Ho & Hst & ->) id' o' Ho'. destruct (decide (id = id')) as [<-|Hne].
  - simplify_eq. rewrite lookup_insert_eq. eexists. split; [done|]. by apply set_status_evolves.
  - rewrite lookup_insert_ne by done. by exists o'.
Qed.

Lemma cancels_progress cutoff m m' : cancels cutoff m m' → progress m m'.
Proof.
  intros [now Hm] id o Ho. rewrite Hm, Ho. simpl. eexists. split; [done|].
  case_decide as Hs; [|done]. apply set_status_evolves, Hs.
Qed.

Lemma create_progress c items m r m' : create_spec c items m r m' → progress m m'.
Proof.
  destruct r as [o|e]; simpl; [by apply inserts_progress|]. intros [->|[o Hs]]; [done|by eapply inserts_progress].
Qed.

Lemma confirm_progress id m r m' : confirm_spec id m r m' → progress m m'.
Proof.
  destruct r as [[]|e]; simpl; [by apply settles_progress|by intros [-> _]|].
  destruct (not_found e); [by intros [-> _]|]. intros [->|Hs]; [done|by eapply settles_progress].
Qed.

Lemma cancel_progress cutoff m r m' : cancel_spec cutoff m r m' → progress m m'.
Proof.
  destruct r as [ids|e]; simpl; [intros [Hs _]|intros [->|Hs]]; try done; by eapply cancels_progress.
Qed.

Section client.
Context {W : Type} (S : Store W) (abs : W → orders) (wf room : W → Prop).
Context {answers : string → orders → res Order → Prop} {grain : Z → Z} `{HS : !store_for answers grain S abs wf room}.

Inductive call : Type :=
  | CCreate (c : string) (items : list Item)
  | CGet (id : string)
  | CList
  | CConfirm (id : string)
  | CCancel (cutoff : Z).

(** What a call reports of a change of status: the IDs, and the status. *)
Definition perform (cl : call) : io W (list (string * Status)) :=
  match cl with
  | CCreate c items => Create S c items;; mret []
  | CGet id => Get S id;; mret []
  | CList => List_ S;; mret []
  | CConfirm id =>
      r ← ConfirmPending S id;
      mret (match r with Ok true => [(id, StatusConfirmed)] | _ => [] end)
  | CCancel cutoff =>
      r ← CancelStalePending S cutoff;
      mret (match r with Ok ids => (λ id, (id, StatusCanceled)) <$> ids | _ => [] end)
  end.

(** What a call needs: items as the transports deliver them, and room. *)
Definition sound_call (cl : call) (w : W) : Prop :=
  match cl with CCreate _ items => sent_items items ∧ room w | _ => True end.

(** [history w log w']: some sequence of calls leads from [w] to [w'] and
    reported [log]. *)
Inductive history (w : W) : list (string * Status) → W → Prop :=
  | history_nil : history w [] w
  | history_call log w1 cl rep w2 :
      history w log w1 → sound_call cl w1 →
      perform cl w1 = (rep, w2) → history w (log ++ rep) w2.

(** One call: what it reports was PENDING before and is so after. *)
Lemma perform_spec cl w rep w' :
  wf w → sound_call cl w → perform cl w = (rep, w') →
  wf w' ∧ progress (abs w) (abs w') ∧ NoDup rep.*1 ∧
  ∀ id st, (id, st) ∈ rep →
    (∃ o, abs w !! id = Some o ∧ status o = StatusPending) ∧
    (∃ o, abs w' !! id = Some o ∧ status o = st) ∧ st ≠ StatusPending.
Proof.
  intros Hwf Hroom H. destruct cl as [c items|id| |id|cutoff]; simpl in H; unfold mbind, io_bind, mret, io_ret in H.
  - destruct (Create S c items w) as [r w1] eqn:E. simplify_eq/=.
    destruct (store_create c items w r w' Hwf (proj2 Hroom) (proj1 Hroom) E) as [Hwf' Hs]. split_and!; [done| |constructor|].
    + destruct r as [o|e]; simpl in Hs; [by eapply inserts_progress|].
      destruct Hs as [->|[o Hs]]; [done|by eapply inserts_progress].
    + intros ? ? Hin. by apply not_elem_of_nil in Hin.
  - destruct (Get S id w) as [r w1] eqn:E. simplify_eq/=.
    destruct (store_get id w r w' Hwf E) as [Hwf' [Heq _]]. rewrite Heq.
    split_and!; [done|done|constructor|]. intros ? ? Hin. by apply not_elem_of_nil in Hin.
  - destruct (List_ S w) as [r w1] eqn:E. simplify_eq/=.
    destruct (store_list w r w' Hwf E) as [Hwf' [Heq _]]. rewrite Heq.
    split_and!; [done|done|constructor|]. intros ? ? Hin. by apply not_elem_of_nil in Hin.
  - destruct (ConfirmPending S id w) as [r w1] eqn:E. simplify_eq/=.
    destruct (store_confirm id w r w' Hwf E) as [Hwf' Hs]. destruct r as [[]|e]; simpl in Hs.
    + split_and!; [done|by eapply settles_progress|apply NoDup_singleton|].
      intros id' st [= -> ->]%list_elem_of_singleton.
      destruct Hs as (o & now & Ho & Hst & ->). split_and!; [by exists o| |done].
      rewrite lookup_insert_eq. by eexists.
    + destruct Hs as [-> _]. split_and!; [done|done|constructor|].
      intros ? ? Hin. by apply not_elem_of_nil in Hin.
    + split_and!; [done| |constructor|intros ? ? Hin; by apply not_elem_of_nil in Hin].
      destruct (not_found e); [by destruct Hs as [-> _]|].
      destruct Hs as [->|Hs]; [done|by eapply settles_progress].
  - destruct (CancelStalePending S cutoff w) as [r w1] eqn:E. simplify_eq/=.
    destruct (store_cancel cutoff w r w' Hwf E) as [Hwf' Hs]. destruct r as [ids|e]; simpl in Hs.
    + destruct Hs as (Hm & Hnd & Hids). split_and!; [done|by eapply cancels_progress| |].
      { rewrite <-list_fmap_compose. unfold compose. simpl. by rewrite list_fmap_id. }
      intros id st Hin.
      apply list_elem_of_fmap in Hin as (id' & [= -> ->] & Hin).
      apply Hids in Hin as (o & Ho & Hst). split_and!; [exists o; split; [done|apply Hst]| |done].
      destruct Hm as [now Hm]. rewrite Hm, Ho. simpl. rewrite decide_True by done. by eexists.
    + split_and!; [done| |constructor|intros ? ? Hin; by apply not_elem_of_nil in Hin].
      destruct Hs as [->|Hs]; [done|by eapply cancels_progress].
Qed.

Lemma history_spec w log w' :
  wf w → history w log w' →
  wf w' ∧ progress (abs w) (abs w') ∧ NoDup log.*1 ∧
  ∀ id st, (id, st) ∈ log → ∃ o, abs w' !! id = Some o ∧ status o = st ∧ st ≠ StatusPending.
Proof.
  intros Hwf H. induction H as [|log w1 cl rep w2 _ IH Hroom Hp].
  { split_and!; [done..|constructor|]. intros ? ? Hin. by apply not_elem_of_nil in Hin. }
  destruct IH as (Hwf1 & Hpr & Hnd & Hlog).
  destruct (perform_spec cl w1 rep w2 Hwf1 Hroom Hp) as (Hwf2 & Hpr2 & Hnd2 & Hrep).
  split_and!; [done|by etrans| |].
  - rewrite fmap_app. apply NoDup_app. split_and!; [done| |done].
    intros id Hin Hin2. apply list_elem_of_fmap in Hin as ([? st] & -> & Hin).
    apply list_elem_of_fmap in Hin2 as ([? st2] & Heq & Hin2). simpl in Heq. subst.
    destruct (Hlog _ _ Hin) as (o & Ho & Hst & Hne). destruct (Hrep _ _ Hin2) as [(o' & Ho' & Hst') _].
    by simplify_eq.
  - intros id st [Hin|Hin]%elem_of_app.
    + destruct (Hlog _ _ Hin) as (o & Ho & Hst & Hne). destruct (Hpr2 _ _ Ho) as (o' & Ho' & He).
      exists o'. split_and!; [done| |done]. destruct He as (_ & _ & _ & _ & [?|?]); congruence.
    + destruct (Hrep _ _ Hin) as (_ & (o & ? & ?) & ?). by exists o.
Qed.

(** C1: one outcome per order.  Along any history of calls on any store that
    keeps the contract, an order, once there, stays, with its ID, customer,
    items and creation time; its status leaves PENDING at most once.  The
    outcomes the calls report are consistent: an order is reported confirmed or
    cancelled at most once, never both, and an order reported so has that
    status from then on. *)
Theorem one_outcome_per_order w log w' :
  wf w → history w log w' →
  wf w' ∧ progress (abs w) (abs w') ∧ NoDup log.*1 ∧
  ∀ id st, (id, st) ∈ log → ∃ o, abs w' !! id = Some o ∧ status o = st ∧ st ≠ StatusPending.
Proof. apply history_spec. Qed.
End client.

(** ** What leaves the orders alone *)
Section same.
Context {W : Type} (abs : W → orders) (wf room : W → Prop).

Definition same_orders (w w' : W) : Prop := abs w' = abs w ∧ (wf w → wf w') ∧ (room w → room w').

#[export] Instance same_orders_preorder : PreOrder same_orders.
Proof.
  split; [by intros w|]. intros w1 w2 w3 (H1 & H2 & H3) (H4 & H5 & H6). split; [by etrans|]. auto.
Qed.

Lemma same_orders_wf w w' : same_orders w w' → wf w → wf w' ∧ abs w' = abs w.
Proof. intros (? & ? & ?). auto. Qed.
End same.

(** ** A store inside a larger world

    The store touches its own part of the world and nothing else. *)
Section lift.
Context {W V : Type}.

Definition lift {A} (m : io W A) : io (W * V) A := λ '(w, v), let '(a, w') := m w in (a, (w', v)).

Definition lift_store (S : Store W) : Store (W * V) :=
  mkStore (λ c items, lift (Create S c items)) (λ id, lift (Get S id)) (lift (List_ S))
    (λ id, lift (ConfirmPending S id)) (λ cutoff, lift (CancelStalePending S cutoff)).

Lemma lift_inv {A} (m : io W A) wv a wv' :
  lift m wv = (a, wv') → m wv.1 = (a, wv'.1) ∧ wv'.2 = wv.2.
Proof. destruct wv as [w v]. simpl. destruct (m w) as [b w'] eqn:E. by intros [= <- <-]. Qed.

#[export] Instance lift_store_contract {answers grain} (S : Store W) abs wf room :
  store_for answers grain S abs wf room → store_for answers grain (lift_store S) (abs ∘ fst) (wf ∘ fst) (room ∘ fst).
Proof.
  intros HS. split; simpl.
  - apply (store_grain (store_for := HS)).
  - intros [w v]. apply (store_keyed (store_for := HS)).
  - intros c items wv r wv' Hwf Hr Hi [H _]%lift_inv. by eapply store_create.
  - intros id wv r wv' Hwf [H _]%lift_inv. by eapply store_get.
  - intros wv r wv' Hwf [H _]%lift_inv. by eapply store_list.
  - intros id wv r wv' Hwf [H _]%lift_inv. by eapply store_confirm.
  - intros cutoff wv r wv' Hwf [H _]%lift_inv. by eapply store_cancel.
Qed.
End lift.
