(* ===== verification/OrderJson.v ===== *)
(** * orders: the JSON of items and orders

    [encoding/json] on [Item] and [Order], which have no field tags: the names of
    the Go fields, in their order.  A time is a string in
    RFC 3339 with nanoseconds, whose digits depend on the time zone: its two
    directions are parameters.  Lemmas: values and bytes survive the round trip,
    their texts made valid UTF-8 on the way. *)
From S2P Require Import Prelude Utf8 Json JsonText Orders.

Definition item_json (it : Item) : json := JObj [("SKU", JStr (SKU it)); ("Quantity", JNum (Quantity it))].
Definition items_json (items : list Item) : json := JArr (item_json <$> items).

Definition set_item (k : string) (v : json) (it : Item) : option Item :=
  if same_key k "SKU" then s ← decode_str v (SKU it); Some (mkItem s (Quantity it))
  else if same_key k "Quantity" then q ← decode_int32 v (Quantity it); Some (mkItem (SKU it) q)
  else Some it.

Definition item_of_json : json → option Item := decode_struct set_item (mkItem "" 0).
Definition items_of_json : json → option (list Item) := decode_slice item_of_json.

Lemma item_json_roundtrip it : in_int32 (Quantity it) = true → item_of_json (item_json it) = Some it.
Proof. intros H. destruct it as [sku q]. simpl in H. unfold item_of_json, set_item, decode_int32. simpl. by rewrite H. Qed.

Lemma items_json_roundtrip items : int32_items items → items_of_json (items_json items) = Some items.
Proof.
  intros H. apply decode_slice_map. intros it Hin. apply item_json_roundtrip.
  by eapply Forall_forall in H.
Qed.

Lemma item_typed v it : item_of_json v = Some it → in_int32 (Quantity it) = true.
Proof.
  apply (decode_struct_keeps (λ it, in_int32 (Quantity it) = true)); [done|]. intros k x [sku q] it' Hq H. unfold set_item in H. simpl in Hq.
  repeat case_match; simplify_option_eq; try done. by eapply decode_int32_typed.
Qed.

Lemma items_typed v items : items_of_json v = Some items → int32_items items.
Proof. apply decode_slice_Forall, item_typed. Qed.

(** What decodes at all decodes to what was encoded. *)
Lemma item_json_inv it it' : item_of_json (item_json it) = Some it' → it' = it.
Proof.
  intros H. destruct (in_int32 (Quantity it)) eqn:E; [rewrite item_json_roundtrip in H by done; by simplify_eq|].
  destruct it as [sku q]. simpl in E. unfold item_of_json, item_json, set_item, decode_int32 in H.
  simpl in H. by rewrite E in H.
Qed.

Lemma items_json_inv items items' : items_of_json (items_json items) = Some items' → items' = items.
Proof. apply decode_slice_inv, item_json_inv. Qed.

Arguments items_of_json : simpl never.
Arguments items_json : simpl never.

(** ** Through JSON and back: broken UTF-8 is replaced *)
Definition clean_item (it : Item) : Item := mkItem (sanitize (SKU it)) (Quantity it).
Definition clean_order (o : Order) : Order :=
  mkOrder (sanitize (ID o)) (sanitize (CustomerID o)) (clean_item <$> Items o) (sanitize (status o))
    (CreatedAt o) (UpdatedAt o).

Definition valid_items (items : list Item) : Prop := Forall (λ it, valid_text (SKU it) = true) items.
Definition valid_order (o : Order) : Prop :=
  valid_text (ID o) = true ∧ valid_text (CustomerID o) = true ∧ valid_items (Items o) ∧
  valid_text (status o) = true.

Lemma clean_items_valid items : valid_items items → clean_item <$> items = items.
Proof.
  induction 1 as [|[sku q] items H _ IH]; [done|]. simpl in H. rewrite fmap_cons, IH. unfold clean_item. simpl.
  by rewrite sanitize_id.
Qed.

Lemma clean_order_valid o : valid_order o → clean_order o = o.
Proof.
  destruct o as [id c items st ca ua]. intros (H1 & H2 & H3 & H4). unfold clean_order. simpl in *.
  by rewrite !sanitize_id, clean_items_valid.
Qed.

Lemma clean_items_json items : clean (items_json items) = items_json (clean_item <$> items).
Proof.
  unfold items_json. cbn [clean]. f_equal. induction items as [|[sku q] items IH]; [done|].
  rewrite !fmap_cons. f_equal. exact IH.
Qed.

Lemma clean_int32 items : int32_items items → int32_items (clean_item <$> items).
Proof. intros H. apply Forall_fmap. exact H. Qed.

Lemma sent_valid items : sent_items items → valid_items items.
Proof. intros H. eapply Forall_impl; [exact H|]. by intros it [_ ?]. Qed.

Lemma sent_roundtrip items : sent_items items → items_of_json (clean (items_json items)) = Some items.
Proof. intros H. rewrite clean_items_json, clean_items_valid by by apply sent_valid. by apply items_json_roundtrip, sent_int32. Qed.

Section order.
Context (time_text : Z → string) (time_of_text : string → option Z).

Definition time_json (t : Z) : json := JStr (time_text t).
Definition decode_time (v : json) (old : Z) : option Z :=
  match v with JStr s => time_of_text s | JNull => Some old | _ => None end.

Definition order_json (o : Order) : json :=
  JObj [("ID", JStr (ID o)); ("CustomerID", JStr (CustomerID o)); ("Items", items_json (Items o));
    ("Status", JStr (status o)); ("CreatedAt", time_json (CreatedAt o)); ("UpdatedAt", time_json (UpdatedAt o))].

Definition set_order_field (k : string) (v : json) (o : Order) : option Order :=
  if same_key k "ID" then
    s ← decode_str v (ID o); Some (mkOrder s (CustomerID o) (Items o) (status o) (CreatedAt o) (UpdatedAt o))
  else if same_key k "CustomerID" then
    s ← decode_str v (CustomerID o); Some (mkOrder (ID o) s (Items o) (status o) (CreatedAt o) (UpdatedAt o))
  else if same_key k "Items" then
    l ← items_of_json v; Some (mkOrder (ID o) (CustomerID o) l (status o) (CreatedAt o) (UpdatedAt o))
  else if same_key k "Status" then
    s ← decode_str v (status o); Some (mkOrder (ID o) (CustomerID o) (Items o) s (CreatedAt o) (UpdatedAt o))
  else if same_key k "CreatedAt" then
    t ← decode_time v (CreatedAt o); Some (mkOrder (ID o) (CustomerID o) (Items o) (status o) t (UpdatedAt o))
  else if same_key k "UpdatedAt" then
    t ← decode_time v (UpdatedAt o); Some (mkOrder (ID o) (CustomerID o) (Items o) (status o) (CreatedAt o) t)
  else Some o.

Definition order_of_json : json → option Order := decode_struct set_order_field (mkOrder "" "" [] "" 0 0).

(** [MarshalJSON] of a time writes ASCII, which [UnmarshalJSON] reads back. *)
Definition times_roundtrip : Prop :=
  ∀ t, valid_text (time_text t) = true ∧ time_of_text (time_text t) = Some t.

Lemma clean_order_json o : times_roundtrip → clean (order_json o) = order_json (clean_order o).
Proof.
  intros Ht. unfold order_json, time_json. rewrite clean_obj. cbn [map]. unfold clean_member. cbn [fst snd].
  rewrite clean_items_json. cbn [clean]. rewrite !(sanitize_id (time_text _)) by apply Ht. reflexivity.
Qed.

Lemma order_json_decodes o :
  times_roundtrip → items_of_json (items_json (Items o)) = Some (Items o) → order_of_json (order_json o) = Some o.
Proof.
  intros Ht Hi. destruct o as [id c items st ca ua]. simpl in Hi.
  do 2 (eapply decode_members_cons; [reflexivity|]).
  eapply decode_members_cons; [unfold set_order_field; simpl; by rewrite Hi|].
  eapply decode_members_cons; [reflexivity|].
  do 2 (eapply decode_members_cons; [unfold set_order_field; simpl; by rewrite (proj2 (Ht _))|]). reflexivity.
Qed.

Lemma order_json_inv o o' : times_roundtrip → order_of_json (order_json o) = Some o' → o' = o.
Proof.
  intros Ht H. destruct (items_of_json (items_json (Items o))) as [l|] eqn:E.
  - apply items_json_inv in E as Hl. subst l.
    assert (order_of_json (order_json o) = Some o) as H2 by (by apply order_json_decodes). congruence.
  - destruct o as [id c items st ca ua]. simpl in E. unfold order_of_json, order_json, decode_struct in H.
    do 3 (apply decode_members_cons_inv in H as (? & ? & H)). simplify_eq.
    unfold set_order_field in *. simpl in *. by rewrite E in *.
Qed.

Lemma order_typed v o : order_of_json v = Some o → int32_items (Items o).
Proof.
  apply (decode_struct_keeps (λ o, int32_items (Items o))); [constructor|].
  intros k x t t' Ht H. unfold set_order_field in H.
  repeat case_match; simplify_option_eq; try done. by eapply items_typed.
Qed.

(** [json.Marshal] and [json.Unmarshal] *)
Definition order_bytes (o : Order) : string := print (order_json o).
Definition order_of_bytes (b : string) : option Order := v ← Unmarshal b; order_of_json v.

Lemma items_json_integral items : integral (items_json items) ∧ (depth (items_json items) ≤ 2)%nat.
Proof.
  unfold items_json. split.
  - apply integral_arr, Forall_fmap, Forall_true. by intros [sku q].
  - apply depth_arr, Forall_fmap, Forall_true. intros [sku q]. simpl. lia.
Qed.

Lemma order_bytes_value o : times_roundtrip → Unmarshal (order_bytes o) = Some (order_json (clean_order o)).
Proof.
  intros Ht. destruct (items_json_integral (Items o)) as [Hi Hd]. rewrite <-clean_order_json by done. apply Unmarshal_print.
  - apply integral_obj. repeat (apply Forall_cons_2; [first [exact Hi|done]|]). constructor.
  - apply depth_small. transitivity 3%nat; [|lia]. apply (depth_obj _ 2).
    repeat (apply Forall_cons_2; [cbn [snd]; first [exact Hd|simpl; lia]|]). constructor.
Qed.

Lemma order_bytes_inv o o' : times_roundtrip → order_of_bytes (order_bytes o) = Some o' → o' = clean_order o.
Proof. intros Ht. unfold order_of_bytes. rewrite order_bytes_value by done. by apply order_json_inv. Qed.

Lemma order_bytes_roundtrip o :
  times_roundtrip → int32_items (Items o) → order_of_bytes (order_bytes o) = Some (clean_order o).
Proof.
  intros Ht Hi. unfold order_of_bytes. rewrite order_bytes_value by done.
  by apply order_json_decodes, items_json_roundtrip, clean_int32.
Qed.
End order.
