(* ===== verification/MemoryStore.v ===== *)
(** * orders: the in-memory store

    [InMemoryStore] as a [Store] over a world that holds the map, the ID counter
    (a uint64 that wraps) and the clock; every operation but [Create] runs
    wholly under the mutex and so is one step, and [create_among] is [Create] with
    other goroutines between its steps.  Theorem: it keeps the [Store] contract
    as long as its counter does not wrap. *)
From S2P Require Import Prelude Orders.

Record InMemoryStore : Type := mkMem {
  orders : gmap string Order;
  nextID : Z;                                  (* atomic.Uint64 *)
  tick : nat;                                  (* readings of the clock so far *)
}.

Definition NewInMemoryStore : InMemoryStore := mkMem ∅ 0 0.

Section memory.
(** The clock's successive readings, and the order a range over a map takes. *)
Context (clock : nat → Z) (range : gmap string Order → list (string * Order)).

Definition now : io InMemoryStore Z := λ s, (clock (tick s), mkMem (orders s) (nextID s) (S (tick s))).
Definition set_order (id : string) (o : Order) : io InMemoryStore unit := λ s,
  (tt, mkMem (<[id := o]> (orders s)) (nextID s) (tick s)).

(** [s.nextID.Add(1)] *)
Definition next_id : io InMemoryStore Z := λ s,
  let n := wrap_uint64 (nextID s + 1) in (n, mkMem (orders s) n (tick s)).

Definition order_id (n : Z) : string := "ord_" +:+ pretty n.

(** The last read of [Create], of the order it made, after the [Unlock]. *)
Definition create_return (id : string) : io InMemoryStore (res Order) := λ s,
  (match orders s !! id with Some o => Ok o | None => Err ErrOrderNotFound end, s).

(** [Create] with what other goroutines do before its [Lock] and after its
    [Unlock]. *)
Definition create_among (before after : io InMemoryStore unit) (customerID : string) (items : list Item) :
    io InMemoryStore (res Order) :=
  n ← next_id;
  let id := order_id n in
  before;;
  t ← now;
  set_order id (mkOrder id customerID items StatusPending t t);;
  after;;
  create_return id.

Definition mem_Create : string → list Item → io InMemoryStore (res Order) := create_among (mret tt) (mret tt).

Definition mem_Get (id : string) : io InMemoryStore (res Order) := λ s,
  (match orders s !! id with Some o => Ok o | None => Err ErrOrderNotFound end, s).

Definition mem_List : io InMemoryStore (res (list Order)) := λ s, (Ok (range (orders s)).*2, s).

Definition mem_ConfirmPending (id : string) : io InMemoryStore (res bool) :=
  s ← get_world;
  match orders s !! id with
  | None => mret (Err ErrOrderNotFound)
  | Some o =>
      if decide (status o ≠ StatusPending) then mret (Ok false)
      else t ← now; set_order id (set_status StatusConfirmed t o);; mret (Ok true)
  end.

(** The loop over the map. *)
Fixpoint sweep (cutoff : Z) (l : list (string * Order)) : io InMemoryStore (list string) :=
  match l with
  | [] => mret []
  | (id, o) :: l =>
      if decide (stale cutoff o) then
        t ← now; set_order id (set_status StatusCanceled t o);;
        ids ← sweep cutoff l; mret (id :: ids)
      else sweep cutoff l
  end.

Definition mem_CancelStalePending (cutoff : Z) : io InMemoryStore (res (list string)) :=
  s ← get_world; ids ← sweep cutoff (range (orders s)); mret (Ok ids).

Definition memory_store : Store InMemoryStore :=
  mkStore mem_Create mem_Get mem_List mem_ConfirmPending mem_CancelStalePending.

(** ** The contract *)
Hypothesis range_perm : ∀ m, range m ≡ₚ map_to_list m.

(** Every key is an ID given out before. *)
Record mem_wf (s : InMemoryStore) : Prop := mkWf {
  wf_keyed : keyed (orders s);
  wf_next : 0 ≤ nextID s < 2 ^ 64;
  wf_ids id o : orders s !! id = Some o → ∃ n, id = order_id n ∧ 1 ≤ n ≤ nextID s;
}.

Definition mem_room (s : InMemoryStore) : Prop := nextID s < 2 ^ 64 - 1.

Lemma ord_inj (x y : string) : "ord_" +:+ x = "ord_" +:+ y → x = y.
Proof. intros H. by injection H. Qed.

Lemma order_id_inj n n' : order_id n = order_id n' → n = n'.
Proof. intros H%ord_inj. by apply (inj pretty). Qed.

Lemma new_mem_wf : mem_wf NewInMemoryStore.
Proof. by split. Qed.

Lemma create_inserts c items s r s' :
  mem_wf s → mem_room s → mem_Create c items s = (r, s') →
  mem_wf s' ∧ create_spec c items (orders s) r (orders s').
Proof.
  intros [Hk Hn Hids] Hroom H. unfold mem_Create, create_among, create_return, mbind, io_bind, mret, io_ret in H.
  simpl in H. rewrite lookup_insert_eq in H. simplify_eq.
  assert (wrap_uint64 (nextID s + 1) = nextID s + 1) as Hw.
  { unfold wrap_uint64, mem_room in *. rewrite Z.mod_small; lia. }
  rewrite Hw. split; simpl.
  - unfold mem_room in Hroom. constructor; simpl; [|lia|].
    + intros id o [[<- <-]|[? Ho]]%lookup_insert_Some; [done|by apply Hk].
    + intros id o [[<- <-]|[? Ho]]%lookup_insert_Some.
      * eexists. split; [done|lia].
      * destruct (Hids id o Ho) as (n & ? & ?). exists n. split; [done|lia].
  - split_and!; try done. simpl. destruct (orders s !! _) as [o|] eqn:E; [|done].
    destruct (Hids _ _ E) as (n & Hid & ?). apply order_id_inj in Hid. lia.
Qed.

Lemma set_status_wf s id st t o k :
  mem_wf s → orders s !! id = Some o →
  mem_wf (mkMem (<[id := set_status st t o]> (orders s)) (nextID s) k).
Proof.
  intros [Hk Hn Hids] Ho. constructor; simpl; [|done|].
  - intros id' o' [[<- <-]|[? Ho']]%lookup_insert_Some; [exact (Hk id o Ho)|by apply Hk].
  - intros id' o' [[<- <-]|[? Ho']]%lookup_insert_Some; by eapply Hids.
Qed.

Lemma sweep_spec cutoff l s ids s' :
  mem_wf s → NoDup l.*1 → (∀ id o, (id, o) ∈ l → orders s !! id = Some o) →
  sweep cutoff l s = (ids, s') →
  mem_wf s' ∧ ids = (filter (λ p, stale cutoff p.2) l).*1 ∧
  (∀ id, id ∉ l.*1 → orders s' !! id = orders s !! id) ∧
  ∃ t : string → Z, ∀ id o, (id, o) ∈ l →
    orders s' !! id = Some (if decide (stale cutoff o) then set_status StatusCanceled (t id) o else o).
Proof.
  revert s ids s'. induction l as [|[id o] l IH]; intros s ids s' Hwf Hnd Hl H; simpl in H.
  { unfold mret, io_ret in H. simplify_eq. split_and!; try done. exists (λ _, 0).
    intros ? ? Hin. by apply not_elem_of_nil in Hin. }
  apply NoDup_cons in Hnd as [Hid Hnd]. simpl in Hid.
  assert (orders s !! id = Some o) as Ho by (apply Hl; left).
  destruct (decide (stale cutoff o)) as [Hs|Hs].
  - unfold mbind, io_bind, mret, io_ret in H. simpl in H.
    set (s1 := mkMem (<[id := set_status StatusCanceled (clock (tick s)) o]> (orders s)) (nextID s)
      (S (tick s))) in H.
    destruct (sweep cutoff l s1) as [ids1 s2] eqn:E. simplify_eq.
    destruct (IH s1 ids1 s') as (Hwf' & -> & Hother & t & Ht); [by apply set_status_wf|done| |done|].
    { intros id' o' Hin. simpl. rewrite lookup_insert_ne; [apply Hl; by right|].
      intros <-. apply Hid, list_elem_of_fmap. by exists (id, o'). }
    split_and!; [done|by rewrite filter_cons_True| |].
    + intros id' Hn. apply not_elem_of_cons in Hn as [Hn1 Hn2]. simpl in Hn1.
      rewrite Hother by done. simpl. by rewrite lookup_insert_ne.
    + exists (λ id', if decide (id' = id) then clock (tick s) else t id'). intros id' o' Hin.
      apply elem_of_cons in Hin as [[= -> ->]|Hin].
      * rewrite Hother by done. simpl. rewrite lookup_insert_eq, !decide_True by done. done.
      * rewrite (Ht id' o' Hin). rewrite (decide_False (P := id' = id)); [done|].
        intros ->. apply Hid, list_elem_of_fmap. by exists (id, o').
  - destruct (IH s ids s') as (Hwf' & -> & Hother & t & Ht); [done|done| |done|].
    { intros id' o' Hin. apply Hl. by right. }
    split_and!; [done|by rewrite filter_cons_False| |].
    + intros id' Hn. apply not_elem_of_cons in Hn as [Hn1 Hn2]. by apply Hother.
    + exists t. intros id' o' Hin. apply elem_of_cons in Hin as [[= -> ->]|Hin]; [|by apply Ht].
      rewrite Hother by done. by rewrite Ho, decide_False.
Qed.

Lemma range_NoDup m : NoDup (range m).*1.
Proof. rewrite range_perm. apply NoDup_fst_map_to_list. Qed.

Lemma range_elem m id o : (id, o) ∈ range m ↔ m !! id = Some o.
Proof. rewrite range_perm. apply elem_of_map_to_list. Qed.

#[export] Instance memory_store_contract : store memory_store orders mem_wf mem_room.
Proof.
  split; simpl.
  - apply exact_grain.
  - intros s. apply wf_keyed.
  - intros c items s r s' Hwf Hroom _. by apply create_inserts.
  - intros id s r s' Hwf [= <- <-]. split; [done|]. split; [done|]. unfold current. by destruct (orders s !! id).
  - intros s r s' Hwf [= <- <-]. split; [done|]. split; [done|]. by rewrite range_perm.
  - intros id s r s' Hwf H. unfold mem_ConfirmPending, mbind, io_bind, mret, io_ret, get_world in H.
    destruct (orders s !! id) as [o|] eqn:Ho; [|by simplify_eq].
    destruct (decide (status o ≠ StatusPending)) as [Hne|Heq]; simplify_eq/=.
    + split; [done|]. split; [done|]. by exists o.
    + split; [by apply set_status_wf|]. exists o, (clock (tick s)).
      split_and!; [done|by apply dec_stable|done].
  - intros cutoff s r s' Hwf H.
    unfold mem_CancelStalePending, mbind, io_bind, mret, io_ret, get_world in H.
    destruct (sweep cutoff (range (orders s)) s) as [ids s1] eqn:E. simplify_eq.
    destruct (sweep_spec cutoff (range (orders s)) s ids s') as (Hwf' & -> & Hother & t & Ht);
      [done|apply range_NoDup|by intros; apply range_elem|done|].
    split; [done|]. simpl. split_and!.
    + exists t. intros id. destruct (orders s !! id) as [o|] eqn:Ho.
      * by rewrite (Ht id o) by (by apply range_elem).
      * rewrite Hother; [done|]. intros ([id' o] & -> & Hin)%list_elem_of_fmap.
        apply range_elem in Hin. simpl in Ho. congruence.
    + eapply sublist_NoDup; [apply (range_NoDup (orders s))|]. apply fmap_sublist, sublist_filter.
    + intros id. rewrite list_elem_of_fmap. split.
      * intros ([id' o] & -> & [Hs Hin]%list_elem_of_filter). exists o. split; [by apply range_elem|done].
      * intros (o & Ho & Hs). exists (id, o). split; [done|]. apply list_elem_of_filter.
        split; [done|by apply range_elem].
Qed.

(** What other goroutines do while a [Create] that was given [id] is not under
    the mutex: orders move on and none is forgotten, IDs are given out, and
    nobody else uses [id]. *)
Definition interferes (id : string) (others : io InMemoryStore unit) : Prop :=
  ∀ s u s', mem_wf s → others s = (u, s') →
    mem_wf s' ∧ nextID s ≤ nextID s' ∧ progress (orders s) (orders s') ∧
    (orders s !! id = None → orders s' !! id = None).

Lemma insert_wf s n o k :
  mem_wf s → 1 ≤ n ≤ nextID s → ID o = order_id n → mem_wf (mkMem (<[order_id n := o]> (orders s)) (nextID s) k).
Proof.
  intros [Hk Hn Hids] ? Ho. constructor; simpl; [|done|].
  - intros id o' [[<- <-]|[? Ho']]%lookup_insert_Some; [done|by apply Hk].
  - intros id o' [[<- <-]|[? Ho']]%lookup_insert_Some; [by eexists|by eapply Hids].
Qed.

(** [Create] among other goroutines: it makes one new order, PENDING, and returns
    that order as it is at the end. *)
Lemma create_among_spec before after c items s r s' :
  mem_wf s → mem_room s →
  let id := order_id (nextID s + 1) in
  interferes id before → interferes id after →
  create_among before after c items s = (r, s') →
  mem_wf s' ∧ progress (orders s) (orders s') ∧ orders s !! id = None ∧
  ∃ o o', ID o = id ∧ status o = StatusPending ∧ CustomerID o = c ∧ Items o = items ∧
    evolves o o' ∧ r = Ok o' ∧ orders s' !! id = Some o'.
Proof.
  intros Hwf Hroom id Hb Ha H. pose proof Hwf as [Hk Hn Hids]. unfold mem_room in Hroom.
  assert (orders s !! id = None) as Hfree.
  { destruct (orders s !! id) as [o|] eqn:E; [|done]. destruct (Hids _ _ E) as (n & Hid & ?).
    apply order_id_inj in Hid. lia. }
  unfold create_among, next_id, mbind, io_bind in H.
  assert (wrap_uint64 (nextID s + 1) = nextID s + 1) as Hw.
  { unfold wrap_uint64. rewrite Z.mod_small; lia. }
  rewrite Hw in H. fold id in H. set (s1 := mkMem (orders s) (nextID s + 1) (tick s)) in H.
  assert (mem_wf s1) as Hwf1.
  { constructor; simpl; [done|lia|]. intros id' o Ho. destruct (Hids _ _ Ho) as (n & ? & ?). exists n. split; [done|lia]. }
  destruct (before s1) as [u s2] eqn:E1. destruct (Hb _ _ _ Hwf1 E1) as (Hwf2 & Hn2 & Hp2 & Hf2). simpl in Hn2, Hp2, Hf2.
  unfold now, set_order in H. simpl in H.
  set (o := mkOrder id c items StatusPending _ _) in H.
  destruct (after _) as [u' s4] eqn:E2.
  apply Ha in E2 as (Hwf4 & _ & Hp4 & _); [|apply insert_wf; [done|lia|done]]. simpl in Hp4.
  destruct (Hp4 id o (lookup_insert_eq _ _ _)) as (o' & Ho' & Hev). unfold create_return in H. rewrite Ho' in H.
  simplify_eq. split; [done|]. split; [|split; [done|by exists o, o']].
  etrans; [exact Hp2|]. etrans; [|exact Hp4]. apply (inserts_progress c items o). by split_and!; [apply Hf2|..].
Qed.

(** C2: the in-memory store keeps the [Store] contract.  It starts well formed
    and without orders; as long as fewer than [2^64 - 1] orders were created,
    a new order gets an ID no order has; and every operation does to the map of
    orders what the contract allows and reports it, whatever the clock says and
    in whatever order the map is ranged over.  [Create] is not one critical
    section: whatever other goroutines do around it, it makes one new order
    and returns that order, as it is by then. *)
Theorem memory_store_keeps_contract :
  store memory_store orders mem_wf mem_room ∧
  (mem_wf NewInMemoryStore ∧ mem_room NewInMemoryStore ∧ orders NewInMemoryStore = ∅) ∧
  (∀ before after c items s r s', mem_wf s → mem_room s →
    let id := order_id (nextID s + 1) in
    interferes id before → interferes id after →
    create_among before after c items s = (r, s') →
    mem_wf s' ∧ progress (orders s) (orders s') ∧ orders s !! id = None ∧
    ∃ o o', ID o = id ∧ status o = StatusPending ∧ CustomerID o = c ∧ Items o = items ∧
      evolves o o' ∧ r = Ok o' ∧ orders s' !! id = Some o').
Proof.
  split; [apply memory_store_contract|]. split; [|exact create_among_spec]. split; [apply new_mem_wf|by split].
Qed.
End memory.

(** [Create] reads the order it returns after it has released the mutex: when a
    worker confirms the order in between, [Create] returns it CONFIRMED. *)
Lemma create_returns_later_status clock c items s :
  ∃ o, (create_among clock (mret tt) (mem_ConfirmPending clock (order_id (wrap_uint64 (nextID s + 1)));; mret tt)
      c items s).1 = Ok o ∧
    status o = StatusConfirmed.
Proof.
  unfold create_among, mem_ConfirmPending, create_return, mbind, io_bind. simpl.
  rewrite lookup_insert_eq. simpl. rewrite lookup_insert_eq. by eexists.
Qed.

Lemma memory_store_keeps_contract_witness :
  store (memory_store Z.of_nat map_to_list) orders mem_wf mem_room ∧
  mem_wf NewInMemoryStore ∧ mem_room NewInMemoryStore ∧ orders NewInMemoryStore = ∅ ∧
  (create_among Z.of_nat (mret tt) (mret tt) "alice" [] NewInMemoryStore).1 =
    Ok (mkOrder "ord_1" "alice" [] StatusPending 0 0).
Proof.
  destruct (memory_store_keeps_contract Z.of_nat map_to_list (λ m, reflexivity _)) as (H1 & (H2 & H3 & H4) & _).
  split; [exact H1|]. do 3 (split; [done|]). vm_compute. reflexivity.
Defined.

(** A history on the in-memory store: an order is created and confirmed, and the
    sweep that follows finds nothing to cancel. *)
Definition ex_store : Store InMemoryStore := memory_store Z.of_nat map_to_list.
Definition ex_after (s : InMemoryStore) (cl : call) : InMemoryStore := (perform ex_store cl s).2.
Definition ex_calls : list call := [CCreate "alice" [mkItem "WIDGET" 2]; CConfirm "ord_1"; CCancel 100].
Definition ex_final : InMemoryStore := foldl ex_after NewInMemoryStore ex_calls.

Lemma one_outcome_per_order_witness :
  let log := [("ord_1", StatusConfirmed)] in
  mem_wf ex_final ∧ progress ∅ (orders ex_final) ∧ NoDup log.*1 ∧
  ∀ id st, (id, st) ∈ log → ∃ o, orders ex_final !! id = Some o ∧ status o = st ∧ st ≠ StatusPending.
Proof.
  apply (one_outcome_per_order ex_store orders mem_wf mem_room
    (HS := memory_store_contract Z.of_nat map_to_list (λ m, reflexivity _)) NewInMemoryStore).
  - exact new_mem_wf.
  - apply (history_call ex_store mem_room NewInMemoryStore [("ord_1", StatusConfirmed)]
      (foldl ex_after NewInMemoryStore (take 2 ex_calls)) (CCancel 100) [] ex_final);
      [|done|vm_compute; reflexivity].
    apply (history_call ex_store mem_room NewInMemoryStore []
      (foldl ex_after NewInMemoryStore (take 1 ex_calls)) (CConfirm "ord_1") [("ord_1", StatusConfirmed)]);
      [|done|vm_compute; reflexivity].
    apply (history_call ex_store mem_room NewInMemoryStore [] NewInMemoryStore
      (CCreate "alice" [mkItem "WIDGET" 2]) []); [constructor| |vm_compute; reflexivity].
    split; [by repeat constructor|done].
Defined.
