(* ===== verification/PostgresStore.v ===== *)
(** * orders/store: the PostgreSQL store

    [PostgresStore] as a [Store]: each operation is the statements of the
    source sent to a database the code does not own.  [query] is the database,
    and [database] what SQL says of these statements on a table of rows keyed
    by id.  Theorem: on such a database the store keeps the [Store] contract;
    the items survive their trip through the JSON column, and an operation
    without a pool has no effect. *)
From S2P Require Import Prelude Json Orders OrderJson.

(** A row of the table: [items] is a JSONB column. *)
Record row : Type := mkRow {
  r_id : string;
  r_customer_id : string;
  r_items : json;
  r_status : string;
  r_created_at : Z;
  r_updated_at : Z;
}.

(** The SQL statements of the source, with their parameters. *)
Inductive statement : Type :=
  | EnsureDDL
  | InsertOrder (customer : string) (items : json) (st : string)
  | SelectOrder (id : string)
  | SelectAll
  | UpdateStatus (st : string) (id : string) (old : string)
  | SelectExists (id : string)
  | UpdateStale (st : string) (old : string) (cutoff : Z).

(** A result read by [Next], [Scan] and [Err]: what each scan gives, then how
    the result ended. *)
Definition rows (A : Type) : Type := list (res A) * option goerr.

(** What the scan of a statement's answer gives: [Exec]'s affected rows,
    the columns a single row is scanned into, or rows. *)
Definition answer (q : statement) : Type :=
  match q with
  | EnsureDDL => unit
  | InsertOrder _ _ _ => string * Z * Z
  | SelectOrder _ => row
  | SelectAll => rows row
  | UpdateStatus _ _ _ => Z
  | SelectExists _ => bool
  | UpdateStale _ _ _ => rows string
  end.

Definition ErrNoRows : goerr := Sentinel "pgx.ErrNoRows" "no rows in result set".
Definition errStoreNotConnected : goerr :=
  Sentinel "store.errStoreNotConnected" "postgres store: database not connected".

(** The loop over the rows: it stops at the first whose scan fails. *)
Fixpoint read_rows {A} (l : list (res A)) : res (list A) :=
  match l with
  | [] => Ok []
  | Err e :: _ => Err e
  | Ok x :: l => match read_rows l with Ok xs => Ok (x :: xs) | Err e => Err e end
  end.

(** The loop, then [rows.Err()]. *)
Definition collect {A} (scan_msg end_msg : string) (r : rows A) : res (list A) :=
  match read_rows r.1 with
  | Err e => Err (Wrap scan_msg e)
  | Ok xs => match r.2 with Some e => Err (Wrap end_msg e) | None => Ok xs end
  end.

(** [scanOrder]: [Status] is the text of the column, whatever it is. *)
Definition decode_row (r : row) : option Order :=
  items ← items_of_json (r_items r);
  Some (mkOrder (r_id r) (r_customer_id r) items (r_status r) (r_created_at r) (r_updated_at r)).

Definition scanOrder (r : res row) : res Order :=
  match r with
  | Err e => Err (Wrap "scan order row" e)
  | Ok x =>
      match decode_row x with
      | Some o => Ok o
      | None => Err (Wrap ("unmarshal items for order " +:+ r_id x) (Text "json: cannot unmarshal"))
      end
  end.

Section postgres.
Context {W : Type} (connected : W → bool) (query : ∀ q : statement, io W (res (answer q))).

(** [s.db()]: the pool, or the error while there is none. *)
Definition with_db {A} (k : io W (res A)) : io W (res A) :=
  w ← get_world; if connected w then k else mret (Err errStoreNotConnected).

Definition EnsureSchema : io W (res unit) :=
  with_db (r ← query EnsureDDL; mret (wrap_err "postgres store: ensure schema" r)).

Definition pg_Create (customerID : string) (items : list Item) : io W (res Order) :=
  with_db (
    r ← query (InsertOrder customerID (clean (items_json items)) StatusPending);
    mret (match r with
          | Ok (id, created, updated) => Ok (mkOrder id customerID items StatusPending created updated)
          | Err e => Err (Wrap "postgres store: create" e)
          end)).

Definition pg_Get (id : string) : io W (res Order) :=
  with_db (
    r ← query (SelectOrder id);
    mret (match scanOrder r with
          | Ok o => Ok o
          | Err e =>
              if errors_Is e ErrNoRows then Err ErrOrderNotFound else Err (Wrap "postgres store: get" e)
          end)).

Definition pg_List : io W (res (list Order)) :=
  with_db (
    r ← query SelectAll;
    mret (match r with
          | Err e => Err (Wrap "postgres store: list" e)
          | Ok (l, e) => collect "postgres store: list scan" "postgres store: list" (scanOrder <$> l, e)
          end)).

(** [ConfirmPending] is two statements; [others] is what other clients of the
    database do between them. *)
Definition confirm_exists (id : string) : io W (res bool) :=
  r ← query (SelectExists id);
  mret (match r with
        | Err e => Err (Wrap "postgres store: confirm existence check" e)
        | Ok exists_ => if negb exists_ then Err ErrOrderNotFound else Ok false
        end).

Definition confirm_among (others : io W unit) (id : string) : io W (res bool) :=
  with_db (
    r ← query (UpdateStatus StatusConfirmed id StatusPending);
    match r with
    | Err e => mret (Err (Wrap "postgres store: confirm" e))
    | Ok n => if 0 <? n then mret (Ok true) else others;; confirm_exists id
    end).

Definition pg_ConfirmPending : string → io W (res bool) := confirm_among (mret tt).

(** A TIMESTAMPTZ counts microseconds: what the driver sends for a [time.Time] is
    its number of whole ones. *)
Definition timestamptz (t : Z) : Z := t / Microsecond * Microsecond.

Definition pg_CancelStalePending (cutoff : Z) : io W (res (list string)) :=
  with_db (
    r ← query (UpdateStale StatusCanceled StatusPending (timestamptz cutoff));
    mret (match r with
          | Err e => Err (Wrap "postgres store: cancel stale" e)
          | Ok l => collect "postgres store: cancel stale scan" "postgres store: cancel stale" l
          end)).

Definition postgres_store : Store W :=
  mkStore pg_Create pg_Get pg_List pg_ConfirmPending pg_CancelStalePending.

Lemma timestamptz_grain c : timestamptz c ≤ c < timestamptz c + Microsecond.
Proof. unfold timestamptz, Microsecond. pose proof (Z.div_mod c 1000). pose proof (Z.mod_pos_bound c 1000). lia. Qed.

(** ** The database *)
Context (table : W → gmap string row).

Definition with_status (st : string) (now : Z) (r : row) : row :=
  mkRow (r_id r) (r_customer_id r) (r_items r) st (r_created_at r) now.

(** What SQL says of each statement: a query reads the table; an INSERT adds a
    row under a key that was free (the sequence and the primary key), an
    UPDATE rewrites the rows its WHERE selects, with one time for all; a
    statement that fails is rolled back or, when only the answer was lost, took
    effect; and an error is not one of the program's.  The answer to a query may
    begin before the statement has run: when it then fails, its error is the one
    the rows end with. *)
Definition inserted (c : string) (items : json) (st : string) (t t' : gmap string row) (id : string) (at_ : Z) : Prop :=
  t !! id = None ∧ t' = <[id := mkRow id c items st at_ at_]> t.
Definition updated (st id old : string) (t t' : gmap string row) (n : Z) : Prop :=
  (∃ x now, t !! id = Some x ∧ r_status x = old ∧ t' = <[id := with_status st now x]> t ∧ n = 1) ∨
  ((∀ x, t !! id = Some x → r_status x ≠ old) ∧ t' = t ∧ n = 0).
Definition is_stale (old : string) (cutoff : Z) (x : row) : bool :=
  bool_decide (r_status x = old) && (r_created_at x <? cutoff).
Definition updated_stale (st old : string) (cutoff now : Z) (t : gmap string row) : gmap string row :=
  (λ x, if is_stale old cutoff x then with_status st now x else x) <$> t.

Definition foreign (e : goerr) : Prop := errors_Is e ErrOrderNotFound = false ∧ errors_Is e ErrNoRows = false.

(** A result read to its end without an error has the rows [l], in some order. *)
Definition delivers {A} (r : rows A) (l : list A) : Prop :=
  ∀ xs, read_rows r.1 = Ok xs → r.2 = None → xs ≡ₚ l.

Class database : Prop := {
  db_insert c items st w r w' : query (InsertOrder c items st) w = (r, w') →
    match r with
    | Ok (id, created, updated) => updated = created ∧ inserted c items st (table w) (table w') id created
    | Err e => foreign e ∧ (table w' = table w ∨ ∃ id t, inserted c items st (table w) (table w') id t)
    end;
  db_select id w r w' : query (SelectOrder id) w = (r, w') →
    table w' = table w ∧
    match r with
    | Ok x => table w !! id = Some x
    | Err e => foreign e ∨ (errors_Is e ErrOrderNotFound = false ∧ table w !! id = None)
    end;
  db_select_all w r w' : query SelectAll w = (r, w') →
    table w' = table w ∧
    match r with Ok a => delivers a (map_to_list (table w)).*2 | Err e => True end;
  db_update st id old w r w' : query (UpdateStatus st id old) w = (r, w') →
    match r with
    | Ok n => updated st id old (table w) (table w') n
    | Err e => foreign e ∧ (table w' = table w ∨ ∃ n, updated st id old (table w) (table w') n)
    end;
  db_exists id w r w' : query (SelectExists id) w = (r, w') →
    table w' = table w ∧
    match r with Ok b => b = bool_decide (is_Some (table w !! id)) | Err e => foreign e end;
  db_update_stale st old cutoff w r w' : query (UpdateStale st old cutoff) w = (r, w') →
    match r with
    | Ok a =>
        (∃ now, table w' = updated_stale st old cutoff now (table w) ∧
           delivers a (filter (λ p, is_stale old cutoff p.2 = true) (map_to_list (table w))).*1) ∨
        (table w' = table w ∧ a.2 ≠ None)
    | Err e => table w' = table w ∨ ∃ now, table w' = updated_stale st old cutoff now (table w)
    end;
}.

(** ** The contract *)

(** The orders of the table; every row is under its own id, and decodes. *)
Definition pg_orders (w : W) : gmap string Order := omap decode_row (table w).
Definition pg_wf (w : W) : Prop := map_Forall (λ id x, r_id x = id ∧ is_Some (decode_row x)) (table w).
Definition pg_room (w : W) : Prop := True.

Lemma pg_lookup w id : pg_orders w !! id = table w !! id ≫= decode_row.
Proof. apply lookup_omap. Qed.

Lemma decode_with_status st now x : decode_row (with_status st now x) = set_status st now <$> decode_row x.
Proof. unfold decode_row. simpl. by destruct (items_of_json (r_items x)). Qed.

Lemma decode_row_id x o : decode_row x = Some o → ID o = r_id x ∧ status o = r_status x ∧ CreatedAt o = r_created_at x.
Proof. unfold decode_row. intros (items & _ & [= <-])%bind_Some. done. Qed.

Lemma pg_same w w' : table w' = table w → pg_wf w → pg_wf w' ∧ pg_orders w' = pg_orders w.
Proof. intros H Hwf. unfold pg_wf, pg_orders. by rewrite H. Qed.

Lemma pg_insert w w' c items id t :
  sent_items items → pg_wf w → inserted c (clean (items_json items)) StatusPending (table w) (table w') id t →
  pg_wf w' ∧ inserts c items (mkOrder id c items StatusPending t t) (pg_orders w) (pg_orders w').
Proof.
  intros Hi Hwf [Hn Ht].
  assert (decode_row (mkRow id c (clean (items_json items)) StatusPending t t) =
    Some (mkOrder id c items StatusPending t t)) as Hd.
  { unfold decode_row. cbn [r_items r_id r_customer_id r_status r_created_at r_updated_at].
    by rewrite sent_roundtrip. }
  unfold pg_wf, pg_orders. rewrite Ht. split.
  - apply map_Forall_insert_2; [by split; [|rewrite Hd]|done].
  - split_and!; try done; [by rewrite lookup_omap; simpl; rewrite Hn|by apply omap_insert_Some].
Qed.

Lemma pg_update w w' id st n :
  pg_wf w → updated st id StatusPending (table w) (table w') n →
  pg_wf w' ∧ ((n = 1 ∧ settles st id (pg_orders w) (pg_orders w')) ∨
              (n = 0 ∧ pg_orders w' = pg_orders w ∧ table w' = table w ∧
               ∀ o, pg_orders w !! id = Some o → status o ≠ StatusPending)).
Proof.
  intros Hwf [(x & now & Hx & Hst & Ht & ->)|(Hst & Ht & ->)].
  - destruct (Hwf id x Hx) as [Hid [o Ho]]. unfold pg_wf, settles, pg_orders. rewrite Ht. split.
    + apply map_Forall_insert_2; [split; [done|]; rewrite decode_with_status, Ho; by eexists|done].
    + left. split; [done|]. exists o, now. split_and!.
      * by rewrite lookup_omap, Hx.
      * destruct (decode_row_id x o Ho) as (_ & -> & _). done.
      * apply omap_insert_Some. by rewrite decode_with_status, Ho.
  - destruct (pg_same w w' Ht Hwf) as [Hwf' Ho]. split; [done|]. right. split_and!; [done..|].
    intros o Hl. rewrite pg_lookup in Hl. apply bind_Some in Hl as (x & Hx & Hd).
    destruct (decode_row_id x o Hd) as (_ & -> & _). by apply Hst.
Qed.

Lemma stale_row cutoff x o : decode_row x = Some o → is_stale StatusPending cutoff x = bool_decide (stale cutoff o).
Proof.
  intros (_ & Hs & Hc)%decode_row_id. unfold is_stale. apply eq_bool_prop_intro.
  rewrite andb_True, !bool_decide_spec, Is_true_true, Z.ltb_lt. unfold stale. by rewrite Hs, Hc.
Qed.

Lemma pg_stale w w' cutoff now :
  pg_wf w → table w' = updated_stale StatusCanceled StatusPending cutoff now (table w) →
  pg_wf w' ∧ cancels cutoff (pg_orders w) (pg_orders w').
Proof.
  intros Hwf Ht. split.
  - intros id x. rewrite Ht. unfold updated_stale. intros (y & <- & Hy)%lookup_fmap_Some.
    destruct (Hwf id y Hy) as [Hid [o Ho]]. destruct (is_stale _ _ _); [|by split; [|exists o]].
    split; [done|]. rewrite decode_with_status, Ho. by eexists.
  - exists (λ _, now). intros id. rewrite !pg_lookup, Ht. unfold updated_stale. rewrite lookup_fmap.
    destruct (table w !! id) as [x|] eqn:Hx; simpl; [|done].
    destruct (Hwf id x Hx) as [Hid [o Ho]]. rewrite Ho, (stale_row cutoff x o Ho). simpl.
    case_bool_decide; [|by rewrite Ho, decide_False].
    by rewrite decode_with_status, Ho, decide_True.
Qed.

Lemma read_rows_map {A B} (f : res A → res B) (g : A → option B) l ys :
  (∀ x y, f x = Ok y → ∃ a, x = Ok a ∧ g a = Some y) → read_rows (f <$> l) = Ok ys →
  ∃ xs, read_rows l = Ok xs ∧ ys = omap g xs.
Proof.
  intros Hf. revert ys. induction l as [|x l IH]; intros ys; simpl; [intros [= <-]; by exists []|].
  destruct (f x) as [y|] eqn:E; [|done]. destruct (Hf x y E) as (a & -> & Ha).
  destruct (read_rows _) as [ys'|] eqn:E'; [|done]. intros [= <-].
  destruct (IH ys' eq_refl) as (xs & -> & ->). exists (a :: xs). simpl. by rewrite Ha.
Qed.

Lemma scanOrder_ok x o : scanOrder x = Ok o → ∃ a, x = Ok a ∧ decode_row a = Some o.
Proof. destruct x as [a|]; [|done]. simpl. destruct (decode_row a) eqn:E; [|done]. intros [= ->]. by exists a. Qed.

Lemma collect_ok {A} m1 m2 (x : rows A) l : collect m1 m2 x = Ok l → read_rows x.1 = Ok l ∧ x.2 = None.
Proof. destruct x as [rs e]. unfold collect. simpl. destruct (read_rows rs), e; try done; by intros [= ->]. Qed.

Lemma list_delivers (a : rows row) m1 m2 w os :
  delivers a (map_to_list (table w)).*2 →
  collect m1 m2 (scanOrder <$> a.1, a.2) = Ok os → os ≡ₚ (map_to_list (pg_orders w)).*2.
Proof.
  intros Hd [Hr He]%collect_ok. simpl in *.
  apply (read_rows_map _ decode_row) in Hr as (xs & Hxs & ->); [|apply scanOrder_ok].
  unfold pg_orders. rewrite map_values_omap. by apply omap_Permutation, Hd.
Qed.

Lemma stale_delivers (a : rows string) m1 m2 w ids cutoff :
  pg_wf w →
  delivers a (filter (λ p, is_stale StatusPending cutoff p.2 = true) (map_to_list (table w))).*1 →
  collect m1 m2 a = Ok ids →
  NoDup ids ∧ ∀ id, id ∈ ids ↔ ∃ o, pg_orders w !! id = Some o ∧ stale cutoff o.
Proof.
  intros Hwf Hd [Hr He]%collect_ok. pose proof (Hd ids Hr He) as Hp. split.
  - rewrite Hp. eapply sublist_NoDup; [apply (NoDup_fst_map_to_list (table w))|].
    apply fmap_sublist, sublist_filter.
  - intros id. rewrite Hp, list_elem_of_fmap. split.
    + intros ([id' x] & -> & [Hs Hin%elem_of_map_to_list]%list_elem_of_filter). simpl in *.
      destruct (Hwf id' x Hin) as [_ [o Ho]]. exists o. rewrite pg_lookup, Hin. split; [done|].
      rewrite (stale_row cutoff x o Ho) in Hs. by apply bool_decide_eq_true in Hs.
    + intros (o & Ho & Hs). rewrite pg_lookup in Ho. apply bind_Some in Ho as (x & Hx & Ho).
      exists (id, x). split; [done|]. apply list_elem_of_filter. split; [|by apply elem_of_map_to_list].
      simpl. rewrite (stale_row cutoff x o Ho). by apply bool_decide_eq_true.
Qed.

(** Without a pool an operation has no effect. *)
Lemma with_db_cases {A} (k : io W (res A)) w r w' :
  with_db k w = (r, w') → (r = Err errStoreNotConnected ∧ w' = w) ∨ k w = (r, w').
Proof.
  unfold with_db, mbind, io_bind, get_world. destruct (connected w); [by right|]. intros [= <- <-]. by left.
Qed.

Context `{Hdb : !database}.

Lemma pg_create_spec c items w r w' :
  pg_wf w → sent_items items → pg_Create c items w = (r, w') →
  pg_wf w' ∧ create_spec c items (pg_orders w) r (pg_orders w').
Proof.
  intros Hwf Hi [[-> ->]|H]%with_db_cases; [split; [done|by left]|].
  unfold mbind, io_bind, mret, io_ret in H. destruct (query _ w) as [a w1] eqn:E. simplify_eq.
  apply db_insert in E. destruct a as [[[id t1] t2]|e]; simpl in *.
  - destruct E as [-> E]. by apply pg_insert.
  - destruct E as [_ [E|(id & t & E)]].
    + destruct (pg_same w w' E Hwf). split; [done|by left].
    + apply pg_insert in E as [? ?]; [|done..]. split; [done|]. right. by eexists.
Qed.

Lemma pg_get_spec id w r w' :
  pg_wf w → pg_Get id w = (r, w') → pg_wf w' ∧ pg_orders w' = pg_orders w ∧ current id (pg_orders w) r.
Proof.
  intros Hwf [[-> ->]|H]%with_db_cases; [by split; [|split]|].
  unfold mbind, io_bind, mret, io_ret in H. destruct (query _ w) as [a w1] eqn:E. simplify_eq.
  apply db_select in E as [Ht E]. destruct (pg_same w w' Ht Hwf) as [? Ho].
  split; [done|]. split; [done|]. unfold current. rewrite pg_lookup. destruct a as [x|e]; simpl in *.
  - rewrite E. simpl. destruct (Hwf id x E) as [_ [o Hd]]. by rewrite Hd.
  - destruct E as [[E1 E2]|[E1 E2]].
    + unfold errors_Is, ErrNoRows, not_found in *. simpl in *. rewrite E2. simpl. congruence.
    + destruct (err_is e "pgx.ErrNoRows"); intros _; by rewrite E2.
Qed.

Lemma pg_list_spec w r w' :
  pg_wf w → pg_List w = (r, w') → pg_wf w' ∧ list_spec (pg_orders w) r (pg_orders w').
Proof.
  intros Hwf [[-> ->]|H]%with_db_cases; [by split; [|split]|].
  unfold mbind, io_bind, mret, io_ret in H. destruct (query _ w) as [a w1] eqn:E. simplify_eq.
  apply db_select_all in E as [Ht E]. destruct (pg_same w w' Ht Hwf) as [? Ho].
  split; [done|]. split; [done|]. destruct a as [[l e]|e]; [|done].
  destruct (collect _ _ _) as [os|] eqn:Ec; [|done]. by eapply (list_delivers (l, e)).
Qed.

(** Other clients: they move orders on, and forget none. *)
Definition interferes (others : io W unit) : Prop :=
  ∀ w u w', pg_wf w → others w = (u, w') → pg_wf w' ∧ progress (pg_orders w) (pg_orders w').

(** The existence check. *)
Lemma confirm_exists_spec id w r w' :
  pg_wf w → confirm_exists id w = (r, w') →
  pg_wf w' ∧ pg_orders w' = pg_orders w ∧
  match r with
  | Ok b => b = false ∧ is_Some (pg_orders w !! id)
  | Err e => not_found e = true → pg_orders w !! id = None
  end.
Proof.
  intros Hwf H. unfold confirm_exists, mbind, io_bind, mret, io_ret in H.
  destruct (query _ w) as [a w1] eqn:E. simplify_eq. apply db_exists in E as [Ht E].
  destruct (pg_same w w' Ht Hwf) as [? Ho]. split; [done|]. split; [done|].
  destruct a as [b|e]; simpl; [|unfold not_found; simpl; by rewrite (proj1 E : err_is e _ = false)].
  symmetry in E. rewrite pg_lookup. destruct b; simpl.
  - apply bool_decide_eq_true in E as [x Hx]. split; [done|]. destruct (Hwf id x Hx) as [_ Hd]. by rewrite Hx.
  - apply bool_decide_eq_false in E as Hx. by apply eq_None_not_Some in Hx as ->.
Qed.

(** [ConfirmPending] with other clients between its statements. *)
Lemma confirm_among_spec others id w r w' :
  interferes others → pg_wf w → confirm_among others id w = (r, w') →
  pg_wf w' ∧
  match r with
  | Ok true => settles StatusConfirmed id (pg_orders w) (pg_orders w')
  | Ok false =>
      progress (pg_orders w) (pg_orders w') ∧ is_Some (pg_orders w' !! id) ∧
      ∀ o, pg_orders w !! id = Some o → status o ≠ StatusPending
  | Err e => progress (pg_orders w) (pg_orders w') ∧ (not_found e = true → pg_orders w' !! id = None)
  end.
Proof.
  intros Hot Hwf [[-> ->]|H]%with_db_cases; [by split; [|split]|].
  unfold mbind, io_bind, mret, io_ret in H. destruct (query _ w) as [a w1] eqn:E.
  apply db_update in E. destruct a as [n|e].
  - destruct (pg_update w w1 id _ n Hwf E) as [Hwf1 [[-> Hs]|(-> & Ho & Ht & Hp)]]; simpl in H.
    { by simplify_eq. }
    destruct (others w1) as [u w2] eqn:Eo. destruct (Hot w1 u w2 Hwf1 Eo) as [Hwf2 Hpr].
    destruct (confirm_exists_spec id w2 r w' Hwf2 H) as (Hwf3 & Ho3 & Hr). split; [done|].
    rewrite Ho3, <-Ho. destruct r as [b|e]; [|done]. destruct Hr as [-> ?]. split; [done|]. split; [done|].
    rewrite Ho. intros o. apply Hp.
  - simplify_eq. destruct E as [Hf E]. unfold not_found. simpl.
    rewrite (proj1 Hf : err_is e _ = false).
    destruct E as [E|[n E]]; [destruct (pg_same w w' E Hwf) as [? ->]; by split; [|split]|].
    destruct (pg_update w w' id _ n Hwf E) as [? [[_ Hs]|(_ & -> & _)]]; [|by split; [|split]].
    split; [done|]. split; [by eapply settles_progress|done].
Qed.

Lemma pg_confirm_spec id w r w' :
  pg_wf w → pg_ConfirmPending id w = (r, w') →
  pg_wf w' ∧ confirm_spec id (pg_orders w) r (pg_orders w').
Proof.
  intros Hwf [[-> ->]|H]%with_db_cases; [split; [done|by left]|].
  unfold mbind, io_bind, mret, io_ret in H. destruct (query _ w) as [a w1] eqn:E.
  apply db_update in E. destruct a as [n|e].
  - destruct (pg_update w w1 id _ n Hwf E) as [Hwf1 [[-> Hs]|(-> & Ho & Ht & Hp)]]; simpl in H.
    { by simplify_eq. }
    destruct (confirm_exists_spec id w1 r w' Hwf1 H) as (? & Ho2 & Hr). split; [done|]. rewrite Ho2, Ho in *.
    destruct r as [b|e]; simpl.
    + destruct Hr as [-> [o Ho']]. split; [done|]. exists o. split; [done|by apply Hp].
    + destruct (not_found e); [|by left]. split; [done|by apply Hr].
  - simplify_eq. destruct E as [Hf E]. simpl. unfold not_found. simpl.
    rewrite (proj1 Hf : err_is e _ = false).
    destruct E as [E|[n E]]; [destruct (pg_same w w' E Hwf); auto|].
    destruct (pg_update w w' id _ n Hwf E) as [? [[_ ?]|(_ & ? & _)]]; auto.
Qed.

Lemma pg_cancel_spec cutoff w r w' :
  pg_wf w → pg_CancelStalePending cutoff w = (r, w') →
  pg_wf w' ∧ cancel_spec (timestamptz cutoff) (pg_orders w) r (pg_orders w').
Proof.
  intros Hwf [[-> ->]|H]%with_db_cases; [split; [done|by left]|].
  unfold mbind, io_bind, mret, io_ret in H. destruct (query _ w) as [a w1] eqn:E. simplify_eq.
  apply db_update_stale in E. destruct a as [l|e].
  - destruct E as [(now & Ht & Hd)|[Ht He]].
    + destruct (pg_stale w w' _ now Hwf Ht) as [? Hc]. split; [done|].
      destruct (collect _ _ _) as [ids|] eqn:Ec; [|by right].
      destruct (stale_delivers l _ _ w ids _ Hwf Hd Ec). done.
    + destruct (pg_same w w' Ht Hwf) as [? Ho]. split; [done|].
      destruct (collect _ _ _) as [ids|] eqn:Ec; [|by left]. by apply collect_ok in Ec as [_ ?].
  - destruct E as [E|[now E]]; [destruct (pg_same w w' E Hwf); by split; [|left]|].
    destruct (pg_stale w w' _ now Hwf E). by split; [|right].
Qed.

#[export] Instance postgres_store_contract : store_for current timestamptz postgres_store pg_orders pg_wf pg_room.
Proof.
  split; simpl.
  - apply timestamptz_grain.
  - intros w Hwf id o. rewrite pg_lookup. intros (x & Hx & (-> & _)%decode_row_id)%bind_Some. by apply (Hwf id x).
  - intros c items w r w' Hwf _ Hi. by apply pg_create_spec.
  - intros id w r w' Hwf. by apply pg_get_spec.
  - intros w r w' Hwf. by apply pg_list_spec.
  - intros id w r w' Hwf. by apply pg_confirm_spec.
  - intros cutoff w r w' Hwf. by apply pg_cancel_spec.
Qed.

(** C15: the PostgreSQL store keeps the [Store] contract.  On a database that does
    what SQL says of the seven statements, each operation does to the orders of
    the table what the contract allows and reports it, on every error path of
    the driver too, a sweep's cutoff counting in whole microseconds; the items
    come back from the JSON column as they went in.
    An empty table is well formed.  [ConfirmPending] is two statements: when other
    clients come between them it still confirms only a pending order, answers
    false only for an order that was not pending, and not-found only for one
    that does not exist.  While there is no pool every operation returns
    [errStoreNotConnected] and sends nothing. *)
Theorem postgres_store_keeps_contract :
  store_for current timestamptz postgres_store pg_orders pg_wf pg_room ∧
  (∀ w, table w = ∅ → pg_wf w ∧ pg_orders w = ∅) ∧
  (∀ others id w r w', interferes others → pg_wf w → confirm_among others id w = (r, w') →
    pg_wf w' ∧
    match r with
    | Ok true => settles StatusConfirmed id (pg_orders w) (pg_orders w')
    | Ok false =>
        progress (pg_orders w) (pg_orders w') ∧ is_Some (pg_orders w' !! id) ∧
        ∀ o, pg_orders w !! id = Some o → status o ≠ StatusPending
    | Err e => progress (pg_orders w) (pg_orders w') ∧ (not_found e = true → pg_orders w' !! id = None)
    end) ∧
  (∀ w, connected w = false →
    EnsureSchema w = (Err errStoreNotConnected, w) ∧
    (∀ c items, pg_Create c items w = (Err errStoreNotConnected, w)) ∧
    (∀ id, pg_Get id w = (Err errStoreNotConnected, w)) ∧
    pg_List w = (Err errStoreNotConnected, w) ∧
    (∀ id, pg_ConfirmPending id w = (Err errStoreNotConnected, w)) ∧
    (∀ cutoff, pg_CancelStalePending cutoff w = (Err errStoreNotConnected, w))).
Proof.
  split; [apply postgres_store_contract|]. split; [|split].
  - intros w Hw. unfold pg_wf, pg_orders. rewrite Hw. split; [apply map_Forall_empty|apply omap_empty].
  - exact confirm_among_spec.
  - intros w Hc.
    assert (∀ A (k : io W (res A)), with_db k w = (Err errStoreNotConnected, w)) as Hd.
    { intros A k. unfold with_db, mbind, io_bind, get_world. by rewrite Hc. }
    split; [apply Hd|]. split; [intros; apply Hd|]. split; [intros; apply Hd|]. split; [apply Hd|].
    split; intros; apply Hd.
Qed.
End postgres.

(** A database in memory: the table and the pool; it rolls a sweep back, after the
    answer has begun, when the cutoff is before its first instant. *)
Definition ex_db : Type := gmap string row * bool.
Definition ex_query (q : statement) : io ex_db (res (answer q)) :=
  match q return io ex_db (res (answer q)) with
  | EnsureDDL => λ w, (Ok tt, w)
  | InsertOrder c items st => λ w,
      let id := fresh (dom w.1) in (Ok (id, 0, 0), (<[id := mkRow id c items st 0 0]> w.1, w.2))
  | SelectOrder id => λ w,
      (match w.1 !! id with Some x => Ok x | None => Err ErrNoRows end, w)
  | SelectAll => λ w, (Ok (Ok <$> (map_to_list w.1).*2, None), w)
  | UpdateStatus st id old => λ w,
      match w.1 !! id with
      | Some x =>
          if decide (r_status x = old) then (Ok 1, (<[id := with_status st 0 x]> w.1, w.2)) else (Ok 0, w)
      | None => (Ok 0, w)
      end
  | SelectExists id => λ w, (Ok (bool_decide (is_Some (w.1 !! id))), w)
  | UpdateStale st old cutoff => λ w,
      if cutoff <? 0 then (Ok ([], Some (Text "timestamp out of range")), w) else
      (Ok (Ok <$> (filter (λ p, is_stale old cutoff p.2 = true) (map_to_list w.1)).*1, None),
       (updated_stale st old cutoff 0 w.1, w.2))
  end.

Lemma read_rows_ok {A} (l : list A) : read_rows (Ok <$> l) = Ok l.
Proof. induction l as [|x l IH]; [done|]. rewrite fmap_cons. cbn [read_rows]. by rewrite IH. Qed.

Lemma delivers_ok {A} (l : list A) : delivers (Ok <$> l, None) l.
Proof. intros xs H _. change (read_rows (Ok <$> l) = Ok xs) in H. rewrite read_rows_ok in H. by simplify_eq. Qed.

Lemma ex_database : database ex_query fst.
Proof.
  split.
  - intros c items st w r w' [= <- <-]. split; [done|]. split; [|done]. simpl.
    apply not_elem_of_dom, is_fresh.
  - intros id w r w' [= <- <-]. split; [done|]. destruct (w.1 !! id) as [x|] eqn:E; [done|by right].
  - intros w r w' [= <- <-]. split; [done|]. apply delivers_ok.
  - intros st id old w r w' H. unfold updated. simpl in H. destruct (w.1 !! id) as [x|] eqn:E.
    + destruct (decide (r_status x = old)); simplify_eq; [left; by exists x, 0|right].
      split_and!; try done. intros y [= <-]. done.
    + simplify_eq. right. by split_and!.
  - intros id w r w' [= <- <-]. done.
  - intros st old cutoff w r w' H. unfold ex_query in H. destruct (_ <? 0) eqn:E; simplify_eq; [by right|].
    left. exists 0. split; [done|]. apply delivers_ok.
Qed.

Lemma postgres_store_keeps_contract_witness :
  let w : ex_db := (∅, false) in
  store_for current timestamptz (postgres_store snd ex_query) (pg_orders fst) (pg_wf fst) pg_room ∧
  (pg_wf fst w ∧ pg_orders fst w = ∅) ∧ pg_List snd ex_query w = (Err errStoreNotConnected, w).
Proof.
  destruct (postgres_store_keeps_contract snd ex_query fst (Hdb := ex_database)) as (H1 & H2 & _ & H3).
  split; [exact H1|]. split; [by apply H2|]. by apply H3.
Defined.
