(* ===== verification/Publishing.v ===== *)
(** * orders: events, and the publishing decorator

    [PublishingStore] wraps any [Store]: each mutation, once it succeeded, emits
    its events through a publisher whose failures it ignores; [KafkaPublisher]
    hands an event to the Kafka producer under the order's ID.  Theorems: the
    decorator keeps the [Store] contract, whatever publishing does; along any
    history the events are exactly the outcomes the calls report. *)
From S2P Require Import Prelude Utf8 Json JsonText KafkaNet Prom Producer Orders OrderJson MemoryStore.

Definition OrdersEventsTopic : string := "orders.events".
Definition EventCreated : string := "created".
Definition EventConfirmed : string := "confirmed".
Definition EventCanceled : string := "canceled".

Record OrderEvent : Type := mkEvent {
  Type_ : string;
  OrderID : string;
  EvCustomerID : string;
  EvStatus : string;
  At : Z;
}.

(** [EventPublisher]: the publisher's [Publish]; [Now] is [time.Now]. *)
Section publishing.
Context {W : Type} (inner : Store W) (Publish : OrderEvent → io W (option goerr)) (Now : io W Z).

(** A failure is logged, and nothing else. *)
Definition emit (ev : OrderEvent) : io W unit := Publish ev;; mret tt.

Definition pub_Create (customerID : string) (items : list Item) : io W (res Order) :=
  r ← Create inner customerID items;
  match r with
  | Err e => mret (Err (Wrap "publishing store: create" e))
  | Ok o =>
      t ← Now;
      emit (mkEvent EventCreated (ID o) (CustomerID o) (status o) t);;
      mret (Ok o)
  end.

Definition pub_ConfirmPending (id : string) : io W (res bool) :=
  r ← ConfirmPending inner id;
  match r with
  | Err e => mret (Err (Wrap "publishing store: confirm" e))
  | Ok confirmed =>
      (if confirmed : bool then t ← Now; emit (mkEvent EventConfirmed id "" StatusConfirmed t) else mret tt);;
      mret (Ok confirmed)
  end.

(** The loop over the cancelled orders. *)
Fixpoint emit_canceled (ids : list string) : io W unit :=
  match ids with
  | [] => mret tt
  | id :: ids => t ← Now; emit (mkEvent EventCanceled id "" StatusCanceled t);; emit_canceled ids
  end.

Definition pub_CancelStalePending (cutoff : Z) : io W (res (list string)) :=
  r ← CancelStalePending inner cutoff;
  match r with
  | Err e => mret (Err (Wrap "publishing store: cancel stale" e))
  | Ok ids => emit_canceled ids;; mret (Ok ids)
  end.

(** [Get] and [List] are the inner store's. *)
Definition PublishingStore : Store W :=
  mkStore pub_Create (Get inner) (List_ inner) pub_ConfirmPending pub_CancelStalePending.

(** ** The contract

    [attempts w] are the events handed to the publisher so far.  Publishing an
    event and reading the clock do nothing else the orders depend on, and the
    inner store does not publish. *)
Context (abs : W → gmap string Order) (wf room : W → Prop) (attempts : W → list OrderEvent).

#[local] Notation same_orders := (Orders.same_orders abs wf room).

Class publisher : Prop := {
  publish_attempt ev w r w' : Publish ev w = (r, w') → same_orders w w' ∧ attempts w' = attempts w ++ [ev];
  now_silent w t w' : Now w = (t, w') → same_orders w w' ∧ attempts w' = attempts w;
}.

Class silent : Prop := {
  silent_create c items w r w' : Create inner c items w = (r, w') → attempts w' = attempts w;
  silent_get id w r w' : Get inner id w = (r, w') → attempts w' = attempts w;
  silent_list w r w' : List_ inner w = (r, w') → attempts w' = attempts w;
  silent_confirm id w r w' : ConfirmPending inner id w = (r, w') → attempts w' = attempts w;
  silent_cancel cutoff w r w' : CancelStalePending inner cutoff w = (r, w') → attempts w' = attempts w;
}.

(** What an event says, but for its time. *)
Definition says (ev : OrderEvent) : string * string * string * string :=
  (Type_ ev, OrderID ev, EvCustomerID ev, EvStatus ev).

(** Between [w] and [w'] exactly events saying [l] were handed over. *)
Definition emitted (l : list (string * string * string * string)) (w w' : W) : Prop :=
  ∃ evs, attempts w' = attempts w ++ evs ∧ says <$> evs = l.

Lemma emitted_nil w w' : attempts w' = attempts w → emitted [] w w'.
Proof. intros H. exists []. by rewrite H, app_nil_r. Qed.

Lemma emitted_app l1 l2 w1 w2 w3 : emitted l1 w1 w2 → emitted l2 w2 w3 → emitted (l1 ++ l2) w1 w3.
Proof.
  intros (e1 & H1 & <-) (e2 & H2 & <-). exists (e1 ++ e2). by rewrite H2, H1, app_assoc, fmap_app.
Qed.

Context `{Hpub : !publisher}.

(** [time.Now] and [emit]: the orders stay, the one event is handed over. *)
Lemma emit_spec ty id c st w t w1 u w' :
  Now w = (t, w1) → emit (mkEvent ty id c st t) w1 = (u, w') →
  same_orders w w' ∧ emitted [(ty, id, c, st)] w w'.
Proof.
  intros [H1 Ha]%now_silent H. unfold emit, mbind, io_bind, mret, io_ret in H.
  destruct (Publish _ w1) as [r w2] eqn:E. simplify_eq. apply publish_attempt in E as [H2 Hb].
  split; [by etrans|]. exists [mkEvent ty id c st t]. by rewrite Hb, Ha.
Qed.

Lemma emit_canceled_spec ids w u w' :
  emit_canceled ids w = (u, w') →
  same_orders w w' ∧ emitted ((λ id, (EventCanceled, id, "", StatusCanceled)) <$> ids) w w'.
Proof.
  revert w. induction ids as [|id ids IH]; intros w H; simpl in H.
  { unfold mret, io_ret in H. simplify_eq. split; [done|by apply emitted_nil]. }
  unfold mbind, io_bind in H. destruct (Now w) as [t w1] eqn:E1.
  destruct (emit _ w1) as [u1 w2] eqn:E2. destruct (emit_spec _ _ _ _ _ _ _ _ _ E1 E2) as [H1 Ha].
  apply IH in H as [H2 Hb]. split; [by etrans|]. by eapply (emitted_app [_]).
Qed.

Context {answers : string → gmap string Order → res Order → Prop} {grain : Z → Z} `{Hinner : !store_for answers grain inner abs wf room}.

(** What each mutation comes down to: the inner store's, its error wrapped, and
    then the events, which leave the orders as they are. *)
Definition told_create (r : res Order) : list (string * string * string * string) :=
  match r with Ok o => [(EventCreated, ID o, CustomerID o, status o)] | Err _ => [] end.
Definition told (x : string * Status) : string * string * string * string :=
  (if decide (x.2 = StatusConfirmed) then EventConfirmed else EventCanceled, x.1, "", x.2).
Definition told_confirm (id : string) (r : res bool) : list (string * string * string * string) :=
  match r with Ok true => [told (id, StatusConfirmed)] | _ => [] end.
Definition told_cancel (r : res (list string)) : list (string * string * string * string) :=
  match r with Ok ids => (λ id, told (id, StatusCanceled)) <$> ids | Err _ => [] end.

Lemma pub_create_run c items w r w' :
  pub_Create c items w = (r, w') →
  ∃ r1 w1, Create inner c items w = (r1, w1) ∧ r = wrap_err "publishing store: create" r1 ∧
    same_orders w1 w' ∧ emitted (told_create r1) w1 w'.
Proof.
  intros H. unfold pub_Create, mbind, io_bind, mret, io_ret in H.
  destruct (Create inner c items w) as [r1 w1] eqn:E. exists r1, w1. split; [done|].
  destruct r1 as [o|e]; simplify_eq; [|by split_and!; [..|apply emitted_nil]].
  destruct (Now w1) as [t w2] eqn:E2. destruct (emit _ w2) as [u w3] eqn:E3. simplify_eq.
  split; [done|]. by eapply emit_spec.
Qed.

Lemma pub_confirm_run id w r w' :
  pub_ConfirmPending id w = (r, w') →
  ∃ r1 w1, ConfirmPending inner id w = (r1, w1) ∧ r = wrap_err "publishing store: confirm" r1 ∧
    same_orders w1 w' ∧ emitted (told_confirm id r1) w1 w'.
Proof.
  intros H. unfold pub_ConfirmPending, mbind, io_bind, mret, io_ret in H.
  destruct (ConfirmPending inner id w) as [r1 w1] eqn:E. exists r1, w1. split; [done|].
  destruct r1 as [[]|e]; simplify_eq; [|by split_and!; [..|apply emitted_nil]..].
  destruct (Now w1) as [t w2] eqn:E2. destruct (emit _ w2) as [u w3] eqn:E3. simplify_eq.
  split; [done|]. by eapply emit_spec.
Qed.

Lemma pub_cancel_run cutoff w r w' :
  pub_CancelStalePending cutoff w = (r, w') →
  ∃ r1 w1, CancelStalePending inner cutoff w = (r1, w1) ∧ r = wrap_err "publishing store: cancel stale" r1 ∧
    same_orders w1 w' ∧ emitted (told_cancel r1) w1 w'.
Proof.
  intros H. unfold pub_CancelStalePending, mbind, io_bind, mret, io_ret in H.
  destruct (CancelStalePending inner cutoff w) as [r1 w1] eqn:E. exists r1, w1. split; [done|].
  destruct r1 as [ids|e]; simplify_eq; [|by split_and!; [..|apply emitted_nil]].
  destruct (emit_canceled ids w1) as [u w3] eqn:E3. simplify_eq.
  split; [done|]. by eapply emit_canceled_spec.
Qed.

#[export] Instance publishing_store_contract : store_for answers grain PublishingStore abs wf room.
Proof.
  split; simpl.
  - apply (store_grain (store_for := Hinner)).
  - intros w. apply (store_keyed (S := inner)).
  - intros c items w r w' Hwf Hroom Hi H.
    destruct (pub_create_run c items w r w' H) as (r1 & w1 & E & -> & Hs & _).
    destruct (store_create c items w r1 w1 Hwf Hroom Hi E) as [Hwf1 Hc].
    destruct (same_orders_wf abs wf room w1 w' Hs Hwf1) as [? ->]. split; [done|]. by destruct r1.
  - intros id w r w'. apply store_get.
  - intros w r w'. apply store_list.
  - intros id w r w' Hwf H. destruct (pub_confirm_run id w r w' H) as (r1 & w1 & E & -> & Hs & _).
    destruct (store_confirm id w r1 w1 Hwf E) as [Hwf1 Hc].
    destruct (same_orders_wf abs wf room w1 w' Hs Hwf1) as [? ->]. split; [done|]. by destruct r1.
  - intros cutoff w r w' Hwf H. destruct (pub_cancel_run cutoff w r w' H) as (r1 & w1 & E & -> & Hs & _).
    destruct (store_cancel cutoff w r1 w1 Hwf E) as [Hwf1 Hc].
    destruct (same_orders_wf abs wf room w1 w' Hs Hwf1) as [? ->]. split; [done|]. by destruct r1.
Qed.

Context `{Hsilent : !silent}.

(** The events of one call: what the call reports, and [created] for the order
    it made. *)
Definition is_outcome (x : string * string * string * string) : Prop := x.1.1.1 ≠ EventCreated.

#[export] Instance is_outcome_dec x : Decision (is_outcome x).
Proof. unfold is_outcome. apply _. Defined.

Definition truthful (w : W) (x : string * string * string * string) : Prop :=
  let '(ty, id, c, st) := x in
  ∃ o, abs w !! id = Some o ∧
    (ty = EventCreated → CustomerID o = c ∧ st = StatusPending) ∧ (ty ≠ EventCreated → status o = st ∧ st ≠ StatusPending).

Lemma filter_outcomes (l : list (string * Status)) : filter is_outcome (told <$> l) = told <$> l.
Proof.
  induction l as [|x l IH]; [done|]. rewrite fmap_cons, filter_cons_True, IH; [done|].
  unfold is_outcome, told. simpl. by case_decide.
Qed.

Lemma truthful_progress w w' x : progress (abs w) (abs w') → truthful w x → truthful w' x.
Proof.
  destruct x as [[[ty id] c] st]. intros Hp (o & Ho & H1 & H2). destruct (Hp id o Ho) as (o' & Ho' & He).
  exists o'. destruct He as (_ & Hc & _ & _ & Hst). split; [done|]. split.
  - intros Hty. destruct (H1 Hty) as [<- ->]. by split.
  - intros Hty. destruct (H2 Hty) as [<- Hn]. split; [|done]. by destruct Hst.
Qed.

Lemma told_truthful (rep : list (string * Status)) w :
  (∀ id st, (id, st) ∈ rep → (∃ o, abs w !! id = Some o ∧ status o = st) ∧ st ≠ StatusPending) →
  ∀ x, x ∈ told <$> rep → truthful w x.
Proof.
  intros H x ([id st] & -> & Hin)%list_elem_of_fmap. destruct (H id st Hin) as [(o & Ho & Hst) Hn].
  exists o. split; [done|]. split; [|done]. simpl. by case_decide.
Qed.

Lemma perform_emitted cl w rep w' :
  wf w → sound_call room cl w → perform PublishingStore cl w = (rep, w') →
  ∃ l, emitted l w w' ∧ filter is_outcome l = told <$> rep ∧ ∀ x, x ∈ l → truthful w' x.
Proof.
  intros Hwf Hcl H. destruct (perform_spec PublishingStore abs wf room cl w rep w' Hwf Hcl H) as (_ & _ & _ & Hrep).
  assert (∀ x, x ∈ told <$> rep → truthful w' x) as Htold by (apply told_truthful; naive_solver).
  assert (attempts w' = attempts w → rep = [] →
    ∃ l, emitted l w w' ∧ filter is_outcome l = told <$> rep ∧ ∀ x, x ∈ l → truthful w' x) as Hnone.
  { intros Ha ->. exists []. split; [by apply emitted_nil|]. split; [done|]. by intros x ?%not_elem_of_nil. }
  destruct cl as [c items|id| |id|cutoff]; simpl in H; unfold mbind, io_bind, mret, io_ret in H.
  - destruct (pub_Create c items w) as [r w1] eqn:E. simplify_eq.
    destruct (pub_create_run c items w r w' E) as (r1 & w1 & E1 & _ & Hs & He).
    destruct Hcl as [Hi Hroom]. destruct (store_create c items w r1 w1 Hwf Hroom Hi E1) as [Hwf1 Hc].
    apply silent_create in E1. exists (told_create r1). split.
    { apply (emitted_app [] _ w w1); [by apply emitted_nil|done]. }
    destruct r1 as [o|e]; simpl; [|split; [done|]; by intros x ?%not_elem_of_nil].
    destruct Hc as (_ & Hst & Hc & _ & Hm). split.
    { rewrite filter_cons_False; [done|]. unfold is_outcome. simpl. auto. }
    intros x ->%list_elem_of_singleton. exists o. destruct Hs as [-> _]. rewrite Hm, lookup_insert_eq.
    by repeat split.
  - destruct (Get inner id w) as [r w1] eqn:E. simplify_eq. apply silent_get in E. auto.
  - destruct (List_ inner w) as [r w1] eqn:E. simplify_eq. apply silent_list in E. auto.
  - destruct (pub_ConfirmPending id w) as [r w1] eqn:E. simplify_eq.
    destruct (pub_confirm_run id w r w' E) as (r1 & w1 & E1 & -> & Hs & He). apply silent_confirm in E1.
    exists (told_confirm id r1). split; [by apply (emitted_app [] _ w w1); [apply emitted_nil|]|].
    by destruct r1 as [[]|e].
  - destruct (pub_CancelStalePending cutoff w) as [r w1] eqn:E. simplify_eq.
    destruct (pub_cancel_run cutoff w r w' E) as (r1 & w1 & E1 & -> & Hs & He). apply silent_cancel in E1.
    exists (told_cancel r1). split; [by apply (emitted_app [] _ w w1); [apply emitted_nil|]|].
    destruct r1 as [ids|e]; simpl in *; [|done]. rewrite <-list_fmap_compose in Htold.
    split; [|done]. rewrite <-list_fmap_compose. change (λ id, told (id, StatusCanceled)) with
      (told ∘ (λ id, (id, StatusCanceled))). rewrite list_fmap_compose. apply filter_outcomes.
Qed.

Lemma events_tell_outcomes_aux :
  store_for answers grain PublishingStore abs wf room ∧
  ∀ w log w', wf w → history PublishingStore room w log w' →
    ∃ l, emitted l w w' ∧ filter is_outcome l = told <$> log ∧ NoDup log.*1 ∧
      ∀ x, x ∈ l → truthful w' x.
Proof.
  split; [apply publishing_store_contract|]. intros w log w' Hwf H.
  induction H as [|log w1 cl rep w2 Hh IH Hcl Hp].
  { exists []. split; [by apply emitted_nil|]. split_and!; [done|constructor|by intros x ?%not_elem_of_nil]. }
  destruct IH as (l & Hl & Hlog & _ & Htrue).
  destruct (history_spec PublishingStore abs wf room w _ w2 Hwf (history_call _ _ _ _ _ _ _ _ Hh Hcl Hp))
    as (_ & _ & Hnd & _).
  destruct (history_spec PublishingStore abs wf room w _ w1 Hwf Hh) as (Hwf1 & _).
  destruct (perform_spec PublishingStore abs wf room cl w1 rep w2 Hwf1 Hcl Hp) as (_ & Hpr & _).
  destruct (perform_emitted cl w1 rep w2 Hwf1 Hcl Hp) as (l' & Hl' & Hrep & Htrue').
  exists (l ++ l'). split; [by eapply emitted_app|]. rewrite filter_app, Hlog, Hrep, fmap_app.
  split_and!; [done|done|]. intros x [Hx|Hx]%elem_of_app; [|auto]. eapply truthful_progress; eauto.
Qed.

End publishing.

(** A call on a store that does not publish hands nothing over. *)
Lemma perform_silent {W} (S : Store W) (attempts : W → list OrderEvent) cl w rep w' :
  silent S attempts → perform S cl w = (rep, w') → attempts w' = attempts w.
Proof.
  intros HS H. destruct cl; simpl in H; unfold mbind, io_bind, mret, io_ret in H;
    match type of H with context [let '(_, _) := ?m w in _] => destruct (m w) as [r w1] eqn:E end; simplify_eq.
  - by eapply silent_create.
  - by eapply silent_get.
  - by eapply silent_list.
  - by eapply silent_confirm.
  - by eapply silent_cancel.
Qed.

(** ** The Kafka publisher *)
Section kafka.
Context {W : Type} (WriteMessages : Writer → list kmessage → io W (option goerr)).
Context (iterate : gmap string string → list (string * string)).
Context (time_text : Z → string) (time_of_text : string → option Z).

Record KafkaPublisher : Type := mkPublisher { producer : Producer; topic : string }.

Definition event_json (ev : OrderEvent) : json :=
  JObj [("type", JStr (Type_ ev)); ("order_id", JStr (OrderID ev)); ("customer_id", JStr (EvCustomerID ev));
    ("status", JStr (EvStatus ev)); ("at", time_json time_text (At ev))].

Definition event_bytes (ev : OrderEvent) : string := print (event_json ev).

Definition kafka_Publish (dur : Z) (k : KafkaPublisher) (ev : OrderEvent) (m : metrics) :
    io W (option goerr * metrics) :=
  r ← Produce iterate WriteMessages dur (producer k) (topic k) (Some (OrderID ev))
        (Some (event_bytes ev)) ∅ m;
  let '(err, m') := r in
  mret (match err with
        | Some e => (Some (Wrap ("kafka publish " +:+ Type_ ev) e), m')
        | None => (None, m')
        end).

(** Decoding on the consumer's side, by [logOrderEvent]. *)
Definition set_event (k : string) (v : json) (ev : OrderEvent) : option OrderEvent :=
  if same_key k "type" then
    s ← decode_str v (Type_ ev); Some (mkEvent s (OrderID ev) (EvCustomerID ev) (EvStatus ev) (At ev))
  else if same_key k "order_id" then
    s ← decode_str v (OrderID ev); Some (mkEvent (Type_ ev) s (EvCustomerID ev) (EvStatus ev) (At ev))
  else if same_key k "customer_id" then
    s ← decode_str v (EvCustomerID ev); Some (mkEvent (Type_ ev) (OrderID ev) s (EvStatus ev) (At ev))
  else if same_key k "status" then
    s ← decode_str v (EvStatus ev); Some (mkEvent (Type_ ev) (OrderID ev) (EvCustomerID ev) s (At ev))
  else if same_key k "at" then
    t ← decode_time time_of_text v (At ev); Some (mkEvent (Type_ ev) (OrderID ev) (EvCustomerID ev) (EvStatus ev) t)
  else Some ev.

Definition event_of_json : json → option OrderEvent := decode_struct set_event (mkEvent "" "" "" "" 0).

Definition logOrderEvent (value : string) : res OrderEvent :=
  match Unmarshal value ≫= event_of_json with
  | Some ev => Ok ev
  | None => Err (Wrap "decode order event" (Text "json"))
  end.

(** What the consumer's side reads of an event: its texts, broken UTF-8 replaced. *)
Definition clean_event (ev : OrderEvent) : OrderEvent :=
  mkEvent (sanitize (Type_ ev)) (sanitize (OrderID ev)) (sanitize (EvCustomerID ev)) (sanitize (EvStatus ev)) (At ev).

Lemma event_bytes_roundtrip ev :
  times_roundtrip time_text time_of_text → logOrderEvent (event_bytes ev) = Ok (clean_event ev).
Proof.
  intros Ht. unfold logOrderEvent, event_bytes. rewrite Unmarshal_print; [|simpl; tauto|apply depth_small; simpl; lia].
  assert (clean (event_json ev) = event_json (clean_event ev)) as ->.
  { unfold event_json, time_json. rewrite clean_obj. cbn [map]. unfold clean_member. cbn [fst snd clean].
    rewrite !(sanitize_id (time_text _)) by apply Ht. reflexivity. }
  assert (event_of_json (event_json (clean_event ev)) = Some (clean_event ev)) as H; [|cbn [mbind option_bind]; by rewrite H].
  destruct (clean_event ev) as [ty id c st t].
  do 4 (eapply decode_members_cons; [reflexivity|]).
  eapply decode_members_cons; [unfold set_event; simpl; by rewrite (proj2 (Ht _))|]. reflexivity.
Qed.

(** One event is one message, keyed by its order: the key decides the partition,
    and so the events of an order stay in order. *)
Lemma kafka_Publish_keyed dur k ev m w wr :
  writer (producer k) = Some wr →
  (kafka_Publish dur k ev m w).2 =
  (WriteMessages wr [mkK (topic k) (toKafkaKey (Some (OrderID ev))) (Some (event_bytes ev)) None] w).2.
Proof.
  intros Hw. unfold kafka_Publish, Produce, mbind, io_bind. rewrite Hw.
  unfold toKafkaHeaders. rewrite decide_True by done.
  destruct (WriteMessages wr _ w) as [[e|] w']; done.
Qed.
End kafka.

(** A history over the in-memory store with a publisher that always fails: both
    events are handed to it all the same. *)
Definition ex_world : Type := InMemoryStore * list OrderEvent.
Definition ex_publish (ev : OrderEvent) : io ex_world (option goerr) := λ '(s, l), (Some (Text "down"), (s, l ++ [ev])).
Definition ex_now : io ex_world Z := λ w, (7, w).
Definition ex_inner : Store ex_world := lift_store (memory_store Z.of_nat map_to_list).

Lemma ex_publisher : publisher ex_publish ex_now (orders ∘ fst) (mem_wf ∘ fst) (mem_room ∘ fst) snd.
Proof.
  split.
  - intros ev [s l] r w' [= <- <-]. by split.
  - intros w t w' [= <- <-]. by split.
Qed.

Lemma ex_silent : silent ex_inner snd.
Proof. split; simpl; intros; by eapply lift_inv. Qed.

Definition ex_pub : Store ex_world := PublishingStore ex_inner ex_publish ex_now.
Definition ex_pub_start : ex_world := (NewInMemoryStore, []).
Definition ex_pub_after (w : ex_world) (cl : call) : ex_world := (perform ex_pub cl w).2.
Definition ex_pub_calls : list call := [CCreate "alice" [mkItem "WIDGET" 2]; CConfirm "ord_1"].
Definition ex_pub_final : ex_world := foldl ex_pub_after ex_pub_start ex_pub_calls.

