(* ===== verification/Caching.v ===== *)
(** * orders/store: the Redis read-through cache

    [CachingStore] wraps any [Store]: [Get] looks in the cache first and fills it
    from the store, the mutations drop what they may have changed, and no
    failure of the cache fails a call.  A cached value is the bytes of the
    order's JSON, so its texts come back as valid UTF-8.  Theorems: whatever
    Redis does, and however concurrent calls interleave, a [Get] answers with an
    order that is there, as it is or as it was before it settled; everything
    else keeps the [Store] contract. *)
From S2P Require Import Prelude Utf8 Json JsonText Orders OrderJson MemoryStore.

Section caching.
Context {W : Type} (inner : Store W) (connected : W → bool).
Context (redis_Get : string → io W (res string))
  (redis_Set : string → string → Z → io W (option goerr)) (redis_Del : list string → io W (option goerr)).
Context (time_text : Z → string) (time_of_text : string → option Z) (ttl : Z).

Definition cacheKey (id : string) : string := "order:" +:+ id.

(** A hit: the value is there and decodes. *)
Definition lookup_cached (id : string) : io W (option Order) :=
  r ← redis_Get (cacheKey id);
  mret (match r with Ok b => order_of_bytes time_of_text b | Err _ => None end).

Definition getFromStore (id : string) : io W (res Order) :=
  r ← Get inner id; mret (wrap_err "caching store: get" r).

Definition fill (id : string) (o : Order) : io W unit :=
  redis_Set (cacheKey id) (order_bytes time_text o) ttl;; mret tt.

Definition cached_Get (id : string) : io W (res Order) :=
  w ← get_world;
  if negb (connected w) then getFromStore id
  else
    hit ← lookup_cached id;
    match hit with
    | Some o => mret (Ok o)
    | None =>
        r ← getFromStore id;
        match r with
        | Err e => mret (Err e)
        | Ok o => fill id o;; mret (Ok o)
        end
    end.

Definition invalidate (ids : list string) : io W unit :=
  w ← get_world;
  if negb (connected w) || bool_decide (ids = []) then mret tt
  else redis_Del (cacheKey <$> ids);; mret tt.

Definition cached_ConfirmPending (id : string) : io W (res bool) :=
  r ← ConfirmPending inner id;
  match r with
  | Err e => mret (Err (Wrap "caching store: confirm" e))
  | Ok confirmed => invalidate [id];; mret (Ok confirmed)
  end.

Definition cached_CancelStalePending (cutoff : Z) : io W (res (list string)) :=
  r ← CancelStalePending inner cutoff;
  match r with
  | Err e => mret (Err (Wrap "caching store: cancel stale" e))
  | Ok ids => invalidate ids;; mret (Ok ids)
  end.

(** [Create] and [List] are the inner store's. *)
Definition CachingStore : Store W :=
  mkStore (Create inner) cached_Get (List_ inner) cached_ConfirmPending cached_CancelStalePending.

(** ** Redis

    [cache w] is what it holds; an entry may vanish at any moment (its TTL, an
    eviction), a command that fails may or may not have taken effect, and
    nothing here touches the orders. *)
Context (abs : W → gmap string Order) (wf room : W → Prop) (cache : W → gmap string string).

#[local] Notation same_orders := (Orders.same_orders abs wf room).

Definition shrinks (w w' : W) : Prop := ∀ k x, cache w' !! k = Some x → cache w !! k = Some x.

Class redis_cache : Prop := {
  redis_get k w r w' : redis_Get k w = (r, w') →
    same_orders w w' ∧ shrinks w w' ∧ match r with Ok v => cache w !! k = Some v | Err _ => True end;
  redis_set k v d w r w' : redis_Set k v d w = (r, w') →
    same_orders w w' ∧
    ∀ k' x, cache w' !! k' = Some x → cache w !! k' = Some x ∨ (k' = k ∧ x = v);
  redis_del ks w r w' : redis_Del ks w = (r, w') →
    same_orders w w' ∧ shrinks w w' ∧ (r = None → ∀ k, k ∈ ks → cache w' !! k = None);
}.

(** The inner store does not write to the cache. *)
Class uncached : Prop := {
  uncached_create c items w r w' : Create inner c items w = (r, w') → shrinks w w';
  uncached_get id w r w' : Get inner id w = (r, w') → shrinks w w';
  uncached_list w r w' : List_ inner w = (r, w') → shrinks w w';
  uncached_confirm id w r w' : ConfirmPending inner id w = (r, w') → shrinks w w';
  uncached_cancel cutoff w r w' : CancelStalePending inner cutoff w = (r, w') → shrinks w w';
}.

#[export] Instance shrinks_preorder : PreOrder shrinks.
Proof. split; [by intros w k x|]. intros w1 w2 w3 H1 H2 k x H. auto. Qed.

Context {grain : Z → Z} `{Hstore : !store_for current grain inner abs wf room} `{Hredis : !redis_cache} `{Huncached : !uncached}.
Hypothesis time_roundtrip : times_roundtrip time_text time_of_text.

(** [o] is what there is to see of the order [o']: the order as it is, or as it
    was before it settled, or what its JSON gives back of one of the two. *)
Definition seen (o o' : Order) : Prop := evolves o o' ∨ ∃ o0, o = clean_order o0 ∧ evolves o0 o'.

(** Every cached order is one to see of the order there is. *)
Definition related (w : W) : Prop :=
  ∀ id v o, cache w !! cacheKey id = Some v → order_of_bytes time_of_text v = Some o →
  ∃ o', abs w !! id = Some o' ∧ seen o o'.

Lemma seen_evolves o1 o2 o3 : seen o1 o2 → evolves o2 o3 → seen o1 o3.
Proof. intros [H|(o0 & -> & H)] He; [left; by etrans|right]. exists o0. split; [done|by etrans]. Qed.

(** Of an order whose texts are UTF-8 the JSON changes nothing. *)
Lemma seen_valid o o' : valid_order o' → seen o o' → evolves o o'.
Proof.
  intros Hv [H|(o0 & -> & H)]; [done|]. rewrite clean_order_valid; [done|]. destruct Hv as (H1 & H2 & H3 & H4).
  destruct H as (E1 & E2 & E3 & _ & E4). unfold valid_order. rewrite <-E1, <-E2, <-E3. split_and!; [done..|].
  destruct E4 as [<-|E4]; [done|]. by rewrite E4.
Qed.

Lemma cacheKey_inj id id' : cacheKey id = cacheKey id' → id = id'.
Proof. unfold cacheKey. intros H. by simplify_eq/=. Qed.

Lemma related_same w w' : related w → abs w' = abs w → shrinks w w' → related w'.
Proof. intros H Ho Hs id v o Hc Hd. rewrite Ho. eapply H; [by apply Hs|done]. Qed.

Lemma related_progress w w' : related w → progress (abs w) (abs w') → shrinks w w' → related w'.
Proof.
  intros H Hp Hs id v o Hc Hd. destruct (H id v o (Hs _ _ Hc) Hd) as (o1 & H1 & He).
  destruct (Hp id o1 H1) as (o2 & H2 & He2). exists o2. split; [done|by eapply seen_evolves].
Qed.

(** ** Get *)
Lemma fill_spec id o w u w' :
  (∃ o', abs w !! id = Some o' ∧ evolves o o') → related w → fill id o w = (u, w') →
  same_orders w w' ∧ related w'.
Proof.
  intros Ho HR H. unfold fill, mbind, io_bind, mret, io_ret in H.
  destruct (redis_Set _ _ _ w) as [r w1] eqn:E. simplify_eq. apply redis_set in E as [Hs Hc].
  split; [done|]. intros id' v o1 Hv Hd. destruct Hs as [-> _].
  destruct (Hc _ _ Hv) as [Hold|[Hk Hx]]; [by eapply HR|].
  apply cacheKey_inj in Hk as ->. subst v.
  apply order_bytes_inv in Hd as ->; [|done]. destruct Ho as (o' & Ho & He). exists o'. split; [done|].
  right. by exists o.
Qed.

Lemma lookup_cached_spec id w hit w' :
  related w → lookup_cached id w = (hit, w') →
  same_orders w w' ∧ related w' ∧ ∀ o, hit = Some o → ∃ o', abs w !! id = Some o' ∧ seen o o'.
Proof.
  intros HR H. unfold lookup_cached, mbind, io_bind, mret, io_ret in H.
  destruct (redis_Get _ w) as [r w1] eqn:E. simplify_eq. apply redis_get in E as (Hs & Hc & Hv).
  split; [done|]. split; [eapply related_same; [done|apply Hs|done]|].
  intros o Ho. destruct r as [v|e]; [|done]. by eapply HR.
Qed.

Lemma getFromStore_spec id w r w' :
  wf w → related w → getFromStore id w = (r, w') →
  wf w' ∧ related w' ∧ abs w' = abs w ∧ current id (abs w) r.
Proof.
  intros Hwf HR H. unfold getFromStore, mbind, io_bind, mret, io_ret in H.
  destruct (Get inner id w) as [r1 w1] eqn:E. simplify_eq.
  destruct (store_get id w r1 w' Hwf E) as [Hwf' [Ha Hr]]. apply uncached_get in E.
  split; [done|]. split; [by eapply related_same|]. split; [done|]. by destruct r1.
Qed.

(** What [Get] may answer through the cache. *)
Definition get_related (id : string) (m : gmap string Order) (r : res Order) : Prop :=
  match r with
  | Ok o => ∃ o', m !! id = Some o' ∧ seen o o'
  | Err e => not_found e = true → m !! id = None
  end.

Lemma current_seen id m r : current id m r → get_related id m r.
Proof. destruct r as [o|e]; [|done]. intros H. exists o. split; [done|by left]. Qed.

Lemma cached_Get_spec id w r w' :
  wf w → related w → cached_Get id w = (r, w') →
  wf w' ∧ abs w' = abs w ∧ related w' ∧ get_related id (abs w) r.
Proof.
  intros Hwf HR H. unfold cached_Get, mbind, io_bind, mret, io_ret, get_world in H.
  destruct (negb (connected w)).
  { destruct (getFromStore_spec id w r w' Hwf HR H) as (? & ? & ? & Hr). split_and!; [done..|by apply current_seen]. }
  destruct (lookup_cached id w) as [hit w1] eqn:E1.
  destruct (lookup_cached_spec id w hit w1 HR E1) as (Hs1 & HR1 & Hhit).
  destruct (same_orders_wf abs wf room w w1 Hs1 Hwf) as [Hwf1 Ha1].
  destruct hit as [o|]; [simplify_eq; split_and!; [done..|by apply Hhit]|].
  destruct (getFromStore id w1) as [r1 w2] eqn:E2.
  destruct (getFromStore_spec id w1 r1 w2 Hwf1 HR1 E2) as (Hwf2 & HR2 & Ha2 & Hr).
  rewrite Ha1 in Hr, Ha2. destruct r1 as [o|e]; [|by simplify_eq].
  assert (∃ o', abs w !! id = Some o' ∧ evolves o o') as Ho by (by exists o). apply current_seen in Hr.
  destruct (fill id o w2) as [u w3] eqn:E3. simplify_eq.
  destruct (fill_spec id o w2 u w') as [Hs3 HR3]; [by rewrite Ha2|done..|].
  destruct (same_orders_wf abs wf room w2 w' Hs3 Hwf2) as [Hwf3 Ha3].
  split_and!; [done|congruence|done|done].
Qed.

(** ** The mutations *)
Lemma invalidate_spec ids w u w' :
  invalidate ids w = (u, w') → same_orders w w' ∧ shrinks w w'.
Proof.
  unfold invalidate, mbind, io_bind, mret, io_ret, get_world. intros H.
  destruct (_ || _); [by simplify_eq|]. destruct (redis_Del _ w) as [r w1] eqn:E. simplify_eq.
  apply redis_del in E as (? & ? & _). done.
Qed.

Lemma cached_Confirm_run id w r w' :
  cached_ConfirmPending id w = (r, w') →
  ∃ r1 w1, ConfirmPending inner id w = (r1, w1) ∧ r = wrap_err "caching store: confirm" r1 ∧
    match r1 with Ok _ => ∃ u, invalidate [id] w1 = (u, w') | Err _ => w' = w1 end.
Proof.
  intros H. unfold cached_ConfirmPending, mbind, io_bind, mret, io_ret in H.
  destruct (ConfirmPending inner id w) as [r1 w1] eqn:E. exists r1, w1. split; [done|].
  destruct r1 as [b|e]; [|by simplify_eq]. destruct (invalidate [id] w1) as [u w2] eqn:E2. simplify_eq.
  split; [done|by exists u].
Qed.

Lemma cached_Cancel_run cutoff w r w' :
  cached_CancelStalePending cutoff w = (r, w') →
  ∃ r1 w1, CancelStalePending inner cutoff w = (r1, w1) ∧ r = wrap_err "caching store: cancel stale" r1 ∧
    match r1 with Ok ids => ∃ u, invalidate ids w1 = (u, w') | Err _ => w' = w1 end.
Proof.
  intros H. unfold cached_CancelStalePending, mbind, io_bind, mret, io_ret in H.
  destruct (CancelStalePending inner cutoff w) as [r1 w1] eqn:E. exists r1, w1. split; [done|].
  destruct r1 as [ids|e]; [|by simplify_eq]. destruct (invalidate ids w1) as [u w2] eqn:E2. simplify_eq.
  split; [done|by exists u].
Qed.

Lemma invalidated {A} (r1 : res A) (f : A → list string) w1 w' :
  match r1 with Ok a => ∃ u, invalidate (f a) w1 = (u, w') | Err _ => w' = w1 end →
  same_orders w1 w' ∧ shrinks w1 w'.
Proof. destruct r1 as [a|e]; [intros [u H]; by eapply invalidate_spec|by intros ->]. Qed.

(** Whatever the cache does, a mutation keeps its contract. *)
Lemma cached_Confirm_spec id w r w' :
  wf w → cached_ConfirmPending id w = (r, w') →
  wf w' ∧ confirm_spec id (abs w) r (abs w') ∧ shrinks w w'.
Proof.
  intros Hwf H. destruct (cached_Confirm_run id w r w' H) as (r1 & w1 & E & -> & Hi).
  destruct (store_confirm id w r1 w1 Hwf E) as [Hwf1 Hc]. apply uncached_confirm in E.
  apply (invalidated r1 (λ _, [id])) in Hi as [Hs Hk].
  destruct (same_orders_wf abs wf room w1 w' Hs Hwf1) as [? ->]. split; [done|]. split; [by destruct r1|by etrans].
Qed.

Lemma cached_Cancel_spec cutoff w r w' :
  wf w → cached_CancelStalePending cutoff w = (r, w') →
  wf w' ∧ cancel_spec (grain cutoff) (abs w) r (abs w') ∧ shrinks w w'.
Proof.
  intros Hwf H. destruct (cached_Cancel_run cutoff w r w' H) as (r1 & w1 & E & -> & Hi).
  destruct (store_cancel cutoff w r1 w1 Hwf E) as [Hwf1 Hc]. apply uncached_cancel in E.
  apply (invalidated r1 id) in Hi as [Hs Hk].
  destruct (same_orders_wf abs wf room w1 w' Hs Hwf1) as [? ->]. split; [done|]. split; [by destruct r1|by etrans].
Qed.

(** ** Any interleaving

    The calls are not atomic: between a [Get]'s read and the fill that follows,
    between a mutation and its invalidation, the other callers' steps run.
    [R] holds the orders read and not yet filled in. *)
Definition reads : Type := list (string * Order).

Inductive cstep : W * reads → W * reads → Prop :=
  | step_create c items w r w' R :
      room w → sent_items items → Create inner c items w = (r, w') → cstep (w, R) (w', R)
  | step_list w r w' R : List_ inner w = (r, w') → cstep (w, R) (w', R)
  | step_confirm id w r w' R : ConfirmPending inner id w = (r, w') → cstep (w, R) (w', R)
  | step_cancel cutoff w r w' R : CancelStalePending inner cutoff w = (r, w') → cstep (w, R) (w', R)
  | step_invalidate ids w u w' R : invalidate ids w = (u, w') → cstep (w, R) (w', R)
  | step_lookup id w hit w' R : lookup_cached id w = (hit, w') → cstep (w, R) (w', R)
  | step_read id w r w' R :
      getFromStore id w = (r, w') → cstep (w, R) (w', match r with Ok o => (id, o) :: R | Err _ => R end)
  | step_fill id o w u w' R : (id, o) ∈ R → fill id o w = (u, w') → cstep (w, R) (w', R).

(** An order as it is now, or as it was before it settled. *)
Definition was (w : W) (p : string * Order) : Prop := ∃ o', abs w !! p.1 = Some o' ∧ evolves p.2 o'.

Definition cache_inv (s : W * reads) : Prop :=
  wf s.1 ∧ related s.1 ∧ Forall (was s.1) s.2.

Lemma was_progress w w' p : progress (abs w) (abs w') → was w p → was w' p.
Proof. intros Hp (o1 & H1 & He). destruct (Hp _ _ H1) as (o2 & H2 & He2). exists o2. split; [done|by etrans]. Qed.

Lemma inv_progress w w' R :
  wf w' → progress (abs w) (abs w') → shrinks w w' → cache_inv (w, R) → cache_inv (w', R) ∧ progress (abs w) (abs w').
Proof.
  intros Hwf Hp Hs (_ & Hr & HR). split; [|done]. split_and!; simpl in *; [done|by eapply related_progress|].
  eapply Forall_impl; [exact HR|]. intros p. by apply was_progress.
Qed.

Lemma cstep_inv s s' : cstep s s' → cache_inv s → cache_inv s' ∧ progress (abs s.1) (abs s'.1).
Proof.
  intros H Hinv. assert (wf s.1) as Hwf by apply Hinv.
  destruct H as [c items w r w' R Hroom Hi E|w r w' R E|id w r w' R E|cutoff w r w' R E
    |ids w u w' R E|id w hit w' R E|id w r w' R E|id o w u w' R Hin E]; simpl in *.
  - destruct (store_create c items w r w' Hwf Hroom Hi E) as [? Hc].
    apply inv_progress; [done|by eapply create_progress|by eapply uncached_create|done].
  - destruct (store_list w r w' Hwf E) as [? [Ha _]].
    apply inv_progress; [done|by rewrite Ha|by eapply uncached_list|done].
  - destruct (store_confirm id w r w' Hwf E) as [? Hc].
    apply inv_progress; [done|by eapply confirm_progress|by eapply uncached_confirm|done].
  - destruct (store_cancel cutoff w r w' Hwf E) as [? Hc].
    apply inv_progress; [done|by eapply cancel_progress|by eapply uncached_cancel|done].
  - apply invalidate_spec in E as [Hs Hk]. destruct (same_orders_wf abs wf room w w' Hs Hwf) as [? Ha].
    apply inv_progress; [done|by rewrite Ha|done|done].
  - destruct Hinv as (_ & Hr & HR). destruct (lookup_cached_spec id w hit w' Hr E) as (Hs & Hr' & _).
    destruct (same_orders_wf abs wf room w w' Hs Hwf) as [? Ha].
    split; [|by rewrite Ha]. split_and!; simpl; [done..|]. by unfold was in *; rewrite Ha.
  - destruct Hinv as (_ & Hr & HR). destruct (getFromStore_spec id w r w' Hwf Hr E) as (? & Hr' & Ha & Hg).
    split; [|by rewrite Ha]. simpl. assert (Forall (was w') R) as HR' by (by unfold was in *; rewrite Ha).
    split_and!; simpl; [done..|]. destruct r as [o|e]; [|done]. constructor; [|done].
    exists o. rewrite Ha. by split.
  - destruct Hinv as (_ & Hr & HR). pose proof (proj1 (Forall_forall _ _) HR _ Hin) as Ho.
    destruct (fill_spec id o w u w' Ho Hr E) as [Hs Hr'].
    destruct (same_orders_wf abs wf room w w' Hs Hwf) as [? Ha].
    split; [|by rewrite Ha]. split_and!; simpl; [done..|]. by unfold was in *; rewrite Ha.
Qed.

(** C14: a cached read is never made up.  Whatever Redis does (lose entries, fail,
    apply a command and lose the reply) and however the steps of concurrent
    calls interleave: an order the cache answers with, or a reader is about to
    put there, is an order that is in the store, with its customer, items and
    creation time, in the state it has now or was in while PENDING; so an order
    read CONFIRMED or CANCELED is so for good, and a [Get] that reports "not
    found" is right.  The decorator changes no order. *)
Theorem cache_never_invents w0 w R :
  wf w0 → related w0 → rtc cstep (w0, []) (w, R) →
  wf w ∧ progress (abs w0) (abs w) ∧ Forall (was w) R ∧
  ∀ id r w', cached_Get id w = (r, w') → abs w' = abs w ∧ get_related id (abs w) r.
Proof.
  intros Hwf Hr Hrtc.
  assert (cache_inv (w, R) ∧ progress (abs w0) (abs w)) as [(Hwf' & Hr' & HR) Hp].
  { assert (cache_inv (w0, [])) as H0 by (split_and!; [done..|constructor]).
    remember (w0, []) as s eqn:Es. assert (abs w0 = abs s.1) as -> by (by rewrite Es). clear Es Hwf Hr.
    remember (w, R) as s' eqn:Es'. assert (abs w = abs s'.1) as -> by (by rewrite Es'). clear Es'.
    induction Hrtc as [s|s s1 s2 Hs _ IH]; [done|].
    destruct (cstep_inv s s1 Hs H0) as [H1 Hp1]. destruct (IH H1) as [H2 Hp2]. split; [done|by etrans]. }
  split_and!; [done..|]. intros id r w' H.
  destruct (cached_Get_spec id w r w' Hwf' Hr' H) as (_ & ? & _ & ?). done.
Qed.

(** *** The contract that is kept whatever Redis does: a [Get] may answer an order as
    it was before it settled, everything else is as without a cache. *)
Lemma caching_best_effort :
  store_for (get_related) grain CachingStore abs (λ w, wf w ∧ related w) room.
Proof.
  split; simpl.
  - apply (store_grain (store_for := Hstore)).
  - intros w [Hwf _]. by apply (store_keyed (S := inner)).
  - intros c items w r w' [Hwf Hr] Hroom Hi E. destruct (store_create c items w r w' Hwf Hroom Hi E) as [? Hc].
    apply uncached_create in E. split; [split; [done|]|done].
    eapply related_progress; [done|by eapply create_progress|done].
  - intros id w r w' [Hwf Hr] H. by destruct (cached_Get_spec id w r w' Hwf Hr H) as (? & ? & ? & ?).
  - intros w r w' [Hwf Hr] E. destruct (store_list w r w' Hwf E) as [? [Ha Hl]]. apply uncached_list in E.
    split; [split; [done|by eapply related_same]|by split].
  - intros id w r w' [Hwf Hr] H. destruct (cached_Confirm_spec id w r w' Hwf H) as (? & Hc & Hs).
    split; [split; [done|]|done]. eapply related_progress; [done|by eapply confirm_progress|done].
  - intros cutoff w r w' [Hwf Hr] H. destruct (cached_Cancel_spec cutoff w r w' Hwf H) as (? & Hc & Hs).
    split; [split; [done|]|done]. eapply related_progress; [done|by eapply cancel_progress|done].
Qed.

End caching.

(** ** A Redis in memory, over the in-memory store *)
Definition cex_world : Type := InMemoryStore * gmap string string.
Definition cex_inner : Store cex_world := lift_store (memory_store Z.of_nat map_to_list).
Definition cex_get (k : string) : io cex_world (res string) := λ w,
  (match w.2 !! k with Some v => Ok v | None => Err (Sentinel "redis.Nil" "redis: nil") end, w).
Definition cex_set (k v : string) (d : Z) : io cex_world (option goerr) := λ w,
  (None, (w.1, <[k := v]> w.2)).
Definition cex_del (ks : list string) : io cex_world (option goerr) := λ w,
  (None, (w.1, foldr delete w.2 ks)).
Definition cex_time (t : Z) : string := pretty t.
Definition cex_of_time (s : string) : option Z :=
  match parse_number s with Some (JNum t, EmptyString) => Some t | _ => None end.

Lemma cex_time_roundtrip : times_roundtrip cex_time cex_of_time.
Proof. intros t. split; [apply valid_pretty|]. unfold cex_of_time, cex_time. by rewrite <-(append_nil (pretty t)), parse_number_pretty. Qed.

Lemma cex_contract : store cex_inner (orders ∘ fst) (mem_wf ∘ fst) (mem_room ∘ fst).
Proof. apply lift_store_contract, memory_store_contract. intros m. reflexivity. Qed.

Lemma foldr_delete_lookup {A} (m : gmap string A) ks k :
  foldr delete m ks !! k = if decide (k ∈ ks) then None else m !! k.
Proof.
  induction ks as [|k' ks IH]; simpl; [done|]. destruct (decide (k = k')) as [->|Hne].
  - rewrite lookup_delete_eq, decide_True by (by left). done.
  - rewrite lookup_delete_ne, IH by done. destruct (decide (k ∈ ks)), (decide (k ∈ k' :: ks)); set_solver.
Qed.

Lemma cex_redis : redis_cache cex_get cex_set cex_del (orders ∘ fst) (mem_wf ∘ fst) (mem_room ∘ fst) snd.
Proof.
  split.
  - intros k w r w' [= <- <-]. split; [done|]. split; [done|]. by destruct (w.2 !! k).
  - intros k v d w r w' [= <- <-]. split; [done|]. simpl.
    intros k' x [[<- <-]|[? ?]]%lookup_insert_Some; [by right|by left].
  - intros ks w r w' [= <- <-]. split; [done|]. split.
    + intros k x. simpl. rewrite foldr_delete_lookup. by case_decide.
    + intros _ k Hk. simpl. by rewrite foldr_delete_lookup, decide_True.
Qed.

Lemma cex_uncached : uncached cex_inner snd.
Proof. split; simpl; intros; match goal with H : lift _ _ = _ |- _ => apply lift_inv in H as [_ H] end; intros k x; by rewrite H. Qed.

Definition cex_connected (w : cex_world) : bool := true.
Definition cex_store : Store cex_world :=
  CachingStore cex_inner cex_connected cex_get cex_set cex_del cex_time cex_of_time 30.

(** A reader reads the new order PENDING, the order is confirmed and
    invalidated, the reader fills the cache: from then on a [Get] answers
    PENDING for an order that is CONFIRMED, until the entry expires. *)
Definition race_created : cex_world := (Create cex_inner "alice" [mkItem "WIDGET" 2] (NewInMemoryStore, ∅)).2.
Definition race_read : res Order := (getFromStore cex_inner "ord_1" race_created).1.
Definition race_confirmed : cex_world := (ConfirmPending cex_inner "ord_1" race_created).2.
Definition race_order : Order := mkOrder "ord_1" "alice" [mkItem "WIDGET" 2] StatusPending 0 0.
Definition race_end : cex_world := (fill cex_set cex_time 30 "ord_1" race_order race_confirmed).2.

Lemma stale_read :
  race_read = Ok race_order ∧ status <$> orders race_end.1 !! "ord_1" = Some StatusConfirmed ∧
  (Get cex_store "ord_1" race_end).1 = Ok race_order.
Proof. split_and!; vm_compute; reflexivity. Qed.

(** The in-memory store numbers its orders anew in every process, and Redis
    outlives the process: started again within the TTL, the service answers
    alice's order for the one bob has just made. *)
Lemma restart_reads_stranger :
  let w := (Create cex_inner "bob" [mkItem "GADGET" 1] (NewInMemoryStore, race_end.2)).2 in
  CustomerID <$> orders w.1 !! "ord_1" = Some "bob" ∧
  match (Get cex_store "ord_1" w).1 with Ok o => CustomerID o = "alice" | Err _ => False end.
Proof. split; vm_compute; reflexivity. Qed.

Lemma cache_never_invents_witness :
  let w0 : cex_world := (NewInMemoryStore, ∅) in
  mem_wf race_end.1 ∧ progress (orders w0.1) (orders race_end.1) ∧
  Forall (was (orders ∘ fst) race_end) [("ord_1", race_order)] ∧
  ∀ id r w', Get cex_store id race_end = (r, w') →
    orders w'.1 = orders race_end.1 ∧ get_related id (orders race_end.1) r.
Proof.
  apply (cache_never_invents cex_inner cex_connected cex_get cex_set cex_del cex_time cex_of_time 30
    (orders ∘ fst) (mem_wf ∘ fst) (mem_room ∘ fst) snd (Hstore := cex_contract) (Hredis := cex_redis)
    (Huncached := cex_uncached) cex_time_roundtrip); [exact new_mem_wf|done|].
  eapply rtc_l; [eapply step_create with (c := "alice") (items := [mkItem "WIDGET" 2]); [| |vm_compute; reflexivity]; [done|by repeat constructor]|].
  eapply rtc_l; [eapply step_read with (id := "ord_1"); vm_compute; reflexivity|].
  eapply rtc_l; [eapply step_confirm with (id := "ord_1"); vm_compute; reflexivity|].
  apply rtc_once. eapply step_fill with (id := "ord_1") (o := race_order); [by left|vm_compute; reflexivity].
Defined.
