(* ===== verification/Processing.v ===== *)
(** * orders: the processor and the cleanup job

    The two background jobs that settle orders: [process], a worker task that
    confirms one order, and [run], a sweep that cancels the stale ones.  [wait]
    is the select between the processing delay and the context, [ctx_err] the
    context's [Err], [Submit] the worker pool's (its guarantees are in
    WorkerPool), [ready] the gate of the sweeps.  Theorems: on any store that
    keeps the contract, whatever the schedule of tasks and sweeps, an order has
    one reported outcome; the sweep cancels the stale orders, all of them, and
    no younger one; the readiness probe passes once a sweep succeeded, and not
    before. *)
From S2P Require Import Prelude Orders WorkerPool Periodic MemoryStore.

Section processor.
Context {W : Type} (S : Store W).
Context (wait : Z → io W (option goerr)) (ctx_err : io W (option goerr)).

(** What [process] logs. *)
Inductive processed : Type :=
  | Interrupted
  | ProcessFailed (e : goerr)
  | NoLongerPending
  | Confirmed_.

Record OrderProcessor : Type := mkProcessor { pool : option Pool; processDelay : Z }.

Definition NewOrderProcessor (poolSize delay : Z) : OrderProcessor :=
  mkProcessor (WorkerPool.New poolSize [WithDrainOnStop]) delay.

Definition Enqueue (Submit : string → io W (option goerr)) (id : string) : io W (option goerr) :=
  err ← Submit id;
  mret (match err with Some e => Some (Wrap ("enqueue order " +:+ id) e) | None => None end).

Definition process (p : OrderProcessor) (id : string) : io W processed :=
  r ← wait (processDelay p);
  match r with
  | Some _ => mret Interrupted
  | None =>
      r ← ConfirmPending S id;
      match r with
      | Err e =>
          c ← ctx_err;
          mret (match c with Some _ => Interrupted | None => ProcessFailed e end)
      | Ok confirmed => mret (if confirmed : bool then Confirmed_ else NoLongerPending)
      end
  end.

(** ** The cleanup job *)
Record CleanupJob : Type := mkJob {
  staleAfter : Z;
  ready : option (io W (option goerr));
  warmedUp : bool;
}.

Definition CleanupOption : Type := CleanupJob → CleanupJob.
Definition WithReadyGate (g : io W (option goerr)) : CleanupOption := λ j,
  mkJob (staleAfter j) (Some g) (warmedUp j).

Definition NewCleanupJob (after : Z) (opts : list CleanupOption) : CleanupJob :=
  foldl (λ j opt, opt j) (mkJob after None false) opts.

Definition Service (interval : Z) : Periodic.Service := Periodic.New interval [WithImmediateStart].

Definition errCleanupNotWarmedUp : goerr :=
  Sentinel "orders.errCleanupNotWarmedUp" "cleanup job has not completed its first sweep yet".

Context (Now : io W Z).

(** The sweep proper, past the gate. *)
Definition sweep_stale (j : CleanupJob) : io W (CleanupJob * option goerr) :=
  t ← Now;
  r ← CancelStalePending S (t - staleAfter j);
  match r with
  | Err e =>
      c ← ctx_err;
      mret (j, match c with Some _ => None | None => Some (Wrap "cancel stale pending orders" e) end)
  | Ok canceled => mret (mkJob (staleAfter j) (ready j) true, None)
  end.

Definition run (j : CleanupJob) : io W (CleanupJob * option goerr) :=
  match ready j with
  | None => sweep_stale j
  | Some gate =>
      err ← gate;
      match err with Some _ => mret (j, None) | None => sweep_stale j end
  end.

Definition Probe (j : CleanupJob) : option goerr :=
  if negb (warmedUp j) then Some errCleanupNotWarmedUp else None.

(** ** On a store that keeps the contract *)
Context (abs : W → gmap string Order) (wf room : W → Prop).
Context {answers : string → gmap string Order → res Order → Prop} {grain : Z → Z} `{HS : !store_for answers grain S abs wf room}.

(** Waiting, asking the context, the clock and the gate change no order. *)
Class idle : Prop := {
  idle_wait d w r w' : wait d w = (r, w') → same_orders abs wf room w w';
  idle_ctx w r w' : ctx_err w = (r, w') → same_orders abs wf room w w';
  idle_now w t w' : Now w = (t, w') → same_orders abs wf room w w';
}.
Definition idle_gate (j : CleanupJob) : Prop :=
  ∀ g w r w', ready j = Some g → g w = (r, w') → same_orders abs wf room w w'.
Context `{Hidle : !idle}.

Definition has_status (P : Status → Prop) (m : gmap string Order) (id : string) : Prop :=
  ∃ o, m !! id = Some o ∧ P (status o).

Lemma process_spec p id w r w' :
  wf w → process p id w = (r, w') →
  wf w' ∧ progress (abs w) (abs w') ∧
  match r with
  | Confirmed_ => settles StatusConfirmed id (abs w) (abs w')
  | NoLongerPending => abs w' = abs w ∧ ∃ o, abs w !! id = Some o ∧ status o ≠ StatusPending
  | _ => abs w' = abs w ∨ settles StatusConfirmed id (abs w) (abs w')
  end.
Proof.
  intros Hwf H. unfold process, mbind, io_bind, mret, io_ret in H.
  destruct (wait _ w) as [r0 w0] eqn:E0. apply idle_wait in E0.
  destruct (same_orders_wf _ _ _ w w0 E0 Hwf) as [Hwf0 Ha0].
  destruct r0 as [e|]; [simplify_eq; rewrite Ha0; split; [done|split; [done|by left]]|].
  destruct (ConfirmPending S id w0) as [r1 w1] eqn:E1.
  destruct (store_confirm id w0 r1 w1 Hwf0 E1) as [Hwf1 Hc]. rewrite Ha0 in Hc.
  pose proof (confirm_progress _ _ _ _ Hc) as Hp. destruct r1 as [[]|e]; [by simplify_eq..|].
  destruct (ctx_err w1) as [c w2] eqn:E2. simplify_eq. apply idle_ctx in E2.
  destruct (same_orders_wf _ _ _ w1 w' E2 Hwf1) as [Hwf2 Ha2]. rewrite Ha2. split; [done|]. split; [done|].
  assert (abs w1 = abs w ∨ settles StatusConfirmed id (abs w) (abs w1)); [|by destruct c].
  simpl in Hc. destruct (not_found e); [by left; apply Hc|done].
Qed.

(** An interrupted wait ends the task. *)
Lemma process_interrupted p id w e w' :
  wait (processDelay p) w = (Some e, w') → process p id w = (Interrupted, w').
Proof. intros H. unfold process, mbind, io_bind, mret, io_ret. by rewrite H. Qed.

(** A task confirms its own order, or none. *)
Lemma process_confirms_own p id w r w' id' :
  wf w → process p id w = (r, w') → has_status (.= StatusConfirmed) (abs w') id' →
  id' = id ∨ has_status (.= StatusConfirmed) (abs w) id'.
Proof.
  intros Hwf H Hs. destruct (process_spec p id w r w' Hwf H) as (_ & _ & Hr).
  assert (abs w' = abs w ∨ settles StatusConfirmed id (abs w) (abs w')) as [Ha|(o & now & _ & _ & Hm)]
    by (destruct r; naive_solver).
  - right. by rewrite <-Ha.
  - destruct (decide (id' = id)) as [|Hne]; [by left|right]. unfold has_status in *. rewrite Hm in Hs.
    by rewrite lookup_insert_ne in Hs.
Qed.

(** What a sweep did at the clock reading [now], [w1] being the world it called the
    store in: the store compares with [cut], the cutoff at its resolution. *)
Definition sweep_effect (now : Z) (w1 : W) (j j' : CleanupJob) (err : option goerr) (m m' : gmap string Order) : Prop :=
  let cutoff := now - staleAfter j in
  let cut := grain cutoff in
  (∀ id o, m !! id = Some o → cutoff ≤ CreatedAt o → m' !! id = Some o) ∧
  match (CancelStalePending S cutoff w1).1 with
  | Ok ids =>
      err = None ∧ Probe j' = None ∧ cancels cut m m' ∧
      (∀ id, id ∈ ids ↔ ∃ o, m !! id = Some o ∧ stale cut o) ∧
      ∀ id o, m' !! id = Some o → status o = StatusPending → cut ≤ CreatedAt o
  | Err e =>
      j' = j ∧ (m' = m ∨ cancels cut m m') ∧
      (err = None ∨ err = Some (Wrap "cancel stale pending orders" e))
  end.

(** The gate lets a run that starts in [w] through, in [w0]; it stops it. *)
Definition passes (j : CleanupJob) (w w0 : W) : Prop :=
  match ready j with None => w0 = w | Some gate => gate w = (None, w0) end.
Definition stopped (j : CleanupJob) (w : W) : Prop :=
  ∃ gate e, ready j = Some gate ∧ (gate w).1 = Some e.

Lemma cancels_young cutoff m m' id o :
  cancels cutoff m m' → m !! id = Some o → cutoff ≤ CreatedAt o → m' !! id = Some o.
Proof.
  intros [t Hc] Ho Hyoung. rewrite Hc, Ho. simpl. rewrite decide_False; [done|]. intros [_ ?]. lia.
Qed.

Lemma cancels_all cutoff m m' id o :
  cancels cutoff m m' → m' !! id = Some o → status o = StatusPending → cutoff ≤ CreatedAt o.
Proof.
  intros [t Hm] Ho Hst. rewrite Hm in Ho. apply fmap_Some in Ho as (o0 & Ho0 & ->).
  destruct (decide (stale _ o0)) as [Hs|Hs]; [done|].
  destruct (Z.le_gt_cases cutoff (CreatedAt o0)); [done|]. destruct Hs. by split.
Qed.

Lemma sweep_stale_effect j w j' err w' :
  wf w → sweep_stale j w = ((j', err), w') →
  wf w' ∧ progress (abs w) (abs w') ∧ staleAfter j' = staleAfter j ∧ (Probe j = None → Probe j' = None) ∧
  ∃ now w1, Now w = (now, w1) ∧ sweep_effect now w1 j j' err (abs w) (abs w').
Proof.
  intros Hwf H. unfold sweep_stale, mbind, io_bind, mret, io_ret in H.
  destruct (Now w) as [t w1] eqn:E0. destruct (same_orders_wf _ _ _ w w1 (idle_now _ _ _ E0) Hwf) as [Hwf1 Ha1].
  destruct (CancelStalePending S _ w1) as [r w2] eqn:E1.
  destruct (store_cancel _ w1 r w2 Hwf1 E1) as [Hwf2 Hc]. rewrite Ha1 in Hc.
  pose proof (cancel_progress _ _ _ _ Hc) as Hp. destruct r as [ids|e].
  - simplify_eq. do 4 (split; [done|]). exists t, w1. split; [done|]. destruct Hc as (Hc & _ & Hids). split.
    + pose proof (store_grain (store_for := HS) (t - staleAfter j)) as [? _]. intros id o Ho Hyoung.
      by eapply cancels_young; [exact Hc|exact Ho|lia].
    + rewrite E1. do 3 (split; [done|]). split; [exact Hids|]. intros id o. by apply cancels_all with (m := abs w).
  - destruct (ctx_err w2) as [c w3] eqn:E2. simplify_eq.
    destruct (same_orders_wf _ _ _ w2 w' (idle_ctx _ _ _ E2) Hwf2) as [Hwf3 ->].
    do 4 (split; [done|]). exists t, w1. split; [done|]. split.
    + pose proof (store_grain (store_for := HS) (t - staleAfter j')) as [? _]. intros id o Ho Hyoung.
      destruct Hc as [->|Hc]; [done|by eapply cancels_young; [exact Hc|exact Ho|lia]].
    + rewrite E1. split; [done|]. split; [done|]. destruct c; auto.
Qed.


(** ** Tasks and sweeps in any order *)
Inductive action : Type := Task (id : string) | Sweep.

Fixpoint background (p : OrderProcessor) (acts : list action) (j : CleanupJob) :
    io W (CleanupJob * list (string * processed)) :=
  match acts with
  | [] => mret (j, [])
  | Task id :: acts =>
      r ← process p id;
      rest ← background p acts j;
      mret (rest.1, (id, r) :: rest.2)
  | Sweep :: acts =>
      r ← run j;
      background p acts r.1
  end.

Definition confirmed_ids (log : list (string * processed)) : list string :=
  omap (λ x, match x.2 with Confirmed_ => Some x.1 | _ => None end) log.

Lemma has_status_final (P : Status → Prop) m m' id :
  (∀ st, P st → st ≠ StatusPending) → progress m m' → has_status P m id → has_status P m' id.
Proof.
  intros HP Hp (o & Ho & Hst). destruct (Hp id o Ho) as (o' & Ho' & _ & _ & _ & _ & He).
  exists o'. split; [done|]. destruct He as [->|He]; [done|]. by apply HP in Hst.
Qed.

Lemma settles_has_status st id m m' : settles st id m m' → has_status (.= st) m' id.
Proof. intros (o & now & _ & _ & ->). eexists. by rewrite lookup_insert_eq. Qed.

Lemma confirmed_ids_elem log id : id ∈ confirmed_ids log ↔ (id, Confirmed_) ∈ log.
Proof.
  unfold confirmed_ids. rewrite list_elem_of_omap. split.
  - intros ([id' []] & Hin & Hx); simpl in Hx; by simplify_eq.
  - intros H. by exists (id, Confirmed_).
Qed.

Lemma run_wf j w j' err w' :
  wf w → idle_gate j → run j w = ((j', err), w') → wf w' ∧ progress (abs w) (abs w') ∧ ready j' = ready j.
Proof.
  assert (∀ w0, wf w0 → sweep_stale j w0 = ((j', err), w') →
    wf w' ∧ progress (abs w0) (abs w') ∧ ready j' = ready j) as Hsweep.
  { intros w0 Hwf0 H. destruct (sweep_stale_effect j w0 j' err w' Hwf0 H) as (? & ? & _). split_and!; [done..|].
    unfold sweep_stale, mbind, io_bind, mret, io_ret in H. destruct (Now w0) as [t w1].
    destruct (CancelStalePending S _ w1) as [[ids|e] w2]; [by simplify_eq|]. destruct (ctx_err w2). by simplify_eq. }
  intros Hwf Hgate H. unfold run in H. destruct (ready j) as [g|] eqn:Eg; [|by apply Hsweep].
  unfold mbind, io_bind, mret, io_ret in H. destruct (g w) as [r w0] eqn:E. apply (Hgate g) in E; [|done].
  destruct (same_orders_wf _ _ _ w w0 E Hwf) as [Hwf0 Ha0]. rewrite <-Ha0.
  destruct r as [e|]; [by simplify_eq|by apply Hsweep].
Qed.

(** A sweep confirms nothing. *)
Lemma run_cancels j w j' err w' :
  wf w → idle_gate j → run j w = ((j', err), w') → abs w' = abs w ∨ ∃ cutoff, cancels cutoff (abs w) (abs w').
Proof.
  assert (∀ w0, wf w0 → sweep_stale j w0 = ((j', err), w') →
    abs w' = abs w0 ∨ ∃ cutoff, cancels cutoff (abs w0) (abs w')) as Hsweep.
  { intros w0 Hwf0 H. destruct (sweep_stale_effect j w0 j' err w' Hwf0 H) as (_ & _ & _ & _ & t & w1 & _ & _ & He).
    destruct (CancelStalePending S _ w1).1 as [ids|e]; [right; eexists; apply He|].
    destruct He as (_ & [?|?] & _); [by left|right; by eexists]. }
  intros Hwf Hgate H. unfold run in H. destruct (ready j) as [g|] eqn:Eg; [|by apply Hsweep].
  unfold mbind, io_bind, mret, io_ret in H. destruct (g w) as [r w0] eqn:E. apply (Hgate g) in E; [|done].
  destruct (same_orders_wf _ _ _ w w0 E Hwf) as [Hwf0 Ha0]. rewrite <-Ha0.
  destruct r as [e|]; [left; by simplify_eq|by apply Hsweep].
Qed.

Lemma cancels_confirms_none cutoff m m' id :
  cancels cutoff m m' → has_status (.= StatusConfirmed) m' id → has_status (.= StatusConfirmed) m id.
Proof.
  intros [t Hc] (o & Ho & Hst). rewrite Hc in Ho. apply fmap_Some in Ho as (o0 & Ho0 & ->).
  exists o0. split; [done|]. by case_decide.
Qed.

Definition settled (m : gmap string Order) (id : string) : Prop := has_status (.≠ StatusPending) m id.

Lemma settled_final m m' id : progress m m' → settled m id → settled m' id.
Proof. by apply has_status_final. Qed.

Lemma process_settled p id w r w' :
  wf w → process p id w = (r, w') →
  (r = Confirmed_ → ¬ settled (abs w) id ∧ has_status (.= StatusConfirmed) (abs w') id) ∧
  (r = NoLongerPending → settled (abs w') id).
Proof.
  intros Hwf H. destruct (process_spec p id w r w' Hwf H) as (_ & _ & Hr).
  split; intros ->; [split; [|by eapply settles_has_status]|].
  - intros (o & Ho & Hst). destruct Hr as (o' & _ & Ho' & Hst' & _). by simplify_eq.
  - destruct Hr as [Ha Hr]. by rewrite Ha.
Qed.

(** C19: one confirmation.  However worker tasks (any number for the same order)
    and sweeps follow each other: a task reports an order confirmed at most
    once over the whole run, and only one that had not settled before; an order
    so reported is CONFIRMED at the end, and one reported "no longer pending"
    has settled; orders only move forward. *)
Theorem confirmed_at_most_once p acts j w j' log w' :
  wf w → idle_gate j → background p acts j w = ((j', log), w') →
  wf w' ∧ progress (abs w) (abs w') ∧ NoDup (confirmed_ids log) ∧
  (∀ id, (id, Confirmed_) ∈ log → ¬ settled (abs w) id ∧ has_status (.= StatusConfirmed) (abs w') id) ∧
  (∀ id, (id, NoLongerPending) ∈ log → settled (abs w') id).
Proof.
  revert j w log. induction acts as [|[id|] acts IH]; intros j w log Hwf Hg H; simpl in H;
    unfold mbind, io_bind, mret, io_ret in H.
  { simplify_eq. split_and!; [done|done|constructor|by intros ? ?%not_elem_of_nil..]. }
  - destruct (process p id w) as [r w1] eqn:E.
    destruct (background p acts j w1) as [[j2 log2] w2] eqn:E2. simplify_eq/=.
    destruct (process_spec p id w r w1 Hwf E) as (Hwf1 & Hp1 & _).
    destruct (process_settled p id w r w1 Hwf E) as [HC HN].
    destruct (IH j w1 log2 Hwf1 Hg E2) as (Hwf2 & Hp2 & Hnd & Hc & Hn).
    split; [done|]. split; [by etrans|]. split; [|split].
    + destruct r; simpl; try done. constructor; [|done]. intros Hin%confirmed_ids_elem.
      destruct (Hc id Hin) as [Hns _]. apply Hns. destruct (HC eq_refl) as [_ (o & Ho & Hst)].
      exists o. split; [done|]. by rewrite Hst.
    + intros id' [[= -> <-]|Hin]%elem_of_cons.
      * destruct (HC eq_refl) as [? Hs]. split; [done|]. by eapply has_status_final; [|exact Hp2|]; [intros ? ->|].
      * destruct (Hc id' Hin) as [Hns ?]. split; [|done]. intros Hs. by apply Hns, (settled_final _ _ _ Hp1).
    + intros id' [[= -> <-]|Hin]%elem_of_cons; [apply (settled_final _ _ _ Hp2); auto|auto].
  - destruct (run j w) as [[j1 err] w1] eqn:E.
    destruct (run_wf j w j1 err w1 Hwf Hg E) as (Hwf1 & Hp1 & Hrd).
    assert (idle_gate j1) as Hg1 by (unfold idle_gate; by rewrite Hrd).
    destruct (IH j1 w1 log Hwf1 Hg1 H) as (Hwf2 & Hp2 & Hnd & Hc & Hn).
    split_and!; [done|by etrans|done| |done].
    intros id Hin. destruct (Hc id Hin) as [Hns ?]. split; [|done].
    intros Hs. by apply Hns, (settled_final _ _ _ Hp1).
Qed.
End processor.

(** ** On the in-memory store, with a clock of one second per reading *)
Definition pex_clock (n : nat) : Z := Z.of_nat n * Second.
Definition pex_store : Store InMemoryStore := memory_store pex_clock map_to_list.
Definition pex_wait (d : Z) : io InMemoryStore (option goerr) := λ s, (None, s).
Definition pex_ctx : io InMemoryStore (option goerr) := λ s, (None, s).
Definition pex_start : InMemoryStore := (Create pex_store "alice" [mkItem "WIDGET" 2] NewInMemoryStore).2.
Definition pex_job : @CleanupJob InMemoryStore := NewCleanupJob Second [WithReadyGate (λ s, (None, s))].
Definition pex_processor : OrderProcessor := NewOrderProcessor 4 (300 * Millisecond).

Definition pex_contract : store pex_store orders mem_wf mem_room :=
  memory_store_contract pex_clock map_to_list (λ m, reflexivity _).

Lemma pex_idle : idle pex_wait pex_ctx (now pex_clock) orders mem_wf mem_room.
Proof.
  split; [by intros d w r w' [= <- <-]|by intros w r w' [= <- <-]|].
  intros w t w' [= <- <-]. split; [done|]. split; [|done]. by intros [? ? ?].
Qed.

Lemma pex_gate : idle_gate orders mem_wf mem_room pex_job.
Proof. intros g w r w' [= <-] [= <- <-]. done. Qed.

Lemma pex_start_wf : mem_wf pex_start.
Proof.
  exact (proj1 (create_inserts pex_clock "alice" [mkItem "WIDGET" 2] NewInMemoryStore _ pex_start
    new_mem_wf eq_refl (surjective_pairing _))).
Qed.

Definition pex_run := background pex_store pex_wait pex_ctx (now pex_clock) pex_processor.

Lemma confirmed_at_most_once_witness :
  let r := pex_run [Task "ord_1"; Sweep; Task "ord_1"] pex_job pex_start in
  r.1.2 = [("ord_1", Confirmed_); ("ord_1", NoLongerPending)] ∧
  NoDup ["ord_1"] ∧ has_status (.= StatusConfirmed) (orders r.2) "ord_1".
Proof.
  destruct (confirmed_at_most_once pex_store pex_wait pex_ctx (now pex_clock) orders mem_wf mem_room
    (HS := pex_contract) (Hidle := pex_idle) pex_processor [Task "ord_1"; Sweep; Task "ord_1"] pex_job pex_start
    (pex_run [Task "ord_1"; Sweep; Task "ord_1"] pex_job pex_start).1.1
    [("ord_1", Confirmed_); ("ord_1", NoLongerPending)]
    (pex_run [Task "ord_1"; Sweep; Task "ord_1"] pex_job pex_start).2 pex_start_wf pex_gate
    ltac:(vm_compute; reflexivity)) as (_ & _ & H1 & H2 & _).
  split; [vm_compute; reflexivity|]. split; [exact H1|]. apply (H2 "ord_1"). by left.
Defined.

(** The first sweep finds the order two seconds old and cancels it. *)
Definition pex_late : InMemoryStore := mkMem (orders pex_start) (nextID pex_start) 2.
Definition pex_sweep := run pex_store pex_ctx (now pex_clock) pex_job pex_late.

