(* ===== verification/System.v ===== *)
(** * orders: the service as a whole

    How the parts of the orders service work together: requests create orders in
    the store and submit their IDs to the worker pool ([Enqueue]), the pool's
    workers confirm them ([process]), and the periodic job sweeps ([run]).  [step]
    is the machine of all of it: the pool is WorkerPool's, a task is
    Processing's [process] on the store, which any implementation of the [Store]
    contract may be; a call of the store is one step.  The delay of a task passes
    in a step of its own ([LDelay]), before the context ends or not at all.
    [calls] names the order each call of [Enqueue] is for.  Theorems: every order
    whose [Enqueue] returned nil is taken up, exactly once, by the time the pool's
    [Start] returns; an order that is still PENDING is somewhere: with its
    request, in the pool, or among those whose processing was refused,
    interrupted or failed, which are the sweep's; and when the service stops, the
    orders that wait are interrupted, not confirmed. *)
From S2P Require Import Prelude GoContext Orders MemoryStore Processing.
From S2P Require WorkerPool.

Section system.
Context {W : Type} (S : Store W) (Now : io W Z).
Context (pr : OrderProcessor) (p : WorkerPool.Pool) (ctx : context).

Record state : Type := mkSystem {
  world : W;
  pl : WorkerPool.state;
  calls : gmap nat string;                     (* the order of each call of [Enqueue] *)
  job : @CleanupJob W;
  log : list (string * processed);             (* what each task came to *)
  woken : gset nat;                            (* the tasks whose delay has passed *)
}.

Inductive label : Type :=
  | LCreate (customer : string) (items : list Item) (i : nat)  (* a request creates an order *)
  | LCall (cl : call)                        (* another call of the store by a request *)
  | LEnqueue (i : nat) (c : context)         (* and calls [Enqueue] with its context *)
  | LPool (l : WorkerPool.label)             (* the pool, but for the end of a task *)
  | LDelay (i : nat)                         (* the delay of task [i] passes *)
  | LTask (w : nat)                          (* worker [w] goes on after its select *)
  | LSweep.                                  (* the periodic job runs *)

(** The context of the tasks and sweeps has ended. *)
Definition ended (s : state) : Prop := ctx_err (WorkerPool.σ (pl s)) ctx ≠ None.
#[export] Instance ended_dec s : Decision (ended s).
Proof. unfold ended. apply _. Defined.

(** The select of task [i]: it goes on when the delay has passed, gives up when the
    context has ended, and waits otherwise.  Of a delay and a context the first
    decides: a delay that is positive does not pass in a select whose context has
    ended. *)
Definition delay_passes (i : nat) (s : state) : bool :=
  bool_decide (i ∈ WorkerPool.running (WorkerPool.workers (pl s)) ∧ i ∉ woken s ∧ (¬ ended s ∨ processDelay pr ≤ 0)).
Definition selected (i : nat) (s : state) : option (option goerr) :=
  if decide (i ∈ woken s) then Some None
  else match ctx_err (WorkerPool.σ (pl s)) ctx with Some e => Some (Some e) | None => None end.

(** What the select answered, and the context of tasks and sweeps. *)
Definition task_wait (r : option goerr) (d : Z) : io W (option goerr) := λ w, (r, w).
Definition task_ctx (s : state) : io W (option goerr) := λ w, (ctx_err (WorkerPool.σ (pl s)) ctx, w).

Definition of_pool (l : WorkerPool.label) : bool :=
  match l with WorkerPool.LSubmit _ _ | WorkerPool.LTaskDone _ => false | _ => true end.

Definition reads_only (cl : call) : bool := match cl with CGet _ | CList => true | _ => false end.

Definition step (l : label) (s : state) : option state :=
  match l with
  | LCreate customer items i =>
      match calls s !! i with
      | Some _ => None
      | None =>
          let '(r, w) := Create S customer items (world s) in
          let cs := match r with Ok o => <[i := ID o]> (calls s) | Err _ => calls s end in
          Some (mkSystem w (pl s) cs (job s) (log s) (woken s))
      end
  | LCall cl =>
      if reads_only cl then Some (mkSystem (perform S cl (world s)).2 (pl s) (calls s) (job s) (log s) (woken s)) else None
  | LEnqueue i c =>
      match calls s !! i with
      | Some _ => q ← WorkerPool.step p ctx (WorkerPool.LSubmit i c) (pl s);
                  Some (mkSystem (world s) q (calls s) (job s) (log s) (woken s))
      | None => None
      end
  | LPool l =>
      if of_pool l then
        q ← WorkerPool.step p ctx l (pl s); Some (mkSystem (world s) q (calls s) (job s) (log s) (woken s))
      else None
  | LDelay i =>
      if delay_passes i s then Some (mkSystem (world s) (pl s) (calls s) (job s) (log s) ({[i]} ∪ woken s)) else None
  | LTask w =>
      match WorkerPool.workers (pl s) !! w with
      | Some (WorkerPool.Running i) =>
          match calls s !! i, selected i s with
          | Some id, Some r0 =>
              let '(r, w') := process S (task_wait r0) (task_ctx s) pr id (world s) in
              q ← WorkerPool.step p ctx (WorkerPool.LTaskDone w) (pl s);
              Some (mkSystem w' q (calls s) (job s) (log s ++ [(id, r)]) (woken s))
          | _, _ => None
          end
      | _ => None
      end
  | LSweep =>
      let '((j, _), w) := run S (task_ctx s) Now (job s) (world s) in
      Some (mkSystem w (pl s) (calls s) j (log s) (woken s))
  end.

(** ** On a store that keeps the contract *)
Context (abs : W → gmap string Order) (wf room : W → Prop).
Context {answers : string → gmap string Order → res Order → Prop} {grain : Z → Z} `{HS : !store_for answers grain S abs wf room}.

(** What a creation needs of its items and of the store. *)
Definition sound (l : label) (s : state) : Prop :=
  match l with LCreate _ items _ => sent_items items ∧ room (world s) | _ => True end.

(** The states of a run from [s0]. *)
Inductive runs (s0 : state) : state → Prop :=
  | runs_here : runs s0 s0
  | runs_step s l s' : runs s0 s → sound l s → step l s = Some s' → runs s0 s'.

(** The service starts with no task: nothing was called yet, the gate of the
    sweeps and the clock change no order. *)
Definition starts (s : state) : Prop :=
  wf (world s) ∧ pl s = WorkerPool.init ∧ calls s = ∅ ∧ log s = [] ∧ woken s = ∅ ∧ idle_gate abs wf room (job s).

Class quiet_clock : Prop := quiet_now w t w' : Now w = (t, w') → same_orders abs wf room w w'.
Context `{Hclock : !quiet_clock} (cap_nonneg : 0 ≤ WorkerPool.tasks_cap p).

Lemma task_idle s r0 : idle (task_wait r0) (task_ctx s) Now abs wf room.
Proof. split; [by intros d w r w' [= <- <-]|by intros w r w' [= <- <-]|exact Hclock]. Qed.

Record Inv (s : state) : Prop := mkInv {
  y_wf : wf (world s);
  y_pool : WorkerPool.Inv p (pl s);
  y_gate : idle_gate abs wf room (job s);
  y_called i x : WorkerPool.submits (pl s) !! i = Some x → is_Some (calls s !! i);
  y_inj i j id : calls s !! i = Some id → calls s !! j = Some id → i = j;
  y_present i id : calls s !! i = Some id → is_Some (abs (world s) !! id);
  y_log : Some <$> (log s).*1 = (λ i, calls s !! i) <$> WorkerPool.finished (pl s);
  y_confirmed id : (id, Confirmed_) ∈ log s → has_status (.= StatusConfirmed) (abs (world s)) id;
  y_skipped id : (id, NoLongerPending) ∈ log s → settled (abs (world s)) id;
  y_woken i : i ∈ woken s → i ∈ WorkerPool.started (pl s);
  y_unwoken i id : calls s !! i = Some id → i ∉ woken s →
    (∀ r, (id, r) ∈ log s → r = Interrupted) ∧ ¬ has_status (.= StatusConfirmed) (abs (world s)) id;
  y_closed : WorkerPool.closed (pl s) = true → ended s;
}.

Lemma system_Inv_start s : starts s → Inv s.
Proof.
  intros (Hw & Hp & Hc & Hl & Hd & Hg). constructor; rewrite ?Hp, ?Hc, ?Hl, ?Hd; try done.
  - apply WorkerPool.workerPool_Inv_init. done.
  - intros id Hin. by apply not_elem_of_nil in Hin.
  - intros id Hin. by apply not_elem_of_nil in Hin.
Qed.

Lemma finished_submitted q i :
  WorkerPool.Inv p q → i ∈ WorkerPool.finished q → ∃ c, WorkerPool.submits q !! i = Some (c, WorkerPool.SubmitReturned None).
Proof.
  intros HI Hi. apply (WorkerPool.inv_accepted _ _ HI). destruct HI as [_ Hf Ho _ _ _ _].
  rewrite <-Hf. apply elem_of_app. left. rewrite Ho. apply elem_of_app. by right.
Qed.

(** What the change of a world confirms. *)
Definition confirms_none (w w' : W) : Prop :=
  ∀ id, has_status (.= StatusConfirmed) (abs w') id → has_status (.= StatusConfirmed) (abs w) id.

(** The store moves forward and confirms nothing, the rest stays. *)
Lemma system_Inv_world s w :
  wf w → progress (abs (world s)) (abs w) → confirms_none (world s) w → Inv s → ∀ j, idle_gate abs wf room j →
  Inv (mkSystem w (pl s) (calls s) j (log s) (woken s)).
Proof.
  intros Hw Hp Hn [H1 H2 H3 H4 H5 H6 H7 H8 H9 H10 H11 H12] j Hj. constructor; simpl; try done.
  - intros i id Hi. destruct (H6 i id Hi) as [o Ho]. destruct (Hp id o Ho) as (o' & ? & _). by exists o'.
  - intros id Hin. eapply has_status_final; [|exact Hp|by apply H8]. by intros ? ->.
  - intros id Hin. by eapply settled_final; [exact Hp|apply H9].
  - intros i id Hi Hw'. destruct (H11 i id Hi Hw') as [? Hc]. split; [done|]. intros Hs. by apply Hc, Hn.
Qed.

(** A step of the pool that ends no task. *)
Lemma system_Inv_pool s l q :
  of_pool l = true ∨ (∃ i c, l = WorkerPool.LSubmit i c ∧ is_Some (calls s !! i)) →
  WorkerPool.step p ctx l (pl s) = Some q → Inv s → Inv (mkSystem (world s) q (calls s) (job s) (log s) (woken s)).
Proof.
  intros Hl H [H1 H2 H3 H4 H5 H6 H7 H8 H9 H10 H11 H12].
  pose proof (WorkerPool.workerPool_step_inv p ctx l (pl s) q H2 H) as HI.
  destruct (WorkerPool.pool_monotone p ctx l (pl s) q H) as (Hm1 & Hm2 & Hm3 & _).
  assert (WorkerPool.finished q = WorkerPool.finished (pl s) ∧
    ∀ i x, WorkerPool.submits q !! i = Some x → is_Some (calls s !! i)) as [Hf Hs].
  { destruct l; (destruct Hl as [Hl|(i0 & c0 & Hl & Hi0)]; try done); simplify_eq; simpl in H; repeat (case_match; try done);
      try (apply bind_Some in H as (? & ? & H)); simplify_eq/=; (split; [done|]); try done;
      intros i' x' Hx; try (apply lookup_insert_Some in Hx as [[-> _]|[_ Hx]]); eauto. }
  constructor; simpl; try done.
  - by rewrite Hf.
  - intros i Hi%H10. by apply Hm2.
  - intros Hc. destruct (Hm3 Hc) as [?|?]; apply Hm1; [by apply H12|done].
Qed.

(** The delay of a running task passes. *)
Lemma system_Inv_delay s i :
  delay_passes i s = true → Inv s → Inv (mkSystem (world s) (pl s) (calls s) (job s) (log s) ({[i]} ∪ woken s)).
Proof.
  intros Hd [H1 H2 H3 H4 H5 H6 H7 H8 H9 H10 H11 H12]. unfold delay_passes in Hd. apply bool_decide_eq_true in Hd as (Hr & _).
  constructor; simpl; try done.
  - intros j [->%elem_of_singleton|Hj]%elem_of_union; [|by apply H10].
    rewrite (WorkerPool.inv_once _ _ H2). apply elem_of_app. by left.
  - intros j id Hj Hn. apply (H11 j id); [done|]. set_solver.
Qed.

Lemma system_Inv_task s w i id r0 :
  WorkerPool.workers (pl s) !! w = Some (WorkerPool.Running i) → calls s !! i = Some id → selected i s = Some r0 → Inv s →
  ∀ r w' q, process S (task_wait r0) (task_ctx s) pr id (world s) = (r, w') →
  WorkerPool.step p ctx (WorkerPool.LTaskDone w) (pl s) = Some q →
  Inv (mkSystem w' q (calls s) (job s) (log s ++ [(id, r)]) (woken s)).
Proof.
  intros Hw Hi Hsel [H1 H2 H3 H4 H5 H6 H7 H8 H9 H10 H11 H12] r w' q Hr Hq.
  destruct (process_spec S (task_wait r0) (task_ctx s) Now abs wf room (Hidle := task_idle s r0) pr id _ r w' H1 Hr)
    as (Hwf & Hp & _).
  destruct (process_settled S (task_wait r0) (task_ctx s) Now abs wf room (Hidle := task_idle s r0) pr id _ r w' H1 Hr)
    as [HC HN].
  pose proof (process_confirms_own S (task_wait r0) (task_ctx s) Now abs wf room (Hidle := task_idle s r0) pr id (world s) r w')
    as Hown.
  pose proof (WorkerPool.workerPool_step_inv p ctx _ (pl s) q H2 Hq) as HI. simpl in Hq. rewrite Hw in Hq. injection Hq as Hq.
  constructor; simpl; try done.
  - intros i' x Hx. rewrite <-Hq in Hx. by eapply H4.
  - intros i' id' Hi'. destruct (H6 i' id' Hi') as [o Ho]. destruct (Hp id' o Ho) as (o' & ? & _). by exists o'.
  - rewrite <-Hq. simpl. rewrite !fmap_app, H7. simpl. by rewrite Hi.
  - intros id' [Hin|[= -> <-]%list_elem_of_singleton]%elem_of_app; [|by apply HC].
    eapply has_status_final; [|exact Hp|by apply H8]. by intros ? ->.
  - intros id' [Hin|[= -> <-]%list_elem_of_singleton]%elem_of_app; [|by apply HN].
    by eapply settled_final; [exact Hp|apply H9].
  - intros j Hj. rewrite <-Hq. simpl. by apply H10.
  - intros j id' Hj Hn. destruct (H11 j id' Hj Hn) as [Hlog Hst].
    destruct (decide (id' = id)) as [->|Hne].
    + assert (j = i) as -> by by eapply H5. unfold selected in Hsel. rewrite decide_False in Hsel by done.
      destruct (ctx_err _ ctx) as [e|] eqn:Ee; [|done]. injection Hsel as <-.
      rewrite (process_interrupted S (task_wait (Some e)) (task_ctx s) pr id (world s) e (world s) eq_refl) in Hr.
      injection Hr as <- <-. split; [|done].
      intros r [Hin|[= <-]%list_elem_of_singleton]%elem_of_app; [by apply Hlog|done].
    + split.
      * intros r1 [Hin|[= ? ?]%list_elem_of_singleton]%elem_of_app; [by apply Hlog|done].
      * intros Hs. by destruct (Hown id' H1 Hr Hs).
  - intros Hc. rewrite <-Hq in *. simpl in *. by apply H12.
Qed.

Lemma system_Inv_create s customer items i r w :
  sent_items items → room (world s) → calls s !! i = None → Create S customer items (world s) = (r, w) → Inv s →
  Inv (mkSystem w (pl s) (match r with Ok o => <[i := ID o]> (calls s) | Err _ => calls s end) (job s) (log s) (woken s)).
Proof.
  intros Hit Hroom Hi Hr HI. pose proof HI as [H1 H2 H3 H4 H5 H6 H7 H8 H9 H10 H11 H12].
  destruct (store_create customer items _ r w H1 Hroom Hit Hr) as [Hw Hs].
  pose proof (create_progress _ _ _ _ _ Hs) as Hp.
  assert (confirms_none (world s) w) as Hnone.
  { assert (∀ o, inserts customer items o (abs (world s)) (abs w) → confirms_none (world s) w) as Hins.
    { intros o (Hn & Hst & _ & _ & Hm) id (o' & Ho' & Hc). rewrite Hm in Ho'.
      apply lookup_insert_Some in Ho' as [[_ <-]|[_ Ho']]; [by rewrite Hst in Hc|by exists o']. }
    destruct r as [o|e]; [by eapply Hins|]. destruct Hs as [E|[o Hs]]; [|by eapply Hins].
    intros id. by rewrite E. }
  destruct (system_Inv_world s w Hw Hp Hnone HI (job s) H3) as [G1 G2 G3 G4 G5 G6 G7 G8 G9 G10 G11 G12]. simpl in *.
  destruct r as [o|e]; [|by constructor]. simpl in Hs. destruct Hs as (Hn & Hpend & _ & _ & Hm).
  assert (∀ j id, calls s !! j = Some id → id ≠ ID o) as Hfresh.
  { intros j id Hj ->. destruct (H6 j _ Hj) as [? ?]. congruence. }
  assert (∀ r, (ID o, r) ∉ log s) as Hlog.
  { intros r Hin. assert (Some (ID o) ∈ Some <$> (log s).*1) as Hx.
    { apply list_elem_of_fmap. exists (ID o). split; [done|]. apply list_elem_of_fmap. by exists (ID o, r). }
    rewrite H7 in Hx. apply list_elem_of_fmap in Hx as (j & Hj & _). by destruct (Hfresh j (ID o)). }
  constructor; simpl; try done.
  - intros j x Hx. destruct (decide (i = j)) as [->|Hne]; [rewrite lookup_insert_eq; by eexists|].
    rewrite lookup_insert_ne by done. by eapply H4.
  - intros j k id [[<- <-]|[Hj1 Hj]]%lookup_insert_Some [[<- Hk]|[Hk1 Hk]]%lookup_insert_Some; subst; try done.
    + by destruct (Hfresh k (ID o) Hk).
    + by destruct (Hfresh j (ID o) Hj).
    + by eapply H5.
  - intros j id [[<- <-]|[Hj1 Hj]]%lookup_insert_Some; [|by eapply G6]. rewrite Hm, lookup_insert_eq. by eexists.
  - rewrite H7. apply list_fmap_ext. intros k j Hj%list_elem_of_lookup_2.
    destruct (finished_submitted (pl s) j H2 Hj) as [c Hc]. destruct (H4 _ _ Hc) as [id Hid].
    rewrite lookup_insert_ne; [done|]. intros ->. congruence.
  - intros j id [[<- <-]|[Hj1 Hj]]%lookup_insert_Some Hwk; [|by eapply G11].
    split; [by intros r Hin%Hlog|]. intros (o' & Ho' & Hc). rewrite Hm, lookup_insert_eq in Ho'. simplify_eq. by rewrite Hpend in Hc.
Qed.

Lemma reads_change_nothing cl rep w w' :
  reads_only cl = true → wf w → perform S cl w = (rep, w') → abs w' = abs w.
Proof.
  intros Hc Hwf H. destruct cl; try done; simpl in H; unfold mbind, io_bind, mret, io_ret in H.
  - destruct (Get S id w) as [r w1] eqn:E. simplify_eq. by destruct (store_get id w r w' Hwf E) as (_ & ? & _).
  - destruct (List_ S w) as [r w1] eqn:E. simplify_eq. by destruct (store_list w r w' Hwf E) as (_ & ? & _).
Qed.

Lemma system_Inv_step s l s' : Inv s → sound l s → step l s = Some s' → Inv s'.
Proof.
  intros HI Hl H. destruct l as [customer items i|cl|i c|l|i|w|]; simpl in H.
  - destruct (calls s !! i) eqn:Ei; [done|]. destruct (Create S customer items (world s)) as [r w] eqn:Er. simplify_eq.
    destruct Hl. by eapply system_Inv_create.
  - destruct (reads_only cl) eqn:Ec; [|done]. simplify_eq. destruct (perform S cl (world s)) as [rep w] eqn:Ep.
    destruct (perform_spec S abs wf room cl _ rep w (y_wf _ HI)) as (Hw & Hp & _); [by destruct cl|done|].
    apply system_Inv_world; [done..| |done|apply (y_gate _ HI)]. intros id. simpl.
    by rewrite (reads_change_nothing cl rep _ w Ec (y_wf _ HI) Ep).
  - destruct (calls s !! i) eqn:Ei; [|done]. apply bind_Some in H as (q & Hq & H). simplify_eq.
    apply (system_Inv_pool s (WorkerPool.LSubmit i c)); [|exact Hq|done]. right. exists i, c. split; [done|]. by rewrite Ei.
  - destruct (of_pool l) eqn:El; [|done]. apply bind_Some in H as (q & Hq & H). simplify_eq.
    eapply system_Inv_pool; [by left|exact Hq|done].
  - destruct (delay_passes i s) eqn:Ed; [|done]. simplify_eq. by apply system_Inv_delay.
  - destruct (WorkerPool.workers (pl s) !! w) as [[|i|]|] eqn:Ew; try done. destruct (calls s !! i) as [id|] eqn:Ei; [|done].
    destruct (selected i s) as [r0|] eqn:Es; [|done].
    destruct (process _ _ _ _ _ _) as [r w'] eqn:Er. apply bind_Some in H as (q & Hq & H). injection H as <-.
    apply (system_Inv_task s w i id r0 Ew Ei Es HI r w' q Er). simpl. by rewrite Ew.
  - destruct (run S (task_ctx s) Now (job s) (world s)) as [[j err] w] eqn:Er. simplify_eq.
    destruct (run_wf S (task_wait None) (task_ctx s) Now abs wf room (Hidle := task_idle s None) (job s) _ j err w
      (y_wf _ HI) (y_gate _ HI) Er) as (Hw & Hp & Hj).
    apply system_Inv_world; [done..| |done|].
    + destruct (run_cancels S (task_wait None) (task_ctx s) Now abs wf room (Hidle := task_idle s None) (job s) _ j err w
        (y_wf _ HI) (y_gate _ HI) Er) as [E|[cut Hc]]; intros id; [by rewrite E|by eapply cancels_confirms_none].
    + pose proof (y_gate _ HI) as Hg. unfold idle_gate in *. by rewrite Hj.
Qed.

Lemma system_inv s0 s : starts s0 → runs s0 s → Inv s.
Proof. intros H0. induction 1 as [|s l s' _ IH Hl Hs]; [by apply system_Inv_start|by eapply system_Inv_step]. Qed.

(** ** What becomes of an order *)
Definition enqueued (s : state) (i : nat) : Prop :=
  ∃ c, WorkerPool.submits (pl s) !! i = Some (c, WorkerPool.SubmitReturned None).

Lemma log_finished s id :
  Inv s → id ∈ (log s).*1 ↔ ∃ i, calls s !! i = Some id ∧ i ∈ WorkerPool.finished (pl s).
Proof.
  intros HI. assert (id ∈ (log s).*1 ↔ Some id ∈ Some <$> (log s).*1) as ->.
  { rewrite (list_elem_of_fmap Some). naive_solver. }
  rewrite (y_log _ HI), list_elem_of_fmap. naive_solver.
Qed.

Lemma log_nodup s : Inv s → NoDup (log s).*1.
Proof.
  intros HI. apply (NoDup_fmap_1 Some). rewrite (y_log _ HI). apply NoDup_fmap_2_strong.
  - intros i j Hi Hj E. destruct (finished_submitted _ i (y_pool _ HI) Hi) as [c Hc].
    destruct (y_called _ HI _ _ Hc) as [id Hid]. rewrite Hid in E. by eapply (y_inj _ HI).
  - destruct (y_pool _ HI) as [_ Hf Ho Hn _ _ _]. rewrite <-Hf in Hn. apply NoDup_app in Hn as [Hn _].
    rewrite Ho in Hn. by apply NoDup_app in Hn as (_ & _ & ?).
Qed.

Lemma enqueued_where s i :
  Inv s → enqueued s i ↔ i ∈ WorkerPool.queue (pl s) ∨ i ∈ WorkerPool.running (WorkerPool.workers (pl s)) ∨
    i ∈ WorkerPool.finished (pl s).
Proof.
  intros HI. destruct (y_pool _ HI) as [_ Hf Ho _ Ha _ _]. unfold enqueued. rewrite <-Ha, <-Hf, elem_of_app, Ho, elem_of_app.
  naive_solver.
Qed.

Lemma drained_processed s :
  Inv s → 0 < WorkerPool.size p → WorkerPool.closed (pl s) = true → WorkerPool.wg_done (WorkerPool.workers (pl s)) = true →
  ∀ i id, calls s !! i = Some id → enqueued s i → id ∈ (log s).*1.
Proof.
  intros HI Hs Hc Hw i id Hi He. apply (log_finished s id HI). exists i. split; [done|].
  destruct (WorkerPool.wg_done_all_finished p (pl s) Hs (y_pool _ HI) Hw) as (_ & Hq & Hr & _).
  { pose proof (WorkerPool.inv_phase _ _ (y_pool _ HI)) as Hph. unfold WorkerPool.phase_ok in Hph. rewrite Hc in Hph.
    destruct (WorkerPool.at_ (pl s)); naive_solver. }
  apply (enqueued_where s i HI) in He. rewrite Hq, Hr in He.
  destruct He as [?%not_elem_of_nil|[?%not_elem_of_nil|?]]; done.
Qed.

(** C6: the task of every enqueued order runs, once.  Along every run of the service,
    on any store that keeps the contract: a task is only ever run for an order
    whose [Enqueue] returned nil, and for each order at most once; a task that
    reported the order confirmed, or no longer pending, is right (it is CONFIRMED,
    or settled by someone else); and when the pool's [Start] has returned, the task
    of every order whose [Enqueue] returned nil has run, to one of these ends, an
    error of the store, or its interruption. *)
Theorem orders_processed_once s0 s :
  starts s0 → runs s0 s →
  NoDup (log s).*1 ∧
  (∀ id, id ∈ (log s).*1 → ∃ i, calls s !! i = Some id ∧ enqueued s i) ∧
  (∀ id, (id, Confirmed_) ∈ log s → has_status (.= StatusConfirmed) (abs (world s)) id) ∧
  (∀ id, (id, NoLongerPending) ∈ log s → settled (abs (world s)) id) ∧
  (0 < WorkerPool.size p → WorkerPool.drainOnStop p = true → WorkerPool.at_ (pl s) = WorkerPool.Returned →
   ∀ i id, calls s !! i = Some id → enqueued s i → id ∈ (log s).*1).
Proof.
  intros H0 Hr. pose proof (system_inv s0 s H0 Hr) as HI. split; [by apply log_nodup|]. split; [|split; [|split]].
  - intros id (i & Hi & Hf)%(log_finished s id HI). exists i. split; [done|]. apply (enqueued_where s i HI). auto.
  - apply (y_confirmed _ HI).
  - apply (y_skipped _ HI).
  - intros Hs Hd Hat. pose proof (WorkerPool.inv_phase _ _ (y_pool _ HI)) as Hph.
    unfold WorkerPool.phase_ok in Hph. rewrite Hat in Hph. destruct Hph as (_ & Hc & Hw). by apply drained_processed; auto.
Qed.

(** C7: no order is lost.  An order a request created that is still PENDING is
    known to be somewhere: its request has not called [Enqueue] yet, or the call
    has not returned, or it returned an error; or the order waits in the pool's
    queue or is being processed; or its task was interrupted by the end of the
    context, or the store failed it, which the log says. *)
Theorem no_order_lost s0 s i id :
  starts s0 → runs s0 s → calls s !! i = Some id → has_status (.= StatusPending) (abs (world s)) id →
  (∀ c, WorkerPool.submits (pl s) !! i ≠ Some (c, WorkerPool.SubmitReturned None)) ∨
  i ∈ WorkerPool.queue (pl s) ∨ i ∈ WorkerPool.running (WorkerPool.workers (pl s)) ∨
  (id, Interrupted) ∈ log s ∨ ∃ e, (id, ProcessFailed e) ∈ log s.
Proof.
  intros H0 Hr Hi (o & Ho & Hst). pose proof (system_inv s0 s H0 Hr) as HI.
  assert (enqueued s i ∨ ¬ enqueued s i) as [He|He].
  { unfold enqueued. destruct (WorkerPool.submits (pl s) !! i) as [[c [| |[]]]|]; [right; by intros [? ?]..|left; by exists c|right; by intros [? ?]]. }
  - right. apply (enqueued_where s i HI) in He as [?|[?|Hf]]; [by left|by right; left|]. right. right.
    assert (id ∈ (log s).*1) as Hl by (apply (log_finished s id HI); by exists i).
    apply list_elem_of_fmap in Hl as ([id' r] & -> & Hl). destruct r as [|e| |]; simpl in *; [by left|right; by exists e| |].
    + destruct (y_skipped _ HI _ Hl) as (o' & Ho' & Hne). by simplify_eq.
    + destruct (y_confirmed _ HI _ Hl) as (o' & Ho' & Hc). simplify_eq. by rewrite Hst in Hc.
  - left. intros c Hc. apply He. by exists c.
Qed.

(** ** Shutting down *)
Definition worker_label (l : label) : Prop :=
  match l with
  | LPool (WorkerPool.LReceive _) | LPool (WorkerPool.LExit _) | LTask _ => True
  | _ => False
  end.

(** Once the context has ended it stays so, and no delay passes any more. *)
Lemma ended_step s l s' :
  step l s = Some s' → ended s → ended s' ∧ (0 < processDelay pr → woken s' = woken s).
Proof.
  intros H He.
  assert (∀ l q, WorkerPool.step p ctx l (pl s) = Some q → ctx_err (WorkerPool.σ q) ctx ≠ None) as Hpool.
  { intros l0 q Hq. by apply (WorkerPool.pool_monotone p ctx l0 _ _ Hq). }
  destruct l as [customer items i|cl|i c|l|i|w|]; simpl in H.
  - destruct (calls s !! i); [done|]. destruct (Create S customer items (world s)). by simplify_eq.
  - destruct (reads_only cl); by simplify_eq.
  - destruct (calls s !! i); [|done]. apply bind_Some in H as (q & Hq & H). simplify_eq.
    split; [|done]. by apply (Hpool (WorkerPool.LSubmit i c)).
  - destruct (of_pool l); [|done]. apply bind_Some in H as (q & Hq & H). simplify_eq. split; [|done]. by eapply Hpool.
  - destruct (delay_passes i s) eqn:Ed; [|done]. simplify_eq. split; [done|]. intros Hd. exfalso.
    unfold delay_passes in Ed. apply bool_decide_eq_true in Ed as (_ & _ & [?|?]); [done|lia].
  - destruct (WorkerPool.workers (pl s) !! w) as [[|i|]|] eqn:Ew; try done. destruct (calls s !! i); [|done].
    destruct (selected i s); [|done]. destruct (process _ _ _ _ _ _) as [r w']. apply bind_Some in H as (q & Hq & H).
    simplify_eq. split; [|done]. apply (Hpool (WorkerPool.LTaskDone w)). simpl. by rewrite Ew.
  - destruct (run S (task_ctx s) Now (job s) (world s)) as [[j err] w]. by simplify_eq.
Qed.

Lemma ended_runs s s' :
  runs s s' → ended s → ended s' ∧ (0 < processDelay pr → woken s' = woken s).
Proof.
  intros Hr He. induction Hr as [|s1 l s2 _ [IH1 IH2] _ Hs]; [done|].
  destruct (ended_step s1 l s2 Hs IH1) as [? Hw]. split; [done|]. intros Hd. rewrite Hw by done. auto.
Qed.

(** An order that waits in the queue has no delay that passed. *)
Lemma queue_not_woken s i : Inv s → i ∈ WorkerPool.queue (pl s) → i ∉ woken s.
Proof.
  intros HI Hq Hw%(y_woken _ HI). destruct (y_pool _ HI) as [_ Hf _ Hn _ _ _]. rewrite <-Hf in Hn.
  apply NoDup_app in Hn as (_ & Hd & _). by apply (Hd i).
Qed.

(** A step of the pool's workers is one of the service, once the context has ended. *)
Lemma worker_step_lifts s l q :
  Inv s → ended s → WorkerPool.worker_label l → WorkerPool.step p ctx l (pl s) = Some q →
  ∃ L s', worker_label L ∧ step L s = Some s' ∧ pl s' = q ∧ calls s' = calls s.
Proof.
  intros HI He Hl H. destruct l as [| | | |w|w i|w|w|i c|i|i|i|i|j c|j|j|c e]; try done.
  - exists (LPool (WorkerPool.LReceive w)). unfold step, of_pool. rewrite H. by eexists.
  - assert (∃ i, WorkerPool.workers (pl s) !! w = Some (WorkerPool.Running i)) as [i Hw].
    { simpl in H. destruct (WorkerPool.workers (pl s) !! w) as [[]|]; try done. by eexists. }
    assert (enqueued s i) as [c Hc].
    { apply (enqueued_where s i HI). right. left. unfold WorkerPool.running.
      apply list_elem_of_omap. exists (WorkerPool.Running i). split; [by eapply list_elem_of_lookup_2|done]. }
    destruct (y_called _ HI _ _ Hc) as [id Hid].
    assert (∃ r0, selected i s = Some r0) as [r0 Hr0].
    { unfold selected. case_decide; [by eexists|]. unfold ended in He. destruct (ctx_err _ ctx); [by eexists|done]. }
    exists (LTask w). unfold step. rewrite Hw, Hid, Hr0.
    destruct (process S (task_wait r0) (task_ctx s) pr id (world s)) as [r w']. rewrite H. by eexists.
  - exists (LPool (WorkerPool.LExit w)). unfold step, of_pool. rewrite H. by eexists.
Qed.

Lemma worker_step_pool s L s' :
  worker_label L → step L s = Some s' → ∃ l, WorkerPool.worker_label l ∧ WorkerPool.step p ctx l (pl s) = Some (pl s').
Proof.
  intros HL H. destruct L as [| | |l| |w|]; try done; unfold step in H.
  - destruct l as [| | | |w| | |w| | | | | | | | |]; try done; simpl of_pool in H; cbv iota in H;
      apply bind_Some in H as (q & Hq & H); injection H as <-; eexists; (split; [|exact Hq]); done.
  - destruct (WorkerPool.workers (pl s) !! w) as [[|i|]|]; try done. destruct (calls s !! i); [|done].
    destruct (selected i s); [|done].
    destruct (process _ _ _ _ _ _) as [r w']. apply bind_Some in H as (q & Hq & H). injection H as <-. eexists. by split; [|exact Hq].
Qed.

(** What a worker's step keeps: an order whose delay has not passed stays as it is. *)
Lemma worker_step_keeps s L s' :
  Inv s → worker_label L → step L s = Some s' →
  calls s' = calls s ∧ woken s' = woken s ∧
  ∀ i id, calls s !! i = Some id → i ∉ woken s → abs (world s') !! id = abs (world s) !! id.
Proof.
  intros HI HL H. destruct L as [| | |l| |w|]; try done; unfold step in H.
  - destruct (of_pool l); [|done]. apply bind_Some in H as (q & Hq & H). by simplify_eq.
  - destruct (WorkerPool.workers (pl s) !! w) as [[|i|]|]; try done. destruct (calls s !! i) as [id|] eqn:Ei; [|done].
    destruct (selected i s) as [r0|] eqn:Es; [|done].
    destruct (process _ _ _ _ _ _) as [r w'] eqn:Er. apply bind_Some in H as (q & Hq & H). injection H as <-. simpl.
    split; [done|]. split; [done|]. intros j id' Hj Hn.
    destruct (process_spec S (task_wait r0) (task_ctx s) Now abs wf room (Hidle := task_idle s r0) pr id _ r w' (y_wf _ HI) Er)
      as (_ & _ & Hr).
    destruct (decide (id' = id)) as [->|Hne].
    + assert (j = i) as -> by by eapply (y_inj _ HI). unfold selected in Es. rewrite decide_False in Es by done.
      destruct (ctx_err _ ctx) as [e|]; [|done]. injection Es as <-.
      rewrite (process_interrupted S (task_wait (Some e)) (task_ctx s) pr id (world s) e (world s) eq_refl) in Er. by injection Er as _ <-.
    + assert (abs w' = abs (world s) ∨ settles StatusConfirmed id (abs (world s)) (abs w')) as [->|(o & now & _ & _ & ->)]
        by (destruct r; naive_solver); [done|]. by rewrite lookup_insert_ne.
Qed.

Lemma lift_schedule ls s q :
  Inv s → ended s → Forall WorkerPool.worker_label ls → exec (WorkerPool.step p ctx) ls (pl s) = Some q →
  ∃ Ls s', Forall worker_label Ls ∧ exec step Ls s = Some s' ∧ pl s' = q.
Proof.
  intros HI He Hls. revert s HI He. induction Hls as [|l ls Hl _ IH]; intros s HI He H; simpl in H.
  - simplify_eq. by exists [], s.
  - apply bind_Some in H as (q1 & H1 & H2). destruct (worker_step_lifts s l q1 HI He Hl H1) as (L & s1 & HL & Hs & <- & Hc).
    assert (Inv s1) as HI1 by (eapply system_Inv_step; [exact HI| |exact Hs]; by destruct L).
    destruct (ended_step s L s1 Hs He) as [He1 _].
    destruct (IH s1 HI1 He1 H2) as (Ls & s' & HLs & Hx & Hp). exists (L :: Ls), s'.
    split; [by constructor|]. split; [simpl; by rewrite Hs|done].
Qed.

(** What a run of the workers keeps. *)
Lemma worker_run ls t t' :
  Inv t → WorkerPool.closed (pl t) = true → Forall worker_label ls → exec step ls t = Some t' →
  Inv t' ∧ WorkerPool.closed (pl t') = true ∧ calls t' = calls t ∧ woken t' = woken t ∧
  (∀ i, enqueued t i → enqueued t' i) ∧
  (∀ i id, calls t !! i = Some id → i ∉ woken t → abs (world t') !! id = abs (world t) !! id) ∧
  (length ls + WorkerPool.mu (pl t') ≤ WorkerPool.mu (pl t))%nat.
Proof.
  revert t. induction ls as [|L ls IH]; intros t Ht Hct HL He; simpl in He; [by simplify_eq|].
  apply Forall_cons_1 in HL as [HL HLs]. apply bind_Some in He as (t1 & Ht1 & He).
  destruct (worker_step_pool t L t1 HL Ht1) as (l & Hl & Hp).
  pose proof (WorkerPool.worker_step_mu p ctx _ _ _ Hl Hp).
  destruct (WorkerPool.closed_step p ctx _ _ _ Hct Hp) as (Hc1 & Ha & _).
  destruct (worker_step_keeps t L t1 Ht HL Ht1) as (E1 & E2 & E3).
  assert (Inv t1) as HI1 by (eapply system_Inv_step; [exact Ht| |exact Ht1]; by destruct L).
  destruct (IH t1 HI1 Hc1 HLs He) as (? & ? & Hcalls & Hwok & Hen & Hab & ?). split; [done|]. split; [done|].
  split; [congruence|]. split; [congruence|]. split; [|split; [|simpl; lia]].
  - intros i Hi. apply Hen. apply (WorkerPool.inv_accepted _ _ (y_pool _ HI1)). rewrite Ha.
    by apply (WorkerPool.inv_accepted _ _ (y_pool _ Ht)).
  - intros i id Hi Hn. rewrite (Hab i id) by congruence. by apply (E3 i).
Qed.

(** C27: shutting down interrupts what waits.  Once the pool's channel is closed
    (the context has ended), the workers by themselves come to the end of every
    order whose [Enqueue] had returned nil: a schedule of worker steps has at
    most [mu] of them, there is one that goes on as long as it can, and each
    such schedule ends with all of these orders in the log.  But the tasks get
    the context that has ended: an order whose delay had not passed, every order
    still in the queue among them, comes to [Interrupted] and stays in the store
    as it was; only the others were confirmed, or may be. *)
Theorem shutdown_interrupts_queue s0 s :
  starts s0 → runs s0 s → 0 < WorkerPool.size p → WorkerPool.closed (pl s) = true →
  (∀ i, i ∈ WorkerPool.queue (pl s) → i ∉ woken s) ∧
  (∀ ls s', Forall worker_label ls → exec step ls s = Some s' → (length ls ≤ WorkerPool.mu (pl s))%nat) ∧
  (∀ ls s', Forall worker_label ls → exec step ls s = Some s' → (∀ L, worker_label L → step L s' = None) →
     ∀ i id, calls s !! i = Some id → enqueued s i →
       id ∈ (log s').*1 ∧
       (i ∉ woken s → (id, Interrupted) ∈ log s' ∧ abs (world s') !! id = abs (world s) !! id)) ∧
  ∃ ls s', Forall worker_label ls ∧ exec step ls s = Some s' ∧ (∀ L, worker_label L → step L s' = None).
Proof.
  intros H0 Hr Hs Hc. pose proof (system_inv s0 s H0 Hr) as HI. pose proof (y_closed _ HI Hc) as Hend.
  split; [intros i; by apply queue_not_woken|]. split; [|split].
  - intros ls s' HL He. destruct (worker_run ls s s' HI Hc HL He) as (_ & _ & _ & _ & _ & _ & ?). lia.
  - intros ls s' HL He Hstuck i id Hi Hen.
    destruct (worker_run ls s s' HI Hc HL He) as (HI' & Hc' & Hcalls & Hwok & Hen' & Hab & _).
    assert (id ∈ (log s').*1) as Hlog.
    { apply (drained_processed s' HI' Hs Hc') with (i := i); [|by rewrite Hcalls|by apply Hen'].
      destruct (WorkerPool.wg_done (WorkerPool.workers (pl s'))) eqn:Ew; [done|].
      destruct (WorkerPool.closed_worker_enabled p ctx (pl s') Hc' Ew) as (l & q & Hl & Hq).
      destruct (worker_step_lifts s' l q HI' (y_closed _ HI' Hc') Hl Hq) as (L & s2 & HL2 & Hs2 & _).
      by rewrite (Hstuck L HL2) in Hs2. }
    split; [done|]. intros Hn. split; [|by apply (Hab i)].
    apply list_elem_of_fmap in Hlog as ([id' r] & -> & Hin). simpl in *.
    rewrite <-Hcalls in Hi. rewrite <-Hwok in Hn. by rewrite (proj1 (y_unwoken _ HI' i id' Hi Hn) r Hin) in Hin.
  - destruct (WorkerPool.closed_drains p ctx (pl s) Hc) as (ls & q & Hls & He & Hw).
    destruct (lift_schedule ls s q HI Hend Hls He) as (Ls & s' & HLs & HeL & <-). exists Ls, s'.
    split; [done|]. split; [done|]. intros L HL. destruct (step L s') as [s2|] eqn:E; [|done]. exfalso.
    destruct (worker_step_pool s' L s2 HL E) as (l & Hl & Hp).
    destruct l as [| | | |w|w i|w|w| | | | | | | | |]; try done; simpl in Hp;
      destruct (WorkerPool.workers (pl s') !! w) eqn:Ew; try done;
      rewrite (WorkerPool.wg_done_lookup _ _ _ Hw Ew) in Hp; done.
Qed.

(** Labels that create nothing need nothing. *)
Lemma runs_exec s0 ls s s' :
  runs s0 s → forallb (λ l, match l with LCreate _ _ _ => false | _ => true end) ls = true → exec step ls s = Some s' →
  runs s0 s'.
Proof.
  revert s. induction ls as [|l ls IH]; intros s Hr Hl H; simpl in *; [by simplify_eq|].
  apply andb_true_iff in Hl as [Hl Hls]. apply bind_Some in H as (s1 & H1 & H2).
  apply (IH s1); [|done..]. eapply runs_step; [exact Hr| |exact H1]. by destruct l.
Qed.

(** After a first step that is sound. *)
Lemma runs_from L ls s0 s' :
  sound L s0 → forallb (λ l, match l with LCreate _ _ _ => false | _ => true end) ls = true →
  exec step (L :: ls) s0 = Some s' → runs s0 s'.
Proof.
  intros HL Hls H. cbn [exec] in H. apply bind_Some in H as (s1 & H1 & H2).
  apply (runs_exec s0 ls s1); [|done..]. eapply runs_step; [apply runs_here|exact HL|exact H1].
Qed.
End system.

(** ** One order, from its request to the end of the pool *)
Definition yex_pool : WorkerPool.Pool := WorkerPool.mkPool 1 1 true.
Definition yex_ctx : context := WithCancel Background 1.
Definition yex_start : @state InMemoryStore := mkSystem NewInMemoryStore WorkerPool.init ∅ pex_job [] ∅.
Definition yex_step := step pex_store (now pex_clock) pex_processor yex_pool yex_ctx.
Definition yex_create : label := LCreate "alice" [mkItem "WIDGET" 2] 0.
Definition yex_queued : list label :=
  [LPool WorkerPool.LStart; LPool WorkerPool.LSpawn; LEnqueue 0 Background; LPool (WorkerPool.LSend 0); LSweep].
Definition yex_stop : list label := [LPool (WorkerPool.LCancel yex_ctx Canceled); LPool WorkerPool.LClose].
(** The order is confirmed, then the service stops; and it stops first. *)
Definition yex_confirmed : list label :=
  yex_queued ++ [LPool (WorkerPool.LReceive 0); LDelay 0; LTask 0] ++ yex_stop ++ [LPool (WorkerPool.LExit 0); LPool WorkerPool.LReturn].
Definition yex_begin : list label := yex_queued ++ yex_stop.
Definition yex_work : list label := [LPool (WorkerPool.LReceive 0); LTask 0; LPool (WorkerPool.LExit 0)].
Definition yex_state (ls : list label) : state := default yex_start (exec yex_step (yex_create :: ls) yex_start).

Lemma yex_starts : starts orders mem_wf mem_room yex_start.
Proof. split; [exact new_mem_wf|]. do 4 (split; [done|]). exact pex_gate. Qed.

Lemma yex_quiet : quiet_clock (now pex_clock) orders mem_wf mem_room.
Proof. exact (idle_now pex_wait pex_ctx _ _ _ _ (idle := pex_idle)). Qed.

Lemma yex_runs ls :
  forallb (λ l, match l with LCreate _ _ _ => false | _ => true end) ls = true →
  exec yex_step (yex_create :: ls) yex_start = Some (yex_state ls) →
  runs pex_store (now pex_clock) pex_processor yex_pool yex_ctx mem_room yex_start (yex_state ls).
Proof.
  intros Hl H. eapply runs_from; [|exact Hl|exact H]. split; [by repeat constructor|done].
Qed.

Lemma orders_processed_once_witness :
  log (yex_state yex_confirmed) = [("ord_1", Confirmed_)] ∧
  NoDup ["ord_1"] ∧ has_status (.= StatusConfirmed) (orders (world (yex_state yex_confirmed))) "ord_1".
Proof.
  destruct (orders_processed_once pex_store (now pex_clock) pex_processor yex_pool yex_ctx orders mem_wf mem_room
    (HS := pex_contract) (Hclock := yex_quiet) ltac:(done) yex_start _ yex_starts
    (yex_runs yex_confirmed eq_refl ltac:(vm_compute; reflexivity))) as (H1 & _ & H2 & _).
  split; [vm_compute; reflexivity|]. split; [exact H1|]. apply H2. by left.
Defined.

Lemma no_order_lost_witness :
  0%nat ∈ WorkerPool.queue (pl (yex_state yex_begin)) ∧
  ((∀ c, WorkerPool.submits (pl (yex_state yex_begin)) !! 0%nat ≠ Some (c, WorkerPool.SubmitReturned None)) ∨
   0%nat ∈ WorkerPool.queue (pl (yex_state yex_begin)) ∨
   0%nat ∈ WorkerPool.running (WorkerPool.workers (pl (yex_state yex_begin))) ∨
   ("ord_1", Interrupted) ∈ log (yex_state yex_begin) ∨ ∃ e, ("ord_1", ProcessFailed e) ∈ log (yex_state yex_begin)).
Proof.
  split; [vm_compute; left|].
  apply (no_order_lost pex_store (now pex_clock) pex_processor yex_pool yex_ctx orders mem_wf mem_room
    (HS := pex_contract) (Hclock := yex_quiet) ltac:(done) yex_start _ 0%nat "ord_1" yex_starts
    (yex_runs yex_begin eq_refl ltac:(vm_compute; reflexivity))); [vm_compute; reflexivity|].
  eexists. split; vm_compute; reflexivity.
Defined.

(** The order waits in the queue when the service stops: the pool drains, the order
    is interrupted and still PENDING. *)
Lemma yex_stuck L : worker_label L → yex_step L (yex_state (yex_begin ++ yex_work)) = None.
Proof.
  remember (yex_state (yex_begin ++ yex_work)) as s eqn:Es.
  assert (WorkerPool.workers (pl s) = [WorkerPool.Exited]) as Hw by (rewrite Es; vm_compute; reflexivity).
  clear Es. destruct L as [| | |l| |w|]; try done.
  - destruct l as [| | | |w| | |w| | | | | | | | |]; try done; intros _; unfold yex_step, step; simpl; rewrite Hw;
      by destruct w.
  - intros _. unfold yex_step, step. rewrite Hw. by destruct w.
Qed.

Lemma shutdown_interrupts_queue_witness :
  exec yex_step yex_work (yex_state yex_begin) = Some (yex_state (yex_begin ++ yex_work)) ∧
  (3 ≤ WorkerPool.mu (pl (yex_state yex_begin)))%nat ∧
  ("ord_1", Interrupted) ∈ log (yex_state (yex_begin ++ yex_work)) ∧
  orders (world (yex_state (yex_begin ++ yex_work))) !! "ord_1" = orders (world (yex_state yex_begin)) !! "ord_1" ∧
  has_status (.= StatusPending) (orders (world (yex_state yex_begin))) "ord_1".
Proof.
  assert (exec yex_step yex_work (yex_state yex_begin) = Some (yex_state (yex_begin ++ yex_work))) as H
    by (vm_compute; reflexivity).
  split; [exact H|].
  destruct (shutdown_interrupts_queue pex_store (now pex_clock) pex_processor yex_pool yex_ctx orders mem_wf mem_room
    (HS := pex_contract) (Hclock := yex_quiet) ltac:(done) yex_start _ yex_starts
    (yex_runs yex_begin eq_refl ltac:(vm_compute; reflexivity)) eq_refl ltac:(vm_compute; reflexivity)) as (Hq & Hb & Ha & _).
  split; [apply (Hb yex_work _ ltac:(by repeat constructor) H)|].
  assert (0%nat ∈ WorkerPool.queue (pl (yex_state yex_begin))) as Hin by (vm_compute; left).
  destruct (Ha yex_work _ ltac:(by repeat constructor) H yex_stuck 0%nat "ord_1" ltac:(vm_compute; reflexivity)) as (_ & Hi).
  - exists Background. vm_compute. reflexivity.
  - destruct (Hi (Hq _ Hin)) as [H1 H2]. split; [exact H1|]. split; [exact H2|].
    eexists. split; vm_compute; reflexivity.
Defined.
