(* ===== verification/App.v ===== *)
(** * cmd/orders-service: the service under its entrypoint

    main runs the orders service (System.v) under core/entrypoint (Entrypoint.v):
    the worker pool is one of the services, started with the context the
    entrypoint cancels and stopped with the one it bounds.  [step] is the machine
    of both: the pool's [Start] runs while its starter does, which ends when
    [Start] has returned nil; its [Stop] is called by its stopper; and the pool
    sees the contexts the entrypoint ended.  The lemmas say what a graceful
    shutdown does to the orders, those that were waiting included. *)
From S2P Require Import Prelude GoContext Orders Processing Entrypoint System.
From S2P Require WorkerPool.

Section app.
Context {W : Type} (S : Store W) (Now : io W Z) (pr : OrderProcessor) (p : WorkerPool.Pool).
Context (e : Entrypoint) (ctx : context) (svc_id stop_id shutdown_id : positive).
(** The pool among the services, and among those with a [Stop]. *)
Context (k ks : nat).

Record state : Type := mkApp { ep : Entrypoint.state; sys : @System.state W }.

Inductive label : Type := LEp (l : Entrypoint.label) | LSys (l : System.label).

Definition pool_ctx : context := svcCtx ctx svc_id.
Definition ep_step := Entrypoint.step e ctx svc_id stop_id shutdown_id.
Definition sys_step := System.step S Now pr p pool_ctx.

Definition pool_returned (s : state) : bool :=
  match WorkerPool.at_ (pl (sys s)) with WorkerPool.Returned => true | _ => false end.

(** What the pool lets the entrypoint see. *)
Definition ep_allowed (l : Entrypoint.label) (s : state) : bool :=
  match l with
  | LStartReturns j err => if decide (j = k) then bool_decide (err = None) && pool_returned s else true
  | LStopReturns j =>
      if decide (j = ks) then
        match WorkerPool.stops (pl (sys s)) !! 0%nat with Some (_, WorkerPool.StopReturned _) => true | _ => false end
      else true
  | _ => true
  end.

(** And the entrypoint the pool. *)
Definition sys_allowed (l : System.label) (s : state) : bool :=
  match l with
  | LPool WorkerPool.LStart => bool_decide (starters (ep s) !! k = Some InStart)
  | LPool (WorkerPool.LCancel c er) => bool_decide (ctx_err (Entrypoint.σ (ep s)) c = Some er)
  | LPool (WorkerPool.LStop j c) =>
      bool_decide (j = 0%nat ∧ c = stopCtx e ctx stop_id) && bool_decide (stoppers (ep s) !! ks = Some InStop)
  | _ => true
  end.

Definition step (l : label) (s : state) : option state :=
  match l with
  | LEp l => if ep_allowed l s then q ← ep_step l (ep s); Some (mkApp q (sys s)) else None
  | LSys l => if sys_allowed l s then q ← sys_step l (sys s); Some (mkApp (ep s) q) else None
  end.

Context (abs : W → gmap string Order) (wf room : W → Prop).
Context {answers : string → gmap string Order → res Order → Prop} {grain : Z → Z}
  `{HS : !store_for answers grain S abs wf room} `{Hclock : !quiet_clock Now abs wf room}.
Context (cap_nonneg : 0 ≤ WorkerPool.tasks_cap p).

(** The states of a run. *)
Inductive app_runs (s0 : state) : state → Prop :=
  | app_here : app_runs s0 s0
  | app_step s l s' :
      app_runs s0 s → match l with LSys l => sound room l (sys s) | LEp _ => True end → step l s = Some s' → app_runs s0 s'.

(** [Run] has not been called, the service has not started. *)
Definition boots (σ0 : GoContext.cancels) (s : state) : Prop :=
  ep s = Entrypoint.init σ0 ∧ starts abs wf room (sys s) ∧ fresh_contexts e ctx stop_id shutdown_id σ0.

Lemma app_projects s0 s :
  app_runs s0 s →
  reach ep_step (ep s0) (ep s) ∧ runs S Now pr p pool_ctx room (sys s0) (sys s).
Proof.
  induction 1 as [|s l s' _ [IH1 IH2] Hl Hs]; [split; [apply reach_refl|constructor]|].
  destruct l as [l|l]; cbn [step] in Hs; (destruct (_ l s); [|done]); apply bind_Some in Hs as (q & Hq & [= <-]); simpl.
  - split; [by eapply reach_snoc|done].
  - split; [done|by eapply runs_step].
Qed.

(** ** The entrypoint's side: a shutdown within its time leaves nothing running *)
Definition stop_fired (s : Entrypoint.state) : option goerr := fired (Entrypoint.σ s) (stopCtx e ctx stop_id).
Definition all_launched (s : Entrypoint.state) : Prop := length (starters s) = length (services e).

Definition ep_ok (s : Entrypoint.state) : Prop :=
  match Entrypoint.at_ s with
  | PostStop _ _ => stop_fired s = None → all_done s = true
  | Done _ => stop_fired s = Some Canceled → all_launched s ∧ all_done s = true
  | _ => True
  end.

Lemma all_done_service l s s' :
  service_step e ctx svc_id l s = Some s' → all_done s = true → False.
Proof.
  intros H Hd. unfold all_done in Hd. apply andb_true_iff in Hd as [H1 H2].
  rewrite forallb_forall in H1, H2. setoid_rewrite <-list_elem_of_In in H1. setoid_rewrite <-list_elem_of_In in H2.
  destruct l as [| | | | | | | | | |j|j err|j|j|j| | | |]; try done; simpl in H.
  - destruct (starters s !! j) as [x|] eqn:E; [|done]. apply list_elem_of_lookup_2, H1, bool_decide_eq_true in E. by subst.
  - destruct (starters s !! j) as [x|] eqn:E; [|done]. apply list_elem_of_lookup_2, H1, bool_decide_eq_true in E. by subst.
  - destruct (starters s !! j) as [x|] eqn:E; [|done]. apply list_elem_of_lookup_2, H1, bool_decide_eq_true in E. by subst.
  - destruct (stoppers s !! j) as [x|] eqn:E; [|done]. apply list_elem_of_lookup_2, H2, bool_decide_eq_true in E. by subst.
  - destruct (stoppers s !! j) as [x|] eqn:E; [|done]. apply list_elem_of_lookup_2, H2, bool_decide_eq_true in E. by subst.
Qed.

Context (ids_distinct : svc_id ≠ shutdown_id).

Lemma stop_fire_other c er s : c ≠ stopCtx e ctx stop_id → fired (fire c er s) (stopCtx e ctx stop_id) = fired s (stopCtx e ctx stop_id).
Proof. apply fired_fire_other. Qed.

Lemma stop_fire_same er s : is_Some (fired s (stopCtx e ctx stop_id)) → fire (stopCtx e ctx stop_id) er s = s.
Proof.
  intros [x Hx]. unfold fire. rewrite bool_decide_eq_false_2; [by rewrite andb_false_r|].
  unfold stopCtx. rewrite detached_err. unfold stopCtx in Hx. by rewrite Hx.
Qed.

Lemma service_or_env l s s' :
  is_run_label l = false → ep_step l s = Some s' →
  (service_step e ctx svc_id l s = Some s' ∧ stop_fired s' = stop_fired s) ∨
  (starters s' = starters s ∧ stoppers s' = stoppers s ∧
   (stop_fired s' = None → stop_fired s = None) ∧ (stop_fired s' = Some Canceled → stop_fired s = Some Canceled)).
Proof.
  intros Hl H. destruct l as [| | | | | | | | | |j|j err|j|j|j|g| | |c er]; try done; unfold ep_step in H; simpl in H;
    unfold stop_fired.
  - left. split; [done|]. by step_inv H.
  - left. split; [done|]. by step_inv H.
  - left. split; [done|]. by step_inv H.
  - left. split; [done|]. by step_inv H.
  - left. split; [done|]. by step_inv H.
  - right. by step_inv H.
  - right. simplify_eq/=. rewrite stop_fire_other by done. done.
  - right. step_inv H. split; [done|]. split; [done|].
    destruct (fired (Entrypoint.σ s) (stopCtx e ctx stop_id)) as [x|] eqn:E; [by rewrite stop_fire_same, E|].
    unfold fire. unfold stopCtx in E |- *. rewrite bool_decide_eq_true_2 by (by rewrite detached_err).
    cbn [cancellable detached andb]. rewrite fired_cons, decide_True by done. done.
  - right. case_bool_decide as Hc; simplify_eq/=. rewrite stop_fire_other; [done|]. set_solver.
Qed.

Lemma ep_ok_step l s s' :
  Entrypoint.Inv e ctx svc_id stop_id shutdown_id s → ep_ok s → ep_step l s = Some s' → ep_ok s'.
Proof.
  intros HI Hok H. destruct (is_run_label l) eqn:El.
  - assert (run_step e ctx svc_id stop_id shutdown_id l s = Some s') as Hr by (by destruct l). clear H.
    pose proof (inv_hist _ _ _ _ _ _ HI) as Hh. pose proof (inv_stop _ _ _ _ _ _ HI) as Hs.
    unfold ep_ok, stop_fired, all_launched, hist_inv in *. unfold run_step in Hr.
    destruct (Entrypoint.at_ s) as [|todo|todo|todo| |c todo|c todo|c|c todo|r] eqn:Eat; destruct l; try done;
      try (destruct todo as [|x todo]; try done); try (destruct err as [er|]); simpl in *; step_inv Hr; try done.
    + intros Hc. destruct (Hs eq_refl) as [Hn|[? _]]; [congruence|done].
    + rewrite stop_fire_other by done. intros Hc. destruct (Hs eq_refl) as [Hn|[? _]]; [congruence|done].
    + intros Hn. unfold stopCtx, detached in Hn. rewrite Hn in Heqb. done.
    + intros Hc. destruct (Hs eq_refl) as [Hn|[_ Hn]]; [split; [apply Hh|by apply Hok]|].
      rewrite stop_fire_same in Hc by (by rewrite Hn). by simplify_eq.
  - pose proof (other_step_pc e ctx svc_id stop_id shutdown_id ids_distinct l s s' H El) as Hat.
    unfold ep_ok, all_launched in *. rewrite Hat.
    destruct (Entrypoint.at_ s) as [| | | | | | | |c todo|r] eqn:Eat; try done.
    + intros Hn. destruct (service_or_env l s s' El H) as [[Hs Hf]|(Hst & Hsp & Hf)].
      * exfalso. eapply all_done_service; [exact Hs|]. apply Hok. by rewrite <-Hf.
      * unfold all_done in *. rewrite Hst, Hsp. apply Hok. by apply Hf.
    + intros Hn. destruct (service_or_env l s s' El H) as [[Hs Hf]|(Hst & Hsp & Hf)].
      * exfalso. eapply all_done_service; [exact Hs|]. apply Hok. by rewrite <-Hf.
      * unfold all_done in *. rewrite Hst, Hsp. apply Hok. by apply Hf.
Qed.

(** ** Both sides *)
Record Inv (s : state) : Prop := mkInv {
  a_ep : Entrypoint.Inv e ctx svc_id stop_id shutdown_id (ep s);
  a_ok : ep_ok (ep s);
  a_sys : System.Inv p pool_ctx abs wf room (sys s);
  a_done : starters (ep s) !! k = Some StartDone → WorkerPool.at_ (pl (sys s)) = WorkerPool.Returned;
  a_sending er : starters (ep s) !! k ≠ Some (Sending er);
}.

Lemma sys_step_pool l s s' :
  sys_step l s = Some s' → pl s' = pl s ∨ ∃ l, WorkerPool.step p pool_ctx l (pl s) = Some (pl s').
Proof.
  intros H. destruct l as [customer items i|cl|i c|l|i|w|]; unfold sys_step, System.step in H.
  - destruct (calls s !! i); [done|]. destruct (Create S customer items (world s)). injection H as <-. by left.
  - destruct (reads_only cl); [|done]. injection H as <-. by left.
  - destruct (calls s !! i); [|done]. apply bind_Some in H as (q & Hq & [= <-]). right. by exists (WorkerPool.LSubmit i c).
  - destruct (of_pool l); [|done]. apply bind_Some in H as (q & Hq & [= <-]). right. by exists l.
  - destruct (delay_passes _ _ _ _); [|done]. injection H as <-. by left.
  - destruct (WorkerPool.workers (pl s) !! w) as [[|i|]|]; try done. destruct (calls s !! i); [|done].
    destruct (selected _ _ _); [|done]. destruct (process _ _ _ _ _ _) as [r w']. apply bind_Some in H as (q & Hq & [= <-]). right. by exists (WorkerPool.LTaskDone w).
  - destruct (run _ _ _ _ _) as [[j err] w]. injection H as <-. by left.
Qed.

Lemma launched_lookup (l : list starter) x : (l ++ [ToStart]) !! k = Some x → l !! k = Some x ∨ x = ToStart.
Proof. rewrite lookup_app_Some. intros [?|[_ H]]; [by left|right]. by apply list_lookup_singleton_Some in H as [_ <-]. Qed.

(** The pool's starter: launched, or over once its [Start] returned nil. *)
Lemma ep_starter l s q x :
  ep_allowed l s = true → ep_step l (ep s) = Some q → starters q !! k = Some x →
  starters (ep s) !! k = Some x ∨ x = ToStart ∨ x = InStart ∨
  (x = StartDone ∧ (WorkerPool.at_ (pl (sys s)) = WorkerPool.Returned ∨ ∃ er, starters (ep s) !! k = Some (Sending er))).
Proof.
  intros Ha H Hx. destruct (is_run_label l) eqn:El.
  - assert (run_step e ctx svc_id stop_id shutdown_id l (ep s) = Some q) as Hr by (by destruct l). clear H Ha.
    assert (starters q = starters (ep s) ∨ starters q = starters (ep s) ++ [ToStart]) as [E|E].
    { unfold run_step in Hr.
      destruct (Entrypoint.at_ (ep s)) as [|todo|todo|todo| |c todo|c todo|c|c todo|r]; destruct l; try done;
        try (destruct todo as [|y todo]; try done); try (destruct err as [er|]); simpl in Hr; step_inv Hr; auto. }
    + rewrite E in Hx. by left.
    + rewrite E in Hx. apply launched_lookup in Hx as [?|?]; auto.
  - destruct l as [| | | | | | | | | |j|j err|j|j|j|g| | |c er]; try done; unfold ep_step in H; simpl in H.
    + destruct (starters (ep s) !! j) as [[]|] eqn:Ej; try done. step_inv H.
      apply list_lookup_insert_Some in Hx as [(-> & <- & _)|[_ Hx]]; auto.
    + destruct (starters (ep s) !! j) as [[]|] eqn:Ej; try done.
      assert (∃ y, starters q = <[j := y]> (starters (ep s)) ∧ (err = None → y = StartDone)) as (y & E & Hy).
      { step_inv H; eexists; (split; [reflexivity|]); done. }
      rewrite E in Hx. apply list_lookup_insert_Some in Hx as [(-> & -> & _)|[_ Hx]]; [|by left].
      cbn [ep_allowed] in Ha. rewrite decide_True in Ha by done. apply andb_true_iff in Ha as [Hn Hat].
      apply bool_decide_eq_true in Hn. rewrite Hy by done. right. right. right. split; [done|left].
      unfold pool_returned in Hat. by destruct (WorkerPool.at_ _).
    + destruct (starters (ep s) !! j) as [[| |er|]|] eqn:Ej; try done. step_inv H.
      apply list_lookup_insert_Some in Hx as [(-> & <- & _)|[_ Hx]]; [|by left]. right. right. right. eauto.
    + left. by step_inv H.
    + left. by step_inv H.
    + left. by step_inv H.
    + left. by simplify_eq/=.
    + left. by step_inv H.
    + left. by step_inv H.
Qed.

Lemma app_Inv_step l s s' :
  Inv s → match l with LSys l => sound room l (sys s) | LEp _ => True end → step l s = Some s' → Inv s'.
Proof.
  intros [H1 H2 H3 H4 H5] Hl Hs. destruct l as [l|l]; cbn [step] in Hs; (destruct (_ l s) eqn:Ha; [|done]);
    apply bind_Some in Hs as (q & Hq & [= <-]).
  - constructor; simpl; [|by eapply ep_ok_step|done| |].
    + by eapply (entrypoint_step_inv e ctx svc_id stop_id shutdown_id ids_distinct).
    + intros Hx. destruct (ep_starter l s q _ Ha Hq Hx) as [?|[?|[?|[_ [?|[er ?]]]]]]; [auto|done|done|done|by destruct (H5 er)].
    + intros er Hx. destruct (ep_starter l s q _ Ha Hq Hx) as [?|[?|[?|[? _]]]]; [by destruct (H5 er)|done|done|done].
  - constructor; simpl; [done|done| | |done].
    + by eapply system_Inv_step.
    + intros Hx. specialize (H4 Hx). destruct (sys_step_pool l (sys s) q Hq) as [->|[l' Hl']]; [done|].
      by apply (WorkerPool.pool_monotone p pool_ctx _ _ _ Hl').
Qed.

Lemma app_inv σ0 s0 s : boots σ0 s0 → app_runs s0 s → Inv s.
Proof.
  intros (He & Hst & Hf). induction 1 as [|s l s' _ IH Hl Hs]; [|by eapply app_Inv_step].
  constructor; rewrite ?He; try done.
  - by apply (entrypoint_Inv_init e ctx svc_id stop_id shutdown_id).
  - by apply system_Inv_start.
Qed.

(** [Run] returned after a complete stop phase that ended before the shutdown
    timeout: its own [stopCancel], not the deadline, ended that phase's context. *)
Definition stopped_in_time (s : state) : Prop :=
  (∃ err, Entrypoint.at_ (ep s) = Done err) ∧ stop_fired (ep s) = Some Canceled.

Lemma shutdown_drains σ0 s0 s :
  boots σ0 s0 → app_runs s0 s →
  0 < WorkerPool.size p → WorkerPool.drainOnStop p = true → (k < length (services e))%nat →
  stopped_in_time s →
  all_done (ep s) = true ∧ WorkerPool.at_ (pl (sys s)) = WorkerPool.Returned ∧
  WorkerPool.queue (pl (sys s)) = [] ∧ NoDup (log (sys s)).*1 ∧
  ∀ i id, calls (sys s) !! i = Some id → enqueued (sys s) i → id ∈ (log (sys s)).*1.
Proof.
  intros Hb Hr Hsize Hdrain Hk [[err Hat] Hstop]. destruct (app_inv σ0 s0 s Hb Hr) as [H1 H2 H3 H4 H5].
  unfold ep_ok in H2. rewrite Hat in H2. destruct (H2 Hstop) as [Hlen Hd]. split; [done|].
  assert (WorkerPool.at_ (pl (sys s)) = WorkerPool.Returned) as Hret.
  { apply H4. unfold all_done in Hd. apply andb_true_iff in Hd as [Hd _]. rewrite forallb_forall in Hd.
    destruct (starters (ep s) !! k) as [x|] eqn:E.
    - f_equal. apply list_elem_of_lookup_2, list_elem_of_In, Hd, bool_decide_eq_true in E. done.
    - apply lookup_ge_None in E. unfold all_launched in Hlen. lia. }
  pose proof (WorkerPool.inv_phase _ _ (y_pool _ _ _ _ _ _ H3)) as Hph. unfold WorkerPool.phase_ok in Hph.
  rewrite Hret in Hph. destruct Hph as (_ & Hc & Hw). specialize (Hw Hdrain).
  split; [done|]. split.
  - destruct (WorkerPool.wg_done_all_finished p (pl (sys s)) Hsize (y_pool _ _ _ _ _ _ H3) Hw) as (_ & ? & _); [|done].
    by rewrite Hret.
  - split; [by eapply log_nodup|]. by eapply drained_processed.
Qed.

Lemma app_runs_trans s0 s1 s : app_runs s0 s1 → app_runs s1 s → app_runs s0 s.
Proof. intros H. induction 1 as [|s l s' _ IH Hl Hs]; [done|by eapply app_step]. Qed.

(** What the tasks came to, when the pool saw the services' context end in [s1]. *)
Lemma shutdown_outcomes σ0 s0 s1 s :
  boots σ0 s0 → app_runs s0 s1 → System.ended pool_ctx (sys s1) → app_runs s1 s →
  0 < WorkerPool.size p → WorkerPool.drainOnStop p = true → 0 < processDelay pr → (k < length (services e))%nat →
  stopped_in_time s →
  (∀ i, i ∈ WorkerPool.queue (pl (sys s1)) → i ∉ woken (sys s1)) ∧
  ∀ i id, calls (sys s) !! i = Some id → enqueued (sys s) i →
    ∃ r, (id, r) ∈ log (sys s) ∧ (r = Confirmed_ → has_status (.= StatusConfirmed) (abs (world (sys s))) id) ∧
      (i ∉ woken (sys s1) → r = Interrupted ∧ ¬ has_status (.= StatusConfirmed) (abs (world (sys s))) id).
Proof.
  intros Hb Hr1 He Hr2 Hsize Hdrain Hd Hk Hs. pose proof (app_runs_trans s0 s1 s Hr1 Hr2) as Hr.
  pose proof (a_sys _ (app_inv σ0 s0 s Hb Hr)) as HI. pose proof (a_sys _ (app_inv σ0 s0 s1 Hb Hr1)) as HI1.
  destruct (shutdown_drains σ0 s0 s Hb Hr Hsize Hdrain Hk Hs) as (_ & _ & _ & _ & Hall).
  destruct (app_projects s1 s Hr2) as [_ Hr2'].
  assert (woken (sys s) = woken (sys s1)) as Hw by by apply (ended_runs S Now pr p pool_ctx room _ _ Hr2' He).
  split; [intros i; by eapply queue_not_woken|]. intros i id Hi Hen.
  destruct (proj1 (list_elem_of_fmap _ _ _) (Hall i id Hi Hen)) as ([id' r] & -> & Hin). simpl in *. exists r. split; [done|].
  split; [intros ->; by eapply y_confirmed|]. rewrite <-Hw. intros Hn.
  destruct (y_unwoken _ _ _ _ _ _ HI i id' Hi Hn) as [Hlog ?]. split; [by apply Hlog|done].
Qed.

Definition creates_nothing (l : label) : bool := match l with LSys (LCreate _ _ _) => false | _ => true end.

Lemma app_runs_exec s0 ls s s' :
  app_runs s0 s → forallb creates_nothing ls = true → exec step ls s = Some s' → app_runs s0 s'.
Proof.
  revert s. induction ls as [|l ls IH]; intros s Hr Hl H; cbn [exec forallb] in *; [by simplify_eq|].
  apply andb_true_iff in Hl as [Hl Hls]. apply bind_Some in H as (s1 & H1 & H2).
  apply (IH s1); [|done..]. eapply app_step; [exact Hr| |exact H1]. by destruct l as [|[]].
Qed.

Lemma app_runs_create s0 ls customer items i ls' s s' :
  forallb creates_nothing ls = true → exec step ls s0 = Some s →
  sent_items items → room (world (sys s)) → forallb creates_nothing ls' = true →
  exec step (LSys (LCreate customer items i) :: ls') s = Some s' → app_runs s0 s'.
Proof.
  intros H1 H2 H3 H4 H5 H6. cbn [exec] in H6. apply bind_Some in H6 as (s1 & H6 & H7).
  apply (app_runs_exec s0 ls' s1); [|done..].
  apply (app_step s0 s (LSys (LCreate customer items i)) s1); [|by split|exact H6]. by apply (app_runs_exec s0 ls s0); [constructor|..].
Qed.
End app.
