(* ===== verification/Api.v ===== *)
(** * orders: the HTTP and gRPC adapters

    [HTTPAPI] and [GRPCAPI] over one [Store] and one processor.  A handler does
    its calls on the store, then writes one response: it is an [io] computation
    of a handler in the sense of HttpServer.  [rfc3339] is
    [Format(time.RFC3339)] (it depends on the time zone); the bodies and results
    of gRPC are the generated messages' fields.  Theorems: the two transports do
    the same to the store and answer alike; what a client of POST /orders sees
    and what it leaves in the store; the JSON of requests and responses survives
    the round trip, with its texts made valid UTF-8; the limits on an order hold
    for the numbers that were sent. *)
From S2P Require Import Prelude Utf8 Json JsonText Prom HttpServer HealthServer Orders OrderJson Processing MemoryStore PostgresStore.
From Stdlib Require Import Ascii.

(** ** JSON of requests and responses *)
Record createOrderRequest : Type := mkCreate { req_CustomerID : string; req_Items : list Item }.

(** [CreateOrderItem] has the fields of [Item] under other names, and is converted
    to and from it. *)
Definition citem_json (it : Item) : json := JObj [("sku", JStr (SKU it)); ("quantity", JNum (Quantity it))].

Definition set_citem (k : string) (v : json) (it : Item) : option Item :=
  if same_key k "sku" then s ← decode_str v (SKU it); Some (mkItem s (Quantity it))
  else if same_key k "quantity" then q ← decode_int32 v (Quantity it); Some (mkItem (SKU it) q)
  else Some it.
Definition citem_of_json : json → option Item := decode_struct set_citem (mkItem "" 0).
Definition citems_json (items : list Item) : json := JArr (citem_json <$> items).
Definition citems_of_json : json → option (list Item) := decode_slice citem_of_json.

Definition request_json (r : createOrderRequest) : json :=
  JObj [("customer_id", JStr (req_CustomerID r)); ("items", citems_json (req_Items r))].
Definition set_request (k : string) (v : json) (r : createOrderRequest) : option createOrderRequest :=
  if same_key k "customer_id" then s ← decode_str v (req_CustomerID r); Some (mkCreate s (req_Items r))
  else if same_key k "items" then l ← citems_of_json v; Some (mkCreate (req_CustomerID r) l)
  else Some r.
Definition request_of_json : json → option createOrderRequest := decode_struct set_request (mkCreate "" []).

Record orderResponse : Type := mkResponse {
  resp_ID : string;
  resp_CustomerID : string;
  resp_Status : string;
  resp_Items : list Item;
  resp_CreatedAt : string;
  resp_UpdatedAt : string;
}.

Definition response_json (r : orderResponse) : json :=
  JObj [("id", JStr (resp_ID r)); ("customer_id", JStr (resp_CustomerID r)); ("status", JStr (resp_Status r));
    ("items", citems_json (resp_Items r)); ("created_at", JStr (resp_CreatedAt r));
    ("updated_at", JStr (resp_UpdatedAt r))].

Definition set_response (k : string) (v : json) (r : orderResponse) : option orderResponse :=
  let '(mkResponse i c st l ca ua) := r in
  if same_key k "id" then s ← decode_str v i; Some (mkResponse s c st l ca ua)
  else if same_key k "customer_id" then s ← decode_str v c; Some (mkResponse i s st l ca ua)
  else if same_key k "status" then s ← decode_str v st; Some (mkResponse i c s l ca ua)
  else if same_key k "items" then s ← citems_of_json v; Some (mkResponse i c st s ca ua)
  else if same_key k "created_at" then s ← decode_str v ca; Some (mkResponse i c st l s ua)
  else if same_key k "updated_at" then s ← decode_str v ua; Some (mkResponse i c st l ca s)
  else Some r.
Definition response_of_json : json → option orderResponse :=
  decode_struct set_response (mkResponse "" "" "" [] "" "").

Lemma citems_roundtrip items : int32_items items → citems_of_json (citems_json items) = Some items.
Proof.
  intros H. apply decode_slice_map. intros [sku q] Hin. eapply Forall_forall in H; [|done]. simpl in H.
  unfold citem_of_json, set_citem, decode_int32. simpl. by rewrite H.
Qed.

Arguments citems_of_json : simpl never.
Arguments citems_json : simpl never.

Lemma response_roundtrip r : int32_items (resp_Items r) → response_of_json (response_json r) = Some r.
Proof.
  intros Hi. destruct r as [i c st l ca ua]. simpl in Hi.
  do 3 (eapply decode_members_cons; [reflexivity|]).
  eapply decode_members_cons; [unfold set_response; simpl; by rewrite citems_roundtrip|].
  do 2 (eapply decode_members_cons; [reflexivity|]). reflexivity.
Qed.

(** Through JSON and back: broken UTF-8 is replaced. *)
Definition clean_request (r : createOrderRequest) : createOrderRequest :=
  mkCreate (sanitize (req_CustomerID r)) (clean_item <$> req_Items r).
Definition clean_response (r : orderResponse) : orderResponse :=
  mkResponse (sanitize (resp_ID r)) (sanitize (resp_CustomerID r)) (sanitize (resp_Status r))
    (clean_item <$> resp_Items r) (sanitize (resp_CreatedAt r)) (sanitize (resp_UpdatedAt r)).

Lemma clean_citems_json items : clean (citems_json items) = citems_json (clean_item <$> items).
Proof.
  unfold citems_json. cbn [clean]. f_equal. induction items as [|[sku q] items IH]; [done|].
  rewrite !fmap_cons. f_equal. exact IH.
Qed.

Lemma clean_request_json r : clean (request_json r) = request_json (clean_request r).
Proof.
  unfold request_json. rewrite clean_obj. cbn [map]. unfold clean_member. cbn [fst snd]. rewrite clean_citems_json.
  reflexivity.
Qed.

Lemma clean_response_json r : clean (response_json r) = response_json (clean_response r).
Proof.
  unfold response_json. rewrite clean_obj. cbn [map]. unfold clean_member. cbn [fst snd]. rewrite clean_citems_json.
  reflexivity.
Qed.

Definition valid_request (r : createOrderRequest) : Prop :=
  valid_text (req_CustomerID r) = true ∧ valid_items (req_Items r).
Definition valid_response (r : orderResponse) : Prop :=
  (valid_text (resp_ID r) = true ∧ valid_text (resp_CustomerID r) = true ∧ valid_text (resp_Status r) = true) ∧
  valid_items (resp_Items r) ∧
  (valid_text (resp_CreatedAt r) = true ∧ valid_text (resp_UpdatedAt r) = true).

Lemma clean_request_valid r : valid_request r → clean_request r = r.
Proof. destruct r as [c items]. intros [H1 H2]. unfold clean_request. simpl in *. by rewrite sanitize_id, clean_items_valid. Qed.

Lemma clean_response_valid r : valid_response r → clean_response r = r.
Proof.
  destruct r as [i c st items ca ua]. intros ((H1 & H2 & H3) & H4 & H5 & H6). unfold clean_response. simpl in *.
  by rewrite !sanitize_id, clean_items_valid.
Qed.

(** A decoder never yields a quantity that is not an int32. *)
Lemma citem_typed v it : citem_of_json v = Some it → in_int32 (Quantity it) = true.
Proof.
  apply (decode_struct_keeps (λ it, in_int32 (Quantity it) = true)); [done|]. intros k x [sku q] it' Hq H. unfold set_citem in H. simpl in Hq.
  repeat case_match; simplify_option_eq; try done. by eapply decode_int32_typed.
Qed.

Lemma citems_typed v items : citems_of_json v = Some items → int32_items items.
Proof. apply decode_slice_Forall, citem_typed. Qed.

(** So it fails on the JSON of one that is not. *)
Lemma citem_json_inv it it' : citem_of_json (citem_json it) = Some it' → it' = it.
Proof.
  destruct it as [sku q]. unfold citem_of_json, citem_json, set_citem, decode_int32. simpl.
  destruct (in_int32 q); [by intros [= <-]|done].
Qed.

Lemma citems_exact items :
  citems_of_json (citems_json items) = if decide (int32_items items) then Some items else None.
Proof.
  case_decide as Hi; [by apply citems_roundtrip|]. destruct (citems_of_json _) as [l|] eqn:E; [|done].
  apply citems_typed in E as Ht. apply (decode_slice_inv citem_of_json citem_json) in E as ->; [done|apply citem_json_inv].
Qed.

(** The texts of what is read are valid. *)
Lemma citem_valid v it : clean v = v → citem_of_json v = Some it → valid_text (SKU it) = true.
Proof.
  intros Hv. apply (decode_struct_keeps_clean (λ it, valid_text (SKU it) = true)); [done|done|].
  intros k x [sku q] it' Hx Hq H. unfold set_citem in H. simpl in Hq.
  repeat case_match; simplify_option_eq; try done. by eapply decode_str_valid.
Qed.

Lemma citems_valid v items : clean v = v → citems_of_json v = Some items → valid_items items.
Proof. intros Hv. apply decode_slice_Forall_clean; [done|]. exact citem_valid. Qed.

Lemma request_valid v r : clean v = v → request_of_json v = Some r → valid_request r.
Proof.
  intros Hv. apply (decode_struct_keeps_clean valid_request); [done|by split; [|constructor]|].
  intros k x [c l] r' Hx [H1 H2] H. unfold set_request in H. simpl in H1, H2.
  repeat case_match; simplify_option_eq; try done; split; simpl; try done; [by eapply decode_str_valid|by eapply citems_valid].
Qed.

Lemma response_valid v r : clean v = v → response_of_json v = Some r → valid_response r.
Proof.
  intros Hv. apply (decode_struct_keeps_clean valid_response); [done|by split_and!; try constructor|].
  intros k x [i c st l ca ua] r' Hx ((H1 & H2 & H3) & H4 & H5 & H6) H. unfold set_response in H. simpl in *.
  repeat case_match; simplify_option_eq; try done; unfold valid_response; simpl; split_and!; try done;
    solve [eapply (decode_str_valid x); [| |eassumption]; assumption|by apply (citems_valid x)].
Qed.

Lemma request_typed v r : request_of_json v = Some r → int32_items (req_Items r).
Proof.
  apply (decode_struct_keeps (λ r, int32_items (req_Items r))); [constructor|].
  intros k x [c l] r' Hr H. unfold set_request in H.
  repeat case_match; simplify_option_eq; try done. by eapply citems_typed.
Qed.

Lemma response_typed v r : response_of_json v = Some r → int32_items (resp_Items r).
Proof.
  apply (decode_struct_keeps (λ r, int32_items (resp_Items r))); [constructor|].
  intros k x [i c st l ca ua] r' Hr H. unfold set_response in H.
  repeat case_match; simplify_option_eq; try done. by eapply citems_typed.
Qed.

(** ** REST *)

(** [writeJSON] and [writeError]; [Encode] ends the value with a newline. *)
Definition writeJSON (status : Z) (v : json) : handler :=
  HSetHeader "Content-Type" "application/json"
    (HWriteHeader status (HWrite (print v +:+ newline) (λ _ _, HReturn))).
Definition writeError (status : Z) (message : string) : handler := writeJSON status (JObj [("error", JStr message)]).

Definition maxCreateBodyBytes : Z := 64 * 1024.

(** [Decode] of the body through [MaxBytesReader], which fails when the decoder
    has to read past the limit. *)
Definition decode_body (b : string) : option createOrderRequest :=
  match Decode b with
  | Some (v, last) => if maxCreateBodyBytes <? last then None else request_of_json v
  | None => None
  end.

Definition request_bytes (r : createOrderRequest) : string := print (request_json r).
Definition response_bytes (r : orderResponse) : string := print (response_json r) +:+ newline.
Definition responses_bytes (l : list orderResponse) : string := print (JArr (response_json <$> l)) +:+ newline.

(** [json.Unmarshal] into an [orderResponse] or a slice of them. *)
Definition response_of_bytes (b : string) : option orderResponse := v ← Unmarshal b; response_of_json v.
Definition responses_of_bytes (b : string) : option (list orderResponse) :=
  v ← Unmarshal b; decode_slice response_of_json v.

Lemma Unmarshal_line v : integral v → (depth v ≤ 9)%nat → Unmarshal (print v +:+ newline) = Some (clean v).
Proof. intros Hi Hd. by apply Unmarshal_encoded, depth_small. Qed.

Lemma citems_small items : integral (citems_json items) ∧ (depth (citems_json items) ≤ 2)%nat.
Proof.
  split; [apply integral_arr|apply depth_arr]; apply Forall_fmap, Forall_true; intros [sku q]; simpl; [done|lia].
Qed.

Lemma response_small r : integral (response_json r) ∧ (depth (response_json r) ≤ 3)%nat.
Proof.
  destruct (citems_small (resp_Items r)) as [Hi Hd].
  split; [apply integral_obj|apply (depth_obj _ 2)];
    repeat (apply Forall_cons_2; [cbn [snd]; first [exact Hi|exact Hd|done|simpl; lia]|]); constructor.
Qed.

Lemma request_small r : integral (request_json r) ∧ (depth (request_json r) ≤ 3)%nat.
Proof.
  destruct (citems_small (req_Items r)) as [Hi Hd].
  split; [apply integral_obj|apply (depth_obj _ 2)];
    repeat (apply Forall_cons_2; [cbn [snd]; first [exact Hi|exact Hd|done|simpl; lia]|]); constructor.
Qed.

Lemma request_exact r :
  request_of_json (request_json r) = if decide (int32_items (req_Items r)) then Some r else None.
Proof.
  destruct r as [c items]. pose proof (citems_exact items) as Hi. cbn [req_Items].
  eapply decode_members_cons; [reflexivity|]. cbn [decode_members]. unfold set_request. simpl. rewrite Hi. by case_decide.
Qed.

Lemma int32_clean items : int32_items (clean_item <$> items) ↔ int32_items items.
Proof. unfold int32_items. by rewrite Forall_fmap. Qed.

(** A request as its client encodes it: read when its quantities are int32 and its
    bytes are not too many. *)
Definition fits (r : createOrderRequest) : Prop :=
  int32_items (req_Items r) ∧ Z.of_nat (String.length (request_bytes r)) ≤ maxCreateBodyBytes.

#[export] Instance fits_dec r : Decision (fits r).
Proof. unfold fits. apply _. Defined.

Lemma decode_body_request r :
  decode_body (request_bytes r) = if decide (fits r) then Some (clean_request r) else None.
Proof.
  destruct (request_small r) as [H1 H2]. unfold decode_body.
  pose proof (Decode_print (request_json r) "" H1 (depth_small (request_json r) ltac:(lia)) I) as H. rewrite append_nil in H.
  unfold request_bytes at 1. rewrite H, clean_request_json, request_exact. unfold fits, request_bytes, clean_request in *.
  destruct (_ <? _) eqn:E; to_prop; repeat case_decide; cbn [req_Items] in *; try done; rewrite ?int32_clean in *; naive_solver lia.
Qed.

Lemma response_of_bytes_print r :
  int32_items (resp_Items r) → response_of_bytes (response_bytes r) = Some (clean_response r).
Proof.
  intros Hi. destruct (response_small r) as [H1 H2]. unfold response_of_bytes, response_bytes.
  rewrite (Unmarshal_line (response_json r)) by (done || lia). rewrite clean_response_json.
  by apply response_roundtrip, int32_clean.
Qed.

Lemma responses_of_bytes_print l :
  Forall (λ r, int32_items (resp_Items r)) l → responses_of_bytes (responses_bytes l) = Some (clean_response <$> l).
Proof.
  intros Hi. unfold responses_of_bytes, responses_bytes. rewrite (Unmarshal_line (JArr (response_json <$> l))).
  - assert (clean (JArr (response_json <$> l)) = JArr (response_json <$> (clean_response <$> l))) as ->.
    { cbn [clean]. f_equal. clear Hi. induction l as [|r l IH]; [done|]. rewrite !fmap_cons, <-IH, <-clean_response_json. done. }
    apply decode_slice_map. intros r (r0 & -> & Hr)%list_elem_of_fmap. apply response_roundtrip, int32_clean.
    by eapply Forall_forall in Hi.
  - apply integral_arr, Forall_fmap, Forall_true. intros r. apply response_small.
  - transitivity 4%nat; [|lia]. apply depth_arr, Forall_fmap, Forall_true. intros r. apply response_small.
Qed.

Lemma decode_body_sent b r : decode_body b = Some r → int32_items (req_Items r) ∧ valid_request r.
Proof.
  unfold decode_body. destruct (Decode b) as [[v last]|] eqn:E; [|done]. destruct (_ <? _); [done|]. intros H.
  apply Decode_valid in E. split; [by eapply request_typed|by eapply request_valid].
Qed.

Lemma decode_body_items b r : decode_body b = Some r → sent_items (req_Items r).
Proof. intros [H1 [_ H2]]%decode_body_sent. by apply Forall_and. Qed.

(** C23: the wire format.  The bytes a client encodes as a create request decode
    at the API to that request, its texts made valid UTF-8, exactly when its
    quantities are int32 and the bytes fit the body limit, and to nothing
    otherwise; the bytes the API encodes as one order or a list of them decode at
    the client to those, in the same sense.  Whatever bytes decode at all give
    valid texts, and valid texts go through unchanged: only the first hop of a
    broken text alters it. *)
Theorem wire_roundtrip :
  (∀ r, decode_body (request_bytes r) = if decide (fits r) then Some (clean_request r) else None) ∧
  (∀ r, int32_items (resp_Items r) → response_of_bytes (response_bytes r) = Some (clean_response r)) ∧
  (∀ l, Forall (λ r, int32_items (resp_Items r)) l →
     responses_of_bytes (responses_bytes l) = Some (clean_response <$> l)) ∧
  (∀ b r, decode_body b = Some r → valid_request r) ∧
  (∀ b r, response_of_bytes b = Some r → valid_response r) ∧
  (∀ r, valid_request r → clean_request r = r) ∧
  (∀ r, valid_response r → clean_response r = r).
Proof.
  split; [exact decode_body_request|]. split; [exact response_of_bytes_print|]. split; [exact responses_of_bytes_print|].
  split; [intros b r H; by apply decode_body_sent in H as [_ ?]|].
  split; [|split; [exact clean_request_valid|exact clean_response_valid]].
  intros b r. unfold response_of_bytes. intros (v & Hv%Unmarshal_valid & H)%bind_Some. by eapply response_valid.
Qed.

(** A customer with a broken byte, as a form may send one, and a line separator. *)
Lemma wire_roundtrip_witness :
  let r := mkResponse "ord_1" (String (byte 255) line_separator) "PENDING" [mkItem "WIDGET" 2] "now" "now" in
  response_of_bytes (response_bytes r) =
    Some (mkResponse "ord_1" (replacement_text +:+ line_separator) "PENDING" [mkItem "WIDGET" 2] "now" "now") ∧
  decode_body (print (JObj [("Customer_ID", JStr "bob"); ("items", JArr [JObj [("quantity", JNum (2 ^ 31))]])])) = None.
Proof.
  split; [|vm_compute; reflexivity]. destruct wire_roundtrip as (_ & H & _).
  apply H. by repeat constructor.
Defined.

(** The routes of [ServeMux]: a GET pattern matches HEAD too, [{id}] matches one
    non-empty segment, another method on a known path gets 405. *)
Inductive route : Type :=
  | RCreate
  | RList
  | RGet (id : string)
  | RMethodNotAllowed (allow : string)
  | RNotFound.

Definition is_get (method : string) : bool := bool_decide (method = "GET") || bool_decide (method = "HEAD").

Definition has_slash (s : string) : bool :=
  existsb (λ c, bool_decide (c = "/"%char)) (String.list_ascii_of_string s).

Definition route_of (method path : string) : route :=
  if decide (path = "/orders") then
    if decide (method = "POST") then RCreate
    else if is_get method then RList else RMethodNotAllowed "GET, HEAD, POST"
  else
    match strip_prefix "/orders/" path with
    | Some id =>
        if bool_decide (id = "") || has_slash id then RNotFound
        else if is_get method then RGet id else RMethodNotAllowed "GET, HEAD"
    | None => RNotFound
    end.

Definition not_allowed (allow : string) : handler :=
  HSetHeader "Allow" allow
    (HSetHeader "Content-Type" "text/plain; charset=utf-8"
       (HWriteHeader 405 (HWrite ("Method Not Allowed" +:+ newline) (λ _ _, HReturn)))).

(** ** gRPC *)
Inductive OrderStatus : Type :=
  | ORDER_STATUS_UNSPECIFIED
  | ORDER_STATUS_PENDING
  | ORDER_STATUS_CONFIRMED
  | ORDER_STATUS_CANCELED.

Record ProtoItem : Type := mkProtoItem { Sku : string; ProtoQuantity : Z }.
Record ProtoOrder : Type := mkProto {
  Id : string;
  CustomerId : string;
  ProtoItems : list ProtoItem;
  ProtoStatus : OrderStatus;
  CreatedAtUnix : Z;
  UpdatedAtUnix : Z;
}.

(** [fmt.Errorf("prefix: %w", status.Error(code, desc))], as the server sends it: the
    code of the status in the error's chain, and the text of the whole error. *)
Inductive code : Type := InvalidArgument | NotFound_ | Internal.
Definition code_String (c : code) : string :=
  match c with InvalidArgument => "InvalidArgument" | NotFound_ => "NotFound" | Internal => "Internal" end.

Inductive grpc_res (A : Type) : Type :=
  | GOk (a : A)
  | GErr (c : code) (message : string).
Arguments GOk {A}.
Arguments GErr {A}.

Definition status_error (c : code) (desc : string) : string :=
  "rpc error: code = " +:+ code_String c +:+ " desc = " +:+ desc.
Definition wrapped_status {A} (prefix : string) (c : code) (desc : string) : grpc_res A :=
  GErr c (prefix +:+ ": " +:+ status_error c desc).

Definition toProtoStatus (s : Status) : OrderStatus :=
  if decide (s = StatusPending) then ORDER_STATUS_PENDING
  else if decide (s = StatusConfirmed) then ORDER_STATUS_CONFIRMED
  else if decide (s = StatusCanceled) then ORDER_STATUS_CANCELED
  else ORDER_STATUS_UNSPECIFIED.

(** [t.Unix()] *)
Definition Unix (t : Z) : Z := t / Second.

Definition toProto (o : Order) : ProtoOrder :=
  mkProto (ID o) (CustomerID o) ((λ it, mkProtoItem (SKU it) (Quantity it)) <$> Items o)
    (toProtoStatus (status o)) (Unix (CreatedAt o)) (Unix (UpdatedAt o)).

Section api.
Context {W : Type} (S : Store W) (rfc3339 : Z → string).
(** The processor's [Enqueue] under a context with two seconds left. *)
Context (enqueue : string → io W (option goerr)).

Definition toResponse (o : Order) : orderResponse :=
  mkResponse (ID o) (CustomerID o) (status o) (Items o) (rfc3339 (CreatedAt o)) (rfc3339 (UpdatedAt o)).

(** [handleCreate] past the decoding. *)
Definition create_order (req : createOrderRequest) : io W handler :=
  match ValidateNewOrder (req_CustomerID req) (req_Items req) with
  | Some reason => mret (writeError 400 reason)
  | None =>
      r ← Create S (req_CustomerID req) (req_Items req);
      match r with
      | Err _ => mret (writeError 500 "internal error")
      | Ok order =>
          enqueue (ID order);;
          mret (writeJSON 201 (response_json (toResponse order)))
      end
  end.

Definition handleCreate (b : string) : io W handler :=
  match decode_body b with
  | None => mret (writeError 400 "invalid request body")
  | Some req => create_order req
  end.

Definition handleGet (id : string) : io W handler :=
  r ← Get S id;
  mret (match r with
        | Err e =>
            if errors_Is e ErrOrderNotFound then writeError 404 "order not found"
            else writeError 500 "internal error"
        | Ok order => writeJSON 200 (response_json (toResponse order))
        end).

Definition handleList : io W handler :=
  r ← List_ S;
  mret (match r with
        | Err _ => writeError 500 "internal error"
        | Ok orders => writeJSON 200 (JArr (response_json <$> (toResponse <$> orders)))
        end).

Definition Mux (method path : string) (b : string) : io W handler :=
  match route_of method path with
  | RCreate => h ← handleCreate b; mret (HSetPattern "POST /orders" h)
  | RList => h ← handleList; mret (HSetPattern "GET /orders" h)
  | RGet id => h ← handleGet id; mret (HSetPattern "GET /orders/{id}" h)
  | RMethodNotAllowed allow => mret (not_allowed allow)
  | RNotFound => mret HealthServer.not_found
  end.

Definition CreateOrder (customerID : string) (items : list ProtoItem) : io W (grpc_res ProtoOrder) :=
  let items := (λ it, mkItem (Sku it) (ProtoQuantity it)) <$> items in
  match ValidateNewOrder customerID items with
  | Some reason => mret (wrapped_status "create order" InvalidArgument reason)
  | None =>
      r ← Create S customerID items;
      match r with
      | Err _ => mret (wrapped_status "create order" Internal "internal error")
      | Ok order => enqueue (ID order);; mret (GOk (toProto order))
      end
  end.

Definition GetOrder (id : string) : io W (grpc_res ProtoOrder) :=
  r ← Get S id;
  mret (match r with
        | Err e =>
            if errors_Is e ErrOrderNotFound then wrapped_status "get order" NotFound_ "order not found"
            else wrapped_status "get order" Internal "internal error"
        | Ok order => GOk (toProto order)
        end).

Definition ListOrders : io W (grpc_res (list ProtoOrder)) :=
  r ← List_ S;
  mret (match r with
        | Err _ => wrapped_status "list orders" Internal "internal error"
        | Ok all => GOk (toProto <$> all)
        end).

(** ** The two transports agree *)

Definition http_status (c : code) : Z :=
  match c with InvalidArgument => 400 | NotFound_ => 404 | Internal => 500 end.

(** The status a protobuf enum stands for. *)
Definition status_of (s : OrderStatus) : option Status :=
  match s with
  | ORDER_STATUS_UNSPECIFIED => None
  | ORDER_STATUS_PENDING => Some StatusPending
  | ORDER_STATUS_CONFIRMED => Some StatusConfirmed
  | ORDER_STATUS_CANCELED => Some StatusCanceled
  end.

(** A REST response and a gRPC message that both tell the order [o]: the enum is that of its
    status, or unspecified when it has none of the three. *)
Record tell (o : Order) (r : orderResponse) (p : ProtoOrder) : Prop := {
  tell_id : resp_ID r = ID o ∧ Id p = ID o;
  tell_customer : resp_CustomerID r = CustomerID o ∧ CustomerId p = CustomerID o;
  tell_items : resp_Items r = Items o ∧ (λ it, mkItem (Sku it) (ProtoQuantity it)) <$> ProtoItems p = Items o;
  tell_status : resp_Status r = status o ∧
    match status_of (ProtoStatus p) with
    | Some st => status o = st
    | None => status o ∉ [StatusPending; StatusConfirmed; StatusCanceled]
    end;
  tell_created : resp_CreatedAt r = rfc3339 (CreatedAt o) ∧ CreatedAtUnix p = CreatedAt o / Second;
  tell_updated : resp_UpdatedAt r = rfc3339 (UpdatedAt o) ∧ UpdatedAtUnix p = UpdatedAt o / Second;
}.

(** The same error: the REST body is the message, the gRPC text has it behind the
    method's prefix and the status. *)
Definition same_error {B} (op : string) (h : handler) (g : grpc_res B) : Prop :=
  ∃ c desc, h = writeError (http_status c) desc ∧
    g = GErr c (op +:+ ": rpc error: code = " +:+ code_String c +:+ " desc = " +:+ desc).

Definition to_proto_items (items : list Item) : list ProtoItem :=
  (λ it, mkProtoItem (SKU it) (Quantity it)) <$> items.

Lemma from_proto_items items : (λ it, mkItem (Sku it) (ProtoQuantity it)) <$> to_proto_items items = items.
Proof. induction items as [|[sku q] items IH]; [done|]. simpl. by f_equal. Qed.

Lemma both_tell o : tell o (toResponse o) (toProto o).
Proof.
  destruct o as [id c items st ca ua]. split; try done.
  - split; [done|]. apply from_proto_items.
  - split; [done|]. simpl. unfold toProtoStatus.
    repeat case_decide; simpl; try done. set_solver.
Qed.

Lemma all_tell os : Forall3 tell os (toResponse <$> os) (toProto <$> os).
Proof. induction os as [|o os IH]; constructor; [apply both_tell|exact IH]. Qed.

(** C18: one set of business logic.  For the same input and in the same state, the
    REST handlers and the gRPC methods do exactly the same to the world, the
    store and the queue included, and answer alike.  On success both tell the
    order the store returned: its ID, customer, items and status, and the same
    two instants, REST as RFC 3339 texts and gRPC in whole seconds.  On an error
    the HTTP status stands for the gRPC code (400 InvalidArgument, 404 NotFound,
    500 Internal), and the REST message is the description in the gRPC text,
    which has the method and the code before it. *)
Theorem transports_agree w :
  (∀ c items, ∃ h g w', create_order (mkCreate c items) w = (h, w') ∧
     CreateOrder c (to_proto_items items) w = (g, w') ∧
     ((∃ o w1 r p, Create S c items w = (Ok o, w1) ∧ h = writeJSON 201 (response_json r) ∧ g = GOk p ∧ tell o r p) ∨
      same_error "create order" h g)) ∧
  (∀ id, ∃ h g w', handleGet id w = (h, w') ∧ GetOrder id w = (g, w') ∧
     ((∃ o r p, Get S id w = (Ok o, w') ∧ h = writeJSON 200 (response_json r) ∧ g = GOk p ∧ tell o r p) ∨
      same_error "get order" h g)) ∧
  (∃ h g w', handleList w = (h, w') ∧ ListOrders w = (g, w') ∧
     ((∃ os rs ps, List_ S w = (Ok os, w') ∧ h = writeJSON 200 (JArr (response_json <$> rs)) ∧ g = GOk ps ∧
        Forall3 tell os rs ps) ∨
      same_error "list orders" h g)).
Proof.
  split; [|split].
  - intros c items. unfold create_order, CreateOrder. rewrite from_proto_items. simpl.
    destruct (ValidateNewOrder c items) as [reason|].
    { do 3 eexists. split; [done|]. split; [done|]. right. by exists InvalidArgument, reason. }
    unfold mbind, io_bind, mret, io_ret. destruct (Create S c items w) as [[o|e] w1] eqn:E.
    + destruct (enqueue (ID o) w1) as [r w2]. do 3 eexists. split; [done|]. split; [done|]. left.
      exists o, w1, (toResponse o), (toProto o). split_and!; [done..|apply both_tell].
    + do 3 eexists. split; [done|]. split; [done|]. right. by exists Internal, "internal error".
  - intros id. unfold handleGet, GetOrder, mbind, io_bind, mret, io_ret.
    destruct (Get S id w) as [[o|e] w1] eqn:E; do 3 eexists; (split; [done|]); (split; [done|]).
    { left. exists o, (toResponse o), (toProto o). split_and!; [done..|apply both_tell]. }
    right. destruct (errors_Is e ErrOrderNotFound); [by exists NotFound_, "order not found"|].
    by exists Internal, "internal error".
  - unfold handleList, ListOrders, mbind, io_bind, mret, io_ret.
    destruct (List_ S w) as [[os|e] w1] eqn:E; do 3 eexists; (split; [done|]); (split; [done|]).
    { left. exists os, (toResponse <$> os), (toProto <$> os). split_and!; [done..|apply all_tell]. }
    right. by exists Internal, "internal error".
Qed.

(** ** What reaches the store *)
Definition within_limits (customer : string) (items : list Item) : Prop :=
  customer ≠ "" ∧ (1 ≤ length items ≤ 100)%nat ∧ Forall valid_item items.

Lemma within_int32 customer items : within_limits customer items → int32_items items.
Proof.
  intros (_ & _ & H). eapply Forall_impl; [exact H|]. intros it [_ Hq]. unfold MaxItemQuantity in Hq.
  apply andb_true_iff. unfold min_int32, max_int32. lia.
Qed.

Lemma within_clean customer items :
  within_limits (sanitize customer) (clean_item <$> items) ↔ within_limits customer items.
Proof.
  assert (∀ s, sanitize s ≠ "" ↔ s ≠ "") as Hs.
  { intros s. split; [by intros H ->|apply sanitize_nonempty]. }
  unfold within_limits, valid_item. rewrite Hs, length_fmap, Forall_fmap.
  assert (∀ it, ((λ it, SKU it ≠ "" ∧ 1 ≤ Quantity it ≤ MaxItemQuantity) ∘ clean_item) it ↔
    SKU it ≠ "" ∧ 1 ≤ Quantity it ≤ MaxItemQuantity) as Hi by (intros it; simpl; by rewrite Hs).
  erewrite Forall_iff; [done|exact Hi].
Qed.

(** What a create does to the world once the request is accepted. *)
Definition placed (c : string) (items : list Item) (w : W) : res Order * W :=
  let '(x, w1) := Create S c items w in
  match x with Ok o => (Ok o, (enqueue (ID o) w1).2) | Err e => (Err e, w1) end.

Lemma create_order_limits r w :
  (within_limits (req_CustomerID r) (req_Items r) →
     create_order r w =
       let '(x, w') := placed (req_CustomerID r) (req_Items r) w in
       (match x with Ok o => writeJSON 201 (response_json (toResponse o)) | Err _ => writeError 500 "internal error" end, w')) ∧
  (¬ within_limits (req_CustomerID r) (req_Items r) → ∃ reason, create_order r w = (writeError 400 reason, w)).
Proof.
  pose proof (ValidateNewOrder_limits (req_CustomerID r) (req_Items r)) as Hl. unfold create_order, placed.
  split; intros H; destruct (ValidateNewOrder _ _) as [reason|].
  - by apply Hl in H.
  - unfold mbind, io_bind, mret, io_ret. destruct (Create S _ _ w) as [[o|e] w1]; [|done]. by destruct (enqueue _ w1).
  - by exists reason.
  - by destruct H; apply Hl.
Qed.

(** C37: the limits hold for the numbers that were sent.  A client may encode any
    request, with integers of any size: when it names a customer and has between 1
    and 100 items, each with a SKU and a quantity between 1 and 1000000, and its
    bytes fit the body limit, the store is asked for exactly that order, texts
    made valid, and nothing else; any other request is answered 400 and reaches
    neither the store nor the queue, also when its quantity would be a legal one
    modulo 2^32.  Over gRPC, whose quantities arrive as int32, the same limits
    decide. *)
Theorem limits_enforced w :
  (∀ r, let accepted := within_limits (req_CustomerID r) (req_Items r) ∧
                        Z.of_nat (String.length (request_bytes r)) ≤ maxCreateBodyBytes in
     (accepted → handleCreate (request_bytes r) w =
        let '(x, w') := placed (sanitize (req_CustomerID r)) (clean_item <$> req_Items r) w in
        (match x with Ok o => writeJSON 201 (response_json (toResponse o)) | Err _ => writeError 500 "internal error" end, w')) ∧
     (¬ accepted → ∃ reason, handleCreate (request_bytes r) w = (writeError 400 reason, w))) ∧
  (∀ c items,
     (within_limits c items → (CreateOrder c (to_proto_items items) w).2 = (placed c items w).2) ∧
     (¬ within_limits c items → ∃ reason,
        CreateOrder c (to_proto_items items) w = (wrapped_status "create order" InvalidArgument reason, w))).
Proof.
  split.
  - intros r accepted. subst accepted. unfold handleCreate. rewrite decode_body_request.
    destruct (create_order_limits (clean_request r) w) as [H1 H2]. simpl in H1, H2. rewrite within_clean in H1, H2.
    unfold fits. split.
    + intros [Hl Hs]. rewrite decide_True by (split; [by eapply within_int32|done]). by apply H1.
    + intros Hn. destruct (decide _) as [[Hi Hs]|]; [|by exists "invalid request body"]. apply H2. by intros ?; apply Hn.
  - intros c items. pose proof (ValidateNewOrder_limits c items) as Hl. unfold CreateOrder. rewrite from_proto_items.
    split; intros H; destruct (ValidateNewOrder _ _) as [reason|].
    + by apply Hl in H.
    + unfold placed, mbind, io_bind, mret, io_ret. destruct (Create S c items w) as [[o|e] w1]; [|done].
      by destruct (enqueue _ w1).
    + by exists reason.
    + by destruct H; apply Hl.
Qed.

(** ** What a client of the API sees

    The request goes through the server's middleware to the routes; [abs] are
    the orders, [queued] the IDs handed to [enqueue]. *)
Context (conn : nat → string → Z * option goerr) (abs : W → gmap string Order) (wf room : W → Prop)
  (queued : W → list string).
Context {answers : string → gmap string Order → res Order → Prop} {grain : Z → Z} `{HS : !store_for answers grain S abs wf room}.
Hypothesis conn_takes : ∀ n b, conn n b = (Z.of_nat (String.length b), None).

Class enqueues : Prop := {
  enqueue_once id w r w' : enqueue id w = (r, w') →
    same_orders abs wf room w w' ∧ queued w' = queued w ++ [id];
  create_no_queue c items w r w' : Create S c items w = (r, w') → queued w' = queued w;
}.
Context `{Hq : !enqueues}.

(** The status and the body of the answer. *)
Definition answer (s : Server) (h : handler) (r : request) (dur : Z) (m : metrics) : Z * string :=
  let rw := (buildMiddleware conn (Some None) s (λ _, h) r dur fresh_net m).1 in
  (client_status (under rw), u_body (under rw)).

Lemma answer_json s code v pattern r dur m :
  199 < code ≤ 999 → code ≠ 204 → code ≠ 304 →
  answer s (HSetPattern pattern (writeJSON code v)) r dur m = (code, print v +:+ newline).
Proof.
  intros H1 H2 H3. unfold answer.
  destruct (serve_json conn conn_takes code (print v +:+ newline) pattern r s dur m
    (λ _, HSetPattern pattern (writeJSON code v))) as (-> & -> & _); [done..| |done|done].
  unfold newline. destruct (print v); done.
Qed.

Definition error_body (message : string) : string := print (JObj [("error", JStr message)]) +:+ newline.
Definition order_body (o : Order) : string := print (response_json (toResponse o)) +:+ newline.

#[local] Opaque decode_body.

(** C36: POST /orders.  A request that does not decode, is longer than 64 KiB, or
    breaks a limit is answered 400 with the reason and touches nothing; otherwise
    the store is asked once.  The answer 201 means that a new order was inserted,
    PENDING with the customer and the items of the request, and that its ID was
    handed to the processor once; the body is that order, whether or not the
    processor took the ID, since its error is only logged.  When the store fails
    the answer is 500 and nothing is handed over; the store then holds the orders
    it held, or one order more, when it made the order and lost its answer. *)
Theorem create_request_effect s r dur m b w h w' a :
  wf w → room w → r_Method r = "POST" → r_Path r = "/orders" →
  Mux (r_Method r) (r_Path r) b w = (h, w') → answer s h r dur m = a →
  wf w' ∧
  match decode_body b with
  | None => w' = w ∧ a = (400, error_body "invalid request body")
  | Some req =>
      match ValidateNewOrder (req_CustomerID req) (req_Items req) with
      | Some reason => w' = w ∧ a = (400, error_body reason)
      | None =>
          (∃ o, inserts (req_CustomerID req) (req_Items req) o (abs w) (abs w') ∧
                queued w' = queued w ++ [ID o] ∧ a = (201, order_body o)) ∨
          ((abs w' = abs w ∨ ∃ o, inserts (req_CustomerID req) (req_Items req) o (abs w) (abs w')) ∧
           queued w' = queued w ∧ a = (500, error_body "internal error"))
      end
  end.
Proof.
  intros Hwf Hroom Hm Hp H <-. rewrite Hm, Hp in H. unfold Mux in H.
  change (route_of "POST" "/orders") with RCreate in H. cbv iota in H.
  unfold handleCreate, create_order in H.
  destruct (decode_body b) as [req|] eqn:Ed; unfold mbind, io_bind, mret, io_ret in H;
    [|simplify_eq; split_and!; [done|done|by apply answer_json]].
  apply decode_body_items in Ed as Hi.
  destruct (ValidateNewOrder _ _) as [reason|]; [simplify_eq; split_and!; [done|done|by apply answer_json]|].
  destruct (Create S _ _ w) as [r1 w1] eqn:E.
  destruct (store_create _ _ w r1 w1 Hwf Hroom Hi E) as [Hwf1 Hc]. apply create_no_queue in E as Hq1.
  destruct r1 as [o|e].
  - destruct (enqueue (ID o) w1) as [r2 w2] eqn:E2. simplify_eq. apply enqueue_once in E2 as [Hs Hq2].
    destruct (same_orders_wf _ _ _ w1 w' Hs Hwf1) as [Hwf2 Ha]. split; [done|]. left. exists o.
    rewrite Ha, Hq2, Hq1. split_and!; [done|done|by apply answer_json].
  - simplify_eq. split; [done|]. right. split_and!; [done|done|by apply answer_json].
Qed.
#[local] Transparent decode_body.
End api.

(** ** A request to the in-memory store, with a queue that is full *)
Definition aex_world : Type := InMemoryStore * list string.
Definition aex_store : Store aex_world := lift_store (memory_store Z.of_nat map_to_list).
Definition aex_enqueue (id : string) : io aex_world (option goerr) := λ w,
  (Some DeadlineExceeded, (w.1, w.2 ++ [id])).
Definition aex_rfc3339 (t : Z) : string := pretty t.

Lemma aex_contract : store aex_store (orders ∘ fst) (mem_wf ∘ fst) (mem_room ∘ fst).
Proof. apply lift_store_contract, memory_store_contract. intros m. reflexivity. Qed.

Lemma aex_enqueues : enqueues aex_store aex_enqueue (orders ∘ fst) (mem_wf ∘ fst) (mem_room ∘ fst) snd.
Proof. split; [by intros id w r w' [= <- <-]|]. intros c items w r w' H. by apply lift_inv in H as [_ H]. Qed.

Definition aex_body : string := request_bytes (mkCreate "alice" [mkItem "WIDGET" 2]).
Definition aex_start : aex_world := (NewInMemoryStore, []).
Definition aex_run := Mux aex_store aex_rfc3339 aex_enqueue "POST" "/orders" aex_body aex_start.
Definition aex_order : Order := mkOrder "ord_1" "alice" [mkItem "WIDGET" 2] StatusPending 0 0.

Lemma create_request_effect_witness :
  aex_run.2.2 = ["ord_1"] ∧
  answer ex_conn ex_server aex_run.1 (mkRequest "POST" "" "/orders") 5 no_metrics =
    (201, order_body aex_rfc3339 aex_order) ∧
  mem_wf aex_run.2.1.
Proof.
  split; [vm_compute; reflexivity|]. split; [vm_compute; reflexivity|].
  exact (proj1 (create_request_effect aex_store aex_rfc3339 aex_enqueue ex_conn (orders ∘ fst) (mem_wf ∘ fst)
    (mem_room ∘ fst) snd (HS := aex_contract) (λ n b, eq_refl) (Hq := aex_enqueues) ex_server
    (mkRequest "POST" "" "/orders") 5 no_metrics aex_body aex_start aex_run.1 aex_run.2 _ new_mem_wf eq_refl eq_refl eq_refl
    (surjective_pairing _) eq_refl)).
Defined.

(** A quantity that is 2 modulo 2^32 is refused, and 2 is not. *)
Lemma limits_enforced_witness :
  (∃ reason, handleCreate aex_store aex_rfc3339 aex_enqueue
     (request_bytes (mkCreate "alice" [mkItem "WIDGET" (2 ^ 32 + 2)])) aex_start = (writeError 400 reason, aex_start)) ∧
  handleCreate aex_store aex_rfc3339 aex_enqueue aex_body aex_start =
    (writeJSON 201 (response_json (toResponse aex_rfc3339 aex_order)), (placed aex_store aex_enqueue "alice" [mkItem "WIDGET" 2] aex_start).2).
Proof.
  destruct (limits_enforced aex_store aex_rfc3339 aex_enqueue aex_start) as [H _]. split.
  - apply (proj2 (H (mkCreate "alice" [mkItem "WIDGET" (2 ^ 32 + 2)]))).
    intros [(_ & _ & [_ Hq]%Forall_inv) _]. vm_compute in Hq. by apply Hq.
  - exact (proj1 (H (mkCreate "alice" [mkItem "WIDGET" 2]))
      ltac:(split; [split; [done|split; [simpl; lia|by repeat constructor]]|vm_compute; discriminate])).
Defined.
