(* ===== verification/HttpClient.v ===== *)
(** * http/client: the base HTTP client

    [New] with its options, which builds the transport and wraps it in the
    middlewares, the request options, and [Do], which sends one request and
    decodes the answer.  A [RoundTripper] is a function over an arbitrary world;
    [net/url], [http.NewRequest], [http.Client.Do] and [http.Transport] are
    parameters, and [transport_laws] says what is relied on of them: a request
    sent is seen once, and a response's body is open until it is closed.
    Theorems: which transport a client ends up with; what [Do] answers, and that
    it closes the body of every response exactly once. *)
From S2P Require Import Prelude Json JsonText.
From Stdlib Require Import Ascii.

(** ** Requests *)
Record Request : Type := mkRequest {
  q_Method : string;
  q_URL : string;
  q_Header : gmap string string;
  q_Body : string;
  q_ContentLength : Z;
}.

(** [textproto.CanonicalMIMEHeaderKey]: a name with a byte that may not be in one is
    left alone. *)
Definition upper_ascii (c : ascii) : ascii :=
  let n := code_of c in if (97 <=? n) && (n <=? 122) then char_of (n - 32) else c.
Definition token_byte (c : ascii) : bool :=
  let n := code_of c in
  ((48 <=? n) && (n <=? 57)) || ((65 <=? n) && (n <=? 90)) || ((97 <=? n) && (n <=? 122)) ||
  bool_decide (c ∈ ["!"; "#"; "$"; "%"; "&"; "'"; "*"; "+"; "-"; "."; "^"; "_"; "`"; "|"; "~"]%char).
Fixpoint canonical_from (up : bool) (s : string) : string :=
  match s with
  | EmptyString => EmptyString
  | String c s =>
      String (if up then upper_ascii c else lower_ascii c) (canonical_from (bool_decide (c = "-"%char)) s)
  end.
Definition canonical_key (k : string) : string :=
  if forallb token_byte (String.list_ascii_of_string k) then canonical_from true k else k.

Definition set_header (k v : string) (r : Request) : Request :=
  mkRequest (q_Method r) (q_URL r) (<[canonical_key k := v]> (q_Header r)) (q_Body r) (q_ContentLength r).

Definition RequestOption : Type := Request → Request.
Definition WithHeader (k v : string) : RequestOption := set_header k v.

(** A body: its bytes, and its [Len] if it has one. *)
Record reader : Type := mkReader { content : string; has_len : option Z }.

Definition WithBody (body : reader) (contentType : string) : RequestOption := λ r,
  let r := mkRequest (q_Method r) (q_URL r) (q_Header r) (content body)
             (match has_len body with Some n => n | None => q_ContentLength r end) in
  if decide (contentType = "") then r else set_header "Content-Type" contentType r.

(** [http.NewRequestWithContext] with [http.NoBody], once its checks pass. *)
Definition new_request (method url : string) : Request :=
  mkRequest (if decide (method = "") then "GET" else method) url ∅ "" 0.

(** [http.StatusText] *)
Definition status_texts : list (Z * string) :=
  [(100, "Continue"); (101, "Switching Protocols"); (102, "Processing"); (103, "Early Hints"); (200, "OK");
   (201, "Created"); (202, "Accepted"); (203, "Non-Authoritative Information"); (204, "No Content");
   (205, "Reset Content"); (206, "Partial Content"); (207, "Multi-Status"); (208, "Already Reported");
   (226, "IM Used"); (300, "Multiple Choices"); (301, "Moved Permanently"); (302, "Found"); (303, "See Other");
   (304, "Not Modified"); (305, "Use Proxy"); (307, "Temporary Redirect"); (308, "Permanent Redirect");
   (400, "Bad Request"); (401, "Unauthorized"); (402, "Payment Required"); (403, "Forbidden");
   (404, "Not Found"); (405, "Method Not Allowed"); (406, "Not Acceptable");
   (407, "Proxy Authentication Required"); (408, "Request Timeout"); (409, "Conflict"); (410, "Gone");
   (411, "Length Required"); (412, "Precondition Failed"); (413, "Request Entity Too Large");
   (414, "Request URI Too Long"); (415, "Unsupported Media Type"); (416, "Requested Range Not Satisfiable");
   (417, "Expectation Failed"); (418, "I'm a teapot"); (421, "Misdirected Request");
   (422, "Unprocessable Entity"); (423, "Locked"); (424, "Failed Dependency"); (425, "Too Early");
   (426, "Upgrade Required"); (428, "Precondition Required"); (429, "Too Many Requests");
   (431, "Request Header Fields Too Large"); (451, "Unavailable For Legal Reasons");
   (500, "Internal Server Error"); (501, "Not Implemented"); (502, "Bad Gateway");
   (503, "Service Unavailable"); (504, "Gateway Timeout"); (505, "HTTP Version Not Supported");
   (506, "Variant Also Negotiates"); (507, "Insufficient Storage"); (508, "Loop Detected");
   (510, "Not Extended"); (511, "Network Authentication Required")].

Definition StatusText (code : Z) : string :=
  match list_find (λ p, p.1 = code) status_texts with Some (_, p) => p.2 | None => "" end.

Record Response (B : Type) : Type := mkResp { StatusCode : Z; Body : B }.
Arguments mkResp {B}.
Arguments StatusCode {B}.
Arguments Body {B}.

Record transport_config : Type := mkTransport {
  maxIdleConns : Z;
  maxIdleConnsPerHost : Z;
  idleConnTimeout : Z;
  tlsHandshakeTimeout : Z;
}.

Section client.
Context {W B U : Type}.

Definition RoundTripper : Type := Request → io W (res (Response B)).
Definition RoundTripperMiddleware : Type := RoundTripper → RoundTripper.

Context (url_Parse : string → res U) (JoinPath : U → string → string).
Context (http_Transport : transport_config → RoundTripper).

(** ** The client *)
Record Client : Type := mkClient {
  baseURL : U;
  timeout : Z;
  transport : option RoundTripper;
  middlewares : list RoundTripperMiddleware;
  config : transport_config;
}.

Definition Option : Type := Client → Client.
Definition WithTimeout (d : Z) : Option := λ c,
  mkClient (baseURL c) d (transport c) (middlewares c) (config c).
Definition WithTransport (t : option RoundTripper) : Option := λ c,
  mkClient (baseURL c) (timeout c) t (middlewares c) (config c).
Definition WithMiddleware (ms : list RoundTripperMiddleware) : Option := λ c,
  mkClient (baseURL c) (timeout c) (transport c) (middlewares c ++ ms) (config c).
Definition with_config (f : transport_config → transport_config) : Option := λ c,
  mkClient (baseURL c) (timeout c) (transport c) (middlewares c) (f (config c)).
Definition WithMaxIdleConns (n : Z) : Option :=
  with_config (λ t, mkTransport n (maxIdleConnsPerHost t) (idleConnTimeout t) (tlsHandshakeTimeout t)).
Definition WithMaxIdleConnsPerHost (n : Z) : Option :=
  with_config (λ t, mkTransport (maxIdleConns t) n (idleConnTimeout t) (tlsHandshakeTimeout t)).
Definition WithIdleConnTimeout (d : Z) : Option :=
  with_config (λ t, mkTransport (maxIdleConns t) (maxIdleConnsPerHost t) d (tlsHandshakeTimeout t)).
Definition WithTLSHandshakeTimeout (d : Z) : Option :=
  with_config (λ t, mkTransport (maxIdleConns t) (maxIdleConnsPerHost t) (idleConnTimeout t) d).

Definition default_transport : transport_config := mkTransport 100 10 (90 * Second) (10 * Second).

(** The loop over the middlewares, from the last to the first. *)
Fixpoint wrap_all (ms : list RoundTripperMiddleware) (t : RoundTripper) : RoundTripper :=
  match ms with [] => t | m :: ms => wrap_all ms (m t) end.

Definition build (c : Client) : Client :=
  let base := match transport c with Some t => t | None => http_Transport (config c) end in
  mkClient (baseURL c) (timeout c) (Some (wrap_all (reverse (middlewares c)) base)) (middlewares c) (config c).

Definition New (base : string) (opts : list Option) : res Client :=
  match url_Parse base with
  | Err e => Err (Wrap "parsing base URL" e)
  | Ok u => Ok (build (foldl (λ c opt, opt c) (mkClient u (30 * Second) None [] default_transport) opts))
  end.

Definition URL (c : Client) (p : string) : string := JoinPath (baseURL c) p.

(** ** Sending *)
Context (NewRequest : string → string → option goerr).
(** [c.http.Do], with the client's timeout and transport; reading and closing a
    response's body. *)
Context (http_Do : Z → option RoundTripper → Request → io W (res (Response B))).
Context (ReadAll : B → io W (res string)) (CloseBody : B → io W (option goerr)).

Definition unexpected_status (code : Z) (body : string) : goerr :=
  Text ("unexpected status " +:+ pretty code +:+ " " +:+ StatusText code +:+ ": " +:+ body).

(** What the body of a response is turned into. *)
Definition decode_response {T} (zero : T) (decode : string → option T) (code : Z) (body : res string) : res T :=
  match body with
  | Err e => Err (Wrap "reading response body" e)
  | Ok body =>
      if (code <? 200) || (300 <=? code) then Err (unexpected_status code body)
      else if decide (String.length body = 0%nat) then Ok zero
      else match decode body with
           | Some x => Ok x
           | None => Err (Wrap "decoding response" (Text "json"))
           end
  end.

(** [Do[T]]: [zero] and [decode] are [T]'s; the body is closed on the way out. *)
Definition Do {T} (zero : T) (decode : string → option T) (c : Client) (method p : string)
    (opts : list RequestOption) : io W (res T) :=
  match NewRequest method (URL c p) with
  | Some e => mret (Err (Wrap "creating request" e))
  | None =>
      let req := foldl (λ r opt, opt r) (new_request method (URL c p)) opts in
      r ← http_Do (timeout c) (transport c) req;
      match r with
      | Err e => mret (Err (Wrap "sending request" e))
      | Ok resp =>
          body ← ReadAll (Body resp);
          CloseBody (Body resp);;
          mret (decode_response zero decode (StatusCode resp) body)
      end
  end.

(** ** Which transport *)
Lemma wrap_all_app l1 l2 t : wrap_all (l1 ++ l2) t = wrap_all l2 (wrap_all l1 t).
Proof. revert t. induction l1 as [|m l1 IH]; intros t; [done|]. simpl. apply IH. Qed.

Lemma wrap_all_reverse ms t : wrap_all (reverse ms) t = foldr (λ m t, m t) t ms.
Proof.
  induction ms as [|m ms IH]; [done|]. rewrite reverse_cons, wrap_all_app, IH. done.
Qed.

(** What the options set, the last one of a kind winning; middlewares add up. *)
Definition apply_options (c : Client) (opts : list Option) : Client := foldl (λ c opt, opt c) c opts.

(** The client's transport.  Whatever the options and their order, [New]
    yields a client whose transport is the one given by the last
    [WithTransport], or else one built from the last connection settings, wrapped
    in every middleware added, in the order added, the first outermost; without
    options the defaults are 30 s, 100 and 10 idle connections, 90 s and 10 s.  A
    base URL that does not parse is the only error. *)
Theorem client_transport base opts :
  match url_Parse base, New base opts with
  | Err e, Err e' => e' = Wrap "parsing base URL" e
  | Ok u, Ok c =>
      let s := apply_options (mkClient u (30 * Second) None [] default_transport) opts in
      timeout c = timeout s ∧ baseURL c = baseURL s ∧
      ∀ q, (default (λ _, mret (Err (Text "no transport"))) (transport c)) q =
           (foldr (λ m t, m t) (default (http_Transport (config s)) (transport s)) (middlewares s)) q
  | _, _ => False
  end ∧
  (∀ u ms1 ms2, middlewares (apply_options (mkClient u (30 * Second) None [] default_transport)
     [WithMiddleware ms1; WithMiddleware ms2]) = ms1 ++ ms2) ∧
  (∀ c opts t, transport (apply_options c (opts ++ [WithTransport t])) = t).
Proof.
  split; [|split].
  - unfold New. destruct (url_Parse base) as [u|e]; [|done]. simpl. split_and!; [done|done|].
    intros q. rewrite wrap_all_reverse. unfold apply_options. by destruct (transport _).
  - done.
  - intros c opts0 t. unfold apply_options. by rewrite foldl_app.
Qed.

(** ** What Do answers *)
Context (open : W → list B) (sent : W → list Request).

Class transport_laws : Prop := {
  do_opens d t q w r w' : http_Do d t q w = (r, w') →
    sent w' = sent w ++ [q] ∧
    open w' = match r with Ok resp => Body resp :: open w | Err _ => open w end;
  read_keeps b w r w' : ReadAll b w = (r, w') → sent w' = sent w ∧ open w' = open w;
  close_closes b l w r w' : open w = b :: l → CloseBody b w = (r, w') → sent w' = sent w ∧ open w' = l;
}.
Context `{Hlaws : !transport_laws}.

(** C40: one request, one closed body.  [Do] sends nothing when the request cannot
    be built and otherwise exactly the one request the options describe; on every
    path the body of the response is closed, exactly once.  It succeeds only with
    a response whose status is 2xx and whose whole body was read, and then
    returns what the body decodes to, or the zero value for an empty body; every
    other status is an error that names it. *)
Theorem Do_answer {T} (zero : T) decode c method p opts w r w' :
  Do zero decode c method p opts w = (r, w') →
  open w' = open w ∧
  ((∃ e, NewRequest method (URL c p) = Some e ∧ r = Err (Wrap "creating request" e) ∧ w' = w) ∨
   (let q := foldl (λ r opt, opt r) (new_request method (URL c p)) opts in
    sent w' = sent w ++ [q] ∧
    match http_Do (timeout c) (transport c) q w with
    | (Err e, _) => r = Err (Wrap "sending request" e)
    | (Ok resp, w1) =>
        let body := (ReadAll (Body resp) w1).1 in
        (∀ x, r = Ok x → 200 ≤ StatusCode resp < 300 ∧
           ∃ b, body = Ok b ∧ ((b = "" ∧ x = zero) ∨ (b ≠ "" ∧ decode b = Some x))) ∧
        (∀ b, body = Ok b → ¬ 200 ≤ StatusCode resp < 300 →
           r = Err (unexpected_status (StatusCode resp) b)) ∧
        (∀ e, body = Err e → r = Err (Wrap "reading response body" e))
    end)).
Proof.
  intros H. unfold Do in H. destruct (NewRequest method (URL c p)) as [e|].
  { unfold mret, io_ret in H. simplify_eq. split; [done|]. left. by exists e. }
  unfold mbind, io_bind, mret, io_ret in H. cbv zeta. set (q := foldl _ _ _) in *.
  destruct (http_Do _ _ q w) as [[resp|e] w1] eqn:E; apply do_opens in E as [Hs Ho]; simpl in H.
  - destruct (ReadAll (Body resp) w1) as [body w2] eqn:Er. apply read_keeps in Er as [Hs2 Ho2].
    rewrite Ho in Ho2. destruct (CloseBody (Body resp) w2) as [x w3] eqn:Ec.
    apply (close_closes _ (open w)) in Ec as [Hs3 Ho3]; [|done]. simplify_eq. split; [done|]. right.
    split; [congruence|]. simpl. unfold decode_response.
    destruct body as [b|e]; [|by split_and!; [..|intros ? [= ->]]].
    destruct ((StatusCode resp <? 200) || (300 <=? StatusCode resp)) eqn:Est; to_prop.
    + split_and!; [done|by intros ? [= ->]|done].
    + split_and!; [|intros b' _ []; lia|done]. intros x' Hx. split; [lia|]. exists b. split; [done|].
      destruct (decide (String.length b = 0%nat)) as [Hb|Hb].
      * left. split; [by destruct b|congruence].
      * right. split; [by intros ->|]. destruct (decode b); congruence.
  - simplify_eq. split; [done|]. right. split; [done|done].
Qed.
End client.

(** ** A server that answers 200 with the length of what it was sent *)
Definition hex_world : Type := list Request * list nat.
Definition hex_do (d : Z) (t : option (@RoundTripper hex_world nat)) (q : Request) :
    io hex_world (res (Response nat)) := λ w,
  (Ok (mkResp 200 (String.length (q_Body q))), (w.1 ++ [q], String.length (q_Body q) :: w.2)).
Definition hex_read (b : nat) : io hex_world (res string) := λ w, (Ok (pretty b), w).
Definition hex_close (b : nat) : io hex_world (option goerr) := λ w, (None, (w.1, tail w.2)).

Lemma hex_laws : transport_laws hex_do hex_read hex_close snd fst.
Proof.
  split.
  - intros d t q w r w' [= <- <-]. done.
  - intros b w r w' [= <- <-]. done.
  - intros b l w r w' Ho [= <- <-]. simpl. by rewrite Ho.
Qed.

Definition hex_client : @Client hex_world nat string :=
  mkClient "http://127.0.0.1:8080" (30 * Second) None [] default_transport.
Definition hex_options : list RequestOption :=
  [WithBody (mkReader "12345" (Some 5)) "application/json"; WithHeader "x-request-id" "7"].
Definition hex_run (w : hex_world) := Do String.append (λ _ _, None) hex_do hex_read hex_close ""
  Some hex_client "POST" "/orders" hex_options w.

Lemma Do_answer_witness :
  let q := mkRequest "POST" "http://127.0.0.1:8080/orders"
             {["Content-Type" := "application/json"; "X-Request-Id" := "7"]} "12345" 5 in
  hex_run ([], []) = (Ok "5", ([q], [])) ∧ (hex_run ([], [])).2.2 = [].
Proof.
  split; [vm_compute; reflexivity|].
  exact (proj1 (Do_answer String.append (λ _ _, None) hex_do hex_read hex_close snd fst (Hlaws := hex_laws) ""
    Some hex_client "POST" "/orders" hex_options ([], []) (hex_run ([], [])).1 (hex_run ([], [])).2
    (surjective_pairing _))).
Defined.
