(* ===== verification/Dashboard.v ===== *)
(** * orders: the dashboard

    [Dashboard] is a client of the other services: it lists orders over REST
    ([fetchOrders]) and over gRPC, counts them, creates one from a form, and
    polls the health endpoints.  A handler answers with the data of the page it
    renders, or the name of the static file it serves; Pages.v renders them.
    [do_orders], [do_order] and
    [do_health] are [httpcli.Do] at the types it is used at, [ListOrders] the gRPC
    stub, [rfc3339] and [parse_rfc3339] the two directions of a time text.
    Theorems: both sources show the same rows; the counts; what the create form
    sends always meets the API's quantity limits. *)
From Stdlib Require Import SpecFloat.
From S2P Require Import Prelude Utf8 Json JsonText Retry HttpServer Orders OrderJson Processing Api HttpClient.

(** ** Data *)
Record dashboardOrder : Type := mkRow {
  d_ID : string;
  d_CustomerID : string;
  d_Status : string;
  d_Qty : Z;
  d_CreatedAt : string;
  d_CreatedTS : string;
}.

Record ordersPanelView : Type := mkPanel { v_Source : string; v_Rows : list dashboardOrder; v_Error : string }.
Record statsView : Type := mkStats { Total : Z; Pending : Z; Confirmed : Z; Canceled_ : Z; s_Error : string }.
Record healthView : Type := mkHealth { Live : string; LiveOK : bool; Ready : string; ReadyOK : bool }.

Definition sourceREST : string := "rest".
Definition sourceGRPC : string := "grpc".

(** What a handler answers. *)
Inductive page : Type :=
  | PIndex
  | PPanel (v : ordersPanelView)
  | PStats (v : statsView)
  | PHealth (v : healthView)
  | PFile (name : string)
  | PError (code : Z) (message : string).

(** ** Helpers *)
Fixpoint upper (s : string) : string :=
  match s with EmptyString => EmptyString | String c s => String (upper_ascii c) (upper s) end.

Definition trim_prefix (p s : string) : string := default s (strip_prefix p s).

Definition normalizeStatus (s : string) : string := lower (trim_prefix "ORDER_STATUS_" (upper s)).

(** [Seconds], [Minutes] and [Hours] of a [time.Duration]: whole units, plus the
    rest as a binary64 quotient; [int] truncates. *)
Definition in_units (unit d : Z) : Z :=
  match float_trunc (SFadd 53 1024 (float64 (d / unit)) (SFdiv 53 1024 (float64 (d mod unit)) (float64 unit))) with
  | Some z => z
  | None => 0
  end.

(** [t1.Sub(t2)] saturates. *)
Definition time_sub (t1 t2 : Z) : Z := Z.max min_int64 (Z.min max_int64 (t1 - t2)).

(** [relTime], [d] being [time.Since(t)]. *)
Definition relTime (d : Z) : string :=
  if d <? Second then "just now"
  else if d <? Minute then pretty (in_units Second d) +:+ "s ago"
  else if d <? Hour then pretty (in_units Minute d) +:+ "m ago"
  else pretty (in_units Hour d) +:+ "h ago".

(** The loops over the items. *)
Definition sum_qty (l : list Z) : Z := foldl (λ qty q, wrap_int64 (qty + q)) 0 l.

(** [strconv.ParseInt(s, 10, 32)] *)
Definition ParseInt32 (s : string) : option Z :=
  let '(neg, body) := match s with
                      | String c r => if code_of c =? 45 then (true, r) else if code_of c =? 43 then (false, r) else (false, s)
                      | EmptyString => (false, s)
                      end in
  match body, span_digits 0 body with
  | EmptyString, _ => None
  | _, (z, EmptyString) => let z := if neg then - z else z in if in_int32 z then Some z else None
  | _, _ => None
  end.

Definition maxQuantity : Z := 1000000.

Definition form_quantity (s : string) : Z :=
  match ParseInt32 s with
  | Some q => if (q <? 1) || (maxQuantity <? q) then 1 else q
  | None => 1
  end.

(** [healthStatus] *)
Definition health_of_bytes (b : string) : option string :=
  v ← Unmarshal b;
  decode_struct (λ k v st, if same_key k "status" then decode_str v st else Some st) "" v.

(** ** Routes *)
Inductive page_route : Type :=
  | RIndex | RStats | ROrders | RCreate | RGRPCOrders | RHealth
  | RStatic (name : string)
  | RNotAllowed | RNotFound.

(** The handlers registered for a path, and the methods they are registered for
    ([GET] takes [HEAD] too). *)
Definition page_route_of (method path : string) : page_route :=
  let get r := if is_get method then r else RNotAllowed in
  if decide (path = "/") then get RIndex
  else if decide (path = "/partials/stats") then get RStats
  else if decide (path = "/partials/orders") then if decide (method = "POST") then RCreate else get ROrders
  else if decide (path = "/partials/grpc-orders") then get RGRPCOrders
  else if decide (path = "/partials/health") then get RHealth
  else match strip_prefix "/static/" path with Some name => get (RStatic name) | None => RNotFound end.

(** [go:embed static/htmx.min.js static/style.css] *)
Definition dashboardStatic : list string := ["htmx.min.js"; "style.css"].

Definition not_found_page : page := PError 404 "404 page not found".

(** [http.FileServerFS] on the embedded files: one of them, or the list of them
    for the empty name.  Its redirects are left out. *)
Definition FileServer (name : string) : page :=
  if decide (name = "" ∨ name ∈ dashboardStatic) then PFile name else not_found_page.

Section dashboard.
Context {W : Type}.
Context (do_orders : string → string → list RequestOption → io W (res (list orderResponse)))
  (do_order : string → string → list RequestOption → io W (res orderResponse))
  (do_health : string → io W (res string)).
(** What the last [do_orders] left in the list beside an error: the part of the
    body it had decoded. *)
Context (left_over : W → list orderResponse).
(** The gRPC connection, and the call over it: an error is its text. *)
Context (connected : W → bool) (grpc_List : io W (list ProtoOrder + string)).
Context (rfc3339 : Z → string) (parse_rfc3339 : string → option Z) (Now : io W Z).

Definition fetchOrders : io W (res (list orderResponse)) := do_orders "GET" "/orders" [].

Definition count_status (st : string) (list : list orderResponse) : Z :=
  foldl (λ n o, if decide (normalizeStatus (resp_Status o) = st) then wrap_int64 (n + 1) else n) 0 list.

Definition stats_of (l : list orderResponse) (err : string) : statsView :=
  mkStats (Z.of_nat (length l)) (count_status "pending" l) (count_status "confirmed" l) (count_status "canceled" l) err.

(** It counts what it got even when there was an error. *)
Definition handleStatsPartial : io W page :=
  r ← fetchOrders;
  w ← get_world;
  mret (PStats (match r with
                | Err e => stats_of (left_over w) ("REST API error: " +:+ err_msg e)
                | Ok l => stats_of l ""
                end)).

(** A row of the REST table; the clock is read for each. *)
Definition rest_row (o : orderResponse) : io W dashboardOrder :=
  let row created :=
    mkRow (resp_ID o) (resp_CustomerID o) (normalizeStatus (resp_Status o)) (sum_qty (Quantity <$> resp_Items o))
      created (resp_CreatedAt o) in
  match parse_rfc3339 (resp_CreatedAt o) with
  | Some t => now ← Now; mret (row (relTime (time_sub now t)))
  | None => mret (row (resp_CreatedAt o))
  end.

Fixpoint rest_rows (l : list orderResponse) : io W (list dashboardOrder) :=
  match l with
  | [] => mret []
  | o :: l => row ← rest_row o; rows ← rest_rows l; mret (row :: rows)
  end.

Definition handleOrdersPartial : io W page :=
  r ← fetchOrders;
  match r with
  | Err e => mret (PPanel (mkPanel sourceREST [] ("REST API error: " +:+ err_msg e)))
  | Ok l => rows ← rest_rows l; mret (PPanel (mkPanel sourceREST rows ""))
  end.

(** [o.GetStatus().String()] *)
Definition OrderStatus_String (s : OrderStatus) : string :=
  match s with
  | ORDER_STATUS_UNSPECIFIED => "ORDER_STATUS_UNSPECIFIED"
  | ORDER_STATUS_PENDING => "ORDER_STATUS_PENDING"
  | ORDER_STATUS_CONFIRMED => "ORDER_STATUS_CONFIRMED"
  | ORDER_STATUS_CANCELED => "ORDER_STATUS_CANCELED"
  end.

Definition grpc_row (o : ProtoOrder) : io W dashboardOrder :=
  let created := CreatedAtUnix o * Second in
  now ← Now;
  mret (mkRow (Id o) (CustomerId o) (normalizeStatus (OrderStatus_String (ProtoStatus o)))
          (sum_qty (ProtoQuantity <$> ProtoItems o)) (relTime (time_sub now created)) (rfc3339 created)).

Fixpoint grpc_rows (l : list ProtoOrder) : io W (list dashboardOrder) :=
  match l with
  | [] => mret []
  | o :: l => row ← grpc_row o; rows ← grpc_rows l; mret (row :: rows)
  end.

Definition not_connected : string :=
  "gRPC client has not connected yet " +:+ utf8 8212 +:+ " try again in a moment".

Definition handleGRPCOrdersPartial : io W page :=
  w ← get_world;
  if negb (connected w) then mret (PPanel (mkPanel sourceGRPC [] not_connected))
  else
    r ← grpc_List;
    match r with
    | inr e => mret (PPanel (mkPanel sourceGRPC [] ("gRPC error: " +:+ e)))
    | inl l => rows ← grpc_rows l; mret (PPanel (mkPanel sourceGRPC rows ""))
    end.

(** The form's fields, [None] when [ParseForm] fails; a missing field is empty. *)
Definition form : Type := option (gmap string string).
Definition FormValue (f : gmap string string) (k : string) : string := default "" (f !! k).

Definition form_request (f : gmap string string) : createOrderRequest :=
  mkCreate (FormValue f "customer_id") [mkItem (FormValue f "sku") (form_quantity (FormValue f "quantity"))].

Definition create_options (f : gmap string string) : list RequestOption :=
  let body := request_bytes (form_request f) in
  [WithBody (mkReader body (Some (Z.of_nat (String.length body)))) "application/json"].

Definition handleCreatePartial (f : form) : io W page :=
  match f with
  | None => mret (PError 400 "invalid form")
  | Some f =>
      do_order "POST" "/orders" (create_options f);;
      if decide (FormValue f "source" = sourceGRPC) then handleGRPCOrdersPartial else handleOrdersPartial
  end.

Definition handleHealthPartial : io W page :=
  l ← do_health "/healthz";
  r ← do_health "/readyz";
  let '(live, liveOK) := match l with Ok st => (st, true) | Err _ => ("unreachable", false) end in
  let '(ready, readyOK) := match r with Ok st => (st, true) | Err e => (err_msg e, false) end in
  mret (PHealth (mkHealth live liveOK ready readyOK)).

Definition Mux (method path : string) (f : form) : io W page :=
  match page_route_of method path with
  | RIndex => mret PIndex
  | RStats => handleStatsPartial
  | ROrders => handleOrdersPartial
  | RCreate => handleCreatePartial f
  | RGRPCOrders => handleGRPCOrdersPartial
  | RHealth => handleHealthPartial
  | RStatic name => mret (FileServer name)
  | RNotAllowed => mret (PError 405 "Method Not Allowed")
  | RNotFound => mret not_found_page
  end.

(** ** Both sources show the same rows *)
Definition known_status (s : Status) : Prop := s = StatusPending ∨ s = StatusConfirmed ∨ s = StatusCanceled.

Lemma normalize_agrees s : known_status s → normalizeStatus s = normalizeStatus (OrderStatus_String (toProtoStatus s)).
Proof. by intros [->|[->| ->]]. Qed.

(** What a row shows but for the times. *)
Definition shows (r : dashboardOrder) : string * string * string * Z :=
  (d_ID r, d_CustomerID r, d_Status r, d_Qty r).
Definition order_shown (o : Order) : string * string * string * Z :=
  (ID o, CustomerID o, normalizeStatus (status o), sum_qty (Quantity <$> Items o)).

(** What the client reads of the API's response for an order. *)
Definition response_read (o : Order) : orderResponse := clean_response (toResponse rfc3339 o).

Lemma clean_qty (items : list Item) : Quantity <$> (clean_item <$> items) = Quantity <$> items.
Proof. by rewrite <-list_fmap_compose. Qed.

Lemma rest_row_shows o w : valid_order o → shows (rest_row (response_read o) w).1 = order_shown o.
Proof.
  intros (H1 & H2 & _ & H4). unfold rest_row, response_read, mbind, io_bind, mret, io_ret.
  assert (∀ t ts, shows (mkRow (sanitize (ID o)) (sanitize (CustomerID o)) (normalizeStatus (sanitize (status o)))
    (sum_qty (Quantity <$> (clean_item <$> Items o))) t ts) = order_shown o) as Hrow.
  { intros t ts. unfold shows, order_shown. simpl. by rewrite !sanitize_id, clean_qty. }
  simpl. destruct (parse_rfc3339 _); [destruct (Now w)|]; apply Hrow.
Qed.

Lemma rest_rows_show os w :
  Forall valid_order os → shows <$> (rest_rows (response_read <$> os) w).1 = order_shown <$> os.
Proof.
  intros Hv. revert w. induction Hv as [|o os Ho _ IH]; intros w; [done|]. rewrite fmap_cons. simpl.
  unfold mbind, io_bind, mret, io_ret in *. pose proof (λ w, rest_row_shows o w Ho) as Hrow.
  specialize (Hrow w). destruct (rest_row _ w) as [row w1]. specialize (IH w1).
  destruct (rest_rows _ w1) as [rows w2].
  cbn [fst] in *. change (shows row :: (shows <$> rows) = order_shown o :: (order_shown <$> os)). by rewrite Hrow, IH.
Qed.

Lemma grpc_rows_show os w :
  Forall (λ o, known_status (status o)) os →
  shows <$> (grpc_rows (toProto <$> os) w).1 = order_shown <$> os.
Proof.
  intros Hk. revert w. induction Hk as [|o os Hst _ IH]; intros w; [done|]. rewrite fmap_cons. simpl.
  unfold grpc_row, mbind, io_bind, mret, io_ret in *. destruct (Now w) as [now w1]. specialize (IH w1).
  destruct (grpc_rows _ w1) as [rows w2].
  cbn [fst] in *. rewrite !fmap_cons, IH. f_equal. unfold shows, order_shown. simpl.
  rewrite <-normalize_agrees by done. by rewrite <-list_fmap_compose.
Qed.

(** The API's list of the orders [os], as [httpcli.Do] gets it. *)
Definition listed (os : list Order) (r : res (list orderResponse)) : Prop :=
  r = decode_response [] responses_of_bytes 200 (Ok (responses_bytes (toResponse rfc3339 <$> os))).

Lemma listed_ok os r : Forall (λ o, int32_items (Items o)) os → listed os r → r = Ok (response_read <$> os).
Proof.
  intros Hi ->. unfold decode_response. change ((200 <? 200) || (300 <=? 200)) with false. cbv iota.
  destruct (decide _) as [H0|_].
  - unfold responses_bytes in H0. rewrite append_length in H0. change (String.length newline) with 1%nat in H0. lia.
  - rewrite responses_of_bytes_print; [|by apply Forall_fmap]. by rewrite <-list_fmap_compose.
Qed.

Lemma sum_qty_exact l q : Forall (λ z, 1 ≤ z ≤ MaxItemQuantity) l → (length l ≤ 100)%nat → 0 ≤ q ≤ MaxItemQuantity * (100 - Z.of_nat (length l)) →
  foldl (λ qty q, wrap_int64 (qty + q)) q l = q + foldr Z.add 0 l.
Proof.
  unfold MaxItemQuantity. intros Hl. revert q. induction Hl as [|z l Hz Hl IH]; intros q Hn Hq; simpl in *; [lia|].
  rewrite wrap_int64_id by (unfold min_int64, max_int64; lia). rewrite IH by lia. lia.
Qed.

(** The orders both APIs can list: of a known status, with int32 quantities and texts
    that are valid UTF-8, as those an API made are; protobuf sends no others. *)
Definition listable (o : Order) : Prop := known_status (status o) ∧ int32_items (Items o) ∧ valid_order o.

(** C38: one set of orders, two transports.  When the REST API lists the orders [os]
    and the gRPC API returns the same ones, the two panels show the same rows, in
    the same order, as far as ID, customer, status word and total quantity go,
    which for orders within the API's limits is the plain sum, without overflow;
    neither panel reports an error.  The Created column and its tooltip are not
    compared: they depend on the clock and the time zone. *)
Theorem dashboard_sources_agree os r w1 w2 w3 wg :
  Forall listable os →
  fetchOrders w1 = (r, w2) → listed os r →
  connected w3 = true → grpc_List w3 = (inl (toProto <$> os), wg) →
  ∃ rows1 rows2,
    (handleOrdersPartial w1).1 = PPanel (mkPanel sourceREST rows1 "") ∧
    (handleGRPCOrdersPartial w3).1 = PPanel (mkPanel sourceGRPC rows2 "") ∧
    shows <$> rows1 = order_shown <$> os ∧ shows <$> rows2 = order_shown <$> os ∧
    ∀ o, o ∈ os → ValidateNewOrder (CustomerID o) (Items o) = None →
      (order_shown o).2 = foldr Z.add 0 (Quantity <$> Items o).
Proof.
  intros Hos Hf Hl Hc Hg. apply Forall_and in Hos as [Hk [Hi Hv]%Forall_and]. apply listed_ok in Hl as ->; [|done].
  unfold handleOrdersPartial, handleGRPCOrdersPartial, mbind, io_bind, mret, io_ret, get_world.
  rewrite Hf, Hc. simpl. rewrite Hg.
  pose proof (rest_rows_show os w2 Hv) as H1. pose proof (grpc_rows_show os wg Hk) as H2.
  destruct (rest_rows _ w2) as [rows1 ?], (grpc_rows _ wg) as [rows2 ?]. exists rows1, rows2.
  split_and!; [done..|]. intros o _ (_ & Hn & Hq)%ValidateNewOrder_limits. simpl. unfold sum_qty.
  rewrite sum_qty_exact; [done| |by rewrite length_fmap; lia|rewrite length_fmap; unfold MaxItemQuantity; lia].
  apply Forall_fmap. eapply Forall_impl; [exact Hq|]. intros it [_ ?]. done.
Qed.

(** ** The counts *)
Lemma count_status_exact st l n :
  0 ≤ n → n + Z.of_nat (length l) ≤ max_int64 →
  foldl (λ n o, if decide (normalizeStatus (resp_Status o) = st) then wrap_int64 (n + 1) else n) n l =
  n + Z.of_nat (length (filter (λ o, normalizeStatus (resp_Status o) = st) l)).
Proof.
  revert n. induction l as [|o l IH]; intros n Hn Hmax; simpl in *; [lia|]. rewrite filter_cons.
  destruct (decide (normalizeStatus (resp_Status o) = st)).
  - rewrite wrap_int64_id by (unfold min_int64 in *; lia). rewrite IH by lia. simpl. lia.
  - by rewrite IH by lia.
Qed.

Lemma filter_response st (word : string) os :
  Forall (λ o, known_status (status o)) os → Forall valid_order os → known_status st → word = normalizeStatus st →
  length (filter (λ o, normalizeStatus (resp_Status o) = word) (response_read <$> os)) =
  length (filter (λ o, status o = st) os).
Proof.
  intros Hk Hv Hst ->. revert Hv. induction Hk as [|o os Ho _ IH]; [done|]. intros [(_ & _ & _ & Hs) Hv]%Forall_cons.
  rewrite fmap_cons, !filter_cons. simpl. rewrite (sanitize_id (status o)) by done. specialize (IH Hv).
  assert (normalizeStatus (status o) = normalizeStatus st ↔ status o = st) as Hiff.
  { split; [|by intros ->]. by destruct Ho as [->|[->| ->]], Hst as [->|[->| ->]]. }
  destruct (decide (status o = st)) as [Heq|Hne].
  - rewrite decide_True by (by apply Hiff). simpl. by rewrite IH.
  - rewrite decide_False by (by rewrite Hiff). done.
Qed.

Definition with_status (st : Status) (os : list Order) : Z := Z.of_nat (length (filter (λ o, status o = st) os)).

(** The counters.  The stats panel counts the orders the API lists: each
    counter is the number of orders with that status, and the three add up to the
    total. *)
Theorem stats_count_orders os r w w' :
  Forall listable os → Z.of_nat (length os) ≤ max_int64 →
  fetchOrders w = (r, w') → listed os r →
  (handleStatsPartial w).1 =
    PStats (mkStats (Z.of_nat (length os)) (with_status StatusPending os) (with_status StatusConfirmed os)
              (with_status StatusCanceled os) "") ∧
  with_status StatusPending os + with_status StatusConfirmed os + with_status StatusCanceled os = Z.of_nat (length os).
Proof.
  intros Hos Hmax Hf Hl. apply Forall_and in Hos as [Hk [Hi Hv]%Forall_and]. apply listed_ok in Hl as ->; [|done]. split.
  - unfold handleStatsPartial, mbind, io_bind, mret, io_ret, get_world, stats_of. rewrite Hf. simpl. unfold count_status, with_status.
    rewrite !count_status_exact by (rewrite ?length_fmap; lia). rewrite length_fmap.
    rewrite (filter_response StatusPending), (filter_response StatusConfirmed), (filter_response StatusCanceled);
      try done; unfold known_status; auto.
  - unfold with_status. clear -Hk. induction Hk as [|o os Ho _ IH]; [done|]. rewrite !filter_cons.
    destruct Ho as [E|[E|E]]; rewrite E; repeat (case_decide; [try done|try done]); cbn [length] in *; lia.
Qed.
End dashboard.

(** ** The create form *)
Lemma span_all (p : positive) : span_digits 0 (pretty p) = (Zpos p, "").
Proof.
  change (pretty p) with (pretty_N_go (Npos p) ""). destruct (span_digits_pretty (Npos p)) as (k & _ & ->). simpl.
  done.
Qed.

Lemma form_quantity_pretty (z : Z) : 1 ≤ z ≤ maxQuantity → form_quantity (pretty z) = z.
Proof.
  unfold maxQuantity. intros Hz. destruct z as [|p|p]; [lia| |lia]. unfold form_quantity, ParseInt32, maxQuantity.
  change (pretty (Zpos p)) with (pretty p). pose proof (span_all p) as Hs.
  destruct (pretty_first (Npos p) "") as (d & r & Hd & E); [lia|].
  change (pretty_N_go (Npos p) "") with (pretty p) in E. rewrite E in *. destruct (digit_char d) as [_ Hc]; [lia|].
  rewrite Hc. rewrite (proj2 (Z.eqb_neq (48 + Z.of_N d) 45)), (proj2 (Z.eqb_neq (48 + Z.of_N d) 43)) by lia.
  rewrite Hs. assert (in_int32 (Zpos p) = true) as -> by (apply andb_true_iff; unfold min_int32, max_int32; lia).
  assert ((Zpos p <? 1) || (1000000 <? Zpos p) = false) as -> by (apply orb_false_iff; lia). done.
Qed.

Lemma form_quantity_range s : 1 ≤ form_quantity s ≤ maxQuantity.
Proof.
  unfold form_quantity, maxQuantity. destruct (ParseInt32 s) as [q|]; [|lia].
  destruct ((q <? 1) || (1000000 <? q)) eqn:E; to_prop; lia.
Qed.

(** The create form.  Whatever is typed into it, the request the dashboard
    POSTs has a quantity between 1 and 1000000 (the one typed, when it is one;
    1 otherwise), so the narrowing to int32 loses nothing; as long as it fits
    the API's body limit it decodes there to what the form said, broken UTF-8
    replaced, and the API rejects it only for an empty customer or SKU. *)
Theorem create_form_within_limits f url :
  let q := foldl (λ r opt, opt r) (new_request "POST" url) (create_options f) in
  q_Header q !! "Content-Type" = Some "application/json" ∧
  q_ContentLength q = Z.of_nat (String.length (q_Body q)) ∧
  (1 ≤ form_quantity (FormValue f "quantity") ≤ MaxItemQuantity) ∧
  (∀ z : Z, 1 ≤ z ≤ MaxItemQuantity → FormValue f "quantity" = pretty z → form_quantity (FormValue f "quantity") = z) ∧
  (q_ContentLength q ≤ maxCreateBodyBytes → decode_body (q_Body q) = Some (clean_request (form_request f))) ∧
  (ValidateNewOrder (req_CustomerID (form_request f)) (req_Items (form_request f)) = None ↔
     FormValue f "customer_id" ≠ "" ∧ FormValue f "sku" ≠ "").
Proof.
  intros q. pose proof (form_quantity_range (FormValue f "quantity")) as Hr. unfold maxQuantity in Hr.
  split; [by apply lookup_insert_eq|]. split; [done|]. split; [done|].
  split; [intros z Hz ->; by apply form_quantity_pretty|]. split.
  - intros Hlen. change (q_Body q) with (request_bytes (form_request f)). rewrite decode_body_request.
    rewrite decide_True; [done|]. split; [|exact Hlen]. constructor; [|constructor]. simpl.
    apply andb_true_iff. unfold min_int32, max_int32. lia.
  - unfold ValidateNewOrder, form_request. simpl. unfold MaxItemQuantity in *.
    assert ((form_quantity (FormValue f "quantity") <? 1) || (1000000 <? form_quantity (FormValue f "quantity")) = false) as ->
      by (apply orb_false_iff; lia).
    repeat case_decide; naive_solver.
Qed.

(** ** Two orders, listed by both APIs *)
Definition dex_orders : list Order :=
  [mkOrder "ord_1" "alice" [mkItem "WIDGET" 2; mkItem "GADGET" 3] StatusConfirmed 0 Second;
   mkOrder "ord_2" "bob" [mkItem "WIDGET" 1] StatusPending (5 * Second) (5 * Second)].
Definition dex_rfc3339 (t : Z) : string := pretty t.
Definition dex_parse (s : string) : option Z := match ParseInt32 s with Some z => Some z | None => None end.
Definition dex_now : io unit Z := λ w, (65 * Second, w).
Definition dex_do (method p : string) (opts : list RequestOption) : io unit (res (list orderResponse)) := λ w,
  (decode_response [] responses_of_bytes 200 (Ok (responses_bytes (toResponse dex_rfc3339 <$> dex_orders))), w).
Definition dex_grpc : io unit (list ProtoOrder + string) := λ w, (inl (toProto <$> dex_orders), w).

Lemma dex_known : Forall listable dex_orders.
Proof.
  repeat (apply Forall_cons_2; [split; [unfold known_status; auto|by repeat constructor]|]). constructor.
Qed.

Lemma dashboard_sources_agree_witness :
  (handleOrdersPartial dex_do dex_parse dex_now tt).1 =
    PPanel (mkPanel sourceREST
      [mkRow "ord_1" "alice" "confirmed" 5 "1m ago" "0"; mkRow "ord_2" "bob" "pending" 1 "5000000000" "5000000000"] "") ∧
  ∃ rows1 rows2,
    (handleOrdersPartial dex_do dex_parse dex_now tt).1 = PPanel (mkPanel sourceREST rows1 "") ∧
    (handleGRPCOrdersPartial (λ _, true) dex_grpc dex_rfc3339 dex_now tt).1 = PPanel (mkPanel sourceGRPC rows2 "") ∧
    shows <$> rows1 = order_shown <$> dex_orders ∧ shows <$> rows2 = order_shown <$> dex_orders.
Proof.
  split; [vm_compute; reflexivity|].
  destruct (dashboard_sources_agree dex_do (λ _, true) dex_grpc dex_rfc3339 dex_parse dex_now dex_orders _ tt tt tt tt
    dex_known eq_refl eq_refl eq_refl eq_refl) as (rows1 & rows2 & H1 & H2 & H3 & H4 & _).
  exists rows1, rows2. split; [exact H1|]. split; [exact H2|]. split; [exact H3|exact H4].
Defined.

Lemma stats_count_orders_witness :
  (handleStatsPartial dex_do (λ _, []) tt).1 = PStats (mkStats 2 1 1 0 "") ∧
  with_status StatusPending dex_orders + with_status StatusConfirmed dex_orders +
    with_status StatusCanceled dex_orders = 2.
Proof.
  split; [vm_compute; reflexivity|].
  exact (proj2 (stats_count_orders dex_do (λ _, []) dex_rfc3339 dex_orders _ tt tt dex_known ltac:(vm_compute; discriminate)
    eq_refl eq_refl)).
Defined.

(** Hours are rounded by the binary64 sum before they are truncated: one
    nanosecond short of 10000 hours is shown as 10000 hours. *)
Example relTime_rounds_hours : relTime (10000 * Hour - 1) = "10000h ago".
Proof. vm_compute. reflexivity. Qed.
Example relTime_examples :
  relTime (-5) = "just now" ∧ relTime (Minute - 1) = "59s ago" ∧ relTime (Hour - 1) = "59m ago" ∧
  relTime (25 * Hour) = "25h ago".
Proof. split_and!; vm_compute; reflexivity. Qed.
