(* ===== verification/Pages.v ===== *)
(** * orders: the dashboard's pages

    The four templates of dashboard.go, as their text is (between backquotes there,
    with the double quotes written as single ones here and [html] putting them
    back), what each view is to its template, and [respond], from what a handler
    answers (Dashboard.v) to what is sent.  Theorems: the templates parse and are
    placed, and every page renders; whatever strings come from the APIs, a page
    has the markup its template gives it; the table of the orders panel, read
    as a browser reads it, has exactly the cells of the orders; every link of
    the pages is served. *)
From Stdlib Require Import Ascii.
From S2P Require Import Prelude JsonText HtmlTemplate HttpServer Orders Api Dashboard.

Fixpoint html (s : string) : string :=
  match s with
  | EmptyString => EmptyString
  | String c s => String (if decide (c = "'"%char) then quote else c) (html s)
  end.

(** ** The templates *)
(** [indexTmpl] *)
Definition indexTmpl : string := html "<!doctype html>
<html lang='en'>
<head>
<meta charset='utf-8'>
<meta name='viewport' content='width=device-width, initial-scale=1'>
<title>orders-service dashboard</title>
<link rel='stylesheet' href='/static/style.css'>
<script src='/static/htmx.min.js'></script>
</head>
<body>
<header class='topbar'>
  <div class='brand'>
    <span class='glyph'>os</span>
    orders-service
    <span class='sub'>gokit-services example</span>
  </div>
  <div class='spacer'></div>
  <span id='health-pills' class='pills'>
    <span class='pill'>health&hellip;</span>
  </span>
</header>
<main>
  <section id='stats' class='stats' aria-label='Orders summary'
           hx-get='/partials/stats' hx-trigger='load, every 2s' hx-swap='innerHTML'></section>

  <div class='cols'>
    <div class='side'>
      <section class='card'>
        <div class='card-head'><h2>Create order</h2></div>
        <div class='card-body'>
          <p class='hint'>POSTs to the REST API via <code>http/client</code>; the handler enqueues async confirmation on <code>workerpool</code>.</p>
          <form hx-post='/partials/orders' hx-include='#current-source' hx-target='#orders-panel' hx-swap='innerHTML'>
            <label>Customer ID
              <input type='text' name='customer_id' value='cust_1' required>
            </label>
            <label>SKU
              <input type='text' name='sku' value='WIDGET' required>
            </label>
            <label>Quantity
              <input type='number' name='quantity' value='1' min='1' required>
            </label>
            <button class='btn btn-primary' type='submit'>Create order<span class='spinner'>&hellip;</span></button>
          </form>
        </div>
      </section>

      <section class='card'>
        <div class='card-head'>
          <h2>Health</h2>
          <div class='spacer'></div>
          <span class='refresh'>every 3s</span>
        </div>
        <div class='card-body'>
          <p class='hint'>Polls <code>/healthz</code> and <code>/readyz</code> on healthserver via <code>http/client</code>. Readiness flips once the periodic cleanup job has swept at least once.</p>
          <div id='health' hx-get='/partials/health' hx-trigger='load, every 3s' hx-swap='innerHTML'>Loading&hellip;</div>
        </div>
      </section>
    </div>

    <section class='card'>
      <div id='orders-panel' hx-get='/partials/orders' hx-trigger='load' hx-swap='innerHTML'>
        <div class='card-head'><h2>Orders</h2></div>
        <div class='card-body'><p class='empty'>Loading&hellip;</p></div>
      </div>
    </section>
  </div>
</main>
<footer>gokit-services example &mdash; <code>go run ./example/orders-service/cmd/orders-service</code></footer>
</body>
</html>
".

(** [ordersPanelTmpl]: the card with the source switcher, the table and, for REST, the
    element that polls. *)
Definition ordersPanelTmpl : string := html "
<input type='hidden' id='current-source' name='source' value='{{ .Source }}' hx-swap-oob='true'>
<div class='card-head'>
  <h2>Orders</h2>
  <div class='seg' role='group' aria-label='Data source'>
    <button type='button' aria-pressed='{{ if eq .Source 'rest' }}true{{ else }}false{{ end }}'
            hx-get='/partials/orders' hx-target='#orders-panel' hx-swap='innerHTML'>REST /orders</button>
    <button type='button' aria-pressed='{{ if eq .Source 'grpc' }}true{{ else }}false{{ end }}'
            hx-get='/partials/grpc-orders' hx-target='#orders-panel' hx-swap='innerHTML'>gRPC ListOrders</button>
  </div>
  <div class='spacer'></div>
  <span class='refresh'>{{ if eq .Source 'rest' }}<span class='refresh-dot'></span>every 2s{{ else }}on demand{{ end }}</span>
</div>
<div class='card-body'>
  {{ if eq .Source 'rest' -}}
  <p class='hint'>Polled every 2s via <code>httpcli.Do[T]</code> against the REST API.</p>
  {{- else -}}
  <p class='hint'>Live <code>OrdersService/ListOrders</code> call over <code>grpc/client</code> &mdash; the same Store as the REST view. Click the source button again to refresh.</p>
  {{- end }}
  {{ if .Error -}}
  <p class='error'>{{ .Error }}</p>
  {{- else if not .Rows -}}
  <p class='empty'>No orders yet.</p>
  {{- else -}}
  <div class='table-wrap'>
    <table>
      <thead><tr><th>ID</th><th>Customer</th><th>Status</th><th class='num'>Qty</th><th>Created</th></tr></thead>
      <tbody>
      {{- range .Rows }}
        <tr>
          <td class='mono'>{{ .ID }}</td>
          <td class='mono'>{{ .CustomerID }}</td>
          <td><span class='badge badge-{{ .Status }}'><span class='dot'></span>{{ .Status }}</span></td>
          <td class='num'>{{ .Qty }}</td>
          <td class='time' title='{{ .CreatedTS }}'>{{ .CreatedAt }}</td>
        </tr>
      {{- end }}
      </tbody>
    </table>
  </div>
  {{- end }}
</div>
{{ if eq .Source 'rest' }}<div hx-get='/partials/orders' hx-trigger='every 2s' hx-target='#orders-panel' hx-swap='innerHTML'></div>{{ end }}
".

(** [statsTmpl] *)
Definition statsTmpl : string := html "
{{- if .Error -}}
<p class='error'>{{ .Error }}</p>
{{- else -}}
<div class='stat'>
  <span class='k'>Total orders</span>
  <span class='v'>{{ .Total }}</span>
  <span class='d'>in store</span>
</div>
<div class='stat'>
  <span class='k'><span class='dot dot-pending'></span>Pending</span>
  <span class='v'>{{ .Pending }}</span>
  <span class='d'>awaiting confirm on workerpool</span>
</div>
<div class='stat'>
  <span class='k'><span class='dot dot-confirmed'></span>Confirmed</span>
  <span class='v'>{{ .Confirmed }}</span>
  <span class='d'>confirmed asynchronously</span>
</div>
<div class='stat'>
  <span class='k'><span class='dot dot-canceled'></span>Canceled</span>
  <span class='v'>{{ .Canceled }}</span>
  <span class='d'>stale, swept by cleanup</span>
</div>
{{- end -}}
".

(** [healthTmpl]: the card, and the pills of the top bar out of band. *)
Definition healthTmpl : string := html "
<div class='health-list'>
  <div class='health-row'>
    <span class='endpoint'>GET /healthz</span>
    <span class='spacer'></span>
    <span class='state {{ if .LiveOK }}state-ok{{ else }}state-err{{ end }}'><span class='dot'></span><span class='txt'>{{ .Live }}</span></span>
  </div>
  <div class='health-row'>
    <span class='endpoint'>GET /readyz</span>
    <span class='spacer'></span>
    <span class='state {{ if .ReadyOK }}state-ok{{ else }}state-err{{ end }}'><span class='dot'></span><span class='txt'>{{ .Ready }}</span></span>
  </div>
</div>
<span id='health-pills' hx-swap-oob='innerHTML'>
  <span class='pill'><span class='pip {{ if .LiveOK }}pip-ok live{{ else }}pip-err{{ end }}'></span>live <b>{{ if .LiveOK }}{{ .Live }}{{ else }}down{{ end }}</b></span>
  <span class='pill'><span class='pip {{ if .ReadyOK }}pip-ok{{ else }}pip-err{{ end }}'></span>ready <b>{{ if .ReadyOK }}{{ .Ready }}{{ else }}down{{ end }}</b></span>
</span>
".

(** [template.Must(template.New(name).Parse(text))]: [None] is its panic. *)
Definition Must (text : string) : option (list node) := parse text.

Definition nodes_of (text : string) : list node := default [] (Must text).

Definition index_nodes : list node := Eval vm_compute in nodes_of indexTmpl.
Definition panel_nodes : list node := Eval vm_compute in nodes_of ordersPanelTmpl.
Definition stats_nodes : list node := Eval vm_compute in nodes_of statsTmpl.
Definition health_nodes : list node := Eval vm_compute in nodes_of healthTmpl.

Lemma templates_parse :
  Must indexTmpl = Some index_nodes ∧ Must ordersPanelTmpl = Some panel_nodes ∧
  Must statsTmpl = Some stats_nodes ∧ Must healthTmpl = Some health_nodes.
Proof. repeat split; vm_compute; reflexivity. Qed.

Lemma templates_placed : Forall (λ ns, well_placed ns = true) [index_nodes; panel_nodes; stats_nodes; health_nodes].
Proof. repeat constructor; vm_compute; reflexivity. Qed.

(** ** The views, as the templates see them *)
Definition row_fields (r : dashboardOrder) : fields :=
  [("ID", SStr (d_ID r)); ("CustomerID", SStr (d_CustomerID r)); ("Status", SStr (d_Status r)); ("Qty", SInt (d_Qty r));
   ("CreatedAt", SStr (d_CreatedAt r)); ("CreatedTS", SStr (d_CreatedTS r))].

Definition panel_data (v : ordersPanelView) : data :=
  [("Source", VScalar (SStr (v_Source v))); ("Rows", VRows (row_fields <$> v_Rows v)); ("Error", VScalar (SStr (v_Error v)))].

Definition stats_data (v : statsView) : data :=
  [("Total", VScalar (SInt (Total v))); ("Pending", VScalar (SInt (Pending v)));
   ("Confirmed", VScalar (SInt (Confirmed v))); ("Canceled", VScalar (SInt (Canceled_ v)));
   ("Error", VScalar (SStr (s_Error v)))].

Definition health_data (v : healthView) : data :=
  [("Live", VScalar (SStr (Live v))); ("LiveOK", VScalar (SBool (LiveOK v)));
   ("Ready", VScalar (SStr (Ready v))); ("ReadyOK", VScalar (SBool (ReadyOK v)))].

Definition page_template (p : page) : option (list node * data) :=
  match p with
  | PIndex => Some (index_nodes, [])
  | PPanel v => Some (panel_nodes, panel_data v)
  | PStats v => Some (stats_nodes, stats_data v)
  | PHealth v => Some (health_nodes, health_data v)
  | PFile _ | PError _ _ => None
  end.

Definition html_type : string := "text/html; charset=utf-8".
Definition text_type : string := "text/plain; charset=utf-8".

Definition renderPage (p : page) : option string := '(ns, d) ← page_template p; execute ns d.

(** The status, the content type and the body; [None] if a template failed to
    execute (then the handler logs, after what it had written).  [file] is what
    the file server sends for a file of the embedded directory. *)
Definition respond (file : string → string * string) (p : page) : option (Z * string * string) :=
  match p with
  | PFile name => Some (200, (file name).1, (file name).2)
  | PError code message => Some (code, text_type, message +:+ newline)
  | _ => body ← renderPage p; Some (200, html_type, body)
  end.

(** ** Every page renders *)
Definition row_kinds : list (string * skind) :=
  [("ID", KStr); ("CustomerID", KStr); ("Status", KStr); ("Qty", KInt); ("CreatedAt", KStr); ("CreatedTS", KStr)].
Definition panel_schema : schema := [("Source", KScalar KStr); ("Rows", KRows row_kinds); ("Error", KScalar KStr)].
Definition stats_schema : schema :=
  [("Total", KScalar KInt); ("Pending", KScalar KInt); ("Confirmed", KScalar KInt); ("Canceled", KScalar KInt);
   ("Error", KScalar KStr)].
Definition health_schema : schema :=
  [("Live", KScalar KStr); ("LiveOK", KScalar KBool); ("Ready", KScalar KStr); ("ReadyOK", KScalar KBool)].

Lemma panel_has_schema v : data_has (panel_data v) panel_schema.
Proof.
  repeat (constructor; [split; [done|]|]); [done| |done|by constructor].
  simpl. rewrite Forall_fmap. by apply Forall_true.
Qed.

Lemma views_typed :
  all_typed index_nodes [] = true ∧ all_typed panel_nodes panel_schema = true ∧
  all_typed stats_nodes stats_schema = true ∧ all_typed health_nodes health_schema = true.
Proof. repeat split; vm_compute; reflexivity. Qed.

(** A page from a template. *)
Definition is_html (p : page) : Prop := is_Some (page_template p).

Lemma template_ok p ns d :
  page_template p = Some (ns, d) → well_placed ns = true ∧ ∃ ps, evals ns d = Some ps ∧ renderPage p = Some (written ps).
Proof.
  intros Hp. destruct views_typed as (H1 & H2 & H3 & H4).
  pose proof templates_placed as Hw.
  apply Forall_cons_1 in Hw as [W1 Hw]. apply Forall_cons_1 in Hw as [W2 Hw].
  apply Forall_cons_1 in Hw as [W3 Hw]. apply Forall_cons_1 in Hw as [W4 _].
  assert (well_placed ns = true ∧ is_Some (evals ns d)) as [Hw [ps Hps]].
  { destruct p; try discriminate Hp; injection Hp as <- <-; split.
    - exact W1.
    - apply (evals_typed _ _ _ H1). constructor.
    - exact W2.
    - apply (evals_typed _ _ _ H2), panel_has_schema.
    - exact W3.
    - apply (evals_typed _ _ _ H3). repeat constructor.
    - exact W4.
    - apply (evals_typed _ _ _ H4). repeat constructor. }
  split; [exact Hw|]. exists ps. split; [exact Hps|].
  unfold renderPage. rewrite Hp. cbn [mbind option_bind]. unfold execute. rewrite Hps. reflexivity.
Qed.

Lemma respond_html file p body : renderPage p = Some body → respond file p = Some (200, html_type, body).
Proof. intros H. destruct p; try discriminate H; unfold respond; rewrite H; reflexivity. Qed.

(** ** What comes from outside is only ever text

    Pages that differ only in strings and numbers (not in the source, whether
    there is an error, how many rows, what is reachable). *)
Definition page_alike (p1 p2 : page) : Prop :=
  match p1, p2 with
  | PIndex, PIndex => True
  | PPanel v1, PPanel v2 =>
      v_Source v1 = v_Source v2 ∧ length (v_Rows v1) = length (v_Rows v2) ∧ (v_Error v1 = "" ↔ v_Error v2 = "")
  | PStats v1, PStats v2 => s_Error v1 = "" ↔ s_Error v2 = ""
  | PHealth v1, PHealth v2 => LiveOK v1 = LiveOK v2 ∧ ReadyOK v1 = ReadyOK v2
  | _, _ => False
  end.

Lemma alike_rows (rows1 rows2 : list dashboardOrder) (P : fields → fields → Prop) :
  (∀ r1 r2, P (row_fields r1) (row_fields r2)) → length rows1 = length rows2 →
  Forall2 P (row_fields <$> rows1) (row_fields <$> rows2).
Proof.
  intros HP. revert rows2. induction rows1 as [|r1 rows1 IH]; intros [|r2 rows2] Hl; simplify_eq/=; constructor; auto.
Qed.

Lemma same_emptiness s1 s2 : (s1 = "" ↔ s2 = "") → String.eqb s1 "" = String.eqb s2 "".
Proof. destruct s1, s2; naive_solver. Qed.

Lemma page_alike_data p1 p2 :
  page_alike p1 p2 → ∃ ns d1 d2, page_template p1 = Some (ns, d1) ∧ page_template p2 = Some (ns, d2) ∧ all_alike ns d1 d2.
Proof.
  intros Ha. destruct p1 as [|v1|v1|v1| |], p2 as [|v2|v2|v2| |]; try done; eexists _, _, _; (split; [reflexivity|]);
    (split; [reflexivity|]).
  - repeat split.
  - destruct Ha as (Hs & Hr & He). unfold panel_data. rewrite Hs. apply same_emptiness in He.
    destruct (v_Rows v1) as [|r1 rows1] eqn:E1, (v_Rows v2) as [|r2 rows2] eqn:E2; try done; cbn; rewrite He; repeat split.
    + intros ? ? [= <-] [= <-]. constructor.
    + intros ? ? [= <-] [= <-]. apply (alike_rows (r1 :: rows1) (r2 :: rows2)); [|done]. intros. repeat split.
  - apply same_emptiness in Ha. cbn. rewrite Ha. repeat split.
  - destruct Ha as [Hl Hr]. cbn. rewrite Hl, Hr. repeat split.
Qed.

(** C10: no injection.  Every page renders (template.Must panicked on none of the
    templates, html/template refuses none, and Execute fails on no view); and
    whatever strings and numbers the APIs answered, from customers' names to
    error texts, the markup that is sent, its tags and the names of their
    attributes, is the one the template gives that view, and ends outside
    any tag. *)
Theorem no_injection file p1 p2 :
  page_alike p1 p2 →
  ∃ body1 body2,
    respond file p1 = Some (200, html_type, body1) ∧ respond file p2 = Some (200, html_type, body2) ∧
    markup HText body1 = markup HText body2 ∧ scan HText body1 = HText.
Proof.
  intros Ha. destruct (page_alike_data _ _ Ha) as (ns & d1 & d2 & H1 & H2 & Hd).
  destruct (template_ok _ _ _ H1) as (Hw & ps1 & He1 & Hr1), (template_ok _ _ _ H2) as (_ & ps2 & He2 & Hr2).
  destruct (alike_same_markup _ _ _ _ _ Hw Hd He1 He2) as [Hs Hm]. exists (written ps1), (written ps2).
  split; [by apply respond_html|]. split; [by apply respond_html|]. split; [exact Hm|exact Hs].
Qed.

(** ** The table *)

(** The body of the first [range]. *)
Fixpoint range_body (n : node) : option (list node) :=
  let fix first ns :=
    match ns with [] => None | n :: ns => match range_body n with Some b => Some b | None => first ns end end in
  match n with
  | NRange _ body => Some body
  | NIf _ yes no => match first yes with Some b => Some b | None => first no end
  | _ => None
  end.

Definition row_body : list node := Eval vm_compute in default [] (range_body (NIf (EField "") panel_nodes [])).

Definition row_pieces (r : dashboardOrder) : list piece := default [] (evals row_body (row_data (row_fields r))).

Lemma each_rows rows : each row_body (row_fields <$> rows) = Some (concat (row_pieces <$> rows)).
Proof.
  induction rows as [|r rows IH]; [reflexivity|].
  change (each row_body (row_fields <$> r :: rows)) with
    (ps ← evals row_body (row_data (row_fields r)); qs ← each row_body (row_fields <$> rows); Some (ps ++ qs)).
  rewrite IH. reflexivity.
Qed.

(** What a row's cells are sent as. *)
Definition row_cells (r : dashboardOrder) : list string :=
  [d_ID r; d_CustomerID r; d_Status r; pretty (d_Qty r); d_CreatedAt r].

(** [browse] through a text of the template. *)
Ltac browse_text :=
  match goal with
  | |- context [browse (mkBrowser ?a ?t ?c ?cs) ?s] =>
      lazymatch s with String _ _ => idtac end;
      let b := eval vm_compute in (browse (mkBrowser a t c cs) s) in change (browse (mkBrowser a t c cs) s) with b
  end.
Ltac browse_all :=
  repeat first [browse_text | rewrite browse_in_cell by assumption | rewrite browse_in_attribute by assumption].

Lemma row_reads r cells :
  browse (blank_browser cells) (written (row_pieces r)) = blank_browser (reverse (HtmlTemplate.escape <$> row_cells r) ++ cells).
Proof.
  unfold row_cells. cbn [fmap list_fmap].
  change (row_pieces r) with
    (let p := default [] (evals row_body (row_data (row_fields r))) in p). cbv zeta.
  pose proof (escape_inert (d_ID r)). pose proof (escape_inert (d_CustomerID r)). pose proof (escape_inert (d_Status r)).
  pose proof (escape_inert (pretty (d_Qty r))). pose proof (escape_inert (d_CreatedAt r)). pose proof (escape_inert (d_CreatedTS r)).
  cbv [reverse]. cbn -[HtmlTemplate.escape browse String.append pretty blank_browser].
  rewrite !browse_app. unfold blank_browser.
  repeat match goal with H : inert ?x |- _ => tryif is_var x then fail else revert H; generalize x; intros ? ? end.
  browse_all.
  reflexivity.
Qed.

Lemma rows_read rows cells :
  browse (blank_browser cells) (written (concat (row_pieces <$> rows))) =
  blank_browser (reverse (HtmlTemplate.escape <$> concat (row_cells <$> rows)) ++ cells).
Proof.
  revert cells. induction rows as [|r rows IH]; intros cells; [reflexivity|].
  rewrite !fmap_cons. cbn [concat]. rewrite written_app, browse_app, row_reads, IH.
  by rewrite fmap_app, reverse_app, (assoc_L app).
Qed.

(** Executing a template while reading what it writes. *)
Definition leads (ns : list node) (d : data) (b b' : browser) : Prop :=
  ∃ ps, evals ns d = Some ps ∧ browse b (written ps) = b'.

Lemma leads_nil d b : leads [] d b b.
Proof. by exists []. Qed.

Lemma leads_cons n ns d ps b b1 b' :
  eval n d = Some ps → browse b (written ps) = b1 → leads ns d b1 b' → leads (n :: ns) d b b'.
Proof.
  intros He Hb (qs & Hq & Hw). exists (ps ++ qs). split; [cbn [evals]; by rewrite He, Hq|].
  by rewrite written_app, browse_app, Hb.
Qed.

Lemma leads_if e yes no ns d (t : bool) b b1 b' :
  test e d = Some t → leads (if t then yes else no) d b b1 → leads ns d b1 b' → leads (NIf e yes no :: ns) d b b'.
Proof.
  intros Ht (ps & Hp & Hw) Hl. eapply leads_cons; [|exact Hw|exact Hl]. rewrite eval_if, Ht. by destruct t.
Qed.

Lemma leads_rows rows ns d cells b' :
  get "Rows" d = Some (VRows (row_fields <$> rows)) →
  leads ns d (blank_browser (reverse (HtmlTemplate.escape <$> concat (row_cells <$> rows)) ++ cells)) b' →
  leads (NRange "Rows" row_body :: ns) d (blank_browser cells) b'.
Proof.
  intros Hr Hl. eapply leads_cons; [|apply rows_read|exact Hl]. rewrite eval_range, Hr. apply each_rows.
Qed.

(** One node that writes no row. *)
Ltac lead := eapply leads_cons; [reflexivity|vm_compute; reflexivity|].

Lemma panel_reads src rows :
  src = sourceREST ∨ src = sourceGRPC →
  leads panel_nodes (panel_data (mkPanel src rows "")) (blank_browser [])
    (blank_browser (reverse (HtmlTemplate.escape <$> concat (row_cells <$> rows)))).
Proof.
  intros Hsrc. unfold panel_nodes. rewrite <-(app_nil_r (reverse _)).
  destruct rows as [|r rows], Hsrc as [-> | ->].
  1, 2: repeat lead; apply leads_nil.
  1, 2: do 11 lead; set (b' := blank_browser (reverse _ ++ [])).
  all: eapply (leads_if _ _ _ _ _ false _ b'); [reflexivity| |subst b'; generalize (reverse (HtmlTemplate.escape <$> concat (row_cells <$> r :: rows)) ++ []); intros cells; repeat lead; apply leads_nil].
  all: eapply (leads_if _ _ _ _ _ false _ b'); [reflexivity| |apply leads_nil].
  all: lead; apply (leads_rows (r :: rows)); [reflexivity|]; subst b'.
  all: generalize (reverse (HtmlTemplate.escape <$> concat (row_cells <$> r :: rows)) ++ []); intros cells.
  all: repeat lead; apply leads_nil.
Qed.

Lemma no_nul_pretty (z : Z) : no_nul (pretty z).
Proof.
  assert (∀ x t, no_nul t → no_nul (pretty_N_go x t)) as Hgo.
  { intros x. induction (N.lt_wf_0 x) as [x _ IH]. intros t Ht.
    destruct (decide (x = 0)%N) as [->|Hx]; [by rewrite pretty_N_go_0|].
    rewrite pretty_N_go_step by lia. apply IH; [apply N.div_lt; lia|]. apply Forall_cons. split; [|exact Ht].
    destruct (digit_char (x mod 10)%N) as [_ Hc]; [by apply N.mod_lt|]. unfold code_of in Hc.
    intros H0. apply (f_equal Z.of_nat) in H0. unfold nat_of_ascii in H0. rewrite N_nat_Z in H0. rewrite H0 in Hc.
    pose proof (N2Z.is_nonneg (x `mod` 10)). lia. }
  assert (∀ p : positive, no_nul (pretty p)) as Hp by (intros p; apply Hgo; constructor).
  destruct z as [|p|p]; [repeat constructor; discriminate|apply Hp|].
  change (pretty (Zneg p)) with (String "-" (pretty p)). apply Forall_cons. split; [discriminate|apply Hp].
Qed.

Definition row_no_nul (r : dashboardOrder) : Prop :=
  no_nul (d_ID r) ∧ no_nul (d_CustomerID r) ∧ no_nul (d_Status r) ∧ no_nul (d_CreatedAt r).

Lemma unescape_cells rows :
  Forall row_no_nul rows →
  unescape <$> (HtmlTemplate.escape <$> concat (row_cells <$> rows)) = concat (row_cells <$> rows).
Proof.
  induction 1 as [|r rows (H1 & H2 & H3 & H4) _ IH]; [reflexivity|].
  rewrite fmap_cons. cbn [concat]. rewrite !fmap_app, IH. f_equal. unfold row_cells. cbn [fmap list_fmap].
  by rewrite !unescape_escape by auto using no_nul_pretty.
Qed.

(** C11: what the orders panel shows.  Whatever the orders' texts, tags or quotes in
    them included, the page of a panel without error parses, for a browser, to a
    table whose cells are those of its rows and nothing else: ID, customer,
    status, quantity and age of each order, in order, character for character. *)
Theorem panel_shows_rows file src rows :
  src = sourceREST ∨ src = sourceGRPC → Forall row_no_nul rows →
  ∃ body,
    respond file (PPanel (mkPanel src rows "")) = Some (200, html_type, body) ∧
    table_cells body = concat (row_cells <$> rows).
Proof.
  intros Hsrc Hrows. destruct (panel_reads src rows Hsrc) as (ps & Hps & Hw). exists (written ps). split.
  - apply respond_html. unfold renderPage. cbn [page_template mbind option_bind]. unfold execute. by rewrite Hps.
  - unfold table_cells. rewrite Hw. cbn [b_cells blank_browser]. rewrite reverse_involutive. by apply unescape_cells.
Qed.

(** ** Links *)
Fixpoint until_char (q : ascii) (s : string) : string :=
  match s with EmptyString => EmptyString | String c r => if decide (c = q) then EmptyString else String c (until_char q r) end.

(** The values of an attribute, as they stand in a page. *)
Fixpoint attributes (name : string) (s : string) : list string :=
  match s with
  | EmptyString => []
  | String _ r =>
      match strip_prefix (" " +:+ name +:+ "=" +:+ String quote EmptyString) s with
      | Some v => [until_char quote v]
      | None => []
      end ++ attributes name r
  end.

Definition links (s : string) : list (string * string) :=
  ((λ p, ("GET", p)) <$> (attributes "href" s ++ attributes "src" s ++ attributes "hx-get" s)) ++
  ((λ p, ("POST", p)) <$> attributes "hx-post" s).

Definition served (l : string * string) : bool :=
  match page_route_of l.1 l.2 with
  | RNotFound | RNotAllowed => false
  | RStatic name => bool_decide (name ∈ dashboardStatic)
  | _ => true
  end.

(** The pages and the routes.  Every link of the templates, stylesheet and script
    included, goes to a handler that takes its method, or to a file that is
    embedded; and the names of the form's inputs are the ones the create handler
    reads. *)
Theorem links_are_served :
  concat (links <$> [indexTmpl; ordersPanelTmpl; statsTmpl; healthTmpl]) =
    [("GET", "/static/style.css"); ("GET", "/static/htmx.min.js"); ("GET", "/partials/stats"); ("GET", "/partials/health");
     ("GET", "/partials/orders"); ("POST", "/partials/orders");
     ("GET", "/partials/orders"); ("GET", "/partials/grpc-orders"); ("GET", "/partials/orders")] ∧
  Forall (λ l, served l = true) (concat (links <$> [indexTmpl; ordersPanelTmpl; statsTmpl; healthTmpl])) ∧
  attributes "name" indexTmpl = ["viewport"; "customer_id"; "sku"; "quantity"] ∧
  attributes "name" ordersPanelTmpl = ["source"].
Proof. split_and!; [vm_compute; reflexivity| |vm_compute; reflexivity..]. vm_compute. repeat constructor. Qed.

(** ** A customer who tries *)
Definition pex_rows : list dashboardOrder :=
  [mkRow "ord_1" "<script>alert('x')</script>" "pending" 2 "5s ago" "2024-05-01T00:00:00Z";
   mkRow "ord_2" "a&amp;b" "confirmed" (-1) "1h ago" (html "' onmouseover='x")].
Definition pex_file (name : string) : string * string := ("text/css", name).

Lemma panel_shows_rows_witness :
  ∃ body, respond pex_file (PPanel (mkPanel "rest" pex_rows "")) = Some (200, html_type, body) ∧
    table_cells body =
      ["ord_1"; "<script>alert('x')</script>"; "pending"; "2"; "5s ago"; "ord_2"; "a&amp;b"; "confirmed"; "-1"; "1h ago"].
Proof.
  apply (panel_shows_rows pex_file "rest" pex_rows).
  - by left.
  - repeat constructor; discriminate.
Defined.

Lemma no_injection_witness :
  ∃ body1 body2,
    respond pex_file (PStats (mkStats 0 0 0 0 "<b>")) = Some (200, html_type, body1) ∧
    respond pex_file (PStats (mkStats 1 2 3 4 (html "'>"))) = Some (200, html_type, body2) ∧
    markup HText body1 = markup HText body2 ∧ scan HText body1 = HText.
Proof. apply (no_injection pex_file (PStats _) (PStats _)). done. Defined.
