(* ===== verification/Main.v ===== *)
(** * cmd/orders-service: main, end to end

    App.v at the configuration of main.go: the entrypoint with its seven services
    and the backends the environment chose, the order processor's pool among
    them, over the composed store.  Theorem: what a shutdown within the ten seconds
    main allows leaves of the orders: none that was accepted is still in the pool,
    each task has run once, and those whose processing had not passed its delay
    when the services' context ended were interrupted, not confirmed. *)
From S2P Require Import Prelude GoContext Orders MemoryStore Processing Entrypoint Backends System App.
From S2P Require WorkerPool.

(** Where the pool is in [svcs]; the services before it all have a [Stop]. *)
Definition pool_index : nat := 5.

(** [NewOrderProcessor] gave it [WithDrainOnStop]. *)
Lemma main_pool p :
  Processing.pool main_processor = Some p →
  0 < WorkerPool.size p ∧ 0 ≤ WorkerPool.tasks_cap p ∧ WorkerPool.drainOnStop p = true ∧
  0 < processDelay main_processor.
Proof. intros H. vm_compute in H. injection H as <-. done. Qed.

Lemma main_pool_index {A} (opt : list A) :
  services (main_entrypoint opt) !! pool_index = Some (mkService workers true) ∧
  filter (λ sv, implements_Shutdown sv = true) (services (main_entrypoint opt)) !! pool_index = Some (mkService workers true).
Proof. done. Qed.

Section main.
Context {W : Type} (S : Store W) (Now : io W Z) {A : Type} (opt : list A) (p : WorkerPool.Pool).
Context (svc_id stop_id shutdown_id : positive).
Context (abs : W → gmap string Order) (wf room : W → Prop).

Definition main_runs (s0 s : @App.state W) : Prop :=
  app_runs S Now main_processor p (main_entrypoint opt) Background svc_id stop_id shutdown_id pool_index pool_index room s0 s.
Definition main_boots (σ0 : GoContext.cancels) (s : @App.state W) : Prop :=
  boots (main_entrypoint opt) Background stop_id shutdown_id abs wf room σ0 s.

(** C8: what a graceful shutdown does to the orders.  Let the pool see in [s1] that
    the services' context has ended, and let [Run] return in [s] before main's ten
    seconds are over.  Then the queue is empty and the task of every order
    whose [Enqueue] returned nil, up to the last request answered during the
    shutdown, has run exactly once; those reported confirmed are CONFIRMED in the
    store.  But an order whose delay had not passed in [s1], every order still in
    the queue among them, was interrupted: it is not confirmed, and stays
    PENDING unless a sweep cancelled it. *)
Theorem main_graceful_shutdown σ0 s0 s1 s
    {answers grain} `{HS : !store_for answers grain S abs wf room} `{Hclock : !quiet_clock Now abs wf room} :
  Processing.pool main_processor = Some p → svc_id ≠ shutdown_id → main_boots σ0 s0 →
  main_runs s0 s1 → System.ended (svcCtx Background svc_id) (sys s1) → main_runs s1 s →
  stopped_in_time (main_entrypoint opt) Background stop_id s →
  all_done (ep s) = true ∧ WorkerPool.queue (pl (sys s)) = [] ∧ NoDup (log (sys s)).*1 ∧
  (∀ i, i ∈ WorkerPool.queue (pl (sys s1)) → i ∉ woken (sys s1)) ∧
  ∀ i id, calls (sys s) !! i = Some id → enqueued (sys s) i →
    ∃ r, (id, r) ∈ log (sys s) ∧ (r = Confirmed_ → has_status (.= StatusConfirmed) (abs (world (sys s))) id) ∧
      (i ∉ woken (sys s1) → r = Interrupted ∧ ¬ has_status (.= StatusConfirmed) (abs (world (sys s))) id).
Proof.
  intros Hp Hne Hb Hr1 He Hr2 Hs. destruct (main_pool p Hp) as (Hsize & Hcap & Hdrain & Hd).
  assert (pool_index < length (services (main_entrypoint opt)))%nat as Hk
    by (rewrite main_services; unfold svcs; rewrite length_app; simpl; unfold pool_index; lia).
  destruct (shutdown_drains S Now main_processor p (main_entrypoint opt) Background svc_id stop_id shutdown_id
    pool_index pool_index abs wf room Hcap Hne σ0 s0 s Hb (app_runs_trans _ _ _ _ _ _ _ _ _ _ _ _ s0 s1 s Hr1 Hr2)
    Hsize Hdrain Hk Hs) as (H1 & _ & H2 & H3 & _).
  do 3 (split; [done|]).
  by apply (shutdown_outcomes S Now main_processor p (main_entrypoint opt) Background svc_id stop_id shutdown_id
    pool_index pool_index abs wf room Hcap Hne σ0 s0 s1 s).
Qed.
End main.

(** ** A run of main *)
Definition mex_pool : WorkerPool.Pool := WorkerPool.mkPool workerPoolSize (2 * workerPoolSize) true.
Definition mex_entrypoint : Entrypoint := main_entrypoint ([] : list nat).
Definition mex_start : @App.state InMemoryStore := mkApp (Entrypoint.init []) yex_start.
Definition mex_step : App.label → App.state → option App.state :=
  App.step pex_store (now pex_clock) main_processor mex_pool mex_entrypoint Background 1 2 3 pool_index pool_index.
Definition mex_exec (ls : list App.label) (s : @App.state InMemoryStore) : App.state := default s (exec mex_step ls s).

(** main is up: its seven services are launched and started, the hook has run. *)
Definition mex_up : list App.label :=
  [LEp LRun; LEp LNext] ++ replicate 7 (LEp LLaunch) ++ [LEp LNext; LEp (LHook None); LEp LNext] ++
  map (λ k, LEp (LStartCalled k)) (seq 0 7) ++
  LSys (LPool WorkerPool.LStart) :: replicate 4 (LSys (LPool WorkerPool.LSpawn)).
Definition mex_create : App.label := LSys (LCreate "alice" [mkItem "WIDGET" 2] 0).
(** SIGTERM arrives when the order is queued, and ends the services' context. *)
Definition mex_signal : list App.label :=
  [LSys (LEnqueue 0 Background); LSys (LPool (WorkerPool.LSend 0)); LEp (LSignal 15); LEp LSelectSignal;
   LSys (LPool (WorkerPool.LCancel (svcCtx Background 1) Canceled))].
(** The six services with a [Stop] are stopped, and the pool drains. *)
Definition mex_down : list App.label :=
  [LEp LNext] ++ replicate 7 (LEp LLaunch) ++ [LEp LNext] ++ map (λ k, LEp (LStopCalled k)) (seq 0 6) ++
  [LSys (LPool (WorkerPool.LStop 0 (stopCtx mex_entrypoint Background 2))); LSys (LPool WorkerPool.LClose);
   LSys (LPool (WorkerPool.LReceive 0)); LSys (LTask 0)] ++
  map (λ w, LSys (LPool (WorkerPool.LExit w))) (seq 0 4) ++
  [LSys (LPool WorkerPool.LReturn); LSys (LPool (WorkerPool.LStopDone 0))] ++
  map (λ k, LEp (LStartReturns k None)) (seq 0 7) ++ map (λ k, LEp (LStopReturns k)) (seq 0 6) ++ [LEp LAllDone; LEp LNext].
Definition mex_ended : App.state := mex_exec (mex_up ++ mex_create :: mex_signal) mex_start.
Definition mex_state : App.state := mex_exec mex_down mex_ended.

#[local] Notation mex_main_runs :=
  (main_runs pex_store (now pex_clock) ([] : list nat) mex_pool 1 2 3 mem_room).

Lemma mex_runs : mex_main_runs mex_start mex_ended.
Proof.
  unfold main_runs.
  eapply (app_runs_create pex_store (now pex_clock) main_processor mex_pool mex_entrypoint Background 1 2 3
    pool_index pool_index mem_room mex_start mex_up "alice" [mkItem "WIDGET" 2] 0 mex_signal (mex_exec mex_up mex_start));
    [reflexivity|vm_compute; reflexivity|by repeat constructor|done|reflexivity|].
  vm_compute. reflexivity.
Qed.

Lemma mex_stops : mex_main_runs mex_ended mex_state.
Proof.
  unfold main_runs.
  eapply (app_runs_exec pex_store (now pex_clock) main_processor mex_pool mex_entrypoint Background 1 2 3
    pool_index pool_index mem_room mex_ended mex_down mex_ended); [constructor|reflexivity|].
  vm_compute. reflexivity.
Qed.

Lemma mex_boots : main_boots ([] : list nat) 2 3 orders mem_wf mem_room [] mex_start.
Proof.
  split; [reflexivity|]. split; [exact yex_starts|].
  unfold fresh_contexts. repeat split; try done.
Qed.

Lemma mex_in_time : stopped_in_time mex_entrypoint Background 2 mex_state.
Proof.
  assert (match Entrypoint.at_ (ep mex_state) with Entrypoint.Done _ => true | _ => false end = true) as H
    by (vm_compute; reflexivity).
  split; [|vm_compute; reflexivity]. destruct (Entrypoint.at_ (ep mex_state)); try done. by eexists.
Qed.

Lemma main_graceful_shutdown_witness :
  WorkerPool.queue (pl (sys mex_ended)) = [0%nat] ∧ WorkerPool.queue (pl (sys mex_state)) = [] ∧
  has_status (.= StatusPending) (orders (world (sys mex_state))) "ord_1" ∧
  ∃ r, ("ord_1", r) ∈ log (sys mex_state) ∧ r = Interrupted ∧
    ¬ has_status (.= StatusConfirmed) (orders (world (sys mex_state))) "ord_1".
Proof.
  assert (WorkerPool.queue (pl (sys mex_ended)) = [0%nat]) as Hq by (vm_compute; reflexivity).
  assert (System.ended (svcCtx Background 1) (sys mex_ended)) as He by (vm_compute; discriminate).
  split; [exact Hq|].
  destruct (main_graceful_shutdown pex_store (now pex_clock) ([] : list nat) mex_pool 1 2 3 orders mem_wf mem_room
    [] mex_start mex_ended mex_state (HS := pex_contract) (Hclock := yex_quiet) eq_refl ltac:(done) mex_boots mex_runs
    He mex_stops mex_in_time) as (_ & Hq' & _ & Hw & Ha).
  split; [exact Hq'|]. split; [eexists; split; vm_compute; reflexivity|].
  destruct (Ha 0%nat "ord_1") as (r & Hr & _ & Hi); [vm_compute; reflexivity|exists Background; vm_compute; reflexivity|].
  exists r. split; [exact Hr|]. apply Hi, Hw. rewrite Hq. apply list_elem_of_here.
Defined.
